(* ===== verification/_CoqProject ===== *)
-Q . S2P
Prelude.v
Json.v
Grammar.v
Messages.v
Raid.v
RaidFacts.v
RaidLog.v
RaidSpec.v
Membership.v
Operations.v
Mailbox.v
MailboxSteps.v
MailboxFacts.v
MailboxInv.v
MailboxExec.v
MailboxSpec.v
MailboxFollows.v
CommandSpec.v
MailboxRaids.v
OperationNotices.v
Journal.v
JournalSpec.v
Worker.v
WorkerSpec.v
Framing.v
FramingFacts.v
Text.v
Paths.v
FramingSpec.v
EnvelopeSpec.v
Channel.v
ChannelSpec.v
ChannelReceive.v
Outbound.v
OutboundSpec.v
OutboundBounds.v
Controller.v
ControllerRaids.v
ControllerMessaging.v
ControllerHistory.v
ControllerSpec.v
Requests.v
RequestsSpec.v
Binds.v
BindsSpec.v
Config.v
ConfigSpec.v
Policy.v
Terminal.v
TerminalSpec.v
History.v
HistoryText.v
HistorySpec.v
HistoryStore.v
HistoryStoreSpec.v
HistoryQuiet.v
ControllerRecords.v
ControllerRecordsSpec.v
ConversationSpec.v
Codec.v
Protocol.v
Handoff.v
Writer.v
CodecFacts.v
ProtocolFacts.v
CommandTravels.v
EventTravels.v
MessageTravels.v
HandoffTravels.v
StartTravels.v
ProtocolSpec.v
WriterSpec.v
WriterOwners.v
Seccomp.v
Sandbox.v
SandboxSpec.v
Relay.v
RelaySpec.v
