(* ===== verification/Prelude.v ===== *)
(** * Goblins: verification of the daemon's core and of what surrounds it

    Goblins runs agents ("goblins") in sandboxes under one daemon. The daemon's
    event loop (the [Controller]) groups sessions into raids; members of a raid
    may message each other; a messaging worker thread owns the mailbox and the
    communications log; supervisors and clients talk to the daemon through
    framed JSON; a store of recreate records outlives it. This library models
    that core, and the validation of what configures a sandbox or leaves it, as
    executable definitions and proves what makes it correct.

    ** How the parts interact

    A raid mutation returns ordered events. The controller appends them to a
    bounded outbox, and hands the outbox over with the next messaging call or
    tick as one unit of work through a bounded channel. The worker records the
    events in the mailbox, which rebuilds the membership from them alone and
    authorizes every message by it, after writing the event to the log. The
    log is paged to clients and read back offline. Requests reach the daemon
    through the frame decoder; commands to a supervisor wait in a queue and
    leave through a channel that also carries descriptors. A manifest selects
    the configuration of a sandbox, whose policy says what the goblin in it
    may ask for; what it asks for is validated on both sides. The controller
    writes a record of each running goblin to the history store, whose writer
    thread keeps the directory in step with the memory. A sandbox connects to
    a relay of its supervisor, which checks each call at a gate and reports it
    as an event to the daemon.

    ** Files

    - [Prelude]: results with panics, the state-and-error monad, [keeps],
      64-bit integers with their wrap-around, sorted maps, list lemmas.
    - [Json]: [serde_json::Value] and the accessors the code uses. [Grammar]
      ([libs/api/src/lib.rs]) and [Messages] ([libs/api/src/messages.rs]): the
      name grammars, the mutations of a mailbox, their decoding and checks.
      [Text], [Paths]: the string and path functions of the Standard Library
      of Rust that the code calls, on bytes.
    - [Raid] ([packages/daemon/src/raid.rs]): [Raids] and its mutations.
      [RaidFacts]: the invariant [wf]. [RaidLog] ([apply_raid] of
      [mailbox.rs]): the membership view. [RaidSpec]: their theorems.
      [Membership]: the view under a log that refuses writes.
    - [Operations] ([operation.rs]) and [Mailbox] ([mailbox.rs]): one function
      per method, over the interface [Audit] of the log. [MailboxSteps]: the
      mailbox as a transition system; [MailboxFacts], [MailboxInv],
      [MailboxExec], [MailboxFollows]: its invariant and the cases of
      [execute]. [MailboxSpec], [CommandSpec], [MailboxRaids],
      [OperationNotices]: the theorems on the log and the limits, on each
      call, on the membership, and on operation notices.
    - [Journal] and [Worker] ([messaging.rs]): the log, its pages and offline
      reader, and the worker; [JournalSpec], [WorkerSpec].
    - [Framing] ([libs/jsonrpc/src/lib.rs]): strict parsing, envelopes, the
      decoder and the client's reader; [FramingFacts], [FramingSpec],
      [EnvelopeSpec].
    - [Channel] ([libs/runtime/src/channel.rs]): [ChannelSpec],
      [ChannelReceive]. [Outbound]
      ([libs/runtime/src/supervisor/outbound.rs], [Commands]):
      [OutboundSpec], [OutboundBounds].
    - [Codec]: the shapes of [serde]'s derived implementations. [Protocol]
      ([libs/runtime/src/supervisor.rs]): the messages of the supervisor, their
      checks and their frames; [Handoff] ([supervisor/handoff.rs], [lease.rs]):
      the decoder. [CodecFacts], [ProtocolFacts], [CommandTravels],
      [EventTravels], [MessageTravels], [HandoffTravels], [StartTravels]: each
      message through both; [ProtocolSpec]: the theorems on them. [Writer]
      ([outbound.rs], [Writer]): one message at a time to the channel;
      [WriterSpec]: what its receiver reads, [WriterOwners]: who owns what is
      handed over.
    - [Controller], [ControllerMessaging] ([packages/daemon/src/controller.rs])
      and [ControllerRaids] ([controller/raids.rs]): the controller's raids,
      outbox and channel. [ControllerHistory]: what each operation does to the
      history of the raids. [ControllerSpec]: the controller, the channel and
      the worker as one transition system.
    - [Requests] ([rpc.rs], [editor.rs], [patch.rs] of [libs/api],
      [libs/runtime/src/devshell.rs], the editor of [sandbox-cli] and
      [controller/editor.rs]): what a sandbox sends; [RequestsSpec].
    - [Binds] ([libs/runtime/src/binds.rs]): host paths; [BindsSpec].
      [Config] ([config.rs], [config/manifest.rs]): templates, handlers and
      the selection from a manifest; [ConfigSpec]. [Policy] ([policy.rs]):
      what a goblin may do, with its theorems. [Seccomp]
      ([libs/supervisor/src/seccomp.rs]): the system call filters and what
      they decide.
    - [Sandbox] ([libs/runtime/src/sandbox.rs]): the gate of a sandbox's
      requests; [SandboxSpec]. [Relay] ([libs/supervisor/src/relay.rs]): the
      connections of a sandbox; [RelaySpec].
    - [Terminal] ([libs/api/src/terminal.rs]): the raw terminal relay;
      [TerminalSpec].
    - [History] ([packages/daemon/src/history.rs], [Record] and [Prune], and
      [libs/runtime/src/history.rs]); [HistoryText]: a text for the examples;
      [HistorySpec]. [HistoryStore] ([history.rs], [Store] and its writer):
      [HistoryStoreSpec] under crashes, [HistoryQuiet] when calls succeed.
      [ControllerRecords] ([controller.rs]): the records of its goblins, the
      conversations that share one, listings and prunes;
      [ControllerRecordsSpec], [ConversationSpec].

    ** What the theorems show

    Raids: the two indexes agree, a session is in at most one raid, owners are
    members, refused mutations change nothing, and replaying the events gives
    the membership back. Mailbox: the log is numbered and never behind the
    state, messages only move forward, each inbox serves its oldest message,
    the capacity limits hold and reserve the room to finish what was accepted;
    retries are idempotent, only raid members reach each other, spent claims
    are void. Logs: what was written reads back, pages are contiguous.
    Worker: it is the mailbox, call by call, and answers each request once.
    Transport: bounded memory, one deadline per frame, independence of how a
    stream is cut, round trips, exact descriptor references, atomic queueing,
    order; the reader accepts exactly the envelopes within its limits. Command
    queue: every accepted request is settled once, within the limits, and the
    commands that nothing replaces keep their order. Supervisor protocol: every message arrives as itself,
    a handoff from as many frames as its leases fill; what the writer's channel
    carries is read as the commands it committed, cancellations between the batches of a
    handoff included, and a transfer stays with the writer until its adoption
    is acknowledged, once. The controller, its channel and the worker together:
    every call is authorized by the membership of its time.

    Sandboxes: expanding a path is one substitution, a selection mounts only
    what the manifest grants and never a protected tree, the values a handler
    waits for make its arguments buildable, editor and patch requests are
    valid when they leave the sandbox, an operation is refused exactly by the
    features it lacks. The filters deny the calls that mount, trace or enter and
    make namespaces and allow the others, by the documented numbers of the
    kernel's interface. A call of a sandbox passes the gate exactly when the
    policy grants what it asks for, and reaches the daemon only then; of each
    connection the opening, at most two calls and the closing are told in
    that order, and the relay's memory is bounded. Terminal: no byte is lost or reordered between the
    client and the process, ended streams are drained, the status is the
    recorded one. Records: the package lists are the last final outcomes, a
    record gives up the least to fit, prunes and retention select exactly
    what they say, a crash at any system call loses no record that was not
    asked to be deleted and leaves no partial one, and a store with nothing
    queued has on disk what it has in memory, but for records that are changed
    while they are being deleted. The controller's records: a record of a
    running goblin is never deleted and the directory follows the memory, but
    for records whose goblin's end comes during their deletion: these come
    back; a conversation has one record, a prune is answered once, a listing
    is a prefix of what there is.

    ** Conventions

    A method on [&mut self] is a computation [M S E A]: the old state to an
    outcome and the new state, which keeps the mutations made before an error.
    An [expect], an [unwrap] or an index that fails is the outcome [Panic].
    Maps are [gmap]s, iterated in ascending order of their keys as a
    [BTreeMap]. [usize] and [u64] are [N] with the wrap-around, saturation or
    check the code has. A value of the code with [..Default::default()] or a
    field that was assigned is a record built in full.

    Code outside the repository is a parameter: the audit sink ([Audit], with
    [AuditLaws]), the JSON text ([JsonText] with [JsonNests], [EventJson], [RecordText] with
    [RecordTextLaws]), the texts of [serde]'s errors, the host's environment.
    The types the supervisor protocol carries from other modules come with
    their serialization ([Payloads]), and a field that is to arrive is one
    whose serialization reads back. The kernel's answers to [read], [write],
    [poll], [sendmsg], [recvmsg] and to the calls on files, and the clock, are
    arguments, one answer per call; loops over them recurse on the list of
    answers. In the terminal relay and
    the history store a list that runs out is a stop: of the trace, or of the
    machine.

    Fuel, and why it is enough: the page count of the offline reader is one
    more than the events of the log, and every page but the last takes one;
    [expand_loop] and [substitute_loop] get the length of their text and each
    round takes at least a byte of it; [trim_matches] likewise; the loops of
    [fit] count down the lists they shorten.

    ** Findings

    An event whose line exceeds a page is never passed, and the offline
    reader then repeats one page for ever ([JournalSpec]). The daemon bounds
    what it logs below that size; the reader does not check. The end of a
    goblin that is recorded while its record is being deleted writes the file
    of the record again, behind the deletion ([ControllerRecordsSpec]).

    ** Not modelled

    Of [controller.rs]: connections, launches, approvals, runtimes, terminals,
    execs, edits and host jobs; [stop] is modelled in its effect on session
    and permission records and operation events. Of
    [history.rs]: the lock of [open] and the calendar ([parse_date],
    [local_time]). The supervisor's engine and sessions, the code that starts
    sandboxes, scopes, mounts and containers, the terminal interface, command lines and
    adapters are mostly system calls, processes and terminals. Descriptors
    are numbers: that a closed one is not used again is stated where a call
    takes or returns ownership, not by the types. *)
From stdpp Require Export base gmap sets list strings pretty sorting fin_maps.
From Stdlib Require Export NArith ZArith Lia.
From Stdlib Require Import Ascii.

#[global] Set Default Proof Using "Type".
#[global] Open Scope general_if_scope.

(** ** Results, panics and the state-and-error monad

    A Rust function taking [&mut self] and returning [Result<T, E>] is a
    function of the old state to an outcome and the new state. The state is
    returned on the error path too, because Rust keeps every mutation made
    before the early return. [Panic] is the outcome of a failed [expect]. *)

Inductive res (E A : Type) : Type :=
| Ok (a : A)
| Err (e : E)
| Panic.
Arguments Ok {E A} a.
Arguments Err {E A} e.
Arguments Panic {E A}.

(** The [Result] monad of functions without mutable state. *)
#[export] Instance res_ret {E} : MRet (res E) := λ A a, Ok a.
#[export] Instance res_bind {E} : MBind (res E) := λ A B f m,
  match m with Ok a => f a | Err e => Err e | Panic => Panic end.
Definition res_ok_or {E A} (o : option A) (e : E) : res E A :=
  match o with Some a => Ok a | None => Err e end.
(** [result.ok()]. *)
Definition res_ok {E A} (r : res E A) : option A :=
  match r with Ok a => Some a | _ => None end.
Definition map_err {E F A} (f : E → F) (r : res E A) : res F A :=
  match r with Ok a => Ok a | Err e => Err (f e) | Panic => Panic end.

Definition M (S E A : Type) : Type := S → res E A * S.

Section monad.
Context {S E : Type}.

#[export] Instance M_ret : MRet (M S E) := λ A a s, (Ok a, s).
#[export] Instance M_bind : MBind (M S E) := λ A B f m s,
  match m s with
  | (Ok a, s') => f a s'
  | (Err e, s') => (Err e, s')
  | (Panic, s') => (Panic, s')
  end.

Definition get : M S E S := λ s, (Ok s, s).
Definition put (s : S) : M S E unit := λ _, (Ok tt, s).
Definition modify (f : S → S) : M S E unit := λ s, (Ok tt, f s).
Definition throw {A} (e : E) : M S E A := λ s, (Err e, s).

(** [option.ok_or_else(..)?] *)
Definition ok_or {A} (o : option A) (e : E) : M S E A :=
  match o with Some a => mret a | None => throw e end.
(** [option.expect(..)] *)
Definition expect {A} (o : option A) : M S E A :=
  match o with Some a => mret a | None => λ s, (Panic, s) end.
(** [if c { return Err(e) }] *)
Definition refuse (c : bool) (e : E) : M S E unit :=
  if c then throw e else mret tt.
(** [result?] for a function without access to the state *)
Definition lift {A} (r : res E A) : M S E A := λ s, (r, s).

(** [for a in l { f(a)?; }] *)
Fixpoint for_each {A} (f : A → M S E unit) (l : list A) : M S E unit :=
  match l with
  | [] => mret tt
  | a :: l => _ ← f a; for_each f l
  end.
End monad.

(** The outcome and the state a computation leaves behind. *)
Definition outcome_of {S E A} (m : M S E A) (s : S) : res E A := (m s).1.
Definition state_of {S E A} (m : M S E A) (s : S) : S := (m s).2.

(** [let _ = f(..);]: the result is dropped, the mutations stay. *)
Definition ignore {S E E' A} (m : M S E A) : M S E' unit := λ s,
  match m s with
  | (Panic, s') => (Panic, s')
  | (_, s') => (Ok tt, s')
  end.

(** Run a computation on one field of a larger state. *)
Definition zoom {S T E A} (proj : T → S) (set : S → T → T) (m : M S E A) : M T E A :=
  λ t, let '(r, s) := m (proj t) in (r, set s t).

(** ** Running a computation *)
Lemma bind_Ok {S E A B} (m : M S E A) (f : A → M S E B) s b s' :
  (m ≫= f) s = (Ok b, s') ↔ ∃ a s1, m s = (Ok a, s1) ∧ f a s1 = (Ok b, s').
Proof. unfold mbind, M_bind. destruct (m s) as [[a|e|] s1]; naive_solver. Qed.
Lemma bind_run {S E A B} (m : M S E A) (f : A → M S E B) s a s1 :
  m s = (Ok a, s1) → (m ≫= f) s = f a s1.
Proof. unfold mbind, M_bind. by intros ->. Qed.
Lemma lift_Ok {S E A} (r : res E A) (s s' : S) a : lift r s = (Ok a, s') ↔ r = Ok a ∧ s' = s.
Proof. unfold lift. split; [by intros [= -> ->]|by intros [-> ->]]. Qed.
Lemma refuse_Ok {S E} (c : bool) (e : E) (s s' : S) u :
  refuse c e s = (Ok u, s') ↔ c = false ∧ s' = s.
Proof.
  unfold refuse, throw, mret, M_ret. destruct c, u;
    (split; [intros Heq; by simplify_eq|by intros [? ->]]).
Qed.
Lemma ret_Ok {S E A} (a b : A) (s s' : S) : (mret a : M S E A) s = (Ok b, s') ↔ a = b ∧ s' = s.
Proof. unfold mret, M_ret. split; [intros Heq; by simplify_eq|by intros [-> ->]]. Qed.
Lemma refuse_run {S E B} (c : bool) (e : E) (f : unit → M S E B) s :
  c = false → (refuse c e ≫= f) s = f tt s.
Proof. by intros ->. Qed.
Lemma lift_run {S E A B} (r : res E A) (f : A → M S E B) s a :
  r = Ok a → (lift r ≫= f) s = f a s.
Proof. by intros ->. Qed.
Lemma zoom_Ok {S T E A} (proj : T → S) (set : S → T → T) (m : M S E A) s a s' :
  zoom proj set m s = (Ok a, s') ↔ ∃ x, m (proj s) = (Ok a, x) ∧ s' = set x s.
Proof.
  unfold zoom. destruct (m (proj s)) as [r x]. split; [intros [= -> <-]; by exists x|].
  by intros (y & [= -> ->] & ->).
Qed.

(** Reduce the combinators of the monad, leaving the operations folded. *)
Ltac munfold :=
  unfold outcome_of, state_of, ignore, zoom, refuse, expect, ok_or, lift in *;
  repeat (cbn [mbind M_bind mret M_ret get put modify throw for_each fst snd] in *;
          unfold mbind, mret, M_bind, M_ret, get, put, modify, throw in *).

(** Split every match and conditional of a goal, keeping the equations. *)
Ltac msplit :=
  repeat (case_match || case_decide); simplify_eq/=.

(** ** Invariants of computations

    [keeps I m]: from a state in [I], [m] neither panics nor leaves [I],
    whether it returns or fails. *)
Section keeps.
Context {S E : Type}.
Implicit Types I : S → Prop.

Definition keeps {A} I (m : M S E A) : Prop :=
  ∀ s, I s → outcome_of m s ≠ Panic ∧ I (state_of m s).

Lemma keeps_ret {A} I (a : A) : keeps I (mret a).
Proof. by intros s Hs. Qed.
Lemma keeps_throw {A} I (e : E) : keeps I (throw e : M S E A).
Proof. by intros s Hs. Qed.
Lemma keeps_refuse I (c : bool) (e : E) : keeps I (refuse c e).
Proof. unfold refuse. destruct c; [apply keeps_throw|apply keeps_ret]. Qed.
Lemma keeps_bind {A B} I (m : M S E A) (f : A → M S E B) :
  keeps I m → (∀ a, keeps I (f a)) → keeps I (m ≫= f).
Proof.
  intros Hm Hf s Hs. destruct (Hm s Hs) as [Hp Hi].
  unfold outcome_of, state_of, mbind, M_bind in *.
  destruct (m s) as [[a|e|] s']; simpl in *; try done. by apply Hf.
Qed.
(** Reading the state binds its current value. *)
Lemma keeps_get {A} I (f : S → M S E A) :
  (∀ s, I s → outcome_of (f s) s ≠ Panic ∧ I (state_of (f s) s)) →
  keeps I (get ≫= f).
Proof. intros Hf s Hs. by apply Hf. Qed.
Lemma keeps_modify I (f : S → S) : (∀ s, I s → I (f s)) → keeps I (modify f).
Proof. intros Hf s Hs. split; [done|by apply Hf]. Qed.
Lemma keeps_for_each {A} I (f : A → M S E unit) l :
  (∀ a, a ∈ l → keeps I (f a)) → keeps I (for_each f l).
Proof.
  induction l as [|a l IH]; intros Hf; [apply keeps_ret|]. simpl.
  apply keeps_bind; [apply Hf; left|]. intros _. apply IH.
  intros b Hb. apply Hf. by right.
Qed.
End keeps.

Lemma keeps_ignore {S E E' A} (I : S → Prop) (m : M S E A) :
  keeps I m → keeps I (ignore m : M S E' unit).
Proof.
  intros Hm s Hs. destruct (Hm s Hs) as [Hp Hi].
  unfold outcome_of, state_of, ignore in *.
  destruct (m s) as [[a|e|] s']; by simpl in *.
Qed.

Create HintDb keeps.
#[export] Hint Resolve keeps_ret keeps_throw keeps_refuse keeps_bind
  keeps_modify keeps_for_each keeps_ignore : keeps.

(** ** Machine integers

    [u64] and [usize] values are [N]. An unchecked [+] wraps modulo [2^64]
    (release builds do not check overflow); [checked_add] is explicit. *)
Definition u64_modulus : N := 18446744073709551616.
Definition u64_max : N := 18446744073709551615.
Definition u64_add (a b : N) : N := ((a + b) mod u64_modulus)%N.
Definition u64_checked_add (a b : N) : option N :=
  if (a + b <? u64_modulus)%N then Some (a + b)%N else None.
Definition u64_saturating_add (a b : N) : N := N.min (a + b) u64_max.
Definition u64_saturating_sub (a b : N) : N := (a - b)%N.

Lemma u64_add_small a b : (a + b < u64_modulus)%N → u64_add a b = (a + b)%N.
Proof. apply N.mod_small. Qed.
Lemma u64_checked_add_Some a b c :
  u64_checked_add a b = Some c ↔ c = (a + b)%N ∧ (a + b < u64_modulus)%N.
Proof.
  unfold u64_checked_add. destruct (N.ltb_spec (a + b) u64_modulus).
  - split; [intros [= <-]; done|by intros [-> _]].
  - split; [done|intros [_ ?]; lia].
Qed.

(** [len()] of a vector, map or string, as a [usize]. *)
Definition lenN {A} (l : list A) : N := N.of_nat (length l).
Definition strlen (s : string) : N := N.of_nat (String.length s).

(** ** Bytes and strings

    A Rust [String] is the list of its UTF-8 bytes, so [len] and [bytes] are
    those of Rocq's byte strings. *)
Definition bytes (s : string) : list ascii := String.list_ascii_of_string s.
Definition byte_in (lo hi : N) (c : ascii) : bool :=
  (lo <=? N_of_ascii c)%N && (N_of_ascii c <=? hi)%N.
Definition is_ascii_lowercase := byte_in 97 122.
Definition is_ascii_uppercase := byte_in 65 90.
Definition is_ascii_alphabetic (c : ascii) : bool :=
  is_ascii_lowercase c || is_ascii_uppercase c.
Definition is_ascii_digit := byte_in 48 57.
Definition is_ascii_alphanumeric (c : ascii) : bool :=
  is_ascii_alphabetic c || is_ascii_digit c.
Definition is_ascii_hexdigit (c : ascii) : bool :=
  is_ascii_digit c || byte_in 97 102 c || byte_in 65 70 c.
Definition is_byte (b c : ascii) : bool := Ascii.eqb b c.

(** [(lo..=hi).contains(&n)]. *)
Definition within (lo hi n : N) : bool := (lo <=? n)%N && (n <=? hi)%N.

Definition string_eqb (a b : string) : bool := bool_decide (a = b).
Definition opt_string_eqb (a b : option string) : bool := bool_decide (a = b).

(** [usize::MAX]-free decimal formatting, as [format!] prints a [u64]. *)
Definition show (n : N) : string := pretty n.

(** ** [BTreeMap]

    A map with string keys is a [gmap]; whatever the code iterates over goes
    through [entries], which lists the map in ascending byte order of its
    keys, as a [BTreeMap] does. *)
Definition key_le {V} (a b : string * V) : Prop := String.le a.1 b.1.
#[export] Instance key_le_dec {V} : RelDecision (@key_le V).
Proof. intros a b. unfold key_le. apply _. Defined.
#[export] Instance key_le_total {V} : Total (@key_le V).
Proof. intros a b. unfold key_le. destruct (total String.le a.1 b.1); auto. Qed.

Definition entries {V} (m : gmap string V) : list (string * V) :=
  merge_sort key_le (map_to_list m).
Definition keys {V} (m : gmap string V) : list string := (entries m).*1.
Definition values {V} (m : gmap string V) : list V := (entries m).*2.
Definition set_entries (s : gset string) : list string :=
  merge_sort String.le (elements s).

Section entries.
Context {V : Type}.
Implicit Types m : gmap string V.

Lemma entries_perm m : entries m ≡ₚ map_to_list m.
Proof. apply merge_sort_Permutation. Qed.
Lemma elem_of_entries m k v : (k, v) ∈ entries m ↔ m !! k = Some v.
Proof. by rewrite entries_perm, elem_of_map_to_list. Qed.
Lemma elem_of_keys m k : k ∈ keys m ↔ is_Some (m !! k).
Proof.
  unfold keys. rewrite list_elem_of_fmap. split.
  - intros ([k' v] & -> & Hin). apply elem_of_entries in Hin. by exists v.
  - intros [v Hv]. exists (k, v). by rewrite elem_of_entries.
Qed.
Lemma elem_of_values m v : v ∈ values m ↔ ∃ k, m !! k = Some v.
Proof.
  unfold values. rewrite list_elem_of_fmap. split.
  - intros ([k v'] & -> & Hin). apply elem_of_entries in Hin. by exists k.
  - intros [k Hv]. exists (k, v). by rewrite elem_of_entries.
Qed.
Lemma NoDup_keys m : NoDup (keys m).
Proof. unfold keys. rewrite entries_perm. apply NoDup_fst_map_to_list. Qed.
Lemma entries_empty : entries (∅ : gmap string V) = [].
Proof. unfold entries. by rewrite map_to_list_empty. Qed.
Lemma keys_nil m : keys m = [] ↔ m = ∅.
Proof.
  split; [|intros ->; unfold keys; by rewrite entries_empty].
  intros Hk. apply map_empty. intros k. destruct (m !! k) eqn:Hm; [|done].
  assert (k ∈ keys m) as Hin by (apply elem_of_keys; eauto).
  rewrite Hk in Hin. by apply not_elem_of_nil in Hin.
Qed.
Lemma keys_sorted m : StronglySorted String.le (keys m).
Proof.
  unfold keys, entries.
  assert (StronglySorted key_le (merge_sort key_le (map_to_list m))) as Hs.
  { apply StronglySorted_merge_sort; [|apply _].
    intros x y z. unfold key_le. by intros ->. }
  induction Hs as [|a l Hs IH Hall]; simpl; constructor; [done|].
  by apply Forall_fmap.
Qed.
Lemma length_keys m : length (keys m) = size m.
Proof.
  unfold keys. rewrite length_fmap, entries_perm. apply length_map_to_list.
Qed.
End entries.

Lemma elem_of_set_entries (s : gset string) k : k ∈ set_entries s ↔ k ∈ s.
Proof. unfold set_entries. by rewrite merge_sort_Permutation, elem_of_elements. Qed.

(** ** Filters *)
Section filters.
Context {A : Type}.
Implicit Types (P Q : A → Prop) (l : list A).

Lemma filter_ext_in P Q `{∀ x, Decision (P x), ∀ x, Decision (Q x)} l :
  (∀ x, x ∈ l → P x ↔ Q x) → filter P l = filter Q l.
Proof.
  induction l as [|x l IH]; intros Hl; [done|]. rewrite !filter_cons.
  rewrite IH by (intros y Hy; apply Hl; by right).
  assert (P x ↔ Q x) by (apply Hl; by left). do 2 case_decide; tauto || done.
Qed.
Lemma filter_all_in P `{∀ x, Decision (P x)} l : (∀ x, x ∈ l → P x) → filter P l = l.
Proof.
  induction l as [|x l IH]; intros Hl; [done|]. rewrite filter_cons, decide_True.
  - f_equal. apply IH. intros y Hy. apply Hl. by right.
  - apply Hl. by left.
Qed.
Lemma filter_nil_ext P `{∀ x, Decision (P x)} l : (∀ x, x ∈ l → ¬ P x) → filter P l = [].
Proof.
  induction l as [|x l IH]; intros Hl; [done|]. rewrite filter_cons, decide_False.
  - apply IH. intros y Hy. apply Hl. by right.
  - apply Hl. by left.
Qed.
End filters.

(** ** The first element that satisfies a test *)
Section find.
Context {A : Type} (p : A → bool).
Implicit Types l : list A.

Lemma find_Some_lookup l x :
  List.find p l = Some x →
  ∃ i, l !! i = Some x ∧ p x = true ∧ ∀ j y, (j < i)%nat → l !! j = Some y → p y = false.
Proof.
  induction l as [|y l IH]; simpl; [done|]. destruct (p y) eqn:Hy.
  - intros [= <-]. exists 0%nat. split_and!; [done|done|lia].
  - intros (i & Hi & Hx & Hj)%IH. exists (S i). split_and!; [done|done|].
    intros [|j] z Hlt Hz; [by injection Hz as <-|]. apply (Hj j); [lia|done].
Qed.
Lemma find_lookup_Some l i x :
  l !! i = Some x → p x = true → (∀ j y, (j < i)%nat → l !! j = Some y → p y = false) →
  List.find p l = Some x.
Proof.
  revert i. induction l as [|y l IH]; intros i Hi Hx Hj; [done|]. simpl.
  destruct i as [|i]; [injection Hi as ->; by rewrite Hx|].
  rewrite (Hj 0%nat y) by (done || lia). apply (IH i); [done..|].
  intros j z Hlt Hz. apply (Hj (S j)); [lia|done].
Qed.
Lemma find_None_elem l x : List.find p l = None → x ∈ l → p x = false.
Proof. intros Hf Hx. apply (List.find_none _ _ Hf). by apply list_elem_of_In. Qed.
End find.
