(* ===== verification/Json.v ===== *)
(** * JSON values

    [serde_json::Value] as the source uses it: the six kinds of value the
    code builds with [json!] and matches on, objects as the ascending
    association list of their [Map] (a [BTreeMap]), indexing and the [as_*]
    accessors. The parser and printer of the library are not modelled here;
    where a component depends on them they are its parameters. *)
From S2P Require Import Prelude.

Declare Scope json_scope.
Delimit Scope json_scope with json.

Inductive Value : Type :=
| Null
| Bool (b : bool)
| Number (z : Z)
| Float (bits : Z)
| String_ (s : string)
| Array (l : list Value)
| Object (o : list (string * Value)).

Section value_ind.
Context (P : Value → Prop)
  (Hnull : P Null) (Hbool : ∀ b, P (Bool b)) (Hnum : ∀ z, P (Number z))
  (Hfloat : ∀ z, P (Float z)) (Hstr : ∀ s, P (String_ s))
  (Harr : ∀ l, Forall P l → P (Array l))
  (Hobj : ∀ o, Forall (λ kv, P kv.2) o → P (Object o)).
(** Induction through the members of arrays and objects. *)
Fixpoint Value_nested_ind (v : Value) : P v :=
  match v with
  | Null => Hnull | Bool b => Hbool b | Number z => Hnum z | Float z => Hfloat z
  | String_ s => Hstr s
  | Array l => Harr l ((fix go l := match l return Forall P l with
      | [] => Forall_nil_2 _
      | v :: l => Forall_cons_2 _ _ _ (Value_nested_ind v) (go l) end) l)
  | Object o => Hobj o ((fix go o := match o return Forall (λ kv, P kv.2) o with
      | [] => Forall_nil_2 _
      | kv :: o => Forall_cons_2 _ _ _ (Value_nested_ind kv.2) (go o) end) o)
  end.
End value_ind.

Fixpoint value_eqb (a b : Value) : bool :=
  match a, b with
  | Null, Null => true
  | Bool x, Bool y => Bool.eqb x y
  | Number x, Number y => (x =? y)%Z
  | Float x, Float y => (x =? y)%Z
  | String_ x, String_ y => bool_decide (x = y)
  | Array x, Array y => (fix go x y := match x, y with
      | [], [] => true
      | v :: x, w :: y => value_eqb v w && go x y
      | _, _ => false end) x y
  | Object x, Object y => (fix go x y := match x, y with
      | [], [] => true
      | (k, v) :: x, (l, w) :: y => bool_decide (k = l) && value_eqb v w && go x y
      | _, _ => false end) x y
  | _, _ => false
  end.

Lemma value_eqb_eq a b : value_eqb a b = true ↔ a = b.
Proof.
  revert b. induction a as [| | | | |l IH|o IH] using Value_nested_ind;
    intros []; simpl; try naive_solver.
  - rewrite Bool.eqb_true_iff. naive_solver.
  - rewrite Z.eqb_eq. naive_solver.
  - rewrite Z.eqb_eq. naive_solver.
  - rewrite bool_decide_eq_true. naive_solver.
  - rename l0 into k. revert k. induction IH as [|v l Hv _ IHl]; intros [|w k]; try done.
    rewrite andb_true_iff, Hv, IHl. naive_solver.
  - rename o0 into k. revert k.
    induction IH as [|[x v] o Hv _ IHo]; intros [|[y w] k]; try done. simpl in Hv.
    rewrite !andb_true_iff, bool_decide_eq_true, Hv, IHo. naive_solver.
Qed.
#[export] Instance Value_eq_dec : EqDecision Value.
Proof.
  intros a b. destruct (value_eqb a b) eqn:He; [left|right].
  - by apply value_eqb_eq.
  - intros ->. by rewrite (proj2 (value_eqb_eq b b) eq_refl) in He.
Defined.

(** [Map::insert]: replace an equal key, or insert in ascending order. *)
Fixpoint object_insert (k : string) (v : Value) (o : list (string * Value)) :
    list (string * Value) :=
  match o with
  | [] => [(k, v)]
  | (k', v') :: o' =>
      if bool_decide (k = k') then (k, v) :: o'
      else if String.leb k k' then (k, v) :: o
      else (k', v') :: object_insert k v o'
  end.
Fixpoint object_get (o : list (string * Value)) (k : string) : option Value :=
  match o with
  | [] => None
  | (k', v) :: o' => if bool_decide (k = k') then Some v else object_get o' k
  end.
Fixpoint object_remove (k : string) (o : list (string * Value)) : list (string * Value) :=
  match o with
  | [] => []
  | (k', v) :: o' => if bool_decide (k = k') then o' else (k', v) :: object_remove k o'
  end.

(** [json!({k: v, ..})]. *)
Definition json_object (kvs : list (string * Value)) : Value :=
  Object (foldl (λ o kv, object_insert kv.1 kv.2 o) [] kvs).

(** [value.get(k)], [value[k]] and [value[k] = v] (a panic, [None], when
    [value] is neither an object nor null). *)
Definition value_get (v : Value) (k : string) : option Value :=
  match v with Object o => object_get o k | _ => None end.
Definition value_index (v : Value) (k : string) : Value := default Null (value_get v k).
Definition value_set (v : Value) (k : string) (x : Value) : option Value :=
  match v with
  | Object o => Some (Object (object_insert k x o))
  | Null => Some (Object [(k, x)])
  | _ => None
  end.

Definition as_str (v : Value) : option string :=
  match v with String_ s => Some s | _ => None end.
Definition as_array (v : Value) : option (list Value) :=
  match v with Array l => Some l | _ => None end.
Definition as_object (v : Value) : option (list (string * Value)) :=
  match v with Object o => Some o | _ => None end.
Definition as_u64 (v : Value) : option N :=
  match v with
  | Number z => if (0 <=? z)%Z && (z <? 18446744073709551616)%Z then Some (Z.to_N z) else None
  | _ => None
  end.
Definition as_i64 (v : Value) : option Z :=
  match v with
  | Number z =>
      if (-9223372036854775808 <=? z)%Z && (z <? 9223372036854775808)%Z then Some z else None
  | _ => None
  end.
Definition is_null (v : Value) : bool := match v with Null => true | _ => false end.

(** Serialization of the scalar and container types. *)
Definition json_u64 (n : N) : Value := Number (Z.of_N n).
Definition json_opt {A} (f : A → Value) (o : option A) : Value :=
  match o with Some a => f a | None => Null end.
Definition json_opt_str (o : option string) : Value := json_opt String_ o.
Definition json_strs (l : list string) : Value := Array (String_ <$> l).

Lemma object_get_insert_eq k v o : object_get (object_insert k v o) k = Some v.
Proof.
  induction o as [|[k' v'] o IH]; simpl; [by rewrite bool_decide_true|].
  case_bool_decide; simpl; [by rewrite bool_decide_true|].
  case_match; simpl; [by rewrite bool_decide_true|by rewrite bool_decide_false].
Qed.
Lemma object_get_insert_ne k k' v o :
  k ≠ k' → object_get (object_insert k v o) k' = object_get o k'.
Proof.
  intros Hne. induction o as [|[k1 v1] o IH]; simpl; [by rewrite bool_decide_false|].
  case_bool_decide; subst; simpl.
  - by rewrite !(bool_decide_false (k' = k1)) by done.
  - case_match; simpl; [by rewrite (bool_decide_false (k' = k)) by done|].
    by rewrite IH.
Qed.
Lemma value_set_get v k x v' : value_set v k x = Some v' → value_index v' k = x.
Proof.
  unfold value_index. destruct v; simpl; intros [= <-]; simpl;
    [by rewrite bool_decide_true|by rewrite object_get_insert_eq].
Qed.
Lemma as_u64_json_u64 n : (n < u64_modulus)%N → as_u64 (json_u64 n) = Some n.
Proof.
  unfold u64_modulus. intros Hn. unfold as_u64, json_u64.
  assert ((0 <=? Z.of_N n)%Z && (Z.of_N n <? 18446744073709551616)%Z = true) as ->.
  { apply andb_true_iff. split; [apply Z.leb_le|apply Z.ltb_lt]; lia. }
  by rewrite N2Z.id.
Qed.
