(* ===== verification/Grammar.v ===== *)
(** * Name grammars shared by the daemon and the sandbox

    [libs/api/src/lib.rs]: environment names, recreate variables, scope and
    package names, identifiers and the terminal-safe text escape, with the
    agent-name grammar of [packages/daemon/src/controller.rs] that raids use
    for their names and roles. *)
From S2P Require Import Prelude.
From Stdlib Require Import Ascii.

Definition MAX_VARIABLES : N := 16.

Definition underscore : ascii := "_".
Definition hyphen : ascii := "-".
Definition dot : ascii := ".".

(** [name.bytes()] with a predicate on the first byte and one on the rest;
    an empty name fails at [next()]. *)
Definition head_and_tail (first rest : ascii → bool) (l : list ascii) : bool :=
  match l with [] => false | b :: l => first b && forallb rest l end.

Definition env_name (name : string) : bool :=
  within 1 256 (strlen name) &&
  head_and_tail (λ b, is_ascii_alphabetic b || is_byte b underscore)
    (λ b, is_ascii_alphanumeric b || is_byte b underscore) (bytes name).

Definition variable_key (key : string) : bool :=
  within 1 32 (strlen key) &&
  head_and_tail is_ascii_lowercase
    (λ b, is_ascii_lowercase b || is_ascii_digit b || is_byte b underscore) (bytes key).

Definition scope_name (name : string) : bool :=
  within 1 64 (strlen name) &&
  head_and_tail (λ b, is_ascii_alphabetic b || is_byte b underscore)
    (λ b, is_ascii_alphanumeric b || is_byte b underscore || is_byte b hyphen) (bytes name).

(** [name.split('.')]: the parts between separators, never an empty list. *)
Fixpoint split_on (sep : ascii) (l : list ascii) : list (list ascii) :=
  match l with
  | [] => [[]]
  | b :: l =>
      if is_byte b sep then [] :: split_on sep l
      else match split_on sep l with
           | [] => [[b]]
           | part :: parts => (b :: part) :: parts
           end
  end.

Definition package_part (part : list ascii) : bool :=
  head_and_tail (λ b, is_ascii_alphabetic b || is_byte b underscore)
    (λ b, is_ascii_alphanumeric b || is_byte b underscore || is_byte b hyphen) part.
Definition package_name (name : string) : bool :=
  negb (string_eqb name "") && (strlen name <=? 200)%N &&
  forallb package_part (split_on dot (bytes name)).

Definition identifier (name : string) : bool :=
  within 1 64 (strlen name) &&
  forallb (λ b, is_ascii_alphanumeric b || is_byte b underscore || is_byte b hyphen)
    (bytes name).

(** [name.as_bytes()[0]] panics on an empty name; the length guard before it
    short-circuits that case. *)
Definition valid_agent_name (name : string) : bool :=
  within 1 32 (strlen name) &&
  match bytes name with
  | [] => false
  | b :: _ => is_ascii_lowercase b
  end &&
  forallb (λ b, is_ascii_lowercase b || is_ascii_digit b || is_byte b hyphen) (bytes name).

(** ** Characters of a UTF-8 string

    [s.chars()] on the bytes of a (valid) Rust string, and [char::to_string]. *)
Fixpoint utf8_decode (l : list ascii) : list N :=
  match l with
  | [] => []
  | b0 :: l0 =>
      let n0 := N_of_ascii b0 in
      if (n0 <? 128)%N then n0 :: utf8_decode l0 else
      match l0 with
      | [] => []
      | b1 :: l1 =>
          let n1 := (N_of_ascii b1 mod 64)%N in
          if (n0 <? 224)%N then ((n0 mod 32) * 64 + n1)%N :: utf8_decode l1 else
          match l1 with
          | [] => []
          | b2 :: l2 =>
              let n2 := (N_of_ascii b2 mod 64)%N in
              if (n0 <? 240)%N
              then ((n0 mod 16) * 4096 + n1 * 64 + n2)%N :: utf8_decode l2 else
              match l2 with
              | [] => []
              | b3 :: l3 =>
                  let n3 := (N_of_ascii b3 mod 64)%N in
                  ((n0 mod 8) * 262144 + n1 * 4096 + n2 * 64 + n3)%N :: utf8_decode l3
              end
          end
      end
  end.
Definition utf8_encode (c : N) : list ascii :=
  if (c <? 128)%N then [ascii_of_N c]
  else if (c <? 2048)%N then [ascii_of_N (192 + c / 64); ascii_of_N (128 + c mod 64)]
  else if (c <? 65536)%N then
    [ascii_of_N (224 + c / 4096); ascii_of_N (128 + (c / 64) mod 64); ascii_of_N (128 + c mod 64)]
  else [ascii_of_N (240 + c / 262144); ascii_of_N (128 + (c / 4096) mod 64);
        ascii_of_N (128 + (c / 64) mod 64); ascii_of_N (128 + c mod 64)].
Definition chars (s : string) : list N := utf8_decode (bytes s).

(** [char::is_control]: Unicode category Cc. *)
Definition char_is_control (c : N) : bool := within 0 31 c || within 127 159 c.
Definition char_is_bidi (c : N) : bool :=
  (c =? 8232)%N || (c =? 8233)%N || within 8234 8238 c || within 8294 8297 c.

(** [format!("\\u{:04x}", c as u32)] for the escaped characters, all of which
    are below [0x10000]. *)
Definition hex_digit (n : N) : ascii :=
  if (n <? 10)%N then ascii_of_N (48 + n) else ascii_of_N (87 + n).
Definition escape_char (c : N) : list ascii :=
  ["\"%char; "u"%char; hex_digit (c / 4096 mod 16); hex_digit (c / 256 mod 16);
   hex_digit (c / 16 mod 16); hex_digit (c mod 16)].
Definition plain_char (c : N) : list ascii :=
  if char_is_control c || char_is_bidi c then escape_char c else utf8_encode c.
Definition plain_text (s : string) : string :=
  String.string_of_list_ascii (concat (plain_char <$> chars s)).

Definition variable_value (value : string) : bool :=
  (strlen value <=? 256)%N && negb (existsb char_is_control (chars value)).

(** [SetVariables]. *)
Record SetVariables := { variables : gmap string string }.

Definition check_variable (kv : string * string) : option string :=
  if negb (variable_key kv.1) then
    Some ("invalid variable name '" +:+ plain_text kv.1 +:+ "': use [a-z][a-z0-9_]{0,31}")
  else if negb (variable_value kv.2) then
    Some ("invalid value for '" +:+ kv.1 +:+
          "': at most 256 bytes of text without control characters")
  else None.
Definition SetVariables_validate (p : SetVariables) : res string unit :=
  if (N.of_nat (size (variables p)) =? 0)%N ||
     (MAX_VARIABLES <? N.of_nat (size (variables p)))%N
  then Err ("set 1 to " +:+ show MAX_VARIABLES +:+ " variables at a time")
  else match omap check_variable (entries (variables p)) with
       | e :: _ => Err e
       | [] => Ok tt
       end.
