(* ===== verification/Messages.v ===== *)
(** * Agent mailbox wire data

    [libs/api/src/messages.rs]: the mutations an endpoint may request, their
    typed decoding from [method] and [params], their validation, and the
    message record with its serialization. *)
From S2P Require Import Prelude Json Grammar.

Definition MAX_BODY : N := 8 * 1024.

Record Send := mkSend { send_key : string; to : string; send_body : string;
                        conversation : option string }.
Record Next := mkNext { next_key : string }.
Record Claim := mkClaim { claim_key : string; claim_message : string;
                          claim_claim_generation : N }.
Record Reply := mkReply { reply_key : string; reply_message : string;
                          reply_claim_generation : N; reply_body : string }.
Record Requeue := mkRequeue { requeue_key : string; requeue_message : string;
                              requeue_claim_generation : N; reason : string }.

Inductive Mutation :=
| MSend (p : Send)
| MNext (p : Next)
| MReply (p : Reply)
| MComplete (p : Claim)
| MRequeue (p : Requeue).

#[export] Instance Send_eq_dec : EqDecision Send.
Proof. solve_decision. Defined.
#[export] Instance Next_eq_dec : EqDecision Next.
Proof. solve_decision. Defined.
#[export] Instance Claim_eq_dec : EqDecision Claim.
Proof. solve_decision. Defined.
#[export] Instance Reply_eq_dec : EqDecision Reply.
Proof. solve_decision. Defined.
#[export] Instance Requeue_eq_dec : EqDecision Requeue.
Proof. solve_decision. Defined.
#[export] Instance Mutation_eq_dec : EqDecision Mutation.
Proof. solve_decision. Defined.

Definition method (m : Mutation) : string :=
  match m with
  | MSend _ => "messages.send"
  | MNext _ => "inbox.next"
  | MReply _ => "messages.reply"
  | MComplete _ => "inbox.complete"
  | MRequeue _ => "inbox.requeue"
  end.

Definition key (m : Mutation) : string :=
  match m with
  | MSend p => send_key p
  | MNext p => next_key p
  | MReply p => reply_key p
  | MComplete p => claim_key p
  | MRequeue p => requeue_key p
  end.

Definition validate_claim (message : string) (generation : N) : res string unit :=
  if negb (identifier message) || (generation =? 0)%N
  then Err "invalid message ID or claim generation" else Ok tt.

Definition validate_body (body : string) : res string unit :=
  if (MAX_BODY <? strlen body)%N
  then Err "message exceeds 8 KiB of UTF-8 text" else Ok tt.

(** [a?; b]. *)
Definition and_then {E} (a b : res E unit) : res E unit :=
  match a with Ok _ => b | _ => a end.

Definition validate (m : Mutation) : res string unit :=
  if negb (identifier (key m)) then Err "invalid operation key" else
  match m with
  | MSend p =>
      if string_eqb (to p) "" || (512 <? strlen (to p))%N ||
         match conversation p with Some id => negb (identifier id) | None => false end
      then Err "invalid recipient or conversation"
      else validate_body (send_body p)
  | MReply p =>
      and_then (validate_claim (reply_message p) (reply_claim_generation p))
        (validate_body (reply_body p))
  | MComplete p => validate_claim (claim_message p) (claim_claim_generation p)
  | MRequeue p =>
      and_then (validate_claim (requeue_message p) (requeue_claim_generation p))
        (if string_eqb (reason p) "" || (512 <? strlen (reason p))%N
         then Err "requeue reason must contain 1..512 UTF-8 bytes" else Ok tt)
  | MNext _ => Ok tt
  end.

(** ** Typed decoding

    The derived deserializers: [deny_unknown_fields] structs from an object
    (an absent or null [Option] field is [None]) or from an array holding
    every field in order. The text of a decoding error is the library's. *)
Definition struct_fields (names : list string) (v : Value) : option (string → option Value) :=
  match v with
  | Object o =>
      if forallb (λ kv, bool_decide (kv.1 ∈ names)) o then Some (object_get o) else None
  | Array l =>
      if (lenN l =? lenN names)%N then Some (object_get (zip names l)) else None
  | _ => None
  end.
Definition field_str (f : string → option Value) (k : string) : option string :=
  v ← f k; as_str v.
Definition field_u64 (f : string → option Value) (k : string) : option N :=
  v ← f k; as_u64 v.
Definition field_opt_str (f : string → option Value) (k : string) : option (option string) :=
  match f k with
  | None | Some Null => Some None
  | Some v => s ← as_str v; Some (Some s)
  end.

(** Fields with [#[serde(default)]] may be missing, also at the end of an
    array. *)
Definition default_fields (required : nat) (names : list string) (v : Value) :
    option (string → option Value) :=
  match v with
  | Object o =>
      if forallb (λ kv, bool_decide (kv.1 ∈ names)) o then Some (object_get o) else None
  | Array l =>
      if (required <=? length l)%nat && (length l <=? length names)%nat
      then Some (object_get (zip names l)) else None
  | _ => None
  end.
Definition field_opt_u64 (f : string → option Value) (k : string) : option (option N) :=
  match f k with
  | None | Some Null => Some None
  | Some v => n ← as_u64 v; Some (Some n)
  end.
Definition field_bool_or (d : bool) (f : string → option Value) (k : string) : option bool :=
  match f k with None => Some d | Some (Bool b) => Some b | Some _ => None end.
Definition field_strs (f : string → option Value) (k : string) : option (list string) :=
  v ← f k; l ← as_array v; mapM Json.as_str l.

Definition decode_send (v : Value) : option Send :=
  f ← struct_fields ["key"; "to"; "body"; "conversation"] v;
  k ← field_str f "key"; t ← field_str f "to"; b ← field_str f "body";
  c ← field_opt_str f "conversation"; Some (mkSend k t b c).
Definition decode_next (v : Value) : option Next :=
  f ← struct_fields ["key"] v; k ← field_str f "key"; Some (mkNext k).
Definition decode_claim (v : Value) : option Claim :=
  f ← struct_fields ["key"; "message"; "claim_generation"] v;
  k ← field_str f "key"; m ← field_str f "message";
  g ← field_u64 f "claim_generation"; Some (mkClaim k m g).
Definition decode_reply (v : Value) : option Reply :=
  f ← struct_fields ["key"; "message"; "claim_generation"; "body"] v;
  k ← field_str f "key"; m ← field_str f "message";
  g ← field_u64 f "claim_generation"; b ← field_str f "body"; Some (mkReply k m g b).
Definition decode_requeue (v : Value) : option Requeue :=
  f ← struct_fields ["key"; "message"; "claim_generation"; "reason"] v;
  k ← field_str f "key"; m ← field_str f "message";
  g ← field_u64 f "claim_generation"; r ← field_str f "reason"; Some (mkRequeue k m g r).

(** The adjacently tagged [Mutation]: [method] selects the variant. *)
Definition decode_mutation (name : string) (params : Value) : option Mutation :=
  if string_eqb name "messages.send" then MSend <$> decode_send params
  else if string_eqb name "inbox.next" then MNext <$> decode_next params
  else if string_eqb name "messages.reply" then MReply <$> decode_reply params
  else if string_eqb name "inbox.complete" then MComplete <$> decode_claim params
  else if string_eqb name "inbox.requeue" then MRequeue <$> decode_requeue params
  else None.

Section parse.
(** The library's message for an undecodable value. *)
Context (serde_error : string → Value → string).

Definition parse (name : string) (params : Value) : res string Mutation :=
  match decode_mutation name params with
  | None => Err (serde_error name params)
  | Some m => match validate m with
              | Ok _ => Ok m
              | Err e => Err e
              | Panic => Panic
              end
  end.
End parse.

(** ** Messages *)
Inductive State := Queued | Claimed | Completed | Failed.
#[export] Instance State_eq_dec : EqDecision State.
Proof. solve_decision. Defined.

Definition unresolved (s : State) : bool :=
  match s with Queued | Claimed => true | Completed | Failed => false end.
Definition state_name (s : State) : string :=
  match s with
  | Queued => "queued" | Claimed => "claimed"
  | Completed => "completed" | Failed => "failed"
  end.

Record Operation := mkOperation {
  op_request : string; op_kind : string; op_subject : string;
  op_status : string; op_message : option string }.
Record RaidNotice := mkRaidNotice {
  notice_id : string; notice_name : string; notice_event : string; notice_owner : string }.

Record Message := mkMessage {
  id : string;
  msg_conversation : string;
  sender : string;
  recipient : string;
  sender_name : string;
  recipient_name : string;
  in_reply_to : option string;
  body : string;
  created_sequence : N;
  created_at : N;
  state : State;
  claim_generation : N;
  failure : option string;
  operation : option Operation;
  raid : option RaidNotice }.

(** Sender of operation completion notices. Not a session or the host. *)
Definition NOTICE_SENDER : string := "goblins".

Definition set_state (x : State) (m : Message) : Message :=
  mkMessage (id m) (msg_conversation m) (sender m) (recipient m) (sender_name m)
    (recipient_name m) (in_reply_to m) (body m) (created_sequence m) (created_at m)
    x (claim_generation m) (failure m) (operation m) (raid m).
Definition set_claim_generation (g : N) (m : Message) : Message :=
  mkMessage (id m) (msg_conversation m) (sender m) (recipient m) (sender_name m)
    (recipient_name m) (in_reply_to m) (body m) (created_sequence m) (created_at m)
    (state m) g (failure m) (operation m) (raid m).
Definition set_failure (f : option string) (m : Message) : Message :=
  mkMessage (id m) (msg_conversation m) (sender m) (recipient m) (sender_name m)
    (recipient_name m) (in_reply_to m) (body m) (created_sequence m) (created_at m)
    (state m) (claim_generation m) f (operation m) (raid m).
Definition set_operation (o : option Operation) (m : Message) : Message :=
  mkMessage (id m) (msg_conversation m) (sender m) (recipient m) (sender_name m)
    (recipient_name m) (in_reply_to m) (body m) (created_sequence m) (created_at m)
    (state m) (claim_generation m) (failure m) o (raid m).
Definition set_raid (r : option RaidNotice) (m : Message) : Message :=
  mkMessage (id m) (msg_conversation m) (sender m) (recipient m) (sender_name m)
    (recipient_name m) (in_reply_to m) (body m) (created_sequence m) (created_at m)
    (state m) (claim_generation m) (failure m) (operation m) r.

(** The derived serializers; [operation] and [raid] are skipped when absent. *)
Definition operation_value (o : Operation) : Value :=
  json_object [("request", String_ (op_request o)); ("kind", String_ (op_kind o));
    ("subject", String_ (op_subject o)); ("status", String_ (op_status o));
    ("message", json_opt_str (op_message o))].
Definition raid_notice_value (r : RaidNotice) : Value :=
  json_object [("id", String_ (notice_id r)); ("name", String_ (notice_name r));
    ("event", String_ (notice_event r)); ("owner", String_ (notice_owner r))].
Definition message_value (m : Message) : Value :=
  json_object (
    [("id", String_ (id m)); ("conversation", String_ (msg_conversation m));
     ("sender", String_ (sender m)); ("recipient", String_ (recipient m));
     ("sender_name", String_ (sender_name m)); ("recipient_name", String_ (recipient_name m));
     ("in_reply_to", json_opt_str (in_reply_to m)); ("body", String_ (body m));
     ("created_sequence", json_u64 (created_sequence m));
     ("created_at", json_u64 (created_at m));
     ("state", String_ (state_name (state m)));
     ("claim_generation", json_u64 (claim_generation m));
     ("failure", json_opt_str (failure m))] ++
    match operation m with Some o => [("operation", operation_value o)] | None => [] end ++
    match raid m with Some r => [("raid", raid_notice_value r)] | None => [] end).
