(* ===== verification/Raid.v ===== *)
(** * Raid membership rules

    [packages/daemon/src/raid.rs]: the raids, who is in which, and the
    mutations that return ordered events. Every mutation is a computation on
    [Raids]; the [expect]s of the code are [Panic]s here, and the invariant
    shows none is reached. *)
From S2P Require Import Prelude Json Grammar.

(** Invite lists are bounded like live sessions. *)
Definition INVITE_LIMIT : N := 16.

Inductive Reason := Left | Stopped | LaunchFailed | Kicked.
#[export] Instance Reason_eq_dec : EqDecision Reason.
Proof. solve_decision. Defined.

Definition as_str (r : Reason) : string :=
  match r with
  | Left => "left" | Stopped => "stopped"
  | LaunchFailed => "launch-failed" | Kicked => "kicked"
  end.
Definition description (r : Reason) : string :=
  match r with
  | Left => "left the raid" | Stopped => "stopped"
  | LaunchFailed => "failed to start" | Kicked => "was removed by the host"
  end.

Inductive Dissolution := Destroyed | Empty_.
#[export] Instance Dissolution_eq_dec : EqDecision Dissolution.
Proof. solve_decision. Defined.

Record Paused_ := mkPaused { former_owner : string; paused_reason : Reason }.
#[export] Instance Paused_eq_dec : EqDecision Paused_.
Proof. solve_decision. Defined.

Record Member := mkMember {
  role : option string;
  joined : N;
  created_by : option string }.
#[export] Instance Member_eq_dec : EqDecision Member.
Proof. solve_decision. Defined.

Record Raid := mkRaid {
  rid : string;
  rname : string;
  owner : option string;
  members : gmap string Member;
  paused : option Paused_;
  generation : N }.

Record Raids := mkRaids {
  raids : gmap string Raid;
  member_of : gmap string string;
  join_count : N }.
(** [Raids::default()]. *)
Definition default_raids : Raids := mkRaids ∅ ∅ 0.

Inductive Change :=
| Created (raid name owner : string)
| Joined (raid session : string) (role created_by : option string)
| Role (raid session role : string)
| LeftRaid (raid session : string) (reason : Reason)
| Paused (raid former_owner : string) (reason : Reason) (members : list string)
| Owner (raid owner : string) (previous : option string) (members : list string)
| Dissolved (raid : string) (members : list string) (reason : Dissolution).
#[export] Instance Change_eq_dec : EqDecision Change.
Proof. solve_decision. Defined.

Record Event := mkEvent { actor : string; change : Change }.
#[export] Instance Event_eq_dec : EqDecision Event.
Proof. solve_decision. Defined.

Definition kind (e : Event) : string :=
  match change e with
  | Created _ _ _ => "raid.created"
  | Joined _ _ _ _ => "raid.joined"
  | Role _ _ _ => "raid.role"
  | LeftRaid _ _ _ => "raid.left"
  | Paused _ _ _ _ => "raid.paused"
  | Owner _ _ _ _ => "raid.owner"
  | Dissolved _ _ _ => "raid.dissolved"
  end.

(** Additions can authorize messages; removals only take access away. *)
Definition addition_change (c : Change) : bool :=
  match c with
  | LeftRaid _ _ _ | Paused _ _ _ _ | Dissolved _ _ _ => false
  | _ => true
  end.
Definition addition (e : Event) : bool := addition_change (change e).

(** The sessions a filtered communications log should show this event to. *)
Definition sessions (e : Event) : list string :=
  match change e with
  | Created _ _ owner => [owner]
  | Joined _ session _ _ | Role _ session _ | LeftRaid _ session _ => [session]
  | Paused _ former_owner _ members => former_owner :: members
  | Owner _ _ _ members | Dissolved _ members _ => members
  end.

Definition data (e : Event) : Value :=
  match change e with
  | Created raid name owner =>
      json_object [("raid", String_ raid); ("name", String_ name); ("owner", String_ owner)]
  | Joined raid session role created_by =>
      json_object [("raid", String_ raid); ("session", String_ session);
        ("role", json_opt_str role); ("created_by", json_opt_str created_by)]
  | Role raid session role =>
      json_object [("raid", String_ raid); ("session", String_ session); ("role", String_ role)]
  | LeftRaid raid session reason =>
      json_object [("raid", String_ raid); ("session", String_ session);
        ("reason", String_ (as_str reason))]
  | Paused raid former_owner reason _ =>
      json_object [("raid", String_ raid); ("former_owner", String_ former_owner);
        ("reason", String_ (as_str reason))]
  | Owner raid owner previous _ =>
      json_object [("raid", String_ raid); ("owner", String_ owner);
        ("previous", json_opt_str previous)]
  | Dissolved raid _ reason =>
      json_object [("raid", String_ raid); ("reason", String_
        match reason with Destroyed => "destroyed" | Empty_ => "empty" end)]
  end.

Inductive Error :=
| InvalidName
| InvalidRole
| InvalidList
| Exists (name : string)
| Absent (name : string)
| MemberOf (session raid : string)
| NotMember (session : string)
| NotOwner (session : string).
#[export] Instance Error_eq_dec : EqDecision Error.
Proof. solve_decision. Defined.

(** Raid names and roles use the agent-name grammar. *)
Definition valid_name (name : string) : bool := valid_agent_name name.

(** ** Lookups *)
Definition lookup_raid (s : Raids) (name : string) : option Raid := raids s !! name.
Definition raid_of (s : Raids) (session : string) : option Raid :=
  name ← member_of s !! session; raids s !! name.
Definition iter (s : Raids) : list Raid := values (raids s).
Definition all_members (s : Raids) : list string := keys (member_of s).

(** ** Mutations *)
Definition fresh_member (n : N) (by_ : option string) : Member := mkMember None n by_.

Definition create (id name owner actor : string) : M Raids Error (list Event) :=
  _ ← refuse (negb (valid_name name)) InvalidName;
  s ← get;
  _ ← refuse (bool_decide (is_Some (raids s !! name))) (Exists name);
  match member_of s !! owner with
  | Some raid => throw (MemberOf owner raid)
  | None =>
      let n := u64_add (join_count s) 1 in
      let raid := mkRaid id name (Some owner) {[owner := fresh_member n None]} None 0 in
      _ ← put (mkRaids (<[name := raid]> (raids s)) (<[owner := name]> (member_of s)) n);
      mret [mkEvent actor (Created id name owner)]
  end.

(** Replace the members of a raid. *)
Definition with_members (r : Raid) (m : gmap string Member) : Raid :=
  mkRaid (rid r) (rname r) (owner r) m (paused r) (generation r).

(** The first listed session that is in another raid than [name]. *)
Fixpoint other_raid (m : gmap string string) (name : string) (l : list string) : option Error :=
  match l with
  | [] => None
  | session :: l =>
      match m !! session with
      | Some raid => if string_eqb raid name then other_raid m name l
                     else Some (MemberOf session raid)
      | None => other_raid m name l
      end
  end.

(** The second loop of [invite]: members are skipped, the others join in
    order, each pushing its event. *)
Fixpoint invite_each (name actor : string) (l : list string) (events : list Event) :
    M Raids Error (list Event) :=
  match l with
  | [] => mret events
  | session :: l =>
      s ← get;
      match member_of s !! session with
      | Some _ => invite_each name actor l events
      | None =>
          let n := u64_add (join_count s) 1 in
          raid ← expect (raids s !! name);
          let raid' := with_members raid (<[session := fresh_member n None]> (members raid)) in
          _ ← put (mkRaids (<[name := raid']> (raids s))
                     (<[session := name]> (member_of s)) n);
          invite_each name actor l
            (events ++ [mkEvent actor (Joined (rid raid) session None None)])
      end
  end.

Definition invite (id name : string) (sessions : list string) (actor : string) :
    M Raids Error (list Event) :=
  _ ← refuse (negb (valid_name name)) InvalidName;
  _ ← refuse ((lenN sessions =? 0)%N || (INVITE_LIMIT <? lenN sessions)%N) InvalidList;
  s ← get;
  match other_raid (member_of s) name sessions with
  | Some e => throw e
  | None =>
      events ← match raids s !! name with
               | Some _ => mret []
               | None => first ← expect (head sessions); create id name first actor
               end;
      invite_each name actor sessions events
  end.

Definition join (id name session actor : string) : M Raids Error (list Event) :=
  invite id name [session] actor.

(** A member the owner ran with [goblin run], joining the raid it owns. *)
Definition run (owner_ session : string) : M Raids Error (list Event) :=
  s ← get;
  name ← ok_or (member_of s !! owner_) (NotMember owner_);
  match member_of s !! session with
  | Some raid => throw (MemberOf session raid)
  | None =>
      raid ← expect (raids s !! name);
      _ ← refuse (negb (opt_string_eqb (owner raid) (Some owner_))) (NotOwner owner_);
      let n := u64_add (join_count s) 1 in
      let raid' := with_members raid
        (<[session := fresh_member n (Some owner_)]> (members raid)) in
      _ ← put (mkRaids (<[name := raid']> (raids s)) (<[session := name]> (member_of s)) n);
      mret [mkEvent owner_ (Joined (rid raid) session None (Some owner_))]
  end.

(** [leaver] already left, and is listed first. *)
Definition dissolve (name actor : string) (reason : Dissolution) (leaver : option string) :
    M Raids Error (list Event) :=
  s ← get;
  raid ← expect (raids s !! name);
  let listed := keys (members raid) in
  _ ← put (mkRaids (delete name (raids s))
             (foldl (λ m k, delete k m) (member_of s) listed) (join_count s));
  mret [mkEvent actor (Dissolved (rid raid) (option_list leaver ++ listed) reason)].

Definition leave (session actor : string) (reason : Reason) : M Raids Error (list Event) :=
  s ← get;
  match member_of s !! session with
  | None => mret []
  | Some name =>
      _ ← put (mkRaids (raids s) (delete session (member_of s)) (join_count s));
      s ← get;
      raid ← expect (raids s !! name);
      let raid := with_members raid (delete session (members raid)) in
      let left := mkEvent actor (LeftRaid (rid raid) session reason) in
      if bool_decide (members raid = ∅) then
        _ ← put (mkRaids (<[name := raid]> (raids s)) (member_of s) (join_count s));
        events ← dissolve name actor Empty_ (Some session);
        mret (left :: events)
      else if opt_string_eqb (owner raid) (Some session) then
        let raid := mkRaid (rid raid) (rname raid) None (members raid)
          (Some (mkPaused session reason)) (u64_add (generation raid) 1) in
        _ ← put (mkRaids (<[name := raid]> (raids s)) (member_of s) (join_count s));
        mret [left; mkEvent actor (Paused (rid raid) session reason (keys (members raid)))]
      else
        _ ← put (mkRaids (<[name := raid]> (raids s)) (member_of s) (join_count s));
        mret [left]
  end.

Definition remove (session : string) (reason : Reason) : M Raids Error (list Event) :=
  leave session session reason.

Definition kick (session actor : string) : M Raids Error (list Event) :=
  s ← get;
  _ ← refuse (negb (bool_decide (is_Some (member_of s !! session)))) (NotMember session);
  leave session actor Kicked.

Definition set_owner (name session actor : string) : M Raids Error (list Event) :=
  s ← get;
  raid ← ok_or (raids s !! name) (Absent name);
  _ ← refuse (negb (bool_decide (is_Some (members raid !! session)))) (NotMember session);
  if opt_string_eqb (owner raid) (Some session) then mret [] else
  let previous := match owner raid with
                  | Some o => Some o
                  | None => former_owner <$> paused raid
                  end in
  let raid := mkRaid (rid raid) (rname raid) (Some session) (members raid) None
    (u64_add (generation raid) 1) in
  _ ← put (mkRaids (<[name := raid]> (raids s)) (member_of s) (join_count s));
  mret [mkEvent actor (Owner (rid raid) session previous (keys (members raid)))].

Definition destroy (name actor : string) : M Raids Error (list Event) :=
  s ← get;
  _ ← refuse (negb (bool_decide (is_Some (raids s !! name)))) (Absent name);
  dissolve name actor Destroyed None.

Definition set_role (session role_ actor : string) : M Raids Error (list Event) :=
  _ ← refuse (negb (valid_name role_)) InvalidRole;
  s ← get;
  name ← ok_or (member_of s !! session) (NotMember session);
  raid ← expect (raids s !! name);
  member ← expect (members raid !! session);
  if opt_string_eqb (role member) (Some role_) then mret [] else
  let member := mkMember (Some role_) (joined member) (created_by member) in
  let raid := with_members raid (<[session := member]> (members raid)) in
  _ ← put (mkRaids (<[name := raid]> (raids s)) (member_of s) (join_count s));
  mret [mkEvent actor (Role (rid raid) session role_)].
