(* ===== verification/RaidFacts.v ===== *)
(** * Correctness of the raid rules

    The invariant of [Raids], the step relation of its mutations, and what
    each mutation does on every branch. *)
From S2P Require Import Prelude Json Grammar Raid.

(** ** The invariant *)
Record raid_wf (name : string) (r : Raid) : Prop := {
  rw_name : rname r = name;
  rw_valid : valid_name name = true;
  rw_inhabited : members r ≠ ∅;
  rw_paused : owner r = None ↔ is_Some (paused r);
  rw_owner : ∀ o, owner r = Some o → is_Some (members r !! o);
  rw_roles : ∀ k m ro, members r !! k = Some m → role m = Some ro → valid_name ro = true }.

(** [k] is listed as a member of the raid called [name]. *)
Definition listed (s : Raids) (k name : string) : Prop :=
  ∃ r, raids s !! name = Some r ∧ is_Some (members r !! k).

Record wf (s : Raids) : Prop := {
  wf_listed : ∀ k name, member_of s !! k = Some name ↔ listed s k name;
  wf_raids : ∀ name r, raids s !! name = Some r → raid_wf name r }.

Lemma wf_default : wf default_raids.
Proof.
  split; simpl.
  - intros k name. rewrite lookup_empty. split; [done|].
    intros (r & Hr & _). simpl in Hr. by rewrite lookup_empty in Hr.
  - intros name r. by rewrite lookup_empty.
Qed.

Section invariant.
Implicit Types s : Raids.
Context {s : Raids} (Hwf : wf s).

Lemma wf_member_raid k name :
  member_of s !! k = Some name →
  ∃ r m, raids s !! name = Some r ∧ members r !! k = Some m ∧ raid_wf name r.
Proof using Hwf.
  intros Hk. apply (wf_listed _ Hwf) in Hk as (r & Hr & m & Hm).
  exists r, m. split_and!; [done..|]. by apply (wf_raids _ Hwf).
Qed.
Lemma wf_not_member k name r :
  member_of s !! k = None → raids s !! name = Some r → members r !! k = None.
Proof using Hwf.
  intros Hk Hr. destruct (members r !! k) eqn:Hm; [|done].
  assert (listed s k name) as Hl by (exists r; eauto).
  apply (wf_listed _ Hwf) in Hl. congruence.
Qed.
Lemma wf_absent_raid k name :
  raids s !! name = None → member_of s !! k ≠ Some name.
Proof using Hwf.
  intros Hr Hk. apply (wf_listed _ Hwf) in Hk as (r & Hr' & _). congruence.
Qed.
(** The raids of a session's two listings are the same raid. *)
Lemma wf_unique k n1 n2 : listed s k n1 → listed s k n2 → n1 = n2.
Proof using Hwf.
  intros H1 H2. apply (wf_listed _ Hwf) in H1, H2. congruence.
Qed.

(** *** The state changes the mutations are made of *)
Lemma wf_new_raid name k r n :
  raids s !! name = None → member_of s !! k = None →
  raid_wf name r → dom (members r) = {[k]} →
  wf (mkRaids (<[name := r]> (raids s)) (<[k := name]> (member_of s)) n).
Proof using Hwf.
  intros Hr Hk Hrw Hdom. split; simpl.
  - intros k' n'. destruct (decide (k' = k)) as [->|Hne].
    + rewrite lookup_insert_eq. split.
      * intros [= <-]. exists r. simpl. rewrite lookup_insert_eq. split; [done|].
        apply elem_of_dom. rewrite Hdom. set_solver.
      * intros (r' & Hr' & Hm). simpl in Hr'.
        destruct (decide (n' = name)) as [->|Hn']; [done|].
        rewrite lookup_insert_ne in Hr' by done.
        rewrite (wf_not_member k n' r') in Hm by done. by destruct Hm.
    + rewrite lookup_insert_ne by done. rewrite (wf_listed _ Hwf). split.
      * intros (r' & Hr' & Hm). exists r'. simpl.
        rewrite lookup_insert_ne by congruence. done.
      * intros (r' & Hr' & Hm). simpl in Hr'.
        destruct (decide (n' = name)) as [->|Hn'].
        -- rewrite lookup_insert_eq in Hr'. simplify_eq.
           apply elem_of_dom in Hm. rewrite Hdom in Hm. set_solver.
        -- rewrite lookup_insert_ne in Hr' by done. exists r'. done.
  - intros n' r' Hr'. destruct (decide (n' = name)) as [->|Hn'].
    + rewrite lookup_insert_eq in Hr'. by simplify_eq.
    + rewrite lookup_insert_ne in Hr' by done. by apply (wf_raids _ Hwf).
Qed.

Lemma wf_update_raid name r r' n :
  raids s !! name = Some r → raid_wf name r' →
  dom (members r') = dom (members r) →
  wf (mkRaids (<[name := r']> (raids s)) (member_of s) n).
Proof using Hwf.
  intros Hr Hrw Hdom. split; simpl.
  - intros k n'. rewrite (wf_listed _ Hwf).
    split; intros (x & Hx & Hm); simpl in *.
    + destruct (decide (n' = name)) as [->|Hn'].
      * exists r'. simpl. rewrite lookup_insert_eq. split; [done|]. simplify_eq.
        apply elem_of_dom. rewrite Hdom. by apply elem_of_dom.
      * exists x. simpl. by rewrite lookup_insert_ne.
    + destruct (decide (n' = name)) as [->|Hn'].
      * rewrite lookup_insert_eq in Hx. simplify_eq. exists r. split; [done|].
        apply elem_of_dom. rewrite <-Hdom. by apply elem_of_dom.
      * rewrite lookup_insert_ne in Hx by done. by exists x.
  - intros n' x Hx. destruct (decide (n' = name)) as [->|Hn'].
    + rewrite lookup_insert_eq in Hx. by simplify_eq.
    + rewrite lookup_insert_ne in Hx by done. by apply (wf_raids _ Hwf).
Qed.

Lemma wf_add_member name r k m n :
  raids s !! name = Some r → member_of s !! k = None → role m = None →
  wf (mkRaids (<[name := with_members r (<[k := m]> (members r))]> (raids s))
        (<[k := name]> (member_of s)) n).
Proof using Hwf.
  intros Hr Hk Hrole.
  pose proof (wf_raids _ Hwf _ _ Hr) as [Hname Hvalid Hinh Hp Ho Hro].
  split; simpl.
  - intros k' n'. destruct (decide (k' = k)) as [->|Hne].
    + rewrite lookup_insert_eq. split.
      * intros [= <-]. eexists. simpl. rewrite lookup_insert_eq. split; [done|].
        simpl. rewrite lookup_insert_eq. eauto.
      * intros (x & Hx & Hm). simpl in Hx.
        destruct (decide (n' = name)) as [->|Hn']; [done|].
        rewrite lookup_insert_ne in Hx by done.
        rewrite (wf_not_member k n' x) in Hm by done. by destruct Hm.
    + rewrite lookup_insert_ne by done. rewrite (wf_listed _ Hwf).
      split; intros (x & Hx & Hm); simpl in *.
      * destruct (decide (n' = name)) as [->|Hn'].
        -- eexists. simpl. rewrite lookup_insert_eq. split; [done|]. simplify_eq. simpl.
           by rewrite lookup_insert_ne.
        -- exists x. simpl. by rewrite lookup_insert_ne.
      * destruct (decide (n' = name)) as [->|Hn'].
        -- rewrite lookup_insert_eq in Hx. simplify_eq. simpl in Hm.
           rewrite lookup_insert_ne in Hm by done. by exists r.
        -- rewrite lookup_insert_ne in Hx by done. by exists x.
  - intros n' x Hx. destruct (decide (n' = name)) as [->|Hn'].
    + rewrite lookup_insert_eq in Hx. simplify_eq. split; simpl; try done.
      * apply insert_non_empty.
      * intros o Ho'. rewrite lookup_insert. case_decide; eauto.
      * intros k' m' ro. rewrite lookup_insert. case_decide; [|by apply Hro].
        intros [= <-]. congruence.
    + rewrite lookup_insert_ne in Hx by done. by apply (wf_raids _ Hwf).
Qed.

Lemma wf_drop_member name r r' k n :
  member_of s !! k = Some name → raids s !! name = Some r →
  raid_wf name r' → members r' = delete k (members r) →
  wf (mkRaids (<[name := r']> (raids s)) (delete k (member_of s)) n).
Proof using Hwf.
  intros Hk Hr Hrw Hm'. split; simpl.
  - intros k' n'. destruct (decide (k' = k)) as [->|Hne].
    + rewrite lookup_delete_eq. split; [done|]. intros (x & Hx & Hm). simpl in *.
      destruct (decide (n' = name)) as [->|Hn'].
      * rewrite lookup_insert_eq in Hx. simplify_eq.
        rewrite Hm', lookup_delete_eq in Hm. by destruct Hm.
      * rewrite lookup_insert_ne in Hx by done.
        assert (listed s k n') as Hl by (by exists x).
        apply (wf_listed _ Hwf) in Hl. congruence.
    + rewrite lookup_delete_ne by done. rewrite (wf_listed _ Hwf).
      split; intros (x & Hx & Hm); simpl in *.
      * destruct (decide (n' = name)) as [->|Hn'].
        -- exists r'. simpl. rewrite lookup_insert_eq. split; [done|].
           rewrite Hm', lookup_delete_ne by done. by simplify_eq.
        -- exists x. simpl. by rewrite lookup_insert_ne.
      * destruct (decide (n' = name)) as [->|Hn'].
        -- rewrite lookup_insert_eq in Hx. simplify_eq.
           rewrite Hm', lookup_delete_ne in Hm by done. by exists r.
        -- rewrite lookup_insert_ne in Hx by done. by exists x.
  - intros n' x Hx. destruct (decide (n' = name)) as [->|Hn'].
    + rewrite lookup_insert_eq in Hx. by simplify_eq.
    + rewrite lookup_insert_ne in Hx by done. by apply (wf_raids _ Hwf).
Qed.
End invariant.

Lemma foldl_delete_lookup {A} (l : list string) (m : gmap string A) k :
  foldl (λ m k, delete k m) m l !! k = if decide (k ∈ l) then None else m !! k.
Proof.
  revert m. induction l as [|a l IH]; intros m.
  { cbn [foldl]. case_decide as Hin; [by apply not_elem_of_nil in Hin|done]. }
  cbn [foldl]. rewrite IH, lookup_delete.
  repeat case_decide; set_solver.
Qed.

(** Dissolving also works right after the last member left, when the raid is
    still listed but empty. *)
Lemma wf_remove_raid s name r n :
  (∀ k n', n' ≠ name → (member_of s !! k = Some n' ↔ listed s k n')) →
  (∀ k, member_of s !! k = Some name ↔ is_Some (members r !! k)) →
  (∀ n' r', n' ≠ name → raids s !! n' = Some r' → raid_wf n' r') →
  wf (mkRaids (delete name (raids s))
        (foldl (λ m k, delete k m) (member_of s) (keys (members r))) n).
Proof.
  intros Hother Hname Hraids. split; simpl.
  - intros k n'. rewrite foldl_delete_lookup. unfold listed. simpl.
    destruct (decide (n' = name)) as [->|Hne].
    + rewrite lookup_delete_eq. split; [|by intros (? & ? & _)].
      case_decide as Hin; [done|]. rewrite elem_of_keys in Hin.
      intros Hk. by apply Hname in Hk.
    + rewrite lookup_delete_ne by done. case_decide as Hin.
      * split; [done|]. intros Hl. apply (Hother k n') in Hl; [|done].
        rewrite elem_of_keys in Hin. apply Hname in Hin. congruence.
      * by apply Hother.
  - intros n' r' Hr'. apply lookup_delete_Some in Hr' as [Hne Hr']. by apply Hraids.
Qed.

(** ** The mutations preserve the invariant and never panic *)
Ltac op_cases := munfold; repeat (case_match || case_bool_decide); simplify_eq/=.

Lemma create_keeps id name owner_ actor_ : keeps wf (create id name owner_ actor_).
Proof.
  intros s Hwf. unfold create. munfold.
  destruct (valid_name name) eqn:Hvalid; simpl; [|done].
  case_bool_decide as Hex; simpl; [done|]. apply eq_None_not_Some in Hex.
  destruct (member_of s !! owner_) as [raid|] eqn:Hk; simpl; [done|]. split; [done|].
  apply wf_new_raid; try done; [|simpl; by rewrite dom_singleton_L].
  split; simpl; [done|done|apply map_non_empty_singleton|by split; [|intros [? ?]]|..].
  - intros o [= <-]. rewrite lookup_singleton_eq. eauto.
  - intros k m ro Hm. apply lookup_singleton_Some in Hm as [<- <-]. done.
Qed.

Lemma invite_each_keeps name actor_ l evs :
  keeps (λ s, wf s ∧ is_Some (raids s !! name)) (invite_each name actor_ l evs).
Proof.
  revert evs. induction l as [|k l IH]; intros evs s [Hwf Hr]; [by split|].
  simpl. munfold. destruct (member_of s !! k) as [n|] eqn:Hk; [by apply IH|].
  destruct Hr as [r Hr]. rewrite Hr. simpl. apply IH. split.
  - by apply wf_add_member.
  - simpl. rewrite lookup_insert_eq. eauto.
Qed.

(** What [create] leaves behind when it succeeds. *)
Lemma create_ok id name owner_ actor_ s :
  valid_name name = true → raids s !! name = None → member_of s !! owner_ = None →
  create id name owner_ actor_ s =
    (Ok [mkEvent actor_ (Created id name owner_)],
     mkRaids
       (<[name := mkRaid id name (Some owner_)
            {[owner_ := fresh_member (u64_add (join_count s) 1) None]} None 0]> (raids s))
       (<[owner_ := name]> (member_of s)) (u64_add (join_count s) 1)).
Proof.
  intros Hv Hr Hk. unfold create. munfold. rewrite Hv. simpl.
  rewrite Hr. rewrite bool_decide_false by by intros [? ?]. simpl. by rewrite Hk.
Qed.

(** The guards [invite] passes before its loop. *)
Record invite_ready (s : Raids) (name : string) (l : list string) (first : string) : Prop := {
  ir_valid : valid_name name = true;
  ir_head : head l = Some first;
  ir_length : (lenN l ≤ INVITE_LIMIT)%N;
  ir_others : other_raid (member_of s) name l = None }.

Lemma other_raid_None m name l :
  other_raid m name l = None ↔ ∀ k n, k ∈ l → m !! k = Some n → n = name.
Proof.
  induction l as [|k l IH]; simpl.
  { split; [|done]. intros _ k n Hk. by apply not_elem_of_nil in Hk. }
  unfold string_eqb. destruct (m !! k) as [n|] eqn:Hk; [case_bool_decide as Hn; subst|].
  - rewrite IH. split; [|naive_solver set_solver].
    intros Hall k' n' [->|Hin]%elem_of_cons Hk'; [congruence|eauto].
  - split; [done|]. intros Hall. destruct Hn. apply (Hall k); [left|done].
  - rewrite IH. split; [|naive_solver set_solver].
    intros Hall k' n' [->|Hin]%elem_of_cons Hk'; [congruence|eauto].
Qed.

(** [invite] either refuses without a change or runs its loop, on the state
    [create] left when the raid was absent. *)
Lemma invite_cases id name l actor_ s :
  (∃ e, invite id name l actor_ s = (Err e, s)) ∨
  (∃ first, invite_ready s name l first ∧
    match raids s !! name with
    | Some _ => invite id name l actor_ s = invite_each name actor_ l [] s
    | None =>
        member_of s !! first = None →
        ∃ evs s1, create id name first actor_ s = (Ok evs, s1) ∧
          invite id name l actor_ s = invite_each name actor_ l evs s1
    end).
Proof.
  unfold invite. munfold.
  destruct (valid_name name) eqn:Hvalid; simpl; [|eauto].
  destruct (((lenN l =? 0)%N || (INVITE_LIMIT <? lenN l)%N)) eqn:Hlen; simpl; [eauto|].
  destruct (other_raid _ _ _) eqn:Hother; simpl; [eauto|]. right.
  apply orb_false_iff in Hlen as [H0 Hle].
  destruct (head l) as [first|] eqn:Hhead; [|by destruct l].
  exists first. split; [split; [done..| |done]; apply N.ltb_ge in Hle; lia|].
  destruct (raids s !! name) eqn:Hr; simpl; [done|]. intros Hk.
  pose proof (create_ok id name first actor_ s Hvalid Hr Hk) as Hc.
  rewrite Hc. eauto.
Qed.

Lemma invite_keeps id name l actor_ : keeps wf (invite id name l actor_).
Proof.
  intros s Hwf. unfold outcome_of, state_of.
  destruct (invite_cases id name l actor_ s) as [[e ->]|(first & Hready & Hinv)]; [done|].
  destruct (raids s !! name) as [r|] eqn:Hr.
  - rewrite Hinv. by destruct (invite_each_keeps name actor_ l [] s) as (? & ? & _); eauto.
  - destruct Hready as [Hvalid Hhead _ Hother].
    assert (member_of s !! first = None) as Hk.
    { destruct (member_of s !! first) as [n|] eqn:Hk; [|done].
      rewrite other_raid_None in Hother. destruct l; simplify_eq/=.
      assert (n = name) as -> by (apply (Hother first); [left|done]).
      by apply wf_absent_raid in Hk. }
    destruct (Hinv Hk) as (evs & s1 & Hc & ->).
    pose proof (create_keeps id name first actor_ s Hwf) as [_ Hw].
    unfold state_of in Hw. rewrite Hc in Hw. simpl in Hw.
    destruct (invite_each_keeps name actor_ l evs s1) as (? & ? & _); [|done].
    split; [done|].
    rewrite create_ok in Hc by done. simplify_eq. simpl. rewrite lookup_insert_eq. eauto.
Qed.

Lemma run_keeps owner_ k : keeps wf (run owner_ k).
Proof.
  intros s Hwf. unfold run. munfold.
  destruct (member_of s !! owner_) as [name|] eqn:Ho; simpl; [|done].
  destruct (member_of s !! k) eqn:Hk; simpl; [done|].
  destruct (wf_member_raid Hwf _ _ Ho) as (r & m & Hr & Hm & Hrw). rewrite Hr. simpl.
  destruct (opt_string_eqb _ _); simpl; [|done]. split; [done|]. by apply wf_add_member.
Qed.

Lemma delete_members_raid_wf name r k :
  raid_wf name r → delete k (members r) ≠ ∅ → owner r ≠ Some k →
  raid_wf name (with_members r (delete k (members r))).
Proof.
  intros [Hname Hvalid Hinh Hp Ho Hro] Hne Hk. split; simpl; try done.
  - intros o Ho'. rewrite lookup_delete_ne; [by apply Ho|congruence].
  - intros k' m ro [_ Hm]%lookup_delete_Some. by apply (Hro k').
Qed.
Lemma pause_raid_wf name r k reason g :
  raid_wf name r → delete k (members r) ≠ ∅ →
  raid_wf name (mkRaid (rid r) (rname r) None (delete k (members r))
                  (Some (mkPaused k reason)) g).
Proof.
  intros [Hname Hvalid Hinh Hp Ho Hro] Hne. split; simpl; try done.
  intros k' m ro [_ Hm]%lookup_delete_Some. by apply (Hro k').
Qed.

Lemma leave_keeps k actor_ reason : keeps wf (leave k actor_ reason).
Proof.
  intros s Hwf. unfold leave. munfold.
  destruct (member_of s !! k) as [name|] eqn:Hk; simpl; [|done].
  destruct (wf_member_raid Hwf _ _ Hk) as (r & m & Hr & Hm & Hrw). rewrite Hr. simpl.
  case_bool_decide as Hempty.
  - unfold dissolve. munfold. simpl. rewrite lookup_insert_eq. simpl. split; [done|].
    rewrite delete_insert_eq.
    assert (∀ k', member_of s !! k' = Some name → k' = k) as Honly.
    { intros k' Hk'. apply (wf_listed _ Hwf) in Hk' as (r' & Hr' & Hm').
      rewrite Hr in Hr'. injection Hr' as <-.
      destruct (decide (k' = k)) as [|Hne]; [done|].
      assert (delete k (members r) !! k' = None) as Hn by by rewrite Hempty.
      rewrite lookup_delete_ne in Hn by done. rewrite Hn in Hm'. by destruct Hm'. }
    pose proof (wf_remove_raid (mkRaids (raids s) (delete k (member_of s)) (join_count s))
      name (with_members r (delete k (members r))) (join_count s)) as Hrm.
    simpl in Hrm. apply Hrm.
    + intros k' n' Hn'. unfold listed. simpl. rewrite lookup_delete.
      case_decide as Hkk; subst.
      * split; [done|]. intros Hl. apply (wf_listed _ Hwf) in Hl. congruence.
      * apply (wf_listed _ Hwf).
    + intros k'. rewrite Hempty, lookup_empty, lookup_delete. case_decide as Hkk.
      * by split; [|intros [? ?]].
      * split; [|by intros [? ?]]. intros Hk'. apply Honly in Hk'. congruence.
    + intros n' r' _. apply (wf_raids _ Hwf).
  - destruct (opt_string_eqb _ _) eqn:Howner; simpl; (split; [done|]).
    + apply (wf_drop_member Hwf _ r); try done. by apply pause_raid_wf.
    + apply (wf_drop_member Hwf _ r); try done. apply delete_members_raid_wf; try done.
      unfold opt_string_eqb in Howner. by apply bool_decide_eq_false in Howner.
Qed.

Lemma remove_keeps k reason : keeps wf (remove k reason).
Proof. apply leave_keeps. Qed.
Lemma kick_keeps k actor_ : keeps wf (kick k actor_).
Proof.
  intros s Hwf. unfold kick. munfold. case_bool_decide; simpl; [|done].
  by apply leave_keeps.
Qed.

Lemma set_owner_keeps name k actor_ : keeps wf (set_owner name k actor_).
Proof.
  intros s Hwf. unfold set_owner. munfold.
  destruct (raids s !! name) as [r|] eqn:Hr; simpl; [|done].
  case_bool_decide as Hm; simpl; [|done].
  destruct (opt_string_eqb _ _); simpl; [done|]. split; [done|].
  apply (wf_update_raid Hwf _ r); try done.
  pose proof (wf_raids _ Hwf _ _ Hr) as [Hname Hvalid Hinh Hp Ho Hro].
  split; simpl; [done..|by split; [|intros [? ?]]|by intros o [= <-]|done].
Qed.

Lemma destroy_keeps name actor_ : keeps wf (destroy name actor_).
Proof.
  intros s Hwf. unfold destroy, dissolve. munfold.
  case_bool_decide as Hm; simpl; [|done]. destruct Hm as [r Hr]. rewrite Hr. simpl.
  split; [done|]. apply (wf_remove_raid s); [intros; apply (wf_listed _ Hwf)| |].
  - intros k. rewrite (wf_listed _ Hwf). unfold listed. rewrite Hr. naive_solver.
  - intros n' r' _. apply (wf_raids _ Hwf).
Qed.

Lemma set_role_keeps k ro actor_ : keeps wf (set_role k ro actor_).
Proof.
  intros s Hwf. unfold set_role. munfold.
  destruct (valid_name ro) eqn:Hvalid; simpl; [|done].
  destruct (member_of s !! k) as [name|] eqn:Hk; simpl; [|done].
  destruct (wf_member_raid Hwf _ _ Hk) as (r & m & Hr & Hm & Hrw).
  rewrite Hr. simpl. rewrite Hm. simpl.
  destruct (opt_string_eqb _ _); simpl; [done|]. split; [done|].
  apply (wf_update_raid Hwf _ r); [done| |simpl; apply dom_insert_lookup_L; eauto].
  destruct Hrw as [Hname Hv Hinh Hp Ho Hro]. split; simpl; try done.
  - apply insert_non_empty.
  - intros o Ho'. rewrite lookup_insert. case_decide; eauto.
  - intros k' m' ro'. rewrite lookup_insert. case_decide; [|by apply Hro].
    intros [= <-]. simpl. congruence.
Qed.

#[export] Hint Resolve create_keeps invite_keeps run_keeps leave_keeps remove_keeps
  kick_keeps set_owner_keeps destroy_keeps set_role_keeps : keeps.
