(* ===== verification/RaidLog.v ===== *)
(** * The membership a communications log records

    [RaidView], [Logged], [apply_raid] and [shared_raid] of
    [packages/daemon/src/mailbox.rs]: the membership the messaging worker
    rebuilds from raid events alone. The facts of this file relate it to the
    raids the events came from. *)
From S2P Require Import Prelude Json Grammar Raid RaidFacts.

Record RaidView := mkView {
  view_id : string;
  view_name : string;
  view_role : option string;
  view_owner : option string;
  view_paused : bool }.
#[export] Instance RaidView_eq_dec : EqDecision RaidView.
Proof. solve_decision. Defined.

Abbreviation Logged := (gmap string RaidView).

(** [values_mut().filter(|v| v.id == raid)]. *)
Definition update_views (raid : string) (f : RaidView → RaidView) (logged : Logged) : Logged :=
  (λ v, if string_eqb (view_id v) raid then f v else v) <$> logged.
(** [values().find(|v| v.id == raid)]. *)
Definition find_view (raid : string) (logged : Logged) : option RaidView :=
  List.find (λ v, string_eqb (view_id v) raid) (values logged).

Definition pause_view (v : RaidView) : RaidView :=
  mkView (view_id v) (view_name v) (view_role v) None true.
Definition own_view (owner : string) (v : RaidView) : RaidView :=
  mkView (view_id v) (view_name v) (view_role v) (Some owner) false.
Definition role_view (r : option string) (v : RaidView) : RaidView :=
  mkView (view_id v) (view_name v) r (view_owner v) (view_paused v).

Definition apply_raid (logged : Logged) (c : Change) : Logged :=
  match c with
  | Created raid name owner => <[owner := mkView raid name None (Some owner) false]> logged
  | Joined raid session role _ =>
      match find_view raid logged with
      | Some view => <[session := role_view role view]> logged
      | None => logged
      end
  | Role raid session role =>
      match logged !! session with
      | Some view =>
          if string_eqb (view_id view) raid
          then <[session := role_view (Some role) view]> logged else logged
      | None => logged
      end
  | LeftRaid raid session _ =>
      match logged !! session with
      | Some view => if string_eqb (view_id view) raid then delete session logged else logged
      | None => logged
      end
  | Paused raid _ _ _ => update_views raid pause_view logged
  | Owner raid owner _ _ => update_views raid (own_view owner) logged
  | Dissolved raid _ _ => filter (λ kv, view_id kv.2 ≠ raid) logged
  end.
Definition replay (logged : Logged) (events : list Event) : Logged :=
  foldl apply_raid logged (change <$> events).

Definition shared_raid (logged : Logged) (a b : string) : option RaidView :=
  va ← logged !! a; vb ← logged !! b;
  if string_eqb (view_id va) (view_id vb) then Some va else None.

(** ** The membership of a [Raids] *)
Definition view_of (r : Raid) (m : Member) : RaidView :=
  mkView (rid r) (rname r) (role m) (owner r) (bool_decide (is_Some (paused r))).
Definition view (s : Raids) (k : string) : option RaidView :=
  name ← member_of s !! k; r ← raids s !! name; m ← members r !! k; Some (view_of r m).

(** [logged] records exactly the membership of [s]. *)
Definition logs (s : Raids) (logged : Logged) : Prop := ∀ k, logged !! k = view s k.

(** Raid IDs name one raid. *)
Definition ids_unique (s : Raids) : Prop := ∀ n1 n2 r1 r2,
  raids s !! n1 = Some r1 → raids s !! n2 = Some r2 → rid r1 = rid r2 → n1 = n2.
Definition id_fresh (id : string) (s : Raids) : Prop :=
  ∀ n r, raids s !! n = Some r → rid r ≠ id.

(** The two indexes of [Raids] agree. *)
Definition listing (s : Raids) : Prop :=
  ∀ k name, member_of s !! k = Some name ↔ listed s k name.

Lemma view_Some s k v :
  view s k = Some v ↔
  ∃ name r m, member_of s !! k = Some name ∧ raids s !! name = Some r ∧
              members r !! k = Some m ∧ v = view_of r m.
Proof.
  unfold view. split.
  - intros Hv. apply bind_Some in Hv as (name & Hk & Hv).
    apply bind_Some in Hv as (r & Hr & Hv). apply bind_Some in Hv as (m & Hm & [= <-]).
    eauto 10.
  - intros (name & r & m & Hk & Hr & Hm & ->).
    rewrite Hk. simpl. rewrite Hr. simpl. by rewrite Hm.
Qed.
Lemma view_None s k : listing s → view s k = None ↔ member_of s !! k = None.
Proof.
  intros Hl. split.
  - intros Hv. destruct (member_of s !! k) as [name|] eqn:Hk; [|done].
    pose proof Hk as (r & Hr & m & Hm)%Hl.
    assert (view s k = Some (view_of r m)) by (apply view_Some; eauto 10). congruence.
  - intros Hk. unfold view. by rewrite Hk.
Qed.
(** The view of a session after one raid was replaced. *)
Lemma view_update s name r mo n k :
  view (mkRaids (<[name := r]> (raids s)) mo n) k =
  if decide (mo !! k = Some name) then view_of r <$> members r !! k
  else view (mkRaids (raids s) mo n) k.
Proof.
  unfold view. simpl. case_decide as Hk.
  - rewrite Hk. simpl. rewrite lookup_insert_eq. simpl. by destruct (members r !! k).
  - destruct (mo !! k) as [n'|]; [|done]. simpl. rewrite lookup_insert_ne; [done|congruence].
Qed.
Lemma view_raids_eq s mo n k :
  mo !! k = member_of s !! k → view (mkRaids (raids s) mo n) k = view s k.
Proof. unfold view. simpl. by intros ->. Qed.

Section logs.
Context {s : Raids} {logged : Logged}.
Context (Hlist : listing s) (Hids : ids_unique s) (Hlogs : logs s logged).

Lemma view_in_raid k v name r :
  view s k = Some v → raids s !! name = Some r →
  view_id v = rid r ↔ member_of s !! k = Some name.
Proof using Hids.
  intros (n' & r' & m & Hk & Hr' & Hm & ->)%view_Some Hr. simpl. split.
  - intros Hid. assert (n' = name) as -> by (by apply (Hids n' name r' r)). done.
  - intros Hk'. congruence.
Qed.
Lemma find_view_raid name r k m :
  raids s !! name = Some r → members r !! k = Some m →
  ∃ k' m', members r !! k' = Some m' ∧ find_view (rid r) logged = Some (view_of r m').
Proof using All.
  intros Hr Hm. unfold find_view.
  destruct (List.find _ _) as [v|] eqn:Hf.
  - apply List.find_some in Hf as [Hin Hid]. apply list_elem_of_In in Hin.
    apply elem_of_values in Hin as [k' Hk']. rewrite Hlogs in Hk'.
    unfold string_eqb in Hid. apply bool_decide_eq_true in Hid.
    pose proof Hid as Hid'. rewrite (view_in_raid k' v name r) in Hid' by done.
    apply view_Some in Hk' as (n' & r' & m' & Hmo & Hr' & Hm' & ->).
    rewrite Hmo in Hid'. simplify_eq. eauto.
  - assert (member_of s !! k = Some name) as Hk by (apply Hlist; exists r; eauto).
    assert (view s k = Some (view_of r m)) as Hv by (apply view_Some; eauto 10).
    rewrite <-Hlogs in Hv.
    assert (view_of r m ∈ values logged) as Hin by (apply elem_of_values; eauto).
    apply list_elem_of_In in Hin. apply (List.find_none _ _ Hf) in Hin.
    unfold string_eqb in Hin. by apply bool_decide_eq_false in Hin.
Qed.

(** *** One event for each change the mutations make *)
Lemma logs_new_raid id name k n m :
  member_of s !! k = None → role m = None →
  raids s !! name = None →
  logs (mkRaids (<[name := mkRaid id name (Some k) {[k := m]} None 0]> (raids s))
          (<[k := name]> (member_of s)) n)
    (apply_raid logged (Created id name k)).
Proof using Hlist Hlogs.
  intros Hk Hm Hr k'. simpl. rewrite view_update, !lookup_insert. simpl.
  destruct (decide (k = k')) as [<-|Hne].
  - rewrite decide_True by done. rewrite lookup_singleton_eq. simpl. unfold view_of. simpl.
    by rewrite Hm.
  - rewrite decide_False.
    + rewrite view_raids_eq; [apply Hlogs|by rewrite lookup_insert_ne].
    + intros Hk'. pose proof Hk' as (? & ? & _)%Hlist. congruence.
Qed.

Lemma logs_add_member name r k m n cb :
  raids s !! name = Some r → members r ≠ ∅ → member_of s !! k = None → role m = None →
  logs (mkRaids (<[name := with_members r (<[k := m]> (members r))]> (raids s))
          (<[k := name]> (member_of s)) n)
    (apply_raid logged (Joined (rid r) k None cb)).
Proof using All.
  intros Hr Hne Hk Hm k'. apply map_choose in Hne as (k0 & m0 & Hm0).
  destruct (find_view_raid name r k0 m0) as (k1 & m1 & _ & Hf); [done..|].
  unfold apply_raid. rewrite Hf, view_update, !lookup_insert. simpl.
  destruct (decide (k = k')) as [<-|Hkk].
  - rewrite decide_True by done. rewrite lookup_insert_eq. simpl. unfold view_of. simpl.
    by rewrite Hm.
  - rewrite Hlogs. case_decide as Hk'.
    + rewrite lookup_insert_ne by done. unfold view. rewrite Hk'. simpl.
      rewrite Hr. simpl. by destruct (members r !! k').
    + rewrite view_raids_eq; [done|by rewrite lookup_insert_ne].
Qed.

Lemma logs_role name r k m ro :
  member_of s !! k = Some name → raids s !! name = Some r → members r !! k = Some m →
  logs (mkRaids (<[name := with_members r
          (<[k := mkMember (Some ro) (joined m) (created_by m)]> (members r))]> (raids s))
          (member_of s) (join_count s))
    (apply_raid logged (Role (rid r) k ro)).
Proof using Hlogs.
  intros Hk Hr Hm k'.
  assert (view s k = Some (view_of r m)) as Hv by (apply view_Some; eauto 10).
  unfold apply_raid. rewrite Hlogs, Hv. simpl. unfold string_eqb.
  rewrite bool_decide_true by done. rewrite view_update. simpl.
  destruct (decide (k' = k)) as [->|Hkk].
  - rewrite lookup_insert_eq, decide_True by done. by rewrite lookup_insert_eq.
  - rewrite lookup_insert_ne by done. rewrite lookup_insert_ne by done.
    rewrite Hlogs. case_decide as Hk'; [|by rewrite view_raids_eq].
    unfold view. rewrite Hk'. simpl. rewrite Hr. simpl. by destruct (members r !! k').
Qed.

Lemma logs_left name r k reason n :
  member_of s !! k = Some name → raids s !! name = Some r →
  logs (mkRaids (<[name := with_members r (delete k (members r))]> (raids s))
          (delete k (member_of s)) n)
    (apply_raid logged (LeftRaid (rid r) k reason)).
Proof using Hlist Hlogs.
  intros Hk Hr k'. pose proof Hk as (r' & Hr' & m & Hm)%Hlist.
  rewrite Hr in Hr'. injection Hr' as <-.
  assert (view s k = Some (view_of r m)) as Hv by (apply view_Some; eauto 10).
  unfold apply_raid. rewrite Hlogs, Hv. simpl. unfold string_eqb.
  rewrite bool_decide_true by done. rewrite view_update, !lookup_delete. simpl.
  destruct (decide (k = k')) as [<-|Hkk].
  - rewrite decide_False by done. unfold view. simpl. by rewrite lookup_delete_eq.
  - rewrite Hlogs. case_decide as Hk'.
    + rewrite lookup_delete_ne by done. unfold view. rewrite Hk'. simpl. rewrite Hr. simpl.
      by destruct (members r !! k').
    + rewrite view_raids_eq; [done|by rewrite lookup_delete_ne].
Qed.

(** A pause or a new owner rewrites the views of the raid's members. *)
Lemma logs_update_views name r f o p g :
  raids s !! name = Some r →
  (∀ m, f (view_of r m) =
     view_of (mkRaid (rid r) (rname r) o (members r) p g) m) →
  logs (mkRaids (<[name := mkRaid (rid r) (rname r) o (members r) p g]> (raids s))
          (member_of s) (join_count s))
    (update_views (rid r) f logged).
Proof using Hids Hlogs.
  intros Hr Hf k. unfold update_views. rewrite lookup_fmap, Hlogs, view_update. simpl.
  rewrite (view_raids_eq s) by done. destruct (view s k) as [v|] eqn:Hv; simpl.
  - unfold string_eqb. pose proof (view_in_raid k v name r Hv Hr) as Hiff.
    case_bool_decide as Hid; case_decide as Hk; try tauto.
    apply view_Some in Hv as (n' & r' & m & Hk' & Hr' & Hm & ->). simplify_eq.
    rewrite Hm. simpl. by rewrite Hf.
  - case_decide as Hk; [|done]. unfold view in Hv. rewrite Hk in Hv. simpl in Hv.
    rewrite Hr in Hv. simpl in Hv. by destruct (members r !! k).
Qed.

Lemma logs_dissolved name r n listed reason :
  raids s !! name = Some r →
  logs (mkRaids (delete name (raids s))
          (foldl (λ m k, delete k m) (member_of s) (keys (members r))) n)
    (apply_raid logged (Dissolved (rid r) listed reason)).
Proof using All.
  intros Hr k. simpl. rewrite map_lookup_filter, Hlogs. unfold view at 2. simpl.
  rewrite foldl_delete_lookup.
  destruct (view s k) as [v|] eqn:Hv; simpl.
  - pose proof (view_in_raid k v name r Hv Hr) as Hiff.
    pose proof Hv as (n' & r' & m & Hk & Hr' & Hm & ->)%view_Some. simpl in *.
    case_guard as Hid; simpl.
    + rewrite decide_False.
      * rewrite Hk. simpl. rewrite lookup_delete_ne by congruence. rewrite Hr'. simpl.
        by rewrite Hm.
      * rewrite elem_of_keys. intros Hin.
        assert (member_of s !! k = Some name) as Hk2 by (apply Hlist; exists r; done).
        tauto.
    + case_decide as Hin; [done|]. exfalso.
      assert (rid r' = rid r) as Hid' by (destruct (decide (rid r' = rid r)); tauto).
      apply Hiff in Hid'. rewrite Hk in Hid'. simplify_eq. rewrite elem_of_keys in Hin. eauto.
  - rewrite view_None in Hv by done. rewrite Hv. by case_decide.
Qed.
End logs.
