(* ===== verification/RaidSpec.v ===== *)
(** * What the raid rules promise

    The mutations as one labelled step function, the states it reaches, and
    the theorems about them: safety, atomic failure, the functional behaviour
    of invitations and departures, and the refinement of the logged view. *)
From S2P Require Import Prelude Json Grammar Raid RaidFacts RaidLog.

Inductive Op :=
| OpCreate (id name owner actor : string)
| OpInvite (id name : string) (sessions : list string) (actor : string)
| OpJoin (id name session actor : string)
| OpRun (owner session : string)
| OpRemove (session : string) (reason : Reason)
| OpKick (session actor : string)
| OpSetOwner (name session actor : string)
| OpDestroy (name actor : string)
| OpSetRole (session role actor : string).

Definition exec (op : Op) : M Raids Error (list Event) :=
  match op with
  | OpCreate id name owner actor => create id name owner actor
  | OpInvite id name sessions actor => invite id name sessions actor
  | OpJoin id name session actor => join id name session actor
  | OpRun owner session => run owner session
  | OpRemove session reason => remove session reason
  | OpKick session actor => kick session actor
  | OpSetOwner name session actor => set_owner name session actor
  | OpDestroy name actor => destroy name actor
  | OpSetRole session role actor => set_role session role actor
  end.

(** The states any sequence of calls, failed ones included, can reach. *)
Inductive reachable : Raids → Prop :=
| reach_default : reachable default_raids
| reach_step s op : reachable s → reachable (state_of (exec op) s).

Lemma exec_keeps op : keeps wf (exec op).
Proof. destruct op; simpl; eauto with keeps. Qed.
Lemma reachable_wf s : reachable s → wf s.
Proof. induction 1; [apply wf_default|by apply exec_keeps]. Qed.

(** The raid a name or a new raid's ID: the caller supplies an unused one. *)
Definition op_fresh (op : Op) (s : Raids) : Prop :=
  match op with
  | OpCreate id name _ _ | OpInvite id name _ _ | OpJoin id name _ _ =>
      raids s !! name = None → id_fresh id s
  | _ => True
  end.

Section ids.
Context {s : Raids} (Hids : ids_unique s).
Lemma ids_unique_update name r r' mo n :
  raids s !! name = Some r → rid r' = rid r →
  ids_unique (mkRaids (<[name := r']> (raids s)) mo n).
Proof using Hids.
  intros Hr Hid n1 n2 r1 r2. simpl. rewrite !lookup_insert.
  destruct (decide (name = n1)) as [<-|H1n], (decide (name = n2)) as [<-|H2n]; [done|..].
  - intros [= <-] H2 H12. apply (Hids name n2 r r2); congruence.
  - intros H1 [= <-] H12. apply (Hids n1 name r1 r); congruence.
  - intros H1 H2 H12. by apply (Hids n1 n2 r1 r2).
Qed.
Lemma ids_unique_new name r mo n :
  id_fresh (rid r) s → ids_unique (mkRaids (<[name := r]> (raids s)) mo n).
Proof using Hids.
  intros Hf n1 n2 r1 r2. simpl. rewrite !lookup_insert.
  destruct (decide (name = n1)) as [<-|H1n], (decide (name = n2)) as [<-|H2n]; [done|..].
  - intros [= <-] H2 H12. by destruct (Hf n2 r2 H2).
  - intros H1 [= <-] H12. by destruct (Hf n1 r1 H1).
  - intros H1 H2 H12. by apply (Hids n1 n2 r1 r2).
Qed.
Lemma ids_unique_delete name mo n :
  ids_unique (mkRaids (delete name (raids s)) mo n).
Proof using Hids.
  intros n1 n2 r1 r2. simpl. rewrite !lookup_delete_Some. intros [_ H1] [_ H2].
  by apply Hids.
Qed.
End ids.

(** [inv s]: well-formed with unique IDs; [follows s l evs s']: [s'] is [inv]
    and its logged view is the replay of [evs] on [l]. *)
Definition inv (s : Raids) : Prop := wf s ∧ ids_unique s.
Definition refines (l : Logged) (m : M Raids Error (list Event)) (s : Raids) : Prop :=
  ∀ evs s', m s = (Ok evs, s') → ids_unique s' ∧ logs s' (replay l evs).

Lemma replay_app l evs1 evs2 : replay l (evs1 ++ evs2) = replay (replay l evs1) evs2.
Proof. unfold replay. by rewrite fmap_app, foldl_app. Qed.

Section refinement.
Context {s : Raids} {l : Logged}.
Context (Hwf : wf s) (Hids : ids_unique s) (Hlogs : logs s l).

Let Hlist : listing s := wf_listed _ Hwf.

Lemma create_refines id name k a :
  (raids s !! name = None → id_fresh id s) → refines l (create id name k a) s.
Proof using All.
  intros Hfresh evs s' He. destruct (valid_name name) eqn:Hv;
    [|unfold create in He; munfold; rewrite Hv in He; by simplify_eq/=].
  destruct (raids s !! name) as [r|] eqn:Hr.
  { unfold create in He. munfold. rewrite Hv in He. simpl in He. rewrite Hr in He.
    by rewrite bool_decide_true in He by eauto. }
  destruct (member_of s !! k) as [n|] eqn:Hk.
  { unfold create in He. munfold. rewrite Hv in He. simpl in He. rewrite Hr in He.
    rewrite bool_decide_false in He by by intros [? ?]. simpl in He.
    by rewrite Hk in He. }
  rewrite create_ok in He by done. simplify_eq. split.
  - apply ids_unique_new; [done|]. by apply Hfresh.
  - by apply logs_new_raid.
Qed.

Lemma run_refines o k : refines l (run o k) s.
Proof using All.
  intros evs s' He. unfold run in He. munfold.
  destruct (member_of s !! o) as [name|] eqn:Ho; simpl in He; [|done].
  destruct (member_of s !! k) eqn:Hk; simpl in He; [done|].
  destruct (wf_member_raid Hwf _ _ Ho) as (r & m & Hr & Hm & Hrw).
  rewrite Hr in He. simpl in He.
  destruct (opt_string_eqb _ _); simpl in He; simplify_eq. split.
  - by eapply ids_unique_update.
  - apply logs_add_member; try done. apply (rw_inhabited _ _ Hrw).
Qed.

Lemma set_owner_refines name k a : refines l (set_owner name k a) s.
Proof using All.
  intros evs s' He. unfold set_owner in He. munfold.
  destruct (raids s !! name) as [r|] eqn:Hr; simpl in He; [|done].
  case_bool_decide; simpl in He; [|done].
  destruct (opt_string_eqb _ _); simplify_eq/=; [done|]. split.
  - by eapply ids_unique_update.
  - by apply logs_update_views.
Qed.

Lemma set_role_refines k ro a : refines l (set_role k ro a) s.
Proof using All.
  intros evs s' He. unfold set_role in He. munfold.
  destruct (valid_name ro); simpl in He; [|done].
  destruct (member_of s !! k) as [name|] eqn:Hk; simpl in He; [|done].
  destruct (wf_member_raid Hwf _ _ Hk) as (r & m & Hr & Hm & Hrw).
  rewrite Hr in He. simpl in He. rewrite Hm in He. simpl in He.
  destruct (opt_string_eqb _ _); simplify_eq/=; [done|]. split.
  - by eapply ids_unique_update.
  - by apply logs_role.
Qed.

Lemma destroy_refines name a : refines l (destroy name a) s.
Proof using All.
  intros evs s' He. unfold destroy, dissolve in He. munfold.
  case_bool_decide as Hr; simpl in He; [|done]. destruct Hr as [r Hr].
  rewrite Hr in He. simplify_eq/=. split.
  - by apply ids_unique_delete.
  - by apply logs_dissolved.
Qed.
End refinement.

(** The state between a departure and what follows it. *)
Definition left_state (s : Raids) (name : string) (r : Raid) (k : string) : Raids :=
  mkRaids (<[name := with_members r (delete k (members r))]> (raids s))
    (delete k (member_of s)) (join_count s).

Lemma listing_left s name r k :
  listing s → member_of s !! k = Some name → raids s !! name = Some r →
  listing (left_state s name r k).
Proof.
  intros Hlist Hk Hr k' n'. unfold listed. simpl. rewrite lookup_delete, lookup_insert.
  repeat case_decide; subst; split; try done.
  - intros (x & [= <-] & Hm). simpl in Hm. rewrite lookup_delete_eq in Hm. by destruct Hm.
  - intros (x & Hx & Hm). assert (listed s k' n') as Hl by (by exists x).
    apply Hlist in Hl. congruence.
  - intros (x & Hx & Hm)%Hlist. eexists. split; [done|]. simpl.
    rewrite lookup_delete_ne by done. congruence.
  - intros (x & [= <-] & Hm). simpl in Hm. rewrite lookup_delete_ne in Hm by done.
    apply Hlist. by exists r.
  - intros (x & Hx & Hm)%Hlist. by exists x.
  - intros (x & Hx & Hm). apply Hlist. by exists x.
Qed.

(** [leave], branch by branch, in terms of [left_state]. *)
Inductive departure (s : Raids) (k a : string) (reason : Reason) :
    list Event → Raids → Prop :=
| departs_nowhere : member_of s !! k = None → departure s k a reason [] s
| departs_last name r :
    member_of s !! k = Some name → raids s !! name = Some r →
    delete k (members r) = ∅ →
    departure s k a reason
      [mkEvent a (LeftRaid (rid r) k reason); mkEvent a (Dissolved (rid r) [k] Empty_)]
      (mkRaids (delete name (raids s)) (delete k (member_of s)) (join_count s))
| departs_owner name r :
    member_of s !! k = Some name → raids s !! name = Some r →
    delete k (members r) ≠ ∅ → owner r = Some k →
    departure s k a reason
      [mkEvent a (LeftRaid (rid r) k reason);
       mkEvent a (Paused (rid r) k reason (keys (delete k (members r))))]
      (mkRaids (<[name := mkRaid (rid r) (rname r) None (delete k (members r))
                    (Some (mkPaused k reason)) (u64_add (generation r) 1)]> (raids s))
         (delete k (member_of s)) (join_count s))
| departs_member name r :
    member_of s !! k = Some name → raids s !! name = Some r →
    delete k (members r) ≠ ∅ → owner r ≠ Some k →
    departure s k a reason [mkEvent a (LeftRaid (rid r) k reason)] (left_state s name r k).

Lemma leave_departure k a reason s :
  wf s → ∃ evs s', leave k a reason s = (Ok evs, s') ∧ departure s k a reason evs s'.
Proof.
  intros Hwf. unfold leave. munfold.
  destruct (member_of s !! k) as [name|] eqn:Hk; simpl; [|eauto using departure].
  destruct (wf_member_raid Hwf _ _ Hk) as (r & m & Hr & Hm & Hrw). rewrite Hr. simpl.
  case_bool_decide as Hempty.
  - unfold dissolve. munfold. simpl. rewrite lookup_insert_eq. simpl.
    rewrite delete_insert_eq, Hempty. rewrite (proj2 (keys_nil ∅) eq_refl). simpl.
    do 2 eexists. split; [done|]. by apply departs_last.
  - destruct (opt_string_eqb _ _) eqn:Ho; unfold opt_string_eqb in Ho.
    + apply bool_decide_eq_true in Ho. do 2 eexists. split; [done|]. by apply departs_owner.
    + apply bool_decide_eq_false in Ho. do 2 eexists. split; [done|]. by apply departs_member.
Qed.

Section departures.
Context {s : Raids} {l : Logged}.
Context (Hwf : wf s) (Hids : ids_unique s) (Hlogs : logs s l).

Lemma departure_refines k a reason evs s' :
  departure s k a reason evs s' → ids_unique s' ∧ logs s' (replay l evs).
Proof using All.
  pose proof (wf_listed _ Hwf) as Hlist.
  destruct 1 as [Hk|name r Hk Hr He|name r Hk Hr He Ho|name r Hk Hr He Ho]; [done|..];
    pose proof (ids_unique_update Hids name r (with_members r (delete k (members r)))
      (delete k (member_of s)) (join_count s) Hr eq_refl) as Hids1;
    pose proof (logs_left Hlist Hlogs name r k reason (join_count s) Hk Hr) as Hl1.
  - split; [by apply ids_unique_delete|]. unfold replay. cbn [fmap list_fmap foldl change].
    pose proof (logs_dissolved (listing_left s name r k Hlist Hk Hr) Hids1 Hl1 name
      (with_members r (delete k (members r))) (join_count s) [k] Empty_) as Hd.
    simpl in Hd. rewrite lookup_insert_eq, delete_insert_eq, He in Hd.
    rewrite (proj2 (keys_nil ∅) eq_refl) in Hd. by apply Hd.
  - split; [by eapply ids_unique_update|]. unfold replay. cbn [fmap list_fmap foldl change].
    pose proof (logs_update_views Hids1 Hl1 name
      (with_members r (delete k (members r))) pause_view None (Some (mkPaused k reason))
      (u64_add (generation r) 1)) as Hd.
    simpl in Hd. rewrite lookup_insert_eq, insert_insert_eq in Hd. by apply Hd.
  - split; [exact Hids1|exact Hl1].
Qed.

Lemma leave_refines k a reason : refines l (leave k a reason) s.
Proof using All.
  intros evs s' He. destruct (leave_departure k a reason s Hwf) as (evs' & s1 & Hl & Hd).
  rewrite Hl in He. simplify_eq. by eapply departure_refines.
Qed.
End departures.

Lemma invite_each_refines name a k0 evs0 evs s s' l0 :
  inv s → is_Some (raids s !! name) → logs s (replay l0 evs0) →
  invite_each name a k0 evs0 s = (Ok evs, s') →
  ids_unique s' ∧ logs s' (replay l0 evs).
Proof.
  revert s evs0. induction k0 as [|k k0 IH]; intros s evs0 [Hwf Hids] [r Hr] Hlogs He.
  { simpl in He. munfold. by simplify_eq. }
  simpl in He. munfold. destruct (member_of s !! k) eqn:Hk; [by eapply IH|].
  rewrite Hr in He. simpl in He.
  eapply IH in He; [done|..].
  - split; [by apply wf_add_member|by eapply ids_unique_update].
  - simpl. rewrite lookup_insert_eq. eauto.
  - rewrite replay_app. unfold replay at 1. cbn [fmap list_fmap foldl change].
    apply (logs_add_member (wf_listed _ Hwf) Hids Hlogs); try done.
    apply (rw_inhabited _ _ (wf_raids _ Hwf _ _ Hr)).
Qed.

Lemma invite_refines id name ks a s l :
  inv s → (raids s !! name = None → id_fresh id s) → logs s l →
  refines l (invite id name ks a) s.
Proof.
  intros [Hwf Hids] Hfresh Hlogs evs s' He.
  destruct (invite_cases id name ks a s) as [[e Hi]|(first & Hready & Hi)]; [congruence|].
  destruct (raids s !! name) as [r|] eqn:Hr.
  { rewrite Hi in He. eapply (invite_each_refines _ _ _ []); [done|by eauto|exact Hlogs|done]. }
  assert (member_of s !! first = None) as Hk.
  { destruct Hready as [_ Hhead _ Hother].
    destruct (member_of s !! first) as [n|] eqn:Hk; [|done].
    rewrite other_raid_None in Hother. destruct ks; simplify_eq/=.
    assert (n = name) as -> by (apply (Hother first); [left|done]).
    by apply wf_absent_raid in Hk. }
  destruct (Hi Hk) as (evs1 & s1 & Hc & Hi'). rewrite Hi' in He.
  destruct (create_refines Hwf Hids Hlogs id name first a (λ _, Hfresh eq_refl) _ _ Hc)
    as [Hids1 Hlogs1].
  pose proof (create_keeps id name first a s Hwf) as [_ Hwf1].
  unfold state_of in Hwf1. rewrite Hc in Hwf1.
  eapply invite_each_refines; [by split| |done|done].
  rewrite (create_ok id name first a s (ir_valid _ _ _ _ Hready) Hr Hk) in Hc.
  simplify_eq. simpl. rewrite lookup_insert_eq. eauto.
Qed.

Lemma exec_inv op s evs s' l :
  inv s → op_fresh op s → logs s l → exec op s = (Ok evs, s') →
  inv s' ∧ logs s' (replay l evs).
Proof.
  intros [Hwf Hids] Hfresh Hlogs He.
  pose proof (exec_keeps op s Hwf) as [_ Hwf']. unfold state_of in Hwf'. rewrite He in Hwf'.
  assert (refines l (exec op) s) as Hr.
  { destruct op; simpl in *.
    - by apply create_refines.
    - by apply invite_refines.
    - by apply invite_refines.
    - by apply run_refines.
    - by apply leave_refines.
    - intros evs' s1 Hk. unfold kick in Hk. munfold.
      case_bool_decide; simpl in Hk; [|done].
      exact (leave_refines Hwf Hids Hlogs _ _ _ _ _ Hk).
    - by apply set_owner_refines.
    - by apply destroy_refines.
    - by apply set_role_refines. }
  destruct (Hr _ _ He) as [Hids' Hlogs']. done.
Qed.

(** ** Failures *)
Lemma invite_each_ok name a ks evs s :
  wf s → is_Some (raids s !! name) →
  ∃ evs' s', invite_each name a ks evs s = (Ok evs', s').
Proof.
  revert s evs. induction ks as [|k ks IH]; intros s evs Hwf Hr; [by eexists _, _|].
  simpl. munfold. destruct (member_of s !! k) eqn:Hk; [by apply IH|].
  destruct Hr as [r Hr]. rewrite Hr. simpl. apply IH.
  - by apply wf_add_member.
  - simpl. rewrite lookup_insert_eq. eauto.
Qed.

Definition err_unchanged (m : M Raids Error (list Event)) : Prop :=
  ∀ s e s', wf s → m s = (Err e, s') → s' = s.

Lemma create_err id name k a : err_unchanged (create id name k a).
Proof.
  intros s e s' _ He. unfold create in He. munfold.
  repeat (case_match; simplify_eq/=; try done).
Qed.
Lemma invite_err id name ks a : err_unchanged (invite id name ks a).
Proof.
  intros s e s' Hwf He.
  destruct (invite_cases id name ks a s) as [[e' Hi]|(first & Hready & Hi)]; [congruence|].
  exfalso. destruct (raids s !! name) as [r|] eqn:Hr.
  { destruct (invite_each_ok name a ks [] s) as (evs & s1 & H1); eauto. congruence. }
  assert (member_of s !! first = None) as Hk.
  { destruct Hready as [_ Hhead _ Hother].
    destruct (member_of s !! first) as [n|] eqn:Hk; [|done].
    rewrite other_raid_None in Hother. destruct ks; simplify_eq/=.
    assert (n = name) as -> by (apply (Hother first); [left|done]).
    by apply wf_absent_raid in Hk. }
  destruct (Hi Hk) as (evs1 & s1 & Hc & Hi').
  pose proof (create_keeps id name first a s Hwf) as [_ Hwf1].
  unfold state_of in Hwf1. rewrite Hc in Hwf1.
  destruct (invite_each_ok name a ks evs1 s1) as (evs & s2 & H2); [done| |congruence].
  rewrite (create_ok id name first a s (ir_valid _ _ _ _ Hready) Hr Hk) in Hc.
  simplify_eq. simpl. rewrite lookup_insert_eq. eauto.
Qed.
Lemma run_err o k : err_unchanged (run o k).
Proof.
  intros s e s' _ He. unfold run in He. munfold.
  repeat (case_match; simplify_eq/=; try done).
Qed.
Lemma leave_err k a reason : err_unchanged (leave k a reason).
Proof.
  intros s e s' Hwf He. destruct (leave_departure k a reason s Hwf) as (? & ? & H & _).
  congruence.
Qed.
Lemma set_owner_err name k a : err_unchanged (set_owner name k a).
Proof.
  intros s e s' _ He. unfold set_owner in He. munfold.
  repeat (case_match; simplify_eq/=; try done).
Qed.
Lemma destroy_err name a : err_unchanged (destroy name a).
Proof.
  intros s e s' _ He. unfold destroy, dissolve in He. munfold.
  repeat (case_match; simplify_eq/=; try done).
Qed.
Lemma set_role_err k ro a : err_unchanged (set_role k ro a).
Proof.
  intros s e s' _ He. unfold set_role in He. munfold.
  repeat (case_match; simplify_eq/=; try done).
Qed.
Lemma kick_err k a : err_unchanged (kick k a).
Proof.
  intros s e s' Hwf He. unfold kick in He. munfold.
  case_bool_decide; simplify_eq/=; [by eapply leave_err|done].
Qed.
#[export] Hint Resolve create_err invite_err run_err leave_err set_owner_err destroy_err
  set_role_err kick_err : keeps.

Lemma exec_err op : err_unchanged (exec op).
Proof. destruct op; simpl; unfold join, remove; auto with keeps. Qed.

(** ** Invitations *)

(** The listed sessions that are in no raid yet, each once, in order. *)
Fixpoint joiners (seen : gset string) (ks : list string) : list string :=
  match ks with
  | [] => []
  | k :: ks => if decide (k ∈ seen) then joiners seen ks
               else k :: joiners ({[k]} ∪ seen) ks
  end.
Lemma elem_of_joiners seen ks k : k ∈ joiners seen ks ↔ k ∈ ks ∧ k ∉ seen.
Proof.
  revert seen. induction ks as [|k' ks IH]; intros seen; simpl; [set_solver|].
  case_decide; [rewrite IH; set_solver|].
  rewrite elem_of_cons, IH. destruct (decide (k = k')) as [->|]; set_solver.
Qed.
Lemma joiners_NoDup seen ks : NoDup (joiners seen ks).
Proof.
  revert seen. induction ks as [|k ks IH]; intros seen; simpl; [constructor|].
  case_decide; [done|]. constructor; [|done]. rewrite elem_of_joiners. set_solver.
Qed.

Definition joined_event (a raid k : string) : Event := mkEvent a (Joined raid k None None).

(** What a raid keeps when sessions join it. *)
Record same_raid (r r' : Raid) : Prop := {
  sr_id : rid r' = rid r;
  sr_owner : owner r' = owner r;
  sr_paused : paused r' = paused r;
  sr_generation : generation r' = generation r;
  sr_members : members r ⊆ members r' }.
Lemma same_raid_refl r : same_raid r r.
Proof. done. Qed.
Lemma same_raid_trans r1 r2 r3 : same_raid r1 r2 → same_raid r2 r3 → same_raid r1 r3.
Proof. intros [] []. split; [congruence..|by etrans]. Qed.

Record invited (s s' : Raids) (name : string) (new : list string) : Prop := {
  inv_new : ∀ k, k ∈ new → member_of s' !! k = Some name;
  inv_old : ∀ k, k ∉ new → member_of s' !! k = member_of s !! k;
  inv_other : ∀ n, n ≠ name → raids s' !! n = raids s !! n }.

Lemma invite_each_spec name a ks evs0 evs s s' r :
  wf s → raids s !! name = Some r →
  invite_each name a ks evs0 s = (Ok evs, s') →
  evs = evs0 ++ (joined_event a (rid r) <$> joiners (dom (member_of s)) ks) ∧
  invited s s' name (joiners (dom (member_of s)) ks) ∧
  ∃ r', raids s' !! name = Some r' ∧ same_raid r r'.
Proof.
  revert s evs0 r. induction ks as [|k ks IH]; intros s evs0 r Hwf Hr He.
  { simpl in He. munfold. simplify_eq. rewrite app_nil_r. split_and!; [done|..].
    - split; [|done|done]. intros k Hk. by apply not_elem_of_nil in Hk.
    - exists r. split; [done|apply same_raid_refl]. }
  simpl in He |- *. munfold. destruct (member_of s !! k) as [n|] eqn:Hk.
  { rewrite decide_True by (by apply elem_of_dom). by apply (IH s evs0 r). }
  rewrite decide_False by (by apply not_elem_of_dom). rewrite Hr in He. simpl in He.
  eapply IH in He as (-> & [Hnew Hold Hother] & r' & Hr' & Hsame);
    [|by apply wf_add_member|simpl; by rewrite lookup_insert_eq].
  cbn [member_of raids] in *. rewrite dom_insert_L in *. simpl in Hsame.
  split_and!.
  - rewrite fmap_cons, <-app_assoc. done.
  - split.
    + intros k' [->|Hin]%elem_of_cons; [|by apply Hnew].
      rewrite Hold; [by rewrite lookup_insert_eq|]. rewrite elem_of_joiners. set_solver.
    + intros k' [Hne Hnin]%not_elem_of_cons. rewrite Hold by done.
      by rewrite lookup_insert_ne.
    + intros n' Hn'. rewrite Hother by done. by rewrite lookup_insert_ne.
  - exists r'. split; [done|]. eapply same_raid_trans; [|done].
    split; try done. simpl. apply insert_subseteq. by eapply wf_not_member.
Qed.

(** ** Departures *)

(** What a departure of [k] does to the view of another session. *)
Definition bystander (s : Raids) (k k' : string) (v : RaidView) : RaidView :=
  if bool_decide (view_owner v = Some k) && bool_decide (member_of s !! k = member_of s !! k')
  then pause_view v else v.

(** A run of mutations and the events it returned, IDs being fresh. *)
Inductive history : list Event → Raids → Prop :=
| history_start : history [] default_raids
| history_ok evs s op es s' :
    history evs s → op_fresh op s → exec op s = (Ok es, s') → history (evs ++ es) s'
| history_err evs s op e s' :
    history evs s → exec op s = (Err e, s') → history evs s'.

Lemma view_owner_member s k v :
  wf s → view s k = Some v → ∀ o, view_owner v = Some o → member_of s !! o = member_of s !! k.
Proof.
  intros Hwf (name & r & m & Hk & Hr & Hm & ->)%view_Some o Ho. simpl in Ho.
  apply (rw_owner _ _ (wf_raids _ Hwf _ _ Hr)) in Ho.
  rewrite Hk. apply (wf_listed _ Hwf). by exists r.
Qed.

Lemma departure_view k a reason s evs s' :
  wf s → departure s k a reason evs s' →
  ∀ k', view s' k' = if decide (k' = k) then None else bystander s k k' <$> view s k'.
Proof.
  intros Hwf Hd k'. unfold bystander.
  assert (member_of s' !! k = None) as Hgone.
  { destruct Hd; simpl; [done|..]; by rewrite lookup_delete_eq. }
  case_decide as Hkk; [subst; unfold view; by rewrite Hgone|].
  destruct Hd as [Hk|name r Hk Hr He|name r Hk Hr He Ho|name r Hk Hr He Ho].
  - destruct (view s k') as [v|] eqn:Hv; [|done]. simpl.
    case_bool_decide as Ho; simpl; [|done]. case_bool_decide as Hm; [|done].
    pose proof Hv as (n & _ & _ & Hn & _)%view_Some. congruence.
  - assert (member_of s !! k' ≠ Some name) as Hk'.
    { intros (r' & Hr' & m & Hm)%(wf_listed _ Hwf). rewrite Hr in Hr'. injection Hr' as <-.
      assert (delete k (members r) !! k' = None) as Hn by by rewrite He.
      rewrite lookup_delete_ne in Hn by done. congruence. }
    unfold view at 1. simpl. rewrite lookup_delete_ne by done.
    unfold view. destruct (member_of s !! k') as [n|] eqn:Hn; [|done]. simpl.
    rewrite lookup_delete_ne by congruence. destruct (raids s !! n) as [r'|]; [|done]. simpl.
    destruct (members r' !! k'); [|done]. simpl. rewrite Hk.
    rewrite (bool_decide_false (Some name = Some n)) by congruence. by rewrite andb_false_r.
  - rewrite view_update. simpl. rewrite lookup_delete_ne by done.
    rewrite (view_raids_eq s) by by rewrite lookup_delete_ne.
    case_decide as Hk'.
    + unfold view. rewrite Hk'. simpl. rewrite Hr. simpl. rewrite lookup_delete_ne by done.
      destruct (members r !! k'); [|done]. simpl. rewrite Ho, Hk. by rewrite !bool_decide_true.
    + destruct (view s k'); [|done]. simpl.
      by rewrite Hk, (bool_decide_false (Some name = _)), andb_false_r by done.
  - unfold left_state. rewrite view_update. simpl. rewrite lookup_delete_ne by done.
    rewrite (view_raids_eq s) by by rewrite lookup_delete_ne.
    case_decide as Hk'.
    + unfold view. rewrite Hk'. simpl. rewrite Hr. simpl. rewrite lookup_delete_ne by done.
      destruct (members r !! k'); [|done]. simpl. by rewrite (bool_decide_false (owner r = _)).
    + destruct (view s k'); [|done]. simpl.
      by rewrite Hk, (bool_decide_false (Some name = _)), andb_false_r by done.
Qed.

(** ** The theorems *)

Definition review : Raids :=
  state_of (exec (OpInvite "r1" "review" ["a"; "b"; "c"] "host")) default_raids.
Lemma review_reachable : reachable review.
Proof. apply reach_step, reach_default. Qed.

(** C1. in every reachable state the two indexes agree, each session is in at
    most one raid, a raid has members, is ownerless exactly while paused and
    otherwise owned by one of its members, and no mutation panics. *)
Theorem raids_safe s :
  reachable s →
  wf s ∧ (∀ k n1 n2, listed s k n1 → listed s k n2 → n1 = n2) ∧
  ∀ op, outcome_of (exec op) s ≠ Panic.
Proof.
  intros Hr. pose proof (reachable_wf s Hr) as Hwf. split_and!; [done|by apply wf_unique|].
  intros op. by apply exec_keeps.
Qed.
Lemma raids_safe_witness : reachable review ∧ outcome_of (exec (OpKick "a" "host")) review ≠ Panic.
Proof.
  split; [apply review_reachable|]. apply (raids_safe review review_reachable).
Defined.

(** C2. the complete event log determines the membership: replaying the events
    of any run from the empty view yields exactly the raids the run reached. *)
Theorem history_replays evs s :
  history evs s → logs s (replay ∅ evs) ∧ wf s ∧ ids_unique s.
Proof.
  induction 1 as [|evs s op es s' _ [Hl Hi] Hf He|evs s op e s' _ [Hl Hi] He].
  - split_and!; [|apply wf_default|].
    + intros k. unfold view. simpl. by rewrite !lookup_empty.
    + intros n1 n2 r1 r2. simpl. by rewrite lookup_empty.
  - destruct (exec_inv op s es s' _ Hi Hf Hl He) as [Hi' Hl'].
    rewrite replay_app. by split.
  - assert (s' = s) as -> by (destruct Hi; by eapply exec_err). by split.
Qed.
Lemma history_replays_witness :
  history (match outcome_of (exec (OpInvite "r1" "review" ["a"; "b"; "c"] "host")) default_raids
           with Ok es => es | _ => [] end) review ∧
  logs review (replay ∅ (match outcome_of
    (exec (OpInvite "r1" "review" ["a"; "b"; "c"] "host")) default_raids
           with Ok es => es | _ => [] end)).
Proof.
  assert (history (match outcome_of
    (exec (OpInvite "r1" "review" ["a"; "b"; "c"] "host")) default_raids
           with Ok es => es | _ => [] end) review) as Hh.
  { apply (history_ok [] default_raids (OpInvite "r1" "review" ["a"; "b"; "c"] "host"));
      [constructor| |reflexivity].
    intros _ n r. simpl. by rewrite lookup_empty. }
  split; [exact Hh|]. apply (history_replays _ _ Hh).
Defined.

(** C3. a refused mutation changes nothing: an invitation validates every
    target first, so no error leaves a new raid, a picked owner, a member or a
    consumed join number behind. *)
Theorem refused_changes_nothing s op e s' :
  reachable s → exec op s = (Err e, s') → s' = s.
Proof. intros Hr. apply exec_err. by apply reachable_wf. Qed.
Lemma refused_changes_nothing_witness :
  exec (OpInvite "r2" "fresh" ["d"; "a"] "host") review = (Err (MemberOf "a" "review"), review).
Proof.
  destruct (exec (OpInvite "r2" "fresh" ["d"; "a"] "host") review) as [r s'] eqn:He.
  assert (r = Err (MemberOf "a" "review")) as ->.
  { change r with (r, s').1. rewrite <-He. vm_compute. reflexivity. }
  f_equal. exact (refused_changes_nothing review _ _ s' review_reachable He).
Defined.

(** an accepted invitation makes exactly the listed sessions that were in
    no raid members of the named raid, once each and in order, leaves every
    other session and raid alone, keeps an existing raid's identity, owner and
    pause, and gives a new raid the caller's ID with the first target as owner;
    its events are the creation, if any, and one join per new member. *)
Theorem invite_accepts id name ks a s evs s' :
  wf s → invite id name ks a s = (Ok evs, s') →
  (∀ k, k ∈ ks → member_of s' !! k = Some name) ∧
  (∀ k, k ∉ ks → member_of s' !! k = member_of s !! k) ∧
  (∀ n, n ≠ name → raids s' !! n = raids s !! n) ∧
  match raids s !! name with
  | Some r =>
      evs = joined_event a (rid r) <$> joiners (dom (member_of s)) ks ∧
      ∃ r', raids s' !! name = Some r' ∧ same_raid r r'
  | None => ∃ first, head ks = Some first ∧
      evs = mkEvent a (Created id name first) ::
            (joined_event a id <$> joiners ({[first]} ∪ dom (member_of s)) ks) ∧
      ∃ r', raids s' !! name = Some r' ∧ rid r' = id ∧ owner r' = Some first ∧
            paused r' = None ∧ generation r' = 0%N
  end.
Proof.
  intros Hwf He.
  destruct (invite_cases id name ks a s) as [[e Hi]|(first & Hready & Hi)]; [congruence|].
  pose proof (proj1 (other_raid_None _ _ _) (ir_others _ _ _ _ Hready)) as Hother.
  destruct (raids s !! name) as [r|] eqn:Hr.
  - rewrite Hi in He. apply (invite_each_spec _ _ _ _ _ _ _ r) in He
      as (-> & [Hnew Hold Hoth] & r' & Hr' & Hsame); [|done..].
    split_and!; [| |done|done|by exists r'].
    + intros k Hk. destruct (member_of s !! k) as [n|] eqn:Hm.
      * rewrite Hold; [by rewrite Hm, (Hother k n)|].
        rewrite elem_of_joiners, elem_of_dom, Hm. naive_solver.
      * apply Hnew. rewrite elem_of_joiners. split; [done|by apply not_elem_of_dom].
    + intros k Hk. apply Hold. rewrite elem_of_joiners. naive_solver.
  - assert (member_of s !! first = None) as Hk0.
    { destruct (member_of s !! first) as [n|] eqn:Hk; [|done].
      pose proof (ir_head _ _ _ _ Hready). destruct ks; simplify_eq/=.
      assert (n = name) as -> by (apply (Hother first); [left|done]).
      by apply wf_absent_raid in Hk. }
    destruct (Hi Hk0) as (evs1 & s1 & Hc & Hi'). rewrite Hi' in He.
    pose proof (create_keeps id name first a s Hwf) as [_ Hwf1].
    unfold state_of in Hwf1. rewrite Hc in Hwf1. simpl in Hwf1.
    rewrite (create_ok id name first a s (ir_valid _ _ _ _ Hready) Hr Hk0) in Hc.
    simplify_eq. eapply invite_each_spec in He
      as (-> & [Hnew Hold Hoth] & r' & Hr' & []); [|done|simpl; by rewrite lookup_insert_eq].
    cbn [member_of raids rid owner paused generation] in *. rewrite dom_insert_L in *.
    pose proof (ir_head _ _ _ _ Hready) as Hhead.
    split_and!.
    + intros k Hk. destruct (decide (k = first)) as [->|Hne].
      { rewrite Hold; [by rewrite lookup_insert_eq|]. rewrite elem_of_joiners. set_solver. }
      destruct (member_of s !! k) as [n|] eqn:Hm.
      * rewrite Hold, lookup_insert_ne by
          (try done; rewrite elem_of_joiners, elem_of_union, elem_of_dom, Hm; naive_solver).
        by rewrite Hm, (Hother k n).
      * apply Hnew. rewrite elem_of_joiners, elem_of_union, elem_of_dom, Hm. set_solver.
    + intros k Hk. assert (k ≠ first) as Hne by (destruct ks; simplify_eq/=; set_solver).
      rewrite Hold by (rewrite elem_of_joiners; naive_solver). by rewrite lookup_insert_ne.
    + intros n Hn. rewrite Hoth by done. by rewrite lookup_insert_ne.
    + exists first. split_and!; [done|done|]. exists r'. done.
Qed.
Lemma invite_accepts_witness :
  ∃ evs s', invite "r9" "review" ["b"; "d"; "d"] "host" review = (Ok evs, s') ∧
    member_of s' !! "d" = Some "review".
Proof.
  destruct (invite "r9" "review" ["b"; "d"; "d"] "host" review) as [r s'] eqn:He.
  assert (r = Ok [mkEvent "host" (Joined "r1" "d" None None)]) as ->.
  { change r with (r, s').1. rewrite <-He. vm_compute. reflexivity. }
  eexists _, _. split; [reflexivity|].
  apply (invite_accepts _ _ _ _ _ _ _ (reachable_wf _ review_reachable) He).
  set_solver.
Defined.

(** a departure removes exactly the session that leaves: every other
    member keeps its raid and role, and only when the owner left do the
    remaining members see the raid paused and ownerless. *)
Theorem departure_spares_others k a reason s evs s' :
  wf s → leave k a reason s = (Ok evs, s') →
  view s' k = None ∧ ∀ k', k' ≠ k → view s' k' = bystander s k k' <$> view s k'.
Proof.
  intros Hwf He. destruct (leave_departure k a reason s Hwf) as (evs' & s1 & Hl & Hd).
  rewrite Hl in He. simplify_eq. pose proof (departure_view _ _ _ _ _ _ Hwf Hd) as Hv.
  split; [by rewrite Hv, decide_True|]. intros k' Hk'. by rewrite Hv, decide_False.
Qed.
Lemma departure_spares_others_witness :
  ∃ evs s', leave "a" "a" Stopped review = (Ok evs, s') ∧ view s' "a" = None ∧
    view s' "b" = Some (mkView "r1" "review" None None true).
Proof.
  destruct (leave "a" "a" Stopped review) as [r s'] eqn:He.
  assert (r = Ok [mkEvent "a" (LeftRaid "r1" "a" Stopped);
                  mkEvent "a" (Paused "r1" "a" Stopped ["b"; "c"])]) as ->.
  { change r with (r, s').1. rewrite <-He. vm_compute. reflexivity. }
  destruct (departure_spares_others "a" "a" Stopped review _ s'
              (reachable_wf _ review_reachable) He) as [Ha Hb].
  eexists _, s'. split; [reflexivity|]. split; [exact Ha|].
  rewrite (Hb "b") by done. vm_compute. reflexivity.
Defined.

(** Between two states, the raid called [name] kept its owner and generation
    or moved to the next generation. *)
Definition generation_step (s s' : Raids) : Prop := ∀ name r r',
  raids s !! name = Some r → raids s' !! name = Some r' →
  (owner r' = owner r ∧ paused r' = paused r ∧ generation r' = generation r) ∨
  (owner r' ≠ owner r ∧ generation r' = u64_add (generation r) 1).

Lemma generation_same s s' :
  (∀ name r r', raids s !! name = Some r → raids s' !! name = Some r' → same_raid r r' ∨
    (owner r' = owner r ∧ paused r' = paused r ∧ generation r' = generation r)) →
  generation_step s s'.
Proof. intros H name r r' Hr Hr'. destruct (H name r r' Hr Hr') as [[]|]; auto. Qed.
Lemma generation_refl s : generation_step s s.
Proof. intros name r r' Hr Hr'. left. by simplify_eq. Qed.
(** Only one raid changed. *)
Lemma generation_update s name r x mo n :
  raids s !! name = Some r →
  (owner x = owner r ∧ paused x = paused r ∧ generation x = generation r) ∨
  (owner x ≠ owner r ∧ generation x = u64_add (generation r) 1) →
  generation_step s (mkRaids (<[name := x]> (raids s)) mo n).
Proof.
  intros Hr Hx n' r1 r2 H1. simpl. rewrite lookup_insert. case_decide; [|left; by simplify_eq].
  intros [= <-]. subst. by simplify_eq.
Qed.

Lemma create_generation id name k a s s' evs :
  wf s → create id name k a s = (Ok evs, s') → generation_step s s'.
Proof.
  intros Hwf He. unfold create in He. munfold.
  destruct (valid_name name); simpl in He; [|done].
  case_bool_decide as Hn; simpl in He; [done|]. apply eq_None_not_Some in Hn.
  destruct (member_of s !! k); simplify_eq/=. intros n r r' Hr. simpl.
  rewrite lookup_insert. case_decide; [congruence|]. intros. left. by simplify_eq.
Qed.
Lemma invite_generation id name ks a s s' evs :
  wf s → invite id name ks a s = (Ok evs, s') → generation_step s s'.
Proof.
  intros Hwf He. destruct (invite_accepts id name ks a s evs s' Hwf He) as (_ & _ & Hoth & Hn).
  apply generation_same. intros n r r' Hr Hr'. left. destruct (decide (n = name)) as [->|Hne].
  - rewrite Hr in Hn. destruct Hn as (_ & r1 & Hr1 & Hsame). congruence.
  - rewrite Hoth in Hr' by done. simplify_eq. apply same_raid_refl.
Qed.
Lemma leave_generation k a reason s s' evs :
  wf s → leave k a reason s = (Ok evs, s') → generation_step s s'.
Proof.
  intros Hwf He. destruct (leave_departure k a reason s Hwf) as (evs' & s1 & Hl & Hd).
  rewrite Hl in He. simplify_eq. destruct Hd as [Hk|name r Hk Hr He|name r Hk Hr He Ho|name r Hk Hr He Ho].
  - apply generation_refl.
  - intros n r1 r2 H1. simpl. rewrite lookup_delete. case_decide; [done|]. left. by simplify_eq.
  - apply (generation_update _ _ r); [done|]. right. simpl. by rewrite Ho.
  - apply (generation_update _ _ r); [done|]. by left.
Qed.
Lemma rest_generation op s s' evs :
  wf s → exec op s = (Ok evs, s') → match op with
  | OpRun _ _ | OpSetOwner _ _ _ | OpDestroy _ _ | OpSetRole _ _ _ => generation_step s s'
  | _ => True end.
Proof.
  intros Hwf He. destruct op as [| | |o k| | |name k a|name a|k ro a]; simpl in He |- *; try done.
  - unfold run in He. munfold.
    destruct (member_of s !! o) as [name|] eqn:Ho; simpl in He; [|done].
    destruct (member_of s !! k) eqn:Hk; simpl in He; [done|].
    destruct (raids s !! name) as [r|] eqn:Hr; simpl in He; [|done].
    destruct (opt_string_eqb _ _); simplify_eq/=.
    apply (generation_update _ _ r); [done|]. by left.
  - unfold set_owner in He. munfold.
    destruct (raids s !! name) as [r|] eqn:Hr; simpl in He; [|done].
    case_bool_decide; simpl in He; [|done].
    destruct (opt_string_eqb _ _) eqn:Ho; unfold opt_string_eqb in Ho; simplify_eq/=;
      [apply generation_refl|]. apply bool_decide_eq_false in Ho.
    apply (generation_update _ _ r); [done|]. right. simpl. naive_solver.
  - unfold destroy, dissolve in He. munfold.
    case_bool_decide as Hr; simpl in He; [|done]. destruct Hr as [r Hr].
    rewrite Hr in He. simplify_eq/=.
    intros n r1 r2 H1. simpl. rewrite lookup_delete. case_decide; [done|]. left. by simplify_eq.
  - unfold set_role in He. munfold. destruct (valid_name ro); simpl in He; [|done].
    destruct (member_of s !! k) as [name|] eqn:Hk; simpl in He; [|done].
    destruct (raids s !! name) as [r|] eqn:Hr; simpl in He; [|done].
    destruct (members r !! k); simpl in He; [|done].
    destruct (opt_string_eqb _ _); simplify_eq/=; [apply generation_refl|].
    apply (generation_update _ _ r); [done|]. by left.
Qed.

(** every mutation either keeps a surviving raid's owner, pause and
    generation or changes its owner and moves to the next generation, so a host
    decision that names a generation cannot apply after a later pause or
    owner change. *)
Theorem generation_marks_owner_changes op s evs s' :
  reachable s → exec op s = (Ok evs, s') → generation_step s s'.
Proof.
  intros Hreach He. pose proof (reachable_wf s Hreach) as Hwf.
  pose proof (rest_generation op s s' evs Hwf He) as Hrest.
  destruct op; simpl in He; try exact Hrest.
  - by eapply create_generation.
  - by eapply invite_generation.
  - by eapply invite_generation.
  - by eapply leave_generation.
  - unfold kick in He. munfold. case_bool_decide; simpl in He; [|done].
    by eapply leave_generation.
Qed.
Lemma generation_marks_owner_changes_witness :
  ∃ evs s', exec (OpSetOwner "review" "b" "host") review = (Ok evs, s') ∧
    generation_step review s'.
Proof.
  destruct (exec (OpSetOwner "review" "b" "host") review) as [r s'] eqn:He.
  assert (r = Ok [mkEvent "host" (Owner "r1" "b" (Some "a") ["a"; "b"; "c"])]) as ->.
  { change r with (r, s').1. rewrite <-He. vm_compute. reflexivity. }
  eexists _, _. split; [reflexivity|].
  exact (generation_marks_owner_changes _ _ _ _ review_reachable He).
Defined.
