(* ===== verification/Membership.v ===== *)
(** * The logged membership under a failing log

    The mailbox authorizes messages by the membership it rebuilt from the
    events it could record. This file relates that membership to the raids the
    events came from, whatever the sink refused. *)
From S2P Require Import Prelude Json Grammar Raid RaidFacts RaidLog RaidSpec.

(** ** Events in the order the raid rules emit them *)

(** A session that enters a raid was in none. *)
Definition admissible (l : Logged) (c : Change) : Prop :=
  match c with
  | Created _ _ k | Joined _ k _ _ => l !! k = None
  | _ => True
  end.
Fixpoint admissible_all (l : Logged) (evs : list Event) : Prop :=
  match evs with
  | [] => True
  | e :: evs => admissible l (change e) ∧ admissible_all (apply_raid l (change e)) evs
  end.

Lemma admissible_app l evs1 evs2 :
  admissible_all l (evs1 ++ evs2) ↔ admissible_all l evs1 ∧ admissible_all (replay l evs1) evs2.
Proof.
  revert l. induction evs1 as [|e evs1 IH]; intros l; simpl; [tauto|].
  rewrite IH. unfold replay. simpl. tauto.
Qed.
(** Changes that bring no session in. *)
Definition enters (c : Change) : bool :=
  match c with Created _ _ _ | Joined _ _ _ _ => true | _ => false end.
Lemma admissible_removals l evs :
  Forall (λ e, enters (change e) = false) evs → admissible_all l evs.
Proof.
  intros Hevs. revert l. induction Hevs as [|e evs He _ IH]; intros l; simpl; [done|].
  split; [|apply IH]. by destruct (change e).
Qed.

Lemma logs_not_member s l k : wf s → logs s l → member_of s !! k = None → l !! k = None.
Proof. intros Hwf Hl Hk. rewrite Hl. apply view_None; [exact (wf_listed _ Hwf)|done]. Qed.

Lemma invite_each_admissible name a ks evs0 evs s s' l0 :
  inv s → is_Some (raids s !! name) → logs s (replay l0 evs0) → admissible_all l0 evs0 →
  invite_each name a ks evs0 s = (Ok evs, s') → admissible_all l0 evs.
Proof.
  revert s evs0. induction ks as [|k ks IH]; intros s evs0 [Hwf Hids] [r Hr] Hlogs Ha He.
  { simpl in He. munfold. by simplify_eq. }
  simpl in He. munfold. destruct (member_of s !! k) eqn:Hk; [by eapply IH|].
  rewrite Hr in He. simpl in He.
  eapply IH in He; [done|..].
  - split; [by apply wf_add_member|by eapply ids_unique_update].
  - simpl. rewrite lookup_insert_eq. eauto.
  - rewrite replay_app. unfold replay at 1. cbn [fmap list_fmap foldl change].
    apply (logs_add_member (wf_listed _ Hwf) Hids Hlogs); try done.
    apply (rw_inhabited _ _ (wf_raids _ Hwf _ _ Hr)).
  - apply admissible_app. split; [done|]. simpl. split; [|done].
    by apply (logs_not_member s).
Qed.

Section ops.
Context {s : Raids} {l : Logged}.
Context (Hinv : inv s) (Hlogs : logs s l).
#[local] Set Default Proof Using "All".

Lemma create_admissible id name k a evs s' :
  create id name k a s = (Ok evs, s') → admissible_all l evs.
Proof.
  intros He. unfold create in He. munfold. destruct (negb _); simpl in He; [done|].
  case_bool_decide; simpl in He; [done|]. destruct (member_of s !! k) eqn:Hk; simpl in He; [done|].
  simplify_eq. simpl. split; [|done]. destruct Hinv. by apply (logs_not_member s).
Qed.
Lemma invite_admissible id name ks a evs s' :
  (raids s !! name = None → id_fresh id s) → invite id name ks a s = (Ok evs, s') →
  admissible_all l evs.
Proof.
  intros Hfresh He. pose proof Hinv as [Hwf Hids].
  destruct (invite_cases id name ks a s) as [[e Hi]|(first & Hready & Hi)]; [congruence|].
  destruct (raids s !! name) as [r|] eqn:Hr.
  { rewrite Hi in He. eapply (invite_each_admissible _ _ _ []); [done|by eauto|exact Hlogs|done|done]. }
  assert (member_of s !! first = None) as Hk.
  { destruct Hready as [_ Hhead _ Hother].
    destruct (member_of s !! first) as [n|] eqn:Hk; [|done].
    rewrite other_raid_None in Hother. destruct ks; simplify_eq/=.
    assert (n = name) as -> by (apply (Hother first); [left|done]).
    by apply wf_absent_raid in Hk. }
  destruct (Hi Hk) as (evs1 & s1 & Hc & Hi'). rewrite Hi' in He.
  destruct (create_refines Hwf Hids Hlogs id name first a (λ _, Hfresh eq_refl) _ _ Hc)
    as [Hids1 Hlogs1].
  pose proof (create_keeps id name first a s Hwf) as [_ Hwf1].
  unfold state_of in Hwf1. rewrite Hc in Hwf1.
  eapply invite_each_admissible; [by split| |done|by eapply create_admissible|done].
  rewrite (create_ok id name first a s (ir_valid _ _ _ _ Hready) Hr Hk) in Hc.
  simplify_eq. simpl. rewrite lookup_insert_eq. eauto.
Qed.
Lemma leave_admissible k a reason evs s' :
  leave k a reason s = (Ok evs, s') → admissible_all l evs.
Proof.
  intros He. destruct (leave_departure k a reason s (proj1 Hinv)) as (evs' & s1 & Hl & Hd).
  rewrite Hl in He. simplify_eq. apply admissible_removals. destruct Hd; repeat constructor.
Qed.
Lemma rest_admissible op evs s' :
  match op with OpRun _ _ | OpSetOwner _ _ _ | OpDestroy _ _ | OpSetRole _ _ _ => True | _ => False end →
  exec op s = (Ok evs, s') → admissible_all l evs.
Proof.
  intros Hop He. pose proof Hinv as [Hwf Hids]. destruct op as [| | |o k| | |name k a|name a|k ro a]; try done; simpl in He.
  - unfold run in He. munfold. destruct (member_of s !! o); simpl in He; [|done].
    destruct (member_of s !! k) eqn:Hk; simpl in He; [done|].
    destruct (raids s !! _); simpl in He; [|done].
    destruct (opt_string_eqb _ _); simpl in He; [|done]. simplify_eq. simpl.
    split; [|done]. by apply (logs_not_member s).
  - unfold set_owner in He. munfold. destruct (raids s !! name); simpl in He; [|done].
    case_bool_decide; simpl in He; [|done].
    destruct (opt_string_eqb _ _); simpl in He; by simplify_eq.
  - unfold destroy, dissolve in He. munfold. case_bool_decide; simpl in He; [|done].
    destruct (raids s !! name); simpl in He; by simplify_eq.
  - unfold set_role in He. munfold. destruct (negb _); simpl in He; [done|].
    destruct (member_of s !! k); simpl in He; [|done].
    destruct (raids s !! _) as [r|]; simpl in He; [|done].
    destruct (members r !! k); simpl in He; [|done].
    destruct (opt_string_eqb _ _); simpl in He; by simplify_eq.
Qed.
Lemma exec_admissible op evs s' :
  op_fresh op s → exec op s = (Ok evs, s') → admissible_all l evs.
Proof.
  intros Hf He. destruct op; try (by eapply rest_admissible; [|exact He]); simpl in *.
  - by eapply create_admissible.
  - by eapply invite_admissible.
  - by eapply invite_admissible.
  - by eapply leave_admissible.
  - unfold kick in He. munfold. case_bool_decide; simpl in He; [|done].
    by eapply leave_admissible.
Qed.
End ops.

(** What a run of the rules emits, replayed, is admissible and exact. *)
Lemma history_logs evs s : history evs s →
  inv s ∧ logs s (replay ∅ evs) ∧ admissible_all ∅ evs.
Proof.
  induction 1 as [|evs s op es s' _ (Hi & Hl & Ha) Hf He|evs s op e s' _ (Hi & Hl & Ha) He].
  - split_and!; [split; [apply wf_default|]| |done].
    + intros n1 n2 r1 r2. simpl. by rewrite lookup_empty.
    + intros k. unfold view. simpl. by rewrite !lookup_empty.
  - destruct (exec_inv op s es s' _ Hi Hf Hl He) as [Hi' Hl'].
    split_and!; [done|by rewrite replay_app|]. apply admissible_app. split; [done|].
    exact (exec_admissible Hi Hl op es s' Hf He).
  - assert (s' = s) as -> by (destruct Hi; by eapply exec_err). done.
Qed.

(** ** Membership that is never too generous *)

(** [v] grants no more than [v']: the same raid, paused whenever [v'] is. *)
Record under (v v' : RaidView) : Prop := {
  un_id : view_id v = view_id v';
  un_name : view_name v = view_name v';
  un_paused : view_paused v' = true → view_paused v = true }.
Definition below (l f : Logged) : Prop :=
  ∀ k v, l !! k = Some v → ∃ v', f !! k = Some v' ∧ under v v'.

Lemma below_refl l : below l l.
Proof. intros k v Hv. by exists v. Qed.

(** Removals are applied even when they cannot be recorded. *)
Lemma below_removal l f c :
  addition_change c = false → below l f → below (apply_raid l c) (apply_raid f c).
Proof.
  intros Hc Hb. destruct c as [| | |raid k reason|raid fo reason ms| |raid ms reason]; try done; simpl.
  - intros k' v Hv. assert (l !! k' = Some v) as Hl.
    { destruct (l !! k) as [x|]; [|done]. destruct (string_eqb _ _); [|done].
      by apply lookup_delete_Some in Hv as [_ ?]. }
    destruct (Hb k' v Hl) as (v' & Hf & Hu). exists v'. split; [|done].
    destruct (f !! k) as [y|] eqn:Hy; [|done]. unfold string_eqb in *.
    case_bool_decide as Hid; [|done]. rewrite lookup_delete_ne; [done|]. intros <-.
    rewrite Hl, (un_id _ _ Hu) in Hv. rewrite Hf in Hy. injection Hy as ->.
    rewrite bool_decide_true in Hv by done. by rewrite lookup_delete_eq in Hv.
  - intros k v Hv. unfold update_views in *. rewrite lookup_fmap in *.
    destruct (l !! k) as [x|] eqn:Hl; [|done]. destruct (Hb k x Hl) as (y & -> & [H1 H2 H3]).
    simpl in *. injection Hv as <-. eexists. split; [done|]. rewrite H1. by destruct (string_eqb _ _).
  - intros k v [Hl Hid]%map_lookup_filter_Some. destruct (Hb k v Hl) as (y & Hy & Hu).
    exists y. split; [|done]. apply map_lookup_filter_Some. split; [done|]. simpl in *.
    by rewrite <-(un_id _ _ Hu).
Qed.
(** Additions that were not recorded are left out. *)
Lemma below_skip l f c :
  addition_change c = true → admissible f c → below l f → below l (apply_raid f c).
Proof.
  intros Hc Ha Hb k' v Hv. destruct (Hb k' v Hv) as (y & Hy & Hu).
  destruct c as [raid name k|raid k ro cb|raid k ro| | |raid o p ms|]; try done; simpl in *.
  - rewrite lookup_insert_ne by congruence. eauto.
  - destruct (find_view raid f) as [x|]; [|eauto]. rewrite lookup_insert_ne by congruence. eauto.
  - destruct (f !! k) as [x|] eqn:Hx; [|eauto]. destruct (string_eqb _ _); [|eauto].
    destruct (decide (k = k')) as [->|Hne]; [|rewrite lookup_insert_ne by done; eauto].
    rewrite lookup_insert_eq. eexists. split; [done|]. simplify_eq. by destruct Hu.
  - unfold update_views. rewrite lookup_fmap, Hy. simpl. eexists. split; [done|].
    destruct Hu as [H1 H2 H3]. by destruct (string_eqb _ _).
Qed.
