(* ===== verification/Operations.v ===== *)
(** * Lifecycle events of the operations a sandbox requested

    [packages/daemon/src/operation.rs]: requests, decisions and terminal
    outcomes, their log records, and the text of a completion notice. *)
From S2P Require Import Prelude Json.

Inductive Change :=
| Requested (kind subject reason : string) (automatic : bool)
| Decided (approved : bool)
| Completed (kind subject status : string) (message : option string) (notify : bool).

Record Event := mkEvent {
  request : string;
  session : string;
  actor : string;
  change : Change }.

Definition kind (e : Event) : string :=
  match change e with
  | Requested _ _ _ _ => "operation.requested"
  | Decided _ => "operation.decided"
  | Completed _ _ _ _ _ => "operation.completed"
  end.

Definition data (e : Event) : Value :=
  match change e with
  | Requested kind subject reason automatic =>
      json_object [("request", String_ (request e)); ("kind", String_ kind);
        ("subject", String_ subject); ("reason", String_ reason); ("automatic", Bool automatic)]
  | Decided approved =>
      json_object [("request", String_ (request e)); ("approved", Bool approved)]
  | Completed kind subject status message _ =>
      json_object [("request", String_ (request e)); ("kind", String_ kind);
        ("subject", String_ subject); ("status", String_ status);
        ("message", json_opt_str message)]
  end.

Definition newline : string := String (Ascii.ascii_of_N 10) "".

(** The notice body. *)
Definition notice (request kind subject status : string) (message : option string) : string :=
  let what :=
    if string_eqb kind "docker" then "Docker attachment (" +:+ subject +:+ ")"
    else if string_eqb kind "package" then "package request '" +:+ subject +:+ "'"
    else if string_eqb kind "devshell" then "dev shell " +:+ subject
    else if string_eqb kind "host-command" then "host command " +:+ subject
    else kind +:+ " request '" +:+ subject +:+ "'" in
  let outcome :=
    if string_eqb status "ready" then "succeeded"
    else if string_eqb status "finished" then "finished"
    else if string_eqb status "denied" then "was denied by the host"
    else if string_eqb status "failed" then "failed"
    else if string_eqb status "withdrawn" then
      "was withdrawn before a decision because its request connection closed"
    else if string_eqb status "cancelled" then "was cancelled"
    else status in
  let detail := match message with Some m => ": " +:+ m | None => "" end in
  "Goblins operation " +:+ request +:+ ": " +:+ what +:+ " " +:+ outcome +:+ detail +:+ "." +:+
  newline +:+
  "This notice needs no reply. Complete it with goblin inbox complete, then continue the work that waited for this result. If you already handled the result, completing the notice is all that is needed.".
