(* ===== verification/Mailbox.v ===== *)
(** * The mailbox state machine

    [packages/daemon/src/mailbox.rs]: messages, receipts, the logged raid
    membership and the operations in progress. A computation runs on the
    mailbox and an audit sink, a parameter known through the [Audit]
    interface; a transition is applied only after the sink accepted it. *)
From S2P Require Import Prelude Json Raid RaidLog Operations Messages.

(** Recently finished requests remembered to discard a resent outcome. *)
Definition FINISHED : N := 1024.
Definition AUXILIARY : N := 16384.
Definition OUTSTANDING : N := 256.
Definition RESERVED : N := 2048.

Abbreviation Fault := (Z * string)%type.

Definition absent : Fault := (-32004, "record absent or unavailable")%Z.
Definition conflict : Fault := (-32009, "stale or conflicting operation")%Z.
Definition capacity : Fault := (-32010, "mailbox capacity reached")%Z.
Definition audit_unavailable : Fault := (-32009, "mailbox audit unavailable")%Z.
Definition raid_unrecorded : Fault := (-32009, "raid membership could not be recorded")%Z.
Definition paused_fault (raid : string) : Fault :=
  (-32009, "raid '" +:+ raid +:+ "' is paused until the host selects a new owner; you will get a notice when it resumes")%Z.

Record Health := mkHealth { h_audit_failed : bool; h_raid_audit_failed : bool }.
#[export] Instance Health_eq_dec : EqDecision Health.
Proof. solve_decision. Defined.

(** Host metadata, never deserialized from an agent request. *)
Record Session := mkSession {
  session_id : string;
  agent_name : string;
  stop_reason : option string;
  running : bool }.
#[export] Instance Session_eq_dec : EqDecision Session.
Proof. solve_decision. Defined.
Abbreviation Directory := (gmap string Session).

Record Limits := mkLimits { max_messages : N; max_operations : N; max_inbox : N }.
Definition default_limits : Limits := mkLimits 4096 16384 256.

Record Event := mkEvent {
  ev_instance : string;
  ev_sequence : N;
  ev_timestamp : N;
  ev_kind : string;
  ev_actor : string;
  ev_sessions : list string;
  ev_data : Value }.

#[export] Instance Event_eq_dec : EqDecision Event.
Proof. solve_decision. Defined.

(** ** The audit sink

    [append event reserved_bytes]. The laws state what the mailbox relies on:
    the sink only ever appends, and only an [Ok] appends. *)
Inductive AuditError := Capacity | Unavailable.
Class Audit (A : Type) : Type := {
  append : Event → N → M A AuditError unit;
  accepted : A → list Event }.
Class AuditLaws (A : Type) `{Audit A} : Prop := {
  append_total e n a : outcome_of (append e n) a ≠ Panic;
  append_ok e n a a' : append e n a = (Ok tt, a') → accepted a' = accepted a ++ [e];
  append_err e n a x a' : append e n a = (Err x, a') → accepted a' = accepted a }.

Record Receipt := mkReceipt { receipt_command : Mutation; receipt_result : Value }.

(** [pending] awaits a decision, [running] is approved and executing. *)
Record Outstanding := mkOutstanding {
  out_session : string; out_request : string; out_kind : string; out_subject : string;
  out_state : string }.
Definition outstanding_value (o : Outstanding) : Value :=
  json_object [("request", String_ (out_request o)); ("kind", String_ (out_kind o));
    ("subject", String_ (out_subject o)); ("state", String_ (out_state o))].

Record Mailbox := mkMailbox {
  instance : string;
  limits : Limits;
  sequence : N;
  messages : list Message;
  receipts : gmap (string * string * string) Receipt;
  audit_failed : bool;
  auxiliary_events : N;
  logged : Logged;
  raid_audit_failed : bool;
  warned : gmap string (gset string);
  operations : gmap string Outstanding;
  finished : gset string;
  finished_order : list string }.

Record Change := mkChange {
  ch_messages : list Message;
  ch_result : Value;
  ch_kind : string;
  ch_data : Value }.

(** Field updates. *)
Definition set_sequence (n : N) (b : Mailbox) : Mailbox :=
  mkMailbox (instance b) (limits b) n (messages b) (receipts b) (audit_failed b)
    (auxiliary_events b) (logged b) (raid_audit_failed b) (warned b) (operations b)
    (finished b) (finished_order b).
Definition set_messages (l : list Message) (b : Mailbox) : Mailbox :=
  mkMailbox (instance b) (limits b) (sequence b) l (receipts b) (audit_failed b)
    (auxiliary_events b) (logged b) (raid_audit_failed b) (warned b) (operations b)
    (finished b) (finished_order b).
Definition set_receipts r (b : Mailbox) : Mailbox :=
  mkMailbox (instance b) (limits b) (sequence b) (messages b) r (audit_failed b)
    (auxiliary_events b) (logged b) (raid_audit_failed b) (warned b) (operations b)
    (finished b) (finished_order b).
Definition set_audit_failed (x : bool) (b : Mailbox) : Mailbox :=
  mkMailbox (instance b) (limits b) (sequence b) (messages b) (receipts b) x
    (auxiliary_events b) (logged b) (raid_audit_failed b) (warned b) (operations b)
    (finished b) (finished_order b).
Definition set_auxiliary_events (n : N) (b : Mailbox) : Mailbox :=
  mkMailbox (instance b) (limits b) (sequence b) (messages b) (receipts b) (audit_failed b)
    n (logged b) (raid_audit_failed b) (warned b) (operations b)
    (finished b) (finished_order b).
Definition set_logged (l : Logged) (b : Mailbox) : Mailbox :=
  mkMailbox (instance b) (limits b) (sequence b) (messages b) (receipts b) (audit_failed b)
    (auxiliary_events b) l (raid_audit_failed b) (warned b) (operations b)
    (finished b) (finished_order b).
Definition set_raid_audit_failed (x : bool) (b : Mailbox) : Mailbox :=
  mkMailbox (instance b) (limits b) (sequence b) (messages b) (receipts b) (audit_failed b)
    (auxiliary_events b) (logged b) x (warned b) (operations b)
    (finished b) (finished_order b).
Definition set_warned w (b : Mailbox) : Mailbox :=
  mkMailbox (instance b) (limits b) (sequence b) (messages b) (receipts b) (audit_failed b)
    (auxiliary_events b) (logged b) (raid_audit_failed b) w (operations b)
    (finished b) (finished_order b).
Definition set_operations o (b : Mailbox) : Mailbox :=
  mkMailbox (instance b) (limits b) (sequence b) (messages b) (receipts b) (audit_failed b)
    (auxiliary_events b) (logged b) (raid_audit_failed b) (warned b) o
    (finished b) (finished_order b).
Definition set_finished f o (b : Mailbox) : Mailbox :=
  mkMailbox (instance b) (limits b) (sequence b) (messages b) (receipts b) (audit_failed b)
    (auxiliary_events b) (logged b) (raid_audit_failed b) (warned b) (operations b) f o.

Definition new (instance : string) (limits : Limits) : res Fault Mailbox :=
  if negb (strlen instance =? 32)%N || negb (forallb is_ascii_hexdigit (bytes instance))
  then Err (-32602, "invalid daemon instance")%Z
  else Ok (mkMailbox instance limits 0 [] ∅ false 0 ∅ false ∅ ∅ ∅ []).

(** ** Reading *)
Definition is_host (actor : string) : bool := string_eqb actor "host".

Definition find_message (f : Message → bool) (b : Mailbox) : option Message :=
  List.find f (messages b).
Definition get_message (b : Mailbox) (actor id_ : string) : res Fault Message :=
  res_ok_or (find_message (λ m, string_eqb (id m) id_ &&
    (is_host actor || string_eqb (sender m) actor || string_eqb (recipient m) actor)) b) absent.

Definition is_queued (m : Message) : bool := bool_decide (state m = Queued).
Definition is_claimed (m : Message) : bool := bool_decide (state m = Claimed).
Definition is_unresolved (m : Message) : bool := unresolved (state m).

(** A fetch and a completion for a queued item, a completion for a claimed
    one. *)
Definition reserve (m : Message) : N := if is_queued m then 2 else 1.
Definition reserved_for (l : list Message) : N := foldr (λ m n, (reserve m + n)%N) 0%N
  (filter is_unresolved l).
Definition reserved_bytes (b : Mailbox) : N := (reserved_for (messages b) * RESERVED)%N.

Definition health (b : Mailbox) : Health := mkHealth (audit_failed b) (raid_audit_failed b).

(** Queued messages per recipient; recipients with none are absent. *)
Definition queued (b : Mailbox) : gmap string N :=
  foldl (λ counts m, <[recipient m := (default 0 (counts !! recipient m) + 1)%N]> counts) ∅
    (filter is_queued (messages b)).

Definition status (b : Mailbox) (actor : string) : Value :=
  let inbox := filter (λ m, recipient m = actor) (messages b) in
  json_object [
    ("queued", json_u64 (lenN (filter is_queued inbox)));
    ("claim", json_opt (λ m, String_ (id m)) (List.find is_claimed inbox));
    ("head", json_opt (λ m, Array [String_ (id m); json_u64 (claim_generation m)])
       (List.find is_unresolved inbox));
    ("revision", json_u64 (sequence b));
    ("audit_failed", Bool (audit_failed b));
    ("raid_audit_failed", Bool (raid_audit_failed b));
    ("operations", Array (outstanding_value <$>
       filter (λ o, out_session o = actor) (values (operations b))))].

(** ** Routing *)
Definition live (directory : Directory) (id_ : string) : res Fault string :=
  if is_host id_ || match directory !! id_ with Some s => running s | None => false end
  then Ok id_ else Err absent.
Definition is_err {E A} (r : res E A) : bool := match r with Ok _ => false | _ => true end.

(** The recipient, by ID or agent name, and the raid that authorized it. *)
Definition allowed (raids : Logged) (actor : string) (s : Session) : bool :=
  running s && negb (string_eqb (session_id s) actor) &&
  (is_host actor || bool_decide (is_Some (shared_raid raids actor (session_id s)))).
Definition names (target : string) (s : Session) : bool :=
  string_eqb (session_id s) target || string_eqb (agent_name s) target.
Definition resolve (directory : Directory) (raids : Logged) (actor target : string) :
    res Fault (string * option RaidView) :=
  match filter (names target) (filter (allowed raids actor) (values directory)) with
  | [] => Err absent
  | [first] =>
      Ok (session_id first,
          if is_host actor then None else shared_raid raids actor (session_id first))
  | _ => Err (-32009, "ambiguous recipient; use its ID")%Z
  end.

Definition display_name (directory : Directory) (id_ : string) : string :=
  match directory !! id_ with Some s => agent_name s | None => id_ end.

Definition new_message (b : Mailbox) (sender_ recipient_ body_ conversation_ : string)
    (in_reply_to_ : option string) (directory : Directory) (sequence_ now : N) : Message :=
  mkMessage (instance b +:+ "-m" +:+ show sequence_) conversation_ sender_ recipient_
    (display_name directory sender_) (display_name directory recipient_) in_reply_to_ body_
    sequence_ now Queued 0 None None None.

Definition claim (b : Mailbox) (actor id_ : string) (generation : N) : res Fault Message :=
  message ← get_message b actor id_;
  if negb (string_eqb (recipient message) actor) then Err absent
  else if negb (is_claimed message) || negb (claim_generation message =? generation)%N
  then Err conflict
  else Ok message.

(** ** Transitions *)
Definition prepare_send (b : Mailbox) (actor : string) (p : Send) (directory : Directory)
    (seq now : N) : res Fault Change :=
  '(recipient_, raid_) ← resolve directory (logged b) actor (to p);
  _ ← match raid_ with
      | Some view =>
          if view_paused view then Err (paused_fault (view_name view))
          else if raid_audit_failed b then Err raid_unrecorded else Ok tt
      | None => Ok tt
      end;
  conversation_ ← match conversation p with
    | Some c =>
        if existsb (λ m, string_eqb (msg_conversation m) c &&
             (string_eqb (sender m) actor || string_eqb (recipient m) actor)) (messages b)
        then Ok c else Err absent
    | None => Ok (instance b +:+ "-c" +:+ show seq)
    end;
  let message := new_message b actor recipient_ (send_body p) conversation_ None
                   directory seq now in
  Ok (mkChange [message] (message_value message) "message.accepted"
    (json_object [("message", message_value message);
       ("route", String_ (match raid_ with Some _ => "raid" | None => "host" end));
       ("raid", json_opt_str (view_id <$> raid_))])).

Definition current_item (b : Mailbox) (actor : string) : option Message :=
  match find_message (λ m, string_eqb (recipient m) actor && is_claimed m) b with
  | Some m => Some m
  | None => find_message (λ m, string_eqb (recipient m) actor && is_queued m) b
  end.

Definition prepare_next (b : Mailbox) (actor : string) : Change :=
  match current_item b actor with
  | Some current =>
      let message := set_state Claimed current in
      let message := if (claim_generation message =? 0)%N
                     then set_claim_generation 1 message else message in
      mkChange [message]
        (json_object [("message", message_value message);
           ("claim_generation", json_u64 (claim_generation message))])
        "message.claimed"
        (json_object [("message", String_ (id message));
           ("claim_generation", json_u64 (claim_generation message))])
  | None =>
      mkChange [] (json_object [("message", Null); ("claim_generation", Null)])
        "inbox.empty" (json_object [])
  end.

Definition no_reply : Fault :=
  (-32009, "notices take no reply; complete the claim with goblin inbox complete")%Z.
Definition not_in_raid (name : string) : Fault :=
  (-32009, "not allowed: '" +:+ name +:+ "' is no longer in this goblin's raid")%Z.

Definition prepare_reply (b : Mailbox) (actor : string) (p : Reply) (directory : Directory)
    (seq now : N) : res Fault Change :=
  original ← claim b actor (reply_message p) (reply_claim_generation p);
  if string_eqb (sender original) NOTICE_SENDER then Err no_reply else
  _ ← live directory (sender original);
  _ ← (if is_host actor || is_host (sender original) then Ok tt else
       match shared_raid (logged b) actor (sender original) with
       | None => Err (not_in_raid (sender_name original))
       | Some view =>
           if view_paused view then Err (paused_fault (view_name view))
           else if raid_audit_failed b then Err raid_unrecorded else Ok tt
       end);
  let reply := new_message b actor (sender original) (reply_body p)
                 (msg_conversation original) (Some (id original)) directory seq now in
  let original := set_state Completed original in
  Ok (mkChange [original; reply]
    (json_object [("reply", message_value reply); ("completed", String_ (id original))])
    "message.replied"
    (json_object [("message", message_value reply); ("completed", String_ (id original))])).

Definition prepare_complete (b : Mailbox) (actor : string) (p : Claim) : res Fault Change :=
  message ← claim b actor (claim_message p) (claim_claim_generation p);
  let message := set_state Completed message in
  Ok (mkChange [message]
    (json_object [("message", String_ (id message));
       ("state", String_ (state_name (state message)))])
    "message.completed"
    (json_object [("message", String_ (id message));
       ("claim_generation", json_u64 (claim_generation message))])).

Definition prepare_requeue (b : Mailbox) (actor : string) (p : Requeue)
    (directory : Directory) : res Fault Change :=
  message ← get_message b actor (requeue_message p);
  if negb (string_eqb (recipient message) actor) && negb (is_host actor) then Err absent
  else if negb (is_claimed message) ||
          negb (claim_generation message =? requeue_claim_generation p)%N then Err conflict
  else
  _ ← live directory (recipient message);
  let message := set_state Queued message in
  generation ← res_ok_or (u64_checked_add (claim_generation message) 1) capacity;
  let message := set_claim_generation generation message in
  Ok (mkChange [message]
    (json_object [("message", String_ (id message));
       ("claim_generation", json_u64 (claim_generation message))])
    "message.requeued"
    (json_object [("message", String_ (id message));
       ("claim_generation", json_u64 (claim_generation message));
       ("reason", String_ (reason p))])).

Definition prepare (b : Mailbox) (actor : string) (command : Mutation)
    (directory : Directory) (seq now : N) : res Fault Change :=
  match command with
  | MSend p => prepare_send b actor p directory seq now
  | MNext _ => Ok (prepare_next b actor)
  | MReply p => prepare_reply b actor p directory seq now
  | MComplete p => prepare_complete b actor p
  | MRequeue p => prepare_requeue b actor p directory
  end.

(** The paused raid that was a refused send's or reply's only route. *)
Definition paused_route (b : Mailbox) (actor : string) (command : Mutation)
    (directory : Directory) : option string :=
  view ← match command with
    | MSend p => r ← res_ok (resolve directory (logged b) actor (to p)); r.2
    | MReply p =>
        m ← res_ok (get_message b actor (reply_message p));
        shared_raid (logged b) actor (sender m)
    | _ => None
    end;
  if view_paused view then Some (view_id view) else None.

(** ** Capacity *)
Definition replaced (changes : list Message) (old : Message) : Message :=
  default old (List.find (λ m, string_eqb (id m) (id old)) changes).
Definition updated (old changes : list Message) : list Message :=
  (replaced changes <$> old) ++
  filter (λ m, negb (existsb (λ o, string_eqb (id o) (id m)) old)) changes.

Fixpoint count_unresolved (inbox : N) (l : list Message) (counts : gmap string N)
    (reserved : N) : res Fault N :=
  match l with
  | [] => Ok reserved
  | m :: l =>
      let count := (default 0 (counts !! recipient m) + 1)%N in
      if (inbox <? count)%N then Err capacity
      else count_unresolved inbox l (<[recipient m := count]> counts) (reserved + reserve m)
  end.

Definition check_capacity (b : Mailbox) (changes : list Message) : res Fault N :=
  let new := updated (messages b) changes in
  if (max_messages (limits b) <? lenN new)%N then Err capacity else
  reserved ← count_unresolved (max_inbox (limits b)) (filter is_unresolved new) ∅ 0;
  if (max_operations (limits b) <? N.of_nat (size (receipts b)) + 1 + reserved)%N
  then Err capacity else Ok reserved.

Fixpoint upsert (m : Message) (l : list Message) : list Message :=
  match l with
  | [] => [m]
  | x :: l => if string_eqb (id x) (id m) then m :: l else x :: upsert m l
  end.
Definition apply_messages (changes : list Message) (l : list Message) : list Message :=
  foldl (λ l m, upsert m l) l changes.
Definition apply (changes : list Message) (b : Mailbox) : Mailbox :=
  set_messages (apply_messages changes (messages b)) b.

(** ** Computations on the mailbox and its sink *)
Section worker.
Context {A : Type} `{Audit A}.
Abbreviation St := (Mailbox * A)%type.

Definition get_mailbox {E} : M St E Mailbox := λ s, (Ok s.1, s).
Definition update {E} (f : Mailbox → Mailbox) : M St E unit := λ s, (Ok tt, (f s.1, s.2)).

(** [audit.append(..)], its result as a value. *)
Definition try_append {E} (event : Event) (reserved : N) : M St E (option AuditError) := λ s,
  match append event reserved s.2 with
  | (Ok _, a) => (Ok None, (s.1, a))
  | (Err e, a) => (Ok (Some e), (s.1, a))
  | (Panic, a) => (Panic, (s.1, a))
  end.

(** [self.audit_error(error)]: the fault it stands for. *)
Definition audit_error {E} (e : AuditError) : M St E Fault :=
  match e with
  | Capacity => mret capacity
  | Unavailable => _ ← update (set_audit_failed true); mret audit_unavailable
  end.

Definition increment {E} : M St E unit :=
  update (λ b, set_sequence (u64_add (sequence b) 1) b).

(** The sessions an auxiliary event concerns: those of the message it names,
    or its actor. *)
Definition about (b : Mailbox) (actor : string) (data : Value) : list string :=
  match (m ← Json.as_str (value_index data "message");
         find_message (λ x, string_eqb (id x) m) b) with
  | Some m => [sender m; recipient m]
  | None => [actor]
  end.

Definition record (actor kind : string) (data : Value) (now : N) : M St Fault unit :=
  b ← get_mailbox;
  _ ← refuse (audit_failed b) audit_unavailable;
  _ ← refuse (AUXILIARY <=? auxiliary_events b)%N capacity;
  let event := mkEvent (instance b) (u64_add (sequence b) 1) now kind actor
                 (about b actor data) data in
  r ← try_append event (reserved_bytes b);
  match r with
  | Some e => f ← audit_error e; throw f
  | None =>
      _ ← increment;
      update (λ b, set_auxiliary_events (auxiliary_events b + 1) b)
  end.

Definition operation_event (e : Operations.Event) (data : Value) (counted : bool) (now : N) :
    M St Fault unit :=
  b ← get_mailbox;
  _ ← refuse (audit_failed b) audit_unavailable;
  _ ← refuse (counted && (AUXILIARY <=? auxiliary_events b)%N) capacity;
  let event := mkEvent (instance b) (u64_add (sequence b) 1) now (Operations.kind e)
                 (Operations.actor e) [Operations.session e] data in
  r ← try_append event (reserved_bytes b);
  match r with
  | Some x => f ← audit_error x; throw f
  | None =>
      _ ← increment;
      update (λ b, set_auxiliary_events (auxiliary_events b + if counted then 1 else 0) b)
  end.

(** *** Raid events *)
Definition prune_warned (c : Raid.Change) (b : Mailbox) : Mailbox :=
  match c with
  | LeftRaid raid session _ =>
      match warned b !! raid with
      | Some w => set_warned (<[raid := w ∖ {[session]}]> (warned b)) b
      | None => b
      end
  | Dissolved raid _ _ => set_warned (delete raid (warned b)) b
  | _ => b
  end.

Definition resumed_body (name owner : string) : string :=
  "Raid " +:+ name +:+ " has resumed with owner " +:+ owner +:+
  "; messages to its members are allowed again.".

(** The notice to one warned session. *)
Definition resumed_notice (b : Mailbox) (view : RaidView) (session : string)
    (directory : Directory) (now : N) : Message :=
  let owner := default "" (view_owner view) in
  let seq := u64_add (sequence b) 1 in
  set_raid (Some (mkRaidNotice (view_id view) (view_name view) "resumed" owner))
    (new_message b NOTICE_SENDER session
       (resumed_body (view_name view) (display_name directory owner))
       (instance b +:+ "-c" +:+ show seq) None directory seq now).

Definition log_capacity : string := "communications log capacity reached".
Definition mailbox_capacity : string := "mailbox capacity reached".

Definition notify_one (raid : string) (directory : Directory) (now : N) (session : string) :
    M St Fault unit :=
  b ← get_mailbox;
  match logged b !! session with
  | Some view =>
      if negb (string_eqb (view_id view) raid) then mret tt else
      if is_err (live directory session) || audit_failed b then mret tt else
      let notice := resumed_notice b view session directory now in
      let seq := u64_add (sequence b) 1 in
      undelivered ← match check_capacity b [notice] with
        | Ok reserved =>
            let event := mkEvent (instance b) seq now "raid.notice" NOTICE_SENDER [session]
              (json_object [("raid", String_ (view_id view)); ("notice", message_value notice)]) in
            r ← try_append event (reserved * RESERVED);
            match r with
            | None =>
                _ ← update (set_sequence seq);
                _ ← update (apply [notice]);
                mret None
            | Some Capacity => mret (Some log_capacity)
            | Some e => _ ← audit_error e; mret None
            end
        | _ => mret (Some mailbox_capacity)
        end;
      match undelivered with
      | Some reason =>
          ignore (record session "raid.notice"
            (json_object [("raid", String_ (view_id view)); ("notice", Null);
               ("undelivered", String_ reason)]) now)
      | None => mret tt
      end
  | None => mret tt
  end.

Definition notify_resumed (raid : string) (directory : Directory) (now : N) :
    M St Fault unit :=
  b ← get_mailbox;
  match warned b !! raid with
  | None => mret tt
  | Some w =>
      _ ← update (λ b, set_warned (delete raid (warned b)) b);
      for_each (notify_one raid directory now) (set_entries w)
  end.

(** Append one raid event; whether it was recorded. *)
Definition append_raid (e : Raid.Event) (now : N) : M St Fault bool :=
  b ← get_mailbox;
  let event := mkEvent (instance b) (u64_add (sequence b) 1) now (Raid.kind e)
                 (Raid.actor e) (Raid.sessions e) (Raid.data e) in
  r ← try_append event (reserved_bytes b);
  match r with
  | None => _ ← increment; mret true
  | Some Capacity => _ ← update (set_raid_audit_failed true); mret false
  | Some Unavailable => _ ← update (set_audit_failed true); mret false
  end.

Definition record_raid_event (directory : Directory) (now : N) (e : Raid.Event) :
    M St Fault unit :=
  b ← get_mailbox;
  if addition e && (audit_failed b || raid_audit_failed b) then mret tt else
  recorded ← (if audit_failed b then mret false else append_raid e now);
  _ ← (if (recorded : bool) || negb (addition e) then
         _ ← update (λ b, set_logged (apply_raid (logged b) (Raid.change e)) b);
         update (prune_warned (Raid.change e))
       else mret tt);
  match recorded, Raid.change e with
  | true, Owner raid _ _ _ => notify_resumed raid directory now
  | _, _ => mret tt
  end.

Definition record_raid (events : list Raid.Event) (directory : Directory) (now : N) :
    M St Fault unit :=
  for_each (record_raid_event directory now) events.

(** *** Operation events *)

(** [BTreeMap::pop_first]. *)
Definition pop_first {V} (m : gmap string V) : gmap string V :=
  match keys m with [] => m | k :: _ => delete k m end.

Definition record_requested (e : Operations.Event) (kind subject : string) (automatic : bool)
    (now : N) : M St Fault unit :=
  b ← get_mailbox;
  let request := Operations.request e in
  if bool_decide (request ∈ finished b) || bool_decide (is_Some (operations b !! request))
  then mret tt else
  _ ← ignore (operation_event e (Operations.data e) true now : M St Fault unit);
  update (λ b,
    let outstanding := if (OUTSTANDING <=? N.of_nat (size (operations b)))%N
                       then pop_first (operations b) else operations b in
    set_operations (<[request := mkOutstanding (Operations.session e) request kind subject
      (if automatic then "running" else "pending")]> outstanding) b).

Definition record_decided (e : Operations.Event) (approved : bool) (now : N) :
    M St Fault unit :=
  _ ← ignore (operation_event e (Operations.data e) true now : M St Fault unit);
  update (λ b, set_operations (alter (λ o, mkOutstanding (out_session o) (out_request o)
    (out_kind o) (out_subject o) (if approved then "running" else "pending"))
    (Operations.request e) (operations b)) b).

(** Remember a finished request, forgetting the oldest of [FINISHED]. *)
Definition remember_finished (request : string) (b : Mailbox) : Mailbox :=
  let '(f, o) := if (FINISHED <=? lenN (finished_order b))%N then
      match finished_order b with
      | oldest :: order => (finished b ∖ {[oldest]}, order)
      | [] => (finished b, [])
      end
    else (finished b, finished_order b) in
  set_finished ({[request]} ∪ f) (o ++ [request]) b.

Definition completion_notice (b : Mailbox) (e : Operations.Event)
    (kind subject status : string) (message : option string) (directory : Directory)
    (now : N) : Message :=
  let seq := u64_add (sequence b) 1 in
  set_operation (Some (mkOperation (Operations.request e) kind subject status message))
    (new_message b NOTICE_SENDER (Operations.session e)
       (Operations.notice (Operations.request e) kind subject status message)
       (instance b +:+ "-c" +:+ show seq) None directory seq now).

(** Deliver the notice, or say why it cannot be. *)
Definition deliver_completion (e : Operations.Event) (kind subject status : string)
    (message : option string) (notify : bool) (directory : Directory) (now : N) :
    M St Fault (option string) :=
  b ← get_mailbox;
  if negb notify then mret (Some "no agent integration") else
  if is_err (live directory (Operations.session e)) then mret (Some "recipient not running") else
  if audit_failed b then mret (Some "mailbox audit unavailable") else
  let notice := completion_notice b e kind subject status message directory now in
  match check_capacity b [notice] with
  | Ok reserved =>
      full ← expect (value_set (Operations.data e) "notice" (message_value notice));
      let event := mkEvent (instance b) (u64_add (sequence b) 1) now (Operations.kind e)
        (Operations.actor e) [Operations.session e] full in
      r ← try_append event (reserved * RESERVED);
      match r with
      | None => _ ← increment; _ ← update (apply [notice]); mret None
      | Some Capacity => mret (Some log_capacity)
      | Some x => _ ← audit_error x; mret None
      end
  | _ => mret (Some mailbox_capacity)
  end.

Definition record_completed (e : Operations.Event) (kind subject status : string)
    (message : option string) (notify : bool) (directory : Directory) (now : N) :
    M St Fault unit :=
  b ← get_mailbox;
  if bool_decide (Operations.request e ∈ finished b) then
    ignore (record (Operations.session e) "operation.duplicate"
      (json_object [("request", String_ (Operations.request e)); ("status", String_ status)]) now)
  else
  _ ← update (remember_finished (Operations.request e));
  _ ← update (λ b, set_operations (delete (Operations.request e) (operations b)) b);
  undelivered ← deliver_completion e kind subject status message notify directory now;
  match undelivered with
  | Some reason =>
      d ← expect (value_set (Operations.data e) "notice" Null);
      d ← expect (value_set d "undelivered" (String_ reason));
      ignore (operation_event e d false now)
  | None => mret tt
  end.

Definition record_operation (directory : Directory) (now : N) (e : Operations.Event) :
    M St Fault unit :=
  match Operations.change e with
  | Requested kind subject _ automatic => record_requested e kind subject automatic now
  | Decided approved => record_decided e approved now
  | Operations.Completed kind subject status message notify =>
      record_completed e kind subject status message notify directory now
  end.

Definition record_operations (events : list Operations.Event) (directory : Directory)
    (now : N) : M St Fault unit :=
  for_each (record_operation directory now) events.

(** *** Commands *)
Definition receipt_key (actor : string) (command : Mutation) : string * string * string :=
  (actor, method command, key command).

(** The message a retried result names. *)
Definition retried_message (result : Value) : Value :=
  let sub k := v ← value_get result k; value_get v "id" in
  match value_get result "id" with
  | Some v => v
  | None => match sub "reply" with
    | Some v => v
    | None => match sub "message" with
      | Some v => v
      | None => default Null (value_get result "completed")
      end
    end
  end.

Definition warn (actor : string) (raid : string) (b : Mailbox) : Mailbox :=
  set_warned (<[raid := {[actor]} ∪ default ∅ (warned b !! raid)]> (warned b)) b.

(** The whole of a command that has no receipt yet. *)
Definition execute_new (actor : string) (command : Mutation) (directory : Directory) (now : N) :
    M St Fault Value :=
  b ← get_mailbox;
  _ ← refuse (audit_failed b) audit_unavailable;
  _ ← lift (live directory actor);
  seq ← ok_or (u64_checked_add (sequence b) 1) capacity;
  change ← match prepare b actor command directory seq now with
    | Ok change => mret change
    | Err fault =>
        _ ← match paused_route b actor command directory with
            | Some raid => update (warn actor raid)
            | None => mret tt
            end;
        throw fault
    | Panic => lift Panic
    end;
  reserved ← lift (check_capacity b (ch_messages change));
  let event := mkEvent (instance b) seq now (ch_kind change) actor
    (concat ((λ m, [sender m; recipient m]) <$> ch_messages change))
    (json_object [("key", String_ (key command)); ("method", String_ (method command));
       ("change", ch_data change)]) in
  r ← try_append event (reserved * RESERVED);
  match r with
  | Some e => f ← audit_error e; throw f
  | None =>
      _ ← update (apply (ch_messages change));
      _ ← update (set_sequence seq);
      _ ← update (λ b, set_receipts (<[receipt_key actor command :=
            mkReceipt command (ch_result change)]> (receipts b)) b);
      mret (ch_result change)
  end.

Definition execute (actor : string) (command : Mutation) (directory : Directory) (now : N) :
    M St Fault Value :=
  _ ← lift (map_err (λ e, (-32602, e)%Z) (validate command));
  b ← get_mailbox;
  match receipts b !! receipt_key actor command with
  | Some receipt =>
      if bool_decide (receipt_command receipt = command) then
        let result := receipt_result receipt in
        _ ← ignore (record actor "operation.retried"
              (json_object [("key", String_ (key command)); ("method", String_ (method command));
                 ("message", retried_message result)]) now : M St Fault unit);
        mret result
      else throw conflict
  | None => execute_new actor command directory now
  end.

(** *** Lifecycle *)
Definition fail_message (m : Message) : Message :=
  set_failure (Some "recipient stopped") (set_state Failed m).

Definition stop_recipient (recipient_ : string) (now : N) : M St Fault unit :=
  b ← get_mailbox;
  match filter (λ m, recipient m = recipient_ ∧ is_unresolved m) (messages b) with
  | [] => mret tt
  | unresolved_messages =>
      _ ← refuse (audit_failed b) audit_unavailable;
      seq ← ok_or (u64_checked_add (sequence b) 1) capacity;
      let failed := fail_message <$> unresolved_messages in
      let event := mkEvent (instance b) seq now "recipient.stopped" "host"
        (concat ((λ m, [sender m; recipient m]) <$> failed))
        (json_object [("recipient", String_ recipient_); ("messages", json_strs (id <$> failed))]) in
      let reserved := reserved_for (filter (λ m, recipient m ≠ recipient_) (messages b)) in
      r ← try_append event (reserved * RESERVED);
      match r with
      | Some e => f ← audit_error e; throw f
      | None =>
          _ ← update (apply failed);
          update (set_sequence seq)
      end
  end.
End worker.
