(* ===== verification/MailboxSteps.v ===== *)
(** * The mailbox as a transition system

    [step] lists the atomic transitions of a mailbox and its sink. Every
    operation of the mailbox is a sequence of them, and never panics; the
    invariants of the next files are proved by induction on the steps. *)
From S2P Require Import Prelude Json Raid RaidLog Operations Messages Mailbox.

(** Everything but messages, receipts and the sequence may change freely;
    a failed log stays failed. *)
Record same_core (b b' : Mailbox) : Prop := {
  sc_instance : instance b' = instance b;
  sc_limits : limits b' = limits b;
  sc_sequence : sequence b' = sequence b;
  sc_messages : messages b' = messages b;
  sc_receipts : receipts b' = receipts b;
  sc_audit : audit_failed b = true → audit_failed b' = true }.

(** The event [b] may log next. *)
Record event_for (b : Mailbox) (e : Event) : Prop := {
  ef_instance : ev_instance e = instance b;
  ef_sequence : ev_sequence e = u64_add (sequence b) 1 }.

(** A message as [new_message] makes it. *)
Record fresh_message (b : Mailbox) (m : Message) : Prop := {
  fm_id : id m = instance b +:+ "-m" +:+ show (u64_add (sequence b) 1);
  fm_created : created_sequence m = u64_add (sequence b) 1;
  fm_state : state m = Queued;
  fm_generation : claim_generation m = 0%N;
  fm_failure : failure m = None }.

Definition claimed_item (m : Message) : Message :=
  let message := set_state Claimed m in
  if (claim_generation message =? 0)%N then set_claim_generation 1 message else message.
Definition requeued (m : Message) : Message :=
  set_claim_generation (claim_generation m + 1) (set_state Queued m).

(** [l] holds [m], the first of its ID, claimed. *)
Definition holds (b : Mailbox) (m : Message) : Prop :=
  ∃ p, find_message p b = Some m ∧ ∀ x, p x = true → id x = id m.
Definition holds_claim (b : Mailbox) (m : Message) : Prop := holds b m ∧ state m = Claimed.

Inductive changes (b : Mailbox) : list Message → Prop :=
| changes_nothing : changes b []
| changes_new m : fresh_message b m → changes b [m]
| changes_claim actor m :
    current_item b actor = Some m → changes b [claimed_item m]
| changes_reply m m' :
    holds_claim b m → fresh_message b m' → changes b [set_state Completed m; m']
| changes_complete m : holds_claim b m → changes b [set_state Completed m]
| changes_requeue m :
    holds_claim b m → (claim_generation m + 1 < u64_modulus)%N → changes b [requeued m].

Definition next_sequence (b : Mailbox) : Mailbox := set_sequence (u64_add (sequence b) 1) b.

Section steps.
Context {A : Type} `{Audit A}.
Abbreviation St := (Mailbox * A)%type.

Inductive step : St → St → Prop :=
| step_book b b' a : same_core b b' → step (b, a) (b', a)
| step_full b a e n a' :
    audit_failed b = false → append e n a = (Err Capacity, a') → step (b, a) (b, a')
| step_failed b a e n a' :
    audit_failed b = false → append e n a = (Err Unavailable, a') →
    step (b, a) (set_audit_failed true b, a')
| step_logged b a e n a' :
    audit_failed b = false → event_for b e → append e n a = (Ok tt, a') →
    step (b, a) (next_sequence b, a')
| step_notice b a e m reserved a' :
    audit_failed b = false → event_for b e → fresh_message b m →
    check_capacity b [m] = Ok reserved →
    append e (reserved * RESERVED) a = (Ok tt, a') →
    step (b, a) (next_sequence (apply [m] b), a')
| step_commit b a e l reserved k v a' :
    audit_failed b = false → event_for b e → changes b l →
    (sequence b + 1 < u64_modulus)%N →
    check_capacity b l = Ok reserved → receipts b !! k = None →
    append e (reserved * RESERVED) a = (Ok tt, a') →
    step (b, a)
      (set_receipts (<[k := v]> (receipts b)) (next_sequence (apply l b)), a')
| step_stop b a e r n a' :
    audit_failed b = false → event_for b e → (sequence b + 1 < u64_modulus)%N →
    append e n a = (Ok tt, a') →
    step (b, a) (next_sequence (apply (fail_message <$>
      filter (λ m, recipient m = r ∧ is_unresolved m) (messages b)) b), a').

Definition traced {E X} (m : M St E X) (s : St) : Prop :=
  outcome_of m s ≠ Panic ∧ rtc step s (state_of m s).

Lemma traced_ret {E X} (x : X) s : traced (mret x : M St E X) s.
Proof. done. Qed.
Lemma traced_throw {E X} (e : E) s : traced (throw e : M St E X) s.
Proof. done. Qed.
Lemma traced_lift {E X} (r : res E X) s : r ≠ Panic → traced (lift r : M St E X) s.
Proof. done. Qed.
Lemma traced_refuse {E} c (e : E) s : traced (refuse c e : M St E unit) s.
Proof. by destruct c. Qed.
Lemma traced_ok_or {E X} (o : option X) (e : E) s : traced (ok_or o e : M St E X) s.
Proof. by destruct o. Qed.
Lemma traced_bind {E X Y} (m : M St E X) (f : X → M St E Y) s :
  traced m s → (∀ x s', m s = (Ok x, s') → traced (f x) s') → traced (m ≫= f) s.
Proof.
  intros [Hp Hm] Hf. unfold traced, outcome_of, state_of, mbind, M_bind in *.
  destruct (m s) as [[x|e|] s'] eqn:Hms; simpl in *; try done.
  destruct (Hf x s' eq_refl) as [Hp' Hf']. split; [done|by etrans].
Qed.
Lemma traced_get {E X} (f : Mailbox → M St E X) s :
  traced (f s.1) s → traced (get_mailbox ≫= f) s.
Proof. done. Qed.
Lemma traced_guard {E X} c (e : E) (k : unit → M St E X) s :
  (c = false → traced (k tt) s) → traced (refuse c e ≫= k) s.
Proof. destruct c; intros Hk; [done|by apply Hk]. Qed.
Lemma traced_lift_bind {E X Y} (r : res E X) (k : X → M St E Y) s :
  r ≠ Panic → (∀ x, r = Ok x → traced (k x) s) → traced (lift r ≫= k) s.
Proof. destruct r; intros Hr Hk; [by apply Hk|done|done]. Qed.
Lemma traced_some {E X Y} (o : option X) (e : E) (k : X → M St E Y) s :
  (∀ x, o = Some x → traced (k x) s) → traced (ok_or o e ≫= k) s.
Proof. destruct o; intros Hk; [by apply Hk|done]. Qed.
Lemma traced_update {E} (f : Mailbox → Mailbox) s :
  same_core s.1 (f s.1) → traced (update f : M St E unit) s.
Proof. destruct s as [b a]. intros Hc. split; [done|]. by apply rtc_once, step_book. Qed.
Lemma traced_ignore {E E' X} (m : M St E X) s : traced m s → traced (ignore m : M St E' unit) s.
Proof.
  unfold traced, outcome_of, state_of, ignore. intros [Hp Hm].
  by destruct (m s) as [[x|e|] s'].
Qed.
Lemma traced_for_each {E X} (f : X → M St E unit) l s :
  (∀ x s, traced (f x) s) → traced (for_each f l) s.
Proof.
  intros Hf. revert s. induction l as [|x l IH]; intros s; [apply traced_ret|].
  simpl. by apply traced_bind.
Qed.
End steps.

Create HintDb traced.
#[export] Hint Resolve traced_ret traced_throw traced_refuse traced_ok_or traced_ignore
  traced_for_each : traced.

Lemma same_core_refl b : same_core b b.
Proof. done. Qed.
Lemma same_core_warned b w : same_core b (set_warned w b).
Proof. done. Qed.
Lemma same_core_operations b o : same_core b (set_operations o b).
Proof. done. Qed.
Lemma same_core_logged b l : same_core b (set_logged l b).
Proof. done. Qed.
Lemma same_core_audit b : same_core b (set_audit_failed true b).
Proof. done. Qed.
Lemma same_core_raid_audit b x : same_core b (set_raid_audit_failed x b).
Proof. done. Qed.
Lemma same_core_auxiliary b n : same_core b (set_auxiliary_events n b).
Proof. done. Qed.
Lemma same_core_finished b r : same_core b (remember_finished r b).
Proof. unfold remember_finished. by repeat case_match. Qed.
Lemma same_core_prune c b : same_core b (prune_warned c b).
Proof. destruct c; simpl; try done. by case_match. Qed.
#[export] Hint Resolve same_core_refl same_core_warned same_core_operations same_core_logged
  same_core_audit same_core_raid_audit same_core_auxiliary same_core_finished
  same_core_prune : traced.

(** ** Neither capacity checks nor preparation panics *)
Lemma count_unresolved_total i l c r : count_unresolved i l c r ≠ Panic.
Proof. revert c r. induction l; intros c r; simpl; [done|]. by case_match. Qed.
Lemma check_capacity_total b l : check_capacity b l ≠ Panic.
Proof.
  unfold check_capacity. case_match; [done|]. unfold mbind, res_bind.
  destruct (count_unresolved _ _ _ _) eqn:Hc; [by case_match|done|].
  by apply count_unresolved_total in Hc.
Qed.
Lemma get_message_total b a i : get_message b a i ≠ Panic.
Proof. unfold get_message. by destruct (find_message _ _). Qed.
Lemma find_holds b i q m :
  find_message (λ x, string_eqb (id x) i && q x) b = Some m → holds b m ∧ id m = i.
Proof.
  intros Hf. pose proof Hf as [_ Hm]%List.find_some. simpl in Hm.
  apply andb_true_iff in Hm as [Hid _]. unfold string_eqb in Hid.
  apply bool_decide_eq_true in Hid. split; [|done].
  eexists. split; [exact Hf|]. intros x Hx. simpl in Hx.
  apply andb_true_iff in Hx as [Hx _]. unfold string_eqb in Hx.
  apply bool_decide_eq_true in Hx. congruence.
Qed.
Lemma claim_cases b a i g :
  (∃ e, claim b a i g = Err e) ∨
  ∃ m, claim b a i g = Ok m ∧ holds_claim b m ∧ id m = i ∧ recipient m = a ∧
       claim_generation m = g.
Proof.
  unfold claim, get_message. destruct (find_message _ b) as [m|] eqn:Hf; simpl; [|eauto].
  unfold string_eqb, is_claimed. case_bool_decide; simpl; [|eauto].
  case_bool_decide; simpl; [|eauto].
  destruct (N.eqb_spec (claim_generation m) g); simpl; [|eauto].
  right. exists m. apply find_holds in Hf as [Hh Hid]. by split_and!.
Qed.

Lemma prepare_changes b actor command d seq now :
  seq = u64_add (sequence b) 1 →
  match prepare b actor command d seq now with
  | Ok c => changes b (ch_messages c)
  | Err _ => True
  | Panic => False
  end.
Proof.
  intros ->. destruct command as [p|p|p|p|p]; simpl.
  - unfold prepare_send, mbind, res_bind.
    destruct (resolve _ _ _ _) as [[r raid]|e|] eqn:Hr; [|done|].
    2: { unfold resolve in Hr. by repeat case_match. }
    destruct raid as [view|]; [destruct (view_paused view); [done|];
      destruct (raid_audit_failed b); [done|]|];
      destruct (conversation p); try (destruct (existsb _ _); [|done]);
      simpl; by apply changes_new.
  - unfold prepare_next. destruct (current_item b actor) as [m|] eqn:Hc.
    + by apply (changes_claim _ actor m).
    + apply changes_nothing.
  - unfold prepare_reply, mbind, res_bind.
    destruct (claim_cases b actor (reply_message p) (reply_claim_generation p))
      as [[e ->]|(m & -> & Hm & _)]; [done|].
    destruct (string_eqb (sender m) NOTICE_SENDER); [done|].
    unfold live. destruct (is_host (sender m) || _) eqn:Hl; simpl; [|done].
    destruct (is_host actor || is_host (sender m)); simpl; [by apply changes_reply|].
    destruct (shared_raid _ _ _) as [view|]; [|done].
    destruct (view_paused view); [done|]. destruct (raid_audit_failed b); [done|].
    by apply changes_reply.
  - unfold prepare_complete, mbind, res_bind.
    destruct (claim_cases b actor (claim_message p) (claim_claim_generation p))
      as [[e ->]|(m & -> & Hm & _)]; [done|]. by apply changes_complete.
  - unfold prepare_requeue, mbind, res_bind, get_message.
    destruct (find_message _ b) as [m|] eqn:Hf; simpl; [|done].
    destruct (negb (string_eqb (recipient m) actor) && negb (is_host actor)); [done|].
    unfold is_claimed. case_bool_decide as Hc; simpl; [|done].
    destruct (claim_generation m =? _)%N; simpl; [|done].
    unfold live. destruct (is_host (recipient m) || _); simpl; [|done].
    destruct (u64_checked_add _ _) as [g|] eqn:Hg; simpl; [|done].
    apply u64_checked_add_Some in Hg as [-> Hg].
    apply changes_requeue; [|done]. split; [|done]. by apply find_holds in Hf as [? _].
Qed.

(** ** Every operation is a sequence of steps *)
#[local] Set Default Proof Using "All".
Section trace.
Context {A : Type} `{AuditLaws A}.
Abbreviation St := (Mailbox * A)%type.

Lemma traced_append {E X} e n (k : option AuditError → M St E X) b a :
  audit_failed b = false →
  (∀ a', append e n a = (Err Capacity, a') → traced (k (Some Capacity)) (b, a')) →
  (∀ a', append e n a = (Err Unavailable, a') →
     outcome_of (k (Some Unavailable)) (b, a') ≠ Panic ∧
     rtc step (set_audit_failed true b, a') (state_of (k (Some Unavailable)) (b, a'))) →
  (∀ a', append e n a = (Ok tt, a') →
     outcome_of (k None) (b, a') ≠ Panic ∧ rtc step (b, a) (state_of (k None) (b, a'))) →
  traced (try_append e n ≫= k) (b, a).
Proof.
  intros Hb Hfull Herr Hok. pose proof (append_total e n a) as Ht.
  unfold traced, outcome_of, state_of, mbind, M_bind, try_append in *. simpl.
  destruct (append e n a) as [[[]|[]|] a'] eqn:Ha; simpl in *; [by apply Hok| | |done].
  - destruct (Hfull a' eq_refl) as [Hp Hs]. split; [done|].
    eapply rtc_l; [by eapply step_full|done].
  - destruct (Herr a' eq_refl) as [Hp Hs]. split; [done|].
    eapply rtc_l; [by eapply step_failed|done].
Qed.
(** The usual end of a refused write: its fault. *)
Lemma traced_append_fault {X} e n (k : option AuditError → M St Fault X) b a :
  audit_failed b = false → (∀ x, k (Some x) = (f ← audit_error x; throw f)) →
  (∀ a', append e n a = (Ok tt, a') →
     outcome_of (k None) (b, a') ≠ Panic ∧ rtc step (b, a) (state_of (k None) (b, a'))) →
  traced (try_append e n ≫= k) (b, a).
Proof.
  intros Hb Hk Hok. apply traced_append; [done| | |done]; intros a' _; by rewrite Hk.
Qed.

Lemma step_logged_book e n (b : Mailbox) (a a' : A) (s' : St) :
  append e n a = (Ok tt, a') → audit_failed b = false → event_for b e →
  same_core (next_sequence b) s'.1 → s'.2 = a' → rtc step (b, a) s'.
Proof.
  destruct s' as [b' ?]. simpl. intros Ha Hb He Hc ->. eapply rtc_l; [by eapply step_logged|]. by apply rtc_once, step_book.
Qed.

Lemma step_notice_run e m reserved (b : Mailbox) (a a' : A) (s' : St) :
  append e (reserved * RESERVED) a = (Ok tt, a') → check_capacity b [m] = Ok reserved →
  audit_failed b = false → event_for b e → fresh_message b m →
  s' = (next_sequence (apply [m] b), a') → rtc step (b, a) s'.
Proof. intros Ha Hc Hb He Hm ->. apply rtc_once. by eapply step_notice. Qed.

Lemma record_traced actor kind data now (s : St) : traced (record actor kind data now) s.
Proof.
  destruct s as [b a]. unfold record. apply traced_get. simpl.
  apply traced_guard. intros Hb.
  apply traced_guard. intros _.
  apply traced_append_fault; [done|done|].
  intros a' Ha. split; [done|]. by apply (step_logged_book _ _ _ _ _ _ Ha).
Qed.

Lemma operation_event_traced e data counted now (s : St) :
  traced (operation_event e data counted now) s.
Proof.
  destruct s as [b a]. unfold operation_event. apply traced_get. simpl.
  apply traced_guard. intros Hb.
  apply traced_guard. intros _.
  apply traced_append_fault; [done|done|].
  intros a' Ha. split; [done|]. by apply (step_logged_book _ _ _ _ _ _ Ha).
Qed.

Lemma notify_one_traced raid d now session (s : St) : traced (notify_one raid d now session) s.
Proof.
  destruct s as [b a]. unfold notify_one. apply traced_get. simpl.
  destruct (logged b !! session) as [view|]; [|done].
  destruct (negb (string_eqb (view_id view) raid)); [done|].
  destruct (is_err (live d session)); [done|].
  destruct (audit_failed b) eqn:Hb; [done|]. cbn [orb].
  apply traced_bind.
  - destruct (check_capacity b _) as [reserved|e|] eqn:Hc; [|done..].
    apply traced_append; [done|done|done|].
    intros a' Ha. split; [done|]. by apply (step_notice_run _ _ _ _ _ _ _ Ha Hc).
  - intros [reason|] s' _; [|done]. apply traced_ignore, record_traced.
Qed.
Lemma notify_resumed_traced raid d now (s : St) : traced (notify_resumed raid d now) s.
Proof.
  unfold notify_resumed. apply traced_get. case_match; [|done].
  apply traced_bind; [by apply traced_update|]. intros _ s' _.
  apply traced_for_each, notify_one_traced.
Qed.

Lemma record_raid_event_traced d now e (s : St) : traced (record_raid_event d now e) s.
Proof.
  destruct s as [b a]. unfold record_raid_event. apply traced_get. simpl.
  destruct (addition e && _); [done|]. apply traced_bind.
  - destruct (audit_failed b) eqn:Hb; [done|]. unfold append_raid. apply traced_get. simpl.
    apply traced_append; [done|intros a' _; apply traced_bind; [by apply traced_update|done]|done|].
    intros a' Ha. split; [done|]. by apply (step_logged_book _ _ _ _ _ _ Ha).
  - intros recorded s' _. apply traced_bind.
    + destruct (recorded || _); [|done].
      apply traced_bind; [by apply traced_update|]. intros _ s'' _.
      apply traced_update, same_core_prune.
    + intros _ s'' _. destruct recorded; [|done].
      destruct (Raid.change e); try done. apply notify_resumed_traced.
Qed.
Lemma record_raid_traced evs d now (s : St) : traced (record_raid evs d now) s.
Proof. apply traced_for_each, record_raid_event_traced. Qed.

Lemma deliver_completion_traced e kind subject status message notify d now (s : St) :
  Operations.change e = Operations.Completed kind subject status message notify →
  traced (deliver_completion e kind subject status message notify d now) s.
Proof.
  intros He. destruct s as [b a]. unfold deliver_completion. apply traced_get. simpl.
  destruct (negb notify); [done|]. destruct (is_err _); [done|].
  destruct (audit_failed b) eqn:Hb; [done|].
  destruct (check_capacity b _) as [reserved|x|] eqn:Hc; [|done..].
  unfold Operations.data. rewrite He. simpl.
  apply traced_append; [done|done|done|].
  intros a' Ha. split; [done|]. by apply (step_notice_run _ _ _ _ _ _ _ Ha Hc).
Qed.
Lemma record_operation_traced d now e (s : St) : traced (record_operation d now e) s.
Proof.
  destruct s as [b a]. unfold record_operation. destruct (Operations.change e) eqn:He.
  - unfold record_requested. apply traced_get. simpl. destruct (_ || _); [done|].
    apply traced_bind; [apply traced_ignore, operation_event_traced|].
    intros _ s' _. by apply traced_update.
  - unfold record_decided.
    apply traced_bind; [apply traced_ignore, operation_event_traced|].
    intros _ s' _. by apply traced_update.
  - unfold record_completed. apply traced_get. simpl.
    case_bool_decide; [apply traced_ignore, record_traced|].
    apply traced_bind; [apply traced_update, same_core_finished|]. intros _ s1 _.
    apply traced_bind; [by apply traced_update|]. intros _ s2 _.
    apply traced_bind; [by apply deliver_completion_traced|].
    intros [reason|] s3 _; [|done].
    unfold Operations.data. rewrite He. simpl.
    apply traced_ignore, operation_event_traced.
Qed.
Lemma record_operations_traced evs d now (s : St) : traced (record_operations evs d now) s.
Proof. apply traced_for_each, record_operation_traced. Qed.

Lemma execute_new_traced actor command d now b (a : A) :
  receipts b !! receipt_key actor command = None →
  traced (execute_new actor command d now) (b, a).
Proof.
  intros Hk. unfold execute_new. apply traced_get. simpl.
  apply traced_guard. intros Hb.
  apply traced_lift_bind; [unfold live; by case_match|]. intros _ _.
  apply traced_some. intros seq Hseq.
  apply u64_checked_add_Some in Hseq as [-> Hseq].
  pose proof (prepare_changes b actor command d (sequence b + 1) now) as Hc.
  rewrite u64_add_small in Hc by done. specialize (Hc eq_refl).
  apply traced_bind.
  { destruct (prepare _ _ _ _ _ _); [done| |done].
    apply traced_bind; [|done]. case_match; [by apply traced_update|done]. }
  intros change s' Hs. destruct (prepare _ _ _ _ _ _) as [ch|x|]; [|by repeat case_match|done].
  injection Hs as -> <-.
  apply traced_lift_bind; [apply check_capacity_total|]. intros reserved Hr.
  apply traced_append_fault; [done|done|].
  intros a' Ha. split; [done|]. simpl. unfold state_of. simpl.
  rewrite <-(u64_add_small (sequence b) 1) by done.
  apply rtc_once. eapply (step_commit b a _ (ch_messages change)); [done| |done..|exact Ha].
  split; [done|]. simpl. by rewrite u64_add_small.
Qed.
Lemma execute_traced actor command d now (s : St) : traced (execute actor command d now) s.
Proof.
  destruct s as [b a]. unfold execute. apply traced_lift_bind.
  - unfold validate, and_then, validate_claim, validate_body.
    by repeat case_match.
  - intros _ _. apply traced_get. simpl.
    destruct (receipts b !! _) as [r|] eqn:Hr; [|by apply execute_new_traced].
    case_bool_decide; [|done].
    apply traced_bind; [apply traced_ignore, record_traced|done].
Qed.

Lemma stop_recipient_traced r now (s : St) : traced (stop_recipient r now) s.
Proof.
  destruct s as [b a]. unfold stop_recipient. apply traced_get. cbn [fst].
  destruct (filter _ (messages b)) as [|m l] eqn:Hl; [done|].
  apply traced_guard. intros Hb. apply traced_some. intros seq Hseq.
  apply u64_checked_add_Some in Hseq as [-> Hseq].
  apply traced_append_fault; [done|done|].
  intros a' Ha. split; [done|].
  assert (step (b, a) (next_sequence (apply (fail_message <$> m :: l) b), a')) as Hs.
  { rewrite <-Hl. eapply step_stop; [done| |done|exact Ha].
    split; [done|]. simpl. by rewrite u64_add_small. }
  unfold next_sequence in Hs. rewrite u64_add_small in Hs by done. by apply rtc_once.
Qed.
End trace.
