(* ===== verification/MailboxFacts.v ===== *)
(** * Facts of the mailbox's data

    Message lists with unique IDs, what applying changes to one does, and what
    a capacity check that passes guarantees. *)
From S2P Require Import Prelude Json Raid RaidLog Operations Messages Mailbox MailboxSteps.

Definition ids_of (l : list Message) : list string := id <$> l.

Lemma NoDup_ids_eq l m m' :
  NoDup (ids_of l) → m ∈ l → m' ∈ l → id m = id m' → m = m'.
Proof.
  induction l as [|x l IH]; [by intros _ ?%not_elem_of_nil|]. unfold ids_of.
  rewrite fmap_cons, NoDup_cons. intros [Hx Hl] Hm Hm' He.
  assert (∀ y, y ∈ l → id y ≠ id x) as Hy.
  { intros y Hy Hid. apply Hx. rewrite <-Hid. apply list_elem_of_fmap. eauto. }
  apply elem_of_cons in Hm as [->|Hm], Hm' as [->|Hm']; [done| | |by apply IH].
  - by destruct (Hy m' Hm').
  - by destruct (Hy m Hm).
Qed.

(** ** Applying changes *)
Lemma existsb_ids l m : existsb (λ o, string_eqb (id o) (id m)) l = bool_decide (id m ∈ ids_of l).
Proof.
  apply eq_bool_prop_intro. rewrite bool_decide_spec.
  unfold ids_of. rewrite list_elem_of_fmap. rewrite Is_true_true, existsb_exists.
  unfold string_eqb. split.
  - intros (x & Hx & He%bool_decide_eq_true). exists x. split; [done|by apply list_elem_of_In].
  - intros (x & Hx & Hin%list_elem_of_In). exists x. split; [done|by apply bool_decide_eq_true].
Qed.

Lemma upsert_new m l : id m ∉ ids_of l → upsert m l = l ++ [m].
Proof.
  induction l as [|x l IH]; simpl; [done|]. unfold string_eqb.
  rewrite not_elem_of_cons. intros [Hne Hl]. rewrite bool_decide_false by congruence.
  by rewrite IH.
Qed.
Lemma upsert_old m l : NoDup (ids_of l) → id m ∈ ids_of l →
  upsert m l = (λ x, if string_eqb (id x) (id m) then m else x) <$> l.
Proof.
  induction l as [|x l IH]; simpl; [by intros _ ?%not_elem_of_nil|].
  rewrite NoDup_cons, elem_of_cons. unfold string_eqb. intros [Hx Hl] Hin.
  case_bool_decide as Hid; simpl.
  - f_equal. rewrite <-(list_fmap_id l) at 1. apply list_fmap_ext. intros i y Hy. simpl.
    rewrite bool_decide_false; [done|]. intros He. apply Hx. rewrite Hid, <-He.
    apply list_elem_of_fmap. exists y. split; [done|]. by apply list_elem_of_lookup_2 in Hy.
  - destruct Hin as [?|Hin]; [congruence|]. unfold string_eqb in IH. by rewrite IH.
Qed.
Lemma upsert_ids m l : NoDup (ids_of l) →
  NoDup (ids_of (upsert m l)) ∧ ∀ i, i ∈ ids_of (upsert m l) ↔ i = id m ∨ i ∈ ids_of l.
Proof.
  intros Hl. destruct (decide (id m ∈ ids_of l)) as [Hin|Hin].
  - rewrite upsert_old by done.
    assert (ids_of ((λ x, if string_eqb (id x) (id m) then m else x) <$> l) = ids_of l) as ->.
    { unfold ids_of. rewrite <-list_fmap_compose. apply list_fmap_ext. intros i x _. simpl.
      unfold string_eqb. by case_bool_decide. }
    split; [done|]. intros i. split; [by right|by intros [->|?]].
  - rewrite upsert_new by done. unfold ids_of. rewrite fmap_app. simpl. split.
    + apply NoDup_app. split_and!; [done| |apply NoDup_singleton].
      intros x Hx ->%list_elem_of_singleton. done.
    + intros i. rewrite elem_of_app, list_elem_of_singleton. tauto.
Qed.

Lemma replaced_cons_ne c cs x : id x ≠ id c → replaced (c :: cs) x = replaced cs x.
Proof.
  intros Hne. unfold replaced. simpl. unfold string_eqb.
  by rewrite bool_decide_false by congruence.
Qed.
Lemma replaced_cons_eq c cs x : id x = id c → replaced (c :: cs) x = c.
Proof.
  intros He. unfold replaced. simpl. unfold string_eqb. by rewrite bool_decide_true by congruence.
Qed.
Lemma replaced_absent cs x : id x ∉ ids_of cs → replaced cs x = x.
Proof.
  induction cs as [|c cs IH]; [done|]. unfold ids_of. rewrite fmap_cons, not_elem_of_cons.
  intros [Hne Hin]. rewrite replaced_cons_ne by done. by apply IH.
Qed.

(** Applying changes gives the list the capacity check looked at. *)
Lemma apply_messages_updated cs l :
  NoDup (ids_of l) → NoDup (ids_of cs) → apply_messages cs l = updated l cs.
Proof.
  unfold apply_messages, updated. revert l. induction cs as [|c cs IH]; intros l Hl Hcs.
  { simpl. rewrite app_nil_r. rewrite <-(list_fmap_id l) at 1. by apply list_fmap_ext. }
  apply NoDup_cons in Hcs as [Hc Hcs]. cbn [foldl].
  destruct (upsert_ids c l Hl) as [Hnd Hids]. rewrite IH by done. clear IH.
  destruct (decide (id c ∈ ids_of l)) as [Hin|Hin].
  - rewrite upsert_old in * by done. f_equal.
    + rewrite <-list_fmap_compose. apply list_fmap_ext. intros i x _. simpl.
      unfold string_eqb. case_bool_decide as He.
      * rewrite replaced_cons_eq by done. by apply replaced_absent.
      * by rewrite replaced_cons_ne.
    + rewrite filter_cons, decide_False.
      * apply list_filter_iff. intros m. rewrite !existsb_ids.
        rewrite !Is_true_true, !negb_true_iff, !bool_decide_eq_false.
        rewrite Hids. split; [tauto|]. intros Hm [He|?]; [|done]. apply Hm. by rewrite He.
      * rewrite existsb_ids, bool_decide_true by done. by intros [].
  - rewrite upsert_new in * by done. rewrite fmap_app, <-app_assoc. simpl. f_equal.
    + apply list_fmap_ext. intros i x Hx. rewrite replaced_cons_ne; [done|].
      intros He. apply Hin. rewrite <-He. apply list_elem_of_fmap. exists x.
      split; [done|]. by apply list_elem_of_lookup_2 in Hx.
    + rewrite replaced_absent by done.
      rewrite filter_cons, decide_True;
        [|by rewrite existsb_ids, bool_decide_false].
      f_equal. apply filter_ext_in. intros m Hm.
      rewrite !existsb_ids, !Is_true_true, !negb_true_iff, !bool_decide_eq_false, Hids.
      split; [tauto|]. intros Hm' [He|?]; [|done]. apply Hc. rewrite <-He.
      apply list_elem_of_fmap. eauto.
Qed.

Lemma upsert_at l i m m' :
  NoDup (ids_of l) → l !! i = Some m → id m' = id m → upsert m' l = <[i := m']> l.
Proof.
  revert i. induction l as [|x l IH]; intros i; [done|]. unfold ids_of.
  rewrite fmap_cons, NoDup_cons. intros [Hx Hl] Hi Hid. simpl. unfold string_eqb.
  destruct i as [|i].
  - injection Hi as ->. by rewrite bool_decide_true.
  - rewrite bool_decide_false; [simpl; f_equal; by apply IH|].
    intros He. apply Hx. rewrite He, Hid. apply list_elem_of_fmap. exists m.
    split; [done|]. by apply (list_elem_of_lookup_2 _ i).
Qed.
Lemma ids_insert l i m m' : l !! i = Some m → id m' = id m → ids_of (<[i := m']> l) = ids_of l.
Proof.
  intros Hi Hid. unfold ids_of. rewrite list_fmap_insert, Hid. apply list_insert_id.
  by rewrite list_lookup_fmap, Hi.
Qed.
Lemma replaced_elem cs c x :
  NoDup (ids_of cs) → c ∈ cs → id c = id x → replaced cs x = c.
Proof.
  induction cs as [|y cs IH]; [by intros _ ?%not_elem_of_nil|]. unfold ids_of.
  rewrite fmap_cons, NoDup_cons. intros [Hy Hcs] Hc Hid.
  apply elem_of_cons in Hc as [->|Hc]; [by apply replaced_cons_eq|].
  rewrite replaced_cons_ne; [by apply IH|]. intros He. apply Hy. rewrite <-He, <-Hid.
  apply list_elem_of_fmap. eauto.
Qed.

(** Changing every message of a class at once. *)
Lemma apply_messages_filter (P : Message → Prop) `{∀ m, Decision (P m)} f l :
  NoDup (ids_of l) → (∀ m, id (f m) = id m) →
  apply_messages (f <$> filter P l) l = (λ m, if decide (P m) then f m else m) <$> l.
Proof.
  intros Hl Hf.
  assert (∀ k : list Message, ids_of (f <$> k) = ids_of k) as Hids.
  { intros k. unfold ids_of. rewrite <-list_fmap_compose. apply list_fmap_ext. intros ? m _. apply Hf. }
  assert (NoDup (ids_of (f <$> filter P l))) as Hnd.
  { rewrite Hids. unfold ids_of. apply (sublist_NoDup _ (id <$> l)); [done|].
    apply fmap_sublist, sublist_filter. }
  rewrite apply_messages_updated by done. unfold updated.
  rewrite (filter_nil_ext _ (f <$> filter P l)), app_nil_r.
  - apply list_fmap_ext. intros i m Hm. apply list_elem_of_lookup_2 in Hm.
    case_decide as HP.
    + apply replaced_elem; [done| |apply Hf]. apply list_elem_of_fmap. exists m.
      split; [done|]. by apply list_elem_of_filter.
    + apply replaced_absent. rewrite Hids. unfold ids_of. rewrite list_elem_of_fmap.
      intros (m' & He & Hm'). apply list_elem_of_filter in Hm' as [HP' Hm'].
      apply HP. by rewrite (NoDup_ids_eq l m m').
  - intros m (m' & -> & Hm')%list_elem_of_fmap. rewrite existsb_ids, bool_decide_true; [by intros []|].
    rewrite Hf. apply list_elem_of_fmap. exists m'. split; [done|].
    by apply list_elem_of_filter in Hm' as [_ ?].
Qed.

(** ** Capacity *)

(** The unresolved messages of one recipient. *)
Definition load (k : string) (l : list Message) : N :=
  lenN (filter (λ m, recipient m = k ∧ is_unresolved m) l).

Lemma load_cons k m l :
  load k (m :: l) =
  ((if decide (recipient m = k ∧ is_unresolved m) then 1 else 0) + load k l)%N.
Proof. unfold load, lenN. rewrite filter_cons. case_decide; simpl; lia. Qed.
Lemma reserved_for_cons m l :
  reserved_for (m :: l) = ((if is_unresolved m then reserve m else 0) + reserved_for l)%N.
Proof. unfold reserved_for. rewrite filter_cons. by destruct (is_unresolved m). Qed.

Lemma count_unresolved_ok inbox l counts acc :
  (∀ k, (default 0 (counts !! k) + load k l <= inbox)%N) →
  count_unresolved inbox (filter is_unresolved l) counts acc = Ok (acc + reserved_for l)%N.
Proof.
  revert counts acc. induction l as [|m l IH]; intros counts acc Hc.
  { simpl. f_equal. unfold reserved_for. simpl. lia. }
  rewrite reserved_for_cons, filter_cons. destruct (is_unresolved m) eqn:Hm; simpl.
  - pose proof (Hc (recipient m)) as Hr.
    rewrite load_cons, decide_True in Hr by (rewrite Hm; done).
    destruct (N.ltb_spec inbox (default 0%N (counts !! recipient m) + 1)); [lia|].
    rewrite IH.
    + f_equal. lia.
    + intros k. specialize (Hc k). rewrite load_cons in Hc.
      destruct (decide (recipient m = k)) as [<-|Hk].
      * rewrite lookup_insert_eq. simpl. rewrite decide_True in Hc by (by rewrite Hm). lia.
      * rewrite lookup_insert_ne by done. case_decide; lia.
  - rewrite IH; [f_equal; lia|]. intros k. specialize (Hc k). rewrite load_cons in Hc. lia.
Qed.
Lemma count_unresolved_bound inbox l counts acc r :
  (∀ k, (default 0 (counts !! k) <= inbox)%N) →
  count_unresolved inbox (filter is_unresolved l) counts acc = Ok r →
  ∀ k, (default 0 (counts !! k) + load k l <= inbox)%N.
Proof.
  revert counts acc. induction l as [|m l IH]; intros counts acc Hc Hr k.
  { specialize (Hc k). unfold load, lenN. simpl. lia. }
  rewrite filter_cons in Hr. rewrite load_cons. destruct (is_unresolved m) eqn:Hm; simpl in Hr.
  - destruct (N.ltb_spec inbox (default 0%N (counts !! recipient m) + 1)) as [|Hle]; [done|].
    eapply IH with (k := k) in Hr.
    + destruct (decide (recipient m = k)) as [<-|Hk].
      * rewrite lookup_insert_eq in Hr. simpl in Hr. case_decide; lia.
      * rewrite lookup_insert_ne in Hr by done. case_decide as Hd; [tauto|]. lia.
    + intros k'. destruct (decide (recipient m = k')) as [<-|Hk].
      * by rewrite lookup_insert_eq.
      * by rewrite lookup_insert_ne.
  - rewrite decide_False by (intros [_ []]). apply (IH _ _ Hc) with (k := k) in Hr. lia.
Qed.

(** The bounds a mailbox keeps. *)
Record fits (lim : Limits) (used : N) (l : list Message) : Prop := {
  fits_messages : (lenN l <= max_messages lim)%N;
  fits_inbox k : (load k l <= max_inbox lim)%N;
  fits_operations : (used + reserved_for l <= max_operations lim)%N }.
Definition receipts_used (b : Mailbox) : N := N.of_nat (size (receipts b)).

Lemma check_capacity_Ok b cs r :
  check_capacity b cs = Ok r ↔
  fits (limits b) (receipts_used b + 1) (updated (messages b) cs) ∧
  r = reserved_for (updated (messages b) cs).
Proof.
  unfold check_capacity, receipts_used. set (l := updated (messages b) cs).
  assert (∀ k : string, default 0%N ((∅ : gmap string N) !! k) = 0%N) as H0 by done.
  destruct (N.ltb_spec (max_messages (limits b)) (lenN l)) as [Hlt|Hle].
  { split; [done|]. intros [[? _ _] _]. lia. }
  unfold mbind, res_bind. split.
  - destruct (count_unresolved _ _ _ _) as [x|e|] eqn:Hc; [|done..].
    pose proof Hc as Hb.
    assert (∀ k, (load k l <= max_inbox (limits b))%N) as Hl.
    { intros k. eapply count_unresolved_bound with (k := k) in Hb; [|intros k'; rewrite H0; lia].
      by rewrite H0 in Hb. }
    rewrite count_unresolved_ok in Hc by (intros k; rewrite H0; apply Hl).
    injection Hc as <-. destruct (N.ltb_spec (max_operations (limits b))
      (N.of_nat (size (receipts b)) + 1 + (0 + reserved_for l))) as [|Hop]; [done|].
    intros [= <-]. split; [split; [done|done|lia]|lia].
  - intros [[_ Hl Hop] ->]. rewrite count_unresolved_ok by (intros k; rewrite H0; apply Hl).
    destruct (N.ltb_spec (max_operations (limits b))
      (N.of_nat (size (receipts b)) + 1 + (0 + reserved_for l))); [lia|]. f_equal.
Qed.
