(* ===== verification/MailboxInv.v ===== *)
(** * The invariant of the mailbox

    What every state the mailbox can reach satisfies: the messages' IDs and
    creation order, the claimed head of each inbox, the capacity bounds, and
    the log the sink accepted. Each step of [MailboxSteps] preserves it, and
    moves each message along its life. *)
From S2P Require Import Prelude Json Raid RaidLog Operations Messages Mailbox MailboxSteps.
From S2P Require Import MailboxFacts.

(** ** The life of a message *)
Inductive moves : Message → Message → Prop :=
| moves_claim m : state m = Queued → moves m (claimed_item m)
| moves_complete m : state m = Claimed → moves m (set_state Completed m)
| moves_requeue m :
    state m = Claimed → (claim_generation m + 1 < u64_modulus)%N → moves m (requeued m)
| moves_fail m : is_unresolved m → moves m (fail_message m).

(** Every message of [l] is still at its place in [l'], further in its life. *)
Definition evolves (l l' : list Message) : Prop :=
  ∃ l1 l2, l' = l1 ++ l2 ∧ Forall2 (rtc moves) l l1.

#[export] Instance evolves_refl : Reflexive evolves.
Proof. intros l. exists l, []. by rewrite app_nil_r. Qed.
#[export] Instance evolves_trans : Transitive evolves.
Proof.
  intros l l' l'' (l1 & l2 & -> & H1) (k1 & k2 & -> & H2).
  apply Forall2_app_inv_l in H2 as (j1 & j2 & H2 & _ & ->).
  exists j1, (j2 ++ k2). split; [by rewrite app_assoc|]. by etrans.
Qed.
Lemma evolves_app l l2 : evolves l (l ++ l2).
Proof. by exists l, l2. Qed.
Lemma evolves_Forall2 l l' : Forall2 (rtc moves) l l' → evolves l l'.
Proof. exists l', []. by rewrite app_nil_r. Qed.
Lemma evolves_insert l i m m' : l !! i = Some m → moves m m' → evolves l (<[i := m']> l).
Proof.
  intros Hi Hm. apply evolves_Forall2. rewrite <-(list_insert_id l i m Hi) at 1.
  apply Forall2_insert; [done|by apply rtc_once].
Qed.

Lemma moves_same m m' : moves m m' →
  (id m', msg_conversation m', sender m', recipient m', body m', created_sequence m') =
  (id m, msg_conversation m, sender m, recipient m, body m, created_sequence m) ∧
  is_unresolved m ∧ (claim_generation m <= claim_generation m')%N.
Proof.
  unfold is_unresolved. intros [x Hx|x Hx|x Hx ?|x Hx]; unfold claimed_item; simpl; rewrite ?Hx.
  - destruct (N.eqb_spec (claim_generation x) 0); simpl; split_and!; try done; lia.
  - split_and!; try done; lia.
  - split_and!; try done; lia.
  - split_and!; try done; lia.
Qed.

(** ** Well-formed message lists *)
Definition message_id (inst : string) (n : N) : string := inst +:+ "-m" +:+ show n.
Lemma message_id_inj inst n1 n2 : message_id inst n1 = message_id inst n2 → n1 = n2.
Proof. unfold message_id, show. intros He. by simplify_eq. Qed.

Record lw (inst : string) (n : N) (l : list Message) : Prop := {
  lw_id : Forall (λ m, id m = message_id inst (created_sequence m)) l;
  lw_sorted : StronglySorted N.lt (created_sequence <$> l);
  lw_bound : Forall (λ m, (created_sequence m <= n)%N) l;
  lw_claim : Forall (λ m, state m = Claimed → (0 < claim_generation m)%N) l;
  lw_failure : Forall (λ m, is_Some (failure m) ↔ state m = Failed) l;
  lw_head i j m m' : l !! i = Some m → state m = Claimed → (j < i)%nat →
    l !! j = Some m' → recipient m' = recipient m → is_unresolved m' = false }.

Lemma lw_nil inst : lw inst 0 [].
Proof. by split; try constructor. Qed.
Lemma lw_weaken inst n n' l : (n <= n')%N → lw inst n l → lw inst n' l.
Proof.
  intros Hn [? ? Hb ? ? Hh]. split; try done.
  eapply Forall_impl; [exact Hb|]. intros m Hm. simpl in *. lia.
Qed.
Lemma lw_ids inst n l : lw inst n l → NoDup (ids_of l).
Proof.
  intros [Hid Hs _ _ _ _]. induction l as [|m l IH]; [constructor|].
  apply Forall_cons in Hid as [Hm Hid]. apply StronglySorted_inv in Hs as [Hs Hall].
  unfold ids_of. rewrite fmap_cons. apply NoDup_cons. split; [|by apply IH].
  rewrite list_elem_of_fmap. intros (m' & He & Hm').
  rewrite Forall_forall in Hid. rewrite Hm, (Hid m') in He by done.
  apply message_id_inj in He. rewrite Forall_forall in Hall.
  assert (created_sequence m < created_sequence m')%N; [|lia].
  apply Hall, list_elem_of_fmap. eauto.
Qed.

(** A message in [l]'s place that needs no more of its inbox. *)
Record calm (m m' : Message) : Prop := {
  calm_id : id m' = id m;
  calm_recipient : recipient m' = recipient m;
  calm_created : created_sequence m' = created_sequence m;
  calm_unresolved : is_unresolved m' → is_unresolved m;
  calm_claimed : state m' = Claimed → m' = m;
  calm_failure : is_Some (failure m) ↔ state m = Failed → is_Some (failure m') ↔ state m' = Failed }.
#[export] Instance calm_refl : Reflexive calm.
Proof. done. Qed.
Lemma calm_complete m : state m = Claimed → calm m (set_state Completed m).
Proof.
  intros Hm. split; try done. simpl. intros Hf. by rewrite Hf, Hm.
Qed.
Lemma calm_requeue m : state m = Claimed → calm m (requeued m).
Proof.
  intros Hm. split; try done; simpl; [by unfold is_unresolved; rewrite Hm|].
  intros Hf. by rewrite Hf, Hm.
Qed.
Lemma calm_fail m : calm m (fail_message m).
Proof. by split. Qed.

Lemma lw_calm inst n l l' : Forall2 calm l l' → lw inst n l → lw inst n l'.
Proof.
  intros Hc [Hid Hs Hb Hcl Hf Hh].
  assert (created_sequence <$> l' = created_sequence <$> l) as Hcs.
  { clear -Hc. induction Hc as [|m m' l l' Hm Hc IH]; [done|].
    by rewrite !fmap_cons, IH, (calm_created _ _ Hm). }
  rewrite Forall_lookup in Hid, Hb, Hcl, Hf.
  split; [..|intros i j m m'];
    try (apply Forall_lookup; intros i m' Hm';
         destruct (Forall2_lookup_r _ _ _ _ _ Hc Hm') as (m & Hm & Hcalm)).
  - rewrite (calm_id _ _ Hcalm), (calm_created _ _ Hcalm). by apply (Hid i).
  - by rewrite Hcs.
  - rewrite (calm_created _ _ Hcalm). by apply (Hb i).
  - intros Hst. pose proof (calm_claimed _ _ Hcalm Hst) as ->. by apply (Hcl i).
  - apply Hcalm. by apply (Hf i).
  - intros Hm Hst Hlt Hm' Hr.
    destruct (Forall2_lookup_r _ _ _ _ _ Hc Hm) as (x & Hx & Hxm).
    destruct (Forall2_lookup_r _ _ _ _ _ Hc Hm') as (y & Hy & Hym).
    pose proof (calm_claimed _ _ Hxm Hst) as ->.
    destruct (is_unresolved m') eqn:Hu; [|done].
    assert (is_unresolved y = false) as Hyu.
    { apply (Hh i j x y Hx Hst Hlt Hy). rewrite <-(calm_recipient _ _ Hym). done. }
    apply Is_true_true in Hu. apply (calm_unresolved _ _ Hym) in Hu.
    rewrite Hyu in Hu. by destruct Hu.
Qed.
Lemma Forall2_calm_insert l i m m' :
  l !! i = Some m → calm m m' → Forall2 calm l (<[i := m']> l).
Proof.
  intros Hi Hm. rewrite <-(list_insert_id l i m Hi) at 1.
  by apply Forall2_insert.
Qed.

Lemma lw_new inst n l m :
  lw inst n l → id m = message_id inst (n + 1) → created_sequence m = (n + 1)%N →
  state m = Queued → failure m = None → lw inst (n + 1) (l ++ [m]).
Proof.
  intros [Hid Hs Hb Hcl Hf Hh] Hm Hc Hst Hfm. split.
  - apply Forall_app. split; [done|]. apply Forall_singleton. by rewrite Hm, Hc.
  - rewrite fmap_app. apply StronglySorted_app. split_and!; [|done|by repeat constructor].
    intros x y (z & -> & Hz)%list_elem_of_fmap ->%list_elem_of_singleton.
    rewrite Forall_forall in Hb. specialize (Hb z Hz). simpl in Hb. lia.
  - apply Forall_app. split; [|by apply Forall_singleton; rewrite Hc].
    eapply Forall_impl; [exact Hb|]. intros x Hx. simpl in *. lia.
  - apply Forall_app. split; [done|]. apply Forall_singleton. by rewrite Hst.
  - apply Forall_app. split; [done|]. apply Forall_singleton. rewrite Hst, Hfm.
    by split; [intros []|].
  - intros i j x y Hi Hx Hlt Hj Hr.
    apply lookup_app_Some in Hi as [Hi|[Hge Hi]].
    + apply lookup_app_Some in Hj as [Hj|[Hge _]]; [by apply (Hh i j x)|].
      apply lookup_lt_Some in Hi. lia.
    + apply list_elem_of_lookup_2, list_elem_of_singleton in Hi as ->. congruence.
Qed.

(** The head of an inbox: the first message that is not resolved. *)
Definition head_at (l : list Message) (i : nat) (m : Message) : Prop :=
  l !! i = Some m ∧ is_unresolved m ∧
  ∀ j m', (j < i)%nat → l !! j = Some m' → recipient m' = recipient m → is_unresolved m' = false.

Lemma lw_claim_head inst n l i m :
  lw inst n l → head_at l i m → lw inst n (<[i := claimed_item m]> l).
Proof.
  intros [Hid Hs Hb Hcl Hf Hh] (Hi & Hu & Hhead). unfold is_unresolved in Hu.
  set (m' := claimed_item m).
  assert (id m' = id m ∧ recipient m' = recipient m ∧ created_sequence m' = created_sequence m ∧
    state m' = Claimed ∧ (0 < claim_generation m')%N ∧ failure m' = failure m)
    as (Ei & Er & Ec & Es & Eg & Ef).
  { subst m'. unfold claimed_item. simpl. destruct (N.eqb_spec (claim_generation m) 0);
      simpl; split_and!; try done; lia. }
  assert (is_Some (failure m) ↔ state m = Failed) as Hfm
    by (rewrite Forall_lookup in Hf; by apply (Hf i)).
  assert (l !! i = Some m) as Hi' by done.
  split.
  - apply Forall_insert; [done|]. rewrite Ei, Ec. rewrite Forall_lookup in Hid. by apply (Hid i).
  - rewrite list_fmap_insert, Ec, list_insert_id; [done|]. by rewrite list_lookup_fmap, Hi.
  - apply Forall_insert; [done|]. rewrite Ec. rewrite Forall_lookup in Hb. by apply (Hb i).
  - apply Forall_insert; [done|]. done.
  - apply Forall_insert; [done|]. rewrite Ef, Es, Hfm. by destruct (state m).
  - intros a c x y Ha Hx Hlt Hc Hr.
    assert ((i < length l)%nat) as Hlen by by apply lookup_lt_Some in Hi.
    destruct (decide (a = i)) as [->|Hai].
    + rewrite list_lookup_insert_eq in Ha by done. injection Ha as <-.
      rewrite list_lookup_insert_ne in Hc by lia. apply (Hhead c); [done|done|congruence].
    + rewrite list_lookup_insert_ne in Ha by done. destruct (decide (c = i)) as [->|Hci].
      * rewrite list_lookup_insert_eq in Hc by done. injection Hc as <-.
        assert (is_unresolved m = false) as Hm by (apply (Hh a i x m); [done..|congruence]).
        unfold is_unresolved in Hm. by rewrite Hm in Hu.
      * rewrite list_lookup_insert_ne in Hc by done. by apply (Hh a c x).
Qed.

(** What the inbox serves next is its head. *)
Lemma current_item_head inst n b actor :
  lw inst n (messages b) →
  current_item b actor = find_message (λ m, string_eqb (recipient m) actor && is_unresolved m) b.
Proof.
  intros [_ _ _ _ _ Hh]. unfold current_item, find_message, is_claimed, is_queued, string_eqb.
  assert (∀ m p, (bool_decide (recipient m = actor) && p : bool) = true ↔
                 recipient m = actor ∧ p = true) as Hand.
  { intros m p. by rewrite andb_true_iff, bool_decide_eq_true. }
  destruct (List.find _ _) as [m|] eqn:Hc.
  - symmetry. apply find_Some_lookup in Hc as (i & Hi & Hm & _).
    apply Hand in Hm as [Hr Hs%bool_decide_eq_true].
    apply (find_lookup_Some _ _ i); [done| |].
    + apply Hand. split; [done|]. unfold is_unresolved. by rewrite Hs.
    + intros j y Hlt Hj. apply not_true_iff_false. rewrite Hand. intros [Hy Hu].
      rewrite (Hh i j m y) in Hu by congruence. done.
  - assert (∀ m, m ∈ messages b → recipient m = actor → state m ≠ Claimed) as Hno.
    { intros m Hm Hr Hs. apply (find_None_elem _ _ m) in Hc; [|done].
      cbn beta in Hc. by rewrite !bool_decide_true in Hc. }
    clear Hc Hh. induction (messages b) as [|m l IH]; [done|]. simpl.
    assert (bool_decide (state m = Queued) = is_unresolved m ∨ recipient m ≠ actor) as [->|Hne].
    { destruct (decide (recipient m = actor)) as [He|He]; [left|by right].
      assert (state m ≠ Claimed) by (apply Hno; [by left|done]).
      unfold is_unresolved. by destruct (state m). }
    + rewrite IH; [done|]. intros x Hx. apply Hno. by right.
    + rewrite !bool_decide_false by done. simpl. apply IH. intros x Hx. apply Hno. by right.
Qed.
Lemma current_item_at inst n b actor m :
  lw inst n (messages b) → current_item b actor = Some m →
  ∃ i, head_at (messages b) i m ∧ recipient m = actor.
Proof.
  intros Hl Hc. rewrite (current_item_head inst n) in Hc by done.
  apply find_Some_lookup in Hc as (i & Hi & Hm & Hj). unfold string_eqb in *.
  apply andb_true_iff in Hm as [Hr Hu]. apply bool_decide_eq_true in Hr.
  exists i. split; [|done]. split_and!; [done|by rewrite Hu|].
  intros j m' Hlt Hm' He. specialize (Hj j m' Hlt Hm').
  by rewrite bool_decide_true in Hj by congruence.
Qed.
Lemma holds_at b m : holds b m → ∃ i, messages b !! i = Some m.
Proof.
  intros (p & Hf & _). apply find_Some_lookup in Hf as (i & Hi & _). by exists i.
Qed.

(** ** Capacity along a message's life *)
Definition lighter (m m' : Message) : Prop :=
  recipient m' = recipient m ∧ (is_unresolved m' → is_unresolved m).
Lemma lighter_load k l l' : Forall2 lighter l l' → (load k l' <= load k l)%N.
Proof.
  induction 1 as [|m m' l l' [Hr Hu] _ IH]; [done|]. rewrite !load_cons, Hr.
  do 2 case_decide; lia || tauto.
Qed.
Lemma calm_load k l l' : Forall2 calm l l' → (load k l' <= load k l)%N.
Proof.
  intros Hl. apply lighter_load. eapply Forall2_impl; [exact Hl|].
  intros m m' []. by split.
Qed.
Definition weight (m : Message) : N := if is_unresolved m then reserve m else 0.
Lemma reserved_insert l i m m' : l !! i = Some m →
  (reserved_for (<[i := m']> l) + weight m = reserved_for l + weight m')%N.
Proof.
  unfold weight. revert i. induction l as [|x l IH]; intros [|i] Hi; [done|done| |].
  - injection Hi as ->. simpl. rewrite !reserved_for_cons. lia.
  - simpl. rewrite !reserved_for_cons. specialize (IH i Hi). lia.
Qed.
(** Moving one message to a state that needs less room always fits. *)
Lemma replace_fits b i m m' :
  NoDup (ids_of (messages b)) → fits (limits b) (receipts_used b) (messages b) →
  messages b !! i = Some m → id m' = id m → lighter m m' → (weight m' + 1 = weight m)%N →
  ∃ r, check_capacity b [m'] = Ok r.
Proof.
  intros Hnd [H1 H2 H3] Hi Hid Hl Hw.
  assert (updated (messages b) [m'] = <[i := m']> (messages b)) as Hu.
  { rewrite <-apply_messages_updated by (done || apply NoDup_singleton).
    by apply (upsert_at _ _ m). }
  eexists. apply check_capacity_Ok. rewrite Hu. split; [|done].
  pose proof (reserved_insert _ _ m m' Hi). split.
  - unfold lenN in *. by rewrite length_insert.
  - intros k. etrans; [|exact (H2 k)]. apply lighter_load.
    rewrite <-(list_insert_id (messages b) i m Hi) at 1. apply Forall2_insert; [|done].
    apply Forall_Forall2_diag, Forall_true. done.
  - lia.
Qed.
Lemma fits_weaken lim u u' l : (u' <= u)%N → fits lim u l → fits lim u' l.
Proof. intros Hu [? ? ?]. split; [done|done|lia]. Qed.
Lemma fail_reserved P `{∀ m, Decision (P m)} l :
  (reserved_for ((λ m, if decide (P m) then fail_message m else m) <$> l) <= reserved_for l)%N.
Proof.
  induction l as [|m l IH]; [done|]. rewrite fmap_cons, !reserved_for_cons.
  case_decide; simpl; case_match; lia.
Qed.

(** ** The invariant *)
Record wfb (b : Mailbox) : Prop := {
  wfb_list : lw (instance b) (sequence b) (messages b);
  wfb_fits : fits (limits b) (receipts_used b) (messages b) }.

(** The log a sink accepted is the mailbox's own, numbered from one. *)
Definition numbered (inst : string) (l : list Event) : Prop :=
  ∀ i e, l !! i = Some e → ev_instance e = inst ∧ ev_sequence e = (N.of_nat i + 1)%N.
Lemma numbered_snoc inst l e :
  numbered inst l → ev_instance e = inst → ev_sequence e = (lenN l + 1)%N →
  numbered inst (l ++ [e]).
Proof.
  intros Hl Hi Hs i x [Hx|[Hge Hx]]%lookup_app_Some; [by apply Hl|].
  destruct (i - length l)%nat eqn:Hd; [|done]. injection Hx as <-. split; [done|].
  rewrite Hs. unfold lenN. lia.
Qed.

(** ** Changes keep the invariant *)
Section changes.
Context (b : Mailbox) (Hlw : lw (instance b) (sequence b) (messages b)).
Context (Hseq : (sequence b + 1 < u64_modulus)%N).
#[local] Set Default Proof Using "All".
Abbreviation l := (messages b).
Abbreviation n := (sequence b).

(** What applying [cs] to the messages does. *)
Record changed (cs l' : list Message) : Prop := {
  changed_nodup : NoDup (ids_of cs);
  changed_list : apply_messages cs l = l';
  changed_lw : lw (instance b) (n + 1) l';
  changed_evolves : evolves l l' }.

Lemma fresh_id m : fresh_message b m →
  id m = message_id (instance b) (n + 1) ∧ created_sequence m = (n + 1)%N.
Proof. intros [Hi Hc _ _ _]. rewrite u64_add_small in * by done. done. Qed.
Lemma new_message_fresh sender_ recipient_ body_ c r d now :
  fresh_message b (new_message b sender_ recipient_ body_ c r d (n + 1) now).
Proof. split; try done; by rewrite u64_add_small. Qed.
Lemma fresh_not_in m k : lw (instance b) n k → fresh_message b m → id m ∉ ids_of k.
Proof.
  intros [Hid _ Hb _ _ _] [Hm _]%fresh_id (x & Hx & Hin)%list_elem_of_fmap.
  rewrite Forall_forall in Hid, Hb. rewrite Hm, (Hid x Hin) in Hx. apply message_id_inj in Hx.
  specialize (Hb x Hin). simpl in Hb. lia.
Qed.
Lemma upsert_fresh m k :
  lw (instance b) n k → fresh_message b m →
  upsert m k = k ++ [m] ∧ lw (instance b) (n + 1) (k ++ [m]).
Proof.
  intros Hk Hm. split; [by apply upsert_new, fresh_not_in|].
  pose proof (fresh_id m Hm) as [Hi Hc]. destruct Hm. by apply lw_new.
Qed.
Lemma claimed_item_moves i m :
  head_at l i m → claimed_item m = m ∨ moves m (claimed_item m).
Proof.
  intros (Hi & Hu & _). unfold is_unresolved in Hu.
  destruct (state m) eqn:Hs; try done; [right; by constructor|left].
  destruct Hlw as [_ _ _ Hcl _ _]. rewrite Forall_lookup in Hcl.
  specialize (Hcl i m Hi Hs). unfold claimed_item. simpl.
  destruct (N.eqb_spec (claim_generation m) 0); [lia|]. destruct m; simpl in *. by rewrite Hs.
Qed.
Lemma claimed_item_id m : id (claimed_item m) = id m.
Proof. unfold claimed_item. by case_match. Qed.

Lemma changes_changed cs : changes b cs → ∃ l', changed cs l'.
Proof.
  assert (∀ m, lw (instance b) n m → lw (instance b) (n + 1) m) as Hnext
    by (intros k; apply lw_weaken; lia).
  pose proof (lw_ids _ _ _ Hlw) as Hnd. intros Hc. destruct Hc as
    [|m Hm|actor m Hm|m m' [Hm Hs] Hm'|m [Hm Hs]|m [Hm Hs] Hg].
  - exists (messages b). split; [by constructor|done|by apply Hnext|done].
  - exists (messages b ++ [m]). destruct (upsert_fresh m (messages b)) as [Hu Hl]; [done..|].
    split; [by apply NoDup_singleton|done|done|apply evolves_app].
  - destruct (current_item_at _ _ _ _ _ Hlw Hm) as (i & Hi & _). pose proof Hi as [Hli _].
    exists (<[i := claimed_item m]> (messages b)).
    split; [by apply NoDup_singleton| | |].
    + simpl. apply (upsert_at _ _ m); [done|done|]. apply claimed_item_id.
    + by apply Hnext, lw_claim_head.
    + destruct (claimed_item_moves i m Hi) as [He|He]; [|by apply (evolves_insert _ _ m)].
      by rewrite He, list_insert_id.
  - destruct (holds_at _ _ Hm) as (i & Hi).
    assert (lw (instance b) n (<[i := set_state Completed m]> (messages b))) as Hlw'.
    { eapply lw_calm; [|done]. apply (Forall2_calm_insert _ _ m); [done|by apply calm_complete]. }
    destruct (upsert_fresh m' _ Hlw' Hm') as [Hu Hl].
    exists (<[i := set_state Completed m]> (messages b) ++ [m']). split.
    + unfold ids_of. simpl. apply NoDup_cons. split; [|apply NoDup_singleton].
      rewrite list_elem_of_singleton. intros He. apply (fresh_not_in m' _ Hlw Hm').
      apply list_elem_of_fmap. exists m. split; [done|]. by apply list_elem_of_lookup_2 in Hi.
    + etrans; [|exact Hu]. unfold apply_messages. simpl. f_equal. by apply (upsert_at _ _ m).
    + done.
    + etrans; [|apply evolves_app]. apply (evolves_insert _ _ m); [done|by constructor].
  - destruct (holds_at _ _ Hm) as (i & Hi).
    exists (<[i := set_state Completed m]> (messages b)).
    split; [by apply NoDup_singleton|by apply (upsert_at _ _ m)| |].
    + apply Hnext. eapply lw_calm; [|done].
      apply (Forall2_calm_insert _ _ m); [done|by apply calm_complete].
    + apply (evolves_insert _ _ m); [done|by constructor].
  - destruct (holds_at _ _ Hm) as (i & Hi).
    exists (<[i := requeued m]> (messages b)).
    split; [by apply NoDup_singleton|by apply (upsert_at _ _ m)| |].
    + apply Hnext. eapply lw_calm; [|done].
      apply (Forall2_calm_insert _ _ m); [done|by apply calm_requeue].
    + apply (evolves_insert _ _ m); [done|by constructor].
Qed.

Lemma stop_changed r :
  let P m := recipient m = r ∧ is_unresolved m in
  let l' := (λ m, if decide (P m) then fail_message m else m) <$> l in
  apply_messages (fail_message <$> filter P l) l = l' ∧
  Forall2 calm l l' ∧ evolves l l'.
Proof.
  simpl. split; [|split].
  - apply (apply_messages_filter (λ m, recipient m = r ∧ is_unresolved m)); [|done].
    by eapply lw_ids.
  - apply Forall2_fmap_r, Forall_Forall2_diag, Forall_true. intros m. simpl.
    case_decide; [apply calm_fail|done].
  - apply evolves_Forall2, Forall2_fmap_r, Forall_Forall2_diag, Forall_true. intros m. simpl.
    case_decide as Hd; [|done]. apply rtc_once, moves_fail, Hd.
Qed.
End changes.

Section invariant.
Context {A : Type} `{AuditLaws A}.
#[local] Set Default Proof Using "All".
Abbreviation St := (Mailbox * A)%type.

Record wf (s : St) : Prop := {
  wf_mailbox : wfb s.1;
  wf_sequence : sequence s.1 = lenN (accepted s.2);
  wf_log : numbered (instance s.1) (accepted s.2) }.

(** The log is shorter than its sequence counter reaches. *)
Definition short (s : St) : Prop := (lenN (accepted s.2) < u64_modulus)%N.

Record effect (s s' : St) : Prop := {
  ef_wf : wf s';
  ef_same : instance s'.1 = instance s.1 ∧ limits s'.1 = limits s.1;
  ef_log : accepted s.2 `prefix_of` accepted s'.2;
  ef_evolves : evolves (messages s.1) (messages s'.1);
  ef_receipts : receipts s.1 ⊆ receipts s'.1;
  ef_failed : audit_failed s.1 = true → audit_failed s'.1 = true ∧ accepted s'.2 = accepted s.2
                ∧ messages s'.1 = messages s.1 }.

Lemma wfb_same_core b b' : same_core b b' → wfb b → wfb b'.
Proof.
  intros [Hi Hl Hs Hm Hr _] [Hw Hf]. split.
  - by rewrite Hi, Hs, Hm.
  - unfold receipts_used. by rewrite Hl, Hm, Hr.
Qed.

Definition appended (a a' : A) (e : Event) : Prop := accepted a' = accepted a ++ [e].

(** A step that logs [e] and leaves [b'] with the next sequence number. *)
Lemma logged_effect b a b' a' e :
  wf (b, a) → short (b, a') → audit_failed b = false → event_for b e → appended a a' e →
  instance b' = instance b → limits b' = limits b → sequence b' = u64_add (sequence b) 1 →
  (sequence b' = (sequence b + 1)%N → wfb b') → evolves (messages b) (messages b') →
  receipts b ⊆ receipts b' → effect (b, a) (b', a').
Proof.
  intros [Hw Hseq Hlog] Hsh Hb [Hei Hes] Ha Hi Hl Hs Hw' He Hr. unfold short, appended in *.
  simpl in *.
  assert (lenN (accepted a') = (lenN (accepted a) + 1)%N) as Hlen
    by (rewrite Ha; unfold lenN; rewrite length_app; simpl; lia).
  rewrite u64_add_small in Hs, Hes by lia.
  split; simpl; try done.
  - split; simpl; [by apply Hw'|by rewrite Hs, Hlen, Hseq|].
    rewrite Ha, Hi. apply numbered_snoc; [done..|]. by rewrite Hes, Hseq.
  - rewrite Ha. by apply prefix_app_r.
  - by rewrite Hb.
Qed.

Lemma checked_fits b cs r l' :
  NoDup (ids_of (messages b)) → NoDup (ids_of cs) → apply_messages cs (messages b) = l' →
  check_capacity b cs = Ok r → fits (limits b) (receipts_used b + 1) l'.
Proof.
  intros Hl Hcs Ha [Hf _]%check_capacity_Ok. by rewrite <-apply_messages_updated, Ha in Hf by done.
Qed.

Lemma commit_effect b a e cs r b' a' :
  wf (b, a) → short (b, a') → audit_failed b = false → event_for b e →
  appended a a' e → changes b cs → check_capacity b cs = Ok r →
  instance b' = instance b → limits b' = limits b → sequence b' = u64_add (sequence b) 1 →
  messages b' = apply_messages cs (messages b) → receipts b ⊆ receipts b' →
  (receipts_used b' <= receipts_used b + 1)%N → (sequence b + 1 < u64_modulus)%N →
  effect (b, a) (b', a').
Proof.
  intros Hwf Hsh Hb He Ha Hc Hr Hi Hl Hs Hm Hrec Hused Hmod.
  pose proof Hwf as [[Hlw _] _ _]. simpl in *.
  destruct (changes_changed b Hlw Hmod cs Hc) as [l' [Hnd Hap Hlw' Hev]].
  apply (logged_effect _ _ _ _ e); try done; [|by rewrite Hm, Hap].
  intros Hs'. split; rewrite ?Hi, ?Hs', Hm, Hap; [done|]. rewrite Hl.
  eapply fits_weaken; [exact Hused|].
  eapply checked_fits; [by eapply lw_ids|exact Hnd|exact Hap|exact Hr].
Qed.

Lemma unlogged_effect b a b' a' :
  wf (b, a) → same_core b b' → accepted a' = accepted a → effect (b, a) (b', a').
Proof.
  intros [Hw Hs Hl] Hc Ha. pose proof Hc as [Ei El Es Em Er Ef]. split; simpl in *.
  - split; simpl; [by eapply wfb_same_core|congruence|by rewrite Ha, Ei].
  - done.
  - by rewrite Ha.
  - by rewrite Em.
  - by rewrite Er.
  - intros Hb. by rewrite Ha, Em, Ef.
Qed.

Lemma step_effect s s' : wf s → short s' → step s s' → effect s s'.
Proof.
  intros Hwf Hsh Hstep. destruct Hstep as
    [b b' a Hc|b a e n a' Hb Ha|b a e n a' Hb Ha|b a e n a' Hb He Ha|b a e m r a' Hb He Hm Hr Ha
    |b a e cs r k v a' Hb He Hc Hmod Hr Hk Ha|b a e r n a' Hb He Hmod Ha];
    try apply append_ok in Ha.
  - by apply unlogged_effect.
  - apply unlogged_effect; [done|done|]. by eapply append_err.
  - apply unlogged_effect; [done|done|]. by eapply append_err.
  - apply (logged_effect _ _ _ _ e); try done. pose proof Hwf as [[Hlw Hf] _ _].
    intros Hs. split; [|done]. rewrite Hs. eapply lw_weaken; [|exact Hlw]. simpl. lia.
  - apply (commit_effect _ _ e [m] r); try done; [by apply changes_new|unfold receipts_used; simpl; lia|].
    destruct Hwf as [_ Hs _], He as [_ Hes]. unfold short in Hsh. simpl in *.
    rewrite Ha in Hsh. unfold lenN in *. rewrite length_app in Hsh. simpl in *. lia.
  - apply (commit_effect _ _ e cs r); try done.
    + simpl. by apply insert_subseteq.
    + unfold receipts_used. simpl. rewrite map_size_insert_None by done. lia.
  - pose proof Hwf as [[Hlw Hf] _ _]. simpl in *.
    destruct (stop_changed b Hlw Hmod r) as (Hap & Hcalm & Hev).
    apply (logged_effect _ _ _ _ e); try done; simpl; [|by rewrite Hap].
    intros Hs. split; simpl; rewrite Hap.
    + rewrite Hs. eapply lw_weaken; [|by eapply lw_calm]. lia.
    + pose proof Hf as [H1 H2 H3]. split.
      * unfold lenN in *. by rewrite length_fmap.
      * intros k. pose proof (calm_load k _ _ Hcalm). specialize (H2 k). lia.
      * pose proof (fail_reserved (λ m, recipient m = r ∧ is_unresolved m) (messages b)).
        simpl in *. unfold receipts_used in *. simpl. lia.
Qed.

Lemma effect_trans s1 s2 s3 : effect s1 s2 → effect s2 s3 → effect s1 s3.
Proof.
  intros [_ [Hi Hl] Hp He Hr Hf] [Hw [Hi' Hl'] Hp' He' Hr' Hf']. split; try done.
  - split; congruence.
  - by etrans.
  - by etrans.
  - by etrans.
  - intros Hb. destruct (Hf Hb) as (Hb2 & Ha2 & Hm2), (Hf' Hb2) as (Hb3 & Ha3 & Hm3).
    split_and!; congruence.
Qed.
Lemma prefix_of_short s s' :
  accepted s.2 `prefix_of` accepted s'.2 → short s' → short s.
Proof. intros Hp%prefix_length. unfold short, lenN. lia. Qed.
Lemma step_prefix s s' : step s s' → accepted s.2 `prefix_of` accepted s'.2.
Proof.
  intros []; simpl; try match goal with Ha : append _ _ _ = (Ok tt, _) |- _ =>
    apply append_ok in Ha as ->; by apply prefix_app_r end; [done|..];
    match goal with Ha : append _ _ _ = _ |- _ => by apply append_err in Ha as -> end.
Qed.

(** Steps that log nothing publish nothing. *)
Lemma steps_prefix s s' : rtc step s s' → accepted s.2 `prefix_of` accepted s'.2.
Proof. induction 1 as [|x y z Hs _ IH]; [done|]. etrans; [by apply step_prefix|done]. Qed.
Lemma snoc_ne {X} (l : list X) e : l ++ [e] ≠ l.
Proof. intros Hl%(f_equal length). rewrite length_app in Hl. simpl in Hl. lia. Qed.
Lemma unlogged_steps s s' : rtc step s s' → accepted s'.2 = accepted s.2 →
  messages s'.1 = messages s.1 ∧ receipts s'.1 = receipts s.1 ∧ sequence s'.1 = sequence s.1.
Proof.
  induction 1 as [|x y z Hs Hr IH]; [done|]. intros Ha.
  assert (accepted y.2 = accepted x.2) as Hy.
  { apply steps_prefix in Hr. apply step_prefix in Hs. rewrite Ha in Hr. by apply (anti_symm prefix). }
  rewrite Ha, Hy in IH. destruct (IH eq_refl) as (-> & -> & ->).
  clear IH Hr Ha. destruct Hs; simpl in *; try done;
    try (match goal with Ha : append _ _ _ = (Ok tt, _) |- _ =>
      apply append_ok in Ha; rewrite Ha in Hy; by apply snoc_ne in Hy end).
  match goal with Hc : same_core _ _ |- _ => by destruct Hc as [_ _ -> -> -> _] end.
Qed.

(** An invariant of a sink that no write to it has failed yet. *)
Lemma sink_invariant (I : A → Prop) s s' :
  (∀ e n a a', I a → append e n a = (Ok tt, a') → I a') →
  (∀ e n a a', I a → append e n a = (Err Capacity, a') → I a') →
  rtc step s s' → (audit_failed s.1 = false → I s.2) → audit_failed s'.1 = false → I s'.2.
Proof.
  intros Hok Hfull. induction 1 as [|x y z Hs _ IH]; [done|]. intros Hx. apply IH. clear IH.
  destruct Hs as [b b' a Hc|b a e n a' Hb Ha|b a e n a' Hb Ha|b a e n a' Hb He Ha
    |b a e m r a' Hb He Hm Hr Ha|b a e cs r k v a' Hb He Hc Hmod Hr Hk Ha|b a e r n a' Hb He Hmod Ha];
    simpl in *; try (intros _; eapply Hok; [by apply Hx|done]).
  - intros Hb'. apply Hx. destruct (audit_failed b) eqn:Hb; [|done].
    by rewrite (sc_audit _ _ Hc Hb) in Hb'.
  - intros _. eapply Hfull; [by apply Hx|done].
  - done.
Qed.

(** Steps in sequence have the effect of one. *)
Lemma steps_effect s s' : rtc step s s' → wf s → short s' → effect s s'.
Proof.
  intros Hs. induction Hs as [s|s1 s2 s3 Hs Hr IH]; intros Hw Hsh.
  { by split. }
  assert (accepted s2.2 `prefix_of` accepted s3.2) as Hp.
  { by apply steps_prefix. }
  assert (effect s1 s2) as Hef
    by (apply step_effect; [done|by eapply prefix_of_short|done]).
  eapply effect_trans; [done|]. apply IH; [by destruct Hef|done].
Qed.
End invariant.

(** ** A life as a whole *)
Lemma rtc_moves_same m m' : rtc moves m m' →
  id m' = id m ∧ sender m' = sender m ∧ recipient m' = recipient m ∧ body m' = body m ∧
  created_sequence m' = created_sequence m ∧ (claim_generation m <= claim_generation m')%N ∧
  (is_unresolved m = false → m' = m).
Proof.
  induction 1 as [m|x y z Hxy _ IH]; [done|].
  apply moves_same in Hxy as (Heq & Hu & Hg).
  injection Heq as Hc _ Hr Hs Hb Hi. destruct IH as (-> & -> & -> & -> & -> & Hg' & _).
  split_and!; try done; [lia|]. intros Hf. by rewrite Hf in Hu.
Qed.
(** A claim of [m] at generation [g] that was requeued or resolved. *)
Definition spent (g : N) (m : Message) : Prop :=
  (g < claim_generation m)%N ∨ is_unresolved m = false.
Lemma spent_moves g m m' : rtc moves m m' → spent g m → spent g m'.
Proof.
  intros (_ & _ & _ & _ & _ & Hg & Hf)%rtc_moves_same [Hl|Hu]; [left; lia|right].
  by rewrite (Hf Hu).
Qed.
