(* ===== verification/MailboxExec.v ===== *)
(** * What executing a command does

    [execute] as cases: a retry of a recorded command, a refusal that leaves
    the messages alone, or a commit. *)
From S2P Require Import Prelude Json Raid RaidLog Operations Messages Mailbox MailboxSteps.
From S2P Require Import MailboxFacts MailboxInv.

Definition valid (command : Mutation) : Prop := validate command = Ok tt.
#[export] Instance valid_dec command : Decision (valid command).
Proof.
  unfold valid. destruct (validate command) as [[]|e|]; [by left|by right|by right].
Defined.

Section exec.
Context {A : Type} `{AuditLaws A}.
#[local] Set Default Proof Using "All".
Abbreviation St := (Mailbox * A)%type.

(** Only the log, its sequence and its failure may differ. *)
Record quiet (b b' : Mailbox) : Prop := {
  q_messages : messages b' = messages b;
  q_receipts : receipts b' = receipts b;
  q_logged : logged b' = logged b;
  q_operations : operations b' = operations b }.

Lemma quiet_refl b : quiet b b.
Proof. done. Qed.
Lemma record_quiet actor kind data now (s : St) :
  quiet s.1 (state_of (record actor kind data now) s).1.
Proof.
  destruct s as [b a]. unfold state_of, record, get_mailbox, mbind, M_bind, refuse, try_append.
  simpl. destruct (audit_failed b); [done|]. destruct (_ <=? _)%N; [done|]. simpl.
  destruct (append _ _ a) as [[[]|[]|] a']; simpl; done.
Qed.

(** The event of a command. *)
Definition command_event (b : Mailbox) (actor : string) (command : Mutation) (ch : Mailbox.Change)
    (now : N) : Mailbox.Event :=
  Mailbox.mkEvent (instance b) (sequence b + 1) now (ch_kind ch) actor
    (concat ((λ m, [sender m; recipient m]) <$> ch_messages ch))
    (json_object [("key", String_ (key command)); ("method", String_ (method command));
       ("change", ch_data ch)]).
Definition committed (b : Mailbox) (actor : string) (command : Mutation) (ch : Mailbox.Change) :
    Mailbox :=
  set_receipts (<[receipt_key actor command := mkReceipt command (ch_result ch)]> (receipts b))
    (set_sequence (sequence b + 1) (apply (ch_messages ch) b)).

Record commits (actor : string) (command : Mutation) (d : Directory) (now : N) (b : Mailbox)
    (a : A) (ch : Mailbox.Change) (r : N) (a' : A) : Prop := {
  co_valid : valid command;
  co_new : receipts b !! receipt_key actor command = None;
  co_open : audit_failed b = false;
  co_live : is_err (live d actor) = false;
  co_sequence : (sequence b + 1 < u64_modulus)%N;
  co_prepare : prepare b actor command d (sequence b + 1) now = Ok ch;
  co_capacity : check_capacity b (ch_messages ch) = Ok r;
  co_append : append (command_event b actor command ch now) (r * RESERVED) a = (Ok tt, a') }.

Lemma execute_commits actor command d now b a ch r a' :
  commits actor command d now b a ch r a' →
  execute actor command d now (b, a) = (Ok (ch_result ch), (committed b actor command ch, a')).
Proof.
  intros [Hv Hk Hb Hl Hseq Hp Hc Ha].
  unfold execute, mbind, M_bind, lift, get_mailbox. rewrite Hv. simpl. rewrite Hk.
  unfold execute_new, mbind, M_bind, lift, get_mailbox, refuse. simpl. rewrite Hb. simpl.
  destruct (live d actor); try done. simpl.
  assert (u64_checked_add (sequence b) 1 = Some (sequence b + 1)%N) as Hs
    by by apply u64_checked_add_Some.
  rewrite Hs. simpl. rewrite Hp. simpl. rewrite Hc. simpl.
  unfold try_append. simpl. unfold command_event in Ha. rewrite Ha. done.
Qed.

(** A command that returned was a retry or committed. *)
Lemma execute_Ok actor command d now b a v s' :
  execute actor command d now (b, a) = (Ok v, s') →
  (receipts b !! receipt_key actor command = Some (mkReceipt command v) ∧ valid command ∧
   quiet b s'.1) ∨
  ∃ ch r a', commits actor command d now b a ch r a' ∧ v = ch_result ch ∧
             s' = (committed b actor command ch, a').
Proof.
  unfold execute at 1. unfold mbind, M_bind, lift, get_mailbox.
  destruct (validate command) as [[]|e|] eqn:Hv; simpl; [|done..].
  destruct (receipts b !! receipt_key actor command) as [rc|] eqn:Hk.
  - case_bool_decide as Hc; [|done]. unfold ignore.
    pose proof (record_quiet actor "operation.retried" (json_object [("key", String_ (key command));
      ("method", String_ (method command)); ("message", retried_message (receipt_result rc))]) now (b, a)) as Hq.
    unfold state_of in Hq. destruct (record _ _ _ _ _) as [[[]|x|] s1]; simpl; [..|done];
      intros [= <- <-]; left; destruct rc; simpl in *; by subst.
  - unfold execute_new, mbind, M_bind, lift, get_mailbox, refuse. simpl.
    destruct (audit_failed b) eqn:Hb; [done|]. simpl.
    destruct (live d actor) as [h|x|] eqn:Hl; simpl; [|done..].
    destruct (u64_checked_add (sequence b) 1) as [q|] eqn:Hs; simpl; [|done].
    apply u64_checked_add_Some in Hs as [-> Hs].
    destruct (prepare b actor command d (sequence b + 1) now) as [ch|x|] eqn:Hp; simpl;
      [|by destruct (paused_route b actor command d)|done].
    destruct (check_capacity b (ch_messages ch)) as [r|x|] eqn:Hc; simpl; [|done..].
    unfold try_append. simpl.
    destruct (append _ _ a) as [[[]|[]|] a'] eqn:Ha; simpl; [|done..].
    intros [= <- <-]. right. exists ch, r, a'. split; [|done].
    split; try done. by rewrite Hl.
Qed.

(** A retry returns what the receipt holds; another command under the same
    key is refused. *)
Lemma execute_retry actor command d now b a v :
  valid command → receipts b !! receipt_key actor command = Some (mkReceipt command v) →
  ∃ s', execute actor command d now (b, a) = (Ok v, s') ∧ quiet b s'.1.
Proof.
  intros Hv Hk. unfold execute, mbind, M_bind, lift, get_mailbox. rewrite Hv. simpl. rewrite Hk.
  simpl. rewrite bool_decide_true by done. unfold ignore.
  pose proof (record_quiet actor "operation.retried" (json_object [("key", String_ (key command));
      ("method", String_ (method command)); ("message", retried_message v)]) now (b, a)) as Hq.
  destruct (record_traced actor "operation.retried" (json_object [("key", String_ (key command));
      ("method", String_ (method command)); ("message", retried_message v)]) now (b, a)) as [Hp _].
  unfold state_of, outcome_of in *.
  destruct (record _ _ _ _ _) as [[[]|x|] s1]; simpl in *; [eauto|eauto|done].
Qed.
Lemma execute_conflict actor command command' d now b a v :
  valid command' → receipts b !! receipt_key actor command' = Some (mkReceipt command v) →
  command ≠ command' → execute actor command' d now (b, a) = (Err conflict, (b, a)).
Proof.
  intros Hv Hk Hne. unfold execute, mbind, M_bind, lift, get_mailbox. rewrite Hv. simpl.
  rewrite Hk. simpl. by rewrite bool_decide_false.
Qed.

(** A command whose preparation fails is refused with that fault. *)
Lemma execute_refused actor command d now b a f :
  valid command → receipts b !! receipt_key actor command = None → audit_failed b = false →
  is_err (live d actor) = false → (sequence b + 1 < u64_modulus)%N →
  prepare b actor command d (sequence b + 1) now = Err f →
  ∃ b', execute actor command d now (b, a) = (Err f, (b', a)) ∧ quiet b b' ∧
        sequence b' = sequence b.
Proof.
  intros Hv Hk Hb Hl Hseq Hp.
  unfold execute, mbind, M_bind, lift, get_mailbox. rewrite Hv. simpl. rewrite Hk.
  unfold execute_new, mbind, M_bind, lift, get_mailbox, refuse. simpl. rewrite Hb. simpl.
  destruct (live d actor); try done. simpl.
  assert (u64_checked_add (sequence b) 1 = Some (sequence b + 1)%N) as Hs
    by by apply u64_checked_add_Some.
  rewrite Hs. simpl. rewrite Hp. simpl.
  destruct (paused_route b actor command d); simpl; eexists; split; done.
Qed.
End exec.

(** ** What a prepared command relied on *)

(** [actor] may write to [k]: the host may, and so may a member of a raid
    that [k] is in, unless that raid is paused or was not fully recorded. *)
Definition may_write (b : Mailbox) (actor k : string) : Prop :=
  is_host actor = true ∨
  ∃ view, shared_raid (logged b) actor k = Some view ∧ view_paused view = false ∧
          raid_audit_failed b = false.

Lemma live_Ok d i x : live d i = Ok x →
  x = i ∧ (is_host i = true ∨ ∃ s, d !! i = Some s ∧ running s = true).
Proof.
  unfold live. destruct (is_host i); simpl; [by intros [= <-]; auto|].
  destruct (d !! i) as [s|]; [|done]. destruct (running s) eqn:Hr; [|done].
  intros [= <-]. eauto.
Qed.

(** The one session [target] may mean for [actor]. *)
Lemma resolve_Ok d raids actor target k raid :
  resolve d raids actor target = Ok (k, raid) →
  ∃ s, s ∈ values d ∧ names target s = true ∧ session_id s = k ∧ running s = true ∧ k ≠ actor ∧
    (∀ s', s' ∈ values d → names target s' = true → allowed raids actor s' = true → s' = s) ∧
    (is_host actor = true ∧ raid = None ∨
     is_host actor = false ∧ ∃ v, raid = Some v ∧ shared_raid raids actor k = Some v).
Proof.
  unfold resolve. destruct (filter (names target) _) as [|s [|? ?]] eqn:Hf; [done| |done].
  assert (∀ s', s' ∈ [s] ↔ names target s' = true ∧ allowed raids actor s' = true ∧ s' ∈ values d) as Hs.
  { intros s'. rewrite <-Hf, !list_elem_of_filter, !Is_true_true. done. }
  intros [= <- <-]. destruct (proj1 (Hs s)) as (Hn & Ha & Hin); [by left|].
  exists s. unfold allowed in Ha. rewrite !andb_true_iff, negb_true_iff, orb_true_iff in Ha.
  unfold string_eqb in Ha. rewrite bool_decide_eq_false in Ha. destruct Ha as [[Hr Hne] Hsh].
  split_and!; try done.
  - intros s' Hin' Hn' Ha'. assert (s' ∈ [s]) as Hs' by by apply Hs.
    by apply list_elem_of_singleton in Hs'.
  - destruct (is_host actor) eqn:Hh; [by left|right]. split; [done|].
    destruct Hsh as [?|[v Hv]%bool_decide_eq_true]; [done|]. by exists v.
Qed.

Lemma prepare_send_Ok b actor p d seq now ch :
  prepare_send b actor p d seq now = Ok ch →
  ∃ s c, s ∈ values d ∧ names (to p) s = true ∧ running s = true ∧ session_id s ≠ actor ∧
    (∀ s', s' ∈ values d → names (to p) s' = true → allowed (logged b) actor s' = true → s' = s) ∧
    may_write b actor (session_id s) ∧
    ch_messages ch = [new_message b actor (session_id s) (send_body p) c None d seq now] ∧
    ch_result ch = message_value (new_message b actor (session_id s) (send_body p) c None d seq now).
Proof.
  unfold prepare_send, mbind, res_bind.
  destruct (resolve _ _ _ _) as [[k raid]|f|] eqn:Hr; [|done..].
  apply resolve_Ok in Hr as (s & Hin & Hn & <- & Hrun & Hne & Hu & Hraid).
  assert (match raid with
          | Some view => if view_paused view then Err (paused_fault (view_name view))
                         else if raid_audit_failed b then Err raid_unrecorded else Ok tt
          | None => Ok tt end = Ok tt → may_write b actor (session_id s)) as Hmay.
  { destruct Hraid as [[Hh ->]|(Hh & v & -> & Hv)]; [by left|].
    destruct (view_paused v) eqn:Hpa; [done|]. destruct (raid_audit_failed b) eqn:Hra; [done|].
    intros _. right. by exists v. }
  destruct (match raid with Some _ => _ | None => _ end) as [[]|f|]; [|done..].
  specialize (Hmay eq_refl). destruct (conversation p) as [c|].
  - destruct (existsb _ _); [|done]. intros [= <-]. exists s, c. done.
  - intros [= <-]. eexists s, _. split_and!; done.
Qed.

Lemma claim_Ok b a i g m : claim b a i g = Ok m →
  holds_claim b m ∧ id m = i ∧ recipient m = a ∧ claim_generation m = g.
Proof.
  intros Hc. destruct (claim_cases b a i g) as [[e He]|(m' & He & Hm')]; rewrite Hc in He; [done|].
  by injection He as ->.
Qed.

Lemma prepare_reply_Ok b actor p d seq now ch :
  prepare_reply b actor p d seq now = Ok ch →
  ∃ m, claim b actor (reply_message p) (reply_claim_generation p) = Ok m ∧
    sender m ≠ NOTICE_SENDER ∧ is_err (live d (sender m)) = false ∧
    (is_host (sender m) = true ∨ may_write b actor (sender m)) ∧
    ch_messages ch = [set_state Completed m;
      new_message b actor (sender m) (reply_body p) (msg_conversation m) (Some (id m)) d seq now].
Proof.
  unfold prepare_reply, mbind, res_bind.
  destruct (claim b actor _ _) as [m|f|] eqn:Hc; [|done..]. unfold string_eqb.
  case_bool_decide as Hs; [done|].
  destruct (live d (sender m)) eqn:Hl; [|done..]. intros Hch. exists m.
  assert (ch_messages ch = [set_state Completed m;
      new_message b actor (sender m) (reply_body p) (msg_conversation m) (Some (id m)) d seq now] ∧
      (is_host (sender m) = true ∨ may_write b actor (sender m))) as [Hm Hw].
  { destruct (is_host actor) eqn:Hh; simpl in Hch.
    { injection Hch as <-. split; [done|]. right. by left. }
    destruct (is_host (sender m)) eqn:Hh'; [injection Hch as <-; auto|].
    destruct (shared_raid _ _ _) as [v|] eqn:Hv; [|done].
    destruct (view_paused v) eqn:Hp; [done|]. destruct (raid_audit_failed b) eqn:Hr; [done|].
    injection Hch as <-. split; [done|]. right. right. by exists v. }
  by rewrite Hl.
Qed.

(** ** Spent claims *)

(** The claim a command acts on: a message ID and a claim generation. *)
Definition claim_of (command : Mutation) : option (string * N) :=
  match command with
  | MReply p => Some (reply_message p, reply_claim_generation p)
  | MComplete p => Some (claim_message p, claim_claim_generation p)
  | MRequeue p => Some (requeue_message p, requeue_claim_generation p)
  | MSend _ | MNext _ => None
  end.

Lemma prepare_Ok_claim inst n b actor command d seq now ch i g :
  lw inst n (messages b) →
  prepare b actor command d seq now = Ok ch → claim_of command = Some (i, g) →
  ∃ m, m ∈ messages b ∧ id m = i ∧ state m = Claimed ∧ claim_generation m = g ∧
       (recipient m = actor ∨ is_host actor = true).
Proof.
  assert (∀ m, holds_claim b m → m ∈ messages b ∧ state m = Claimed) as Hholds.
  { intros m [Hm Hs]. split; [|done]. destruct (holds_at _ _ Hm) as [j Hj].
    by apply list_elem_of_lookup_2 in Hj. }
  intros Hlw Hp Hc. destruct command as [p|p|p|p|p]; simpl in *; try done;
    injection Hc as <- <-.
  - apply prepare_reply_Ok in Hp as (m & Hm & _).
    apply claim_Ok in Hm as (Hm%Hholds & ? & ? & ?). exists m. destruct Hm. auto 10.
  - unfold prepare_complete, mbind, res_bind in Hp. destruct (claim _ _ _ _) as [m|f|] eqn:Hm; [|done..].
    apply claim_Ok in Hm as (Hm%Hholds & ? & ? & ?). exists m. destruct Hm. auto 10.
  - unfold prepare_requeue, mbind, res_bind, get_message in Hp.
    destruct (find_message _ b) as [m|] eqn:Hf; simpl in Hp; [|done].
    apply find_holds in Hf as [Hm Hid]. unfold is_claimed, string_eqb in Hp.
    case_bool_decide as Hr; simpl in Hp; [|destruct (is_host actor) eqn:Hh; simpl in Hp; [|done]];
      (case_bool_decide as Hs; simpl in Hp; [|done]);
      (destruct (N.eqb_spec (claim_generation m) (requeue_claim_generation p)); simpl in Hp; [|done]);
      destruct (Hholds m) as [? _]; [done| |done|]; exists m; auto 10.
Qed.

Lemma prepare_spent inst n b actor command d seq now i m g :
  lw inst n (messages b) → messages b !! i = Some m → spent g m →
  claim_of command = Some (id m, g) → seq = u64_add (sequence b) 1 →
  ∃ f, prepare b actor command d seq now = Err f.
Proof.
  intros Hlw Hi Hsp Hc Hseq. destruct (prepare b actor command d seq now) as [ch|f|] eqn:Hp; [|eauto|].
  - destruct (prepare_Ok_claim _ _ _ _ _ _ _ _ _ _ _ Hlw Hp Hc) as (m' & Hin & Hid & Hs & Hg & _).
    assert (m' = m) as ->.
    { apply (NoDup_ids_eq (messages b)); [by eapply lw_ids|done| |done].
      by apply list_elem_of_lookup_2 in Hi. }
    destruct Hsp as [Hlt|Hu]; [lia|]. unfold is_unresolved in Hu. by rewrite Hs in Hu.
  - pose proof (prepare_changes b actor command d seq now Hseq) as Ht. by rewrite Hp in Ht.
Qed.
