(* ===== verification/MailboxSpec.v ===== *)
(** * What the mailbox promises

    [reachable] is any sequence of calls from a new mailbox and an empty log,
    through any sink that satisfies [AuditLaws]. The theorems say what holds
    at every reachable state and across every call. *)
From S2P Require Import Prelude Json Raid RaidLog Operations Messages Mailbox MailboxSteps.
From S2P Require Import MailboxFacts MailboxInv.

(** The calls the messaging worker makes. *)
Inductive Call :=
| CallExecute (actor : string) (command : Mutation) (directory : Directory) (now : N)
| CallRaids (events : list Raid.Event) (directory : Directory) (now : N)
| CallOperations (events : list Operations.Event) (directory : Directory) (now : N)
| CallStop (recipient : string) (now : N)
| CallRecord (actor kind : string) (data : Value) (now : N).

Section calls.
Context {A : Type} `{AuditLaws A}.
#[local] Set Default Proof Using "All".
Abbreviation St := (Mailbox * A)%type.

Definition call (c : Call) : M St Fault unit :=
  match c with
  | CallExecute actor command directory now => ignore (execute actor command directory now)
  | CallRaids events directory now => record_raid events directory now
  | CallOperations events directory now => record_operations events directory now
  | CallStop recipient now => stop_recipient recipient now
  | CallRecord actor kind data now => record actor kind data now
  end.
Definition run (c : Call) (s : St) : St := state_of (call c) s.
Definition runs (cs : list Call) (s : St) : St := foldl (λ s c, run c s) s cs.

(** Any calls on a new mailbox and an empty log. *)
Definition reachable (inst : string) (lim : Limits) (s : St) : Prop :=
  ∃ b a cs, new inst lim = Ok b ∧ accepted a = [] ∧ s = runs cs (b, a).

Lemma call_traced c s : traced (call c) s.
Proof.
  destruct c; simpl; [apply traced_ignore, execute_traced|apply record_raid_traced
    |apply record_operations_traced|apply stop_recipient_traced|apply record_traced].
Qed.
Lemma runs_steps cs s : rtc step s (runs cs s).
Proof.
  revert s. induction cs as [|c cs IH]; intros s; [done|]. simpl.
  destruct (call_traced c s) as [_ Hc]. etrans; [exact Hc|apply IH].
Qed.
Lemma new_wf inst lim b a : new inst lim = Ok b → accepted a = [] →
  wf (b, a) ∧ instance b = inst ∧ limits b = lim.
Proof.
  unfold new. case_match; [done|]. intros [= <-] Ha. split_and!; [|done..].
  split; simpl.
  - split; [apply lw_nil|]. unfold receipts_used. simpl. rewrite map_size_empty.
    split; [apply N.le_0_l|intros k; apply N.le_0_l|apply N.le_0_l].
  - by rewrite Ha.
  - rewrite Ha. by intros i e.
Qed.
Lemma mailbox_wf inst lim s : reachable inst lim s → short s →
  wf s ∧ instance s.1 = inst ∧ limits s.1 = lim.
Proof.
  intros (b & a & cs & Hb & Ha & ->) Hs.
  destruct (new_wf _ _ _ _ Hb Ha) as (Hw & <- & <-).
  destruct (steps_effect _ _ (runs_steps cs (b, a)) Hw Hs) as [Hw' Hsame _ _ _ _]. done.
Qed.
Lemma reachable_runs inst lim s cs : reachable inst lim s → reachable inst lim (runs cs s).
Proof.
  intros (b & a & cs' & Hb & Ha & ->). exists b, a, (cs' ++ cs). split_and!; [done..|].
  unfold runs. by rewrite foldl_app.
Qed.
Lemma runs_short cs s : short (runs cs s) → short s.
Proof.
  intros Hs. eapply prefix_of_short; [|done]. apply steps_prefix, runs_steps.
Qed.
Lemma runs_effect inst lim s cs :
  reachable inst lim s → short (runs cs s) → effect s (runs cs s).
Proof.
  intros Hr Hs. apply steps_effect; [apply runs_steps| |done].
  by eapply mailbox_wf; [|eapply runs_short].
Qed.
End calls.

(** ** A sink for the examples: a log with room for so many events. *)
Record Sink := mkSink { sink_log : list Event; sink_room : N; sink_full : AuditError }.
#[export] Instance sink_audit : Audit Sink := {|
  append e _ := λ s, if (lenN (sink_log s) <? sink_room s)%N
                     then (Ok tt, mkSink (sink_log s ++ [e]) (sink_room s) (sink_full s))
                     else (Err (sink_full s), s);
  accepted := sink_log |}.
#[export] Instance sink_laws : AuditLaws Sink.
Proof.
  split.
  - intros e n a. unfold outcome_of. simpl. by case_match.
  - intros e n a a'. simpl. case_match; [|done]. by intros [= <-].
  - intros e n a x a'. simpl. case_match; [done|]. by intros [= _ <-].
Qed.

(** Two goblins in one raid, and a message between them. *)
Definition demo_instance : string := "0123456789abcdef0123456789abcdef".
Definition demo_directory : Directory :=
  {["a" := mkSession "a" "ann" None true; "b" := mkSession "b" "bob" None true]}.
Definition demo_raids : list Raid.Event :=
  [Raid.mkEvent "a" (Created "r1" "review" "a"); Raid.mkEvent "a" (Joined "r1" "b" None None)].
Definition demo_start (room : N) : Mailbox * Sink :=
  (mkMailbox demo_instance default_limits 0 [] ∅ false 0 ∅ false ∅ ∅ ∅ [],
   mkSink [] room Unavailable).
Definition demo_new : new demo_instance default_limits = Ok (demo_start 0).1 := eq_refl.
Definition demo_send (k text : string) : Mutation := MSend (mkSend k "bob" text None).
Definition demo_calls : list Call :=
  [CallRaids demo_raids demo_directory 1; CallExecute "a" (demo_send "k1" "hello") demo_directory 2;
   CallExecute "b" (MNext (mkNext "n1")) demo_directory 3].
Definition demo (room : N) : Mailbox * Sink := runs demo_calls (demo_start room).
Lemma demo_reachable room cs :
  reachable demo_instance default_limits (runs cs (demo room)).
Proof.
  apply reachable_runs. eexists _, _, demo_calls. split_and!; [reflexivity| |reflexivity]. done.
Qed.
Definition demo_reached room : reachable demo_instance default_limits (demo room) :=
  demo_reachable room [].

(** ** The communications log *)
Section log.
Context {A : Type} `{AuditLaws A}.
#[local] Set Default Proof Using "All".

(** C4. The sink's log is complete and ordered: after any calls, through any
    sink, the accepted events are the mailbox's own and are numbered 1, 2, 3,
    ... without a gap, the mailbox's sequence is their number, and the next
    call returns without a panic. *)
Theorem log_is_numbered inst lim (s : Mailbox * A) c :
  reachable inst lim s → short s →
  numbered inst (accepted s.2) ∧ sequence s.1 = lenN (accepted s.2) ∧
  outcome_of (call c) s ≠ Panic.
Proof.
  intros Hr Hs. destruct (mailbox_wf _ _ _ Hr Hs) as ([_ Hq Hn] & <- & _).
  split_and!; [done|done|]. by destruct (call_traced c s).
Qed.

(** C5. Nothing is published before its event is in the log: a sequence of
    calls that added no event to the log changed no message, no receipt and no
    sequence number; and once a write failed ([audit_failed]), no later call
    adds to the log or changes a message. *)
Theorem publishes_only_after_audit inst lim (s : Mailbox * A) cs :
  reachable inst lim s → short (runs cs s) →
  (accepted (runs cs s).2 = accepted s.2 →
     messages (runs cs s).1 = messages s.1 ∧ receipts (runs cs s).1 = receipts s.1 ∧
     sequence (runs cs s).1 = sequence s.1) ∧
  (audit_failed s.1 = true →
     audit_failed (runs cs s).1 = true ∧ accepted (runs cs s).2 = accepted s.2).
Proof.
  intros Hr Hs. split.
  - intros Ha. eapply unlogged_steps; [apply runs_steps|done].
  - intros Hf. destruct (runs_effect _ _ _ _ Hr Hs) as [_ _ _ _ _ Hff]. destruct (Hff Hf) as (? & ? & _). done.
Qed.
End log.

Lemma log_is_numbered_witness :
  numbered demo_instance (accepted (demo 9).2) ∧
  sequence (demo 9).1 = lenN (accepted (demo 9).2) ∧
  outcome_of (call (CallStop "b" 5)) (demo 9) ≠ Panic.
Proof.
  assert (short (demo 9)) as Hs by by vm_compute.
  exact (log_is_numbered _ _ _ (CallStop "b" 5) (demo_reached 9) Hs).
Defined.
Lemma publishes_only_after_audit_witness :
  let s := demo 4 in let s' := runs [CallStop "b" 5] s in
  accepted s'.2 = accepted s.2 ∧ messages s'.1 = messages s.1 ∧ audit_failed s'.1 = true.
Proof.
  assert (short (runs [CallStop "b" 5] (demo 4))) as Hs by by vm_compute.
  assert (accepted (runs [CallStop "b" 5] (demo 4)).2 = accepted (demo 4).2) as Ha
    by by vm_compute.
  destruct (publishes_only_after_audit _ _ _ _ (demo_reached 4) Hs) as [Hm _].
  split; [exact Ha|]. split; [apply Hm, Ha|by vm_compute].
Defined.

(** ** Messages *)
Section messages.
Context {A : Type} `{AuditLaws A}.
#[local] Set Default Proof Using "All".

(** A message's life only moves forward: whatever calls follow, the
    message stays at its place with the same ID, sender, recipient, body and
    creation sequence, its state follows queued -> claimed -> completed,
    claimed -> queued with a greater claim generation, or unresolved ->
    failed, its claim generation never decreases, and once resolved it never
    changes again. *)
Theorem messages_move_forward inst lim (s : Mailbox * A) cs i m :
  reachable inst lim s → short (runs cs s) → messages s.1 !! i = Some m →
  ∃ m', messages (runs cs s).1 !! i = Some m' ∧ rtc moves m m' ∧
    id m' = id m ∧ sender m' = sender m ∧ recipient m' = recipient m ∧ body m' = body m ∧
    created_sequence m' = created_sequence m ∧ (claim_generation m <= claim_generation m')%N ∧
    (is_unresolved m = false → m' = m).
Proof.
  intros Hr Hs Hi. destruct (runs_effect _ _ _ _ Hr Hs) as [_ _ _ (l1 & l2 & He & Hf) _ _].
  destruct (Forall2_lookup_l _ _ _ _ _ Hf Hi) as (m' & Hm' & Hmm). exists m'.
  split; [|by split; [|apply rtc_moves_same]]. rewrite He. by apply lookup_app_l_Some.
Qed.

(** C6. Each inbox is served in order: IDs are unique, messages are kept in
    order of creation, a recipient has at most one claimed message, and
    [inbox.next] (a claimed item, else the first queued one) is always the
    oldest message of the inbox that is not resolved. *)
Theorem inbox_serves_oldest inst lim (s : Mailbox * A) actor :
  reachable inst lim s → short s →
  NoDup (id <$> messages s.1) ∧ StronglySorted N.lt (created_sequence <$> messages s.1) ∧
  (∀ i j m m', messages s.1 !! i = Some m → messages s.1 !! j = Some m' →
     state m = Claimed → state m' = Claimed → recipient m = recipient m' → i = j) ∧
  current_item s.1 actor =
    find_message (λ m, string_eqb (recipient m) actor && is_unresolved m) s.1.
Proof.
  intros Hr Hs. destruct (mailbox_wf _ _ _ Hr Hs) as ([[Hl _] _ _] & _ & _).
  split_and!; [by eapply lw_ids|by destruct Hl| |by eapply current_item_head].
  destruct Hl as [_ _ _ _ _ Hh]. unfold is_unresolved in Hh.
  intros i j m m' Hi Hj Hm Hm' He. destruct (lt_eq_lt_dec i j) as [[Hlt|]|Hlt]; [|done|].
  - specialize (Hh j i m' m Hj Hm' Hlt Hi He). by rewrite Hm in Hh.
  - specialize (Hh i j m m' Hi Hm Hlt Hj (eq_sym He)). by rewrite Hm' in Hh.
Qed.

(** C7. The limits hold at every reachable state: the number of messages,
    the unresolved messages of each inbox, and the receipts together with the
    operations reserved for the unresolved messages. *)
Theorem mailbox_within_limits inst lim (s : Mailbox * A) k :
  reachable inst lim s → short s →
  (lenN (messages s.1) <= max_messages lim)%N ∧
  (lenN (filter (λ m, recipient m = k ∧ is_unresolved m) (messages s.1)) <= max_inbox lim)%N ∧
  (N.of_nat (size (receipts s.1)) + reserved_for (messages s.1) <= max_operations lim)%N.
Proof.
  intros Hr Hs. destruct (mailbox_wf _ _ _ Hr Hs) as ([[_ Hf] _ _] & _ & <-).
  destruct Hf as [H1 H2 H3]. split_and!; [done|apply H2|done].
Qed.
End messages.

Lemma messages_move_forward_witness :
  let s := demo 9 in let s' := runs [CallStop "b" 5] s in
  ∃ m m', messages s.1 !! 0%nat = Some m ∧ messages s'.1 !! 0%nat = Some m' ∧ rtc moves m m'.
Proof.
  assert (short (runs [CallStop "b" 5] (demo 9))) as Hs by by vm_compute.
  assert (∃ m, messages (demo 9).1 !! 0%nat = Some m) as [m Hm] by (eexists; by vm_compute).
  destruct (messages_move_forward _ _ _ _ _ _ (demo_reached 9) Hs Hm) as (m' & Hm' & Hr & _).
  exists m, m'. split; [exact Hm|]. exact (conj Hm' Hr).
Defined.
Lemma inbox_serves_oldest_witness :
  current_item (demo 9).1 "b" =
  find_message (λ m, string_eqb (recipient m) "b" && is_unresolved m) (demo 9).1.
Proof.
  assert (short (demo 9)) as Hs by by vm_compute.
  destruct (inbox_serves_oldest _ _ _ "b" (demo_reached 9) Hs) as (_ & _ & _ & Hc). exact Hc.
Defined.
Lemma mailbox_within_limits_witness :
  (lenN (filter (λ m, recipient m = "b" ∧ is_unresolved m) (messages (demo 9).1)) <= 256)%N.
Proof.
  assert (short (demo 9)) as Hs by by vm_compute.
  destruct (mailbox_within_limits _ _ _ "b" (demo_reached 9) Hs) as (_ & Hc & _). exact Hc.
Defined.
