(* ===== verification/MailboxFollows.v ===== *)
(** * Relations every step of a computation respects

    [follows R m]: whatever [m] does, and however it ends, the mailbox it
    leaves is related to the one it started from. An invariant [I] is the
    relation "[I] before implies [I] after". *)
From S2P Require Import Prelude Json Raid RaidLog Operations Messages Mailbox.

Create HintDb follows.

Section follows.
Context {A : Type} `{Audit A} (R : Mailbox → Mailbox → Prop) `{!PreOrder R}.
#[local] Set Default Proof Using "PreOrder0".
Abbreviation St := (Mailbox * A)%type.

Definition follows {E X} (m : M St E X) : Prop := ∀ s, R s.1 (state_of m s).1.

Lemma follows_ret {E X} (x : X) : follows (mret x : M St E X).
Proof. intros s. reflexivity. Qed.
Lemma follows_throw {E X} (e : E) : follows (throw e : M St E X).
Proof. intros s. reflexivity. Qed.
Lemma follows_refuse {E} c (e : E) : follows (refuse c e : M St E unit).
Proof. intros s. destruct c; reflexivity. Qed.
Lemma follows_lift {E X} (r : res E X) : follows (lift r : M St E X).
Proof. intros s. reflexivity. Qed.
Lemma follows_ok_or {E X} (o : option X) (e : E) : follows (ok_or o e : M St E X).
Proof. intros s. destruct o; reflexivity. Qed.
Lemma follows_expect {E X} (o : option X) : follows (expect o : M St E X).
Proof. intros s. destruct o; reflexivity. Qed.
Lemma follows_append {E} e n : follows (try_append e n : M St E (option AuditError)).
Proof.
  intros [b a]. unfold state_of, try_append. simpl.
  destruct (append e n a) as [[[]|x|] a']; reflexivity.
Qed.
Lemma follows_update {E} (f : Mailbox → Mailbox) :
  (∀ b, R b (f b)) → follows (update f : M St E unit).
Proof. intros Hf s. apply Hf. Qed.
Lemma follows_bind {E X Y} (m : M St E X) (f : X → M St E Y) :
  follows m → (∀ x, follows (f x)) → follows (m ≫= f).
Proof.
  intros Hm Hf s. specialize (Hm s). unfold state_of, mbind, M_bind in *.
  destruct (m s) as [[x|e|] s']; simpl in *; [|done..]. etrans; [done|]. apply Hf.
Qed.
Lemma follows_get {E X} (f : Mailbox → M St E X) :
  (∀ b, follows (f b)) → follows (get_mailbox ≫= f).
Proof. intros Hf s. apply (Hf s.1 s). Qed.
Lemma follows_ignore {E E' X} (m : M St E X) : follows m → follows (ignore m : M St E' unit).
Proof.
  intros Hm s. specialize (Hm s). unfold state_of, ignore in *.
  by destruct (m s) as [[x|e|] s'].
Qed.
Lemma follows_for_each {E X} (f : X → M St E unit) l :
  (∀ x, follows (f x)) → follows (for_each f l).
Proof. intros Hf. induction l; simpl; [apply follows_ret|by apply follows_bind]. Qed.
End follows.

#[export] Hint Resolve follows_ret follows_throw follows_refuse follows_lift follows_ok_or
  follows_expect follows_append : follows.

(** Split a computation into its updates, each solved by [tac]. *)
Ltac follows_tac tac :=
  repeat (first
    [ apply follows_get; [apply _|intros ?]
    | apply follows_bind; [apply _| |intros ?]
    | apply follows_ignore; [apply _|]
    | apply follows_for_each; [apply _|intros ?]
    | solve [auto with follows typeclass_instances]
    | progress unfold audit_error, increment
    | apply follows_update; [apply _|intros ?; solve [tac]]
    | case_match ]).
