(* ===== verification/CommandSpec.v ===== *)
(** * What a command does, end to end

    Theorems about [execute]: retries, authorization, delivery, spent claims,
    and the room reserved for the messages already accepted. *)
From S2P Require Import Prelude Json Raid RaidLog Operations Messages Mailbox MailboxSteps.
From S2P Require Import MailboxFacts MailboxInv MailboxExec MailboxSpec.

Section commands.
Context {A : Type} `{AuditLaws A}.
#[local] Set Default Proof Using "All".
Abbreviation St := (Mailbox * A)%type.

Lemma run_execute actor command d now s v s' :
  execute actor command d now s = (Ok v, s') →
  run (CallExecute actor command d now) s = s'.
Proof. intros He. unfold run, call, state_of, ignore. by rewrite He. Qed.

Lemma receipt_stored actor command d now s v s' :
  execute actor command d now s = (Ok v, s') →
  valid command ∧ receipts s'.1 !! receipt_key actor command = Some (mkReceipt command v).
Proof.
  destruct s as [b a]. intros [(Hk & Hv & Hq)|(ch & r & a' & Hc & -> & ->)]%execute_Ok.
  - split; [done|]. by rewrite (q_receipts _ _ Hq).
  - split; [apply Hc|]. simpl. apply lookup_insert_eq.
Qed.

(** C8. Every command is executed once: after a command returned a result,
    whatever calls follow, repeating it returns the same result and changes no
    message and no receipt, and a different command under the same key is
    refused and changes nothing. *)
Theorem retry_is_idempotent inst lim s actor command d now v s1 cs d' now' :
  reachable inst lim s → execute actor command d now s = (Ok v, s1) → short (runs cs s1) →
  let s2 := runs cs s1 in
  (∃ s3, execute actor command d' now' s2 = (Ok v, s3) ∧
     messages s3.1 = messages s2.1 ∧ receipts s3.1 = receipts s2.1) ∧
  (∀ command', valid command' → receipt_key actor command' = receipt_key actor command →
     command' ≠ command → execute actor command' d' now' s2 = (Err conflict, s2)).
Proof.
  intros Hr He Hs s2. pose proof (receipt_stored _ _ _ _ _ _ _ He) as [Hv Hk].
  assert (reachable inst lim s1) as Hr1.
  { rewrite <-(run_execute _ _ _ _ _ _ _ He).
    by apply (reachable_runs _ _ _ [CallExecute actor command d now]). }
  destruct (runs_effect _ _ _ cs Hr1 Hs) as [_ _ _ _ Hrec _].
  assert (receipts s2.1 !! receipt_key actor command = Some (mkReceipt command v)) as Hk2
    by by eapply lookup_weaken.
  destruct s2 as [b2 a2]. simpl in *. split.
  - destruct (execute_retry actor command d' now' b2 a2 v Hv Hk2) as (s3 & He3 & Hq).
    exists s3. split_and!; [done|apply Hq|apply Hq].
  - intros c' Hv' Hkey Hne. eapply execute_conflict; [done|by rewrite Hkey|done].
Qed.

(** C9. A message is only accepted for a running recipient its sender may
    write to: a send that commits appends exactly one queued message, from
    the actor to the only session that the name or ID given can mean among
    those the actor may reach, which is running and not the actor; the actor
    is the host or shares with it a raid that is neither paused nor
    unrecorded. *)
Theorem send_is_authorized inst lim b a actor p d now v s' :
  reachable inst lim (b, a) → short (b, a) →
  receipts b !! receipt_key actor (MSend p) = None →
  execute actor (MSend p) d now (b, a) = (Ok v, s') →
  ∃ m s, messages s'.1 = messages b ++ [m] ∧ v = message_value m ∧
    sender m = actor ∧ recipient m = session_id s ∧ body m = send_body p ∧ state m = Queued ∧
    s ∈ values d ∧ names (to p) s = true ∧ running s = true ∧ session_id s ≠ actor ∧
    (∀ s', s' ∈ values d → names (to p) s' = true → allowed (logged b) actor s' = true → s' = s) ∧
    may_write b actor (recipient m).
Proof.
  intros Hr Hs Hk [(Hk' & _)|(ch & r & a' & Hc & -> & ->)]%execute_Ok; [by rewrite Hk in Hk'|].
  destruct (mailbox_wf _ _ _ Hr Hs) as ([[Hlw _] _ _] & _ & _). simpl in *.
  pose proof Hc as [_ _ _ _ Hq Hp _ _].
  apply prepare_send_Ok in Hp as (se & c & Hin & Hn & Hrun & Hne & Hu & Hmay & Hms & Hres).
  eexists _, se. rewrite Hms, Hres. unfold apply_messages. simpl. split_and!; try done.
  apply upsert_new. apply (fresh_not_in b Hlw Hq); [done|].
  by apply new_message_fresh.
Qed.

(** A reply answers the message its actor holds: when it commits, that
    message was claimed by the actor at the generation given and is completed
    at its place, exactly one message is appended, to its sender, in its
    conversation and naming it; and the actor may write to that sender, or
    the sender is the host. A notice is never answered. *)
Theorem reply_answers_claim inst lim b a actor p d now v s' :
  reachable inst lim (b, a) → short (b, a) →
  receipts b !! receipt_key actor (MReply p) = None →
  execute actor (MReply p) d now (b, a) = (Ok v, s') →
  ∃ i m r, messages b !! i = Some m ∧ id m = reply_message p ∧ recipient m = actor ∧
    state m = Claimed ∧ claim_generation m = reply_claim_generation p ∧
    sender m ≠ NOTICE_SENDER ∧
    messages s'.1 = <[i := set_state Completed m]> (messages b) ++ [r] ∧
    sender r = actor ∧ recipient r = sender m ∧ body r = reply_body p ∧ state r = Queued ∧
    msg_conversation r = msg_conversation m ∧ in_reply_to r = Some (id m) ∧
    (is_host (sender m) = true ∨ may_write b actor (sender m)).
Proof.
  intros Hr Hs Hk [(Hk' & _)|(ch & r & a' & Hc & -> & ->)]%execute_Ok; [by rewrite Hk in Hk'|].
  destruct (mailbox_wf _ _ _ Hr Hs) as ([[Hlw _] _ _] & _ & _). simpl in *.
  pose proof Hc as [_ _ _ _ Hq Hp _ _].
  apply prepare_reply_Ok in Hp as (m & Hm & Hn & _ & Hmay & Hms).
  apply claim_Ok in Hm as ([Hh Hst] & Hid & Hrec & Hg). destruct (holds_at _ _ Hh) as [i Hi].
  exists i, m, (new_message b actor (sender m) (reply_body p) (msg_conversation m) (Some (id m)) d
    (sequence b + 1) now). rewrite Hms. unfold apply_messages. cbn [foldl].
  rewrite (upsert_at (messages b) i m); [|by eapply lw_ids|done|done].
  split_and!; try done. apply upsert_new.
  apply (fresh_not_in b Hlw Hq); [|by apply new_message_fresh].
  eapply lw_calm; [|done]. apply (Forall2_calm_insert _ _ m); [done|by apply calm_complete].
Qed.

(** A spent claim is void for good: once a claim of a message was
    requeued (its generation passed) or its message resolved, then whatever
    calls follow, no command that names that message and generation (reply,
    complete or requeue, by anyone) commits; it is refused and leaves
    messages, receipts and log as they were. *)
Theorem spent_claims_are_void inst lim (s : St) cs i m g actor command d now :
  reachable inst lim s → short (runs cs s) → messages s.1 !! i = Some m → spent g m →
  claim_of command = Some (id m, g) → valid command →
  let s' := runs cs s in
  receipts s'.1 !! receipt_key actor command = None → audit_failed s'.1 = false →
  is_err (live d actor) = false → (sequence s'.1 + 1 < u64_modulus)%N →
  ∃ f s'', execute actor command d now s' = (Err f, s'') ∧ messages s''.1 = messages s'.1 ∧
    receipts s''.1 = receipts s'.1 ∧ accepted s''.2 = accepted s'.2.
Proof.
  intros Hr Hs Hi Hsp Hc Hv s' Hk Hb Hl Hq.
  assert (reachable inst lim s') as Hr' by by apply reachable_runs.
  destruct (mailbox_wf _ _ _ Hr' Hs) as ([[Hlw _] _ _] & _ & _).
  destruct (runs_effect _ _ _ _ Hr Hs) as [_ _ _ (l1 & l2 & He & Hf) _ _].
  destruct (Forall2_lookup_l _ _ _ _ _ Hf Hi) as (m' & Hm' & Hmm).
  assert (messages s'.1 !! i = Some m') as Hi' by (subst s'; rewrite He; by apply lookup_app_l_Some).
  pose proof (spent_moves g _ _ Hmm Hsp) as Hsp'.
  apply rtc_moves_same in Hmm as (Hid & _). rewrite <-Hid in Hc.
  destruct s' as [b' a']. simpl in *.
  destruct (prepare_spent _ _ b' actor command d (sequence b' + 1) now i m' g Hlw Hi' Hsp' Hc) as [f Hp].
  { by rewrite u64_add_small. }
  destruct (execute_refused actor command d now b' a' f) as (b'' & Hex & Hqu & _); [done..|].
  exists f, (b'', a'). split_and!; [done|apply Hqu|apply Hqu|done].
Qed.
End commands.

(** ** The room kept for accepted messages *)
Section room.
Context {A : Type} `{AuditLaws A}.
#[local] Set Default Proof Using "All".
Abbreviation St := (Mailbox * A)%type.

(** The sink accepts the next event. *)
Definition accepting (a : A) : Prop := ∀ e n, ∃ a', append e n a = (Ok tt, a').

Lemma commit_one b a actor command d now ch i m m' :
  lw (instance b) (sequence b) (messages b) → fits (limits b) (receipts_used b) (messages b) →
  valid command → receipts b !! receipt_key actor command = None → audit_failed b = false →
  is_err (live d actor) = false → (sequence b + 1 < u64_modulus)%N → accepting a →
  prepare b actor command d (sequence b + 1) now = Ok ch → ch_messages ch = [m'] →
  messages b !! i = Some m → id m' = id m → lighter m m' → (weight m' + 1 = weight m)%N →
  ∃ s', execute actor command d now (b, a) = (Ok (ch_result ch), s') ∧
        messages s'.1 = <[i := m']> (messages b).
Proof.
  intros Hlw Hf Hv Hk Hb Hl Hq Ha Hp Hch Hi Hid Hli Hw.
  destruct (replace_fits b i m m') as [r Hr]; [by eapply lw_ids|done..|].
  destruct (Ha (command_event b actor command ch now) (r * RESERVED)%N) as [a' Ha'].
  eexists. split.
  - apply (execute_commits _ _ _ _ _ _ _ r a'). split; try done. by rewrite Hch.
  - simpl. rewrite Hch. apply (upsert_at _ _ m); [by eapply lw_ids|done|done].
Qed.

(** C10. Accepting a message reserves the room to fetch and to complete it:
    at every reachable state, full or not, while the log accepts events, the
    next item of an inbox can be fetched when it is queued, and a claimed
    message can be completed by its recipient; neither is refused for
    capacity. *)
Theorem reserved_transitions_fit inst lim b a actor k d now :
  reachable inst lim (b, a) → short (b, a) → accepting a → audit_failed b = false →
  is_err (live d actor) = false → (sequence b + 1 < u64_modulus)%N →
  (∀ m, current_item b actor = Some m → state m = Queued → valid (MNext (mkNext k)) →
     receipts b !! receipt_key actor (MNext (mkNext k)) = None →
     ∃ i v s', execute actor (MNext (mkNext k)) d now (b, a) = (Ok v, s') ∧
       messages b !! i = Some m ∧ messages s'.1 = <[i := claimed_item m]> (messages b)) ∧
  (∀ i m, messages b !! i = Some m → state m = Claimed → recipient m = actor →
     let c := MComplete (mkClaim k (id m) (claim_generation m)) in
     valid c → receipts b !! receipt_key actor c = None →
     ∃ v s', execute actor c d now (b, a) = (Ok v, s') ∧
       messages s'.1 = <[i := set_state Completed m]> (messages b)).
Proof.
  intros Hr Hs Ha Hb Hl Hq. destruct (mailbox_wf _ _ _ Hr Hs) as ([[Hlw Hf] _ _] & _ & _).
  simpl in *. split.
  - intros m Hm Hst Hv Hk. destruct (current_item_at _ _ _ _ _ Hlw Hm) as (i & (Hi & Hu & _) & Hrec).
    destruct (commit_one b a actor (MNext (mkNext k)) d now (prepare_next b actor) i m (claimed_item m))
      as (s' & He & Hm'); try done.
    + unfold prepare_next. rewrite Hm. done.
    + unfold claimed_item; by case_match.
    + split; [|done]. unfold claimed_item. by case_match.
    + unfold weight, is_unresolved, reserve, is_queued, claimed_item. rewrite Hst.
      simpl. by destruct (claim_generation m =? 0)%N.
    + exists i. eauto.
  - intros i m Hi Hst Hrec Hv Hk.
    assert (claim b actor (id m) (claim_generation m) = Ok m) as Hc.
    { unfold claim, get_message.
      assert (find_message (λ x, string_eqb (id x) (id m) && (is_host actor ||
        string_eqb (sender x) actor || string_eqb (recipient x) actor)) b = Some m) as ->.
      { apply (find_lookup_Some _ _ i); [done| |].
        - apply andb_true_iff. split; [by apply bool_decide_true|].
          apply orb_true_iff. right. by apply bool_decide_true.
        - intros j x Hlt Hj. unfold string_eqb. rewrite bool_decide_false; [done|].
          intros He. assert (x = m) as ->.
          { apply (NoDup_ids_eq (messages b)); [by eapply lw_ids| | |done];
              by eapply list_elem_of_lookup_2. }
          pose proof (lw_ids _ _ _ Hlw) as Hnd.
          assert (j = i); [|lia]. apply (NoDup_lookup _ j i (id m) Hnd); unfold ids_of;
            by rewrite list_lookup_fmap, ?Hj, ?Hi. }
      simpl. unfold string_eqb, is_claimed. rewrite !bool_decide_true by done. simpl.
      by rewrite N.eqb_refl. }
    assert (∃ ch, prepare b actor (MComplete (mkClaim k (id m) (claim_generation m))) d
      (sequence b + 1) now = Ok ch ∧ ch_messages ch = [set_state Completed m]) as (ch & Hp & Hch).
    { eexists. simpl. unfold prepare_complete. simpl. rewrite Hc. simpl. done. }
    destruct (commit_one b a actor _ d now ch i m (set_state Completed m) Hlw Hf Hv Hk Hb Hl Hq Ha
      Hp Hch Hi) as (s' & He & Hm'); [done|done| |eauto].
    unfold weight, is_unresolved, reserve, is_queued. simpl. by rewrite Hst.
Qed.
End room.

(** ** At concrete states *)
Definition value_of {S E} (m : M S E Value) (s : S) : Value :=
  match outcome_of m s with Ok v => v | _ => Null end.
Lemma ran {S E} (m : M S E Value) s :
  match outcome_of m s with Ok _ => true | _ => false end = true →
  m s = (Ok (value_of m s), state_of m s).
Proof. unfold value_of, outcome_of, state_of. by destruct (m s) as [[v|e|] s']. Qed.

Definition demo_reply : Mutation := MReply (mkReply "k2" (demo_instance +:+ "-m3") 1 "yes").
Definition demo_complete (k : string) : Mutation :=
  MComplete (mkClaim k (demo_instance +:+ "-m3") 1).
Definition demo_replied : Mailbox * Sink :=
  state_of (execute "b" demo_reply demo_directory 4) (demo 9).

Definition demo_b : Mailbox := Eval vm_compute in (demo 9).1.
Definition demo_a : Sink := Eval vm_compute in (demo 9).2.
Lemma demo_pair : reachable demo_instance default_limits (demo_b, demo_a).
Proof.
  assert (demo 9 = (demo_b, demo_a)) as <- by by vm_compute. apply demo_reached.
Qed.
Lemma demo_short : short (demo_b, demo_a).
Proof. by vm_compute. Qed.

Lemma retry_is_idempotent_witness :
  let s2 := runs [CallStop "b" 5] (state_of (execute "b" demo_reply demo_directory 4) (demo_b, demo_a)) in
  ∃ v s3, execute "b" demo_reply demo_directory 6 s2 = (Ok v, s3) ∧ messages s3.1 = messages s2.1.
Proof.
  assert (execute "b" demo_reply demo_directory 4 (demo_b, demo_a) =
    (Ok (value_of (execute "b" demo_reply demo_directory 4) (demo_b, demo_a)),
     state_of (execute "b" demo_reply demo_directory 4) (demo_b, demo_a))) as He
    by (apply ran; by vm_compute).
  assert (short (runs [CallStop "b" 5] (state_of (execute "b" demo_reply demo_directory 4)
    (demo_b, demo_a)))) as Hs by by vm_compute.
  destruct (retry_is_idempotent _ _ _ _ _ _ _ _ _ _ demo_directory 6%N demo_pair He Hs)
    as [(s3 & H3 & Hm & _) _].
  exact (ex_intro _ _ (ex_intro _ s3 (conj H3 Hm))).
Defined.
Lemma send_is_authorized_witness :
  let c := mkSend "k9" "ann" "to the owner" None in
  ∃ s' m, execute "b" (MSend c) demo_directory 4 (demo_b, demo_a) = (Ok (message_value m), s') ∧
    messages s'.1 = messages demo_b ++ [m] ∧ may_write demo_b "b" (recipient m).
Proof.
  intros c.
  assert (execute "b" (MSend c) demo_directory 4 (demo_b, demo_a) =
    (Ok (value_of (execute "b" (MSend c) demo_directory 4) (demo_b, demo_a)),
     state_of (execute "b" (MSend c) demo_directory 4) (demo_b, demo_a))) as He
    by (apply ran; by vm_compute).
  assert (receipts demo_b !! receipt_key "b" (MSend c) = None) as Hk by by vm_compute.
  destruct (send_is_authorized _ _ _ _ _ _ _ _ _ _ demo_pair demo_short Hk He)
    as (m & se & Hm & Hv & _ & _ & _ & _ & _ & _ & _ & _ & _ & Hmay).
  rewrite Hv in He. exact (ex_intro _ _ (ex_intro _ m (conj He (conj Hm Hmay)))).
Defined.
Lemma reply_answers_claim_witness :
  ∃ i m r s', messages demo_b !! i = Some m ∧
    execute "b" demo_reply demo_directory 4 (demo_b, demo_a) = (Ok (value_of (execute "b" demo_reply
      demo_directory 4) (demo_b, demo_a)), s') ∧
    messages s'.1 = <[i := set_state Completed m]> (messages demo_b) ++ [r].
Proof.
  assert (execute "b" demo_reply demo_directory 4 (demo_b, demo_a) =
    (Ok (value_of (execute "b" demo_reply demo_directory 4) (demo_b, demo_a)),
     state_of (execute "b" demo_reply demo_directory 4) (demo_b, demo_a))) as He
    by (apply ran; by vm_compute).
  assert (receipts demo_b !! receipt_key "b" demo_reply = None) as Hk by by vm_compute.
  destruct (reply_answers_claim _ _ _ _ _ _ _ _ _ _ demo_pair demo_short Hk He)
    as (i & m & r & Hi & _ & _ & _ & _ & _ & Hm & _).
  exists i, m, r. eexists. exact (conj Hi (conj He Hm)).
Defined.
Lemma spent_claims_are_void_witness :
  let s := state_of (execute "b" demo_reply demo_directory 4) (demo_b, demo_a) in
  ∃ f s'', execute "b" (demo_complete "k7") demo_directory 6 s = (Err f, s'').
Proof.
  intros s.
  assert (reachable demo_instance default_limits s) as Hr.
  { assert (s = runs [CallExecute "b" demo_reply demo_directory 4] (demo_b, demo_a)) as ->
      by by vm_compute. apply reachable_runs, demo_pair. }
  assert (short (runs [] s)) as Hs by by vm_compute.
  assert (∃ m, messages s.1 !! 0%nat = Some m ∧ id m = demo_instance +:+ "-m3" ∧ spent 1 m)
    as (m & Hm & Hid & Hsp).
  { eexists. split; [by vm_compute|]. split; [by vm_compute|]. right. by vm_compute. }
  assert (claim_of (demo_complete "k7") = Some (id m, 1%N)) as Hc by by rewrite Hid.
  assert (valid (demo_complete "k7")) as Hv by by vm_compute.
  assert (receipts s.1 !! receipt_key "b" (demo_complete "k7") = None) as Hk by by vm_compute.
  assert (audit_failed s.1 = false) as Hb by by vm_compute.
  assert (is_err (live demo_directory "b") = false) as Hl by by vm_compute.
  assert (sequence s.1 + 1 < u64_modulus)%N as Hq by by vm_compute.
  destruct (spent_claims_are_void _ _ s [] 0 m 1 "b" _ demo_directory 6 Hr Hs Hm Hsp Hc Hv Hk Hb
    Hl Hq) as (f & s'' & He & _).
  exact (ex_intro _ f (ex_intro _ s'' He)).
Defined.
(** A log that accepts every event. *)
Record Endless := mkEndless { endless_log : list Event }.
#[export] Instance endless_audit : Audit Endless := {|
  append e _ := λ s, (Ok tt, mkEndless (endless_log s ++ [e]));
  accepted := endless_log |}.
#[export] Instance endless_laws : AuditLaws Endless.
Proof. split; [done|by intros ? ? ? ? [= <-]|done]. Qed.

Lemma reserved_transitions_fit_witness :
  let s := runs demo_calls ((demo_start 0).1, mkEndless []) in
  let c := demo_complete "k7" in
  ∃ v s', execute "b" c demo_directory 4 (s.1, s.2) = (Ok v, s').
Proof.
  intros s c.
  assert (reachable demo_instance default_limits (s.1, s.2)) as Hr.
  { rewrite <-surjective_pairing. eexists (demo_start 0).1, (mkEndless []), demo_calls.
    split; [reflexivity|]. split; reflexivity. }
  assert (short (s.1, s.2)) as Hs by by vm_compute.
  assert (accepting s.2) as Ha by (intros e n; by eexists).
  assert (audit_failed s.1 = false) as Hb by by vm_compute.
  assert (is_err (live demo_directory "b") = false) as Hl by by vm_compute.
  assert (sequence s.1 + 1 < u64_modulus)%N as Hq by by vm_compute.
  assert (∃ m, messages s.1 !! 0%nat = Some m ∧ state m = Claimed ∧ recipient m = "b" ∧
    c = MComplete (mkClaim "k7" (id m) (claim_generation m))) as (m & Hm & Hst & Hrc & Hid).
  { eexists. split; [by vm_compute|]. split_and!; by vm_compute. }
  assert (valid c) as Hv by by vm_compute.
  assert (receipts s.1 !! receipt_key "b" c = None) as Hk by by vm_compute.
  rewrite Hid in Hv, Hk |- *.
  destruct (reserved_transitions_fit _ _ _ _ "b" "k7" demo_directory 4 Hr Hs Ha Hb Hl Hq) as [_ Hc].
  destruct (Hc 0%nat m Hm Hst Hrc Hv Hk) as (v & s' & He & _).
  exact (ex_intro _ v (ex_intro _ s' He)).
Defined.
