(* ===== verification/MailboxRaids.v ===== *)
(** * The mailbox's membership against the raids

    Whatever the sink refuses, the mailbox authorizes no one the raid rules do
    not, and while nothing was refused its membership is exact. *)
From S2P Require Import Prelude Json Grammar Raid RaidFacts RaidLog RaidSpec Membership.
From S2P Require Import Operations Messages Mailbox MailboxSteps MailboxFacts MailboxInv.
From S2P Require Import MailboxExec MailboxFollows MailboxSpec.

Definition failed (b : Mailbox) : bool := audit_failed b || raid_audit_failed b.

(** Nothing happened to the membership, and no failure was forgotten. *)
Record steady (b b' : Mailbox) : Prop := {
  st_logged : logged b' = logged b;
  st_failed : failed b = true → failed b' = true }.
#[export] Instance steady_preorder : PreOrder steady.
Proof. split; [done|]. intros b1 b2 b3 [H1 H2] [H3 H4]. split; [congruence|auto]. Qed.

Lemma steady_finished r b : steady b (remember_finished r b).
Proof. unfold remember_finished. by repeat case_match. Qed.

(** Each update of a computation is steady. *)
Ltac steady_update :=
  idtac; match goal with
  | |- steady ?b (remember_finished _ ?b) => apply steady_finished
  | |- _ => split; [done|unfold failed; simpl; try done; by rewrite ?orb_true_r]
  end.
Ltac steady_tac := follows_tac steady_update.
Abbreviation steadies := (follows steady).

Section ops.
Context {A : Type} `{Audit A} `{!AuditLaws A}.
Abbreviation St := (Mailbox * A)%type.

Lemma record_steady actor kind data now : steadies (record actor kind data now : M St Fault unit).
Proof. unfold record. steady_tac. Qed.
Lemma notify_resumed_steady raid d now : steadies (notify_resumed raid d now : M St Fault unit).
Proof. unfold notify_resumed, notify_one, record. steady_tac. Qed.
Lemma record_operations_steady evs d now : steadies (record_operations evs d now : M St Fault unit).
Proof.
  unfold record_operations, record_operation, record_requested, record_decided, record_completed,
    deliver_completion, operation_event, record. steady_tac.
Qed.
Lemma execute_steady actor command d now : steadies (execute actor command d now : M St Fault Value).
Proof. unfold execute, execute_new, record, warn. steady_tac. Qed.
Lemma stop_recipient_steady r now : steadies (stop_recipient r now : M St Fault unit).
Proof. unfold stop_recipient. steady_tac. Qed.

(** ** One raid event *)

(** The mailbox's membership against the full replay [f]. *)
Record tracks (b : Mailbox) (f : Logged) : Prop := {
  tr_below : below (logged b) f;
  tr_exact : failed b = false → logged b = f }.
Lemma tracks_steady b b' f : steady b b' → tracks b f → tracks b' f.
Proof.
  intros [Hl Hf] [Hb He]. split; rewrite Hl; [done|]. intros Hf'. apply He.
  destruct (failed b); [|done]. by rewrite Hf in Hf'.
Qed.

Lemma prune_logged c b : logged (prune_warned c b) = logged b ∧ failed (prune_warned c b) = failed b.
Proof. destruct c; simpl; try done. by case_match. Qed.

#[local] Set Default Proof Using "All".

(** Whether the log took the event. *)
Lemma recorded_cases e now b (a : A) :
  ∃ r b1 a1, (if audit_failed b then mret false else append_raid e now : M St Fault bool) (b, a) =
      (Ok r, (b1, a1)) ∧ logged b1 = logged b ∧ (failed b = true → failed b1 = true) ∧
    (r = false → failed b1 = true).
Proof.
  unfold failed. destruct (audit_failed b) eqn:Hf.
  { exists false, b, a. by rewrite Hf. }
  unfold append_raid, get_mailbox, mbind, M_bind, try_append. simpl.
  pose proof (append_total (mkEvent (instance b) (u64_add (sequence b) 1) now (Raid.kind e)
    (Raid.actor e) (Raid.sessions e) (Raid.data e)) (reserved_bytes b) a) as Ht.
  unfold outcome_of in Ht. destruct (append _ _ a) as [[[]|[]|] a'] eqn:Ha; [| | |done];
    simpl; eexists _, _, _; split_and!; try done; simpl; by rewrite ?orb_true_r, ?Hf.
Qed.

Lemma never_errs {E E' X} (m : M St E X) s e s' : (ignore m : M St E' unit) s ≠ (Err e, s').
Proof. unfold ignore. by destruct (m s) as [[x|x|] ?]. Qed.
Lemma for_each_no_err {E X} (f : X → M St E unit) l s e s' :
  (∀ x s e s', f x s ≠ (Err e, s')) → for_each f l s ≠ (Err e, s').
Proof.
  intros Hf. revert s. induction l as [|x l IH]; intros s; [done|]. simpl.
  unfold mbind, M_bind. destruct (f x s) as [[[]|y|] s1] eqn:Hx; [apply IH| |done].
  by apply Hf in Hx.
Qed.
Lemma notify_one_never_errs raid d now k (s : St) e s' : notify_one raid d now k s ≠ (Err e, s').
Proof.
  destruct s as [b a]. unfold notify_one, get_mailbox, mbind, M_bind. simpl.
  destruct (logged b !! k) as [v|]; [|done]. destruct (negb _); [done|].
  destruct (_ || _); [done|].
  destruct (check_capacity b _) as [r|x|]; simpl; [|apply never_errs..]. unfold try_append. simpl.
  destruct (append _ _ a) as [[[]|[]|] a']; simpl; apply never_errs || done.
Qed.
Lemma raid_event_never_errs d now ev (s : St) e s' : record_raid_event d now ev s ≠ (Err e, s').
Proof.
  destruct s as [b a]. unfold record_raid_event, get_mailbox. unfold mbind at 1, M_bind at 1. simpl.
  destruct (addition ev && _); [done|].
  destruct (recorded_cases ev now b a) as (r & b1 & a1 & Hr & _).
  unfold mbind at 1, M_bind at 1. rewrite Hr. unfold mbind, M_bind.
  assert (∀ raid s1, notify_resumed raid d now s1 ≠ (@Err Fault unit e, s')) as Hn.
  { intros raid [b2 a2]. unfold notify_resumed, get_mailbox, mbind, M_bind. simpl.
    destruct (warned b2 !! raid); [|done]. apply for_each_no_err. apply notify_one_never_errs. }
  destruct (r || _); simpl; destruct r; try done; by destruct (Raid.change ev).
Qed.

(** What happened to the membership while an event was processed. *)
Definition raid_event_case (e : Raid.Event) (b b' : Mailbox) : Prop :=
  (failed b = true → failed b' = true) ∧
  (logged b' = apply_raid (logged b) (Raid.change e) ∧ (addition e = true → failed b = false) ∨
   logged b' = logged b ∧ addition e = true ∧ failed b' = true).

Lemma applied_case e b b1 b' :
  logged b1 = logged b → (failed b = true → failed b1 = true) →
  (addition e = true → failed b = false) →
  steady (prune_warned (Raid.change e) (set_logged (apply_raid (logged b1) (Raid.change e)) b1)) b' →
  raid_event_case e b b'.
Proof.
  intros Hl1 Hf1 Hadd [Hl Hf]. destruct (prune_logged (Raid.change e)
    (set_logged (apply_raid (logged b1) (Raid.change e)) b1)) as [Hl2 Hf2].
  rewrite Hl2 in Hl. rewrite Hf2 in Hf. simpl in Hl. rewrite Hl1 in Hl.
  split; [intros Hb; by apply Hf, Hf1|by left].
Qed.

(** An event is applied, or it is an addition that was left out for good. *)
Lemma raid_event_cases d now e (s : St) :
  raid_event_case e s.1 (state_of (record_raid_event d now e) s).1.
Proof.
  destruct s as [b a]. unfold state_of. destruct (record_raid_event d now e (b, a)) as [o s'] eqn:He.
  simpl. unfold record_raid_event, get_mailbox in He. unfold mbind at 1, M_bind at 1 in He.
  cbn [fst snd] in He. fold (failed b) in He. destruct (addition e && failed b) eqn:Hskip.
  { apply andb_true_iff in Hskip as [Ha Hf]. injection He as _ <-. split; auto. }
  assert (addition e = true → failed b = false) as Hadd
    by (intros Ha; by rewrite Ha in Hskip).
  destruct (recorded_cases e now b a) as (r & b1 & a1 & Hr & Hl1 & Hf1 & Hr1).
  unfold mbind at 1, M_bind at 1 in He. rewrite Hr in He. clear Hr.
  destruct (r || negb (addition e)) eqn:Happ.
  - apply (applied_case e b b1); [done..|].
    unfold mbind at 1, M_bind at 1 in He. cbn [update mbind M_bind fst snd] in He.
    destruct r; [|by injection He as _ <-].
    destruct (Raid.change e) as [| | | | |raid o' p ms|]; try (by injection He as _ <-).
    set (b2 := prune_warned _ _) in *.
    pose proof (notify_resumed_steady raid d now (b2, a1)) as Hn.
    unfold state_of in Hn. unfold mbind, M_bind, update in He. simpl in He.
    unfold b2 in Hn. simpl in *. by rewrite He in Hn.
  - apply orb_false_iff in Happ as [-> Hna]. apply negb_false_iff in Hna.
    injection He as _ <-. split; [auto|]. right. auto.
Qed.

Lemma raid_event_tracks d now e (s : St) f :
  tracks s.1 f → admissible f (Raid.change e) →
  tracks (state_of (record_raid_event d now e) s).1 (apply_raid f (Raid.change e)).
Proof.
  intros [Hb He] Ha. destruct (raid_event_cases d now e s) as [Hm [[Hl Hadd]|(Hl & Hadd & Hf)]];
    split; rewrite Hl.
  - destruct (addition e) eqn:Hc; [|by apply below_removal].
    rewrite (He (Hadd eq_refl)). apply below_refl.
  - intros Hf. f_equal. apply He. destruct (failed s.1); [|done]. by rewrite Hm in Hf.
  - by apply below_skip.
  - by rewrite Hf.
Qed.
Lemma record_raid_tracks d now evs (s : St) f :
  tracks s.1 f → admissible_all f evs →
  tracks (state_of (record_raid evs d now) s).1 (replay f evs).
Proof.
  revert s f. induction evs as [|e evs IH]; intros s f Ht Ha; [done|]. destruct Ha as [Ha Has].
  pose proof (raid_event_tracks d now e s f Ht Ha) as He.
  destruct (record_raid_event_traced d now e s) as [Hp _].
  unfold record_raid, state_of, outcome_of in *. simpl. unfold mbind, M_bind.
  destruct (record_raid_event d now e s) as [[[]|x|] s1] eqn:Hr; simpl in *; [by apply IH| |done].
  by apply raid_event_never_errs in Hr.
Qed.

(** The raid events of a sequence of calls, in order. *)
Definition raid_events (cs : list Call) : list Raid.Event :=
  cs ≫= λ c, match c with CallRaids evs _ _ => evs | _ => [] end.

Lemma raid_events_app cs1 cs2 : raid_events (cs1 ++ cs2) = raid_events cs1 ++ raid_events cs2.
Proof. apply bind_app. Qed.
Lemma raid_events_none {X} (l : list X) (g : X → list Call) :
  (∀ x, raid_events (g x) = []) → raid_events (l ≫= g) = [].
Proof.
  intros Hg. induction l as [|x l IH]; [done|].
  change ((x :: l) ≫= g) with (g x ++ (l ≫= g)). by rewrite raid_events_app, Hg, IH.
Qed.

Lemma call_tracks c (s : St) f :
  tracks s.1 f →
  admissible_all f (match c with CallRaids evs _ _ => evs | _ => [] end) →
  tracks (run c s).1 (replay f (match c with CallRaids evs _ _ => evs | _ => [] end)).
Proof.
  intros Ht Ha. unfold run. destruct c; simpl in *;
    try (eapply tracks_steady; [|exact Ht]).
  - apply follows_ignore; [apply _|].
    apply execute_steady.
  - by apply record_raid_tracks.
  - apply record_operations_steady.
  - apply stop_recipient_steady.
  - apply record_steady.
Qed.
Lemma runs_tracks cs (s : St) f :
  tracks s.1 f → admissible_all f (raid_events cs) →
  tracks (runs cs s).1 (replay f (raid_events cs)).
Proof.
  revert s f. induction cs as [|c cs IH]; intros s f Ht Ha; [done|].
  unfold raid_events in *. simpl in *. apply admissible_app in Ha as [Ha Has].
  rewrite replay_app. apply IH; [by apply call_tracks|done].
Qed.

Lemma runs_below inst lim b (a : A) cs r :
  new inst lim = Ok b → history (raid_events cs) r →
  inv r ∧ tracks (runs cs (b, a)).1 (replay ∅ (raid_events cs)) ∧
  logs r (replay ∅ (raid_events cs)).
Proof.
  intros Hb Hh. destruct (history_logs _ _ Hh) as (Hi & Hl & Ha).
  split_and!; [done| |done]. apply runs_tracks; [|done].
  unfold new in Hb. case_match; [done|]. injection Hb as <-. split; simpl; [|done].
  intros k v. by rewrite lookup_empty.
Qed.

(** C11. The mailbox never grants membership the raid rules did not: after
    any calls, through any sink, that delivered the events of a run of the
    raid rules in order, a logged member is a member of that raid, and its
    view is paused whenever the raid is; and while no write failed the logged
    membership is exactly the raids'. *)
Theorem membership_never_exceeds_raids inst lim b (a : A) cs r :
  new inst lim = Ok b → history (raid_events cs) r →
  (∀ k v, logged (runs cs (b, a)).1 !! k = Some v →
     ∃ v', view r k = Some v' ∧ under v v') ∧
  (audit_failed (runs cs (b, a)).1 = false → raid_audit_failed (runs cs (b, a)).1 = false →
     ∀ k, logged (runs cs (b, a)).1 !! k = view r k).
Proof.
  intros Hb Hh. destruct (runs_below _ _ _ a _ _ Hb Hh) as (_ & [Hbl He] & Hl). split.
  - intros k v (v' & Hv' & Hu)%Hbl. exists v'. by rewrite <-Hl.
  - intros H1 H2 k. rewrite He; [apply Hl|]. unfold failed. by rewrite H1, H2.
Qed.

Lemma may_write_shares b f r actor k :
  inv r → tracks b f → logs r f → may_write b actor k → is_host actor = false →
  ∃ name rd, member_of r !! actor = Some name ∧ member_of r !! k = Some name ∧
    raids r !! name = Some rd ∧ paused rd = None.
Proof.
  intros [Hwf Hids] [Hbl _] Hl Hmay Hhost.
  destruct Hmay as [?|(v & Hv & Hp & _)]; [congruence|]. unfold shared_raid in Hv.
  destruct (logged _ !! actor) as [va|] eqn:Ha; simpl in Hv; [|done].
  destruct (logged _ !! k) as [vk|] eqn:Hk; simpl in Hv; [|done].
  unfold string_eqb in Hv. case_bool_decide as Hid; [|done]. injection Hv as <-.
  apply Hbl in Ha as (va' & Ha & [Hia _ Hpa]), Hk as (vk' & Hk & [Hik _ _]).
  rewrite Hl in Ha, Hk. rewrite Hia, Hik in Hid.
  apply view_Some in Ha as (na & ra & ma & Hna & Hra & Hma & ->).
  apply view_Some in Hk as (nk & rk & mk & Hnk & Hrk & Hmk & ->). simpl in *.
  assert (na = nk) as <- by (by apply (Hids na nk ra rk)). exists na, ra.
  split_and!; [done..|]. destruct (paused ra); [|done].
  rewrite bool_decide_true in Hpa by eauto. by rewrite Hpa in Hp.
Qed.

(** Whoever the mailbox lets write to a session shares a raid with it:
    if, after such calls, an actor that is not the host may write to [k], then
    the raid rules have both in one raid and that raid is not paused. *)
Theorem authorized_pairs_share_a_raid inst lim b (a : A) cs r actor k :
  new inst lim = Ok b → history (raid_events cs) r →
  may_write (runs cs (b, a)).1 actor k → is_host actor = false →
  ∃ name rd, member_of r !! actor = Some name ∧ member_of r !! k = Some name ∧
    raids r !! name = Some rd ∧ paused rd = None.
Proof.
  intros Hb Hh. destruct (runs_below _ _ _ a _ _ Hb Hh) as (Hi & Ht & Hl).
  by eapply may_write_shares.
Qed.
End ops.

(** A raid whose second member's event the log had no room for. *)
Definition pair_events : list Raid.Event :=
  match outcome_of (exec (OpInvite "r1" "review" ["a"; "b"] "host")) default_raids with
  | Ok es => es | _ => [] end.
Definition pair_raids : Raids :=
  state_of (exec (OpInvite "r1" "review" ["a"; "b"] "host")) default_raids.
Definition pair_calls : list Call := [CallRaids pair_events demo_directory 1].
Lemma pair_history : history (raid_events pair_calls) pair_raids.
Proof.
  apply (history_ok [] default_raids (OpInvite "r1" "review" ["a"; "b"] "host"));
    [constructor| |reflexivity].
  intros _ n r. simpl. by rewrite lookup_empty.
Qed.

Lemma membership_never_exceeds_raids_witness :
  let s := runs pair_calls ((demo_start 0).1, mkSink [] 1 Capacity) in
  logged s.1 !! "b" = None ∧ ∃ v v', logged s.1 !! "a" = Some v ∧
    view pair_raids "a" = Some v' ∧ under v v'.
Proof.
  destruct (membership_never_exceeds_raids _ _ _ (mkSink [] 1 Capacity) _ _ demo_new pair_history)
    as [Hb _].
  assert (∃ v, logged (runs pair_calls ((demo_start 0).1, mkSink [] 1 Capacity)).1 !! "a" = Some v)
    as [v Hv] by (eexists; by vm_compute).
  destruct (Hb "a" v Hv) as (v' & Hv' & Hu). split; [by vm_compute|].
  exact (ex_intro _ v (ex_intro _ v' (conj Hv (conj Hv' Hu)))).
Defined.
Lemma authorized_pairs_share_a_raid_witness :
  ∃ name rd, member_of pair_raids !! "a" = Some name ∧ member_of pair_raids !! "b" = Some name ∧
    raids pair_raids !! name = Some rd ∧ paused rd = None.
Proof.
  apply (authorized_pairs_share_a_raid _ _ _ (mkSink [] 9 Capacity) pair_calls _ "a" "b"
    demo_new pair_history); [|done].
  right. eexists. split; [by vm_compute|]. split; by vm_compute.
Defined.
