(* ===== verification/OperationNotices.v ===== *)
(** * Operation outcomes

    What [record_operations] promises: the memory of operations is bounded and
    coherent, and an outcome takes effect once, with one notice. *)
From S2P Require Import Prelude Json Raid RaidLog Operations Messages Mailbox MailboxSteps.
From S2P Require Import MailboxFacts MailboxInv MailboxExec MailboxFollows MailboxSpec.
From S2P Require Import CommandSpec.

(** What is remembered of operations. *)
Record memory (b : Mailbox) : Prop := {
  me_finished : finished b = list_to_set (finished_order b);
  me_nodup : NoDup (finished_order b);
  me_bound : (lenN (finished_order b) <= FINISHED)%N;
  me_operations : (N.of_nat (size (operations b)) <= OUTSTANDING)%N }.
Definition keeps_memory (b b' : Mailbox) : Prop := memory b → memory b'.
#[export] Instance keeps_memory_preorder : PreOrder keeps_memory.
Proof. split; [by intros b Hb|]. intros b1 b2 b3 H1 H2 H. by apply H2, H1. Qed.

Lemma remember_memory r b : r ∉ finished b → memory b → memory (remember_finished r b).
Proof.
  intros Hr [Hf Hnd Hb Ho]. unfold remember_finished.
  assert (FINISHED = 1024%N) as HF by done.
  destruct (N.leb_spec FINISHED (lenN (finished_order b))) as [Hge|Hlt].
  - destruct (finished_order b) as [|x order] eqn:Heq; [unfold lenN in Hge; simpl in Hge; lia|].
    rewrite Hf in Hr. apply NoDup_cons in Hnd as [Hx Hnd]. split; simpl; [|..|done].
    + rewrite Hf, list_to_set_app_L. simpl. rewrite (union_empty_r_L {[r]}).
      assert (x ∉ (list_to_set order : gset string)) by by rewrite elem_of_list_to_set. set_solver.
    + apply NoDup_app. split_and!; [done| |apply NoDup_singleton].
      intros y Hy ->%list_elem_of_singleton. apply Hr. rewrite elem_of_list_to_set. by right.
    + unfold lenN in *. rewrite length_app. simpl in *. lia.
  - split; simpl; [|..|done].
    + rewrite Hf, list_to_set_app_L. simpl. rewrite (union_empty_r_L {[r]}). set_solver.
    + apply NoDup_app. split_and!; [done| |apply NoDup_singleton].
      intros y Hy ->%list_elem_of_singleton. apply Hr. by rewrite Hf, elem_of_list_to_set.
    + unfold lenN in *. rewrite length_app. simpl. lia.
Qed.
Lemma size_pop_first {V} (m : gmap string V) : m ≠ ∅ → S (size (pop_first m)) = size m.
Proof.
  intros Hm. unfold pop_first. destruct (keys m) as [|k ks] eqn:Hk; [by apply keys_nil in Hk|].
  assert (is_Some (m !! k)) as [v Hv] by (apply elem_of_keys; rewrite Hk; left).
  rewrite map_size_delete_Some by eauto. assert (size m ≠ 0%nat); [|lia].
  by intros Hs%map_size_empty_iff.
Qed.
Lemma size_insert_le {V} (m : gmap string V) k v : (size (<[k := v]> m) <= S (size m))%nat.
Proof.
  destruct (m !! k) eqn:Hk; [rewrite map_size_insert_Some by eauto|rewrite map_size_insert_None by done];
    lia.
Qed.
Lemma size_delete_le {V} (m : gmap string V) k : (size (delete k m) <= size m)%nat.
Proof.
  destruct (m !! k) eqn:Hk; [rewrite map_size_delete_Some by eauto|rewrite map_size_delete_None by done];
    lia.
Qed.
Lemma requested_memory r o b : memory b → memory (set_operations
  (<[r := o]> (if (OUTSTANDING <=? N.of_nat (size (operations b)))%N
               then pop_first (operations b) else operations b)) b).
Proof.
  intros [Hf Hnd Hb Ho]. split; try done. simpl. assert (OUTSTANDING = 256%N) as HO by done.
  destruct (N.leb_spec OUTSTANDING (N.of_nat (size (operations b)))) as [Hge|Hlt].
  - assert (operations b ≠ ∅) as Hne by (intros He; rewrite He, map_size_empty in Hge; lia).
    pose proof (size_pop_first _ Hne) as Hp.
    pose proof (size_insert_le (pop_first (operations b)) r o). lia.
  - pose proof (size_insert_le (operations b) r o). lia.
Qed.
Lemma prune_memory c b : memory b → memory (prune_warned c b).
Proof. intros [? ? ? ?]. destruct c; simpl; try done. by case_match. Qed.

(** Each update keeps the memory coherent. *)
Ltac memory_update :=
  idtac; intros Hm; first
    [ by destruct Hm
    | by apply requested_memory
    | by apply prune_memory
    | destruct Hm as [? ? ? Ho]; split; try done; simpl;
      by rewrite <-size_dom, dom_alter_L, size_dom ].
Ltac memory_tac := follows_tac memory_update.

Section memory.
Context {A : Type} `{Audit A}.
Abbreviation St := (Mailbox * A)%type.

Lemma deliver_memory e kind subject status message notify d now :
  follows keeps_memory (deliver_completion e kind subject status message notify d now : M St Fault _).
Proof. unfold deliver_completion. memory_tac. Qed.
Lemma record_memory actor kind data now :
  follows keeps_memory (record actor kind data now : M St Fault unit).
Proof. unfold record. memory_tac. Qed.
Lemma operation_event_memory e data counted now :
  follows keeps_memory (operation_event e data counted now : M St Fault unit).
Proof. unfold operation_event. memory_tac. Qed.
Lemma requested_decided_memory e kind subject automatic approved now :
  follows keeps_memory (record_requested e kind subject automatic now : M St Fault unit) ∧
  follows keeps_memory (record_decided e approved now : M St Fault unit).
Proof. split; unfold record_requested, record_decided, operation_event; memory_tac. Qed.
End memory.

(** Only the log and its sequence may differ. *)
Record still (b b' : Mailbox) : Prop := {
  sl_messages : messages b' = messages b;
  sl_operations : operations b' = operations b;
  sl_finished : finished b' = finished b;
  sl_order : finished_order b' = finished_order b }.
#[export] Instance still_preorder : PreOrder still.
Proof. split; [done|]. intros b1 b2 b3 [] []. split; congruence. Qed.
Ltac still_tac := follows_tac ltac:(idtac; done).

Section completed.
Context {A : Type} `{Audit A} `{!AuditLaws A}.
Abbreviation St := (Mailbox * A)%type.

Lemma record_still actor kind data now : follows still (record actor kind data now : M St Fault unit).
Proof. unfold record. still_tac. Qed.
Lemma operation_event_still e data counted now :
  follows still (operation_event e data counted now : M St Fault unit).
Proof. unfold operation_event. still_tac. Qed.

#[local] Set Default Proof Using "All".

(** The notice of an outcome, and when it is queued. *)
Definition notice_of (b : Mailbox) (e : Operations.Event) (d : Directory) (now : N) : option Message :=
  match Operations.change e with
  | Operations.Completed kind subject status message _ =>
      Some (completion_notice b e kind subject status message d now)
  | _ => None
  end.
Definition deliverable (b : Mailbox) (d : Directory) (e : Operations.Event) (n : Message) : Prop :=
  match Operations.change e with
  | Operations.Completed _ _ _ _ notify => notify = true
  | _ => False
  end ∧ is_err (live d (Operations.session e)) = false ∧ audit_failed b = false ∧
  ∃ r, check_capacity b [n] = Ok r.

Lemma deliver_cases e kind subject status message notify d now b (a : A) :
  Operations.change e = Operations.Completed kind subject status message notify →
  let n := completion_notice b e kind subject status message d now in
  ∃ u b2 a2, deliver_completion e kind subject status message notify d now (b, a) =
      (Ok u, (b2, a2)) ∧
    (still b b2 ∧ ((∀ ev k, ∃ a', append ev k a = (Ok tt, a')) → ¬ deliverable b d e n) ∨
     u = None ∧ b2 = next_sequence (apply [n] b) ∧ deliverable b d e n).
Proof.
  intros He n. unfold deliver_completion, deliverable. rewrite He.
  unfold get_mailbox, mbind, M_bind. cbn [fst snd].
  destruct notify; simpl; [|by eexists _, b, a; split; [done|left; naive_solver]].
  destruct (is_err (live d (Operations.session e))) eqn:Hl;
    [by eexists _, b, a; split; [done|left; naive_solver]|].
  destruct (audit_failed b) eqn:Hb; [by eexists _, b, a; split; [done|left; naive_solver]|].
  fold n. destruct (check_capacity b [n]) as [r|x|] eqn:Hc;
    [|by eexists _, b, a; split; [done|left; naive_solver]..].
  unfold Operations.data. rewrite He. simpl. unfold try_append. simpl.
  match goal with |- context [append ?x1 ?x2 a] =>
    pose proof (append_total x1 x2 a) as Ht; destruct (append x1 x2 a) as [[[]|[]|] a'] eqn:Ha;
    assert ((∀ ev k, ∃ a', append ev k a = (Ok tt, a')) → ∃ a', append x1 x2 a = (Ok tt, a'))
      as Hok by eauto end; simpl.
  - eexists _, _, a'. split; [done|]. right. eauto 10.
  - eexists _, b, a'. split; [done|]. left. split; [done|]. rewrite Ha in Hok.
    intros Hall. by destruct (Hok Hall).
  - eexists _, _, a'. split; [done|]. left. split; [done|]. rewrite Ha in Hok.
    intros Hall. by destruct (Hok Hall).
  - unfold outcome_of in Ht. by rewrite Ha in Ht.
Qed.

Lemma deliver_memory_state e kind subject status message notify d now b (a : A) :
  memory b → memory (state_of (deliver_completion e kind subject status message notify d now) (b, a)).1.
Proof. intros Hm. by apply (deliver_memory e kind subject status message notify d now (b, a)). Qed.

(** The mailbox after a first outcome was taken note of. *)
Definition noted (r : string) (b : Mailbox) : Mailbox :=
  set_operations (delete r (operations (remember_finished r b))) (remember_finished r b).

Lemma completed_new e kind subject status message notify d now b (a : A) :
  Operations.change e = Operations.Completed kind subject status message notify →
  Operations.request e ∉ finished b →
  let b1 := noted (Operations.request e) b in
  let n := completion_notice b1 e kind subject status message d now in
  ∃ b2, (state_of (record_operation d now e) (b, a)).1 = b2 ∧
    (still b1 b2 ∧ ((∀ ev k, ∃ a', append ev k a = (Ok tt, a')) → ¬ deliverable b1 d e n) ∨
     b2 = next_sequence (apply [n] b1) ∧ deliverable b1 d e n).
Proof.
  intros He Hr b1 n. eexists. split; [done|].
  destruct (deliver_cases e kind subject status message notify d now b1 a He)
    as (u & b2 & a2 & Hd & Hcase).
  unfold record_operation. rewrite He. unfold state_of.
  destruct (record_completed e kind subject status message notify d now (b, a)) as [o s'] eqn:Hx.
  unfold record_completed, get_mailbox in Hx. unfold mbind, M_bind in Hx. cbn [fst snd] in Hx.
  rewrite bool_decide_false in Hx by done. cbn [update fst snd] in Hx.
  change (set_operations _ _) with b1 in Hx. rewrite Hd in Hx.
  destruct u as [reason|].
  - left. destruct Hcase as [[? ?]|(? & _)]; [|done]. split; [|done]. etrans; [done|].
    unfold Operations.data in Hx. rewrite He in Hx. simpl in Hx.
    rewrite <-Hx. apply (follows_ignore still _ (operation_event_still _ _ _ _) (b2, a2)).
  - injection Hx as _ <-. simpl. destruct Hcase as [?|(_ & -> & ?)]; auto.
Qed.

Lemma record_operation_memory d now e (s : St) :
  memory s.1 → memory (state_of (record_operation d now e) s).1.
Proof.
  destruct s as [b a]. intros Hm. unfold record_operation.
  destruct (Operations.change e) as [kind subject ? automatic|approved|kind subject status message notify] eqn:He.
  - by apply (requested_decided_memory e kind subject automatic true now).
  - by apply (requested_decided_memory e "" "" true approved now).
  - destruct (decide (Operations.request e ∈ finished b)) as [Hr|Hr].
    + unfold record_completed, get_mailbox, state_of, mbind, M_bind. cbn [fst snd].
      rewrite bool_decide_true by done.
      apply (follows_ignore keeps_memory _ (record_memory _ _ _ _) (b, a)). done.
    + destruct (completed_new e _ _ _ _ _ d now b a He Hr) as (b2 & Hb2 & Hcase).
      unfold record_operation in Hb2. rewrite He in Hb2. rewrite Hb2.
      assert (memory (noted (Operations.request e) b)) as Hn.
      { pose proof (remember_memory _ _ Hr Hm) as [? ? ? Ho]. split; try done. simpl.
        etrans; [|exact Ho]. pose proof (size_delete_le (operations (remember_finished
          (Operations.request e) b)) (Operations.request e)). lia. }
      destruct Hcase as [[[] _]|[-> _]]; destruct Hn; [split; congruence|by split].
Qed.

Lemma call_memory c (s : St) : memory s.1 → memory (run c s).1.
Proof.
  unfold run. destruct c as [actor command d now|evs d now|evs d now|r now|actor kind data now]; simpl.
  - assert (follows keeps_memory (execute actor command d now : M St Fault Value)) as Hf;
      [|apply (follows_ignore keeps_memory _ Hf)].
    unfold execute, execute_new, record, warn. memory_tac.
  - assert (follows keeps_memory (record_raid evs d now : M St Fault unit)) as Hf; [|apply Hf].
    unfold record_raid, record_raid_event, append_raid, notify_resumed, notify_one, record. memory_tac.
  - unfold record_operations. revert s. induction evs as [|e evs IH]; intros s Hm; [done|].
    pose proof (record_operation_memory d now e s Hm) as He. unfold state_of in *. simpl.
    unfold mbind, M_bind. destruct (record_operation d now e s) as [[[]|x|] s1]; [by apply IH|done..].
  - assert (follows keeps_memory (stop_recipient r now : M St Fault unit)) as Hf; [|apply Hf].
    unfold stop_recipient. memory_tac.
  - apply (record_memory actor kind data now s).
Qed.

(** The memory of operations is bounded and coherent: after any calls,
    through any sink, at most 256 operations are in progress, at most 1024
    finished requests are remembered, each once, and the set consulted for
    duplicates holds exactly the requests of that queue. *)
Theorem operation_memory_bounded inst lim (s : St) :
  reachable inst lim s →
  (N.of_nat (size (operations s.1)) <= 256)%N ∧ (lenN (finished_order s.1) <= 1024)%N ∧
  NoDup (finished_order s.1) ∧ finished s.1 = list_to_set (finished_order s.1).
Proof.
  intros (b & a & cs & Hb & _ & ->).
  assert (memory b) as Hm.
  { unfold new in Hb. case_match; [done|]. injection Hb as <-. split; simpl; [done|constructor|done|].
    by rewrite map_size_empty. }
  assert (∀ (s : St) cs, memory s.1 → memory (runs cs s).1) as Hruns.
  { intros s cs'. revert s. induction cs' as [|c cs' IH]; intros s Hs; [done|]. by apply IH, call_memory. }
  destruct (Hruns (b, a) cs Hm). done.
Qed.

(** An outcome takes effect once. The first outcome of a request ends
    its operation, is remembered, and appends at most one message, a queued
    notice to the requesting session that names the request and its status;
    when the session has an integration and runs, no write failed, there is
    room and the log accepts events, the notice is queued. A repeated outcome
    changes no message and no operation. *)
Theorem outcome_takes_effect_once inst lim b (a : A) e kind subject status message notify d now :
  reachable inst lim (b, a) → short (b, a) → (sequence b + 1 < u64_modulus)%N →
  Operations.change e = Operations.Completed kind subject status message notify →
  let r := Operations.request e in
  let b' := (state_of (record_operation d now e) (b, a)).1 in
  (r ∈ finished b → messages b' = messages b ∧ operations b' = operations b ∧ finished b' = finished b) ∧
  (r ∉ finished b →
     r ∈ finished b' ∧ operations b' !! r = None ∧
     let n := completion_notice b e kind subject status message d now in
     (messages b' = messages b ∧
        ((∀ ev k, ∃ a', append ev k a = (Ok tt, a')) → ¬ deliverable b d e n) ∨
      messages b' = messages b ++ [n] ∧ deliverable b d e n) ∧
     recipient n = Operations.session e ∧ sender n = NOTICE_SENDER ∧ state n = Queued ∧
     Messages.operation n = Some (mkOperation r kind subject status message)).
Proof.
  intros Hreach Hshort Hseq He r b'. destruct (mailbox_wf _ _ _ Hreach Hshort) as ([[Hlw _] _ _] & _).
  split; intros Hr.
  - subst b'. unfold record_operation. rewrite He.
    unfold record_completed, get_mailbox, state_of, mbind, M_bind. cbn [fst snd].
    rewrite bool_decide_true by done.
    destruct (follows_ignore (E' := Fault) still _ (record_still (Operations.session e) "operation.duplicate"
      (json_object [("request", String_ (Operations.request e)); ("status", String_ status)]) now)
      (b, a)); done.
  - destruct (completed_new e _ _ _ _ _ d now b a He Hr) as (b2 & Hb2 & Hcase). fold b' in Hb2.
    assert (∃ f o, remember_finished r b = set_finished ({[r]} ∪ f) o b) as (f & o & Hf).
    { unfold remember_finished. destruct (FINISHED <=? _)%N; [|eauto].
      destruct (finished_order b); eauto. }
    unfold noted in Hcase. fold r in Hcase. rewrite Hf in Hcase. simpl in Hcase. rewrite Hb2.
    split_and!; try done.
    + destruct Hcase as [[[_ _ -> _] _]|[-> _]]; simpl; set_solver.
    + destruct Hcase as [[[_ -> _ _] _]|[-> _]]; simpl; apply lookup_delete_eq.
    + cbv zeta. split_and!; try done.
      destruct Hcase as [[[Hm _ _ _] Hd]|[-> Hd]]; [left|right]; split; try done.
      simpl. unfold apply_messages. simpl. apply upsert_new.
      apply (fresh_not_in b Hlw Hseq); [done|].
      split; done.
Qed.
End completed.

Definition demo_outcome : Operations.Event :=
  Operations.mkEvent "host" "a" "r1" (Operations.Completed "exec" "make" "done" None true).
Lemma operation_memory_bounded_witness :
  let s := runs [CallOperations [demo_outcome] demo_directory 5] (demo 9) in
  (N.of_nat (size (operations s.1)) <= 256)%N ∧ finished s.1 = list_to_set (finished_order s.1).
Proof.
  destruct (operation_memory_bounded _ _ _ (demo_reachable 9
    [CallOperations [demo_outcome] demo_directory 5])) as (Ho & _ & _ & Hf).
  exact (conj Ho Hf).
Defined.
Lemma outcome_takes_effect_once_witness :
  let b' := (state_of (record_operation demo_directory 5 demo_outcome) (demo_b, demo_a)).1 in
  Operations.request demo_outcome ∈ finished b' ∧
  operations b' !! Operations.request demo_outcome = None.
Proof.
  assert (sequence demo_b + 1 < u64_modulus)%N as Hq by by vm_compute.
  destruct (outcome_takes_effect_once _ _ _ _ demo_outcome _ _ _ _ _ demo_directory 5 demo_pair
    demo_short Hq eq_refl) as [_ Hn].
  assert (Operations.request demo_outcome ∉ finished demo_b) as Hr.
  { assert (finished demo_b = ∅) as -> by by vm_compute. apply not_elem_of_empty. }
  destruct (Hn Hr) as (H1 & H2 & _). exact (conj H1 H2).
Defined.
