(* ===== verification/Journal.v ===== *)
(** * The communications log

    The journal of [packages/daemon/src/messaging.rs]: the audit sink that
    writes one line per event, the pages served from it, and the offline
    reader of its file. The file system and the JSON printer and parser are
    parameters. *)
From S2P Require Import Prelude Json Messages Mailbox.
From Stdlib Require Import Ascii.

Definition LOG_LIMIT : N := 128 * 1024 * 1024.
Definition PAGE_BYTES : N := 512 * 1024.
Definition NEWLINE : ascii := Ascii.ascii_of_N 10.
Abbreviation Bytes := (list ascii).

(** Operations of an open file: [write_all] and what was written so far. *)
Class File (F : Type) : Type := {
  write_all : Bytes → F → bool * F;
  contents : F → Bytes }.
(** A completed write appends its bytes. *)
Class FileLaws (F : Type) `{File F} : Prop := {
  write_all_ok line f f' : write_all line f = (true, f') → contents f' = contents f ++ line }.

(** The library's printer and parser of events. *)
Class EventJson : Type := {
  to_vec : Event → option Bytes;
  to_vec_error : Event → string;
  from_slice : Bytes → res string Event }.
(** Printing and parsing are inverse, and compact JSON holds no newline. *)
Class EventJsonLaws `{EventJson} : Prop := {
  from_to e line : to_vec e = Some line → from_slice line = Ok e;
  to_vec_line e line : to_vec e = Some line → line ≠ [] ∧ NEWLINE ∉ line }.

Section journal.
Context {F : Type} `{File F} `{EventJson}.

Record Journal := mkJournal { file : F; written : N; events : list Event }.

(** [Journal::append]. *)
Definition journal_append (e : Event) (reserved : N) : M Journal AuditError unit := λ j,
  match to_vec e with
  | None => (Err Unavailable, j)
  | Some line =>
      let line := line ++ [NEWLINE] in
      if (LOG_LIMIT <? written j + lenN line + reserved)%N then (Err Capacity, j) else
      match write_all line (file j) with
      | (false, f) => (Err Unavailable, mkJournal f (written j) (events j))
      | (true, f) => (Ok tt, mkJournal f (written j + lenN line) (events j ++ [e]))
      end
  end.

#[export] Instance journal_audit : Audit Journal := {|
  append := journal_append; accepted := events |}.
#[export] Instance journal_laws : AuditLaws Journal.
Proof.
  split; unfold outcome_of; simpl; unfold journal_append.
  - intros e n j. by repeat case_match.
  - intros e n j j'. repeat case_match; try done. by intros [= <-].
  - intros e n j x j'. repeat case_match; try done; by intros [= _ <-].
Qed.

(** The derived serializer of an event. *)
Definition event_value (e : Event) : Value :=
  json_object [("instance", String_ (ev_instance e)); ("sequence", json_u64 (ev_sequence e));
    ("timestamp", json_u64 (ev_timestamp e)); ("kind", String_ (ev_kind e));
    ("actor", String_ (ev_actor e)); ("sessions", json_strs (ev_sessions e));
    ("data", ev_data e)].

(** ** Pages *)
Record List_ := mkList { after : N; limit : N; list_session : option string }.

(** [target] as an ID, or as the name of the only running session with it. *)
Definition page_scope (directory : Directory) (session : option string) :
    res Fault (option string) :=
  match session with
  | None => Ok None
  | Some target =>
      if bool_decide (is_Some (directory !! target)) then Ok (Some target) else
      match filter (λ s, running s && string_eqb (agent_name s) target) (values directory) with
      | [] => Err (-32004, "session absent")%Z
      | [first] => Ok (Some (session_id first))
      | _ => Err (-32009, "ambiguous session; use its ID")%Z
      end
  end.
Definition contains (scope : option string) (id : string) : bool :=
  match scope with None => true | Some scope => string_eqb id scope end.
Definition shows (scope : option string) (e : Event) : bool :=
  contains scope (ev_actor e) || existsb (contains scope) (ev_sessions e).

(** The loop of [page] over the events past the cursor. *)
Fixpoint page_scan (scope : option string) (limit : N) (l : list Event) (found : list Event)
    (bytes cursor : N) : res Fault (list Event * N) :=
  match l with
  | [] => Ok (found, cursor)
  | e :: l =>
      if shows scope e then
        match to_vec e with
        | None => Err (-32009, to_vec_error e)%Z
        | Some line =>
            if (limit <=? lenN found)%N || (PAGE_BYTES <? bytes + lenN line)%N
            then Ok (found, cursor)
            else page_scan scope limit l (found ++ [e]) (bytes + lenN line) (ev_sequence e)
        end
      else page_scan scope limit l found bytes (ev_sequence e)
  end.

Definition page_value (found : list Event) (cursor : N) (scope : option string)
    (journal : list Event) : Value :=
  json_object [("events", Array (event_value <$> found)); ("cursor", json_u64 cursor);
    ("session", json_opt_str scope);
    ("latest", json_u64 (match last journal with Some e => ev_sequence e | None => 0%N end))].

Definition page (journal : list Event) (directory : Directory) (p : List_) : res Fault Value :=
  if (limit p =? 0)%N || (100 <? limit p)%N then Err (-32602, "limit must be 1..100")%Z else
  scope ← page_scope directory (list_session p);
  '(found, cursor) ← page_scan scope (limit p)
    (filter (λ e, (after p <? ev_sequence e)%N) journal) [] 0 (after p);
  Ok (page_value found cursor scope journal).

Lemma page_scan_total scope limit l found bytes cursor :
  page_scan scope limit l found bytes cursor ≠ Panic.
Proof. revert found bytes cursor. induction l; intros found bytes cursor; simpl; by repeat case_match. Qed.
Lemma page_total journal directory p : page journal directory p ≠ Panic.
Proof.
  unfold page, mbind, res_bind. case_match; [done|].
  destruct (page_scope directory (list_session p)) as [scope|e|] eqn:Hs; [|done|].
  - destruct (page_scan _ _ _ _ _ _) as [[]|x|] eqn:Hp; [done..|]. by apply page_scan_total in Hp.
  - unfold page_scope in Hs. by repeat case_match.
Qed.

(** ** The offline reader *)

(** [bytes.split(|b| *b == b'\n').filter(|line| !line.is_empty())]. *)
Fixpoint split_lines (line : Bytes) (l : Bytes) : list Bytes :=
  match l with
  | [] => [line]
  | b :: l => if Ascii.eqb b NEWLINE then line :: split_lines [] l else split_lines (line ++ [b]) l
  end.
Definition lines_of (l : Bytes) : list Bytes :=
  filter (λ line, line ≠ []) (split_lines [] l).

(** The last segment of [s] split at ['/']. *)
Fixpoint last_segment (segment : string) (l : Bytes) : string :=
  match l with
  | [] => segment
  | c :: l => if Ascii.eqb c "/" then last_segment "" l
              else last_segment (segment +:+ String c "") l
  end.
(** The agent name of a [session.started] event, or of the ownership path
    older logs carry. *)
Definition started_name (data : Value) : string :=
  match as_str (value_index data "agent_name") with
  | Some name => name
  | None => match as_str (value_index data "path") with
            | Some path => last_segment "" (bytes path)
            | None => ""
            end
  end.
Definition learn (e : Event) (known : Directory) : Directory :=
  if string_eqb (ev_kind e) "session.started"
  then <[ev_actor e := mkSession (ev_actor e) (started_name (ev_data e)) None true]> known
  else known.

Fixpoint read_events (lines : list Bytes) (events : list Event) (known : Directory) :
    res string (list Event * Directory) :=
  match lines with
  | [] => Ok (events, known)
  | line :: lines =>
      match from_slice line with
      | Err e => Err e
      | Panic => Panic
      | Ok e =>
          if negb (ev_sequence e =? lenN events + 1)%N ||
             match events with first :: _ => negb (string_eqb (ev_instance first) (ev_instance e))
                             | [] => false end
          then Err "communications log has a sequence gap or mixed instances"
          else read_events lines (events ++ [e]) (learn e known)
      end
  end.

(** The reading loop, with fuel for the pages; [None] when it runs out. *)
Fixpoint read_pages (fuel : nat) (events : list Event) (known : Directory)
    (session : option string) (after : N) (result : list Value) :
    option (res string (list Value)) :=
  match fuel with
  | O => None
  | S fuel =>
      match page events known (mkList after 100 session) with
      | Err (_, e) => Some (Err e)
      | Panic => Some Panic
      | Ok p =>
          match as_array (value_index p "events"), as_u64 (value_index p "cursor"),
                as_u64 (value_index p "latest") with
          | Some found, Some after, Some latest =>
              let result := result ++ found in
              if (latest <=? after)%N then Some (Ok result)
              else read_pages fuel events known session after result
          | _, _, _ => Some Panic
          end
      end
  end.

Definition selects (known : Directory) (session : option string) : bool :=
  match session with
  | None => true
  | Some id => bool_decide (is_Some (known !! id)) ||
               existsb (λ s, string_eqb (agent_name s) id) (values known)
  end.

(** [offline_log] on the bytes of the file. *)
Definition offline_log (fuel : nat) (content : Bytes) (session : option string) :
    option (res string (list Value)) :=
  let bytes := take (N.to_nat (LOG_LIMIT + 1)) content in
  if (LOG_LIMIT <? lenN bytes)%N ||
     match last bytes with Some b => negb (Ascii.eqb b NEWLINE) | None => false end
  then Some (Err "oversized or incomplete communications log") else
  match read_events (lines_of bytes) [] ∅ with
  | Err e => Some (Err e)
  | Panic => Some Panic
  | Ok (events, known) =>
      if selects known session then read_pages fuel events known session 0 []
      else Some (Err "offline session selection requires a session ID or agent name from session.started")
  end.
End journal.
