(* ===== verification/JournalSpec.v ===== *)
(** * What the communications log promises

    The file of a journal no write failed on is the log of the mailbox, line
    by line; a page serves a contiguous stretch of it; and the offline reader
    gives back every event, one page after another, unless one is longer than
    a page. *)
From S2P Require Import Prelude Json Raid RaidLog Operations Messages Mailbox MailboxSteps.
From S2P Require Import MailboxFacts MailboxInv MailboxSpec Journal.
From Stdlib Require Import Ascii.

Section journal.
Context {F : Type} `{FileLaws F} `{EventJsonLaws}.
#[local] Set Default Proof Using "All".
Abbreviation Journal := (@Journal F).

(** ** The file *)
Definition line_of (e : Event) : Bytes := default [] (to_vec e).
Definition log_bytes (l : list Event) : Bytes := concat ((λ e, line_of e ++ [NEWLINE]) <$> l).

Record journal_ok (j : Journal) : Prop := {
  jo_contents : Journal.contents (file j) = log_bytes (events j);
  jo_written : written j = lenN (log_bytes (events j));
  jo_limit : (written j <= LOG_LIMIT)%N;
  jo_printed : Forall (λ e, is_Some (to_vec e)) (events j) }.

Lemma log_bytes_snoc l e : log_bytes (l ++ [e]) = log_bytes l ++ line_of e ++ [NEWLINE].
Proof. unfold log_bytes. rewrite fmap_app, concat_app. simpl. by rewrite app_nil_r. Qed.

Lemma append_cases e n (j j' : Journal) :
  journal_append e n j = (Ok tt, j') → journal_ok j →
  journal_ok j' ∧ events j' = events j ++ [e] ∧ (written j' + n <= LOG_LIMIT)%N.
Proof.
  unfold journal_append. destruct (to_vec e) as [line|] eqn:Hl; [|done].
  destruct (N.ltb_spec LOG_LIMIT (written j + lenN (line ++ [NEWLINE]) + n)) as [|Hle]; [done|].
  destruct (write_all _ _) as [[] f] eqn:Hw; [|done]. intros [= <-] [Hc Hn Hlim Hp].
  apply write_all_ok in Hw.
  assert (line_of e = line) as He by (unfold line_of; by rewrite Hl).
  split_and!; [|done|simpl; lia]. split; simpl.
  - by rewrite Hw, Hc, log_bytes_snoc, He.
  - rewrite log_bytes_snoc, He, Hn. unfold lenN. rewrite (length_app (log_bytes _)). lia.
  - lia.
  - apply Forall_app. split; [done|]. apply Forall_singleton. by rewrite Hl.
Qed.
Lemma append_full e n (j j' : Journal) : journal_append e n j = (Err Capacity, j') → j' = j.
Proof.
  unfold journal_append. repeat case_match; try done. by intros [= <-].
Qed.

Definition empty_journal (f : F) : Journal := mkJournal f 0 [].
Lemma empty_ok f : Journal.contents f = [] → journal_ok (empty_journal f).
Proof. intros Hf. split; simpl; [done|done|done|constructor]. Qed.

Lemma runs_journal inst lim b f cs :
  new inst lim = Ok b → Journal.contents f = [] →
  let s := runs cs (b, empty_journal f) in
  audit_failed s.1 = false → journal_ok s.2.
Proof.
  intros Hb Hf s Hs. apply (sink_invariant journal_ok (b, empty_journal f) s); [| | |by intros _; apply empty_ok|done].
  - intros e n a a' Ha He. by destruct (append_cases e n a a' He Ha).
  - intros e n a a' Ha He. by apply append_full in He as ->.
  - apply runs_steps.
Qed.

Lemma log_length l : (length l <= length (log_bytes l))%nat.
Proof.
  induction l as [|e l IH]; [done|].
  change (log_bytes (e :: l)) with ((line_of e ++ [NEWLINE]) ++ log_bytes l).
  rewrite !length_app. simpl. lia.
Qed.

(** ** Reading lines back *)
Lemma split_lines_line acc line rest :
  NEWLINE ∉ line →
  split_lines acc (line ++ NEWLINE :: rest) = (acc ++ line) :: split_lines [] rest.
Proof.
  revert acc. induction line as [|c line IH]; intros acc Hn; simpl.
  - by rewrite app_nil_r.
  - apply not_elem_of_cons in Hn as [Hc Hn]. destruct (Ascii.eqb_spec c NEWLINE); [congruence|].
    rewrite IH by done. by rewrite <-app_assoc.
Qed.
Lemma lines_of_log l :
  Forall (λ e, is_Some (to_vec e)) l → lines_of (log_bytes l) = line_of <$> l.
Proof.
  unfold lines_of. induction 1 as [|e l [line He] Hl IH]; [done|].
  unfold log_bytes. simpl. fold (log_bytes l).
  assert (line_of e = line) as Hle by (unfold line_of; by rewrite He).
  destruct (to_vec_line _ _ He) as [Hne Hnl].
  rewrite <-app_assoc. simpl. rewrite split_lines_line by by rewrite Hle.
  rewrite filter_cons, decide_True by by rewrite Hle. by f_equal.
Qed.
Lemma last_log l : last (log_bytes l) = None ∨ last (log_bytes l) = Some NEWLINE.
Proof.
  destruct l as [|e l _] using rev_ind; [by left|right]. rewrite log_bytes_snoc, app_assoc.
  apply last_snoc.
Qed.

(** What the offline reader learns of the sessions of a log. *)
Definition learned (l : list Event) : Directory := foldl (λ known e, learn e known) ∅ l.

Lemma read_events_log inst pre l known :
  numbered inst (pre ++ l) → Forall (λ e, is_Some (to_vec e)) l →
  read_events (line_of <$> l) pre known =
    Ok (pre ++ l, foldl (λ known e, learn e known) known l).
Proof.
  revert pre known. induction l as [|e l IH]; intros pre known Hn Hp; simpl; [by rewrite app_nil_r|].
  apply Forall_cons in Hp as [[line He] Hp].
  assert (from_slice (line_of e) = Ok e) as ->.
  { unfold line_of. rewrite He. by apply from_to. }
  assert ((pre ++ e :: l) !! length pre = Some e) as Hat by by rewrite list_lookup_middle.
  destruct (Hn _ _ Hat) as [Hi Hs].
  assert ((ev_sequence e =? lenN pre + 1)%N = true) as -> by (apply N.eqb_eq; done). simpl.
  destruct pre as [|first pre]; simpl.
  - apply (IH [e]); done.
  - destruct (Hn 0%nat first eq_refl) as [Hi' _]. unfold string_eqb.
    rewrite bool_decide_true by congruence. simpl.
    rewrite (IH (first :: pre ++ [e])); [|simpl; rewrite <-app_assoc; exact Hn|done].
    simpl. by rewrite <-app_assoc.
Qed.

(** ** Pages *)
Definition shown (scope : option string) (l : list Event) : list Event :=
  filter (λ e, shows scope e) l.
Definition size_of (l : list Event) : N := foldr (λ e n, lenN (line_of e) + n)%N 0%N l.
Definition cursor_after (cursor : N) (l : list Event) : N :=
  match last l with Some e => ev_sequence e | None => cursor end.

Lemma cursor_after_cons c e l : cursor_after c (e :: l) = cursor_after (ev_sequence e) l.
Proof. unfold cursor_after. rewrite last_cons. by destruct (last l). Qed.
Lemma shown_cons scope e l :
  shown scope (e :: l) = if shows scope e then e :: shown scope l else shown scope l.
Proof. unfold shown. rewrite filter_cons. by destruct (shows scope e). Qed.
Lemma shown_app scope l1 l2 : shown scope (l1 ++ l2) = shown scope l1 ++ shown scope l2.
Proof. apply filter_app. Qed.

(** Why a page ended at [e] with [found] on it. *)
Definition page_full (limit : N) (found : list Event) (bytes : N) (e : Event) : Prop :=
  (limit <= lenN found)%N ∨ (PAGE_BYTES < bytes + lenN (line_of e))%N.

Lemma page_scan_spec scope limit l found bytes cursor :
  Forall (λ e, is_Some (to_vec e)) l → (lenN found <= limit)%N → (bytes <= PAGE_BYTES)%N →
  ∃ k, (k <= length l)%nat ∧
    page_scan scope limit l found bytes cursor =
      Ok (found ++ shown scope (take k l), cursor_after cursor (take k l)) ∧
    (lenN (found ++ shown scope (take k l)) <= limit)%N ∧
    (bytes + size_of (shown scope (take k l)) <= PAGE_BYTES)%N ∧
    (k = length l ∨ ∃ e, l !! k = Some e ∧ shows scope e = true ∧
       page_full limit (found ++ shown scope (take k l)) (bytes + size_of (shown scope (take k l))) e).
Proof.
  intros Hp. revert found bytes cursor.
  induction Hp as [|e l [line He] Hp IH]; intros found bytes cursor Hf Hb.
  { exists 0%nat. simpl. rewrite app_nil_r. split_and!; [lia|done|done|unfold size_of; simpl; lia|by left]. }
  assert (line_of e = line) as Hle by (unfold line_of; by rewrite He).
  assert (∀ k, cursor_after cursor (take (S k) (e :: l)) = cursor_after (ev_sequence e) (take k l)) as Hc
    by (intros k; apply cursor_after_cons).
  simpl page_scan. destruct (shows scope e) eqn:Hs.
  - rewrite He. destruct ((limit <=? lenN found)%N || (PAGE_BYTES <? bytes + lenN line)%N) eqn:Hfull.
    + exists 0%nat. simpl. rewrite app_nil_r, N.add_0_r.
      split_and!; [lia|done|done|done|]. right. exists e. split_and!; [done|done|].
      unfold page_full. rewrite Hle. apply orb_true_iff in Hfull as [?%N.leb_le|?%N.ltb_lt]; auto.
    + apply orb_false_iff in Hfull as [Hlim%N.leb_gt Hbytes%N.ltb_ge].
      destruct (IH (found ++ [e]) (bytes + lenN line)%N (ev_sequence e)) as (k & Hk & Hpg & Hk1 & Hk2 & Hk3);
        [unfold lenN in *; rewrite length_app; simpl; lia|done|].
      exists (S k). simpl take. rewrite shown_cons, Hs, cursor_after_cons. simpl.
      rewrite <-app_assoc in *. simpl in *. rewrite Hle, N.add_assoc.
      split_and!; [lia|done|done|done|]. destruct Hk3 as [->|Hk3]; [by left|by right].
  - destruct (IH found bytes (ev_sequence e)) as (k & Hk & Hpg & Hk1 & Hk2 & Hk3); [done|done|].
    exists (S k). simpl take. rewrite shown_cons, Hs, cursor_after_cons. simpl.
    split_and!; [lia|done|done|done|]. destruct Hk3 as [->|Hk3]; [by left|by right].
Qed.

(** The events past a cursor are the rest of the log. *)
Lemma filter_past inst l n :
  numbered inst l → filter (λ e, (N.of_nat n <? ev_sequence e)%N) l = drop n l.
Proof.
  intros Hn. rewrite <-(take_drop n l) at 1. rewrite filter_app.
  rewrite (filter_nil_ext _ (take n l)).
  - apply filter_all_in.
    intros e [i Hi]%list_elem_of_lookup. rewrite lookup_drop in Hi. destruct (Hn _ _ Hi) as [_ Hs].
    rewrite Is_true_true, N.ltb_lt. lia.
  - intros e [i Hi]%list_elem_of_lookup. apply lookup_take_Some in Hi as [Hi Hlt].
    destruct (Hn _ _ Hi) as [_ Hs]. rewrite Is_true_true, N.ltb_lt. lia.
Qed.
Lemma cursor_numbered inst l n k :
  numbered inst l → (n + k <= length l)%nat →
  cursor_after (N.of_nat n) (take k (drop n l)) = N.of_nat (n + k).
Proof.
  intros Hn Hk. unfold cursor_after. destruct k as [|k]; [by rewrite Nat.add_0_r|].
  rewrite last_lookup, length_take, length_drop.
  replace (pred (S k `min` (length l - n)))%nat with k by lia.
  rewrite lookup_take_lt by lia. rewrite lookup_drop.
  destruct (lookup_lt_is_Some_2 l (n + k)%nat) as [e He]; [lia|]. rewrite He.
  destruct (Hn _ _ He) as [_ ->]. lia.
Qed.

Lemma latest_numbered inst l : numbered inst l →
  match last l with Some e => ev_sequence e | None => 0%N end = lenN l.
Proof.
  intros Hn. rewrite last_lookup. destruct (l !! pred (length l)) as [e|] eqn:He.
  - destruct (Hn _ _ He) as [_ ->]. apply lookup_lt_Some in He. unfold lenN. lia.
  - apply lookup_ge_None in He. unfold lenN. lia.
Qed.

Lemma page_value_fields found c scope l :
  value_index (page_value found c scope l) "events" = Array (event_value <$> found) ∧
  value_index (page_value found c scope l) "cursor" = json_u64 c ∧
  value_index (page_value found c scope l) "latest" =
    json_u64 (match last l with Some e => ev_sequence e | None => 0%N end).
Proof. done. Qed.

Record page_of (l : list Event) (n : nat) (limit : N) (scope : option string) (k : nat) : Prop := {
  po_range : (n + k <= length l)%nat;
  po_limit : (lenN (shown scope (take k (drop n l))) <= limit)%N;
  po_bytes : (size_of (shown scope (take k (drop n l))) <= PAGE_BYTES)%N;
  po_end : (n + k)%nat = length l ∨ ∃ e, l !! (n + k)%nat = Some e ∧ shows scope e = true ∧
    page_full limit (shown scope (take k (drop n l))) (size_of (shown scope (take k (drop n l)))) e }.

Lemma page_run inst l d n lim session scope :
  numbered inst l → Forall (λ e, is_Some (to_vec e)) l → (n <= length l)%nat →
  (1 <= lim <= 100)%N → page_scope d session = Ok scope →
  ∃ k, page l d (mkList (N.of_nat n) lim session) =
      Ok (page_value (shown scope (take k (drop n l))) (N.of_nat (n + k)) scope l) ∧
    page_of l n lim scope k.
Proof.
  intros Hn Hp Hlen Hlim Hscope. unfold page. simpl.
  destruct (N.eqb_spec lim 0); [lia|]. destruct (N.ltb_spec 100 lim); [lia|]. simpl.
  rewrite Hscope. simpl. rewrite (filter_past inst) by done.
  destruct (page_scan_spec scope lim (drop n l) [] 0 (N.of_nat n)) as (k & Hk & -> & Hk1 & Hk2 & Hk3);
    [by apply Forall_drop|unfold lenN; simpl; lia|done|].
  rewrite length_drop in Hk, Hk3. exists k. simpl. rewrite (cursor_numbered inst) by (done || lia).
  split; [done|]. split; [lia|done|done|].
  destruct Hk3 as [->|(e & He & Hs & Hf)]; [left; lia|right].
  exists e. rewrite lookup_drop in He. done.
Qed.

Lemma read_pages_all inst l d session scope fuel n result :
  numbered inst l → Forall (λ e, is_Some (to_vec e)) l → (lenN l < u64_modulus)%N →
  (∀ e, e ∈ l → shows scope e = true → (lenN (line_of e) <= PAGE_BYTES)%N) →
  page_scope d session = Ok scope → (n <= length l)%nat → (length l - n < fuel)%nat →
  read_pages fuel l d session (N.of_nat n) result =
    Some (Ok (result ++ (event_value <$> shown scope (drop n l)))).
Proof.
  intros Hn Hp Hl64 Hfit Hscope. revert n result.
  induction fuel as [|fuel IH]; intros n result Hlen Hfuel; [lia|]. cbn [read_pages].
  destruct (page_run inst l d n 100 session scope) as (k & -> & [Hr Hk1 Hk2 Hend]); [done..|].
  assert (as_u64 (json_u64 (N.of_nat (n + k))) = Some (N.of_nat (n + k))) as Hc
    by (apply as_u64_json_u64; unfold lenN in Hl64; lia).
  assert (as_u64 (json_u64 (lenN l)) = Some (lenN l)) as Hlat by by apply as_u64_json_u64.
  destruct (page_value_fields (shown scope (take k (drop n l))) (N.of_nat (n + k)) scope l)
    as (-> & -> & ->).
  rewrite (latest_numbered inst) by done. rewrite Hc, Hlat. cbn [as_array].
  destruct (N.leb_spec (lenN l) (N.of_nat (n + k))) as [Hle|Hgt].
  - unfold lenN in Hle. rewrite take_ge; [done|]. rewrite length_drop. lia.
  - unfold lenN in Hgt. destruct Hend as [?|(e & He & Hs & Hf)]; [lia|].
    destruct k as [|k].
    { exfalso. destruct Hf as [Hf|Hf]; simpl in Hf; unfold lenN in *; simpl in Hf; [lia|].
      unfold size_of, shown in Hf. simpl in Hf.
      apply list_elem_of_lookup_2 in He. specialize (Hfit e He Hs). lia. }
    rewrite IH by lia. do 2 f_equal. rewrite <-app_assoc. f_equal.
    rewrite <-fmap_app, <-shown_app. do 2 f_equal.
    rewrite <-(take_drop (S k) (drop n l)) at 2. by rewrite drop_drop.
Qed.

(** C12. The log file reads back: after any calls on a new mailbox and an
    empty file, unless a write failed, the file is at most 128 MiB and holds
    one line per accepted event, and [offline_log] terminates on it and
    returns exactly the accepted events the selected session may see, in
    order, when each of them fits a page. *)
Theorem offline_log_reads_back inst lim b f cs session scope fuel :
  new inst lim = Ok b → Journal.contents f = [] →
  let s := runs cs (b, empty_journal f) in
  let log := events s.2 in
  audit_failed s.1 = false →
  page_scope (learned log) session = Ok scope → selects (learned log) session = true →
  (∀ e, e ∈ log → shows scope e = true → (lenN (line_of e) <= PAGE_BYTES)%N) →
  (length log < fuel)%nat →
  (lenN (Journal.contents (file s.2)) <= LOG_LIMIT)%N ∧
  lines_of (Journal.contents (file s.2)) = line_of <$> log ∧
  offline_log fuel (Journal.contents (file s.2)) session =
    Some (Ok (event_value <$> shown scope log)).
Proof.
  intros Hb Hf s log Ha Hscope Hsel Hfit Hfuel.
  destruct (runs_journal _ _ _ _ cs Hb Hf Ha) as [Hc Hw Hlim Hp]. fold s log in Hc, Hw, Hlim, Hp.
  rewrite Hc. pose proof (log_length log) as Hlen.
  assert (short s) as Hs.
  { unfold short. simpl. fold log. unfold LOG_LIMIT, u64_modulus, lenN in *. lia. }
  assert (numbered inst log) as Hn.
  { assert (reachable inst lim s) as Hr by (by exists b, (empty_journal f), cs).
    destruct (mailbox_wf _ _ _ Hr Hs) as ([_ _ Hn] & <- & _). exact Hn. }
  split_and!; [by rewrite <-Hw|by apply lines_of_log|].
  unfold offline_log.
  rewrite take_ge by (unfold lenN, LOG_LIMIT in *; lia).
  destruct (N.ltb_spec LOG_LIMIT (lenN (log_bytes log))); [lia|]. cbn [orb].
  assert (match last (log_bytes log) with Some b => negb (Ascii.eqb b NEWLINE) | None => false end
    = false) as -> by (by destruct (last_log log) as [->| ->]).
  rewrite lines_of_log by done. rewrite (read_events_log inst [] log) by done.
  fold (learned log). cbn [app]. rewrite Hsel.
  change 0%N with (N.of_nat 0).
  rewrite (read_pages_all inst _ _ _ scope _ 0) by (done || lia). by rewrite drop_0.
Qed.

(** A page is a contiguous stretch of the log: from a cursor [n], a page
    serves exactly the events of the next [k] that the scope shows, in order
    and each once, at most [limit] of them and 512 KiB, moves the cursor past
    those [k], and ends only at the end of the log or at an event to show that
    would not fit. *)
Theorem page_is_contiguous inst l d n lim session scope :
  numbered inst l → Forall (λ e, is_Some (to_vec e)) l → (n <= length l)%nat →
  (1 <= lim <= 100)%N → page_scope d session = Ok scope →
  ∃ k, page l d (mkList (N.of_nat n) lim session) =
      Ok (page_value (shown scope (take k (drop n l))) (N.of_nat (n + k)) scope l) ∧
    page_of l n lim scope k.
Proof. apply page_run. Qed.

(** C13. An event over 512 KiB stalls the reader: once the cursor stands
    before an event to show whose line is over the page size, every page is
    empty and leaves the cursor there, so the loop of [offline_log] never
    ends. *)
Theorem oversized_event_stalls inst l d n session scope e fuel result :
  numbered inst l → Forall (λ e, is_Some (to_vec e)) l → (lenN l < u64_modulus)%N →
  page_scope d session = Ok scope → l !! n = Some e → shows scope e = true →
  (PAGE_BYTES < lenN (line_of e))%N →
  read_pages fuel l d session (N.of_nat n) result = None.
Proof.
  intros Hn Hp Hl64 Hscope He Hs Hbig. pose proof (lookup_lt_Some _ _ _ He) as Hlt.
  assert (to_vec e = Some (line_of e)) as Hto.
  { rewrite Forall_lookup in Hp. destruct (Hp n e He) as [line Hline]. unfold line_of.
    by rewrite Hline. }
  assert (∀ r, page l d (mkList (N.of_nat n) 100 session) = r →
    r = Ok (page_value [] (N.of_nat n) scope l)) as Hpage.
  { intros r <-. unfold page. simpl. rewrite Hscope. simpl. rewrite (filter_past inst) by done.
    rewrite (drop_S _ _ _ He). simpl. rewrite Hs, Hto.
    rewrite N.add_0_l. destruct (N.ltb_spec PAGE_BYTES (lenN (line_of e))); [done|lia]. }
  revert result. induction fuel as [|fuel IH]; intros result; [done|]. cbn [read_pages].
  rewrite (Hpage _ eq_refl).
  destruct (page_value_fields [] (N.of_nat n) scope l) as (-> & -> & ->).
  rewrite (latest_numbered inst), !as_u64_json_u64 by (unfold lenN in *; done || lia).
  cbn [as_array]. destruct (N.leb_spec (lenN l) (N.of_nat n)); [unfold lenN in *; lia|]. apply IH.
Qed.
End journal.

(** ** At a concrete file, printer and log *)

(** A file in memory, with room for so many bytes. *)
Record MemFile := mkMemFile { mem : Bytes; room : N }.
#[export] Instance mem_file : File MemFile := {|
  write_all line f := if (lenN (mem f) + lenN line <=? room f)%N
                      then (true, mkMemFile (mem f ++ line) (room f)) else (false, f);
  contents := mem |}.
#[export] Instance mem_laws : FileLaws MemFile.
Proof. split. intros line f f'. simpl. case_match; [|done]. by intros [= <-]. Qed.

(** A printer for ticks of one session: the sequence, and [pad] bytes. *)
Definition tick (n : N) : Event := Mailbox.mkEvent demo_instance n 0 "tick" "a" ["a"] Null.
Definition tick_line (n : N) : Bytes := "e"%char :: bytes (show n).
Definition tick_number (line : Bytes) : N :=
  foldl (λ n c, (10 * n + (Ascii.N_of_ascii c - 48))%N) 0%N (tail line).
Definition printable (e : Event) : Prop :=
  e = tick (ev_sequence e) ∧ tick_number (tick_line (ev_sequence e)) = ev_sequence e ∧
  NEWLINE ∉ tick_line (ev_sequence e).
#[export] Instance printable_dec e : Decision (printable e).
Proof. unfold printable. apply _. Defined.
Definition ticks (pad : nat) : EventJson := {|
  to_vec e := if decide (printable e) then Some (tick_line (ev_sequence e) ++ replicate pad "x"%char)
              else None;
  to_vec_error _ := "not a tick";
  from_slice line := Ok (tick (tick_number (take (length line - pad) line))) |}.
Lemma unpad (l : Bytes) pad c :
  take (length (l ++ replicate pad c) - pad) (l ++ replicate pad c) = l.
Proof.
  rewrite length_app, length_replicate.
  replace (length l + pad - pad)%nat with (length l) by lia. apply take_app_length.
Qed.
Lemma ticks_laws pad : @EventJsonLaws (ticks pad).
Proof.
  split; cbn [to_vec from_slice ticks]; intros e line; case_decide as Hp; try done; intros Hline;
    assert (line = tick_line (ev_sequence e) ++ replicate pad "x"%char) as -> by congruence;
    destruct Hp as (He & Hn & Hnl).
  - rewrite unpad, Hn. by rewrite <-He.
  - split; [done|]. intros [Hin|Hin]%elem_of_app; [by apply Hnl|].
    by apply elem_of_replicate in Hin as [? _].
Qed.

Definition tick_calls : list Call :=
  [CallRecord "a" "tick" Null 0; CallRecord "a" "tick" Null 0; CallRecord "a" "tick" Null 0].
(** A journal of ticks, and what the calls leave in it. *)
Definition ticked : Mailbox * @Journal MemFile :=
  @runs _ (@journal_audit _ mem_file (ticks 0)) tick_calls
    ((demo_start 0).1, empty_journal (mkMemFile [] 4096)).
Lemma tick_lines : Forall (λ e, (lenN (@line_of (ticks 0) e) <= PAGE_BYTES)%N)
  [tick 1; tick 2; tick 3].
Proof. repeat constructor; by vm_compute. Qed.
Lemma offline_log_reads_back_witness :
  length (events ticked.2) = 3%nat ∧
  @offline_log (ticks 0) 9 (mem (file ticked.2)) None =
    Some (Ok (event_value <$> shown None (events ticked.2))).
Proof.
  assert (audit_failed ticked.1 = false) as Ha by by vm_compute.
  assert (events ticked.2 = [tick 1; tick 2; tick 3]) as He by by vm_compute.
  split; [by rewrite He|].
  assert (∀ e, e ∈ events ticked.2 → shows None e = true →
    (lenN (@line_of (ticks 0) e) <= PAGE_BYTES)%N) as Hfit.
  { rewrite He. intros e Hin _. by apply (proj1 (Forall_forall _ _) tick_lines). }
  assert (length (events ticked.2) < 9)%nat as Hfuel by (rewrite He; simpl; lia).
  exact (proj2 (proj2 (@offline_log_reads_back _ _ mem_laws _ (ticks_laws 0) _ _ _
    (mkMemFile [] 4096) tick_calls
    None None 9 demo_new eq_refl Ha eq_refl eq_refl Hfit Hfuel))).
Defined.

Lemma tick_log_numbered : numbered demo_instance [tick 1; tick 2; tick 3].
Proof. intros i e Hi. do 3 (destruct i as [|i]; [by injection Hi as <-|]). done. Qed.
Lemma tick_printed pad n : printable (tick n) →
  @to_vec (ticks pad) (tick n) = Some (tick_line n ++ replicate pad "x"%char).
Proof. intros Hp. cbn [to_vec ticks]. by rewrite decide_True. Qed.
Lemma tick_printable : Forall printable [tick 1; tick 2; tick 3].
Proof. apply (bool_decide_unpack _). by vm_compute. Qed.
Lemma tick_log_printed pad : Forall (λ e, is_Some (@to_vec (ticks pad) e)) [tick 1; tick 2; tick 3].
Proof.
  eapply Forall_impl; [exact tick_printable|]. intros e [-> Hp].
  eexists. apply tick_printed. by split.
Qed.

Lemma page_is_contiguous_witness :
  ∃ k, @page (ticks 0) [tick 1; tick 2; tick 3] ∅ (mkList 1 1 None) =
      Ok (page_value (shown None (take k (drop 1 [tick 1; tick 2; tick 3]))) (N.of_nat (1 + k)) None
            [tick 1; tick 2; tick 3]).
Proof.
  assert ((1 <= length [tick 1; tick 2; tick 3])%nat) as Hn by (simpl; lia).
  assert ((1 <= 1 <= 100)%N) as Hl by lia.
  destruct (@page_is_contiguous _ _ mem_laws _ (ticks_laws 0) _ _ ∅ 1 1 None None tick_log_numbered
    (tick_log_printed 0) Hn Hl eq_refl) as (k & Hp & _).
  exact (ex_intro _ k Hp).
Defined.
Lemma oversized_event_stalls_witness :
  @read_pages (ticks (N.to_nat PAGE_BYTES)) 1000 [tick 1; tick 2; tick 3] ∅ None 1 [] = None.
Proof.
  assert ((PAGE_BYTES < lenN (@line_of (ticks (N.to_nat PAGE_BYTES)) (tick 2)))%N) as Hbig.
  { unfold line_of. rewrite tick_printed.
    - change (PAGE_BYTES < N.of_nat (length (tick_line 2 ++
        replicate (N.to_nat PAGE_BYTES) "x"%char)))%N. rewrite length_app, length_replicate. unfold tick_line.
      rewrite Nat2N.inj_add, N2Nat.id. simpl length. lia.
    - by apply (Forall_lookup_1 _ _ 1 _ tick_printable). }
  assert ((lenN [tick 1; tick 2; tick 3] < u64_modulus)%N) as Hl by by vm_compute.
  exact (@oversized_event_stalls _ _ mem_laws _ (ticks_laws _) _ _ ∅ 1 None None (tick 2) 1000 []
    tick_log_numbered (tick_log_printed _) Hl eq_refl eq_refl eq_refl Hbig).
Defined.
