(* ===== verification/Worker.v ===== *)
(** * The messaging worker

    [State] of [packages/daemon/src/messaging.rs]: the mailbox, its log, the
    sessions the worker has seen and the report it last sent. [handle] is one
    unit of work, [finish] the orderly end. Every [now()] of one unit of work
    reads the same clock value here: the code only stores it. *)
From S2P Require Import Prelude Json Raid RaidLog Operations Messages Mailbox Journal.

Inductive Work :=
| WorkCall (connection : N) (id : Value) (actor method : string) (params : Value)
    (directory : Directory) (raids : list Raid.Event) (operations : list Operations.Event)
| WorkSync (directory : Directory) (raids : list Raid.Event) (operations : list Operations.Event).

Record Completed := mkCompleted {
  co_connection : N; co_id : Value; co_result : res Fault Value; co_actor : string }.

Record Report := mkReport { r_queued : gmap string N; r_health : Health }.
#[export] Instance Report_eq_dec : EqDecision Report.
Proof. solve_decision. Defined.

(** Decoding of [Get], [Empty] and [List]. *)
Definition decode_get (v : Value) : option string :=
  f ← struct_fields ["message"] v; field_str f "message".
Definition decode_empty (v : Value) : option unit :=
  _ ← struct_fields [] v; Some tt.
Definition field_u64_or (d : N) (f : string → option Value) (k : string) : option N :=
  match f k with None => Some d | Some v => as_u64 v end.
Definition decode_list (v : Value) : option List_ :=
  f ← struct_fields ["after"; "limit"; "session"] v;
  a ← field_u64_or 0 f "after"; l ← field_u64_or 100 f "limit";
  s ← field_opt_str f "session"; Some (mkList a l s).

Section worker.
Context {L : Type} `{Audit L} `{EventJson}.
(** The library's messages for values it cannot decode. *)
Context (serde_error : string → Value → string).

Record Worker := mkWorker {
  w_mailbox : Mailbox;
  w_journal : L;
  w_known : Directory;
  w_reported : Report }.

Definition new_worker (b : Mailbox) (j : L) : Worker :=
  mkWorker b j ∅ (mkReport ∅ (mkHealth false false)).

Definition mailbox_of (w : Worker) : Mailbox * L := (w_mailbox w, w_journal w).
Definition with_mailbox (s : Mailbox * L) (w : Worker) : Worker :=
  mkWorker s.1 s.2 (w_known w) (w_reported w).
Definition with_known (k : Directory) (w : Worker) : Worker :=
  mkWorker (w_mailbox w) (w_journal w) k (w_reported w).
(** A call on the mailbox and the journal. *)
Definition on_mailbox {A} (m : M (Mailbox * L) Fault A) : M Worker Fault A :=
  zoom mailbox_of with_mailbox m.
(** [let result = ..;]: a [Result] as a value. *)
Definition attempt {A} (m : M Worker Fault A) : M Worker Fault (res Fault A) := λ w,
  match m w with
  | (Panic, w') => (Panic, w')
  | (r, w') => (Ok r, w')
  end.

Definition changed_report : M Worker Fault (option Report) :=
  w ← get;
  let report := mkReport (queued (w_mailbox w)) (health (w_mailbox w)) in
  if bool_decide (report = w_reported w) then mret None else
  _ ← put (mkWorker (w_mailbox w) (w_journal w) (w_known w) report);
  mret (Some report).

Definition work_directory (work : Work) : Directory :=
  match work with WorkCall _ _ _ _ _ d _ _ | WorkSync d _ _ => d end.
Definition work_raids (work : Work) : list Raid.Event :=
  match work with WorkCall _ _ _ _ _ _ r _ | WorkSync _ r _ => r end.
Definition work_operations (work : Work) : list Operations.Event :=
  match work with WorkCall _ _ _ _ _ _ _ o | WorkSync _ _ o => o end.

Definition running_in (directory : Directory) (id : string) : bool :=
  match directory !! id with Some s => running s | None => false end.

(** The sessions that ran when last seen and do not now. *)
Definition newly_stopped (known directory : Directory) : list string :=
  session_id <$> filter (λ s, running s && negb (running_in directory (session_id s))) (values known).
Definition newly_started (known directory : Directory) : list (string * Session) :=
  filter (λ kv, known !! kv.1 = None) (entries directory).
Definition not_running (s : Session) : Session :=
  mkSession (session_id s) (agent_name s) (stop_reason s) false.
(** The directory now and the sessions it no longer lists, as stopped. *)
Definition learn_sessions (known directory : Directory) : Directory :=
  (λ s, if bool_decide (is_Some (directory !! session_id s)) then s else not_running s) <$>
    (directory ∪ known).

Definition record_started (now : N) (kv : string * Session) : M (Mailbox * L) Fault unit :=
  ignore (record kv.1 "session.started"
    (json_object [("agent_name", String_ (agent_name kv.2))]) now : M (Mailbox * L) Fault unit).
Definition record_stopped (directory : Directory) (now : N) (id : string) :
    M (Mailbox * L) Fault unit :=
  let reason := s ← directory !! id; stop_reason s in
  _ ← ignore (record id "session.exited" (json_object [("reason", json_opt_str reason)]) now
        : M (Mailbox * L) Fault unit);
  ignore (stop_recipient id now : M (Mailbox * L) Fault unit).

Definition decoded {A} (kind : string) (params : Value) (o : option A) : res Fault A :=
  match o with Some a => Ok a | None => Err (-32602, serde_error kind params)%Z end.

(** The call that a unit of work carries, after its batches. *)
Definition serve (actor method : string) (params : Value) (directory : Directory) (now : N) :
    M Worker Fault Value :=
  w ← get;
  if string_eqb method "messages.get" then
    lift (p ← decoded "Get" params (decode_get params);
          m ← get_message (w_mailbox w) actor p; Ok (message_value m))
  else if string_eqb method "inbox.status" then
    lift (_ ← decoded "Empty" params (decode_empty params); Ok (status (w_mailbox w) actor))
  else if string_eqb method "communications.list" && is_host actor then
    lift (p ← decoded "List" params (decode_list params);
          page (accepted (w_journal w)) (w_known w) p)
  else
    command ← lift (map_err (λ e, (-32602, e)%Z) (parse serde_error method params));
    on_mailbox (execute actor command directory now).

Definition handle (work : Work) (now : N) : M Worker Fault (option Completed) :=
  w ← get;
  let directory := work_directory work in
  let stopped := newly_stopped (w_known w) directory in
  _ ← on_mailbox (for_each (record_started now) (newly_started (w_known w) directory));
  _ ← modify (λ w, with_known (learn_sessions (w_known w) directory) w);
  _ ← on_mailbox (record_raid (work_raids work) directory now);
  _ ← on_mailbox (record_operations (work_operations work) directory now);
  _ ← on_mailbox (for_each (record_stopped directory now) stopped);
  match work with
  | WorkSync _ _ _ => mret None
  | WorkCall connection id actor method params directory _ _ =>
      result ← attempt (serve actor method params directory now);
      mret (Some (mkCompleted connection id result actor))
  end.

Definition finish (now : N) : M Worker Fault unit :=
  w ← get;
  on_mailbox (for_each (λ r, ignore (stop_recipient r now : M (Mailbox * L) Fault unit)
      : M (Mailbox * L) Fault unit)
    (keys (w_known w) ++ ["host"])).

(** The worker's loop over the work it receives. *)
Fixpoint work_loop (works : list (Work * N)) : M Worker Fault (list Completed) :=
  match works with
  | [] => mret []
  | (work, now) :: works =>
      completed ← handle work now;
      _ ← changed_report;
      rest ← work_loop works;
      mret (option_list completed ++ rest)
  end.
Definition service (works : list (Work * N)) (now : N) : M Worker Fault (list Completed) :=
  completed ← work_loop works; _ ← finish now; mret completed.
End worker.
