(* ===== verification/WorkerSpec.v ===== *)
(** * What the messaging worker promises

    A unit of work is a sequence of mailbox calls in the order the code makes
    them, so everything proved of mailbox calls holds of the worker. *)
From S2P Require Import Prelude Json Raid RaidFacts RaidLog RaidSpec Membership Operations.
From S2P Require Import Messages Mailbox MailboxSteps MailboxFacts MailboxInv MailboxExec.
From S2P Require Import MailboxFollows MailboxSpec MailboxRaids CommandSpec OperationNotices.
From S2P Require Import Journal JournalSpec Worker.

Section worker.
Context {L : Type} `{AuditLaws L} `{EventJson} (serde_error : string → Value → string).
#[local] Set Default Proof Using "All".
Abbreviation Worker := (@Worker L).
Abbreviation handle := (handle serde_error).
Abbreviation serve := (serve serde_error).
Abbreviation work_loop := (work_loop serde_error).

Lemma runs_app cs1 cs2 (s : Mailbox * L) : runs (cs1 ++ cs2) s = runs cs2 (runs cs1 s).
Proof. unfold runs. apply foldl_app. Qed.
Lemma mailbox_of_with s w : mailbox_of (with_mailbox s w : Worker) = s.
Proof. by destruct s. Qed.
Lemma mailbox_of_known k (w : Worker) : mailbox_of (with_known k w) = mailbox_of w.
Proof. done. Qed.

(** [record] and [stop_recipient] with their result dropped, as calls. *)
Lemma ignored_run {X} (m : M (Mailbox * L) Fault X) c s :
  (∀ s, state_of m s = run c s) → outcome_of m s ≠ Panic →
  (ignore m : M (Mailbox * L) Fault unit) s = (Ok tt, run c s).
Proof.
  intros Hm Hp. specialize (Hm s). unfold ignore, state_of, outcome_of in *.
  by destruct (m s) as [[x|e|] s']; simpl in *; subst.
Qed.
Lemma ignored_record actor kind data now (s : Mailbox * L) :
  (ignore (record actor kind data now : M (Mailbox * L) Fault unit) : M (Mailbox * L) Fault unit) s =
    (Ok tt, run (CallRecord actor kind data now) s).
Proof. apply ignored_run; [done|]. apply record_traced. Qed.
Lemma ignored_stop r now (s : Mailbox * L) :
  (ignore (stop_recipient r now : M (Mailbox * L) Fault unit) : M (Mailbox * L) Fault unit) s =
    (Ok tt, run (CallStop r now) s).
Proof. apply ignored_run; [done|]. apply stop_recipient_traced. Qed.

Lemma for_each_calls {X} (f : X → M (Mailbox * L) Fault unit) (g : X → list Call) l s :
  (∀ x s, f x s = (Ok tt, runs (g x) s)) → for_each f l s = (Ok tt, runs (l ≫= g) s).
Proof.
  intros Hf. revert s. induction l as [|x l IH]; intros s; [done|]. simpl.
  unfold mbind at 1, M_bind. rewrite Hf, IH. by rewrite runs_app.
Qed.

(** The calls of one unit of work before the call it carries. *)
Definition started_calls (now : N) (kv : string * Session) : list Call :=
  [CallRecord kv.1 "session.started" (json_object [("agent_name", String_ (agent_name kv.2))]) now].
Definition stopped_calls (directory : Directory) (now : N) (id : string) : list Call :=
  [CallRecord id "session.exited"
     (json_object [("reason", json_opt_str (s ← directory !! id; stop_reason s))]) now;
   CallStop id now].
Definition batch_calls (known : Directory) (work : Work) (now : N) : list Call :=
  let directory := work_directory work in
  (newly_started known directory ≫= started_calls now) ++
  [CallRaids (work_raids work) directory now; CallOperations (work_operations work) directory now] ++
  (newly_stopped known directory ≫= stopped_calls directory now).

Lemma record_raid_Ok evs d now (s : Mailbox * L) :
  record_raid evs d now s = (Ok tt, run (CallRaids evs d now) s).
Proof.
  unfold run, state_of. simpl. destruct (record_raid_traced evs d now s) as [Hp _].
  unfold outcome_of in Hp. destruct (record_raid evs d now s) as [[[]|e|] s'] eqn:Hr; [done| |done].
  exfalso. revert Hr. apply for_each_no_err. intros. apply raid_event_never_errs.
Qed.
Lemma record_operation_never_errs d now ev (s : Mailbox * L) e s' :
  record_operation d now ev s ≠ (Err e, s').
Proof.
  destruct s as [b a]. unfold record_operation, record_requested, record_decided, record_completed,
    get_mailbox. destruct (Operations.change ev) eqn:Hc; unfold mbind, M_bind; cbn [fst snd].
  - case_match; [done|]. unfold ignore. by destruct (operation_event _ _ _ _ _) as [[[]|x|] s1].
  - unfold ignore. by destruct (operation_event _ _ _ _ _) as [[[]|x|] s1].
  - case_match; [apply never_errs|]. cbn [update].
    destruct (deliver_cases ev kind subject status message notify d now
      (set_operations (delete (Operations.request ev) (operations (remember_finished (Operations.request ev) b)))
        (remember_finished (Operations.request ev) b)) a Hc) as (u & b2 & a2 & Hd & _).
    simpl. rewrite Hd. destruct u; [|done]. unfold Operations.data. rewrite Hc. simpl.
    apply never_errs.
Qed.
Lemma record_operations_Ok evs d now (s : Mailbox * L) :
  record_operations evs d now s = (Ok tt, run (CallOperations evs d now) s).
Proof.
  unfold run, state_of. simpl. destruct (record_operations_traced evs d now s) as [Hp _].
  unfold outcome_of in Hp. destruct (record_operations evs d now s) as [[[]|e|] s'] eqn:Hr; [done| |done].
  exfalso. revert Hr. apply for_each_no_err. intros. apply record_operation_never_errs.
Qed.

(** Running a call on the mailbox inside the worker. *)
Lemma on_mailbox_Ok {X} (m : M (Mailbox * L) Fault X) x s' (w : Worker) :
  m (mailbox_of w) = (Ok x, s') → on_mailbox m w = (Ok x, with_mailbox s' w).
Proof. unfold on_mailbox, zoom. by intros ->. Qed.

Definition after_batch (work : Work) (now : N) (w : Worker) : Worker :=
  let s := runs (batch_calls (w_known w) work now) (mailbox_of w) in
  mkWorker s.1 s.2 (learn_sessions (w_known w) (work_directory work)) (w_reported w).

Lemma record_stopped_run d now id (s : Mailbox * L) :
  record_stopped d now id s = (Ok tt, runs (stopped_calls d now id) s).
Proof. unfold record_stopped, mbind, M_bind. rewrite ignored_record. apply ignored_stop. Qed.

(** The rest of a unit of work: the call it carries. *)
Definition carried (work : Work) (now : N) : M Worker Fault (option Completed) :=
  match work with
  | WorkSync _ _ _ => mret None
  | WorkCall connection id actor method params directory _ _ =>
      result ← attempt (serve actor method params directory now);
      mret (Some (mkCompleted connection id result actor))
  end.

Lemma handle_batch work now (w : Worker) : handle work now w = carried work now (after_batch work now w).
Proof.
  destruct w as [b j known reported]. unfold Worker.handle, get, mbind. unfold M_bind at 1.
  cbn [w_known]. set (d := work_directory work).
  unfold M_bind at 1.
  rewrite (on_mailbox_Ok _ tt _ _ (for_each_calls _ (started_calls now) _ _
    (λ kv s, ignored_record _ _ _ _ s))).
  unfold M_bind at 1. unfold modify at 1. unfold M_bind at 1.
  rewrite (on_mailbox_Ok _ tt _ _ (record_raid_Ok _ _ _ _)).
  unfold M_bind at 1. rewrite (on_mailbox_Ok _ tt _ _ (record_operations_Ok _ _ _ _)).
  unfold M_bind at 1.
  rewrite (on_mailbox_Ok _ tt _ _ (for_each_calls _ (stopped_calls d now) _ _ (λ id s,
    record_stopped_run d now id s))).
  unfold carried, after_batch, batch_calls. cbn [w_known with_mailbox with_known].
  fold d. rewrite !runs_app. rewrite !mailbox_of_with, mailbox_of_known, mailbox_of_with. by destruct work.
Qed.

Lemma serve_calls actor method params d now (w : Worker) :
  ∃ r cs, attempt (serve actor method params d now) w =
      (Ok r, with_mailbox (runs cs (mailbox_of w)) w) ∧ raid_events cs = [].
Proof.
  assert (with_mailbox (mailbox_of w) w = w) as Hw by by destruct w.
  assert (∀ r : res Fault Value, r ≠ Panic → ∃ r' cs,
    attempt (lift r) w = (Ok r', with_mailbox (runs cs (mailbox_of w)) w) ∧ raid_events cs = []) as Hlift.
  { intros [v|e|] Hr; [exists (Ok v), []|exists (Err e), []|done]; (split; [|done]);
      unfold attempt, lift; simpl; by rewrite Hw. }
  unfold serve, get, attempt, mbind. unfold M_bind at 1.
  destruct (string_eqb method "messages.get"); [|destruct (string_eqb method "inbox.status");
    [|destruct (string_eqb method "communications.list" && is_host actor)]].
  - apply Hlift. unfold mbind, res_bind. destruct (decode_get params); simpl; [|done].
    unfold get_message. by destruct (find_message _ _).
  - apply Hlift. by destruct (decode_empty params).
  - apply Hlift. unfold mbind, res_bind. destruct (decode_list params) as [p|]; simpl; [|done].
    apply page_total.
  - unfold lift. unfold M_bind at 1. destruct (parse serde_error method params) as [c|e|] eqn:Hp; simpl.
    + unfold on_mailbox, zoom. destruct (execute_traced actor c d now (mailbox_of w)) as [Ht _].
      unfold outcome_of in Ht.
      assert (run (CallExecute actor c d now) (mailbox_of w) = (execute actor c d now (mailbox_of w)).2) as Hrun.
      { unfold run, state_of. simpl. unfold ignore.
        by destruct (execute actor c d now (mailbox_of w)) as [[v|e|] s']. }
      destruct (execute actor c d now (mailbox_of w)) as [[v|e|] s']; simpl in *; [| |done];
        [exists (Ok v)|exists (Err e)]; exists [CallExecute actor c d now]; (split; [|done]);
        simpl; by rewrite Hrun.
    + exists (Err (-32602, e)%Z), []. simpl. by rewrite Hw.
    + unfold parse in Hp. destruct (decode_mutation method params) as [m|]; [|done].
      destruct (validate m) eqn:Hv; [done..|]. exfalso. revert Hv.
      unfold validate, and_then, validate_claim, validate_body. by repeat case_match.
Qed.

(** The calls of a list of works, as the worker answers them. *)
Definition asked (works : list (Work * N)) : list (N * Value * string) :=
  works ≫= λ wn, match wn.1 with
    | WorkCall connection id actor _ _ _ _ _ => [(connection, id, actor)]
    | WorkSync _ _ _ => []
    end.
Definition answer_to (c : Completed) : N * Value * string :=
  (co_connection c, co_id c, co_actor c).

Lemma handle_calls work now (w : Worker) :
  ∃ o cs w', handle work now w = (Ok o, w') ∧ mailbox_of w' = runs cs (mailbox_of w) ∧
    raid_events cs = work_raids work ∧ answer_to <$> option_list o = asked [(work, now)].
Proof.
  assert (raid_events (batch_calls (w_known w) work now) = work_raids work) as Hb.
  { unfold batch_calls. rewrite !raid_events_app, !raid_events_none by done.
    unfold raid_events. simpl. by rewrite !app_nil_r. }
  rewrite handle_batch. unfold carried.
  assert (mailbox_of (after_batch work now w) = runs (batch_calls (w_known w) work now) (mailbox_of w))
    as Ha by (unfold after_batch, mailbox_of; simpl; by rewrite <-surjective_pairing).
  destruct work as [connection id actor method params d raids ops|d raids ops].
  - destruct (serve_calls actor method params d now (after_batch
      (WorkCall connection id actor method params d raids ops) now w)) as (r & cs & Hr & Hcs).
    eexists _, (batch_calls (w_known w) (WorkCall connection id actor method params d raids ops) now ++ cs), _.
    unfold mbind, M_bind. rewrite Hr. split; [done|].
    rewrite mailbox_of_with, runs_app, Ha. split; [done|].
    by rewrite raid_events_app, Hb, Hcs, app_nil_r.
  - eexists None, (batch_calls (w_known w) (WorkSync d raids ops) now), _. split; [done|].
    by rewrite Ha, Hb.
Qed.

Lemma work_loop_calls works (w : Worker) :
  ∃ completed cs w', work_loop works w = (Ok completed, w') ∧
    mailbox_of w' = runs cs (mailbox_of w) ∧
    raid_events cs = works ≫= (λ wn, work_raids wn.1) ∧ answer_to <$> completed = asked works.
Proof.
  revert w. induction works as [|[work now] works IH]; intros w; [by exists [], [], w|].
  cbn [Worker.work_loop].
  destruct (handle_calls work now w) as (o & cs1 & w1 & Hh & Hm1 & Hr1 & Ho).
  assert (∃ r w2, changed_report w1 = (Ok r, w2) ∧ mailbox_of w2 = mailbox_of w1) as (r & w2 & Hc & Hm2).
  { unfold changed_report, get, put, mbind, M_bind. case_bool_decide; [by eexists _, w1|by eexists _, _]. }
  destruct (IH w2) as (completed & cs2 & w3 & Hl & Hm3 & Hr2 & Ha).
  exists (option_list o ++ completed), (cs1 ++ cs2), w3.
  unfold mbind, M_bind. rewrite Hh, Hc, Hl. split; [done|].
  rewrite Hm3, Hm2, Hm1, runs_app. split; [done|].
  rewrite raid_events_app, Hr1, Hr2. split; [done|].
  rewrite fmap_app, Ho, Ha. unfold asked. simpl. by rewrite app_nil_r.
Qed.

(** C14. The worker is the mailbox: whatever works arrive, the worker never
    fails or panics, answers every call once and in order, and leaves the
    mailbox and log that some sequence of mailbox calls would leave, in which
    the raid events are those of the works, each once and in order. *)
Theorem worker_refines_mailbox works (w : Worker) :
  ∃ completed cs w', work_loop works w = (Ok completed, w') ∧
    mailbox_of w' = runs cs (mailbox_of w) ∧
    raid_events cs = works ≫= (λ wn, work_raids wn.1) ∧ answer_to <$> completed = asked works.
Proof. apply work_loop_calls. Qed.

(** ** The end of the worker *)
Definition always_accepting : Prop := ∀ (a : L) e n, ∃ a', append e n a = (Ok tt, a').
Definition fail_all (r : string) (l : list Message) : list Message :=
  (λ m, if decide (recipient m = r ∧ is_unresolved m) then fail_message m else m) <$> l.

Lemma fail_all_nothing r l :
  filter (λ m, recipient m = r ∧ is_unresolved m) l = [] → fail_all r l = l.
Proof.
  unfold fail_all. induction l as [|m l IH]; [done|]. rewrite filter_cons, fmap_cons.
  case_decide; [done|]. intros Hl. by rewrite IH.
Qed.
Lemma fail_all_ids r l : ids_of (fail_all r l) = ids_of l.
Proof.
  unfold ids_of, fail_all. rewrite <-list_fmap_compose. apply list_fmap_ext.
  intros i m _. simpl. by case_decide.
Qed.
Lemma fail_all_resolved r l : Forall (λ m, recipient m = r → is_unresolved m = false) (fail_all r l).
Proof.
  apply Forall_fmap, Forall_true. intros m. simpl. case_decide as Hd; [done|].
  intros Hr. apply not_true_iff_false. intros Hu. apply Hd. by rewrite Hu.
Qed.
Lemma fail_all_keeps r r' l :
  Forall (λ m, recipient m = r → is_unresolved m = false) l →
  Forall (λ m, recipient m = r → is_unresolved m = false) (fail_all r' l).
Proof.
  intros Hl. apply Forall_fmap. eapply Forall_impl; [exact Hl|]. intros m Hm. simpl. by case_decide.
Qed.

Lemma stop_run r now b (a : L) :
  always_accepting → audit_failed b = false → (sequence b + 1 < u64_modulus)%N →
  NoDup (ids_of (messages b)) →
  ∃ b' a', run (CallStop r now) (b, a) = (b', a') ∧ messages b' = fail_all r (messages b) ∧
    audit_failed b' = false ∧ (sequence b' <= sequence b + 1)%N.
Proof.
  intros Ha Hb Hq Hnd. unfold run, state_of. cbn [call].
  unfold stop_recipient, get_mailbox, mbind. unfold M_bind at 1. cbn [fst].
  destruct (filter _ (messages b)) as [|m l] eqn:Hl.
  { exists b, a. rewrite fail_all_nothing by done. split_and!; try done. simpl. lia. }
  rewrite Hb. unfold refuse. unfold M_bind at 1. cbn [mret M_ret].
  assert (u64_checked_add (sequence b) 1 = Some (sequence b + 1)%N) as Hs
    by by apply u64_checked_add_Some.
  rewrite Hs. unfold ok_or, M_bind. cbn [mret M_ret]. unfold try_append. cbn [fst snd].
  match goal with |- context [append ?x1 ?x2 a] => destruct (Ha a x1 x2) as [a' ->] end.
  cbn [update fst snd].
  eexists _, a'. split; [done|]. split; [|split; [done|simpl; lia]].
  unfold fail_all.
  rewrite <-(apply_messages_filter (λ m, recipient m = r ∧ is_unresolved m)) by done. by rewrite Hl.
Qed.

Lemma stops_run rs now b (a : L) :
  always_accepting → audit_failed b = false →
  (sequence b + lenN rs < u64_modulus)%N → NoDup (ids_of (messages b)) →
  let b' := (runs ((λ r, CallStop r now) <$> rs) (b, a)).1 in
  messages b' = foldl (λ l r, fail_all r l) (messages b) rs ∧ audit_failed b' = false.
Proof.
  intros Ha. revert b a. induction rs as [|r rs IH]; intros b a Hb Hq Hnd; [done|].
  assert (lenN (r :: rs) = (1 + lenN rs)%N) as Hlen by (unfold lenN; simpl; lia).
  destruct (stop_run r now b a) as (b1 & a1 & Hr & Hm & Hb1 & Hs1); [done|done|lia|done|].
  cbn [fmap list_fmap runs foldl]. fold (runs ((λ r, CallStop r now) <$> rs)).
  change (foldl (λ s c, run c s) (run (CallStop r now) (b, a)) (list_fmap _ _ (λ r, CallStop r now) rs))
    with (runs ((λ r, CallStop r now) <$> rs) (run (CallStop r now) (b, a))).
  rewrite Hr, <-Hm. apply IH; [done|lia|]. by rewrite Hm, fail_all_ids.
Qed.
Lemma fold_fail_resolved rs l r : r ∈ rs →
  Forall (λ m, recipient m = r → is_unresolved m = false) (foldl (λ l r, fail_all r l) l rs).
Proof.
  intros Hr. induction rs as [|x rs IH] using rev_ind; [by apply not_elem_of_nil in Hr|].
  rewrite foldl_app. simpl. apply elem_of_app in Hr as [Hr|Hr].
  - by apply fail_all_keeps, IH.
  - apply list_elem_of_singleton in Hr as ->. apply fail_all_resolved.
Qed.

(** The worker's end leaves no message waiting: while the log accepts
    events and no write failed, after [finish] no message to the host or to a
    session the worker has seen is queued or claimed. *)
Theorem finish_resolves_inboxes now (w : Worker) :
  always_accepting → audit_failed (w_mailbox w) = false → NoDup (id <$> messages (w_mailbox w)) →
  (sequence (w_mailbox w) + N.of_nat (size (w_known w)) + 1 < u64_modulus)%N →
  ∃ w', finish now w = (Ok tt, w') ∧ audit_failed (w_mailbox w') = false ∧
    ∀ m, m ∈ messages (w_mailbox w') →
      recipient m = "host" ∨ is_Some (w_known w !! recipient m) → is_unresolved m = false.
Proof.
  intros Ha Hb Hnd Hq. unfold finish, get, mbind. unfold M_bind at 1.
  set (rs := keys (w_known w) ++ ["host"]).
  assert (for_each (λ r, ignore (stop_recipient r now : M (Mailbox * L) Fault unit)
      : M (Mailbox * L) Fault unit) rs (mailbox_of w) =
    (Ok tt, runs ((λ r, CallStop r now) <$> rs) (mailbox_of w))) as Hf.
  { rewrite (for_each_calls _ (λ r, [CallStop r now])) by (intros; apply ignored_stop).
    by do 2 f_equal. }
  rewrite (on_mailbox_Ok _ tt _ _ Hf). eexists. split; [done|].
  destruct (stops_run rs now (w_mailbox w) (w_journal w)) as [Hm Hb']; [done|done| |done|].
  { unfold rs, lenN. rewrite length_app, length_keys. simpl. lia. }
  split; [done|]. intros m Hin Hr.
  change (m ∈ messages (runs ((λ r, CallStop r now) <$> rs) (w_mailbox w, w_journal w)).1) in Hin.
  rewrite Hm in Hin.
  assert (recipient m ∈ rs) as Hrs.
  { unfold rs. rewrite elem_of_app, elem_of_keys, list_elem_of_singleton. tauto. }
  pose proof (fold_fail_resolved rs (messages (w_mailbox w)) _ Hrs) as Hres.
  rewrite Forall_forall in Hres. by apply Hres.
Qed.
End worker.

(** ** Reports *)
Section reports.
Context {L : Type} `{Audit L}.

Lemma count_queued l (counts : gmap string N) k :
  default 0%N (foldl (λ counts m, <[recipient m := (default 0 (counts !! recipient m) + 1)%N]> counts)
    counts (filter is_queued l) !! k) =
  (default 0 (counts !! k) + lenN (filter (λ m, recipient m = k ∧ is_queued m) l))%N.
Proof.
  revert counts. induction l as [|m l IH]; intros counts; [unfold lenN; simpl; lia|].
  rewrite !filter_cons. destruct (is_queued m) eqn:Hq; simpl.
  - rewrite IH. destruct (decide (recipient m = k)) as [<-|Hk].
    + rewrite lookup_insert_eq, decide_True by done. unfold lenN. simpl. lia.
    + rewrite lookup_insert_ne by done. rewrite decide_False by tauto. done.
  - rewrite IH, decide_False; [done|]. by intros [_ []].
Qed.
Lemma queued_positive l (counts : gmap string N) k n :
  (∀ k n, counts !! k = Some n → (0 < n)%N) →
  foldl (λ counts m, <[recipient m := (default 0 (counts !! recipient m) + 1)%N]> counts)
    counts l !! k = Some n → (0 < n)%N.
Proof.
  revert counts. induction l as [|m l IH]; intros counts Hc; [by apply Hc|]. apply IH.
  intros k' n'. destruct (decide (recipient m = k')) as [<-|Hk].
  - rewrite lookup_insert_eq. intros [= <-]. lia.
  - rewrite lookup_insert_ne by done. apply Hc.
Qed.

(** Reports are exact and sent on change only: a recipient is listed
    with the number of its queued messages, and not at all when it has none;
    a report is sent exactly when it differs from the last one sent, and the
    worker remembers what it sent. *)
Theorem reports_follow_changes (w : @Worker L) :
  (∀ k n, queued (w_mailbox w) !! k = Some n ↔
     (0 < n)%N ∧ n = lenN (filter (λ m, recipient m = k ∧ is_queued m) (messages (w_mailbox w)))) ∧
  let report := mkReport (queued (w_mailbox w)) (health (w_mailbox w)) in
  ∃ w', changed_report w = (Ok (if decide (report = w_reported w) then None else Some report), w') ∧
    w_reported w' = report ∧ mailbox_of w' = mailbox_of w ∧ w_known w' = w_known w.
Proof.
  split.
  - intros k n. pose proof (count_queued (messages (w_mailbox w)) ∅ k) as Hc.
    fold (queued (w_mailbox w)) in Hc. rewrite lookup_empty in Hc. cbn [default] in Hc.
    split.
    + intros Hk. rewrite Hk in Hc. simpl in Hc. split; [|done].
      eapply (queued_positive _ ∅ k); [|exact Hk]. intros ? ?. by rewrite lookup_empty.
    + intros [Hn ->]. destruct (queued (w_mailbox w) !! k) as [x|]; simpl in Hc; [f_equal|]; lia.
  - simpl. unfold changed_report, get, put, mbind, M_bind.
    case_decide as Hd.
    + rewrite bool_decide_true by done. by exists w.
    + rewrite bool_decide_false by done. by eexists.
Qed.
End reports.

(** ** At a concrete worker *)
Definition demo_error (kind : string) (v : Value) : string := "cannot decode " +:+ kind.
Definition demo_worker : @Worker Endless := new_worker (demo_start 0).1 (mkEndless []).
Definition demo_works : list (Work * N) :=
  [(WorkSync demo_directory demo_raids [], 1%N);
   (WorkCall 7 (Number 1) "a" "messages.send"
      (json_object [("key", String_ "k1"); ("to", String_ "bob"); ("body", String_ "hello")])
      demo_directory [] [], 2%N)].
Lemma worker_refines_mailbox_witness :
  ∃ completed cs w', @work_loop _ _ (ticks 0) demo_error demo_works demo_worker = (Ok completed, w') ∧
    mailbox_of w' = runs cs (mailbox_of demo_worker) ∧ raid_events cs = demo_raids.
Proof.
  destruct (@worker_refines_mailbox _ _ endless_laws (ticks 0) demo_error demo_works demo_worker)
    as (completed & cs & w' & Hl & Hm & Hr & _).
  exact (ex_intro _ completed (ex_intro _ cs (ex_intro _ w' (conj Hl (conj Hm Hr))))).
Defined.
Definition demo_served : @Worker Endless :=
  state_of (@work_loop _ _ (ticks 0) demo_error demo_works) demo_worker.
Lemma finish_resolves_inboxes_witness :
  ∃ w', finish 9 demo_served = (Ok tt, w') ∧ audit_failed (w_mailbox w') = false.
Proof.
  assert (@always_accepting Endless _) as Ha by (intros a e n; by eexists).
  assert (audit_failed (w_mailbox demo_served) = false) as Hb by by vm_compute.
  assert (NoDup (id <$> messages (w_mailbox demo_served))) as Hnd
    by (apply (bool_decide_unpack _); by vm_compute).
  assert ((sequence (w_mailbox demo_served) + N.of_nat (size (w_known demo_served)) + 1
    < u64_modulus)%N) as Hq by by vm_compute.
  destruct (@finish_resolves_inboxes _ _ endless_laws (ticks 0) demo_error 9 demo_served Ha Hb Hnd Hq)
    as (w' & Hf & Hb' & _).
  exact (ex_intro _ w' (conj Hf Hb')).
Defined.
