(* ===== verification/Framing.v ===== *)
(** * JSON-RPC values and bounded framing

    [libs/jsonrpc/src/lib.rs]: the strict JSON reader, the request and reply
    envelopes, and the [Content-Length] decoder with its whole-frame deadline.
    The JSON parser and printer of the library, the texts of its errors and
    the socket are parameters. Times are milliseconds of a monotonic clock. *)
From S2P Require Import Prelude Json Grammar Messages.
From Stdlib Require Import Ascii.

Definition MAX_HEADER : N := 256.
Definition MAX_RPC_BODY : N := 1024 * 1024.
Definition TIMEOUT : N := 3000.
Definition MAX_DEPTH : N := 32.
Abbreviation Bytes := (list ascii).

(** ** Strict JSON *)

(** The visitor of [Unique] over the document the library's parser reports:
    members in their order in the text, repeated keys included. *)
Fixpoint unique (v : Value) : option Value :=
  match v with
  | Array l => Array <$> (fix go l := match l with
      | [] => Some []
      | v :: l => x ← unique v; xs ← go l; Some (x :: xs) end) l
  | Object o => Object <$> (fix go o acc := match o with
      | [] => Some acc
      | (k, v) :: o => x ← unique v;
          match object_get acc k with
          | Some _ => None
          | None => go o (object_insert k x acc)
          end
      end) o []
  | _ => Some v
  end.

Definition QUOTE : ascii := ascii_of_N 34.
Definition BACKSLASH : ascii := ascii_of_N 92.

(** [parse_with_limit]'s scan: nesting depth outside string literals. *)
Record Scan := mkScan { depth : N; quoted : bool; escaped : bool }.
Definition scan_start : Scan := mkScan 0 false false.
Definition scan_byte (s : Scan) (b : ascii) : option Scan :=
  if quoted s then
    Some (if escaped s then mkScan (depth s) true false
          else if is_byte BACKSLASH b then mkScan (depth s) true true
          else if is_byte QUOTE b then mkScan (depth s) false false
          else s)
  else if is_byte QUOTE b then Some (mkScan (depth s) true (escaped s))
  else if is_byte "["%char b || is_byte "{"%char b then
    if (MAX_DEPTH <? depth s + 1)%N then None
    else Some (mkScan (depth s + 1) (quoted s) (escaped s))
  else if is_byte "]"%char b || is_byte "}"%char b then
    Some (mkScan (u64_saturating_sub (depth s) 1) (quoted s) (escaped s))
  else Some s.
Fixpoint scan (s : Scan) (l : Bytes) : option Scan :=
  match l with
  | [] => Some s
  | b :: l => s' ← scan_byte s b; scan s' l
  end.

(** The library: the document of a JSON text, and the error for a text that
    is no JSON or repeats a key. *)
Class JsonText : Type := {
  from_bytes : Bytes → option Value;
  json_error : Bytes → string;
  to_bytes : Value → Bytes }.
Section json.
Context `{JsonText}.
Definition parse_with_limit (l : Bytes) (limit : N) : res string Value :=
  if (limit <? lenN l)%N then Err "body too large" else
  match scan scan_start l with
  | None => Err "JSON nesting exceeds 32"
  | Some _ => res_ok_or (v ← from_bytes l; unique v) (json_error l)
  end.
Definition parse_body (l : Bytes) : res string Value := parse_with_limit l MAX_RPC_BODY.
End json.

(** ** Envelopes *)
Definition request (id : Value) (method : string) (params : Value) : Value :=
  json_object [("jsonrpc", String_ "2.0"); ("id", id); ("method", String_ method);
    ("params", params)].
Definition result (id result : Value) : Value :=
  json_object [("jsonrpc", String_ "2.0"); ("id", id); ("result", result)].
Definition error (id : Value) (code : Z) (message : string) : Value :=
  json_object [("jsonrpc", String_ "2.0"); ("id", id);
    ("error", json_object [("code", Number code); ("message", String_ message)])].

Definition valid_id (id : Value) : bool :=
  match as_str id with
  | Some s => within 1 64 (strlen s) &&
      forallb (λ b, is_ascii_alphanumeric b || is_byte underscore b || is_byte hyphen b) (bytes s)
  | None => false
  end ||
  match as_u64 id with Some n => (n <=? 9007199254740991)%N | None => false end.

Record Call := mkCall { c_id : option Value; c_method : string; c_params : Value }.
(** The derived deserializer of [Call]: unknown fields are refused, [id] and
    [params] have defaults; a null [id] is an absent one. *)
Definition decode_call (v : Value) : option (string * Call) :=
  f ← match v with
      | Object o =>
          if forallb (λ kv, bool_decide (kv.1 ∈ ["jsonrpc"; "id"; "method"; "params"])) o
          then Some (object_get o) else None
      | Array l =>
          if (3 <=? length l)%nat && (length l <=? 4)%nat
          then Some (object_get (zip ["jsonrpc"; "id"; "method"; "params"] l)) else None
      | _ => None
      end;
  j ← field_str f "jsonrpc"; m ← field_str f "method";
  Some (j, mkCall (match f "id" with Some Null | None => None | Some i => Some i end) m
             (default (Object []) (f "params"))).
Section call.
Context `{JsonText}.
Definition call (l : Bytes) : res Value Call :=
  match parse_body l with
  | Err _ => Err (error Null (-32700) "invalid JSON")
  | Panic => Panic
  | Ok value =>
      if match value_get value "id" with Some v => is_null v | None => false end
      then Err (error Null (-32600) "null IDs are unsupported") else
      match decode_call value with
      | None => Err (error Null (-32600) "invalid request envelope")
      | Some (jsonrpc, c) =>
          if negb (string_eqb jsonrpc "2.0") || (64 <? strlen (c_method c))%N ||
             match c_id c with Some id => negb (valid_id id) | None => false end
          then Err (error Null (-32600) "invalid JSON-RPC version or ID")
          else Ok c
      end
  end.
End call.

(** [validate_response], its error texts kept apart. *)
Definition validate_error (error : Value) : res string unit :=
  match as_object error with
  | None => Err "invalid error"
  | Some fields =>
      if negb (bool_decide (is_Some (as_i64 (value_index error "code")))) ||
         negb (bool_decide (is_Some (as_str (value_index error "message")))) ||
         existsb (λ kv, negb (bool_decide (kv.1 ∈ ["code"; "message"; "data"]))) fields
      then Err "invalid RPC error" else Ok tt
  end.
Definition validate_response (reply id : Value) : res string unit :=
  match as_object reply with
  | None => Err "invalid response"
  | Some object =>
      if negb (lenN object =? 3)%N ||
         negb (bool_decide (value_index reply "jsonrpc" = String_ "2.0")) ||
         negb (bool_decide (value_index reply "id" = id)) ||
         Bool.eqb (bool_decide (is_Some (value_get reply "result")))
                  (bool_decide (is_Some (value_get reply "error")))
      then Err "invalid correlated response" else
      match value_get reply "error" with
      | Some error => validate_error error
      | None => Ok tt
      end
  end.

(** ** Text of a header *)
Definition CR : ascii := ascii_of_N 13.
Definition LF : ascii := ascii_of_N 10.
Definition CRLF : Bytes := [CR; LF].
Definition HEADER_END : Bytes := [CR; LF; CR; LF].

(** [str::from_utf8]: well-formed sequences only, without surrogates or
    overlong forms. *)
Definition cont (b : ascii) : bool := byte_in 128 191 b.
Fixpoint utf8_valid (l : Bytes) : bool :=
  match l with
  | [] => true
  | b0 :: l0 =>
      if byte_in 0 127 b0 then utf8_valid l0 else
      match l0 with
      | [] => false
      | b1 :: l1 =>
          if byte_in 194 223 b0 then cont b1 && utf8_valid l1 else
          match l1 with
          | [] => false
          | b2 :: l2 =>
              if byte_in 224 239 b0 then
                (if byte_in 224 224 b0 then byte_in 160 191 b1
                 else if byte_in 237 237 b0 then byte_in 128 159 b1 else cont b1) &&
                cont b2 && utf8_valid l2
              else
              match l2 with
              | [] => false
              | b3 :: l3 =>
                  byte_in 240 244 b0 &&
                  (if byte_in 240 240 b0 then byte_in 144 191 b1
                   else if byte_in 244 244 b0 then byte_in 128 143 b1 else cont b1) &&
                  cont b2 && cont b3 && utf8_valid l3
              end
          end
      end
  end.

(** [char::is_whitespace] and [str::trim]. *)
Definition is_whitespace (c : N) : bool :=
  within 9 13 c || (c =? 32)%N || (c =? 133)%N || (c =? 160)%N || (c =? 5760)%N ||
  within 8192 8202 c || (c =? 8232)%N || (c =? 8233)%N || (c =? 8239)%N || (c =? 8287)%N ||
  (c =? 12288)%N.
Fixpoint trim_start (l : list N) : list N :=
  match l with
  | [] => []
  | c :: l' => if is_whitespace c then trim_start l' else l
  end.
Definition trim (l : Bytes) : Bytes :=
  concat (utf8_encode <$> reverse (trim_start (reverse (trim_start (utf8_decode l))))).

(** [text.split("\r\n")]. *)
Fixpoint split_lines (line : Bytes) (l : Bytes) : list Bytes :=
  match l with
  | [] => [line]
  | b :: l0 =>
      match l0 with
      | b' :: l1 =>
          if is_byte CR b && is_byte LF b' then line :: split_lines [] l1
          else split_lines (line ++ [b]) l0
      | [] => split_lines (line ++ [b]) l0
      end
  end.
(** [line.split_once(':')]. *)
Fixpoint split_once (key : Bytes) (l : Bytes) : option (Bytes * Bytes) :=
  match l with
  | [] => None
  | b :: l => if is_byte ":"%char b then Some (key, l) else split_once (key ++ [b]) l
  end.
Definition to_lower (b : ascii) : ascii :=
  if is_ascii_uppercase b then ascii_of_N (N_of_ascii b + 32) else b.
Definition to_ascii_lowercase (l : Bytes) : Bytes := to_lower <$> l.
Definition eq_ignore_ascii_case (a b : Bytes) : bool :=
  bool_decide (to_ascii_lowercase a = to_ascii_lowercase b).
(** [value.parse::<usize>()] of a non-empty string of digits. *)
Definition digit_value (b : ascii) : N := (N_of_ascii b - 48)%N.
Definition decimal (l : Bytes) : N := foldl (λ n b, (n * 10 + digit_value b)%N) 0%N l.
Definition parse_usize (l : Bytes) : option N :=
  if (decimal l <? u64_modulus)%N then Some (decimal l) else None.

(** ** The decoder *)
Inductive FrameError := TimedOut | Malformed (message : string).
#[export] Instance FrameError_eq_dec : EqDecision FrameError.
Proof. solve_decision. Defined.

Record Decoder := mkDecoder {
  data : Bytes;
  body : option (N * N);
  deadline : option N;
  limit : N;
  allowed_headers : list Bytes;
  headers : gmap string string }.
Definition with_headers (limit : N) (start : option N) (allowed : list Bytes) : Decoder :=
  mkDecoder [] None ((λ n, n + TIMEOUT)%N <$> start) limit allowed ∅.
Definition new_decoder (limit : N) (start : option N) : Decoder := with_headers limit start [].

Definition text (l : Bytes) : string := String.string_of_list_ascii l.
Definition header (d : Decoder) (name : Bytes) : option string :=
  headers d !! text (to_ascii_lowercase name).
(** [offset + length - data.len()]; never negative while a frame is being read. *)
Definition remaining (d : Decoder) : N :=
  match body d with
  | Some (offset, length) => (offset + length - lenN (data d))%N
  | None => 1
  end.
Definition expired (d : Decoder) (now : N) : bool :=
  match deadline d with Some t => (t <=? now)%N | None => false end.

Definition set_data (l : Bytes) (d : Decoder) : Decoder :=
  mkDecoder l (body d) (deadline d) (limit d) (allowed_headers d) (headers d).
Definition set_body (b : option (N * N)) (d : Decoder) : Decoder :=
  mkDecoder (data d) b (deadline d) (limit d) (allowed_headers d) (headers d).
Definition set_deadline (t : option N) (d : Decoder) : Decoder :=
  mkDecoder (data d) (body d) t (limit d) (allowed_headers d) (headers d).
Definition set_headers (h : gmap string string) (d : Decoder) : Decoder :=
  mkDecoder (data d) (body d) (deadline d) (limit d) (allowed_headers d) h.

Definition CONTENT_LENGTH : Bytes := bytes "Content-Length".
Definition CONTENT_TYPE : Bytes := bytes "Content-Type".
Definition content_types : list Bytes :=
  [bytes "application/json"; bytes "application/vscode-jsonrpc; charset=utf-8"].

Abbreviation D := (M Decoder FrameError).

(** One line of the header, with the length and content type seen so far. *)
Definition header_line (seen : option N * bool) (line : Bytes) : D (option N * bool) :=
  '(key, value) ← ok_or (split_once [] line) (Malformed "invalid header");
  let value := trim value in
  d ← get;
  if eq_ignore_ascii_case key CONTENT_LENGTH && negb (bool_decide (is_Some seen.1)) &&
     negb (lenN value =? 0)%N && forallb is_ascii_digit value
  then n ← ok_or (parse_usize value) (Malformed "number too large to fit in target type");
       mret (Some n, seen.2)
  else if eq_ignore_ascii_case key CONTENT_TYPE && negb seen.2 &&
          bool_decide (value ∈ content_types)
  then mret (seen.1, true)
  else if existsb (eq_ignore_ascii_case key) (allowed_headers d) &&
          negb (bool_decide (is_Some (headers d !! text (to_ascii_lowercase key))))
  then _ ← put (set_headers (<[text (to_ascii_lowercase key) := text value]> (headers d)) d);
       mret seen
  else throw (Malformed "invalid or duplicate header").
Fixpoint header_lines (seen : option N * bool) (lines : list Bytes) : D (option N * bool) :=
  match lines with
  | [] => mret seen
  | line :: lines => seen ← header_line seen line; header_lines seen lines
  end.

(** The header block [data], complete with its blank line. *)
Definition read_header : D unit :=
  d ← get;
  _ ← refuse (negb (utf8_valid (data d))) (Malformed "invalid utf-8 sequence");
  seen ← header_lines (None, false)
           (split_lines [] (take (length (data d) - 4) (data d)));
  d ← get;
  match seen.1 with
  | Some n =>
      if (0 <? n)%N && (n <=? limit d)%N
      then put (set_body (Some (lenN (data d), n)) d)
      else throw (Malformed "invalid body length")
  | None => throw (Malformed "invalid body length")
  end.

Definition ends_with (suffix l : Bytes) : bool :=
  bool_decide (drop (length l - length suffix) l = suffix).

Definition complete (d : Decoder) : option Bytes :=
  match body d with
  | Some (offset, length) =>
      if (lenN (data d) =? offset + length)%N then Some (drop (N.to_nat offset) (data d)) else None
  | None => None
  end.
Definition push_byte (b : ascii) : D (option Bytes) :=
  _ ← modify (λ d, set_data (data d ++ [b]) d);
  d ← get;
  _ ← match body d with
      | None =>
          _ ← refuse (MAX_HEADER <? lenN (data d))%N (Malformed "header too large");
          if ends_with HEADER_END (data d) then read_header else mret tt
      | Some _ => mret tt
      end;
  d ← get;
  mret (complete d).
(** The rest of the bytes after [i] were taken. *)
Fixpoint push_bytes (i : N) (l : Bytes) : D (N * option Bytes) :=
  match l with
  | [] => mret (i, None)
  | b :: l =>
      done ← push_byte b;
      match (done : option Bytes) with
      | Some frame => mret (i + 1, Some frame)%N
      | None => push_bytes (i + 1)%N l
      end
  end.
Definition push (l : Bytes) (now : N) : D (N * option Bytes) :=
  _ ← modify (λ d, if negb (bool_decide (is_Some (deadline d))) && negb (lenN l =? 0)%N
                   then set_deadline (Some (now + TIMEOUT)%N) d else d);
  d ← get;
  _ ← refuse (expired d now) TimedOut;
  push_bytes 0 l.

(** ** Frames *)
Section frames.
Context `{JsonText}.

Definition frame_of (content : Bytes) : Bytes :=
  bytes ("Content-Length: " +:+ show (lenN content)) ++ HEADER_END ++ content.
Definition encode (v : Value) : res string Bytes :=
  let content := to_bytes v in
  if (MAX_RPC_BODY <? lenN content)%N then Err "output too large" else Ok (frame_of content).

(** What one [stream.read] answers, at what time. *)
Inductive Read := ReadBytes (l : Bytes) | Interrupted | ReadFailed (message : string).
Inductive ReadError := Timeout | UnexpectedEof | ReadMalformed (message : string).
Definition frame_error (e : FrameError) : ReadError :=
  match e with TimedOut => Timeout | Malformed m => ReadMalformed m end.

(** [read_started] over the answers of the socket: each asks for at most
    [room] bytes. [None]: the socket has not answered yet. *)
Definition READ_BUFFER : N := 8192.
Definition room (d : Decoder) : N := N.min READ_BUFFER (remaining d).
Fixpoint read_loop (d : Decoder) (deadline : option N) (answers : list (Read * N)) :
    option (res ReadError Value) :=
  match answers with
  | [] => None
  | (answer, now) :: answers =>
      match answer with
      | Interrupted =>
          if match deadline with Some t => (t <=? now)%N | None => false end
          then Some (Err Timeout) else read_loop d deadline answers
      | ReadFailed message => Some (Err (ReadMalformed message))
      | ReadBytes [] => Some (Err UnexpectedEof)
      | ReadBytes l =>
          let deadline := Some (default (now + TIMEOUT)%N deadline) in
          match push l now d with
          | (Ok (_, Some frame), _) => Some (map_err ReadMalformed (parse_body frame))
          | (Ok (_, None), d) => read_loop d deadline answers
          | (Err e, _) => Some (Err (frame_error e))
          | (Panic, _) => Some Panic
          end
      end
  end.
Definition read_started (start : option N) (answers : list (Read * N)) :
    option (res ReadError Value) :=
  read_loop (new_decoder MAX_RPC_BODY start) ((λ n, n + TIMEOUT)%N <$> start) answers.
End frames.
