(* ===== verification/FramingFacts.v ===== *)
(** * Facts about the text of a frame

    Decimal numbers, ASCII text and the splitting of a header, and how the
    decoder moves over bytes that neither end a header nor complete a body. *)
From S2P Require Import Prelude Json Grammar Messages Framing.
From Stdlib Require Import Ascii.

#[global] Arguments is_byte : simpl never.
#[global] Arguments CR : simpl never.
#[global] Arguments LF : simpl never.
#[global] Arguments trim : simpl never.
Lemma is_byte_ne c b : b ≠ c → is_byte c b = false.
Proof. intros Hb. apply Ascii.eqb_neq. congruence. Qed.
Lemma is_byte_refl c : is_byte c c = true.
Proof. apply Ascii.eqb_refl. Qed.

(** ** Decimal numbers *)
Lemma bytes_app a b : bytes (a +:+ b) = bytes a ++ bytes b.
Proof. unfold bytes. induction a as [|c a IH]; [done|]. simpl. by rewrite IH. Qed.
Lemma text_bytes s : text (bytes s) = s.
Proof. apply String.string_of_list_ascii_of_string. Qed.

Lemma digit_char x : (x < 10)%N →
  is_ascii_digit (pretty_N_char x) = true ∧ digit_value (pretty_N_char x) = x.
Proof.
  intros Hx. assert (x = 0 ∨ x = 1 ∨ x = 2 ∨ x = 3 ∨ x = 4 ∨ x = 5 ∨ x = 6 ∨ x = 7 ∨
    x = 8 ∨ x = 9)%N as Hc by lia.
  by repeat destruct Hc as [->|Hc]; try subst.
Qed.
Lemma decimal_snoc l b : decimal (l ++ [b]) = (decimal l * 10 + digit_value b)%N.
Proof. unfold decimal. by rewrite foldl_app. Qed.

(** The digits of a number, most significant first. *)
Record digits_of (x : N) (ds : Bytes) : Prop := {
  do_digits : forallb is_ascii_digit ds = true;
  do_value : decimal ds = x;
  do_zero : x = 0%N → ds = [];
  do_length : (0 < x)%N → (10 ^ (lenN ds - 1) <= x)%N }.

Lemma pretty_digits x s : ∃ ds, bytes (pretty_N_go x s) = ds ++ bytes s ∧ digits_of x ds.
Proof.
  revert s. induction (N.lt_wf_0 x) as [x _ IH]; intros s.
  destruct (decide (x = 0)%N) as [->|Hx].
  { exists []. rewrite pretty_N_go_0. split; [done|]. split; [done|done|done|lia]. }
  rewrite pretty_N_go_step by lia.
  destruct (IH (x `div` 10)%N ltac:(apply N.div_lt; lia)
    (String (pretty_N_char (x `mod` 10)) s)) as (ds & -> & [Hd Hv Hz Hl]).
  assert (x mod 10 < 10)%N as Hm by (apply N.mod_lt; lia).
  destruct (digit_char _ Hm) as [Hc1 Hc2].
  exists (ds ++ [pretty_N_char (x mod 10)%N]). rewrite <-app_assoc. split; [done|].
  assert (x = x / 10 * 10 + x mod 10)%N as Hx' by (rewrite N.mul_comm; apply N.div_mod'; lia).
  split.
  - rewrite forallb_app, Hd. simpl. by rewrite Hc1.
  - by rewrite decimal_snoc, Hv, Hc2.
  - lia.
  - intros _. unfold lenN in *. rewrite length_app. simpl.
    replace (_ - 1)%N with (N.of_nat (length ds)) by lia.
    destruct (decide (x / 10 = 0)%N) as [H0|H0]; [rewrite Hz by done; simpl; lia|].
    specialize (Hl ltac:(lia)). assert (ds ≠ []) as Hne by (intros ->; unfold decimal in Hv; simpl in Hv; congruence).
    destruct ds as [|c ds]; [done|]. simpl length in *.
    replace (N.of_nat (S (length ds))) with (N.succ (N.of_nat (S (length ds)) - 1)) by lia.
    rewrite N.pow_succ_r'. nia.
Qed.

Lemma show_digits n : ∃ ds, bytes (show n) = ds ∧ ds ≠ [] ∧ forallb is_ascii_digit ds = true ∧
  decimal ds = n ∧ (0 < n → 10 ^ (lenN ds - 1) <= n)%N.
Proof.
  unfold show, pretty, pretty_N. case_decide as Hn; [subst; by exists ["0"%char]|].
  destruct (pretty_digits n "") as (ds & -> & [Hd Hv Hz Hl]).
  exists ds. rewrite app_nil_r. split_and!; try done. intros ->. unfold decimal in Hv. simpl in Hv. congruence.
Qed.
(** A [u64] prints in at most 20 digits. *)
Lemma show_length n : (n < u64_modulus)%N → (lenN (bytes (show n)) <= 20)%N.
Proof.
  intros Hn. destruct (decide (n = 0)%N) as [->|Hn0]; [by vm_compute|].
  destruct (show_digits n) as (ds & -> & _ & _ & Hv & Hl). specialize (Hl ltac:(lia)).
  destruct (decide (lenN ds <= 20)%N) as [|Hlen]; [done|exfalso].
  assert (10 ^ 20 <= 10 ^ (lenN ds - 1))%N as Hp by (apply N.pow_le_mono_r; lia).
  change (10 ^ 20)%N with 100000000000000000000%N in Hp. unfold u64_modulus in Hn. lia.
Qed.

(** ** ASCII text *)
Definition is_ascii (b : ascii) : bool := byte_in 0 127 b.

Lemma utf8_decode_ascii l : forallb is_ascii l = true → utf8_decode l = N_of_ascii <$> l.
Proof.
  induction l as [|b l IH]; [done|]. cbn [forallb]. intros [Hb Hl]%andb_prop.
  unfold is_ascii, byte_in in Hb. apply andb_prop in Hb as [_ Hb%N.leb_le].
  cbn [utf8_decode]. rewrite (proj2 (N.ltb_lt _ _)) by lia. by rewrite IH.
Qed.
Lemma utf8_encode_ascii l : forallb is_ascii l = true →
  concat (utf8_encode <$> (N_of_ascii <$> l)) = l.
Proof.
  induction l as [|b l IH]; [done|]. cbn [forallb]. intros [Hb Hl]%andb_prop.
  unfold is_ascii, byte_in in Hb. apply andb_prop in Hb as [_ Hb%N.leb_le].
  cbn. unfold utf8_encode at 1. rewrite (proj2 (N.ltb_lt _ _)) by lia.
  rewrite ascii_N_embedding. simpl. f_equal. by apply IH.
Qed.
Lemma utf8_valid_ascii l : forallb is_ascii l = true → utf8_valid l = true.
Proof.
  induction l as [|b l IH]; [done|]. cbn [forallb]. intros [Hb Hl]%andb_prop.
  cbn [utf8_valid]. unfold is_ascii in Hb. rewrite Hb. by apply IH.
Qed.
Lemma digits_ascii l : forallb is_ascii_digit l = true → forallb is_ascii l = true.
Proof.
  rewrite !forallb_forall. intros Hl b Hb%Hl. unfold is_ascii_digit, is_ascii, byte_in in *.
  apply andb_prop in Hb as [_ Hb%N.leb_le]. apply andb_true_intro. split; apply N.leb_le; lia.
Qed.

(** A single space before non-blank ASCII text is trimmed away. *)
Lemma trim_start_solid l : (∀ c, head l = Some c → is_whitespace c = false) → trim_start l = l.
Proof. destruct l as [|c l]; [done|]. simpl. intros Hc. by rewrite Hc. Qed.
Definition solid (b : ascii) : bool := is_ascii b && negb (is_whitespace (N_of_ascii b)).
Lemma solid_ascii l : forallb solid l = true → forallb is_ascii l = true.
Proof.
  rewrite !forallb_forall. intros Hl b Hb%Hl. unfold solid in Hb. by apply andb_prop in Hb as [? _].
Qed.
Lemma solid_head l c : forallb solid l = true → head (N_of_ascii <$> l) = Some c →
  is_whitespace c = false.
Proof.
  destruct l as [|b l]; [done|]. simpl. intros [Hb _]%andb_prop [= <-].
  unfold solid in Hb. apply andb_prop in Hb as [_ Hb]. by apply negb_true_iff in Hb.
Qed.
Lemma trim_space l : forallb solid l = true → trim (" "%char :: l) = l.
Proof.
  intros Hl. unfold trim. rewrite utf8_decode_ascii by (simpl; by apply solid_ascii).
  cbn [fmap list_fmap trim_start]. change (is_whitespace (N_of_ascii " ")) with true. cbn iota.
  fold (fmap (M:=list) N_of_ascii l).
  rewrite (trim_start_solid (N_of_ascii <$> l)) by (intros c Hc; by eapply solid_head).
  rewrite trim_start_solid.
  - rewrite reverse_involutive. by apply utf8_encode_ascii, solid_ascii.
  - rewrite <-fmap_reverse. intros c Hc. apply (solid_head (reverse l)); [|done].
    rewrite forallb_forall in Hl |- *. intros b Hb. apply Hl.
    by apply list_elem_of_In, elem_of_reverse, list_elem_of_In.
Qed.
Lemma digits_solid l : forallb is_ascii_digit l = true → forallb solid l = true.
Proof.
  rewrite !forallb_forall. intros Hl b Hb%Hl. unfold is_ascii_digit, solid, is_ascii, byte_in in *.
  apply andb_prop in Hb as [Hlo%N.leb_le Hhi%N.leb_le].
  assert (is_whitespace (N_of_ascii b) = false) as ->.
  { unfold is_whitespace, within.
    repeat match goal with
    | |- context [(?x <=? ?y)%N] => destruct (N.leb_spec x y); try lia; simpl
    | |- context [(?x =? ?y)%N] => destruct (N.eqb_spec x y); try lia; simpl
    end; done. }
  rewrite andb_true_r. apply andb_true_intro. split; apply N.leb_le; lia.
Qed.

(** ** Lines of a header *)
Definition no_break (l : Bytes) : Prop := CR ∉ l.
Lemma split_lines_step line b l : b ≠ CR → split_lines line (b :: l) = split_lines (line ++ [b]) l.
Proof.
  intros Hb. unfold split_lines at 1. fold split_lines. destruct l as [|b' l]; [done|].
  by rewrite is_byte_ne by done.
Qed.
Lemma split_lines_one line l : no_break l → split_lines line l = [line ++ l].
Proof.
  revert line. induction l as [|b l IH]; intros line Hl; [by rewrite app_nil_r|].
  apply not_elem_of_cons in Hl as [Hb Hl]. rewrite split_lines_step, IH by done.
  by rewrite <-app_assoc.
Qed.
Lemma split_lines_two line l rest : no_break l →
  split_lines line (l ++ CRLF ++ rest) = (line ++ l) :: split_lines [] rest.
Proof.
  revert line. induction l as [|b l IH]; intros line Hl; [by rewrite app_nil_r|].
  apply not_elem_of_cons in Hl as [Hb Hl]. cbn [app]. rewrite split_lines_step, IH by done.
  by rewrite <-app_assoc.
Qed.
Lemma split_once_at key l value : ":"%char ∉ l → split_once key (l ++ ":"%char :: value) = Some (key ++ l, value).
Proof.
  revert key. induction l as [|b l IH]; intros key Hl; [by rewrite app_nil_r|].
  apply not_elem_of_cons in Hl as [Hb Hl]. simpl.
  rewrite is_byte_ne by done.
  rewrite IH by done. by rewrite <-app_assoc.
Qed.
Lemma eq_ignore_refl l : eq_ignore_ascii_case l l = true.
Proof. by apply bool_decide_eq_true. Qed.

(** ** How the decoder moves *)
#[global] Arguments push_byte : simpl never.

(** What reading a header leaves alone. *)
Record same_input (d d' : Decoder) : Prop := {
  si_data : data d' = data d;
  si_deadline : deadline d' = deadline d;
  si_limit : limit d' = limit d;
  si_allowed : allowed_headers d' = allowed_headers d }.
Lemma same_input_refl d : same_input d d.
Proof. done. Qed.
#[export] Instance same_input_trans : Transitive same_input.
Proof. intros d1 d2 d3 [] []. split; congruence. Qed.

Lemma header_line_same seen line d : same_input d (header_line seen line d).2 ∧
  body (header_line seen line d).2 = body d.
Proof.
  unfold header_line. munfold. destruct (split_once [] line) as [[key value]|]; simpl; [|done].
  repeat case_match; by simplify_eq/=.
Qed.
Lemma header_lines_same lines seen d : same_input d (header_lines seen lines d).2 ∧
  body (header_lines seen lines d).2 = body d.
Proof.
  revert seen d. induction lines as [|line lines IH]; intros seen d; [done|]. simpl.
  unfold mbind, M_bind. destruct (header_line_same seen line d) as [Hs Hb].
  destruct (header_line seen line d) as [[seen'|e|] d']; simpl in *; try done.
  destruct (IH seen' d') as [Hs' Hb']. split; [by etrans|congruence].
Qed.
Lemma read_header_same d : same_input d (read_header d).2 ∧
  match (read_header d).1 with
  | Ok _ => ∃ n, body (read_header d).2 = Some (lenN (data d), n) ∧ (0 < n <= limit d)%N
  | _ => body (read_header d).2 = body d
  end.
Proof.
  unfold read_header, get, mbind, M_bind. destruct (utf8_valid (data d)); [|done]. simpl.
  set (lines := split_lines _ _). pose proof (header_lines_same lines (None, false) d) as [Hs Hb].
  destruct (header_lines (None, false) lines d) as [[[[n|] ct]|e|] d']; simpl in *; try done.
  pose proof Hs as [Hd _ Hl _]. destruct (N.ltb_spec 0 n), (N.leb_spec n (limit d')); try done.
  simpl. split; [by destruct Hs|]. exists n. rewrite Hd. rewrite Hl in *. done.
Qed.

Lemma header_lines_no_panic lines seen d : (header_lines seen lines d).1 ≠ Panic.
Proof.
  revert seen d. induction lines as [|line lines IH]; intros seen d; [done|]. simpl.
  unfold mbind, M_bind. destruct (header_line seen line d) as [[x|e|] d1] eqn:Hl; [apply IH|done|].
  exfalso. revert Hl. unfold header_line. munfold.
  destruct (split_once [] line) as [[k v]|]; simpl; [|done]. by repeat case_match.
Qed.
Lemma read_header_no_panic d : (read_header d).1 ≠ Panic.
Proof.
  unfold read_header, get, mbind, M_bind, refuse. destruct (negb _); [done|]. simpl.
  set (lines := split_lines _ _). pose proof (header_lines_no_panic lines (None, false) d) as Hp.
  destruct (header_lines _ _ _) as [[[[n|] ct]|e|] d1]; simpl in *; try done.
  by destruct (_ && _).
Qed.

(** A decoder between two reads: the header or the body is incomplete. *)
Definition reading (d : Decoder) : Prop :=
  match body d with
  | None => (lenN (data d) <= MAX_HEADER)%N
  | Some (offset, length) =>
      (offset <= MAX_HEADER ∧ 0 < length <= limit d ∧ offset <= lenN (data d) < offset + length)%N
  end.
Lemma lenN_snoc {A} (l : list A) x : lenN (l ++ [x]) = (lenN l + 1)%N.
Proof. unfold lenN. rewrite length_app. simpl. lia. Qed.

Lemma lenN_cons {A} x (l : list A) : lenN (x :: l) = (1 + lenN l)%N.
Proof. unfold lenN. simpl. lia. Qed.

(** One byte: what it may change, and what it completes. *)
Lemma push_byte_cases b d : reading d →
  let d' := (push_byte b d).2 in
  data d' = data d ++ [b] ∧ deadline d' = deadline d ∧ limit d' = limit d ∧
  match (push_byte b d).1 with
  | Ok None => reading d'
  | Ok (Some frame) => ∃ offset, body d' = Some (offset, lenN frame) ∧
      (0 < lenN frame <= limit d)%N ∧ (offset <= MAX_HEADER)%N ∧
      data d' = take (N.to_nat offset) (data d') ++ frame
  | Err _ => True
  | Panic => False
  end.
Proof.
  intros Hr. unfold push_byte, modify, get, mbind, M_bind. cbn [fst snd].
  destruct (body d) as [[o n]|] eqn:Hb.
  - cbn [body set_data]. rewrite Hb. unfold reading in Hr. rewrite Hb in Hr.
    unfold mret, M_ret. cbn. unfold complete, reading. cbn. rewrite Hb, lenN_snoc.
    destruct (N.eqb_spec (lenN (data d) + 1) (o + n)); split_and!; try done; try lia.
    exists o. assert (lenN (drop (N.to_nat o) (data d ++ [b])) = n) as ->.
    { unfold lenN. rewrite length_drop. pose proof (lenN_snoc (data d) b) as Hl. unfold lenN in *. lia. }
    split_and!; [done|lia..|]. by rewrite take_drop.
  - cbn [body set_data]. rewrite Hb. cbn [data set_data].
    unfold refuse. destruct (N.ltb_spec MAX_HEADER (lenN (data d ++ [b]))); [done|].
    unfold mret, M_ret. destruct (ends_with HEADER_END (data d ++ [b])) eqn:He.
    + pose proof (read_header_same (set_data (data d ++ [b]) d)) as [[Hd Ht Hl Ha] Hbody].
      destruct (read_header _) as [[[]|e|] d'] eqn:Hrh; cbn in *; try done.
      * destruct Hbody as (n & Hbody & Hn). unfold complete. rewrite Hbody, Hd.
        destruct (N.eqb_spec (lenN (data d ++ [b])) (lenN (data d ++ [b]) + n)); [lia|].
        split_and!; try done. unfold reading. rewrite Hbody, Hd, Hl. lia.
      * pose proof (read_header_no_panic (set_data (data d ++ [b]) d)) as Hp. by rewrite Hrh in Hp.
    + cbn. unfold complete. cbn. rewrite Hb. split_and!; try done. unfold reading. cbn. by rewrite Hb.
Qed.

(** *** Bytes that complete nothing *)
Fixpoint blank_line (l : Bytes) : bool :=
  match l with
  | b :: ((b' :: _) as l') => (is_byte LF b && is_byte CR b') || blank_line l'
  | _ => false
  end.
Lemma blank_line_at a b : blank_line (a ++ LF :: CR :: b) = true.
Proof.
  induction a as [|x a IH]; [done|]. simpl. destruct (a ++ LF :: CR :: b) eqn:Ha; [by destruct a|].
  rewrite IH. apply orb_true_r.
Qed.
Lemma blank_line_skip l r : LF ∉ l → blank_line (l ++ r) = blank_line r.
Proof.
  induction l as [|b l IH]; [done|]. intros [Hb Hl]%not_elem_of_cons. simpl.
  destruct (l ++ r) as [|b' l'] eqn:Hlr.
  - by apply app_eq_nil in Hlr as [_ ->].
  - rewrite (is_byte_ne LF b) by done. simpl. by apply IH.
Qed.
Lemma blank_line_break r : head r ≠ Some CR → blank_line (CRLF ++ r) = blank_line r.
Proof.
  intros Hr. change (blank_line (CRLF ++ r)) with (blank_line (LF :: r)).
  destruct r as [|b r]; [done|]. cbn [blank_line].
  rewrite (is_byte_ne CR b), andb_false_r; [done|]. intros ->. by apply Hr.
Qed.

(** A header without a blank line is ended only by its last byte. *)
Lemma header_unended p q b r : blank_line (p ++ CRLF) = false → q ++ b :: r = p ++ HEADER_END →
  ends_with HEADER_END q = false.
Proof.
  intros Hp Hq. unfold ends_with. apply bool_decide_eq_false. intros He.
  pose proof (take_drop (length q - length HEADER_END) q) as Ha. rewrite He in Ha.
  set (a := take _ q) in *. rewrite <-Ha in Hq.
  assert (∃ c1 c2 r', b :: r = r' ++ [c1; c2] ∨ r = []) as (c1 & c2 & r' & Hr).
  { destruct r as [|x r _] using rev_ind; [by exists b, b, []; right|].
    destruct r as [|y r]; [by exists b, x, []; left|].
    destruct (exists_last (l:=y :: r) ltac:(done)) as (r0 & z & ->).
    exists z, x, (b :: r0). left. by rewrite <-(assoc app). }
  assert (∃ e, p ++ CRLF = (a ++ [CR]) ++ LF :: CR :: e) as [e He'].
  { unfold HEADER_END, CRLF in *. destruct Hr as [Hr| ->].
    - exists (LF :: r'). rewrite Hr in Hq.
      replace ((a ++ [CR; LF; CR; LF]) ++ r' ++ [c1; c2]) with
        ((a ++ [CR; LF; CR; LF] ++ r') ++ [c1; c2]) in Hq by by rewrite !(assoc app).
      replace (p ++ [CR; LF; CR; LF]) with ((p ++ [CR; LF]) ++ [CR; LF]) in Hq by by rewrite <-(assoc app).
      apply app_inj_2 in Hq as [<- _]; [|done]. by rewrite <-(assoc app).
    - exists []. replace (p ++ [CR; LF; CR; LF]) with ((p ++ [CR; LF; CR]) ++ [LF]) in Hq by by rewrite <-(assoc app).
      apply app_inj_2 in Hq as [Hq _]; [|done].
      replace (p ++ [CR; LF; CR]) with ((p ++ [CR; LF]) ++ [CR]) in Hq by by rewrite <-(assoc app).
      replace (a ++ [CR; LF; CR; LF]) with ((a ++ [CR; LF; CR]) ++ [LF]) in Hq by by rewrite <-(assoc app).
      apply app_inj_2 in Hq as [_ ?]; [|done]. done. }
  rewrite He', blank_line_at in Hp. done.
Qed.

(** Bytes of an incomplete header. *)
Lemma push_header_bytes i l d : body d = None →
  (∀ q b r, l = q ++ b :: r → ends_with HEADER_END (data d ++ q ++ [b]) = false) →
  (lenN (data d ++ l) <= MAX_HEADER)%N →
  push_bytes i l d = (Ok (i + lenN l, None)%N, set_data (data d ++ l) d).
Proof.
  revert i d. induction l as [|b l IH]; intros i d Hb He Hlen.
  { simpl. unfold mret, M_ret. rewrite app_nil_r, N.add_0_r. by destruct d. }
  simpl. unfold mbind at 1, M_bind. unfold push_byte, modify, get, mbind, M_bind. cbn.
  rewrite Hb. unfold refuse. unfold lenN in Hlen. rewrite length_app in Hlen. simpl in Hlen.
  destruct (N.ltb_spec MAX_HEADER (lenN (data d ++ [b]))) as [Hl|_].
  { unfold lenN in Hl. rewrite length_app in Hl. simpl in Hl. lia. }
  pose proof (He [] b l eq_refl) as He0. rewrite app_nil_l in He0. rewrite He0.
  unfold mret, M_ret. unfold complete. cbn. rewrite Hb.
  rewrite IH; cbn.
  - rewrite <-(assoc app). by rewrite lenN_cons, N.add_assoc.
  - done.
  - intros q b' r ->. rewrite <-(assoc app). by apply (He (b :: q) b' r).
  - rewrite <-(assoc app). unfold lenN. rewrite length_app. simpl. lia.
Qed.
(** Bytes of the body, up to its end. *)
Lemma push_body_bytes i l d o n : body d = Some (o, n) → l ≠ [] →
  (lenN (data d) + lenN l = o + n)%N →
  push_bytes i l d =
    (Ok (i + lenN l, Some (drop (N.to_nat o) (data d ++ l)))%N, set_data (data d ++ l) d).
Proof.
  revert i d. induction l as [|b l IH]; intros i d Hb Hne Hlen; [done|].
  simpl. unfold mbind at 1, M_bind. unfold push_byte, modify, get, mbind, M_bind. cbn.
  rewrite Hb. unfold mret, M_ret. unfold complete. cbn. rewrite Hb, lenN_snoc.
  unfold lenN in Hlen. simpl in Hlen. destruct l as [|b' l].
  - simpl in Hlen. destruct (N.eqb_spec (lenN (data d) + 1) (o + n)); [|unfold lenN in *; lia].
    done.
  - destruct (N.eqb_spec (lenN (data d) + 1) (o + n)) as [Heq|_]; [unfold lenN in *; simpl in *; lia|].
    rewrite IH; cbn.
    + rewrite <-(assoc app). by rewrite (lenN_cons b), N.add_assoc.
    + done.
    + done.
    + rewrite lenN_snoc. unfold lenN in *. simpl in *. lia.
Qed.
Lemma push_bytes_app i l1 l2 d :
  push_bytes i (l1 ++ l2) d =
  match push_bytes i l1 d with
  | (Ok (n, None), d') => push_bytes n l2 d'
  | x => x
  end.
Proof.
  revert i d. induction l1 as [|b l1 IH]; intros i d; [done|]. simpl. unfold mbind, M_bind.
  destruct (push_byte b d) as [[[f|]|e|] d']; [done|apply IH|done|done].
Qed.
Lemma push_bytes_shift i l d :
  push_bytes i l d =
  match push_bytes 0 l d with
  | (Ok (n, f), d') => (Ok (i + n, f)%N, d')
  | x => x
  end.
Proof.
  revert i d. induction l as [|b l IH]; intros i d; simpl.
  { unfold mret, M_ret. by rewrite N.add_0_r. }
  unfold mbind, M_bind. destruct (push_byte b d) as [[[f|]|e|] d']; [done| |done|done].
  rewrite (IH (i + 1)%N), (IH (0 + 1)%N).
  destruct (push_bytes 0 l d') as [[[n f]|e|] d'']; [|done|done]. do 3 f_equal. lia.
Qed.

(** *** A whole frame *)
Record good_header (p : Bytes) (h : gmap string string) (n : N) (d : Decoder) : Prop := {
  gh_unended : blank_line (p ++ CRLF) = false;
  gh_utf8 : utf8_valid (p ++ HEADER_END) = true;
  gh_short : (lenN (p ++ HEADER_END) <= MAX_HEADER)%N;
  gh_length : (0 < n <= limit d)%N;
  gh_lines : ∀ l, ∃ ct, header_lines (None, false) (split_lines [] p) (set_data l d) =
    (Ok (Some n, ct), set_headers h (set_data l d)) }.

Lemma lenN_app {A} (l k : list A) : lenN (l ++ k) = (lenN l + lenN k)%N.
Proof. unfold lenN. rewrite length_app. lia. Qed.
Lemma take_app_end {A} (l k : list A) : take (length (l ++ k) - length k) (l ++ k) = l.
Proof. rewrite length_app, take_app_le by lia. rewrite take_ge; [done|lia]. Qed.

Lemma push_header p h n d : data d = [] → body d = None → good_header p h n d →
  push_bytes 0 (p ++ HEADER_END) d =
    (Ok (lenN (p ++ HEADER_END), None),
     set_body (Some (lenN (p ++ HEADER_END), n)) (set_headers h (set_data (p ++ HEADER_END) d))).
Proof.
  intros Hd Hb [Hu Hv Hs Hn Hl].
  replace (p ++ HEADER_END) with ((p ++ [CR; LF; CR]) ++ [LF]) in * by by rewrite <-(assoc app).
  rewrite push_bytes_app, push_header_bytes, Hd; [|done| |].
  - cbn [app fst snd]. simpl push_bytes. unfold mbind at 1, M_bind at 1.
    unfold push_byte, modify, get, mbind, M_bind. cbn. rewrite Hb. unfold refuse.
    rewrite (proj2 (N.ltb_ge _ _)) by done.
    set (all := (p ++ [CR; LF; CR]) ++ [LF]) in *.
    change (set_data all (set_data (p ++ [CR; LF; CR]) d)) with (set_data all d).
    assert (take (length all - 4) all = p) as Hp.
    { replace all with (p ++ HEADER_END) by (unfold all; by rewrite <-(assoc app)).
      apply (take_app_end p HEADER_END). }
    assert (ends_with HEADER_END all = true) as ->.
    { apply bool_decide_eq_true. replace all with (p ++ HEADER_END) by (unfold all; by rewrite <-(assoc app)).
      rewrite length_app, Nat.add_sub. by rewrite drop_app_length. }
    unfold mret, M_ret. unfold read_header, get, put, mbind, M_bind, refuse.
    destruct (Hl all) as [ct Hct]. cbn. rewrite Hv, Hp. cbn. rewrite Hct. cbn.
    rewrite (proj2 (N.ltb_lt 0 n)), (proj2 (N.leb_le n (limit d))) by lia. cbn.
    unfold complete. cbn. destruct (N.eqb_spec (lenN all) (lenN all + n)); [lia|].
    unfold all. by rewrite (lenN_snoc (p ++ _)).
  - intros q b r Hq. rewrite Hd. cbn [app].
    destruct r as [|x r _] using rev_ind.
    + rewrite <-Hq. apply (header_unended p _ LF []); [done|]. by rewrite <-(assoc app).
    + apply (header_unended p (q ++ [b]) (hd LF (r ++ [x])) (tl (r ++ [x]) ++ [LF])); [done|].
      change (p ++ HEADER_END) with (p ++ [CR; LF; CR] ++ [LF]). rewrite (assoc app), Hq.
      rewrite <-!(assoc app). f_equal. cbn. f_equal. by destruct r.
  - rewrite Hd. cbn [app]. rewrite lenN_snoc in Hs. lia.
Qed.

Lemma push_frame p h c rest d : data d = [] → body d = None → c ≠ [] →
  good_header p h (lenN c) d →
  push_bytes 0 ((p ++ HEADER_END) ++ c ++ rest) d =
    (Ok (lenN ((p ++ HEADER_END) ++ c), Some c),
     set_data ((p ++ HEADER_END) ++ c)
       (set_body (Some (lenN (p ++ HEADER_END), lenN c)) (set_headers h d))).
Proof.
  intros Hd Hb Hc Hg. rewrite push_bytes_app, (push_header p h (lenN c)) by done.
  rewrite push_bytes_app, (push_body_bytes _ c _ (lenN (p ++ HEADER_END)) (lenN c)) by done.
  cbn [data set_body set_headers set_data]. unfold lenN at 3. rewrite Nat2N.id, drop_app_length.
  by rewrite <-lenN_app.
Qed.

(** ** The one header line every frame has *)
Ltac not_listed := refine (bool_decide_eq_false_1 _ _); vm_compute; reflexivity.
Definition length_line (n : N) : Bytes := bytes ("Content-Length: " +:+ show n).
Lemma length_line_bytes n : length_line n = CONTENT_LENGTH ++ ":"%char :: " "%char :: bytes (show n).
Proof. unfold length_line. by rewrite bytes_app. Qed.
Lemma digits_not b l : forallb is_ascii_digit l = true → is_ascii_digit b = false → b ∉ l.
Proof.
  intros Hl Hb Hin. rewrite forallb_forall in Hl. rewrite Hl in Hb; [done|].
  by apply list_elem_of_In.
Qed.
Lemma header_line_length n ct d : (n < u64_modulus)%N →
  header_line (None, ct) (length_line n) d = (Ok (Some n, ct), d).
Proof.
  intros Hn. destruct (show_digits n) as (ds & Hs & Hne & Hd & Hv & _).
  unfold header_line. munfold. rewrite length_line_bytes, split_once_at by not_listed.
  cbn. rewrite Hs, trim_space by by apply digits_solid.
  rewrite Hd. destruct ds as [|d0 ds]; [done|]. rewrite lenN_cons.
  destruct (N.eqb_spec (1 + lenN ds) 0); [lia|]. cbn.
  unfold parse_usize. rewrite Hv, (proj2 (N.ltb_lt _ _)) by done. done.
Qed.
Lemma length_line_text n c : is_ascii_digit c = false → c ∉ CONTENT_LENGTH →
  c ≠ ":"%char → c ≠ " "%char → c ∉ length_line n.
Proof.
  intros Hc H1 H2 H3. destruct (show_digits n) as (ds & Hs & _ & Hd & _).
  rewrite length_line_bytes, Hs, elem_of_app, !elem_of_cons.
  intros [?|[?|[?|?]]]; try done. by eapply digits_not.
Qed.
Lemma length_line_ascii n : forallb is_ascii (length_line n) = true.
Proof.
  destruct (show_digits n) as (ds & Hs & _ & Hd & _).
  rewrite length_line_bytes, Hs, forallb_app. apply andb_true_intro. split; [by vm_compute|].
  simpl. by apply digits_ascii.
Qed.
Lemma lenN_length_line n : lenN (length_line n) = (16 + lenN (bytes (show n)))%N.
Proof. rewrite length_line_bytes, lenN_app, !lenN_cons. change (lenN CONTENT_LENGTH) with 14%N. lia. Qed.

Lemma length_header_good n d : (0 < n <= limit d)%N → (n < u64_modulus)%N →
  good_header (length_line n) (headers d) n d.
Proof.
  intros Hn Hm. split; [| | |done|].
  - rewrite blank_line_skip by (apply length_line_text; done || not_listed). done.
  - apply utf8_valid_ascii. by rewrite forallb_app, length_line_ascii.
  - rewrite lenN_app, lenN_length_line. pose proof (show_length n Hm).
    change (lenN HEADER_END) with 4%N. unfold MAX_HEADER. lia.
  - intros l. exists false. rewrite split_lines_one by (apply length_line_text; done || not_listed).
    cbn [app header_lines]. unfold mbind, M_bind. rewrite header_line_length by done. done.
Qed.
