(* ===== verification/Text.v ===== *)
(** * Operations on text

    The methods of Rust's [str] the request, configuration and path code uses,
    on the bytes of the string: prefixes, splitting at a separator, lines and
    decimal numbers, with the lemmas about them. Everything the code looks for
    is ASCII, so a byte position is always a character boundary. *)
From S2P Require Import Prelude Json Grammar Framing FramingFacts.
From Stdlib Require Import Ascii.

(** [s.strip_prefix(prefix)] and [s.starts_with(prefix)]. *)
Fixpoint strip_prefix (prefix l : list ascii) : option (list ascii) :=
  match prefix, l with
  | [], _ => Some l
  | a :: prefix, b :: l => if is_byte a b then strip_prefix prefix l else None
  | _ :: _, [] => None
  end.
Definition has_prefix (prefix l : list ascii) : bool :=
  match strip_prefix prefix l with Some _ => true | None => false end.
(** [s.contains(c)] for a character. *)
Definition contains (c : ascii) (l : list ascii) : bool := existsb (λ b, is_byte b c) l.
(** [s.split_once(sep)] for a character. *)
Fixpoint split_first (sep : ascii) (l : list ascii) : option (list ascii * list ascii) :=
  match l with
  | [] => None
  | b :: l => if is_byte b sep then Some ([], l)
              else p ← split_first sep l; Some (b :: p.1, p.2)
  end.
(** The longest prefix of bytes in [f] and what follows it. *)
Fixpoint span (f : ascii → bool) (l : list ascii) : list ascii * list ascii :=
  match l with
  | [] => ([], [])
  | b :: l' => if f b then let '(a, r) := span f l' in (b :: a, r) else ([], l)
  end.
(** [s.rsplit_once(pat)] for a non-empty pattern: its last occurrence. *)
Fixpoint rsplit_once (pat l : list ascii) : option (list ascii * list ascii) :=
  match l with
  | [] => None
  | b :: l' =>
      match rsplit_once pat l' with
      | Some (a, r) => Some (b :: a, r)
      | None => r ← strip_prefix pat l; Some ([], r)
      end
  end.
(** [s.trim_start_matches(pat)] for a non-empty pattern; every round removes
    at least one byte, so the length bounds the rounds. *)
Fixpoint trim_matches (fuel : nat) (pat l : list ascii) : list ascii :=
  match fuel with
  | O => l
  | S fuel => match strip_prefix pat l with Some r => trim_matches fuel pat r | None => l end
  end.
Definition trim_start_matches (pat l : list ascii) : list ascii := trim_matches (length l) pat l.

(** [s.lines()]: a carriage return counts only before a newline. *)
Definition strip_cr (line : list ascii) : list ascii :=
  match last line with
  | Some b => if is_byte b CR then removelast line else line
  | None => line
  end.
Fixpoint lines_from (line l : list ascii) : list (list ascii) :=
  match l with
  | [] => match line with [] => [] | _ => [line] end
  | b :: l => if is_byte b LF then strip_cr line :: lines_from [] l else lines_from (line ++ [b]) l
  end.
Definition lines : list ascii → list (list ascii) := lines_from [].

(** [s.parse::<u32>()]: digits, a leading [+] allowed. *)
Definition u32_modulus : N := 4294967296.
Definition parse_u32 (l : list ascii) : option N :=
  let digits := match l with b :: r => if is_byte b "+"%char then r else l | [] => [] end in
  match digits with
  | [] => None
  | _ => if forallb is_ascii_digit digits && (decimal digits <? u32_modulus)%N
         then Some (decimal digits) else None
  end.

Lemma bytes_text l : bytes (text l) = l.
Proof. apply String.list_ascii_of_string_of_list_ascii. Qed.
Lemma Forall_snoc_iff {A} (P : A → Prop) l x : Forall P (l ++ [x]) ↔ Forall P l ∧ P x.
Proof. by rewrite Forall_app, Forall_singleton. Qed.
Lemma strip_prefix_app prefix l : strip_prefix prefix (prefix ++ l) = Some l.
Proof. induction prefix as [|a prefix IH]; [done|]. simpl. by rewrite is_byte_refl. Qed.
Lemma strip_one b l : strip_prefix [b] (b :: l) = Some l.
Proof. apply (strip_prefix_app [b]). Qed.
Lemma strip_prefix_Some prefix l r : strip_prefix prefix l = Some r → l = prefix ++ r.
Proof.
  revert l. induction prefix as [|a prefix IH]; intros l; simpl; [by intros [= ->]|].
  destruct l as [|b l]; [done|]. destruct (is_byte a b) eqn:Hab; [|done].
  apply Ascii.eqb_eq in Hab as ->. by intros ->%IH.
Qed.
Lemma strip_prefix_head prefix l a b :
  head prefix = Some a → head l = Some b → a ≠ b → strip_prefix prefix l = None.
Proof.
  destruct prefix as [|a' prefix], l as [|b' l]; try done.
  intros [= ->] [= ->] Hne. simpl. by rewrite is_byte_ne.
Qed.
Lemma has_prefix_app prefix l : has_prefix prefix (prefix ++ l) = true.
Proof. unfold has_prefix. by rewrite strip_prefix_app. Qed.
Lemma has_prefix_head prefix l a b :
  head prefix = Some a → head l = Some b → a ≠ b → has_prefix prefix l = false.
Proof. intros. unfold has_prefix. by erewrite strip_prefix_head. Qed.

Lemma contains_spec c l : contains c l = true ↔ c ∈ l.
Proof.
  unfold contains. rewrite existsb_exists. split.
  - intros (x & Hx & ->%Ascii.eqb_eq). by apply list_elem_of_In.
  - intros Hc. exists c. split; [by apply list_elem_of_In|apply is_byte_refl].
Qed.
Lemma contains_false c l : contains c l = false ↔ c ∉ l.
Proof. rewrite <- contains_spec. by destruct (contains c l). Qed.

Lemma split_first_at sep l r : sep ∉ l → split_first sep (l ++ sep :: r) = Some (l, r).
Proof.
  induction l as [|b l IH]; intros Hl; simpl; [by rewrite is_byte_refl|].
  apply not_elem_of_cons in Hl as [Hb Hl]. rewrite is_byte_ne by done. by rewrite IH.
Qed.
Lemma split_first_none sep l : sep ∉ l → split_first sep l = None.
Proof.
  induction l as [|b l IH]; intros Hl; simpl; [done|].
  apply not_elem_of_cons in Hl as [Hb Hl]. rewrite is_byte_ne by done. by rewrite IH.
Qed.
Lemma split_first_Some sep l a r : split_first sep l = Some (a, r) → l = a ++ sep :: r ∧ sep ∉ a.
Proof.
  revert a r. induction l as [|b l IH]; intros a r; simpl; [done|].
  destruct (is_byte b sep) eqn:Hb.
  - apply Ascii.eqb_eq in Hb as ->. intros [= <- <-]. split; [done|apply not_elem_of_nil].
  - destruct (split_first sep l) as [[a' r']|]; [|done]. intros [= <- <-].
    destruct (IH a' r' eq_refl) as [-> Ha]. split; [done|].
    apply not_elem_of_cons. split; [|done]. intros ->. by rewrite is_byte_refl in Hb.
Qed.

Lemma span_eq f l : (span f l).1 ++ (span f l).2 = l.
Proof. induction l as [|b l IH]; [done|]. simpl. destruct (f b); [|done]. destruct (span f l). simpl in *. by rewrite IH. Qed.
Lemma span_app f a r : forallb f a = true → (∀ b, head r = Some b → f b = false) →
  span f (a ++ r) = (a, r).
Proof.
  intros Ha Hr. induction a as [|b a IH]; simpl in *.
  - destruct r as [|b r]; [done|]. simpl. by rewrite Hr.
  - apply andb_true_iff in Ha as [-> Ha]. by rewrite IH.
Qed.

(** Lines printed with a newline each are read back, unless one holds a
    newline or ends in a carriage return. *)
Definition plain_line (line : list ascii) : Prop := (LF ∉ line) ∧ last line ≠ Some CR.
#[export] Instance plain_line_dec line : Decision (plain_line line).
Proof. unfold plain_line. apply _. Defined.
Definition print_lines (ls : list (list ascii)) : list ascii := concat ((λ l, (l : list ascii) ++ [LF]) <$> ls).
Lemma lines_from_app line l r : LF ∉ l → lines_from line (l ++ LF :: r) = strip_cr (line ++ l) :: lines_from [] r.
Proof.
  revert line. induction l as [|b l IH]; intros line Hl; cbn [lines_from app]; [by rewrite is_byte_refl, app_nil_r|].
  apply not_elem_of_cons in Hl as [Hb Hl]. rewrite is_byte_ne by done. rewrite IH by done.
  by rewrite <- app_assoc.
Qed.
Lemma strip_cr_plain line : plain_line line → strip_cr line = line.
Proof.
  intros [_ Hc]. unfold strip_cr. destruct (last line) as [b|]; [|done].
  rewrite is_byte_ne; [done|]. by intros <-.
Qed.
Lemma lines_print ls : Forall plain_line ls → lines (print_lines ls) = ls.
Proof.
  unfold lines, print_lines. induction 1 as [|l ls Hl _ IH]; [done|]. cbn [fmap list_fmap concat].
  rewrite <- app_assoc. cbn [app]. rewrite lines_from_app by apply Hl. cbn [app].
  by rewrite strip_cr_plain, IH.
Qed.

Lemma parse_u32_show n : (n < u32_modulus)%N → parse_u32 (bytes (show n)) = Some n.
Proof.
  intros Hn. destruct (show_digits n) as (ds & -> & Hne & Hd & Hv & _). unfold parse_u32.
  assert (match ds with b :: r => if is_byte b "+"%char then r else ds | [] => [] end = ds) as ->.
  { destruct ds as [|b r]; [done|]. rewrite is_byte_ne; [done|]. intros <-. done. }
  destruct ds as [|b r]; [done|]. rewrite Hd.
  rewrite Hv.
  by apply N.ltb_lt in Hn as ->.
Qed.
