(* ===== verification/Paths.v ===== *)
(** * Paths

    The part of the standard library's [std::path] the program computes with,
    on Unix: a path is the list of its bytes, [components] reads it, [push],
    [pop] and [join] edit its text. Used by the editor requests
    ([libs/api/src/editor.rs]), the host binds ([libs/runtime/src/binds.rs])
    and the dev shell references ([libs/runtime/src/devshell.rs]). The
    operations are the language's, written from their documentation; nothing
    in this file is code of the repository. *)
From S2P Require Import Prelude Json Grammar Framing FramingFacts Text.
From Stdlib Require Import Ascii.

Definition SLASH : ascii := "/".
Definition DOT : list ascii := [dot].
Definition DOTDOT : list ascii := [dot; dot].

Inductive Component := RootDir | CurDir | ParentDir | Normal (part : list ascii).
#[export] Instance Component_eq_dec : EqDecision Component.
Proof. solve_decision. Defined.

Definition has_root (p : list ascii) : bool :=
  match p with [] => false | b :: _ => is_byte b SLASH end.
Definition is_absolute : list ascii → bool := has_root.

(** One part of the text between separators: an empty part and [.] are no
    components. *)
Definition component_of (part : list ascii) : option Component :=
  if bool_decide (part = []) then None
  else if bool_decide (part = DOT) then None
  else if bool_decide (part = DOTDOT) then Some ParentDir
  else Some (Normal part).

(** [Path::components]: a leading [.] of a relative path is a component. *)
Definition components (p : list ascii) : list Component :=
  if has_root p then RootDir :: omap component_of (split_on SLASH (tail p))
  else match split_on SLASH p with
       | [] => []
       | part :: parts =>
           (if bool_decide (part = DOT) then [CurDir]
            else option_list (component_of part)) ++ omap component_of parts
       end.

(** [PathBuf::push]: an absolute path replaces the buffer. *)
Definition push (p q : list ascii) : list ascii :=
  if is_absolute q then q
  else match last p with
       | Some b => if is_byte b SLASH then p ++ q else p ++ SLASH :: q
       | None => q
       end.
Definition join : list ascii → list ascii → list ascii := push.

Definition component_text (c : Component) : list ascii :=
  match c with
  | RootDir => [SLASH] | CurDir => DOT | ParentDir => DOTDOT | Normal part => part
  end.
(** [components.collect::<PathBuf>()]. *)
Definition collect (cs : list Component) : list ascii := foldl push [] (component_text <$> cs).

Fixpoint join_parts (parts : list (list ascii)) : list ascii :=
  match parts with
  | [] => []
  | [part] => part
  | part :: parts => part ++ SLASH :: join_parts parts
  end.

(** [Path::parent] on the text: drop trailing parts that are no components,
    the last component, and what no longer counts after it. A relative path's
    leading [.] counts. *)
Definition counts (root : bool) (ip : nat * list ascii) : bool :=
  match component_of ip.2 with
  | Some _ => true
  | None => negb root && (ip.1 =? 0)%nat && bool_decide (ip.2 = DOT)
  end.
Fixpoint drop_while_rev {A} (f : A → bool) (l : list A) : list A :=
  match l with
  | [] => []
  | x :: l => match drop_while_rev f l with
              | [] => if f x then [] else [x]
              | k => x :: k
              end
  end.
Definition strip (root : bool) (l : list (nat * list ascii)) : list (nat * list ascii) :=
  drop_while_rev (λ ip, negb (counts root ip)) l.
Definition parent (p : list ascii) : option (list ascii) :=
  let root := has_root p in
  let parts := imap pair (split_on SLASH (if root then tail p else p)) in
  match strip root parts with
  | [] => None
  | l => Some ((if root then [SLASH] else []) ++
               join_parts (snd <$> strip root (removelast l)))
  end.
(** [PathBuf::pop]. *)
Definition pop (p : list ascii) : list ascii := default p (parent p).

(** [Path::starts_with]: whole components. *)
Definition starts_with (p base : list ascii) : bool :=
  bool_decide (components base `prefix_of` components p).

(** ** Canonical absolute paths

    [/a/b/c] for parts that are proper names. *)
Definition proper (part : list ascii) : Prop :=
  part ≠ [] ∧ part ≠ DOT ∧ part ≠ DOTDOT ∧ SLASH ∉ part.
Definition rooted (parts : list (list ascii)) : list ascii := SLASH :: join_parts parts.

Lemma component_of_proper part : proper part → component_of part = Some (Normal part).
Proof. intros (? & ? & ? & _). unfold component_of. by rewrite !bool_decide_eq_false_2. Qed.
Lemma split_on_no_sep sep l : sep ∉ l → split_on sep l = [l].
Proof.
  induction l as [|b l IH]; intros Hl; [done|]. simpl. apply not_elem_of_cons in Hl as [Hb Hl].
  rewrite is_byte_ne by done. by rewrite IH.
Qed.
Lemma split_on_ne sep l : split_on sep l ≠ [].
Proof. destruct l as [|b l]; simpl; [done|]. destruct (is_byte b sep); [done|]. by destruct (split_on sep l). Qed.
Lemma split_on_app sep l r : sep ∉ l → split_on sep (l ++ sep :: r) = l :: split_on sep r.
Proof.
  induction l as [|b l IH]; intros Hl; simpl; [by rewrite is_byte_refl|].
  apply not_elem_of_cons in Hl as [Hb Hl]. rewrite is_byte_ne by done. by rewrite IH.
Qed.
Lemma split_on_parts sep l part : part ∈ split_on sep l → sep ∉ part.
Proof.
  revert part. induction l as [|b l IH]; intros part; simpl.
  { intros ->%list_elem_of_singleton. apply not_elem_of_nil. }
  destruct (Ascii.eqb_spec b sep) as [->|Hb]; simpl.
  { rewrite is_byte_refl. rewrite elem_of_cons. intros [->|?]; [apply not_elem_of_nil|by apply IH]. }
  rewrite is_byte_ne by done. destruct (split_on sep l) as [|k ks] eqn:Hs; [by apply split_on_ne in Hs|].
  rewrite elem_of_cons. intros [->|?]; [|apply IH; by right].
  apply not_elem_of_cons. split; [done|]. apply IH. by left.
Qed.
Lemma split_on_join part parts : Forall (λ p, SLASH ∉ p) (part :: parts) →
  split_on SLASH (join_parts (part :: parts)) = part :: parts.
Proof.
  revert part. induction parts as [|q parts IH]; intros part.
  { intros [Hp _]%Forall_cons. by apply split_on_no_sep. }
  intros [Hp Hq]%Forall_cons.
  change (join_parts (part :: q :: parts)) with (part ++ SLASH :: join_parts (q :: parts)).
  rewrite split_on_app by done. by rewrite IH.
Qed.
Lemma omap_proper parts : Forall proper parts → omap component_of parts = Normal <$> parts.
Proof. induction 1 as [|part parts Hp _ IH]; [done|]. cbn. rewrite component_of_proper by done. f_equal. apply IH. Qed.
Lemma proper_no_slash parts : Forall proper parts → Forall (λ p, SLASH ∉ p) parts.
Proof. intros H. eapply Forall_impl; [exact H|]. by intros part (_ & _ & _ & ?). Qed.
Lemma split_rooted parts : Forall proper parts →
  split_on SLASH (join_parts parts) = match parts with [] => [[]] | _ => parts end.
Proof. intros Hp. destruct parts; [done|]. by apply split_on_join, proper_no_slash. Qed.

Lemma components_rooted parts : Forall proper parts →
  components (rooted parts) = RootDir :: (Normal <$> parts).
Proof.
  intros Hp. unfold components, rooted, has_root. rewrite is_byte_refl. cbn [tail]. f_equal.
  rewrite split_rooted by done. destruct parts; [done|]. by apply omap_proper.
Qed.

Lemma join_parts_snoc parts part : parts ≠ [] →
  join_parts (parts ++ [part]) = join_parts parts ++ SLASH :: part.
Proof.
  induction parts as [|p [|q parts] IH]; intros Hne; [done|done|].
  change ((p :: q :: parts) ++ [part]) with (p :: (q :: parts) ++ [part]).
  assert (join_parts (p :: (q :: parts) ++ [part]) = p ++ SLASH :: join_parts ((q :: parts) ++ [part])) as -> by done.
  rewrite IH by done.
  change (join_parts (p :: q :: parts)) with (p ++ SLASH :: join_parts (q :: parts)).
  by rewrite <- app_assoc.
Qed.
Lemma join_parts_last parts : parts ≠ [] → Forall proper parts →
  ∃ b, last (join_parts parts) = Some b ∧ b ≠ SLASH.
Proof.
  destruct parts as [|part parts _] using rev_ind; [done|].
  intros _ [_ Hp]%Forall_app. apply Forall_cons in Hp as [(Hne & _ & _ & Hs) _].
  destruct part as [|b part' _] using rev_ind; [done|].
  exists b. split.
  - destruct parts as [|p parts]; [simpl; by rewrite last_snoc|].
    rewrite join_parts_snoc by done. by rewrite app_comm_cons, app_assoc, last_snoc.
  - intros ->. apply Hs. rewrite elem_of_app. right. by left.
Qed.
Lemma proper_relative part : proper part → is_absolute part = false.
Proof.
  intros (_ & _ & _ & Hs). destruct part as [|b part]; [done|]. simpl.
  apply is_byte_ne. intros <-. apply Hs. by left.
Qed.

Lemma push_rooted parts part : Forall proper parts → proper part →
  push (rooted parts) part = rooted (parts ++ [part]).
Proof.
  intros Hps Hp. unfold push. rewrite proper_relative by done.
  destruct parts as [|q parts]; [done|].
  destruct (join_parts_last (q :: parts)) as (b & Hb & Hne); [done|done|].
  unfold rooted. rewrite last_cons, Hb, is_byte_ne by done.
  by rewrite join_parts_snoc by done.
Qed.

Lemma drop_while_rev_snoc {A} (f : A → bool) l x : f x = false →
  drop_while_rev f (l ++ [x]) = l ++ [x].
Proof.
  intros Hx. induction l as [|y l IH]; simpl; [by rewrite Hx|]. rewrite IH. by destruct l.
Qed.
Lemma strip_proper root l : Forall (λ ip : nat * list ascii, proper ip.2) l → strip root l = l.
Proof.
  destruct l as [|[i part] l _] using rev_ind; [done|]. intros [_ Hp]%Forall_app.
  apply Forall_cons in Hp as [Hp _]. apply drop_while_rev_snoc.
  unfold counts. cbn [snd]. by rewrite component_of_proper.
Qed.
Lemma imap_pair_proper i parts : Forall proper parts →
  Forall (λ ip : nat * list ascii, proper ip.2) (imap (λ j, pair (i + j)) parts).
Proof.
  intros Hp. apply Forall_lookup. intros j ip. rewrite list_lookup_imap.
  destruct (parts !! j) eqn:Hj; [|done]. intros [= <-]. cbn. by eapply Forall_lookup_1 in Hj.
Qed.
Lemma snd_imap_pair (parts : list (list ascii)) : snd <$> imap pair parts = parts.
Proof.
  apply list_eq. intros i. rewrite list_lookup_fmap, list_lookup_imap. by destruct (parts !! i).
Qed.
Lemma pop_rooted parts part : Forall proper parts → proper part →
  pop (rooted (parts ++ [part])) = rooted parts.
Proof.
  intros Hps Hp. unfold pop, parent, rooted, has_root. rewrite is_byte_refl. cbn [tail].
  rewrite split_rooted by (apply Forall_app; eauto).
  assert (match parts ++ [part] with [] => [[]] | _ :: _ => parts ++ [part] end = parts ++ [part]) as ->.
  { by destruct parts. }
  rewrite imap_app. rewrite strip_proper.
  2: { apply Forall_app. split; [by apply (imap_pair_proper 0)|].
       apply Forall_cons. by split. }
  destruct (imap pair parts ++ _) as [|x l] eqn:Hl; [by destruct (imap pair parts)|].
  rewrite <- Hl. cbn [imap]. rewrite removelast_last. rewrite strip_proper by by apply (imap_pair_proper 0).
  by rewrite snd_imap_pair.
Qed.
Lemma pop_root : pop (rooted []) = rooted [].
Proof. done. Qed.

Lemma components_proper p part : Normal part ∈ components p → proper part.
Proof.
  assert (∀ q c, component_of q = Some c → c = Normal part → SLASH ∉ q → proper part) as Hc.
  { intros q c. unfold component_of. repeat case_bool_decide; try done; intros [= <-]; [done|].
    intros [= ->] ?. by split_and!. }
  assert (∀ l, Forall (λ q, SLASH ∉ q) l → Normal part ∈ omap component_of l → proper part) as Hl.
  { intros l Hl. rewrite list_elem_of_omap. intros (q & Hq & Hn). eapply Forall_forall in Hl; [|done]. eauto. }
  assert (∀ l, Forall (λ q, SLASH ∉ q) (split_on SLASH l)) as Hs.
  { intros l. apply Forall_forall. apply split_on_parts. }
  unfold components. destruct (has_root p).
  - rewrite elem_of_cons. intros [?|?]; [done|]. eauto.
  - specialize (Hs p). destruct (split_on SLASH p) as [|q l]; [intros []%not_elem_of_nil|].
    apply Forall_cons in Hs as [Hq Hs]. rewrite elem_of_app. intros [Hin|?]; [|eauto].
    case_bool_decide; [by apply list_elem_of_singleton in Hin|].
    destruct (component_of q) eqn:Hcq; [|by apply not_elem_of_nil in Hin].
    apply list_elem_of_singleton in Hin as <-. eauto.
Qed.
