(* ===== verification/FramingSpec.v ===== *)
(** * What the framing promises

    The decoder's bounds, its deadline, that the way a stream is cut into
    reads does not matter, that frames read back, and that a client takes
    exactly one frame. *)
From S2P Require Import Prelude Json Grammar Messages Framing FramingFacts.
From Stdlib Require Import Ascii.

(** The decoders that have been fed without a frame or an error. *)
Inductive fed (limit : N) (start : option N) (allowed : list Bytes) : Decoder → Prop :=
| fed_new : fed limit start allowed (with_headers limit start allowed)
| fed_push d l now k d' :
    fed limit start allowed d → push l now d = (Ok (k, None), d') → fed limit start allowed d'.

Lemma lenN_cons_0 {A} (b : A) l : (lenN (b :: l) =? 0)%N = false.
Proof. rewrite lenN_cons. apply N.eqb_neq. lia. Qed.

(** [push] in two parts: the deadline, then the bytes. *)
Definition started (l : Bytes) (now : N) (d : Decoder) : Decoder :=
  if negb (bool_decide (is_Some (deadline d))) && negb (lenN l =? 0)%N
  then set_deadline (Some (now + TIMEOUT)%N) d else d.
Lemma push_started l now d :
  push l now d = if expired (started l now d) now then (Err TimedOut, started l now d)
                 else push_bytes 0 l (started l now d).
Proof.
  unfold push, modify, get, mbind, M_bind. cbn [fst snd]. fold (started l now d). unfold refuse.
  by destruct (expired _ now).
Qed.
Lemma started_same l now d : data (started l now d) = data d ∧ body (started l now d) = body d ∧
  limit (started l now d) = limit d ∧ allowed_headers (started l now d) = allowed_headers d ∧
  headers (started l now d) = headers d.
Proof. unfold started. by destruct (_ && _). Qed.
Lemma reading_started l now d : reading d → reading (started l now d).
Proof. destruct (started_same l now d) as (H1 & H2 & H3 & _). unfold reading. by rewrite H1, H2, H3. Qed.

Lemma push_open l now t d : deadline d = Some t → (now < t)%N → push l now d = push_bytes 0 l d.
Proof.
  intros Hd Ht. rewrite push_started. unfold started, expired. rewrite Hd. simpl. rewrite Hd.
  by rewrite (proj2 (N.leb_gt _ _)).
Qed.
Lemma push_byte_deadline b d : deadline (push_byte b d).2 = deadline d.
Proof.
  unfold push_byte, modify, get, mbind, M_bind. cbn. destruct (body d); [done|].
  unfold refuse. destruct (_ <? _)%N; [done|]. unfold mret, M_ret.
  destruct (ends_with _ _); [|done].
  pose proof (read_header_same (set_data (data d ++ [b]) d)) as [[_ Ht _ _] _].
  by destruct (read_header _) as [[[]|e|] d'].
Qed.
Lemma push_bytes_deadline i l d : deadline (push_bytes i l d).2 = deadline d.
Proof.
  revert i d. induction l as [|b l IH]; intros i d; [done|]. simpl. unfold mbind, M_bind.
  pose proof (push_byte_deadline b d) as Hb.
  destruct (push_byte b d) as [[[f|]|e|] d']; simpl in *; try done. by rewrite IH.
Qed.
Lemma push_deadline l now d : deadline (push l now d).2 = deadline (started l now d).
Proof. rewrite push_started. destruct (expired _ _); [done|]. apply push_bytes_deadline. Qed.

Lemma push_bytes_cases i l d : reading d →
  let d' := (push_bytes i l d).2 in
  deadline d' = deadline d ∧ limit d' = limit d ∧
  match (push_bytes i l d).1 with
  | Ok (k, None) => reading d' ∧ data d' = data d ++ l ∧ k = (i + lenN l)%N
  | Ok (k, Some frame) => ∃ l1 l2 hd, l = l1 ++ l2 ∧ k = (i + lenN l1)%N ∧ l1 ≠ [] ∧
      data d ++ l1 = hd ++ frame ∧ (0 < lenN frame <= limit d)%N ∧ (lenN hd <= MAX_HEADER)%N
  | Err _ => True
  | Panic => False
  end.
Proof.
  revert i d. induction l as [|b l IH]; intros i d Hr.
  { simpl. split_and!; try done; [by rewrite app_nil_r|unfold lenN; simpl; lia]. }
  simpl. unfold mbind, M_bind. pose proof (push_byte_cases b d Hr) as (Hd & Ht & Hl & Hc).
  destruct (push_byte b d) as [[[f|]|e|] d1]; simpl in *; try done.
  - destruct Hc as (o & Hb & Hf & Ho & Hdf). split_and!; try done.
    exists [b], l, (take (N.to_nat o) (data d1)). rewrite <-Hd. split_and!; try done; try lia.
    unfold lenN. rewrite length_take. lia.
  - destruct (IH (i + 1)%N d1 Hc) as (Ht' & Hl' & Hc').
    destruct (push_bytes (i + 1) l d1) as [[[k [f|]]|e|] d2]; simpl in *; try done.
    + destruct Hc' as (l1 & l2 & hd & -> & -> & Hne & Hsplit & Hf & Hh).
      split_and!; [congruence..|]. exists (b :: l1), l2, hd. rewrite lenN_cons.
      split_and!; try done; try lia.
      by rewrite <-Hsplit, Hd, <-(assoc app).
    + destruct Hc' as (Hr' & Hd' & ->). split_and!; [congruence..|done| |rewrite lenN_cons; lia].
      by rewrite Hd', Hd, <-(assoc app).
    + split_and!; congruence.
Qed.
Lemma push_cases l now d : reading d →
  let d' := (push l now d).2 in
  limit d' = limit d ∧ deadline d' = deadline (started l now d) ∧
  match (push l now d).1 with
  | Ok (k, None) => reading d' ∧ data d' = data d ++ l ∧ k = lenN l
  | Ok (k, Some frame) => ∃ l1 l2 hd, l = l1 ++ l2 ∧ k = lenN l1 ∧ l1 ≠ [] ∧
      data d ++ l1 = hd ++ frame ∧ (0 < lenN frame <= limit d)%N ∧ (lenN hd <= MAX_HEADER)%N
  | Err _ => True
  | Panic => False
  end.
Proof.
  intros Hr. rewrite push_started. destruct (started_same l now d) as (Hd & _ & Hl & _).
  destruct (expired _ now); [done|].
  pose proof (push_bytes_cases 0 l _ (reading_started l now d Hr)) as (Ht & Hl' & Hc).
  destruct (push_bytes 0 l _) as [[[k [f|]]|e|] d']; simpl in *; rewrite ?Hl', ?Hd, ?Hl in *; done.
Qed.

Lemma fed_reading lim start allowed d : fed lim start allowed d → reading d ∧ limit d = lim.
Proof.
  induction 1 as [|d l now k d' _ [Hr Hl] Hp]; [done|].
  pose proof (push_cases l now d Hr) as (Hl' & _ & Hc). rewrite Hp in Hl', Hc. simpl in *.
  destruct Hc as (Hr' & _). split; [done|congruence].
Qed.

(** C15. The decoder's memory is bounded and a frame is what was sent: however
    a stream is fed, the bytes held stay within a header and a body, at least
    one byte is always missing, a push that completes nothing took every
    byte, and a completed body is non-empty, within the limit, ends exactly
    at the last byte taken and follows a header of at most 256 bytes. *)
Theorem decoder_is_bounded lim start allowed d l now :
  fed lim start allowed d →
  (lenN (data d) <= MAX_HEADER + lim)%N ∧ (0 < remaining d)%N ∧
  match push l now d with
  | (Ok (k, None), d') => k = lenN l ∧ data d' = data d ++ l
  | (Ok (k, Some frame), _) => ∃ l1 l2 hd, l = l1 ++ l2 ∧ k = lenN l1 ∧
      data d ++ l1 = hd ++ frame ∧ (0 < lenN frame <= lim)%N ∧ (lenN hd <= MAX_HEADER)%N
  | (Err _, _) => True
  | (Panic, _) => False
  end.
Proof.
  intros Hf. destruct (fed_reading _ _ _ _ Hf) as [Hr <-].
  pose proof (push_cases l now d Hr) as (_ & _ & Hc). split_and!.
  - unfold reading in Hr. destruct (body d) as [[o n]|]; lia.
  - unfold reading in Hr. unfold remaining. destruct (body d) as [[o n]|]; lia.
  - destruct (push l now d) as [[[k [f|]]|e|] d']; simpl in *; try done.
    + destruct Hc as (l1 & l2 & hd & ? & ? & _ & ?). by exists l1, l2, hd.
    + by destruct Hc as (_ & ? & ?).
Qed.

(** C16. How a stream is cut into reads does not matter: feeding two pieces,
    both before the deadline, gives what feeding them at once gives, the same
    frame after the same number of bytes, or the same error. *)
Theorem cuts_do_not_matter d l1 l2 now1 now2 :
  l1 ≠ [] → (now1 <= now2)%N →
  (now2 < default (now1 + TIMEOUT) (deadline d))%N →
  push (l1 ++ l2) now1 d =
  match push l1 now1 d with
  | (Ok (n, None), d1) =>
      match push l2 now2 d1 with
      | (Ok (k, f), d2) => (Ok (n + k, f)%N, d2)
      | x => x
      end
  | x => x
  end.
Proof.
  intros Hne Hle Hnow.
  assert (started (l1 ++ l2) now1 d = started l1 now1 d) as Hs.
  { unfold started. destruct l1; [done|]. cbn [app]. by rewrite !lenN_cons_0. }
  assert (deadline (started l1 now1 d) = Some (default (now1 + TIMEOUT)%N (deadline d))) as Hd.
  { unfold started. destruct l1 as [|b l1]; [done|]. rewrite lenN_cons_0.
    by destruct (deadline d) eqn:He; simpl; rewrite ?He. }
  rewrite !push_started, Hs. unfold expired. rewrite Hd.
  rewrite (proj2 (N.leb_gt _ _)) by lia. rewrite push_bytes_app.
  pose proof (push_bytes_deadline 0 l1 (started l1 now1 d)) as Hkeep. rewrite Hd in Hkeep.
  destruct (push_bytes 0 l1 _) as [[[n [f|]]|e|] d1]; simpl in *; try done.
  erewrite push_open; [apply push_bytes_shift|done|lia].
Qed.

(** One deadline covers the whole frame: it is set by the first byte, or
    when the decoder was made, three seconds ahead; no later byte moves it;
    and once it has passed nothing more is taken. *)
Theorem deadline_covers_the_frame d l now :
  deadline (push l now d).2 =
    match deadline d with
    | Some t => Some t
    | None => if (lenN l =? 0)%N then None else Some (now + TIMEOUT)%N
    end ∧
  (∀ t, deadline d = Some t → (t <= now)%N → push l now d = (Err TimedOut, d)).
Proof.
  split.
  - rewrite push_deadline. unfold started. destruct (deadline d) eqn:Hd; simpl; [done|].
    by destruct (lenN l =? 0)%N.
  - intros t Hd Ht. rewrite push_started. unfold started, expired. rewrite Hd. simpl. rewrite Hd.
    by rewrite (proj2 (N.leb_le _ _)).
Qed.

(** ** Frames read back *)
Section frames.
Context `{JsonText}.
#[local] Set Default Proof Using "Type".

Lemma frame_of_header c : frame_of c = (length_line (lenN c) ++ HEADER_END) ++ c.
Proof. unfold frame_of, length_line. by rewrite (assoc app). Qed.
Lemma frame_complete c rest lim t allowed :
  (0 < lenN c <= lim)%N → (lenN c < u64_modulus)%N →
  ∃ d, push_bytes 0 (frame_of c ++ rest) (with_headers lim t allowed) =
    (Ok (lenN (frame_of c), Some c), d).
Proof.
  intros Hc Hm. rewrite frame_of_header, <-(app_assoc _ c rest). eexists.
  apply push_frame; [done..| |].
  - intros ->. unfold lenN in Hc. simpl in Hc. lia.
  - by apply length_header_good.
Qed.

(** A frame reads back: a new decoder that gets an encoded body within
    its limit before the deadline returns exactly that body, takes exactly
    the frame's bytes and leaves whatever follows. *)
Theorem frame_reads_back c rest lim start allowed now :
  (0 < lenN c <= lim)%N → (lenN c < u64_modulus)%N →
  (now < default now start + TIMEOUT)%N →
  ∃ d, push (frame_of c ++ rest) now (with_headers lim start allowed) =
    (Ok (lenN (frame_of c), Some c), d).
Proof.
  intros Hc Hm Hnow. rewrite push_started.
  assert (∃ t, started (frame_of c ++ rest) now (with_headers lim start allowed) =
    set_deadline (Some (default now start + TIMEOUT)%N) (with_headers lim t allowed)) as [t ->].
  { assert ((lenN (frame_of c ++ rest) =? 0)%N = false) as Hf.
    { apply N.eqb_neq. rewrite frame_of_header, !lenN_app, lenN_length_line. lia. }
    unfold started. rewrite Hf. destruct start as [s|]; [by exists (Some s)|by exists None]. }
  unfold expired. cbn [deadline set_deadline].
  destruct (N.leb_spec (default now start + TIMEOUT) now); [lia|].
  destruct (frame_complete c rest lim (Some (default now start)) allowed Hc Hm) as [d Hd].
  exists d. exact Hd.
Qed.

(** *** Cut anywhere *)
Section cut.
Context (w c : Bytes) (d0 d1 : Decoder) (Hr0 : reading d0) (Hd0 : data d0 = []).
Context (Hw : push_bytes 0 w d0 = (Ok (lenN w, Some c), d1)).
#[local] Set Default Proof Using "All".

Lemma cut_open q r : w = q ++ r → r ≠ [] → ∃ d, push_bytes 0 q d0 = (Ok (lenN q, None), d) ∧
  reading d ∧ data d = q ∧ push_bytes (lenN q) r d = (Ok (lenN w, Some c), d1).
Proof.
  intros -> Hne. rewrite push_bytes_app in Hw.
  pose proof (push_bytes_cases 0 q d0 Hr0) as (_ & _ & Hc).
  destruct (push_bytes 0 q d0) as [[[k [f|]]|e|] d]; simpl in *; try done.
  - exfalso. destruct Hc as (l1 & l2 & hd & -> & -> & _). injection Hw as Hk _ _.
    rewrite !lenN_app in Hk. destruct r; [done|]. rewrite lenN_cons in Hk. lia.
  - destruct Hc as (Hr & Hdd & ->). rewrite Hd0 in Hdd. by exists d.
Qed.
Lemma push_body_short i l d o n : body d = Some (o, n) → (lenN (data d) + lenN l < o + n)%N →
  (push_bytes i l d).1 = Ok (i + lenN l, None)%N.
Proof.
  revert i d. induction l as [|b l IH]; intros i d Hb Hlen.
  { simpl. by rewrite N.add_0_r. }
  simpl. unfold mbind at 1, M_bind. unfold push_byte, modify, get, mbind, M_bind. cbn.
  rewrite Hb. unfold mret, M_ret, complete. cbn. rewrite Hb, lenN_snoc.
  rewrite lenN_cons in Hlen. destruct (N.eqb_spec (lenN (data d) + 1) (o + n)); [lia|].
  rewrite IH; cbn; [by rewrite lenN_cons, N.add_assoc|done|]. rewrite lenN_snoc. lia.
Qed.
Lemma cut_remaining q r d : w = q ++ r → r ≠ [] → push_bytes 0 q d0 = (Ok (lenN q, None), d) →
  (0 < remaining d <= lenN r)%N.
Proof.
  intros Hqr Hne Hq. destruct (cut_open q r Hqr Hne) as (d' & Hq' & Hr & Hdd & Hrest).
  rewrite Hq in Hq'. injection Hq' as <-. unfold reading in Hr. unfold remaining.
  destruct (body d) as [[o n]|] eqn:Hb.
  - split; [lia|]. destruct (decide (o + n - lenN (data d) <= lenN r)%N) as [|Hlt]; [done|].
    exfalso. pose proof (push_body_short (lenN q) r d o n Hb ltac:(lia)) as Hs.
    by rewrite Hrest in Hs.
  - destruct r; [done|]. rewrite lenN_cons. lia.
Qed.
End cut.

(** What the answers of the socket bring in. *)
Definition brought (answers : list (Read * N)) : Bytes :=
  answers ≫= λ a, match a.1 with ReadBytes l => l | _ => [] end.
Definition answers_within (t : N) (answers : list (Read * N)) : Prop :=
  Forall (λ a, (a.2 < t)%N ∧
    match a.1 with ReadBytes l => l ≠ [] | Interrupted => True | ReadFailed _ => False end) answers.

Lemma read_loop_cut w c d0 d1 t d q answers :
  reading d0 → data d0 = [] → deadline d0 = Some t →
  push_bytes 0 w d0 = (Ok (lenN w, Some c), d1) →
  push_bytes 0 q d0 = (Ok (lenN q, None), d) →
  answers_within t answers → w = q ++ brought answers → brought answers ≠ [] →
  read_loop d (Some t) answers = Some (map_err ReadMalformed (parse_body c)).
Proof.
  intros Hr0 Hd0 Ht Hw. revert d q.
  induction answers as [|[a now] answers IH]; intros d q Hq Hwi Hqw Hne; [done|].
  apply Forall_cons in Hwi as [[Hnow Ha] Hwi]. simpl in *.
  destruct a as [l| |m]; [| |done].
  - destruct l as [|b l]; [done|]. cbn [brought mbind list_bind fst] in *.
    assert (deadline d = Some t) as Hdd.
    { pose proof (push_bytes_deadline 0 q d0) as Hk. rewrite Hq in Hk. simpl in Hk. congruence. }
    rewrite (push_open _ _ t) by done.
    change (b :: l ++ brought answers) with ((b :: l) ++ brought answers) in *.
    destruct (decide (brought answers = [])) as [He|He].
    + rewrite He, app_nil_r in Hqw.
      destruct (cut_open w c d0 d1 Hr0 Hd0 Hw q (b :: l) Hqw ltac:(done)) as (d' & Hq' & _ & _ & Hrest).
      rewrite Hq in Hq'. injection Hq' as <-. rewrite push_bytes_shift in Hrest.
      destruct (push_bytes 0 (b :: l) d) as [[[k f]|e|] d2]; [|done|done].
      by simplify_eq.
    + rewrite (assoc app) in Hqw.
      destruct (cut_open w c d0 d1 Hr0 Hd0 Hw (q ++ b :: l) _ Hqw He) as (d' & Hq' & _).
      pose proof Hq' as Hq''. rewrite push_bytes_app, Hq, push_bytes_shift in Hq''.
      destruct (push_bytes 0 (b :: l) d) as [[[k [f|]]|e|] d2]; try done.
      injection Hq'' as _ ->. by apply (IH d' (q ++ b :: l)).
  - rewrite (proj2 (N.leb_gt _ _)) by done. by apply (IH d q).
Qed.

(** A client reads exactly one reply: however the socket cuts the frame
    into answers and however often signals interrupt it, before the deadline
    the reader returns the parsed body; and it never asks for a byte beyond
    the frame: at every point inside it, the bytes asked for are at least one
    and at most what is left. *)
Theorem reader_takes_one_frame c t answers :
  (0 < lenN c <= MAX_RPC_BODY)%N →
  answers_within (t + TIMEOUT) answers → brought answers = frame_of c →
  read_started (Some t) answers = Some (map_err ReadMalformed (parse_body c)) ∧
  ∀ q r d, frame_of c = q ++ r → r ≠ [] →
    push_bytes 0 q (new_decoder MAX_RPC_BODY (Some t)) = (Ok (lenN q, None), d) →
    (0 < room d <= lenN r)%N.
Proof.
  intros Hc Hwi Hb.
  destruct (frame_complete c [] MAX_RPC_BODY (Some t) [] Hc) as [d1 Hd1].
  { unfold MAX_RPC_BODY, u64_modulus in *. lia. }
  rewrite app_nil_r in Hd1. split.
  - unfold read_started. simpl.
    apply (read_loop_cut (frame_of c) c (new_decoder MAX_RPC_BODY (Some t)) d1 _ _ []); try done.
    by rewrite Hb.
  - intros q r d Hqr Hne Hq. unfold room.
    pose proof (cut_remaining (frame_of c) c (new_decoder MAX_RPC_BODY (Some t)) d1
      ltac:(done) eq_refl Hd1 q r d Hqr Hne Hq). unfold READ_BUFFER. lia.
Qed.
End frames.

(** ** The theorems at concrete streams *)
Definition hello : Bytes := bytes "{}".
Definition fresh : Decoder := new_decoder 4096 (Some 0%N).
Definition half : Decoder := (push (take 10 (frame_of hello)) 5 fresh).2.
Lemma half_fed : fed 4096 (Some 0%N) [] half.
Proof.
  apply (fed_push _ _ _ fresh (take 10 (frame_of hello)) 5 10); [apply fed_new|]. by vm_compute.
Qed.

Lemma decoder_is_bounded_witness :
  (0 < remaining half)%N ∧
  (push (drop 10 (frame_of hello)) 6 half).1 = Ok (13, Some hello)%N.
Proof.
  destruct (decoder_is_bounded 4096 (Some 0%N) [] half (drop 10 (frame_of hello)) 6 half_fed)
    as (_ & Hr & _).
  exact (conj Hr eq_refl).
Defined.
Lemma cuts_do_not_matter_witness :
  (push (take 10 (frame_of hello) ++ drop 10 (frame_of hello)) 5 fresh).1 = Ok (23, Some hello)%N.
Proof.
  rewrite (cuts_do_not_matter fresh (take 10 (frame_of hello)) (drop 10 (frame_of hello)) 5 6
    ltac:(done) ltac:(done) ltac:(done)).
  reflexivity.
Defined.
Lemma deadline_covers_the_frame_witness : push hello 3000 half = (Err TimedOut, half).
Proof.
  destruct (deadline_covers_the_frame half hello 3000) as [_ Hd].
  exact (Hd 3000%N eq_refl (N.le_refl _)).
Defined.
Lemma frame_reads_back_witness :
  ∃ d, push (frame_of hello ++ hello) 5 (new_decoder 4096 None) = (Ok (23, Some hello)%N, d).
Proof.
  exact (frame_reads_back hello hello 4096 None [] 5 ltac:(by vm_compute) eq_refl ltac:(done)).
Defined.

(** A codec that knows one document. *)
Definition toy_json : JsonText := {|
  from_bytes l := if bool_decide (l = hello) then Some (Object []) else None;
  json_error _ := "expected value";
  to_bytes _ := hello |}.
Definition cut_answers : list (Read * N) :=
  [(ReadBytes (take 10 (frame_of hello)), 1%N); (Interrupted, 2%N);
   (ReadBytes (drop 10 (frame_of hello)), 3%N)].
Lemma reader_takes_one_frame_witness :
  @read_started toy_json (Some 0%N) cut_answers = Some (Ok (Object [])).
Proof.
  destruct (@reader_takes_one_frame toy_json hello 0 cut_answers ltac:(by vm_compute)) as [Hr _].
  - repeat constructor; done.
  - reflexivity.
  - rewrite Hr. reflexivity.
Defined.
