(* ===== verification/EnvelopeSpec.v ===== *)
(** * What the strict JSON reader and the envelopes accept

    Repeated keys and deep nesting are refused, and a request, a result and an
    error pass the checks of the side that receives them. *)
From S2P Require Import Prelude Json Grammar Messages Framing FramingFacts FramingSpec.
From Stdlib Require Import Ascii.

(** ** Repeated keys *)

(** No object of the document repeats a key. *)
Fixpoint no_repeats (v : Value) : Prop :=
  match v with
  | Array l => (fix go l := match l with [] => True | v :: l => no_repeats v ∧ go l end) l
  | Object o => NoDup o.*1 ∧
      (fix go o := match o with [] => True | kv :: o => no_repeats kv.2 ∧ go o end) o
  | _ => True
  end.
Fixpoint unique_list (l : list Value) : option (list Value) :=
  match l with
  | [] => Some []
  | v :: l => x ← unique v; xs ← unique_list l; Some (x :: xs)
  end.
Fixpoint unique_object (o acc : list (string * Value)) : option (list (string * Value)) :=
  match o with
  | [] => Some acc
  | (k, v) :: o => x ← unique v;
      match object_get acc k with
      | Some _ => None
      | None => unique_object o (object_insert k x acc)
      end
  end.
Lemma unique_array l : unique (Array l) = Array <$> unique_list l.
Proof. done. Qed.
Lemma unique_obj o : unique (Object o) = Object <$> unique_object o [].
Proof. done. Qed.

Lemma object_insert_keys k v o k' : k' ∈ (object_insert k v o).*1 ↔ k' = k ∨ k' ∈ o.*1.
Proof.
  induction o as [|[k0 v0] o IH]; simpl; [set_solver|].
  case_bool_decide; [subst; set_solver|]. destruct (String.leb k k0); [set_solver|].
  simpl. set_solver.
Qed.
Lemma object_get_None o k : object_get o k = None ↔ k ∉ o.*1.
Proof.
  induction o as [|[k0 v0] o IH]; simpl; [set_solver|]. case_bool_decide; [subst; set_solver|].
  rewrite IH. set_solver.
Qed.
Lemma unique_list_spec l : Forall (λ v, is_Some (unique v) ↔ no_repeats v) l →
  is_Some (unique_list l) ↔ no_repeats (Array l).
Proof.
  induction 1 as [|v l Hv _ IH]; [by split|]. simpl in *. rewrite <-Hv, <-IH. split.
  - intros [x Hx]. destruct (unique v), (unique_list l); naive_solver.
  - intros [[x ->] [xs ->]]. by eexists.
Qed.
Lemma unique_object_spec o acc : Forall (λ kv, is_Some (unique kv.2) ↔ no_repeats kv.2) o →
  is_Some (unique_object o acc) ↔
  (NoDup o.*1 ∧ (∀ k, k ∈ o.*1 → k ∉ acc.*1)) ∧
    (fix go o := match o with [] => True | kv :: o => no_repeats kv.2 ∧ go o end) o.
Proof.
  intros Ho. revert acc. induction Ho as [|[k v] o Hv _ IH]; intros acc; simpl in *.
  { split; [|by eexists]. intros _. split_and!; [apply NoDup_nil_2| |done].
    intros k Hk. by apply not_elem_of_nil in Hk. }
  fold (fmap (M:=list) (@fst string Value) o). rewrite <-Hv, NoDup_cons. destruct (unique v) as [x|]; simpl.
  2: { split; [by intros []|by intros (_ & [] & _)]. }
  destruct (object_get acc k) as [y|] eqn:Hg.
  - split; [by intros []|]. intros ((_ & Hacc) & _). exfalso.
    assert (object_get acc k = None) by (apply object_get_None, Hacc; left). congruence.
  - apply object_get_None in Hg. rewrite IH.
    assert ((∀ k', k' ∈ o.*1 → k' ∉ (object_insert k x acc).*1) ↔
            (k ∉ o.*1) ∧ (∀ k', k' ∈ o.*1 → k' ∉ acc.*1)) as ->.
    { setoid_rewrite object_insert_keys. set_solver. }
    split; [intros [[Hn [Hk Ha]] Hgo]|intros [[[Hk Hn] Ha] [_ Hgo]]]; split_and!; try done.
    + set_solver.
    + set_solver.
Qed.
Lemma unique_spec v : is_Some (unique v) ↔ no_repeats v.
Proof.
  induction v as [| | | | |l IH|o IH] using Value_nested_ind; try by split; [|by eexists].
  - rewrite unique_array, fmap_is_Some. by apply unique_list_spec.
  - rewrite unique_obj, fmap_is_Some, unique_object_spec by done. simpl. set_solver.
Qed.

(** ** Nesting *)
Definition structural (b : ascii) : bool :=
  is_byte QUOTE b || is_byte "["%char b || is_byte "{"%char b || is_byte "]"%char b ||
  is_byte "}"%char b.
(** The content of a string literal: escapes are pairs. *)
Inductive literal_body : Bytes → Prop :=
| body_nil : literal_body []
| body_char b l : b ≠ QUOTE → b ≠ BACKSLASH → literal_body l → literal_body (b :: l)
| body_escape b l : literal_body l → literal_body (BACKSLASH :: b :: l).
(** [nested n l]: balanced text of depth [n], as every JSON text is. *)
Inductive nested : N → Bytes → Prop :=
| nested_plain l : forallb (λ b, negb (structural b)) l = true → nested 0 l
| nested_literal l : literal_body l → nested 0 (QUOTE :: l ++ [QUOTE])
| nested_app m n l k : nested m l → nested n k → nested (N.max m n) (l ++ k)
| nested_array n l : nested n l → nested (n + 1) ("["%char :: l ++ ["]"%char])
| nested_object n l : nested n l → nested (n + 1) ("{"%char :: l ++ ["}"%char]).

Lemma scan_app s l k : scan s (l ++ k) = (s' ← scan s l; scan s' k).
Proof. revert s. induction l as [|b l IH]; intros s; [done|]. simpl. destruct (scan_byte s b); [apply IH|done]. Qed.
Lemma scan_plain d l : forallb (λ b, negb (structural b)) l = true →
  scan (mkScan d false false) l = Some (mkScan d false false).
Proof.
  induction l as [|b l IH]; [done|]. cbn [forallb]. intros [Hb Hl]%andb_prop. simpl.
  apply negb_true_iff in Hb. unfold structural in Hb. rewrite !orb_false_iff in Hb.
  destruct Hb as [[[[H1 H2] H3] H4] H5]. unfold scan_byte. simpl. rewrite H1, H2, H3, H4, H5. simpl.
  by apply IH.
Qed.
Lemma scan_literal d l : literal_body l →
  scan (mkScan d true false) (l ++ [QUOTE]) = Some (mkScan d false false).
Proof.
  induction 1 as [|b l Hq Hb _ IH|b l _ IH]; [done| |].
  - simpl. rewrite !is_byte_ne by done. exact IH.
  - simpl. exact IH.
Qed.
Lemma scan_nested n l : nested n l → ∀ d, (d <= MAX_DEPTH)%N →
  scan (mkScan d false false) l =
    (if (d + n <=? MAX_DEPTH)%N then Some (mkScan d false false) else None).
Proof.
  assert (∀ n l d o c, (∀ d, (d <= MAX_DEPTH)%N → scan (mkScan d false false) l =
      (if (d + n <=? MAX_DEPTH)%N then Some (mkScan d false false) else None)) →
    (o = "["%char ∧ c = "]"%char ∨ o = "{"%char ∧ c = "}"%char) → (d <= MAX_DEPTH)%N →
    scan (mkScan d false false) (o :: l ++ [c]) =
      (if (d + (n + 1) <=? MAX_DEPTH)%N then Some (mkScan d false false) else None)) as Hbr.
  { intros m k d o c IH Hoc Hd.
    assert (scan_byte (mkScan d false false) o =
      (if (MAX_DEPTH <? d + 1)%N then None else Some (mkScan (d + 1) false false))) as Ho
      by by destruct Hoc as [[-> ->]|[-> ->]].
    assert (scan_byte (mkScan (d + 1) false false) c = Some (mkScan d false false)) as Hc.
    { destruct Hoc as [[-> ->]|[-> ->]]; unfold scan_byte; simpl; unfold u64_saturating_sub;
        do 2 f_equal; lia. }
    cbn [scan]. rewrite Ho. destruct (N.ltb_spec MAX_DEPTH (d + 1)).
    - by destruct (N.leb_spec (d + (m + 1)) MAX_DEPTH); [lia|].
    - cbn [mbind option_bind]. rewrite scan_app, IH by lia. rewrite (N.add_comm m), N.add_assoc.
      destruct (_ <=? _)%N; [|done]. cbn [mbind option_bind scan]. by rewrite Hc. }
  induction 1 as [l Hl|l Hl|m n l k _ IHl _ IHk|n l _ IH|n l _ IH]; intros d Hd.
  - rewrite scan_plain by done. by rewrite N.add_0_r, (proj2 (N.leb_le _ _)).
  - simpl. rewrite N.add_0_r, (proj2 (N.leb_le _ _)) by done. by apply scan_literal.
  - rewrite scan_app, IHl by done.
    destruct (N.leb_spec (d + m) MAX_DEPTH), (N.leb_spec (d + N.max m n) MAX_DEPTH); try lia; simpl.
    + rewrite IHk by done. by rewrite (proj2 (N.leb_le _ _)) by lia.
    + rewrite IHk by done. by rewrite (proj2 (N.leb_gt _ _)) by lia.
    + done.
  - apply Hbr; auto.
  - apply Hbr; auto.
Qed.

Lemma validate_result id r id' : validate_response (result id r) id' =
  if bool_decide (id = id') then Ok tt else Err "invalid correlated response".
Proof.
  change (validate_response (result id r) id') with
    (if negb (bool_decide (id = id')) || false then Err "invalid correlated response" else Ok tt
      : res string unit).
  by case_bool_decide.
Qed.
Lemma validate_reply_error id code message id' :
  (-9223372036854775808 <= code < 9223372036854775808)%Z →
  validate_response (error id code message) id' =
  if bool_decide (id = id') then Ok tt else Err "invalid correlated response".
Proof.
  intros Hc.
  change (validate_response (error id code message) id') with
    (if negb (bool_decide (id = id')) || false then Err "invalid correlated response"
     else validate_error (json_object [("code", Number code); ("message", String_ message)])
      : res string unit).
  case_bool_decide; [|done]. simpl. unfold validate_error.
  assert (value_index (json_object [("code", Number code); ("message", String_ message)]) "code" =
    Number code) as -> by done.
  unfold as_i64. rewrite (proj2 (Z.leb_le _ _)), (proj2 (Z.ltb_lt _ _)) by lia. done.
Qed.

(** ** Documents *)

(** How deep a document nests. *)
Fixpoint levels (v : Value) : N :=
  match v with
  | Array l => ((fix go l := match l with [] => 0 | v :: l => N.max (levels v) (go l) end) l + 1)%N
  | Object o => ((fix go o := match o with [] => 0 | kv :: o => N.max (levels kv.2) (go o) end) o + 1)%N
  | _ => 0%N
  end.
(** What the reader of the library is relied on for: a text it reads is
    balanced, as deep as its document. *)
Class JsonNests `{JsonText} : Prop := json_nests l doc : from_bytes l = Some doc → nested (levels doc) l.

(** The same document, its members in another order. *)
Inductive same : Value → Value → Prop :=
| same_null : same Null Null
| same_bool b : same (Bool b) (Bool b)
| same_number z : same (Number z) (Number z)
| same_float z : same (Float z) (Float z)
| same_string s : same (String_ s) (String_ s)
| same_array l k : Forall2 same l k → same (Array l) (Array k)
| same_object o m k : Forall2 (λ a b, a.1 = b.1 ∧ same a.2 b.2) o m → m ≡ₚ k → same (Object o) (Object k).

Lemma object_insert_new k v o : k ∉ o.*1 → object_insert k v o ≡ₚ (k, v) :: o.
Proof.
  induction o as [|[k0 v0] o IH]; [done|]. rewrite fmap_cons, not_elem_of_cons. intros [Hk Ho]. cbn.
  rewrite bool_decide_eq_false_2 by done. destruct (String.leb k k0); [done|].
  rewrite (IH Ho). apply perm_swap.
Qed.
Lemma unique_object_same o acc k : Forall (λ kv, ∀ x, unique kv.2 = Some x → same kv.2 x) o →
  unique_object o acc = Some k →
  ∃ m, Forall2 (λ a b, a.1 = b.1 ∧ same a.2 b.2) o m ∧ acc ++ m ≡ₚ k.
Proof.
  intros Ho. revert acc. induction Ho as [|[n v] o Hv _ IH]; intros acc; cbn.
  { intros [= <-]. exists []. split; [done|by rewrite app_nil_r]. }
  destruct (unique v) as [x|] eqn:Hx; [|done]. cbn. destruct (object_get acc n) eqn:Hg; [done|].
  intros (m & Hm & Hp)%IH. exists ((n, x) :: m). split; [by repeat constructor; auto|].
  rewrite <-Hp. rewrite object_insert_new by by apply object_get_None. symmetry. apply Permutation_middle.
Qed.
Lemma unique_same doc v : unique doc = Some v → same doc v.
Proof.
  revert v. induction doc as [| | | | |l IH|o IH] using Value_nested_ind; intros v;
    try (intros [= <-]; constructor).
  - rewrite unique_array. intros (k & Hk & ->)%fmap_Some. constructor. revert k Hk.
    induction IH as [|x l Hx _ IH]; intros k; cbn; [by intros [= <-]|].
    destruct (unique x) as [y|] eqn:Hy; [|done]. cbn. destruct (unique_list l) as [ys|]; [|done]. cbn. intros [= <-].
    constructor; auto.
  - rewrite unique_obj. intros (k & Hk & ->)%fmap_Some.
    destruct (unique_object_same o [] k IH Hk) as (m & Hm & Hp). by eapply same_object.
Qed.

(** ** Envelopes *)
Definition id_character (b : ascii) : Prop := is_ascii_alphanumeric b = true ∨ b = "_"%char ∨ b = "-"%char.
(** An ID is a short name or an integer that a double holds exactly. *)
Inductive acceptable_id : Value → Prop :=
| acceptable_name s : (1 <= strlen s <= 64)%N → Forall id_character (bytes s) → acceptable_id (String_ s)
| acceptable_number z : (0 <= z < 2 ^ 53)%Z → acceptable_id (Number z).
(** A document is the envelope of a call. *)
Inductive envelope : Value → Call → Prop :=
| envelope_object o i m : (∀ k, k ∈ o.*1 → k ∈ ["jsonrpc"; "id"; "method"; "params"]) →
    object_get o "jsonrpc" = Some (String_ "2.0") → object_get o "method" = Some (String_ m) → (strlen m <= 64)%N →
    object_get o "id" = i → (∀ id, i = Some id → acceptable_id id) →
    envelope (Object o) (mkCall i m (default (Object []) (object_get o "params")))
| envelope_array id i m params : (strlen m <= 64)%N →
    (id = Null ∧ i = None ∨ acceptable_id id ∧ i = Some id) →
    envelope (Array (String_ "2.0" :: id :: String_ m :: option_list params))
      (mkCall i m (default (Object []) params)).

Section envelopes.
Context `{JsonText}.

Lemma is_byte_true c b : is_byte c b = true → b = c.
Proof. intros Hb. destruct (decide (b = c)); [done|]. by rewrite is_byte_ne in Hb. Qed.
Lemma valid_id_acceptable id : valid_id id = true ↔ acceptable_id id.
Proof.
  unfold valid_id. rewrite orb_true_iff. split.
  - intros [Hs|Hn].
    + destruct id as [| | | |s| |]; try done. cbn [as_str] in Hs. apply andb_true_iff in Hs as [Hl Hb].
      unfold within in Hl. apply andb_true_iff in Hl as [?%N.leb_le ?%N.leb_le]. constructor; [done|].
      rewrite forallb_forall in Hb. apply Forall_forall. intros b Hin%list_elem_of_In%Hb.
      unfold id_character. rewrite !orb_true_iff in Hin.
      destruct Hin as [[?|Hu%is_byte_true]|Hh%is_byte_true]; auto.
    + destruct id as [| |z| | | |]; try done. cbn [as_u64] in Hn. destruct (_ && _) eqn:Hz; [|done].
      apply andb_true_iff in Hz as [Hz%Z.leb_le _]. apply N.leb_le in Hn. constructor. lia.
  - intros [s Hl Hb|z Hz].
    + left. cbn [as_str]. unfold within. rewrite !andb_true_iff, !N.leb_le, forallb_forall. split; [lia|].
      intros b Hin%list_elem_of_In. rewrite Forall_forall in Hb. specialize (Hb b Hin).
      destruct Hb as [->|[->| ->]]; [done|by rewrite orb_true_r..].
    + right. cbn [as_u64]. rewrite (proj2 (Z.leb_le _ _)), (proj2 (Z.ltb_lt _ _)) by lia. apply N.leb_le. lia.
Qed.
Lemma parse_body_Ok `{!JsonNests} l v :
  parse_body l = Ok v ↔ (lenN l <= MAX_RPC_BODY)%N ∧ ∃ doc, from_bytes l = Some doc ∧ (levels doc <= 32)%N ∧ unique doc = Some v.
Proof.
  unfold parse_body, parse_with_limit. destruct (N.ltb_spec MAX_RPC_BODY (lenN l)) as [Hl|Hl]; [split; [done|lia]|].
  assert (∀ doc, from_bytes l = Some doc → scan scan_start l =
    if (levels doc <=? 32)%N then Some (mkScan 0 false false) else None) as Hscan.
  { intros doc Hd. unfold scan_start. by rewrite (scan_nested (levels doc)) by (by apply json_nests || done). }
  destruct (from_bytes l) as [doc|] eqn:Hd.
  - rewrite (Hscan doc eq_refl). destruct (N.leb_spec (levels doc) 32).
    + cbn. destruct (unique doc) as [x|] eqn:Hu; cbn; naive_solver.
    + split; [done|]. intros (_ & ? & [= <-] & ? & _). lia.
  - split; [|naive_solver]. by destruct (scan _ _).
Qed.
(** What [call] makes of a value that was read. *)
Definition enveloped (value : Value) : res Value Call :=
  if match value_get value "id" with Some v => is_null v | None => false end
  then Err (error Null (-32600) "null IDs are unsupported") else
  match decode_call value with
  | None => Err (error Null (-32600) "invalid request envelope")
  | Some (jsonrpc, c) =>
      if negb (string_eqb jsonrpc "2.0") || (64 <? strlen (c_method c))%N ||
         match c_id c with Some id => negb (valid_id id) | None => false end
      then Err (error Null (-32600) "invalid JSON-RPC version or ID")
      else Ok c
  end.
Lemma call_enveloped l : call l = match parse_body l with
  | Ok value => enveloped value | Err _ => Err (error Null (-32700) "invalid JSON") | Panic => Panic end.
Proof. unfold call. by destruct (parse_body l). Qed.
Lemma checked_call j c x :
  (if negb (string_eqb j "2.0") || (64 <? strlen (c_method c))%N ||
      match c_id c with Some id => negb (valid_id id) | None => false end
   then Err (error Null (-32600) "invalid JSON-RPC version or ID") else Ok c) = (Ok x : res Value Call) ↔
  x = c ∧ j = "2.0" ∧ (strlen (c_method c) <= 64)%N ∧ ∀ id, c_id c = Some id → acceptable_id id.
Proof.
  setoid_rewrite <-valid_id_acceptable. unfold string_eqb. case_bool_decide; cbn [negb orb]; [|naive_solver].
  destruct (N.ltb_spec 64 (strlen (c_method c))); cbn [orb]; [naive_solver lia|].
  destruct (c_id c) as [i|].
  - destruct (valid_id i) eqn:Hi; cbn [negb].
    + split; [intros [= <-]; split_and!; try done; by intros ? [= <-]|by intros (-> & _)].
    + split; [done|]. intros (_ & _ & _ & Hv). by rewrite (Hv i eq_refl) in Hi.
  - split; [by intros [= <-]|by intros (-> & _)].
Qed.
Lemma enveloped_object o c : enveloped (Object o) = Ok c ↔ envelope (Object o) c.
Proof.
  unfold enveloped. cbn [value_get]. split.
  - destruct (match object_get o "id" with Some v => is_null v | None => false end) eqn:Hnull; [done|].
    unfold decode_call. destruct (forallb _ o) eqn:Hkeys; [|done]. cbn [mbind option_bind].
    unfold field_str. destruct (object_get o "jsonrpc") as [[]|] eqn:Hj; cbn; try done.
    destruct (object_get o "method") as [[| | | |m| |]|] eqn:Hm; cbn; try done.
    intros (-> & -> & Hl & Hi)%(checked_call _ (mkCall _ _ _)). cbn [c_id c_method] in *.
    assert (match object_get o "id" with Some Null | None => None | Some i => Some i end = object_get o "id") as Hid
      by (destruct (object_get o "id") as [[]|]; done).
    rewrite Hid in *. apply envelope_object; try done.
    rewrite forallb_forall in Hkeys. intros k (kv & -> & Hin%list_elem_of_In%Hkeys)%list_elem_of_fmap.
    by apply bool_decide_eq_true in Hin.
  - intros He. inversion He as [o' i m Hkeys Hj Hm Hl Hi Hid|]; subst.
    assert (match object_get o "id" with Some v => is_null v | None => false end = false) as ->.
    { destruct (object_get o "id") as [v|]; [|done]. specialize (Hid v eq_refl). by destruct Hid. }
    unfold decode_call. assert (forallb (λ kv, bool_decide (kv.1 ∈ ["jsonrpc"; "id"; "method"; "params"])) o = true) as ->.
    { apply forallb_forall. intros kv Hin%list_elem_of_In. apply bool_decide_eq_true, Hkeys, list_elem_of_fmap. by exists kv. }
    cbn [mbind option_bind]. unfold field_str. rewrite Hj, Hm. cbn.
    assert (match object_get o "id" with Some Null | None => None | Some i => Some i end = object_get o "id") as ->.
    { destruct (object_get o "id") as [v|]; [|done]. specialize (Hid v eq_refl). by destruct Hid. }
    by apply (checked_call _ (mkCall _ _ _)).
Qed.
(** An array is read by position. *)
Definition given_id (i : Value) : option Value := match i with Null => None | i => Some i end.
Lemma enveloped_positions j i m params :
  enveloped (Array (j :: i :: m :: option_list params)) =
  match (x ← as_str j; y ← as_str m; Some (x, mkCall (given_id i) y (default (Object []) params))) with
  | None => Err (error Null (-32600) "invalid request envelope")
  | Some (jsonrpc, c) =>
      if negb (string_eqb jsonrpc "2.0") || (64 <? strlen (c_method c))%N ||
         match c_id c with Some id => negb (valid_id id) | None => false end
      then Err (error Null (-32600) "invalid JSON-RPC version or ID") else Ok c
  end.
Proof. by destruct params, j, m. Qed.
Lemma enveloped_array l c : enveloped (Array l) = Ok c ↔ envelope (Array l) c.
Proof.
  split.
  - destruct (decide (3 <= length l <= 4)) as [Hl|Hl].
    2:{ unfold enveloped, decode_call. cbn [value_get].
        rewrite (proj2 (andb_false_iff _ _)); [done|]. rewrite !Nat.leb_gt. lia. }
    assert (∃ j i m params, l = j :: i :: m :: option_list params) as (j & i & m & params & ->).
    { destruct l as [|j [|i [|m [|x [|y l]]]]]; simpl in Hl; try lia;
        [by exists j, i, m, None|by exists j, i, m, (Some x)]. }
    rewrite enveloped_positions. destruct (as_str j) as [x|] eqn:Hj; [|done].
    destruct (as_str m) as [y|] eqn:Hm; [|done]. cbn [mbind option_bind].
    destruct j; try done. destruct m; try done. injection Hj as ->. injection Hm as ->.
    intros (-> & -> & Hlen & Hi)%(checked_call _ (mkCall _ _ _)). cbn [c_id c_method] in *.
    apply envelope_array; [done|]. destruct i; try (right; by auto); by left.
  - intros He. inversion He as [|id i m params Hl Hi]; subst. rewrite enveloped_positions. cbn [as_str mbind option_bind].
    assert (given_id id = i) as ->.
    { destruct Hi as [[-> ->]|[Ha ->]]; [done|]. by destruct Ha. }
    apply (checked_call _ (mkCall _ _ _)). cbn [c_id c_method]. split_and!; [done..|]. naive_solver.
Qed.
Lemma enveloped_envelope v c : enveloped v = Ok c ↔ envelope v c.
Proof.
  destruct v as [| | | | |l|o]; [..|apply enveloped_array|apply enveloped_object]; (split; [done|intros He; inversion He]).
Qed.

(** C17. The reader is strict: a text is accepted as a call exactly when it is
    at most 1 MiB long and JSON, its document nests at most 32 deep and
    repeats no key in any object, and the document, its members in the order
    of their keys, is an envelope of that call: version 2.0, no member it
    should not have, a method of at most 64 bytes, no ID or an acceptable one.
    It never panics, and what it refuses it answers with an error. *)
Theorem reader_is_strict `{!JsonNests} l :
  (∀ c, call l = Ok c ↔
    (lenN l <= 1048576)%N ∧ ∃ doc value, from_bytes l = Some doc ∧ (levels doc <= 32)%N ∧ no_repeats doc ∧
      unique doc = Some value ∧ same doc value ∧ envelope value c) ∧
  ((∃ c, call l = Ok c) ∨ ∃ code text, code ∈ [-32700; -32600]%Z ∧ call l = Err (error Null code text)).
Proof.
  assert (∀ v, parse_body l = Ok v → call l = enveloped v) as Hcall by (intros v Hv; by rewrite call_enveloped, Hv).
  split.
  - intros c. split.
    + rewrite call_enveloped. destruct (parse_body l) as [v|e|] eqn:Hp; [|done..]. intros Hc%enveloped_envelope.
      apply parse_body_Ok in Hp as (Hl & doc & Hd & Hlev & Hu). split; [done|]. exists doc, v.
      split_and!; try done; [apply unique_spec; by eexists|by apply unique_same].
    + intros (Hl & doc & v & Hd & Hlev & _ & Hu & _ & He). rewrite (Hcall v); [by apply enveloped_envelope|].
      apply parse_body_Ok. split; [done|]. by exists doc.
  - rewrite call_enveloped. destruct (parse_body l) as [v|e|] eqn:Hp.
    + destruct (enveloped v) as [c|e|] eqn:He; [left; by eexists|right|exfalso]; revert He; unfold enveloped;
        repeat case_match; try done; intros [= <-]; eexists _, _; (split; [|done]); set_solver.
    + right. eexists _, _. split; [|done]. set_solver.
    + exfalso. revert Hp. unfold parse_body, parse_with_limit, res_ok_or. repeat case_match; done.
Qed.

Lemma valid_id_plain id : valid_id id = true →
  unique id = Some id ∧ is_null id = false ∧ id ≠ Null.
Proof. by destruct id. Qed.

(** The envelopes fit each other: a printed request is accepted with its
    ID, method and parameters, and the server's result or error for an ID
    passes the client's validation for that ID and for no other. *)
Theorem envelopes_fit id method params code message r id' :
  valid_id id = true → (strlen method <= 64)%N → unique params = Some params →
  let l := to_bytes (request id method params) in
  from_bytes l = Some (request id method params) → is_Some (scan scan_start l) →
  (lenN l <= MAX_RPC_BODY)%N →
  (-9223372036854775808 <= code < 9223372036854775808)%Z →
  call l = Ok (mkCall (Some id) method params) ∧
  (validate_response (result id r) id' = Ok tt ↔ id' = id) ∧
  (validate_response (error id code message) id' = Ok tt ↔ id' = id).
Proof.
  intros Hid Hm Hp l Hl Hs Hlen Hcode. destruct (valid_id_plain id Hid) as (Hu & Hn & Hne).
  assert (unique (request id method params) = Some (request id method params)) as Hreq.
  { unfold request, json_object. rewrite unique_obj. simpl. rewrite Hu, Hp. done. }
  split_and!.
  - unfold call, parse_body, parse_with_limit. rewrite (proj2 (N.ltb_ge _ _)) by done.
    destruct Hs as [s ->]. rewrite Hl. cbn [mbind option_bind]. rewrite Hreq. cbn [res_ok_or].
    assert (value_get (request id method params) "id" = Some id) as -> by done. rewrite Hn.
    assert (decode_call (request id method params) =
      Some ("2.0", mkCall (match id with Null => None | i => Some i end) method params)) as -> by done.
    cbn. rewrite (proj2 (N.ltb_ge _ _)) by done.
    destruct id; try done; by rewrite Hid.
  - rewrite validate_result. case_bool_decide; by split.
  - rewrite validate_reply_error by done. case_bool_decide; by split.
Qed.
End envelopes.

(** ** At concrete texts *)
Definition ping : Value := request (Number 7) "raids.members" (Object []).
(** JSON with its double quotes written as single ones. *)
Definition quotes (s : string) : Bytes := (λ b, if is_byte "'"%char b then QUOTE else b) <$> bytes s.
Definition ping_text : Bytes := quotes "{'jsonrpc':'2.0','id':7,'method':'raids.members','params':{}}".
(** A reader that knows one text. *)
Definition ping_json : JsonText := {|
  from_bytes l := if bool_decide (l = ping_text) then Some ping else None;
  json_error _ := "expected value";
  to_bytes v := if bool_decide (v = ping) then ping_text else [] |}.
Lemma quoted_nests s : forallb (λ b, negb (is_byte QUOTE b || is_byte BACKSLASH b)) (bytes s) = true →
  nested 0 (QUOTE :: bytes s ++ [QUOTE]).
Proof.
  intros Hs. apply nested_literal. induction (bytes s) as [|b l IH]; [constructor|]. cbn [forallb] in Hs.
  apply andb_true_iff in Hs as [Hb Hl]. apply negb_true_iff, orb_false_iff in Hb as [Hq Hk].
  apply body_char; [intros ->|intros ->|by apply IH]; by rewrite is_byte_refl in *.
Qed.
Lemma nests_app l k : nested 0 l → nested 0 k → nested 0 (l ++ k).
Proof. apply (nested_app 0 0). Qed.
Lemma ping_nests : @JsonNests ping_json.
Proof.
  intros l doc. unfold from_bytes, ping_json. case_bool_decide as Hl; [|done]. intros Hd.
  assert (ping =  doc) as <- by congruence. assert (l = "{"%char :: ((quotes "'jsonrpc'" ++ bytes ":" ++ quotes "'2.0'" ++ bytes "," ++ quotes "'id'" ++
    bytes ":7," ++ quotes "'method'" ++ bytes ":" ++ quotes "'raids.members'" ++ bytes "," ++ quotes "'params'" ++
    bytes ":") ++ "{"%char :: [] ++ ["}"%char]) ++ ["}"%char]) as -> by (rewrite Hl; vm_compute; reflexivity).
  change (levels ping) with (N.max 0 1 + 1)%N. apply nested_object, nested_app.
  - repeat apply nests_app; first [apply nested_plain; reflexivity|idtac].
    + exact (quoted_nests "jsonrpc" eq_refl).
    + exact (quoted_nests "2.0" eq_refl).
    + exact (quoted_nests "id" eq_refl).
    + exact (quoted_nests "method" eq_refl).
    + exact (quoted_nests "raids.members" eq_refl).
    + exact (quoted_nests "params" eq_refl).
  - apply (nested_object 0 []), nested_plain. reflexivity.
Qed.

Lemma reader_is_strict_witness :
  @call ping_json ping_text = Ok (mkCall (Some (Number 7)) "raids.members" (Object [])).
Proof.
  apply (@reader_is_strict ping_json ping_nests ping_text). split; [by vm_compute|].
  destruct (unique ping) as [v|] eqn:Hv; [|by vm_compute in Hv]. exists ping, v.
  split; [reflexivity|]. split; [by vm_compute|]. split; [apply unique_spec; by exists v|]. split; [done|].
  split; [by apply unique_same|]. vm_compute in Hv. injection Hv as <-.
  match goal with |- envelope (Object ?o) _ => apply (envelope_object o (Some (Number 7)) "raids.members") end; try reflexivity.
  - intros k Hk. cbn in Hk. set_solver.
  - by vm_compute.
  - intros id [= <-]. constructor. lia.
Defined.
Lemma envelopes_fit_witness :
  @call ping_json ping_text = Ok (mkCall (Some (Number 7)) "raids.members" (Object [])) ∧
  (validate_response (result (Number 7) Null) (Number 8) = Ok tt ↔ Number 8 = Number 7).
Proof.
  destruct (@envelopes_fit ping_json (Number 7) "raids.members" (Object []) (-32601) "no such method"
    Null (Number 8) eq_refl ltac:(by vm_compute) eq_refl ltac:(by vm_compute) ltac:(exists (mkScan 0 false false); by vm_compute)
    ltac:(by vm_compute) ltac:(lia)) as (Hc & Hr & _).
  exact (conj Hc Hr).
Defined.
