(* ===== verification/Channel.v ===== *)
(** * The supervisor's channel

    [libs/runtime/src/channel.rs]: framed JSON over a stream socket, with the
    descriptors of each frame attached to its first bytes. A descriptor is a
    number that stands for an owned capability. What the kernel answers to
    each [sendmsg] and [recvmsg] is an argument, one answer per call; when the
    answers run out the socket would block. *)
From S2P Require Import Prelude Json Grammar Messages Framing.
From Stdlib Require Import Ascii.

Definition MAX_FDS : N := 240.
Definition MAX_FRAME_BODY : N := 8 * 1024 * 1024.
Definition MAX_QUEUED_BYTES : N := 2 * MAX_FRAME_BODY.
Definition MAX_QUEUED_FRAMES : N := 64.
Definition MAX_QUEUED_FDS : N := MAX_FDS * 2.
Definition HEADER : string := "Descriptor-Count".
Definition RECEIVE_BUFFER : N := 64 * 1024.

Abbreviation Fd := N.
Record Frame := mkFrame { value : Value; fds : list Fd }.
Record Output := mkOutput { out_bytes : Bytes; offset : N; out_fds : list Fd }.

Inductive ChannelError :=
| BrokenPipe | WouldBlock | ConnectionReset | ChannelTimedOut | ChannelEof | WriteZero
| InvalidData (message : string) | OtherError (message : string).
#[export] Instance ChannelError_eq_dec : EqDecision ChannelError.
Proof. solve_decision. Defined.

(** [stream] holds what the kernel took so far, [None] once shut down: each
    accepted piece with the descriptors sent along. *)
Record Channel := mkChannel {
  stream : option (list (Bytes * list Fd));
  decoder : Decoder;
  input : Bytes;
  partial : bool;
  received : list Fd;
  output : list Output;
  queued_bytes : N;
  queued_fds : N }.

Definition frame_decoder : Decoder := with_headers MAX_FRAME_BODY None [bytes HEADER].
Definition new_channel : Channel := mkChannel (Some []) frame_decoder [] false [] [] 0 0.

Definition set_stream s (c : Channel) : Channel :=
  mkChannel s (decoder c) (input c) (partial c) (received c) (output c) (queued_bytes c)
    (queued_fds c).
Definition set_decoder d (c : Channel) : Channel :=
  mkChannel (stream c) d (input c) (partial c) (received c) (output c) (queued_bytes c)
    (queued_fds c).
Definition set_input l (c : Channel) : Channel :=
  mkChannel (stream c) (decoder c) l (partial c) (received c) (output c) (queued_bytes c)
    (queued_fds c).
Definition set_partial b (c : Channel) : Channel :=
  mkChannel (stream c) (decoder c) (input c) b (received c) (output c) (queued_bytes c)
    (queued_fds c).
Definition set_received l (c : Channel) : Channel :=
  mkChannel (stream c) (decoder c) (input c) (partial c) l (output c) (queued_bytes c)
    (queued_fds c).
Definition set_output l nb nf (c : Channel) : Channel :=
  mkChannel (stream c) (decoder c) (input c) (partial c) (received c) l nb nf.

Definition closed (c : Channel) : bool := negb (bool_decide (is_Some (stream c))).
Definition wants_write (c : Channel) : bool := negb (bool_decide (output c = [])).

(** ** References *)

(** Every attached descriptor has exactly one reference: [{"$fd": n}]. *)
Fixpoint visit (count : N) (v : Value) (seen : gset N) : option (gset N) :=
  match v with
  | Object o =>
      match object_get o "$fd" with
      | Some index =>
          match as_u64 index with
          | Some n =>
              if negb (lenN o =? 1)%N || (count <=? n)%N || bool_decide (n ∈ seen) then None
              else Some ({[n]} ∪ seen)
          | None => None
          end
      | None => (fix go o seen := match o with
          | [] => Some seen
          | kv :: o => seen ← visit count kv.2 seen; go o seen
          end) o seen
      end
  | Array l => (fix go l seen := match l with
      | [] => Some seen
      | v :: l => seen ← visit count v seen; go l seen
      end) l seen
  | _ => Some seen
  end.
Definition references (v : Value) (count : N) : res ChannelError unit :=
  match visit count v ∅ with
  | None => Err (InvalidData "invalid descriptor reference")
  | Some seen =>
      if (N.of_nat (size seen) =? count)%N then Ok tt
      else Err (InvalidData "unreferenced descriptors")
  end.

Section channel.
Context `{JsonText}.
Abbreviation K := (M Channel ChannelError).

(** ** Sending *)
Definition frame_bytes (body : Bytes) (count : N) : Bytes :=
  bytes ("Content-Length: " +:+ show (lenN body)) ++ CRLF ++
  bytes (HEADER +:+ ": " +:+ show count) ++ HEADER_END ++ body.

(** [queue(value, &mut fds)]: the descriptors the caller keeps come back. *)
Definition queue (v : Value) (fds : list Fd) (c : Channel) :
    res ChannelError unit * list Fd * Channel :=
  if closed c then (Err BrokenPipe, fds, c) else
  if (MAX_FDS <? lenN fds)%N
  then (Err (InvalidData "descriptor frame budget exceeded; batch the transfer"), fds, c) else
  match references v (lenN fds) with
  | Err e => (Err e, fds, c)
  | Panic => (Panic, fds, c)
  | Ok _ =>
      let body := to_bytes v in
      if (lenN body =? 0)%N || (MAX_FRAME_BODY <? lenN body)%N
      then (Err (InvalidData "control frame too large"), fds, c) else
      let l := frame_bytes body (lenN fds) in
      if (MAX_QUEUED_FRAMES <=? lenN (output c))%N ||
         (MAX_QUEUED_BYTES <? queued_bytes c + lenN l)%N ||
         (MAX_QUEUED_FDS <? queued_fds c + lenN fds)%N
      then (Err WouldBlock, fds, c) else
      (Ok tt, [], set_output (output c ++ [mkOutput l 0 fds]) (queued_bytes c + lenN l)
                    (queued_fds c + lenN fds) c)
  end.

(** Every descriptor, received or unsent, is closed before the peer can see
    the end of the stream. *)
Definition close (c : Channel) : Channel := mkChannel None frame_decoder [] false [] [] 0 0.

(** What [sendmsg] answers. *)
Inductive Sent := SentBytes (n : N) | SendBlocks | SendInterrupted | SendFails (e : ChannelError).
Definition SEND_TURNS : nat := 32.

(** The first [n] bytes of the front frame left, its descriptors with them. *)
Definition account (n : N) : K unit :=
  modify (λ c, match output c with
    | [] => c
    | frame :: rest =>
        let left := drop (N.to_nat (offset frame)) (out_bytes frame) in
        let frame' := mkOutput (out_bytes frame) (offset frame + n) [] in
        let output' := if (offset frame + n =? lenN (out_bytes frame))%N then rest
                       else frame' :: rest in
        set_output output' (queued_bytes c - n) (queued_fds c - lenN (out_fds frame))
          (set_stream ((λ s, s ++ [(take (N.to_nat n) left, out_fds frame)]) <$> stream c) c)
    end).
Fixpoint flush_turns (turns : nat) (answers : list Sent) : K unit :=
  match turns with
  | O => mret tt
  | S turns =>
      c ← get;
      match output c, answers with
      | [], _ => mret tt
      | _, [] | _, SendBlocks :: _ => mret tt
      | _, SendInterrupted :: answers => flush_turns turns answers
      | _, SendFails e :: _ => throw e
      | _, SentBytes n :: answers =>
          if (n =? 0)%N then throw WriteZero else
          _ ← account n; flush_turns turns answers
      end
  end.
Definition flush_inner (answers : list Sent) : K unit :=
  c ← get;
  _ ← refuse (closed c) BrokenPipe;
  flush_turns SEND_TURNS answers.
(** An error closes the channel. *)
Definition or_close {A} (m : K A) : K A := λ c,
  match m c with
  | (Ok a, c') => (Ok a, c')
  | (e, c') => (e, close c')
  end.
Definition flush (answers : list Sent) : K unit := or_close (flush_inner answers).

(** ** Receiving *)
Definition frame_fault (e : FrameError) : ChannelError :=
  match e with TimedOut => ChannelTimedOut | Malformed m => OtherError m end.
Definition decode (now : N) : K (option Frame) :=
  c ← get;
  if (lenN (input c) =? 0)%N then mret None else
  _ ← put (set_partial true c);
  c ← get;
  match push (input c) now (decoder c) with
  | (Err e, d) => _ ← put (set_decoder d c); throw (frame_fault e)
  | (Panic, d) => λ c, (Panic, c)
  | (Ok (consumed, body), d) =>
      _ ← put (set_input (drop (N.to_nat consumed) (input c)) (set_decoder d c));
      match body with
      | None => mret None
      | Some body =>
          count_text ← ok_or (header d (bytes HEADER)) (InvalidData "missing descriptor count");
          _ ← refuse (bool_decide (count_text = "") || negb (forallb is_ascii_digit (bytes count_text)))
                (InvalidData "invalid descriptor count");
          count ← ok_or (parse_usize (bytes count_text)) (InvalidData "invalid descriptor count");
          c ← get;
          _ ← refuse ((MAX_FDS <? count)%N || negb (count =? lenN (received c))%N)
                (InvalidData "descriptor count mismatch");
          v ← lift (map_err OtherError (parse_with_limit body MAX_FRAME_BODY));
          _ ← lift (references v count);
          _ ← put (set_partial false (set_decoder frame_decoder
                     (set_received (drop (N.to_nat count) (received c)) c)));
          mret (Some (mkFrame v (take (N.to_nat count) (received c))))
      end
  end.

(** What [recvmsg] answers: the bytes, the descriptors that came with them,
    and whether the ancillary data was truncated or of another kind. *)
Inductive Received :=
| Recv (l : Bytes) (fds : list Fd) (bad : bool)
| RecvBlocks | RecvInterrupted | RecvFails (e : ChannelError).
Definition RECEIVE_TURNS : nat := 288.
Definition receive_room (c : Channel) : N := N.min RECEIVE_BUFFER (remaining (decoder c)).

(** One [recvmsg] that brought something: [None] means the peer is done. *)
Definition accept (l : Bytes) (fds : list Fd) (bad : bool) : K bool :=
  c ← get;
  let first_byte := negb (partial c) && (lenN (input c) =? 0)%N in
  let c' := set_received (received c ++ fds) c in
  _ ← put c';
  _ ← refuse (bad || (negb first_byte && negb (lenN fds =? 0)%N) ||
              (MAX_FDS <? lenN (received c'))%N) (InvalidData "invalid ancillary data");
  if (lenN l =? 0)%N then
    _ ← refuse (partial c' || negb (lenN (received c') =? 0)%N) ChannelEof;
    _ ← modify close;
    mret false
  else
    _ ← put (set_input (input c' ++ l) c');
    mret true.
(** Each turn reads the clock and asks the kernel; [now] is the time when the
    answers have run out. The answers left are returned. *)
Fixpoint receive_turns (turns : nat) (answers : list (Received * N)) (now : N) :
    K (option Frame * list (Received * N)) :=
  match turns with
  | O => mret (None, answers)
  | S turns =>
      frame ← decode (match answers with (_, now) :: _ => now | [] => now end);
      match frame with
      | Some frame => mret (Some frame, answers)
      | None =>
          c ← get;
          if closed c then mret (None, answers) else
          match answers with
          | [] => mret (None, [])
          | (answer, asked) :: answers =>
              _ ← refuse (expired (decoder c) asked) ChannelTimedOut;
              match answer with
              | RecvBlocks => mret (None, answers)
              | RecvInterrupted => receive_turns turns answers now
              | RecvFails e => throw e
              | Recv l fds bad =>
                  more ← accept l fds bad;
                  if (more : bool) then receive_turns turns answers now else mret (None, answers)
              end
          end
      end
  end.
Definition receive (answers : list (Received * N)) (now : N) :
    K (option Frame * list (Received * N)) :=
  or_close (receive_turns RECEIVE_TURNS answers now).
End channel.
