(* ===== verification/ChannelSpec.v ===== *)
(** * What the channel promises

    References are exact, the queue is atomic and bounded, and bytes leave in
    the order they were queued, with their descriptors on the first byte. *)
From S2P Require Import Prelude Json Grammar Messages Framing FramingFacts FramingSpec Channel.
From Stdlib Require Import Ascii.

(** ** References *)

(** The references of a document in order; [None] when one is malformed. *)
Fixpoint refs (v : Value) : option (list N) :=
  match v with
  | Object o =>
      match object_get o "$fd" with
      | Some index => n ← as_u64 index; if (lenN o =? 1)%N then Some [n] else None
      | None => (fix go o := match o with
          | [] => Some []
          | kv :: o => a ← refs kv.2; b ← go o; Some (a ++ b)
          end) o
      end
  | Array l => (fix go l := match l with
      | [] => Some []
      | v :: l => a ← refs v; b ← go l; Some (a ++ b)
      end) l
  | _ => Some []
  end.
Fixpoint refs_list (l : list Value) : option (list N) :=
  match l with
  | [] => Some []
  | v :: l => a ← refs v; b ← refs_list l; Some (a ++ b)
  end.
Fixpoint visit_list (count : N) (l : list Value) (seen : gset N) : option (gset N) :=
  match l with
  | [] => Some seen
  | v :: l => seen ← visit count v seen; visit_list count l seen
  end.
Lemma refs_values o : object_get o "$fd" = None → refs (Object o) = refs_list o.*2.
Proof.
  intros Ho. simpl. rewrite Ho. clear Ho. induction o as [|kv o IH]; [done|]. simpl. by rewrite IH.
Qed.
Lemma visit_values count o seen : object_get o "$fd" = None →
  visit count (Object o) seen = visit_list count o.*2 seen.
Proof.
  intros Ho. simpl. rewrite Ho. clear Ho. revert seen.
  induction o as [|kv o IH]; intros seen; [done|]. simpl. destruct (visit count kv.2 seen); [apply IH|done].
Qed.
Lemma refs_array l : refs (Array l) = refs_list l.
Proof. induction l as [|v l IH]; [done|]. simpl in *. by rewrite IH. Qed.
Lemma visit_array count l seen : visit count (Array l) seen = visit_list count l seen.
Proof.
  revert seen. induction l as [|v l IH]; intros seen; [done|]. simpl.
  destruct (visit count v seen); [apply IH|done].
Qed.

(** New, in range and not repeated. *)
Definition fresh_refs (count : N) (seen : gset N) (l : list N) : Prop :=
  NoDup l ∧ ∀ n, n ∈ l → (n < count)%N ∧ n ∉ seen.
Definition visits (count : N) (v : Value) : Prop := ∀ seen seen',
  visit count v seen = Some seen' ↔
  ∃ l, refs v = Some l ∧ fresh_refs count seen l ∧ seen' = list_to_set l ∪ seen.
Lemma fresh_refs_app count seen a b :
  fresh_refs count seen (a ++ b) ↔
  fresh_refs count seen a ∧ fresh_refs count (list_to_set a ∪ seen) b.
Proof. unfold fresh_refs. rewrite NoDup_app. set_solver. Qed.
Lemma visit_list_spec count l : Forall (visits count) l → ∀ seen seen',
  visit_list count l seen = Some seen' ↔
  ∃ r, refs_list l = Some r ∧ fresh_refs count seen r ∧ seen' = list_to_set r ∪ seen.
Proof.
  induction 1 as [|v l Hv _ IH]; intros seen seen'; simpl.
  { split.
    - intros [= <-]. exists []. split_and!; [done| |set_solver]. split; [apply NoDup_nil_2|set_solver].
    - intros (r & [= <-] & _ & ->). f_equal. set_solver. }
  destruct (visit count v seen) as [s1|] eqn:Hs; simpl.
  - apply Hv in Hs as (a & Ha & Hfa & ->). rewrite IH, Ha. simpl. split.
    + intros (b & -> & Hfb & ->). exists (a ++ b). rewrite fresh_refs_app, list_to_set_app_L.
      split_and!; [done|done|done|set_solver].
    + destruct (refs_list l) as [b|]; simpl; [|naive_solver]. intros (r & [= <-] & Hf & ->).
      apply fresh_refs_app in Hf as [_ Hfb]. exists b. rewrite list_to_set_app_L.
      split_and!; [done|done|set_solver].
  - split; [done|]. intros (r & Hr & Hf & _). destruct (refs v) as [a|] eqn:Ha; [|done]. simpl in Hr.
    destruct (refs_list l) as [b|]; [|done]. simplify_eq/=. apply fresh_refs_app in Hf as [Hfa _].
    assert (visit count v seen = Some (list_to_set a ∪ seen)) by (apply Hv; eauto). congruence.
Qed.
Lemma visit_spec count v : visits count v.
Proof.
  induction v as [| | | | |l IH|o IH] using Value_nested_ind; intros seen seen'.
  1-5: simpl; split;
    [intros [= <-]; exists []; split_and!; [done|split; [apply NoDup_nil_2|set_solver]|set_solver]
    |intros (l & [= <-] & _ & ->); f_equal; set_solver].
  - rewrite visit_array, refs_array. by apply visit_list_spec.
  - destruct (object_get o "$fd") as [index|] eqn:Ho.
    + simpl. rewrite Ho. destruct (as_u64 index) as [n|]; simpl; [|naive_solver].
      destruct (N.eqb_spec (lenN o) 1); simpl; [|naive_solver].
      destruct (N.leb_spec count n); simpl.
      { split; [done|]. intros (l & [= <-] & [_ Hl] & _). destruct (Hl n ltac:(left)). lia. }
      case_bool_decide.
      { split; [done|]. intros (l & [= <-] & [_ Hl] & _). destruct (Hl n ltac:(left)). done. }
      split.
      * intros [= <-]. exists [n]. split_and!; [done| |set_solver].
        split; [apply NoDup_singleton|]. intros n' ->%list_elem_of_singleton. done.
      * intros (l & [= <-] & _ & ->). f_equal. set_solver.
    + rewrite visit_values, refs_values by done. apply visit_list_spec. by apply Forall_fmap.
Qed.

(** The numbers [0..count]. *)
Definition indexes (count : N) : list N := N.of_nat <$> seq 0 (N.to_nat count).
Lemma elem_of_indexes count n : n ∈ indexes count ↔ (n < count)%N.
Proof.
  unfold indexes. rewrite list_elem_of_fmap. split.
  - intros (i & -> & Hi%elem_of_seq). lia.
  - intros Hn. exists (N.to_nat n). rewrite elem_of_seq. lia.
Qed.
Lemma NoDup_indexes count : NoDup (indexes count).
Proof. unfold indexes. apply NoDup_fmap; [apply _|apply NoDup_seq]. Qed.
Lemma length_indexes count : length (indexes count) = N.to_nat count.
Proof. unfold indexes. by rewrite length_fmap, length_seq. Qed.

(** References are exact: a frame with [count] descriptors passes the
    check exactly when its document's references are well-formed and name
    each of the descriptors [0..count] once, in any order. *)
Theorem references_are_exact v count :
  references v count = Ok tt ↔
  ∃ l, refs v = Some l ∧ Permutation l (indexes count).
Proof.
  unfold references. destruct (visit count v ∅) as [seen|] eqn:Hv.
  - apply visit_spec in Hv as (l & Hl & [Hnd Hr] & ->). rewrite union_empty_r_L, size_list_to_set by done.
    rewrite Hl. destruct (N.eqb_spec (N.of_nat (length l)) count) as [Hc|Hc].
    + split; [intros _|done]. exists l. split; [done|].
      apply submseteq_length_Permutation.
      * apply NoDup_submseteq; [done|]. intros n Hn%Hr. by apply elem_of_indexes, Hn.
      * rewrite length_indexes. lia.
    + split; [done|]. intros (l' & [= <-] & Hp). apply Permutation_length in Hp.
      rewrite length_indexes in Hp. lia.
  - split; [done|]. intros (l & Hl & Hp). exfalso.
    assert (visit count v ∅ = Some (list_to_set l ∪ ∅)) as Hs; [|congruence].
    apply visit_spec. exists l. split_and!; [done| |done]. split.
    + rewrite Hp. apply NoDup_indexes.
    + intros n. rewrite Hp, elem_of_indexes. set_solver.
Qed.

(** ** Sending *)

(** A stream with its descriptors in place: each byte and what is attached
    to it. *)
Abbreviation Cell := (ascii * list Fd)%type.
Definition attach (fds : list Fd) (l : Bytes) : list Cell :=
  match l with [] => [] | b :: l => (b, fds) :: ((λ b, (b, [])) <$> l) end.
Definition sent_cells (c : Channel) : list Cell :=
  default [] (stream c) ≫= λ s, attach s.2 s.1.
Definition unsent_bytes (o : Output) : Bytes := drop (N.to_nat (offset o)) (out_bytes o).
Definition pending_cells (c : Channel) : list Cell :=
  output c ≫= λ o, attach (out_fds o) (unsent_bytes o).

Definition sum (l : list N) : N := foldr N.add 0%N l.
Lemma sum_app l k : sum (l ++ k) = (sum l + sum k)%N.
Proof. induction l as [|n l IH]; [done|]. simpl. rewrite IH. lia. Qed.
(** The counters are those of the queue, and within the limits. *)
Record accounted (c : Channel) : Prop := {
  ac_offsets : Forall (λ o, offset o < lenN (out_bytes o))%N (output c);
  ac_bytes : queued_bytes c = sum ((λ o, lenN (unsent_bytes o)) <$> output c);
  ac_fds : queued_fds c = sum ((λ o, lenN (out_fds o)) <$> output c);
  ac_max_bytes : (queued_bytes c <= MAX_QUEUED_BYTES)%N;
  ac_max_fds : (queued_fds c <= MAX_QUEUED_FDS)%N;
  ac_frames : (lenN (output c) <= MAX_QUEUED_FRAMES)%N }.

Lemma accounted_none s d i p r : accounted (mkChannel s d i p r [] 0 0).
Proof. split; simpl; try done; unfold MAX_QUEUED_BYTES, MAX_QUEUED_FDS, MAX_QUEUED_FRAMES; lia. Qed.
Lemma lenN_drop {A} n (l : list A) : lenN (drop (N.to_nat n) l) = (lenN l - n)%N.
Proof. unfold lenN. rewrite length_drop. lia. Qed.
Lemma attach_app fds l k : l ≠ [] → attach fds (l ++ k) = attach fds l ++ attach [] k.
Proof.
  destruct l as [|b l]; [done|]. intros _. simpl. rewrite fmap_app. do 2 f_equal. by destruct k.
Qed.
Lemma attach_split n fds l : (0 < n <= lenN l)%N →
  attach fds l = attach fds (take (N.to_nat n) l) ++ attach [] (drop (N.to_nat n) l).
Proof.
  intros Hn. rewrite <-attach_app; [by rewrite take_drop|].
  intros Hnil%(f_equal length). revert Hnil. rewrite length_take. unfold lenN in Hn. simpl. lia.
Qed.

Section channel.
Context `{JsonText}.

Lemma queue_cases v fds c :
  (∃ e, queue v fds c = (Err e, fds, c)) ∨
  (let l := frame_bytes (to_bytes v) (lenN fds) in
   references v (lenN fds) = Ok tt ∧ (0 < lenN (to_bytes v) <= MAX_FRAME_BODY)%N ∧
   (lenN fds <= MAX_FDS)%N ∧ is_Some (stream c) ∧
   (lenN (output c) < MAX_QUEUED_FRAMES)%N ∧ (queued_bytes c + lenN l <= MAX_QUEUED_BYTES)%N ∧
   (queued_fds c + lenN fds <= MAX_QUEUED_FDS)%N ∧
   queue v fds c = (Ok tt, [], set_output (output c ++ [mkOutput l 0 fds])
     (queued_bytes c + lenN l) (queued_fds c + lenN fds) c)).
Proof.
  unfold queue, closed. case_bool_decide; simpl; [|eauto].
  destruct (N.ltb_spec MAX_FDS (lenN fds)); [eauto|].
  destruct (references v (lenN fds)) as [[]|e|] eqn:Hr; [|eauto|].
  - destruct (N.eqb_spec (lenN (to_bytes v)) 0); simpl; [eauto|].
    destruct (N.ltb_spec MAX_FRAME_BODY (lenN (to_bytes v))); [eauto|].
    destruct (N.leb_spec MAX_QUEUED_FRAMES (lenN (output c))); simpl; [eauto|].
    destruct (N.ltb_spec MAX_QUEUED_BYTES (queued_bytes c + lenN (frame_bytes (to_bytes v) (lenN fds))));
      simpl; [eauto|].
    destruct (N.ltb_spec MAX_QUEUED_FDS (queued_fds c + lenN fds)); simpl; [eauto|].
    right. split_and!; try done; lia.
  - exfalso. revert Hr. unfold references. by repeat case_match.
Qed.
Lemma frame_bytes_length body n : (lenN body < lenN (frame_bytes body n))%N.
Proof. unfold frame_bytes. rewrite !lenN_app. change (lenN HEADER_END) with 4%N. lia. Qed.

(** The queue is atomic: a message is refused with the channel and the
    caller's descriptors as they were, or it is accepted whole: its
    descriptors leave the caller, its frame goes to the end of the output
    with the descriptors on its first byte, and the limits on frames, bytes
    and descriptors still hold. *)
Theorem queue_is_atomic v fds c :
  accounted c →
  (∃ e, queue v fds c = (Err e, fds, c)) ∨
  (∃ c', queue v fds c = (Ok tt, [], c') ∧ accounted c' ∧ sent_cells c' = sent_cells c ∧
     pending_cells c' = pending_cells c ++ attach fds (frame_bytes (to_bytes v) (lenN fds)) ∧
     references v (lenN fds) = Ok tt).
Proof.
  intros [Ho Hb Hf Hmb Hmf Hfr].
  destruct (queue_cases v fds c) as [He|(Hr & Hl & _ & _ & Hn & H1 & H2 & Hq)]; [by left|right].
  eexists. split; [exact Hq|]. split_and!; [|done| |done].
  - split; simpl; try done.
    + apply Forall_app. split; [done|]. constructor; [|done]. simpl.
      pose proof (frame_bytes_length (to_bytes v) (lenN fds)). lia.
    + by rewrite fmap_app, sum_app, Hb; simpl; rewrite N.add_0_r.
    + by rewrite fmap_app, sum_app, Hf; simpl; rewrite N.add_0_r.
    + rewrite lenN_snoc. lia.
  - unfold pending_cells. simpl. by rewrite bind_app; simpl; rewrite app_nil_r.
Qed.

(** A kernel never takes more than it was offered. *)
Lemma account_accounted n c o rest : accounted c → output c = o :: rest →
  (0 < n <= lenN (unsent_bytes o))%N → is_Some (stream c) →
  let c' := (account n c).2 in
  accounted c' ∧ is_Some (stream c') ∧
  sent_cells c' ++ pending_cells c' = sent_cells c ++ pending_cells c.
Proof.
  intros [Ho Hb Hf Hmb Hmf Hfr] Hout Hn [s Hs]. unfold account, modify. cbn [snd].
  rewrite Hout in *. apply Forall_cons in Ho as [Hoff Ho]. rewrite fmap_cons in Hb, Hf.
  cbn [sum foldr] in Hb, Hf. fold (sum ((λ o, lenN (unsent_bytes o)) <$> rest)) in Hb.
  fold (sum ((λ o, lenN (out_fds o)) <$> rest)) in Hf.
  unfold unsent_bytes in Hn. rewrite lenN_drop in Hn. rewrite lenN_cons in Hfr.
  assert (lenN (unsent_bytes o) = lenN (out_bytes o) - offset o)%N as Hu
    by (unfold unsent_bytes; by rewrite lenN_drop).
  rewrite Hs. cbn [set_output set_stream output queued_bytes queued_fds stream fmap option_fmap option_map].
  split_and!; [|by eexists|].
  - split; simpl; try lia.
    + destruct (N.eqb_spec (offset o + n) (lenN (out_bytes o))); [done|].
      constructor; [simpl; lia|done].
    + destruct (N.eqb_spec (offset o + n) (lenN (out_bytes o))).
      * rewrite Hb, Hu. lia.
      * rewrite fmap_cons. cbn [sum foldr]. fold (sum ((λ o, lenN (unsent_bytes o)) <$> rest)).
        unfold unsent_bytes at 1. cbn [offset out_bytes]. rewrite lenN_drop, Hb, Hu. lia.
    + destruct (_ =? _)%N; [rewrite Hf; lia|]. rewrite fmap_cons. cbn [sum foldr out_fds].
      fold (sum ((λ o, lenN (out_fds o)) <$> rest)). change (lenN (@nil Fd)) with 0%N. rewrite Hf. lia.
    + destruct (_ =? _)%N; rewrite ?lenN_cons; lia.
  - unfold sent_cells, pending_cells. cbn [stream output default]. rewrite Hs, Hout. simpl.
    rewrite bind_app. simpl. rewrite app_nil_r, <-(app_assoc (s ≫= _)). f_equal.
    rewrite (attach_split n (out_fds o) (unsent_bytes o)) by lia. rewrite <-app_assoc. f_equal.
    destruct (N.eqb_spec (offset o + n) (lenN (out_bytes o))) as [He|He]; simpl.
    + rewrite drop_ge; [done|]. unfold unsent_bytes. rewrite length_drop. unfold lenN in *. lia.
    + unfold unsent_bytes. simpl. rewrite drop_drop. do 3 f_equal. lia.
Qed.

(** Answers a kernel can give: it takes at least one byte and no more than
    offered, whatever is offered. *)
Fixpoint possible (turns : nat) (answers : list Sent) (c : Channel) : Prop :=
  match turns with
  | O => True
  | S turns =>
      match output c, answers with
      | o :: _, SentBytes n :: answers =>
          (0 < n <= lenN (unsent_bytes o))%N ∧ possible turns answers (account n c).2
      | _, SendInterrupted :: answers => possible turns answers c
      | _, _ => True
      end
  end.

Lemma flush_turns_keeps turns answers c : accounted c → is_Some (stream c) →
  possible turns answers c →
  match flush_turns turns answers c with
  | (Ok _, c') => accounted c' ∧ is_Some (stream c') ∧
      sent_cells c' ++ pending_cells c' = sent_cells c ++ pending_cells c
  | (Err _, _) => True
  | (Panic, _) => False
  end.
Proof.
  revert answers c. induction turns as [|turns IH]; intros answers c Ha Hs Hp; [done|].
  cbn [flush_turns possible] in *. unfold get, mbind at 1, M_bind at 1.
  destruct (output c) as [|o rest] eqn:Ho; [done|].
  destruct answers as [|[n| | |e] answers]; try done; [|by apply IH].
  destruct Hp as [Hn Hp]. destruct (N.eqb_spec n 0); [lia|].
  destruct (account_accounted n c o rest Ha Ho Hn Hs) as (Ha' & Hs' & Hc).
  unfold mbind, M_bind. change (account n c) with (Ok tt : res ChannelError unit, (account n c).2).
  cbn iota beta. rewrite <-Hc. by apply IH.
Qed.

(** C18. Bytes leave in order: a flush without an error keeps the stream that
    was sent followed by what is pending, each byte with the descriptors
    attached to it, so a frame's descriptors leave once and with its first
    byte, and the counters stay exact; an error closes the channel with
    everything it held. *)
Theorem flush_keeps_order answers c :
  accounted c → is_Some (stream c) → possible SEND_TURNS answers c →
  match flush answers c with
  | (Ok _, c') => accounted c' ∧ sent_cells c' ++ pending_cells c' = sent_cells c ++ pending_cells c
  | (Err _, c') => c' = close c
  | (Panic, _) => False
  end.
Proof.
  intros Ha Hs. unfold flush, flush_inner. generalize SEND_TURNS as turns. intros turns Hp.
  unfold or_close, get, mbind, M_bind, refuse.
  unfold closed. rewrite bool_decide_true by done. cbn [negb]. unfold mret, M_ret.
  pose proof (flush_turns_keeps turns answers c Ha Hs Hp) as Hf.
  destruct (flush_turns turns answers c) as [[[]|e|] c']; [naive_solver|done|done].
Qed.

(** ** The stream of a channel, whatever the kernel answers *)
Definition frame_cells (f : Frame) : list Cell := attach (fds f) (frame_bytes (to_bytes (value f)) (lenN (fds f))).
(** The channel is open, and what it sent followed by what it holds are the
    frames [l]. *)
Definition carrying (c : Channel) (l : list Frame) : Prop :=
  is_Some (stream c) ∧ sent_cells c ++ pending_cells c = l ≫= frame_cells.
Lemma attach_cut n fds l : n ≠ 0 → attach fds l = attach fds (take n l) ++ attach [] (drop n l).
Proof.
  destruct l as [|b l], n as [|n]; try done. intros _. cbn. f_equal.
  rewrite <-(take_drop n l) at 1. rewrite fmap_app. f_equal. by destruct (drop n l).
Qed.
Lemma carrying_account n c l : n ≠ 0%N → output c ≠ [] → carrying c l → carrying (account n c).2 l.
Proof.
  intros Hn Hout [[s Hs] Hc]. unfold account, modify. cbn [snd]. destruct (output c) as [|o rest] eqn:Ho; [done|].
  unfold carrying, sent_cells, pending_cells in *. rewrite Hs, Ho in Hc. rewrite Hs.
  cbn [set_output set_stream output stream fmap option_fmap option_map default]. split; [by eexists|].
  rewrite <-Hc. simpl. rewrite bind_app. simpl. rewrite app_nil_r, <-(app_assoc (s ≫= _)). f_equal.
  rewrite (attach_cut (N.to_nat n) (out_fds o) (unsent_bytes o)) by lia. rewrite <-app_assoc. f_equal.
  destruct (N.eqb_spec (offset o + n) (lenN (out_bytes o))) as [He|He]; simpl.
  - rewrite drop_ge; [done|]. unfold unsent_bytes. rewrite length_drop. unfold lenN in *. lia.
  - unfold unsent_bytes. simpl. rewrite drop_drop. do 3 f_equal. lia.
Qed.
Lemma carrying_turns turns answers c c' l : carrying c l → flush_turns turns answers c = (Ok tt, c') → carrying c' l.
Proof.
  revert answers c. induction turns as [|turns IH]; intros answers c Hc; cbn [flush_turns].
  { by intros [= <-]. }
  unfold get, mbind at 1, M_bind at 1. destruct (output c) as [|o rest] eqn:Ho; [by intros [= <-]|].
  destruct answers as [|[n| | |e] answers]; try (by intros [= <-]); [|by apply IH].
  destruct (N.eqb_spec n 0) as [|Hn]; [done|]. unfold mbind, M_bind.
  change (account n c) with (Ok tt : res ChannelError unit, (account n c).2). cbn iota beta.
  apply IH, carrying_account; [done|by rewrite Ho|done].
Qed.
Lemma carrying_flush answers c c' l : carrying c l → flush answers c = (Ok tt, c') → carrying c' l.
Proof.
  intros Hc. unfold flush, flush_inner, or_close, get, mbind, M_bind, refuse. destruct (closed c); [done|].
  unfold mret, M_ret. destruct (flush_turns SEND_TURNS answers c) as [[[]|e|] c1] eqn:Hf; try done.
  intros [= <-]. by eapply carrying_turns.
Qed.
Lemma carrying_queue f c c' l k : carrying c l → queue (value f) (fds f) c = (Ok tt, k, c') → carrying c' (l ++ [f]).
Proof.
  intros [Hs Hc] Hq. destruct (queue_cases (value f) (fds f) c) as [[e He]|(_ & _ & _ & _ & _ & _ & _ & Hk)]; [congruence|].
  rewrite Hk in Hq. injection Hq as _ <-. split; [done|]. rewrite bind_app, <-Hc. unfold sent_cells, pending_cells.
  cbn [set_output stream output]. rewrite bind_app, <-app_assoc. by cbn; rewrite !app_nil_r.
Qed.
End channel.
