(* ===== verification/ChannelReceive.v ===== *)
(** * A frame arrives

    Receiving a frame with its descriptors, however the kernel cuts the
    stream into answers and however often it has nothing to say. *)
From S2P Require Import Prelude Json Grammar Messages Framing FramingFacts FramingSpec Channel.
From S2P Require Import ChannelSpec.
From Stdlib Require Import Ascii.

(** ** The header of a channel frame *)
Definition count_line (n : N) : Bytes := bytes (HEADER +:+ ": " +:+ show n).
Definition header_name : string := text (to_ascii_lowercase (bytes HEADER)).
Definition channel_header (len n : N) : Bytes := length_line len ++ CRLF ++ count_line n.
Definition count_headers (n : N) : gmap string string := {[header_name := show n]}.

Lemma count_line_bytes n : count_line n = bytes HEADER ++ ":"%char :: " "%char :: bytes (show n).
Proof. unfold count_line. by rewrite !bytes_app. Qed.
Lemma count_line_text n c : is_ascii_digit c = false → c ∉ bytes HEADER →
  c ≠ ":"%char → c ≠ " "%char → c ∉ count_line n.
Proof.
  intros Hc H1 H2 H3. destruct (show_digits n) as (ds & Hs & _ & Hd & _).
  rewrite count_line_bytes, Hs, elem_of_app, !elem_of_cons.
  intros [?|[?|[?|?]]]; try done. by eapply digits_not.
Qed.
Lemma count_line_ascii n : forallb is_ascii (count_line n) = true.
Proof.
  destruct (show_digits n) as (ds & Hs & _ & Hd & _).
  rewrite count_line_bytes, Hs, forallb_app. apply andb_true_intro. split; [by vm_compute|].
  simpl. by apply digits_ascii.
Qed.
Lemma header_line_count seen n d : allowed_headers d = [bytes HEADER] → headers d = ∅ →
  header_line seen (count_line n) d = (Ok seen, set_headers (count_headers n) d).
Proof.
  intros Ha Hh. destruct (show_digits n) as (ds & Hs & Hne & Hd & _).
  unfold header_line. munfold. rewrite count_line_bytes, split_once_at by not_listed.
  assert (eq_ignore_ascii_case (bytes HEADER) CONTENT_LENGTH = false) as E1 by by vm_compute.
  assert (eq_ignore_ascii_case (bytes HEADER) CONTENT_TYPE = false) as E2 by by vm_compute.
  rewrite Ha, Hh. cbn [app fst snd existsb].
  rewrite E1, E2, eq_ignore_refl. cbn [andb orb].
  fold header_name. rewrite lookup_empty, (bool_decide_false (is_Some None)) by by intros [].
  cbn [negb]. rewrite Hs, trim_space by by apply digits_solid. by rewrite <-Hs, text_bytes.
Qed.
Lemma channel_header_good len n d : (0 < len <= limit d)%N → (len < u64_modulus)%N →
  (n < u64_modulus)%N → allowed_headers d = [bytes HEADER] → headers d = ∅ →
  good_header (channel_header len n) (count_headers n) len d.
Proof.
  intros Hn Hm Hm' Ha Hh. unfold channel_header. split; [| | |done|].
  - rewrite <-!(app_assoc). rewrite blank_line_skip by (apply length_line_text; done || not_listed).
    rewrite blank_line_break.
    + rewrite blank_line_skip by (apply count_line_text; done || not_listed). done.
    + rewrite count_line_bytes. done.
  - apply utf8_valid_ascii. by rewrite !forallb_app, length_line_ascii, count_line_ascii.
  - rewrite !lenN_app, lenN_length_line, count_line_bytes, lenN_app, !lenN_cons.
    pose proof (show_length len Hm). pose proof (show_length n Hm').
    change (lenN HEADER_END) with 4%N. change (lenN CRLF) with 2%N.
    change (lenN (bytes HEADER)) with 16%N. unfold MAX_HEADER. lia.
  - intros l. exists false.
    rewrite split_lines_two by (apply length_line_text; done || not_listed).
    rewrite split_lines_one by (apply count_line_text; done || not_listed).
    cbn [app header_lines]. unfold mbind, M_bind. rewrite header_line_length by done.
    rewrite header_line_count by done. done.
Qed.
Lemma frame_bytes_split body n :
  frame_bytes body n = (channel_header (lenN body) n ++ HEADER_END) ++ body.
Proof. unfold frame_bytes, channel_header, length_line, count_line. by rewrite <-!app_assoc. Qed.

Definition timed_decoder (t : N) : Decoder := set_deadline (Some t) frame_decoder.
Lemma frame_decodes body n t : (0 < lenN body <= MAX_FRAME_BODY)%N → (n < u64_modulus)%N →
  ∃ d, push_bytes 0 (frame_bytes body n) (timed_decoder t) =
      (Ok (lenN (frame_bytes body n), Some body), d) ∧ headers d = count_headers n.
Proof.
  intros Hb Hn. rewrite frame_bytes_split. eexists. split.
  - rewrite <-(app_nil_r body) at 2. apply push_frame; [done..| |].
    + intros ->. unfold lenN in Hb. simpl in Hb. lia.
    + apply channel_header_good; try done. unfold MAX_FRAME_BODY, u64_modulus in *. lia.
  - done.
Qed.

(** ** One frame in any cut *)
Definition answer_cells (answers : list (Received * N)) : list Cell :=
  answers ≫= λ a, match a.1 with Recv l fds _ => attach fds l | _ => [] end.
(** Answers of a live peer between two times. *)
Definition live_answers (t0 t1 : N) (answers : list (Received * N)) : Prop :=
  Forall (λ a, (t0 <= a.2 < t1)%N ∧
    match a.1 with
    | Recv l _ bad => l ≠ [] ∧ bad = false
    | RecvFails _ => False
    | _ => True
    end) answers.

(** Call [receive] until a frame is there. *)
Fixpoint drive `{JsonText} (fuel : nat) (answers : list (Received * N)) (now : N) (c : Channel) :
    option (Frame * list (Received * N) * Channel) :=
  match fuel with
  | O => None
  | S fuel =>
      match receive answers now c with
      | (Ok (Some f, rest), c') => Some (f, rest, c')
      | (Ok (None, rest), c') => drive fuel rest now c'
      | _ => None
      end
  end.

Lemma attach_cons_inv fds fds' l l' k : l' ≠ [] → attach fds l = attach fds' l' ++ k →
  fds = fds' ∧ ∃ r, l = l' ++ r ∧ k = attach [] r.
Proof.
  destruct l' as [|b' l']; [done|]. destruct l as [|b l]; [done|]. simpl.
  intros _ [= -> -> Hk]. split; [done|].
  revert l Hk. induction l' as [|b l' IH]; intros l Hk; simpl in Hk.
  - exists l. split; [done|]. subst. by destruct l.
  - destruct l as [|b1 l]; [done|]. simpl in Hk. injection Hk as <- Hk.
    destruct (IH l Hk) as (r & [= ->] & ->). by exists r.
Qed.
Lemma attach_nil_inv fds l : attach fds l = [] → l = [].
Proof. by destruct l. Qed.

Section arrival.
Context `{JsonText} (v : Value) (fds : list Fd) (content : Bytes) (t0 : N).
Context (Hparse : parse_with_limit content MAX_FRAME_BODY = Ok v)
  (Hrefs : references v (lenN fds) = Ok tt)
  (Hsize : (0 < lenN content <= MAX_FRAME_BODY)%N) (Hfds : (lenN fds <= MAX_FDS)%N).
#[local] Set Default Proof Using "All".

Let w : Bytes := frame_bytes content (lenN fds).

(** The bytes [q] went through the decoder, [input c] did not yet. *)
Record midway (q : Bytes) (c : Channel) : Prop := {
  mw_open : is_Some (stream c);
  mw_received : received c = if bool_decide (q ++ input c = []) then [] else fds;
  mw_partial : partial c = negb (bool_decide (q = []));
  mw_decoder : if bool_decide (q = []) then decoder c = frame_decoder
    else ∃ t, (t0 + TIMEOUT <= t)%N ∧
      push_bytes 0 q (timed_decoder t) = (Ok (lenN q, None), decoder c) }.
(** What is still to come, [input c] included. *)
Definition to_come (q : Bytes) (c : Channel) (answers : list (Received * N)) : Prop :=
  if bool_decide (q ++ input c = []) then answer_cells answers = attach fds w
  else ∃ r, w = q ++ input c ++ r ∧ answer_cells answers = attach [] r.

Lemma w_complete t : ∃ d, push_bytes 0 w (timed_decoder t) = (Ok (lenN w, Some content), d) ∧
  headers d = count_headers (lenN fds).
Proof.
  apply frame_decodes; [done|]. unfold MAX_FDS, u64_modulus in *. lia.
Qed.
Lemma decoder_deadline q t d : push_bytes 0 q (timed_decoder t) = (Ok (lenN q, None), d) →
  deadline d = Some t.
Proof. intros Hq. pose proof (push_bytes_deadline 0 q (timed_decoder t)) as Hd. by rewrite Hq in Hd. Qed.
Lemma midway_not_expired q c now : midway q c → (now < t0 + TIMEOUT)%N → expired (decoder c) now = false.
Proof.
  intros [_ _ _ Hd] Hnow. unfold expired. case_bool_decide; [by rewrite Hd|].
  destruct Hd as (t & Ht & Hq). rewrite (decoder_deadline _ _ _ Hq). apply N.leb_gt. lia.
Qed.

(** The decoder after [q], brought to the time of its first byte. *)
Lemma midway_push q c now : midway q c → input c ≠ [] → (t0 <= now < t0 + TIMEOUT)%N →
  ∃ t, (t0 + TIMEOUT <= t)%N ∧
    push (input c) now (decoder c) =
      match push_bytes 0 (q ++ input c) (timed_decoder t) with
      | (Ok (n, f), d) => (Ok (n - lenN q, f)%N, d)
      | (Err e, d) => (Err e, d)
      | (Panic, d) => (Panic, d)
      end.
Proof.
  intros [_ _ _ Hd] Hi Hnow. case_bool_decide as Hq0.
  - exists (now + TIMEOUT)%N. split; [lia|]. subst q. rewrite Hd. cbn [app].
    rewrite push_started. destruct (input c) as [|b l]; [done|].
    unfold started. rewrite lenN_cons_0. cbn [frame_decoder with_headers deadline fmap option_fmap option_map].
    rewrite bool_decide_false by by intros []. cbn [negb andb].
    change (set_deadline _ _) with (timed_decoder (now + TIMEOUT)).
    unfold expired. cbn [deadline timed_decoder set_deadline].
    destruct (N.leb_spec (now + TIMEOUT) now); [unfold TIMEOUT in *; lia|].
    destruct (push_bytes 0 (b :: l) _) as [[[n f]|e|] d]; try done. by rewrite N.sub_0_r.
  - destruct Hd as (t & Ht & Hq). exists t. split; [done|].
    rewrite (push_open _ _ t) by (lia || by eapply decoder_deadline).
    rewrite push_bytes_app, Hq, (push_bytes_shift (lenN q)).
    destruct (push_bytes 0 (input c) (decoder c)) as [[[n f]|e|] d]; try done.
    do 3 f_equal. lia.
Qed.

Lemma decode_empty now q c : midway q c → input c = [] → decode now c = (Ok None, c).
Proof. intros _ Hi. unfold decode, get, mbind, M_bind. cbn. by rewrite Hi. Qed.
Lemma decode_more now q c r : midway q c → input c ≠ [] → (t0 <= now < t0 + TIMEOUT)%N →
  w = q ++ input c ++ r → r ≠ [] →
  ∃ c', decode now c = (Ok None, c') ∧ midway (q ++ input c) c' ∧ input c' = [].
Proof.
  intros Hm Hi Hnow Hw Hr. destruct (midway_push q c now Hm Hi Hnow) as (t & Ht & Hp).
  destruct (w_complete t) as (d1 & Hd1 & _). rewrite app_assoc in Hw.
  destruct (cut_open w content (timed_decoder t) d1 ltac:(done) eq_refl Hd1 _ _ Hw Hr)
    as (d & Hd & _). rewrite Hd in Hp.
  assert (lenN (q ++ input c) - lenN q = lenN (input c))%N as Hl by (rewrite lenN_app; lia).
  rewrite Hl in Hp. unfold decode, get, put, mbind, M_bind.
  destruct (N.eqb_spec (lenN (input c)) 0) as [H0|_].
  { destruct (input c); [done|]. rewrite lenN_cons in H0. lia. }
  cbn [input set_partial decoder]. rewrite Hp. eexists. split; [done|].
  destruct Hm as [Ho Hrec Hpa _]. unfold lenN. rewrite Nat2N.id, drop_all. split; [|done].
  assert (q ++ input c ≠ []) as Hne by (intros [_ ?]%app_eq_nil; done).
  split; cbn [stream received partial decoder input set_input set_decoder set_partial].
  - done.
  - rewrite app_nil_r. done.
  - by rewrite bool_decide_false.
  - rewrite bool_decide_false by done. eauto.
Qed.
Lemma decode_last now q c : midway q c → input c ≠ [] → (t0 <= now < t0 + TIMEOUT)%N →
  w = q ++ input c →
  ∃ c', decode now c = (Ok (Some (mkFrame v fds)), c') ∧
    decoder c' = frame_decoder ∧ input c' = [] ∧ received c' = [] ∧ partial c' = false.
Proof.
  intros Hm Hi Hnow Hw. destruct (midway_push q c now Hm Hi Hnow) as (t & Ht & Hp).
  destruct (w_complete t) as (d1 & Hd1 & Hh). rewrite <-Hw, Hd1 in Hp.
  assert (lenN w - lenN q = lenN (input c))%N as Hl by (rewrite Hw, lenN_app; lia).
  rewrite Hl in Hp. unfold decode, get, put, mbind, M_bind.
  destruct (N.eqb_spec (lenN (input c)) 0) as [H0|_].
  { destruct (input c); [done|]. rewrite lenN_cons in H0. lia. }
  cbn [input set_partial decoder]. rewrite Hp. unfold header. rewrite Hh. unfold count_headers.
  fold header_name. rewrite lookup_singleton_eq.
  destruct (show_digits (lenN fds)) as (ds & Hs & Hne & Hdig & Hv & _).
  cbn [ok_or mret M_ret]. unfold mret, M_ret. rewrite Hs.
  rewrite bool_decide_false by (intros Hnil; rewrite Hnil in Hs; by destruct ds).
  rewrite Hdig. cbn [negb orb refuse]. unfold mret, M_ret. unfold parse_usize.
  rewrite Hv, (proj2 (N.ltb_lt _ _)) by (unfold MAX_FDS, u64_modulus in *; lia).
  cbn [ok_or]. unfold mret, M_ret.
  assert (received c = fds) as Hrec.
  { rewrite (mw_received _ _ Hm).
    case_bool_decide as Hc; [|done]. by apply app_eq_nil in Hc as [_ ?]. }
  cbn [received set_input set_decoder set_partial]. rewrite Hrec.
  rewrite (proj2 (N.ltb_ge _ _)) by done. rewrite N.eqb_refl. cbn [negb orb refuse].
  unfold mret, M_ret, lift. rewrite Hparse. cbn [map_err]. rewrite Hrefs.
  unfold lenN. rewrite !Nat2N.id, drop_all, firstn_all. eexists. split; [done|].
  cbn. by rewrite drop_all.
Qed.

(** One answer that brought bytes. *)
Lemma accept_more q c l fds' answers a : midway q c → to_come q c ((Recv l fds' false, a) :: answers) →
  input c = [] → l ≠ [] →
  ∃ c', accept l fds' false c = (Ok true, c') ∧ midway q c' ∧ input c' ≠ [] ∧ to_come q c' answers.
Proof.
  intros [Ho Hrec Hp Hd] Hc Hi Hl. unfold to_come in Hc. rewrite Hi, app_nil_r in *.
  unfold accept, get, put, mbind, M_bind. cbn [partial input received set_received].
  assert ((q = [] ∧ fds' = fds ∧ ∃ r, w = l ++ r ∧ answer_cells answers = attach [] r) ∨
          (q ≠ [] ∧ fds' = [] ∧ ∃ r, w = q ++ l ++ r ∧ answer_cells answers = attach [] r)) as Hcase.
  { case_bool_decide as Hq; [left|right].
    - cbn in Hc. symmetry in Hc. apply attach_cons_inv in Hc as (<- & r & Hw & Hr); [|done].
      split_and!; [done..|]. by exists r.
    - destruct Hc as (r0 & Hw & Hr0). cbn in Hr0. symmetry in Hr0.
      apply attach_cons_inv in Hr0 as (<- & r & -> & Hr); [|done]. split_and!; [done..|]. by exists r. }
  rewrite Hp, Hrec, Hi.
  assert ((lenN l =? 0)%N = false) as Hl0 by (destruct l; [done|apply lenN_cons_0]).
  destruct Hcase as [(-> & -> & r & Hw & Hr)|(Hq & -> & r & Hw & Hr)].
  - rewrite bool_decide_true by done. change (@lenN ascii []) with 0%N.
    cbn [app negb andb orb N.eqb]. rewrite (proj2 (N.ltb_ge _ _)) by done. cbn [refuse].
    unfold mret, M_ret. rewrite Hl0. eexists. split; [done|]. split_and!; [|done|].
    + split; [done| |done|done]. cbn [app input set_input set_received received].
      by rewrite bool_decide_false.
    + unfold to_come. cbn [app input set_input set_received]. rewrite bool_decide_false by done.
      by exists r.
  - rewrite bool_decide_false by done. change (@lenN ascii []) with 0%N.
    change (@lenN Fd []) with 0%N. cbn [app negb andb orb N.eqb].
    rewrite app_nil_r, (proj2 (N.ltb_ge _ _)) by done. cbn [refuse].
    unfold mret, M_ret. rewrite Hl0. eexists. split; [done|].
    assert (q ++ l ≠ []) as Hne by (intros [_ ?]%app_eq_nil; done).
    split_and!; [|done|].
    + split; cbn [stream received partial decoder input set_input set_received].
      * done.
      * by rewrite bool_decide_false.
      * by rewrite Hp, bool_decide_false.
      * done.
    + unfold to_come. cbn [input set_input set_received]. rewrite bool_decide_false by done.
      by exists r.
Qed.

(** The channel ready for the next frame. *)
Definition ready (c : Channel) : Prop :=
  decoder c = frame_decoder ∧ input c = [] ∧ received c = [] ∧ partial c = false.

Lemma w_not_nil : w ≠ [].
Proof.
  intros Hw. pose proof (frame_bytes_length content (lenN fds)) as Hl. fold w in Hl.
  rewrite Hw in Hl. unfold lenN in Hl. simpl in Hl. lia.
Qed.
Lemma midway_open q c : midway q c → q ≠ w.
Proof.
  intros [_ _ _ Hd] ->. rewrite bool_decide_false in Hd by apply w_not_nil.
  destruct Hd as (t & _ & Hq). destruct (w_complete t) as (d & Hd & _). congruence.
Qed.

Inductive turn_result (turns : nat) (answers : list (Received * N)) :
    res ChannelError (option Frame * list (Received * N)) * Channel → Prop :=
| turn_frame rest c : ready c → answer_cells rest = [] →
    turn_result turns answers (Ok (Some (mkFrame v fds), rest), c)
| turn_more q rest c : midway q c → to_come q c rest →
    live_answers t0 (t0 + TIMEOUT) rest → (length rest <= length answers)%nat →
    ((0 < turns)%nat → (length rest < length answers)%nat) →
    turn_result turns answers (Ok (None, rest), c).

Lemma turn_result_step turns turns' answers a r :
  turn_result turns answers r → turn_result turns' (a :: answers) r.
Proof.
  destruct 1; [by constructor|]. eapply turn_more; simpl; eauto with lia.
Qed.

(** A turn after its decoding brought no frame. *)
Lemma receive_answer turns answers now q c :
  (∀ answers q c, midway q c → to_come q c answers → live_answers t0 (t0 + TIMEOUT) answers →
     turn_result turns answers (receive_turns turns answers now c)) →
  midway q c → input c = [] → to_come q c answers → live_answers t0 (t0 + TIMEOUT) answers →
  turn_result (S turns) answers
    (match answers with
     | [] => (Ok (None, []), c)
     | (answer, asked) :: answers =>
         (_ ← refuse (expired (decoder c) asked) ChannelTimedOut;
          match answer with
          | RecvBlocks => mret (None, answers)
          | RecvInterrupted => receive_turns turns answers now
          | RecvFails e => throw e
          | Recv l fds bad =>
              more ← accept l fds bad;
              if (more : bool) then receive_turns turns answers now else mret (None, answers)
          end) c
     end).
Proof.
  intros IH Hm Hi Hc Hl. destruct answers as [|[a asked] answers].
  { exfalso. unfold to_come in Hc. rewrite Hi, app_nil_r in Hc. case_bool_decide.
    - symmetry in Hc. by apply attach_nil_inv, w_not_nil in Hc.
    - destruct Hc as (r & Hw & Hr). cbn in Hr. symmetry in Hr. apply attach_nil_inv in Hr as ->.
      rewrite !app_nil_r in Hw. by apply (midway_open q c Hm). }
  apply Forall_cons in Hl as [[Ht Ha] Hl]. cbn [fst snd] in *.
  rewrite (midway_not_expired q c asked Hm) by lia. unfold refuse, mbind at 1, M_bind at 1.
  unfold mret at 1, M_ret at 1. destruct a as [l fds' bad| | |e]; [| | |done].
  - destruct Ha as [Hne ->]. destruct (accept_more q c l fds' answers asked Hm Hc Hi Hne)
      as (c' & Hacc & Hm' & _ & Hc'). unfold mbind, M_bind. rewrite Hacc.
    eapply turn_result_step, IH; eauto.
  - unfold mret, M_ret. eapply turn_more; simpl; eauto; lia.
  - eapply turn_result_step, IH; eauto.
Qed.
Lemma receive_turns_arrives turns answers now q c :
  midway q c → to_come q c answers → live_answers t0 (t0 + TIMEOUT) answers →
  (t0 <= now < t0 + TIMEOUT)%N →
  turn_result turns answers (receive_turns turns answers now c).
Proof.
  intros Hm Hc Hl Hnow. revert answers q c Hm Hc Hl.
  induction turns as [|turns IH]; intros answers q c Hm Hc Hl.
  { eapply turn_more; eauto; lia. }
  cbn [receive_turns]. set (time := match answers with (_, now) :: _ => now | [] => now end).
  assert (t0 <= time < t0 + TIMEOUT)%N as Htime.
  { unfold time. destruct answers as [|[a t] answers]; [done|].
    by apply Forall_cons in Hl as [[? _] _]. }
  pose proof (receive_answer turns answers now) as Hstep.
  unfold mbind at 1, M_bind at 1.
  destruct (decide (input c = [])) as [Hi|Hi].
  - rewrite (decode_empty time q c Hm Hi). unfold get, mbind at 1, M_bind at 1.
    unfold closed. rewrite bool_decide_true by apply Hm. cbn [negb].
    specialize (Hstep q c IH Hm Hi Hc Hl). destruct answers as [|[a t] answers]; exact Hstep.
  - unfold to_come in Hc. rewrite bool_decide_false in Hc by (intros [_ ?]%app_eq_nil; done).
    destruct Hc as (r & Hw & Hr). destruct (decide (r = [])) as [->|Hne].
    + rewrite app_nil_r in Hw. destruct (decode_last time q c Hm Hi Htime Hw) as (c' & -> & Hready).
      by constructor.
    + destruct (decode_more time q c r Hm Hi Htime Hw Hne) as (c' & -> & Hm' & Hi').
      unfold get, mbind at 1, M_bind at 1. unfold closed.
      rewrite bool_decide_true by apply Hm'. cbn [negb].
      assert (to_come (q ++ input c) c' answers) as Hc'.
      { unfold to_come. rewrite Hi', app_nil_r, bool_decide_false by (intros [_ ?]%app_eq_nil; done).
        exists r. by rewrite <-app_assoc. }
      specialize (Hstep (q ++ input c) c' IH Hm' Hi' Hc' Hl).
      destruct answers as [|[a t] answers]; exact Hstep.
Qed.

Lemma drive_arrives fuel answers now q c :
  midway q c → to_come q c answers → live_answers t0 (t0 + TIMEOUT) answers →
  (t0 <= now < t0 + TIMEOUT)%N → (length answers < fuel)%nat →
  ∃ rest c', drive fuel answers now c = Some (mkFrame v fds, rest, c') ∧ ready c' ∧
    answer_cells rest = [].
Proof.
  intros Hm Hc Hl Hnow. revert answers q c Hm Hc Hl.
  induction fuel as [|fuel IH]; intros answers q c Hm Hc Hl Hf; [lia|].
  cbn [drive]. unfold receive, or_close.
  assert ((0 < RECEIVE_TURNS)%nat) as Hturns by (unfold RECEIVE_TURNS; lia).
  generalize dependent RECEIVE_TURNS. intros turns Hturns.
  destruct (receive_turns_arrives turns answers now q c Hm Hc Hl Hnow)
    as [rest c' Hr He|q' rest c' Hm' Hc' Hl' _ Hlt]; [by exists rest, c'|].
  specialize (Hlt Hturns). apply (IH rest q' c' Hm' Hc' Hl'). lia.
Qed.
End arrival.

(** C19. A frame arrives: whatever way the kernel cuts a queued frame's
    stream into answers, with interruptions and empty polls in between,
    within the deadline, calling [receive] until it has a frame returns the
    document and exactly the frame's descriptors, and leaves the channel
    ready for the next frame. *)
Theorem frame_arrives `{JsonText} v fds content t0 answers now c :
  parse_with_limit content MAX_FRAME_BODY = Ok v →
  references v (lenN fds) = Ok tt →
  (0 < lenN content <= MAX_FRAME_BODY)%N → (lenN fds <= MAX_FDS)%N →
  is_Some (stream c) → ready c →
  live_answers t0 (t0 + TIMEOUT) answers → (t0 <= now < t0 + TIMEOUT)%N →
  answer_cells answers = attach fds (frame_bytes content (lenN fds)) →
  ∃ rest c', drive (S (length answers)) answers now c = Some (mkFrame v fds, rest, c') ∧
    ready c' ∧ answer_cells rest = [].
Proof.
  intros Hparse Hrefs Hsize Hfds Hs (Hd & Hi & Hr & Hp) Hl Hnow Hcells.
  apply (drive_arrives v fds content t0 Hparse Hrefs Hsize Hfds _ _ _ [] c); try done; [|  |lia].
  - split; [done| | |]; rewrite ?Hi; by rewrite ?Hd, ?Hr, ?Hp.
  - unfold to_come. rewrite Hi. done.
Qed.

(** ** One descriptor across the channel *)
Definition handle : Value := Object [("$fd", Number 0)].
Definition handle_text : Bytes := bytes "{" ++ [QUOTE] ++ bytes "$fd" ++ [QUOTE] ++ bytes ":0}".
Definition handle_json : JsonText := {|
  from_bytes l := if bool_decide (l = handle_text) then Some handle else None;
  json_error _ := "expected value";
  to_bytes v := if bool_decide (v = handle) then handle_text else [] |}.
#[local] Existing Instance handle_json.
Definition queued_channel : Channel := (queue handle [7%N] new_channel).2.
Definition handle_frame : Bytes := frame_bytes handle_text 1.
Definition handle_answers : list (Received * N) :=
  [(RecvBlocks, 1%N); (Recv (take 1 handle_frame) [7%N] false, 2%N); (RecvInterrupted, 3%N);
   (Recv (drop 1 handle_frame) [] false, 4%N)].

Lemma queue_is_atomic_witness : ∃ c', queue handle [7%N] new_channel = (Ok tt, [], c') ∧ accounted c'.
Proof.
  destruct (queue_is_atomic handle [7%N] new_channel (accounted_none _ _ _ _ _))
    as [[e He]|(c' & Hq & Ha & _)]; [|exact (ex_intro _ c' (conj Hq Ha))].
  vm_compute in He. congruence.
Defined.
Lemma queued_accounted : accounted queued_channel.
Proof.
  destruct (queue_is_atomic handle [7%N] new_channel (accounted_none _ _ _ _ _))
    as [[e He]|(c' & Hq & Ha & _)]; [vm_compute in He; congruence|].
  unfold queued_channel. by rewrite Hq.
Qed.
Lemma flush_keeps_order_witness :
  (flush [SentBytes 5; SendBlocks] queued_channel).1 = Ok tt ∧
  sent_cells (flush [SentBytes 5; SendBlocks] queued_channel).2 = attach [7%N] (take 5 handle_frame).
Proof.
  pose proof (flush_keeps_order [SentBytes 5; SendBlocks] queued_channel queued_accounted
    ltac:(by eexists) ltac:(vm_compute; done)) as Hf.
  split; [|reflexivity].
  destruct (flush [SentBytes 5; SendBlocks] queued_channel) as [[u|e|] c'] eqn:He;
    [by destruct u|vm_compute in He; congruence|done].
Defined.
Lemma frame_arrives_witness : ∃ rest c',
  drive 5 handle_answers 5 new_channel = Some (mkFrame handle [7%N], rest, c') ∧
  ready c' ∧ answer_cells rest = [].
Proof.
  exact (frame_arrives handle [7%N] handle_text 0 handle_answers 5 new_channel
    eq_refl eq_refl ltac:(by vm_compute) ltac:(by vm_compute) (ex_intro _ _ eq_refl)
    ltac:(repeat split) ltac:(repeat constructor; by vm_compute) ltac:(by vm_compute) eq_refl).
Defined.
