(* ===== verification/Outbound.v ===== *)
(** * Commands waiting for the supervisor

    [Commands] of [libs/runtime/src/supervisor/outbound.rs]: the logical
    commands of the daemon that can still be cancelled, merged or dropped
    before one is committed to the channel. Payloads the queue only carries
    are of abstract types. *)
From S2P Require Import Prelude Json Messages Framing.

Definition REQUESTS : N := 4.
Definition RECORD_EVENTS : N := 16.
Definition RECORD_BYTES : N := 1024 * 1024.
Definition SIGNALS : N := 16.
Definition SANDBOX_BYTES : N := 2 * 1024 * 1024.

(** The types of what the queue carries without looking inside: the stream of
    a terminal, the request a decision is on, the changes of a dev shell, the
    standard streams of a process, and a handoff. *)
Record Carried := mkCarried {
  StreamOf : Type; RequestOf : Type; ChangesOf : Type; StdioOf : Type; HandoffOf : Type }.

Section commands.
Context {P : Carried}.

(** [TerminalId]: the session's own terminal or a process's. *)
Inductive Terminal := Main | Process (id : N).
#[export] Instance Terminal_eq_dec : EqDecision Terminal.
Proof. solve_decision. Defined.

Inductive SpawnKind := SpawnExec | SpawnAttach.

Inductive Command :=
| RecordEvent (event : string) (fields : Value)
| Attach (terminal : Terminal) (stream : StreamOf P) (rows cols : N)
| Detach (terminal : Terminal)
| Resize (terminal : Terminal) (rows cols : N)
| SandboxSend (connection : N) (message : Value)
| SandboxClose (connection : N)
| ScopeFailed
| ScopeMembership (result : StreamOf P + string)
| Preview (approval : N) (package : string)
| Decide (request : RequestOf P) (approved : bool) (output : option string)
| Refresh (approval : N) (changes : ChangesOf P)
| Run (serial : N) (app : string)
| Diff (serial : N) (changes : ChangesOf P)
| Cancel (id : N)
| Spawn (id : N) (kind : SpawnKind) (argv : option (list string)) (cwd : option string)
    (env : list (string * string)) (stdio : StdioOf P)
| Signal (id : N) (signal : Z)
| CancelProcess (id : N) (everything : bool)
| KillAll
| Export (member : string)
| Start (handoff : HandoffOf P)
| PrepareHostJob (request cwd : string)
| RunHostJob (request : string) (argv : list string) (env : list (string * string))
    (timeout : option N)
| CancelHostJob (request : string)
| Stop.

(** The events synthesized for requests that were never sent. *)
Inductive Outcome :=
| SpawnFailed (id : N) (message : string)
| HostJobPrepared (request : string) (error : string)
| HostJobCancelled (request : string).

Record Commands := mkCommands {
  ordered : list Command;
  cancellations : list Command;
  cancelled : list Outcome;
  stop : bool;
  stop_sent : bool;
  closed_connections : gset N;
  in_flight_sandbox : gmap N N;
  records : list (Command * N);
  record_bytes : N;
  records_closed : bool;
  dropped_records : N }.
Definition default_commands : Commands := mkCommands [] [] [] false false ∅ ∅ [] 0 false 0.

Definition set_ordered l (s : Commands) : Commands :=
  mkCommands l (cancellations s) (cancelled s) (stop s) (stop_sent s) (closed_connections s)
    (in_flight_sandbox s) (records s) (record_bytes s) (records_closed s) (dropped_records s).
Definition set_cancellations l (s : Commands) : Commands :=
  mkCommands (ordered s) l (cancelled s) (stop s) (stop_sent s) (closed_connections s)
    (in_flight_sandbox s) (records s) (record_bytes s) (records_closed s) (dropped_records s).
Definition set_cancelled l (s : Commands) : Commands :=
  mkCommands (ordered s) (cancellations s) l (stop s) (stop_sent s) (closed_connections s)
    (in_flight_sandbox s) (records s) (record_bytes s) (records_closed s) (dropped_records s).
Definition set_stop b sent (s : Commands) : Commands :=
  mkCommands (ordered s) (cancellations s) (cancelled s) b sent (closed_connections s)
    (in_flight_sandbox s) (records s) (record_bytes s) (records_closed s) (dropped_records s).
Definition set_sandbox closed flight (s : Commands) : Commands :=
  mkCommands (ordered s) (cancellations s) (cancelled s) (stop s) (stop_sent s) closed flight
    (records s) (record_bytes s) (records_closed s) (dropped_records s).
Definition set_records l n closed dropped (s : Commands) : Commands :=
  mkCommands (ordered s) (cancellations s) (cancelled s) (stop s) (stop_sent s)
    (closed_connections s) (in_flight_sandbox s) l n closed dropped.

Definition is_request (c : Command) : bool :=
  match c with
  | Preview _ _ | Decide _ _ _ | Refresh _ _ | Run _ _ | Diff _ _ | Spawn _ _ _ _ _ _
  | Attach _ _ _ _ | PrepareHostJob _ _ | RunHostJob _ _ _ _ | Export _ => true
  | _ => false
  end.
Definition outcome_of (c : Command) : option Outcome :=
  match c with
  | Spawn id _ _ _ _ _ => Some (SpawnFailed id "process cancelled before it started")
  | PrepareHostJob request _ => Some (HostJobPrepared request "session cancelled")
  | RunHostJob request _ _ _ => Some (HostJobCancelled request)
  | _ => None
  end.
Definition cancel_id (c : Command) : option N :=
  match c with
  | Preview approval _ | Refresh approval _ => Some approval
  | Run serial _ | Diff serial _ => Some serial
  | _ => None
  end.

Definition unsent_requests (s : Commands) : N := lenN (filter is_request (ordered s)).
Definition is_nil {A} (l : list A) : bool := match l with [] => true | _ => false end.
Definition work_is_empty (s : Commands) : bool :=
  is_nil (ordered s) && is_nil (cancellations s) && is_nil (cancelled s) && negb (stop s).
Definition is_empty (s : Commands) : bool := work_is_empty s && is_nil (records s).

(** [retain] with the removed commands' outcomes pushed in order. *)
Definition remove_into (hit : Command → bool) (s : Commands) : Commands :=
  set_cancelled (cancelled s ++ omap outcome_of (filter (λ c, hit c) (ordered s)))
    (set_ordered (filter (λ c, negb (hit c)) (ordered s)) s).
Definition push_ordered (c : Command) (s : Commands) : Commands :=
  set_ordered (ordered s ++ [c]) s.
Definition push_cancellation (c : Command) (s : Commands) : Commands :=
  set_cancellations (cancellations s ++ [c]) s.

Definition is_cancel (id : N) (c : Command) : bool :=
  match c with Cancel other => (other =? id)%N | _ => false end.
Definition is_spawn (id : N) (c : Command) : bool :=
  match c with Spawn other _ _ _ _ _ => (other =? id)%N | _ => false end.
Definition is_signal (id : N) (c : Command) : bool :=
  match c with Signal other _ => (other =? id)%N | _ => false end.
Definition is_cancel_process (id : N) (c : Command) : bool :=
  match c with CancelProcess other _ => (other =? id)%N | _ => false end.
Definition is_prepare (request : string) (c : Command) : bool :=
  match c with PrepareHostJob other _ => string_eqb other request | _ => false end.
Definition is_run_job (request : string) (c : Command) : bool :=
  match c with RunHostJob other _ _ _ => string_eqb other request | _ => false end.
Definition is_cancel_job (request : string) (c : Command) : bool :=
  match c with CancelHostJob other => string_eqb other request | _ => false end.

Definition push_cancel (id : N) (s : Commands) : Commands :=
  let kept := filter (λ c, negb (bool_decide (cancel_id c = Some id))) (ordered s) in
  let s' := set_ordered kept s in
  if (lenN (ordered s) =? lenN kept)%N && negb (existsb (is_cancel id) (cancellations s))
  then push_cancellation (Cancel id) s' else s'.

(** [*old |= everything] on the first cancellation of the process. *)
Fixpoint merge_cancel (id : N) (everything : bool) (l : list Command) : list Command :=
  match l with
  | [] => []
  | c :: l =>
      match c with
      | CancelProcess other old =>
          if (other =? id)%N then CancelProcess other (old || everything) :: l
          else c :: merge_cancel id everything l
      | _ => c :: merge_cancel id everything l
      end
  end.
Definition push_cancel_process (id : N) (everything : bool) (s : Commands) : Commands :=
  if existsb (is_spawn id) (ordered s)
  then let s' := remove_into (is_spawn id) s in
       set_ordered (filter (λ c, negb (is_signal id c)) (ordered s')) s'
  else if existsb (is_cancel_process id) (cancellations s)
  then set_cancellations (merge_cancel id everything (cancellations s)) s
  else push_cancellation (CancelProcess id everything) s.

Definition push_cancel_job (request : string) (s : Commands) : Commands :=
  let unsent_prepare := existsb (is_prepare request) (ordered s) in
  let s' := remove_into (λ c, is_prepare request c || is_run_job request c) s in
  if negb unsent_prepare && negb (existsb (is_cancel_job request) (cancellations s))
  then push_cancellation (CancelHostJob request) s' else s'.

Definition discard_record_event (s : Commands) : Commands :=
  set_records (records s) (record_bytes s) (records_closed s)
    (u64_saturating_add (dropped_records s) 1) s.
Definition close_record_events (s : Commands) : Commands :=
  set_records [] 0 true (u64_saturating_add (dropped_records s) (lenN (records s))) s.

Definition push_stop (s : Commands) : Commands :=
  let s' := close_record_events s in
  if stop_sent s' then s' else set_stop true (stop_sent s') s'.

Definition push_signal (id : N) (signal : Z) (s : Commands) : Commands :=
  if (lenN (filter (λ c, is_signal id c) (ordered s)) <? SIGNALS)%N
  then push_ordered (Signal id signal) s else s.

(** The walk from the newest command: an older resize of the terminal is
    overwritten unless an attach or detach of it stands in between. The list
    is given newest first; [None] when there is nothing to overwrite. *)
Fixpoint overwrite_resize (terminal : Terminal) (rows cols : N) (newest : list Command) :
    option (list Command) :=
  match newest with
  | [] => None
  | c :: older =>
      let step := (λ l, c :: l) <$> overwrite_resize terminal rows cols older in
      match c with
      | Attach other _ _ _ | Detach other =>
          if bool_decide (other = terminal) then None else step
      | Resize other _ _ =>
          if bool_decide (other = terminal) then Some (Resize other rows cols :: older) else step
      | _ => step
      end
  end.
Definition push_resize (terminal : Terminal) (rows cols : N) (s : Commands) : Commands :=
  match overwrite_resize terminal rows cols (reverse (ordered s)) with
  | Some newest => set_ordered (reverse newest) s
  | None => push_ordered (Resize terminal rows cols) s
  end.

Context `{JsonText}.

Definition encoded (v : Value) : option N := lenN <$> res_ok (encode v).
Definition sandbox_size (c : Command) : option (N * N) :=
  match c with
  | SandboxSend connection message => n ← encoded message; Some (connection, n)
  | _ => None
  end.
(** [serde_json::to_vec(fields)] of a value always succeeds. *)
Definition record_size (event : string) (fields : Value) : option N :=
  u64_checked_add (strlen event) (lenN (to_bytes fields)).
Definition push_record (event : string) (fields : Value) (s : Commands) : Commands :=
  match record_size event fields with
  | Some size =>
      if records_closed s || (lenN (records s) =? RECORD_EVENTS)%N ||
         (RECORD_BYTES <? u64_saturating_add (record_bytes s) size)%N
      then discard_record_event s
      else set_records (records s ++ [(RecordEvent event fields, size)]) (record_bytes s + size)
             (records_closed s) (dropped_records s) s
  | None => discard_record_event s
  end.

Definition is_send (connection : N) (c : Command) : bool :=
  match c with SandboxSend other _ => (other =? connection)%N | _ => false end.
Definition queued_sizes (connection : N) (l : list Command) : list N :=
  omap (λ c, match sandbox_size c with
             | Some (other, n) => if (other =? connection)%N then Some n else None
             | None => None
             end) l.
Definition in_flight (connection : N) (s : Commands) : N :=
  default 0%N (in_flight_sandbox s !! connection).
Definition queued_sandbox (connection : N) (s : Commands) : N :=
  u64_saturating_add (foldr N.add 0%N (queued_sizes connection (ordered s)))
    (in_flight connection s).
Definition push_send (connection : N) (message : Value) (s : Commands) : Commands :=
  if bool_decide (connection ∈ closed_connections s) then s else
  match encoded message with
  | Some n =>
      if (SANDBOX_BYTES <? u64_saturating_add (queued_sandbox connection s) n)%N
      then push_ordered (SandboxClose connection)
             (set_sandbox ({[connection]} ∪ closed_connections s) (in_flight_sandbox s)
               (set_ordered (filter (λ c, negb (is_send connection c)) (ordered s)) s))
      else push_ordered (SandboxSend connection message) s
  | None => push_ordered (SandboxClose connection)
             (set_sandbox ({[connection]} ∪ closed_connections s) (in_flight_sandbox s)
               (set_ordered (filter (λ c, negb (is_send connection c)) (ordered s)) s))
  end.

(** [push]: a request beyond the bound is handed back. *)
Definition push (c : Command) (s : Commands) : option Command * Commands :=
  match c with
  | RecordEvent event fields => (None, push_record event fields s)
  | _ =>
      if is_request c && (unsent_requests s + lenN (cancelled s) =? REQUESTS)%N
      then (Some c, s)
      else (None, match c with
        | Cancel id => push_cancel id s
        | CancelProcess id everything => push_cancel_process id everything s
        | CancelHostJob request => push_cancel_job request s
        | Stop => push_stop s
        | Signal id signal => push_signal id signal s
        | Resize terminal rows cols => push_resize terminal rows cols s
        | SandboxSend connection message => push_send connection message s
        | _ => push_ordered c s
        end)
  end.

Definition pop_cancelled (s : Commands) : option Outcome * Commands :=
  match cancelled s with
  | [] => (None, s)
  | o :: l => (Some o, set_cancelled l s)
  end.
Definition pop_cancellation (s : Commands) : option Command * Commands :=
  match cancellations s with
  | [] => (None, s)
  | c :: l => (Some c, set_cancellations l s)
  end.
Definition restore_front (c : Command) (s : Commands) : Commands := set_ordered (c :: ordered s) s.
Definition export_members (s : Commands) : list string :=
  omap (λ c, match c with Export member => Some member | _ => None end) (ordered s).

Definition next_work (s : Commands) : option Command * Commands :=
  match cancellations s with
  | c :: l => (Some c, set_cancellations l s)
  | [] =>
      match ordered s with
      | c :: l => (Some c, set_ordered l s)
      | [] => if stop s then (Some Stop, set_stop false true s) else (None, s)
      end
  end.
Definition pop_work (s : Commands) : option Command * Commands :=
  let '(command, s') := next_work s in
  (command,
   match c ← command; sandbox_size c with
   | Some (connection, n) =>
       set_sandbox (closed_connections s')
         (<[connection := (in_flight connection s' + n)%N]> (in_flight_sandbox s')) s'
   | None => s'
   end).
Definition pop_record_event (s : Commands) : option Command * Commands :=
  match records s with
  | [] => (None, s)
  | (c, n) :: l => (Some c, set_records l (record_bytes s - n) (records_closed s) (dropped_records s) s)
  end.
Definition pop (s : Commands) : option Command * Commands :=
  match pop_work s with
  | (Some c, s') => (Some c, s')
  | (None, s') => pop_record_event s'
  end.

(** Confirmed teardown keeps only the count of dropped records. *)
Definition clear (s : Commands) : Commands :=
  set_records [] 0 true (dropped_records (close_record_events s)) default_commands.
Definition sandbox_written (connection n : N) (s : Commands) : Commands :=
  match in_flight_sandbox s !! connection with
  | Some queued =>
      let left := u64_saturating_sub queued n in
      set_sandbox (closed_connections s)
        (if (left =? 0)%N then delete connection (in_flight_sandbox s)
         else <[connection := left]> (in_flight_sandbox s)) s
  | None => s
  end.
Definition sandbox_closed (connection : N) (s : Commands) : Commands :=
  set_sandbox (closed_connections s ∖ {[connection]}) (delete connection (in_flight_sandbox s)) s.
End commands.
