(* ===== verification/OutboundSpec.v ===== *)
(** * What the command queue promises

    Runs of [Outbound.Commands] with a ledger of what was accepted, handed to
    the supervisor and reported as cancelled: no accepted spawn or host
    request is lost or answered twice, and commands leave in the order they
    were accepted, but for the kinds the queue moves or replaces by design. *)
From S2P Require Import Prelude Json Messages Framing Outbound.

Section commands.
Context {P : Carried} `{JsonText}.
#[local] Set Default Proof Using "Type".
Implicit Types (s : @Commands P) (c : @Command P) (l : list (@Command P)).

(** ** Runs

    One operation of the actor that owns the queue. [ORefused] takes the next
    command and puts it back at once, as the engine does when its dispatcher
    refuses; only the supervised runtime queues sandbox sends, and it never
    puts a command back. *)
Inductive Op :=
| OPush (c : @Command P) | OPop | OPopWork | ORefused | OPopCancellation | OPopCancelled
| OPopRecord | ODiscard | OCloseRecords | OWritten (connection n : N)
| OSandboxClosed (connection : N) | OClear.

Record Ledger := mkLedger {
  accepted : list (@Command P); sent : list (@Command P);
  told : list Outcome; lost : list Outcome }.
Definition empty_ledger : Ledger := mkLedger [] [] [] [].

(** What cancelling each of the commands would report. *)
Definition owed (l : list (@Command P)) : list Outcome := omap outcome_of l.

Definition sends (r : option (@Command P) * @Commands P) (k : Ledger) : @Commands P * Ledger :=
  (r.2, mkLedger (accepted k) (sent k ++ option_list r.1) (told k) (lost k)).
Definition is_sandbox_send (c : @Command P) : bool :=
  match c with SandboxSend _ _ => true | _ => false end.

Definition step (sk : @Commands P * Ledger) (op : Op) : @Commands P * Ledger :=
  let '(s, k) := sk in
  match op with
  | OPush c =>
      let '(refused, s') := push c s in
      (s', match refused with
           | Some _ => k
           | None => mkLedger (accepted k ++ [c]) (sent k) (told k) (lost k)
           end)
  | OPop => sends (pop s) k
  | OPopWork => sends (pop_work s) k
  | ORefused =>
      match pop_work s with
      | (Some c, s') => if is_sandbox_send c then (s, k) else (restore_front c s', k)
      | (None, s') => (s', k)
      end
  | OPopCancellation => sends (pop_cancellation s) k
  | OPopCancelled =>
      let '(o, s') := pop_cancelled s in
      (s', mkLedger (accepted k) (sent k) (told k ++ option_list o) (lost k))
  | OPopRecord => sends (pop_record_event s) k
  | ODiscard => (discard_record_event s, k)
  | OCloseRecords => (close_record_events s, k)
  | OWritten connection n => (sandbox_written connection n s, k)
  | OSandboxClosed connection => (sandbox_closed connection s, k)
  | OClear => (clear s, mkLedger (accepted k) (sent k) (told k)
                          (lost k ++ owed (ordered s) ++ cancelled s))
  end.
Definition run (ops : list Op) : @Commands P * Ledger :=
  foldl step (default_commands, empty_ledger) ops.

(** An invariant of every run, by its preservation in each step. *)
Lemma run_ind (I : @Commands P → Ledger → Prop) :
  I default_commands empty_ledger →
  (∀ s k op, I s k → I (step (s, k) op).1 (step (s, k) op).2) →
  ∀ ops, I (run ops).1 (run ops).2.
Proof.
  intros H0 Hstep ops. unfold run. induction ops as [|op ops IH] using rev_ind; [done|].
  rewrite foldl_snoc. destruct (foldl step _ ops) as [s k]. by apply Hstep.
Qed.

(** ** How a push changes what is queued *)

(** Commands that nothing but their own cancellation removes or rewrites. *)
Definition steady (c : @Command P) : bool :=
  match c with
  | RecordEvent _ _ | Resize _ _ _ | SandboxClose _ | Cancel _ | CancelProcess _ _
  | CancelHostJob _ | Stop => false
  | _ => true
  end.

Lemma owed_app l1 l2 : owed (l1 ++ l2) = owed l1 ++ owed l2.
Proof. apply omap_app. Qed.
Lemma owed_filter (hit : @Command P → bool) l :
  (∀ c, hit c → outcome_of c = None) → owed (filter (λ c, negb (hit c)) l) = owed l.
Proof.
  intros Hh. induction l as [|c l IH]; [done|]. rewrite filter_cons.
  destruct (hit c) eqn:Hc; simpl.
  - rewrite (Hh c) by by rewrite Hc. done.
  - by rewrite IH.
Qed.
Lemma owed_split (hit : @Command P → bool) l :
  owed l ≡ₚ owed (filter (λ c, negb (hit c)) l) ++ owed (filter (λ c, hit c) l).
Proof.
  induction l as [|c l IH]; [done|]. rewrite !filter_cons.
  destruct (hit c) eqn:Hc; simpl; destruct (outcome_of c) as [o|]; simpl; try done.
  - rewrite IH. apply Permutation_middle.
  - by rewrite IH.
Qed.
Lemma filter_filter_steady (keep : @Command P → bool) l :
  filter (λ c, steady c) (filter (λ c, keep c) l) `sublist_of` filter (λ c, steady c) l.
Proof.
  induction l as [|c l IH]; [done|]. rewrite (filter_cons (λ c, keep c)).
  destruct (decide (keep c)); rewrite ?(filter_cons (λ c, steady c)); destruct (decide (steady c));
    try done.
  - by apply sublist_skip.
  - by apply sublist_cons.
Qed.

(** An overwritten list differs in resizes only. *)
Definition alike (c c' : @Command P) : Prop :=
  c = c' ∨ ∃ t r1 k1 r2 k2, c = Resize t r1 k1 ∧ c' = Resize t r2 k2.
Lemma alike_list l l' :
  Forall2 alike l l' → owed l' = owed l ∧ filter (λ c, steady c) l' = filter (λ c, steady c) l.
Proof.
  induction 1 as [|c c' l l' Hc _ [IH1 IH2]]; [done|]. rewrite !filter_cons. simpl.
  rewrite IH1, IH2. by destruct Hc as [->|(t & r1 & k1 & r2 & k2 & -> & ->)].
Qed.
Lemma alike_refl l : Forall2 alike l l.
Proof. apply Forall_Forall2_diag, Forall_true. by left. Qed.
Lemma overwrite_resize_alike t r k newest newest' :
  overwrite_resize t r k newest = Some newest' → Forall2 alike newest newest'.
Proof.
  revert newest'. induction newest as [|c older IH]; intros newest'; simpl; [done|].
  assert (∀ x, (λ l, c :: l) <$> overwrite_resize t r k older = Some x → Forall2 alike (c :: older) x)
    as Hstep.
  { intros x (o & Ho & ->)%fmap_Some. constructor; [by left|by apply IH]. }
  destruct c; try apply Hstep; case_bool_decide; try done; try apply Hstep.
  intros [= <-]. constructor; [|apply alike_refl]. right. naive_solver.
Qed.

(** What is owed for the requests in the queue, and the steady commands. *)
Definition pending_owed s : list Outcome := owed (ordered s) ++ cancelled s.
Record takes (new : list (@Command P)) s s' : Prop := {
  takes_owed : pending_owed s' ≡ₚ owed new ++ pending_owed s;
  takes_order : filter (λ c, steady c) (ordered s') `sublist_of`
                filter (λ c, steady c) (ordered s) ++ filter (λ c, steady c) new }.

Lemma takes_ordered new s l :
  owed l ≡ₚ owed new ++ owed (ordered s) →
  filter (λ c, steady c) l `sublist_of` filter (λ c, steady c) (ordered s ++ new) →
  ∀ s', ordered s' = l → cancelled s' = cancelled s → takes new s s'.
Proof.
  intros Ho Hf s' Hs Hc. split; unfold pending_owed; rewrite Hs, ?Hc.
  - by rewrite Ho, (assoc (++)).
  - by rewrite <-filter_app.
Qed.
Lemma takes_none new s s' :
  owed new = [] → ordered s' = ordered s → cancelled s' = cancelled s → takes new s s'.
Proof.
  intros Hn Ho Hc. apply takes_ordered with (ordered s); try done; [by rewrite Hn|].
  rewrite filter_app. apply sublist_inserts_r. done.
Qed.
Lemma takes_push c s : takes [c] s (push_ordered c s).
Proof.
  apply takes_ordered with (ordered s ++ [c]); try done.
  rewrite owed_app. apply (comm (++)).
Qed.
Lemma takes_filtered (keep : @Command P → bool) new s l :
  owed new = [] → (∀ c, ¬ keep c → outcome_of c = None) →
  l = filter (λ c, keep c) (ordered s) →
  ∀ s', ordered s' = l → cancelled s' = cancelled s → takes new s s'.
Proof.
  intros Hn Hk -> s' Hs Hc. eapply takes_ordered; [| |exact Hs|exact Hc].
  - rewrite Hn. simpl. rewrite <-(owed_filter (λ c, negb (keep c)) (ordered s)).
    + rewrite (list_filter_iff (λ c, keep c) (λ c, negb (negb (keep c)))); [done|].
      intros c. by rewrite negb_involutive.
    + intros c Hc'. apply Hk. by apply negb_True.
  - rewrite filter_app. apply sublist_inserts_r, filter_filter_steady.
Qed.

Lemma takes_retain (hit : @Command P → bool) new s s' :
  owed new = [] → (∀ c, hit c → outcome_of c = None) →
  ordered s' = filter (λ c, negb (hit c)) (ordered s) → cancelled s' = cancelled s →
  takes new s s'.
Proof.
  intros Hn Hh Hs Hc. apply (takes_filtered (λ c, negb (hit c)) new s _ Hn) with (s' := s') in Hs;
    try done. intros c Hhit. apply Hh. destruct (hit c); [done|by destruct Hhit].
Qed.
Lemma takes_removed (hit : @Command P → bool) s :
  takes [] s (remove_into hit s).
Proof.
  split; unfold pending_owed; simpl.
  - rewrite (owed_split hit (ordered s)). unfold owed.
    rewrite <-!(assoc (++)). f_equiv. apply (comm (++)).
  - rewrite app_nil_r. apply filter_filter_steady.
Qed.
Lemma takes_trans new s1 s2 s3 : takes [] s1 s2 → takes new s2 s3 → takes new s1 s3.
Proof.
  intros [Ho1 Hf1] [Ho2 Hf2]. split.
  - rewrite Ho2, Ho1. done.
  - etrans; [exact Hf2|]. apply sublist_app; [|done]. by rewrite app_nil_r in Hf1.
Qed.
Lemma takes_silent new s s' :
  owed new = [] → takes [] s s' → takes new s s'.
Proof.
  intros Hn Ht. apply (takes_trans _ _ _ _ Ht). by apply takes_none.
Qed.

Lemma takes_cancel id s : takes [Cancel id] s (push_cancel id s).
Proof.
  apply (takes_retain (λ c, bool_decide (cancel_id c = Some id))); [done| |by unfold push_cancel; case_match..].
  by intros [] ?%bool_decide_unpack.
Qed.
Lemma takes_cancel_process id everything s :
  takes [CancelProcess id everything] s (push_cancel_process id everything s).
Proof.
  unfold push_cancel_process. case_match; [|by case_match; apply takes_none].
  apply takes_silent; [done|]. apply (takes_trans _ _ _ _ (takes_removed (is_spawn id) s)).
  apply (takes_retain (is_signal id)); try done. by intros [].
Qed.
Lemma takes_cancel_job request s :
  takes [CancelHostJob request] s (push_cancel_job request s).
Proof.
  unfold push_cancel_job. apply takes_silent; [done|].
  eapply takes_trans; [apply takes_removed|]. by case_match; apply takes_none.
Qed.
Lemma takes_resize t r k s : takes [Resize t r k] s (push_resize t r k s).
Proof.
  unfold push_resize. destruct (overwrite_resize _ _ _ _) as [newest|] eqn:Hw; [|apply takes_push].
  apply overwrite_resize_alike, Forall2_reverse, alike_list in Hw as [Ho Hf].
  rewrite reverse_involutive in Ho, Hf.
  apply takes_ordered with (reverse newest); try done; [by rewrite Ho|].
  by rewrite Hf, filter_app, app_nil_r.
Qed.
Lemma takes_send connection message s :
  takes [SandboxSend connection message] s (push_send connection message s).
Proof.
  assert (∀ s', ordered s' = filter (λ c, negb (is_send connection c)) (ordered s) →
    cancelled s' = cancelled s →
    takes [SandboxSend connection message] s (push_ordered (SandboxClose connection) s')) as Hclose.
  { intros s' Ho Hc. apply takes_silent; [done|].
    apply takes_trans with s'; [apply (takes_retain (is_send connection)); try done; by intros []|].
    destruct (takes_push (SandboxClose connection) s') as [H1 H2].
    split; [done|]. by rewrite app_nil_r in *. }
  unfold push_send. case_bool_decide; [by apply takes_none|].
  destruct (encoded message) as [n|]; [|by apply Hclose].
  case_match; [by apply Hclose|apply takes_push].
Qed.

(** A push refuses with the queue unchanged, or takes the command. *)
Lemma push_takes c s :
  push c s = (Some c, s) ∧ is_request c ∧ (unsent_requests s + lenN (cancelled s) = REQUESTS)%N ∨
  (∃ s', push c s = (None, s') ∧ takes [c] s s').
Proof.
  destruct (is_request c && (unsent_requests s + lenN (cancelled s) =? REQUESTS)%N) eqn:Hfull.
  - apply andb_true_iff in Hfull as [Hr Hn%N.eqb_eq]. left.
    split; [|by rewrite Hr]. unfold push. rewrite Hr, Hn, N.eqb_refl. by destruct c.
  - right. unfold push. rewrite Hfull.
    destruct c; (eexists; split; [done|]); try apply takes_push.
    all: eauto using takes_cancel, takes_cancel_process, takes_cancel_job, takes_resize, takes_send.
    + unfold push_record. destruct (record_size event fields); [case_match|]; by apply takes_none.
    + unfold push_signal. case_match; [apply takes_push|].
      by apply takes_none.
    + unfold push_stop. case_match; by apply takes_none.
Qed.

(** ** What leaves the queue *)

(** Cancellations and record events owe no answer and carry no order. *)
Definition passing (c : @Command P) : Prop := outcome_of c = None ∧ steady c = false.
Definition kinds s : Prop :=
  Forall passing (cancellations s) ∧ Forall (λ r, passing r.1) (records s).

Lemma merge_cancel_passing id everything l :
  Forall passing l → Forall passing (merge_cancel id everything l).
Proof.
  induction 1 as [|c l Hc Hl IH]; [constructor|]. simpl.
  destruct c; try (by constructor). case_match; by constructor.
Qed.
Lemma kinds_cancellation c s : passing c → kinds s → kinds (push_cancellation c s).
Proof. intros Hc [H1 H2]. split; [|done]. by apply Forall_app; split; [|constructor]. Qed.
Lemma push_record_kinds event fields s : kinds s → kinds (push_record event fields s).
Proof.
  intros [H1 H2]. unfold push_record.
  case_match; [case_match|]; split; try done. by apply Forall_app; split; [|repeat constructor].
Qed.
Lemma push_kinds c s : kinds s → kinds (push c s).2.
Proof.
  intros Hk. unfold push.
  assert (∀ r, kinds (if is_request c && r then (Some c, s) else (None, push_ordered c s)).2) as Hp.
  { intros []; by destruct (is_request c). }
  destruct c; try apply Hp; simpl.
  - by apply push_record_kinds.
  - unfold push_resize. by case_match.
  - unfold push_send. repeat case_match; done.
  - unfold push_cancel. case_match; [|done]. by apply kinds_cancellation.
  - unfold push_signal. by case_match.
  - unfold push_cancel_process. repeat case_match; [done| |by apply kinds_cancellation].
    split; [by apply merge_cancel_passing, Hk|apply Hk].
  - unfold push_cancel_job. case_match; [|done]. by apply kinds_cancellation.
  - unfold push_stop. case_match; by split; [apply Hk|constructor].
Qed.

Record leaves s (r : option (@Command P) * @Commands P) : Prop := {
  leaves_owed : owed (option_list r.1) ++ pending_owed r.2 ≡ₚ pending_owed s;
  leaves_order : filter (λ c, steady c) (option_list r.1) ++ filter (λ c, steady c) (ordered r.2)
                 = filter (λ c, steady c) (ordered s);
  leaves_kinds : kinds r.2 }.

Lemma leaves_passing o s s' :
  Forall passing (option_list o) → ordered s' = ordered s → cancelled s' = cancelled s →
  kinds s' → leaves s (o, s').
Proof.
  intros Hp Ho Hc Hk. split; [| |done]; unfold pending_owed; simpl; rewrite Ho, ?Hc.
  - destruct o as [c|]; [|done]. apply Forall_cons in Hp as [[Hn _] _]. simpl. by rewrite Hn.
  - destruct o as [c|]; [|done]. apply Forall_cons in Hp as [[_ Hn] _]. simpl.
    rewrite filter_cons, Hn. done.
Qed.
Lemma leaves_sandbox s o s' a b : leaves s (o, s') → leaves s (o, set_sandbox a b s').
Proof. intros [H1 H2 H3]. by split. Qed.

Lemma next_work_leaves s : kinds s → leaves s (next_work s).
Proof.
  intros [H1 H2]. unfold next_work. destruct (cancellations s) as [|c l] eqn:Hc.
  - destruct (ordered s) as [|c l] eqn:Ho.
    + assert (kinds s) as Hk by (split; [by rewrite Hc|done]).
      case_match; by apply leaves_passing; [repeat constructor|..].
    + split; unfold pending_owed; simpl; rewrite ?Ho.
      * unfold owed. simpl. by destruct (outcome_of c).
      * rewrite !filter_cons. by case_decide.
      * by split; simpl; rewrite ?Hc.
  - apply Forall_cons in H1 as [Hp Hl]. apply leaves_passing; [by constructor|done..|by split].
Qed.
Lemma pop_work_leaves s : kinds s → leaves s (pop_work s).
Proof.
  intros Hk. pose proof (next_work_leaves s Hk) as Hl. unfold pop_work.
  destruct (next_work s) as [o s']. case_match; [|done]. case_match. by apply leaves_sandbox.
Qed.
Lemma pop_record_leaves s : kinds s → leaves s (pop_record_event s).
Proof.
  intros [H1 H2]. unfold pop_record_event.
  destruct (records s) as [|[c n] l] eqn:Hr; [by apply leaves_passing; [constructor|..|split; rewrite ?Hr]|].
  apply Forall_cons in H2 as [Hp Hl]. apply leaves_passing; [by constructor|done..|by split].
Qed.
Lemma pop_leaves s : kinds s → leaves s (pop s).
Proof.
  intros Hk. pose proof (pop_work_leaves s Hk) as Hl. unfold pop.
  destruct (pop_work s) as [[c|] s']; [done|]. destruct Hl as [H1 H2 H3].
  destruct (pop_record_leaves s' H3) as [H4 H5 H6]. split; [|by rewrite H5, <-H2|done].
  by rewrite H4, <-H1.
Qed.
Lemma pop_cancellation_leaves s : kinds s → leaves s (pop_cancellation s).
Proof.
  intros [H1 H2]. unfold pop_cancellation.
  destruct (cancellations s) as [|c l] eqn:Hr; [by apply leaves_passing; [constructor|..|split; rewrite ?Hr]|].
  apply Forall_cons in H1 as [Hp Hl]. apply leaves_passing; [by constructor|done..|by split].
Qed.

(** ** Every run *)
Record settled s (k : Ledger) : Prop := {
  settled_owed : owed (accepted k) ≡ₚ owed (sent k) ++ told k ++ lost k ++ pending_owed s;
  settled_order : filter (λ c, steady c) (sent k ++ ordered s) `sublist_of`
                  filter (λ c, steady c) (accepted k);
  settled_kinds : kinds s }.

Lemma settled_sends s k r : settled s k → leaves s r → settled (sends r k).1 (sends r k).2.
Proof.
  intros [H1 H2 H3] [H4 H5 H6]. split; simpl; [| |done].
  - rewrite H1, owed_app, <-H4. solve_Permutation.
  - rewrite !filter_app in *. by rewrite <-(assoc (++)), H5.
Qed.
Lemma settled_same s s' k :
  settled s k → ordered s' = ordered s → cancelled s' = cancelled s → kinds s' → settled s' k.
Proof.
  intros [H1 H2 H3] Ho Hc Hk. by split; unfold pending_owed in *; rewrite ?Ho, ?Hc.
Qed.
Lemma settled_step s k op : settled s k → settled (step (s, k) op).1 (step (s, k) op).2.
Proof.
  intros Hs. pose proof Hs as [H1 H2 H3]. destruct op; cbn [step].
  - pose proof (push_kinds c s H3) as Hk.
    destruct (push_takes c s) as [[-> _]|(s' & Hp & [Ho Hf])]; [done|].
    rewrite Hp in *. split; simpl; [| |done].
    + rewrite owed_app, H1, Ho. solve_Permutation.
    + rewrite !filter_app in *. etrans; [by apply sublist_app|]. rewrite (assoc (++)).
      by apply sublist_app.
  - by apply (settled_sends s), pop_leaves.
  - by apply (settled_sends s), pop_work_leaves.
  - pose proof (pop_work_leaves s H3) as Hl. destruct (pop_work s) as [[c|] s'].
    + destruct Hl as [H4 H5 H6]. case_match; [done|]. split; simpl; [| |done].
      * rewrite H1, <-H4. unfold pending_owed, owed. simpl. by destruct (outcome_of c).
      * rewrite filter_app in *. cbn [fst snd] in H5. change (option_list (Some c)) with [c] in H5.
        rewrite <-filter_app in H5. by setoid_rewrite H5.
    + destruct Hl as [H4 H5 H6]. split; [by rewrite H1, <-H4| |done].
      rewrite filter_app in *. by setoid_rewrite H5.
  - by apply (settled_sends s), pop_cancellation_leaves.
  - unfold pop_cancelled. destruct (cancelled s) as [|o l] eqn:Hc; split; try done; simpl.
    + by rewrite app_nil_r.
    + rewrite H1. unfold pending_owed. rewrite Hc. simpl. solve_Permutation.
  - by apply (settled_sends s), pop_record_leaves.
  - by apply settled_same with s.
  - apply settled_same with s; try done. by split; [apply H3|constructor].
  - unfold sandbox_written. case_match; [|done]. by apply settled_same with s.
  - by apply settled_same with s.
  - split; simpl.
    + rewrite H1. unfold pending_owed. simpl. by rewrite app_nil_r.
    + rewrite app_nil_r. etrans; [|exact H2]. rewrite filter_app. by apply sublist_inserts_r.
    + by split; constructor.
Qed.
Lemma run_settled ops : settled (run ops).1 (run ops).2.
Proof. apply run_ind; [|apply settled_step]. by split; [..|split; constructor]. Qed.

Lemma run_keeps_all ops : OClear ∉ ops → lost (run ops).2 = [].
Proof.
  unfold run. induction ops as [|op ops IH] using rev_ind; [done|].
  rewrite foldl_snoc, not_elem_of_app, list_elem_of_singleton. intros [Hops Hop].
  specialize (IH Hops). destruct (foldl step _ ops) as [s k].
  destruct op; simpl; repeat case_match; try done; simplify_eq/=; done.
Qed.

(** C20. Requests are settled once, and commands keep their order: whatever the
    actor does, every spawn and host request the queue accepted was handed to
    the supervisor, or reported to the actor as cancelled, or still waits, or
    was discarded by the teardown of the queue, each exactly once, and without
    a teardown none is discarded; and the commands handed over, followed by
    those waiting, are in the order of their acceptance, but for those the
    queue moves or replaces by design, of which the order claims nothing:
    record events, resizes, closes of sandbox connections, cancellations and
    stops. *)
Theorem requests_settle_once (ops : list Op) :
  let s := (run ops).1 in let k := (run ops).2 in
  owed (accepted k) ≡ₚ owed (sent k) ++ told k ++ lost k ++ owed (ordered s) ++ cancelled s ∧
  filter (λ c, steady c) (sent k ++ ordered s) `sublist_of`
    filter (λ c, steady c) (accepted k) ∧
  (OClear ∉ ops → lost k = []).
Proof.
  pose proof (run_settled ops) as [H1 H2 _].
  pose proof (run_keeps_all ops) as Hl.
  by split_and!.
Qed.
End commands.

(** ** A run

    Two spawns and a host job are accepted; the first spawn leaves, the second
    is cancelled before it was sent, and the job still waits. *)
Definition no_json : JsonText := {|
  from_bytes := λ _, None; json_error := λ _, ""; to_bytes := λ _, [] |}.
Definition plain_carried : Carried := mkCarried unit unit unit unit unit.
Definition streams : StdioOf plain_carried := tt.
Definition demo_ops : list (@Op plain_carried) :=
  [OPush (Spawn 1 SpawnExec None None [] streams); OPush (Spawn 2 SpawnExec None None [] streams);
   OPush (Signal 2 15); OPush (RunHostJob "job" ["make"] [] None);
   OPop; OPush (CancelProcess 2 false); OPopCancelled].
Lemma requests_settle_once_witness :
  let s := (@run plain_carried no_json demo_ops).1 in let k := (@run plain_carried no_json demo_ops).2 in
  owed (accepted k) ≡ₚ owed (sent k) ++ told k ++ lost k ++ owed (ordered s) ++ cancelled s ∧
  lost k = [] ∧ told k = [SpawnFailed 2 "process cancelled before it started"] ∧
  ordered s = [RunHostJob "job" ["make"] [] None].
Proof.
  destruct (@requests_settle_once plain_carried no_json demo_ops) as (Ho & _ & Hl).
  split; [exact Ho|]. split; [|by split; vm_compute].
  apply Hl. unfold demo_ops. rewrite !not_elem_of_cons. split_and!; try done. apply not_elem_of_nil.
Defined.
