(* ===== verification/OutboundBounds.v ===== *)
(** * Bounds of the command queue

    The limits of [Outbound.Commands] hold after every run: requests with the
    outcomes that replace them, record events and their bytes, signals of a
    process, bytes of a sandbox connection, and one cancellation of a kind. *)
From S2P Require Import Prelude Json Messages Framing Outbound OutboundSpec.

Section commands.
Context {P : Carried} `{JsonText}.
#[local] Set Default Proof Using "Type".
Implicit Types (s : @Commands P) (c : @Command P) (l : list (@Command P)).

(** ** Weights

    Each bound on the ordered commands is on a sum of weights. *)
Definition total (w : @Command P → N) l : N := foldr (λ c n, w c + n)%N 0%N l.
Lemma total_app w l1 l2 : total w (l1 ++ l2) = (total w l1 + total w l2)%N.
Proof. induction l1 as [|c l1 IH]; simpl; [done|]. rewrite IH. lia. Qed.
Lemma total_sublist w l1 l2 : l1 `sublist_of` l2 → (total w l1 <= total w l2)%N.
Proof. induction 1; simpl; lia. Qed.
Lemma total_count (f : @Command P → bool) l :
  lenN (filter (λ c, f c) l) = total (λ c, if f c then 1 else 0)%N l.
Proof.
  induction l as [|c l IH]; [done|]. rewrite filter_cons. simpl. rewrite <-IH.
  destruct (f c); simpl; unfold lenN; simpl; lia.
Qed.

(** A weight that only steady commands have. *)
Class Weight (w : @Command P → N) : Prop :=
  weightless : ∀ c, steady c = false → w c = 0%N.

Section weight.
Context (w : @Command P → N) `{!Weight w}.
#[local] Set Default Proof Using "Type*".

Lemma total_steady l : total w (filter (λ c, steady c) l) = total w l.
Proof.
  induction l as [|c l IH]; [done|]. rewrite filter_cons.
  destruct (steady c) eqn:Hc; simpl; rewrite IH; [done|]. by rewrite (weightless (w:=w) c).
Qed.
(** A push adds at most the weight of its command. *)
Lemma push_total c s : (total w (ordered (push c s).2) <= total w (ordered s) + w c)%N.
Proof.
  destruct (push_takes c s) as [[-> _]|(s' & -> & [_ Hf])]; simpl; [lia|].
  apply (total_sublist w) in Hf. rewrite total_app, !total_steady in Hf. simpl in Hf. lia.
Qed.
(** What leaves takes its weight with it. *)
Lemma leaves_total s r :
  leaves s r → (total w (option_list r.1) + total w (ordered r.2))%N = total w (ordered s).
Proof.
  intros [_ Hf _]. apply (f_equal (total w)) in Hf. by rewrite total_app, !total_steady in Hf.
Qed.
End weight.

#[export] Instance weight_request : Weight (λ c, if is_request c then 1 else 0)%N.
Proof. by intros []. Qed.
#[export] Instance weight_signal id : Weight (λ c, if is_signal id c then 1 else 0)%N.
Proof. by intros []. Qed.
Definition send_weight (connection : N) (c : @Command P) : N :=
  match sandbox_size c with
  | Some (other, n) => if (other =? connection)%N then n else 0%N
  | None => 0%N
  end.
#[export] Instance weight_send connection : Weight (send_weight connection).
Proof. by intros []. Qed.

Lemma unsent_total s :
  unsent_requests s = total (λ c, if is_request c then 1 else 0)%N (ordered s).
Proof. apply total_count. Qed.
Lemma queued_total connection l :
  foldr N.add 0%N (queued_sizes connection l) = total (send_weight connection) l.
Proof.
  induction l as [|c l IH]; [done|]. unfold queued_sizes in *. simpl. rewrite <-IH. unfold send_weight.
  destruct (sandbox_size c) as [[other n]|]; [destruct (other =? connection)%N|]; done.
Qed.

(** ** The invariant *)
Definition signals (id : N) s : N := lenN (filter (λ c, is_signal id c) (ordered s)).
Definition unwritten (connection : N) s : N :=
  (total (send_weight connection) (ordered s) + in_flight connection s)%N.
Definition record_total s : N := foldr (λ r n, r.2 + n)%N 0%N (records s).

(** What a cancellation cancels. *)
Inductive Target := OfCall (id : N) | OfProcess (id : N) | OfJob (request : string) | OfNothing.
Definition target (c : @Command P) : Target :=
  match c with
  | Cancel id => OfCall id | CancelProcess id _ => OfProcess id
  | CancelHostJob request => OfJob request | _ => OfNothing
  end.

Record bounded s : Prop := {
  bounded_requests : (unsent_requests s + lenN (cancelled s) <= REQUESTS)%N;
  bounded_signals : ∀ id, (signals id s <= SIGNALS)%N;
  bounded_sandbox : ∀ connection, (unwritten connection s <= SANDBOX_BYTES)%N;
  bounded_records : (lenN (records s) <= RECORD_EVENTS)%N ∧ record_bytes s = record_total s ∧
                    (record_bytes s <= RECORD_BYTES)%N;
  bounded_cancellations : NoDup (target <$> cancellations s) }.

Lemma bounded_start : bounded (@default_commands P).
Proof.
  split; simpl; try done. constructor.
Qed.
Lemma outcomes_fit (hit : @Command P → bool) l :
  (total (λ c, if is_request c then 1 else 0) (filter (λ c, negb (hit c)) l) +
   lenN (omap outcome_of (filter (λ c, hit c) l)) <=
   total (λ c, if is_request c then 1 else 0) l)%N.
Proof.
  induction l as [|c l IH]; [done|]. rewrite !filter_cons. unfold lenN, omap in *.
  destruct (hit c); simpl; [|lia]. destruct (outcome_of c) eqn:Hc; [|lia].
  destruct c; simpl in *; try done; lia.
Qed.

Definition load s : N := (unsent_requests s + lenN (cancelled s))%N.
Lemma removed_load hit s : (load (remove_into hit s) <= load s)%N.
Proof.
  unfold load. rewrite !unsent_total. simpl. pose proof (outcomes_fit hit (ordered s)).
  unfold lenN in *. rewrite length_app. lia.
Qed.
Lemma push_cancelled c s :
  (∀ id everything, c ≠ CancelProcess id everything) → (∀ request, c ≠ CancelHostJob request) →
  cancelled (push c s).2 = cancelled s.
Proof.
  intros Hp Hj. unfold push.
  destruct c; try naive_solver; cbn [is_request andb];
    unfold push_record, push_resize, push_send, push_cancel, push_signal, push_stop;
    repeat case_match; by simplify_eq/=.
Qed.
Definition request_weight (c : @Command P) : N := if is_request c then 1 else 0.
Lemma push_load_le c s : (load (push c s).2 <= load s + request_weight c)%N.
Proof.
  assert (cancelled (push c s).2 = cancelled s →
    (load (push c s).2 <= load s + request_weight c)%N) as Hsame.
  { intros Hc. unfold load. rewrite Hc, !unsent_total.
    pose proof (push_total request_weight c s). unfold request_weight in *. lia. }
  destruct c; try (by apply Hsame, push_cancelled); cbn [push is_request andb snd].
  - pose proof (removed_load (is_spawn id) s) as Hr.
    pose proof (total_sublist request_weight _ _ (sublist_filter
      (λ c, negb (is_signal id c)) (ordered (remove_into (is_spawn id) s)))) as Hf.
    unfold push_cancel_process. repeat case_match; unfold load in *; rewrite !unsent_total in *;
      unfold request_weight in *; simpl in *; lia.
  - pose proof (removed_load (λ c, is_prepare request c || is_run_job request c) s) as Hr.
    unfold push_cancel_job. case_match; unfold load, unsent_requests in *; simpl in *; lia.
Qed.
Lemma push_load c s : (load s <= REQUESTS)%N → (load (push c s).2 <= REQUESTS)%N.
Proof.
  intros Hl. pose proof (push_load_le c s) as Hle. unfold request_weight in Hle.
  destruct (is_request c) eqn:Hr; [|lia].
  destruct (decide (load s = REQUESTS)) as [Hf|]; [|unfold REQUESTS in *; lia].
  unfold load in Hf. unfold push. rewrite Hr, Hf, N.eqb_refl. by destruct c.
Qed.

Lemma push_signals id c s : (signals id s <= SIGNALS)%N → (signals id (push c s).2 <= SIGNALS)%N.
Proof.
  intros Hs. unfold signals in *.
  destruct (is_signal id c) eqn:Hc.
  - destruct c; try done. apply N.eqb_eq in Hc as ->. simpl. unfold push_signal.
    destruct (N.ltb_spec (lenN (filter (λ c, is_signal id c) (ordered s))) SIGNALS); [|done].
    simpl. rewrite total_count, total_app, <-total_count in *. simpl. rewrite N.eqb_refl. lia.
  - rewrite total_count in *. pose proof (push_total (λ c, if is_signal id c then 1 else 0)%N c s) as Ht.
    simpl in Ht. rewrite Hc in Ht. lia.
Qed.

Lemma u64_saturating_small a b n :
  (n < u64_modulus - 1)%N → (u64_saturating_add a b <= n)%N ↔ (a + b <= n)%N.
Proof. unfold u64_saturating_add, u64_max, u64_modulus. lia. Qed.
Lemma saturating_fits a b n m :
  (m < u64_modulus - 1)%N → (a + b <= m)%N →
  (u64_saturating_add (u64_saturating_add a b) n <= m)%N → (a + b + n <= m)%N.
Proof. unfold u64_saturating_add, u64_max, u64_modulus. lia. Qed.
Lemma push_flight c s : in_flight_sandbox (push c s).2 = in_flight_sandbox s.
Proof.
  unfold push. destruct c; try (by case_match); cbn [is_request andb snd];
    unfold push_record, push_resize, push_send, push_cancel, push_cancel_process, push_cancel_job,
      push_signal, push_stop; repeat case_match; by simplify_eq/=.
Qed.
Lemma push_unwritten connection c s :
  (unwritten connection s <= SANDBOX_BYTES)%N → (unwritten connection (push c s).2 <= SANDBOX_BYTES)%N.
Proof.
  intros Hs. unfold unwritten, in_flight in *. rewrite push_flight.
  destruct (decide (send_weight connection c = 0%N)) as [Hz|Hz].
  { pose proof (push_total (send_weight connection) c s). lia. }
  destruct c; try (by destruct Hz). unfold send_weight in Hz. simpl in Hz.
  destruct (encoded message) as [n|] eqn:He; simpl in Hz; [|done].
  destruct (N.eqb_spec connection0 connection) as [->|]; [|done].
  simpl. unfold push_send. case_bool_decide; [done|]. rewrite He.
  destruct (N.ltb_spec SANDBOX_BYTES (u64_saturating_add (queued_sandbox connection s) n)) as [Hb|Hb].
  - simpl. pose proof (total_sublist (send_weight connection) _ _
      (sublist_filter (λ c, negb (is_send connection c)) (ordered s))).
    rewrite total_app. simpl. unfold send_weight at 2. simpl. lia.
  - unfold queued_sandbox, in_flight in Hb. rewrite queued_total in Hb.
    apply saturating_fits in Hb; [|done..].
    simpl. rewrite total_app. simpl. unfold send_weight at 2. simpl. rewrite He. simpl.
    rewrite N.eqb_refl. lia.
Qed.

Lemma push_records c s :
  (lenN (records s) <= RECORD_EVENTS)%N ∧ record_bytes s = record_total s ∧
    (record_bytes s <= RECORD_BYTES)%N →
  (lenN (records (push c s).2) <= RECORD_EVENTS)%N ∧
    record_bytes (push c s).2 = record_total (push c s).2 ∧
    (record_bytes (push c s).2 <= RECORD_BYTES)%N.
Proof.
  intros (H1 & H2 & H3).
  assert (∀ s', records s' = records s → record_bytes s' = record_bytes s →
    (lenN (records s') <= RECORD_EVENTS)%N ∧ record_bytes s' = record_total s' ∧
    (record_bytes s' <= RECORD_BYTES)%N) as Hsame.
  { unfold record_total. by intros s' -> ->. }
  unfold push. destruct c; try (case_match; by apply Hsame); cbn [is_request andb snd];
    unfold push_resize, push_send, push_cancel, push_cancel_process, push_cancel_job,
      push_signal; repeat case_match; try by apply Hsame.
  - unfold push_record. destruct (record_size event fields) as [size|]; [|by apply Hsame].
    destruct (records_closed s || (lenN (records s) =? RECORD_EVENTS)%N ||
      (RECORD_BYTES <? u64_saturating_add (record_bytes s) size)%N) eqn:Hf; [by apply Hsame|].
    apply orb_false_iff in Hf as [[_ Hn%N.eqb_neq]%orb_false_iff Hb%N.ltb_ge].
    apply u64_saturating_small in Hb; [|done]. simpl. unfold record_total. simpl.
    rewrite foldr_app. simpl. unfold lenN in *. rewrite length_app. simpl.
    split_and!; [lia| |lia]. rewrite H2. unfold record_total. generalize (records s). clear.
    induction l as [|r l IH]; simpl; lia.
  - unfold push_stop. case_match; simpl; unfold record_total; simpl; done.
Qed.

(** One cancellation of a call, a process or a job at a time. *)
Lemma merge_cancel_targets id everything l :
  target <$> merge_cancel id everything l = target <$> l.
Proof.
  induction l as [|c l IH]; [done|]. simpl.
  destruct c; try (by rewrite fmap_cons, IH). by case_match; rewrite !fmap_cons, ?IH.
Qed.
Lemma NoDup_snoc {A} (l : list A) x : NoDup l → x ∉ l → NoDup (l ++ [x]).
Proof. intros Hl Hx. apply NoDup_app. split_and!; [done|set_solver|apply NoDup_singleton]. Qed.
Lemma fresh_target (is_it : @Command P → bool) t l :
  (∀ c, target c = t → is_it c) → existsb is_it l = false → t ∉ target <$> l.
Proof.
  intros Hi Hl (c & -> & Hc)%list_elem_of_fmap. apply not_true_iff_false in Hl. apply Hl.
  apply existsb_exists. exists c. split; [by apply list_elem_of_In|]. by apply Is_true_true, Hi.
Qed.
Lemma push_cancellations c s :
  NoDup (target <$> cancellations s) → NoDup (target <$> cancellations (push c s).2).
Proof.
  intros Hn. unfold push. destruct c; try (by case_match); cbn [is_request andb snd];
    unfold push_record, push_resize, push_send, push_signal, push_stop; try (by repeat case_match).
  - unfold push_cancel. case_match eqn:Hc; [|done]. apply andb_true_iff in Hc as [_ Hc%negb_true_iff].
    simpl. rewrite fmap_app. apply NoDup_snoc; [done|]. apply (fresh_target (is_cancel id)); [|done].
    intros []; simpl; try done. intros [= ->]. by rewrite N.eqb_refl.
  - unfold push_cancel_process. case_match; [done|]. case_match eqn:Hc; simpl.
    + by rewrite merge_cancel_targets.
    + rewrite fmap_app. apply NoDup_snoc; [done|]. apply (fresh_target (is_cancel_process id)); [|done].
      intros []; simpl; try done. intros [= ->]. by rewrite N.eqb_refl.
  - unfold push_cancel_job. case_match eqn:Hc; [|done].
    apply andb_true_iff in Hc as [_ Hc%negb_true_iff].
    simpl. rewrite fmap_app. apply NoDup_snoc; [done|].
    apply (fresh_target (is_cancel_job request)); [|done].
    intros []; simpl; try done. intros [= ->]. by apply bool_decide_pack.
Qed.
Lemma push_bounded c s : bounded s → bounded (push c s).2.
Proof.
  intros [H1 H2 H3 H4 H5]. split.
  - by apply push_load.
  - intros id. by apply push_signals.
  - intros connection. by apply push_unwritten.
  - by apply push_records.
  - by apply push_cancellations.
Qed.

(** ** What leaves *)

Lemma fmap_sublist {A B} (f : A → B) (l1 l2 : list A) : l1 `sublist_of` l2 → f <$> l1 `sublist_of` f <$> l2.
Proof. induction 1; simpl; by constructor. Qed.

(** Only the weights of the ordered commands change the bounds on them. *)
Lemma bounded_lighter s s' :
  bounded s → (lenN (cancelled s') <= lenN (cancelled s))%N →
  (∀ w, Weight w → (total w (ordered s') <= total w (ordered s))%N) →
  (∀ connection, (total (send_weight connection) (ordered s') + in_flight connection s' <=
    total (send_weight connection) (ordered s) + in_flight connection s)%N) →
  records s' = records s → record_bytes s' = record_bytes s →
  cancellations s' `sublist_of` cancellations s → bounded s'.
Proof.
  intros [H1 H2 H3 H4 H5] Hc Hw Hf Hr Hb Hs. split.
  - rewrite unsent_total in *. pose proof (Hw _ weight_request). lia.
  - intros id. specialize (H2 id). unfold signals in *. rewrite total_count in *.
    pose proof (Hw _ (weight_signal id)). lia.
  - intros connection. specialize (H3 connection). specialize (Hf connection). unfold unwritten in *. lia.
  - unfold record_total in *. by rewrite Hr, Hb.
  - eapply sublist_NoDup; [exact H5|]. by apply fmap_sublist.
Qed.

Definition queue_kinds s : Prop := bounded s ∧ kinds s.
Lemma next_work_cases s :
  kinds s →
  let r := next_work s in
  leaves s r ∧ in_flight_sandbox r.2 = in_flight_sandbox s ∧ cancelled r.2 = cancelled s ∧
  records r.2 = records s ∧ record_bytes r.2 = record_bytes s ∧
  cancellations r.2 `sublist_of` cancellations s.
Proof.
  intros Hk r. split; [by apply next_work_leaves|]. subst r. unfold next_work.
  repeat case_match; simpl; split_and!; try done; try (by rewrite H0). by apply sublist_cons.
Qed.
Lemma total_option w (o : option (@Command P)) :
  total w (option_list o) = match o with Some c => w c | None => 0%N end.
Proof. destruct o; simpl; lia. Qed.
Lemma pop_work_flight s connection :
  kinds s →
  (total (send_weight connection) (ordered (pop_work s).2) + in_flight connection (pop_work s).2 =
   total (send_weight connection) (ordered s) + in_flight connection s)%N.
Proof.
  intros Hk. destruct (next_work_cases s Hk) as (Hl & Hf & _).
  apply (leaves_total (send_weight connection)) in Hl. rewrite total_option in Hl.
  unfold pop_work. destruct (next_work s) as [o s']. simpl in *. unfold in_flight.
  destruct o as [c|]; simpl; [|rewrite Hf; lia].
  unfold send_weight at 1 in Hl. destruct (sandbox_size c) as [[other n]|]; simpl; rewrite <-Hf in *; [|lia].
  destruct (N.eqb_spec other connection) as [->|].
  - rewrite lookup_insert_eq. simpl. lia.
  - rewrite lookup_insert_ne by done. lia.
Qed.
Lemma pop_work_bounded s : queue_kinds s → bounded (pop_work s).2.
Proof.
  intros [Hb Hk]. pose proof (pop_work_leaves s Hk) as Hl.
  pose proof (pop_work_flight s) as Hf.
  destruct (next_work_cases s Hk) as (_ & _ & Hc & Hr & Hrb & Hca).
  apply (bounded_lighter s); [done|..].
  - unfold pop_work. destruct (next_work s). simpl in *. case_match; [case_match|]; simpl; by rewrite Hc.
  - intros w Hw. apply (leaves_total w) in Hl. lia.
  - intros connection. by rewrite Hf.
  - unfold pop_work. destruct (next_work s). simpl in *. by repeat case_match.
  - unfold pop_work. destruct (next_work s). simpl in *. by repeat case_match.
  - unfold pop_work. destruct (next_work s). simpl in *. by repeat case_match.
Qed.

Lemma with_records_bounded rs n closed dropped s :
  bounded s → (lenN rs <= RECORD_EVENTS)%N → n = foldr (λ r m, r.2 + m)%N 0%N rs →
  (n <= RECORD_BYTES)%N → bounded (set_records rs n closed dropped s).
Proof. intros [H1 H2 H3 H4 H5] Hl Hn Hb. by split; try done; split_and!. Qed.
Lemma pop_record_bounded s : bounded s → bounded (pop_record_event s).2.
Proof.
  intros Hs. pose proof Hs as [_ _ _ (H1 & H2 & H3) _]. unfold pop_record_event.
  unfold record_total in H2. destruct (records s) as [|[c n] l] eqn:Hr; [done|]. simpl in *.
  unfold lenN in *. simpl in *. apply with_records_bounded; unfold lenN; [done|lia..].
Qed.
Lemma pop_bounded s : queue_kinds s → bounded (pop s).2.
Proof.
  intros Hs. pose proof (pop_work_bounded s Hs) as Hb. unfold pop.
  destruct (pop_work s) as [[c|] s']; [done|]. by apply pop_record_bounded.
Qed.
Lemma written_flight connection n other s :
  (in_flight other (sandbox_written connection n s) <= in_flight other s)%N.
Proof.
  unfold sandbox_written, in_flight.
  destruct (in_flight_sandbox s !! connection) as [q|] eqn:Hq; [|done].
  unfold u64_saturating_sub. simpl. destruct (decide (other = connection)) as [->|].
  - rewrite Hq. destruct (N.eqb_spec (q - n) 0).
    + rewrite lookup_delete_eq. simpl. lia.
    + rewrite lookup_insert_eq. simpl. lia.
  - case_match; [by rewrite lookup_delete_ne|by rewrite lookup_insert_ne].
Qed.
Lemma written_keeps connection n s :
  let s' := sandbox_written connection n s in
  ordered s' = ordered s ∧ cancelled s' = cancelled s ∧ records s' = records s ∧
  record_bytes s' = record_bytes s ∧ cancellations s' = cancellations s.
Proof. intros s'. subst s'. unfold sandbox_written. by case_match. Qed.
Lemma refused_bounded s : queue_kinds s →
  match pop_work s with
  | (Some c, s') => is_sandbox_send c = false → bounded (restore_front c s')
  | (None, s') => bounded s'
  end.
Proof.
  intros Hs. pose proof (pop_work_bounded s Hs) as Hb. destruct Hs as [Hs Hk].
  pose proof (pop_work_leaves s Hk) as Hl.
  destruct (next_work_cases s Hk) as (_ & Hf & Hc & Hr & Hrb & Hca).
  unfold pop_work in *. destruct (next_work s) as [[c|] s']; simpl in *; [|done].
  intros Hsend. assert (sandbox_size c = None) as Hn by by destruct c.
  rewrite Hn in *. apply (bounded_lighter s); simpl; try done; [by rewrite Hc|..].
  - intros w Hw. apply (leaves_total w) in Hl. rewrite total_option in Hl. simpl in Hl. lia.
  - intros connection. apply (leaves_total (send_weight connection)) in Hl.
    rewrite total_option in Hl. simpl in Hl. unfold in_flight. simpl. rewrite Hf. lia.
Qed.

Lemma step_bounded s k op : queue_kinds s → bounded (step (s, k) op).1.
Proof.
  intros Hs. pose proof Hs as [Hb Hk]. destruct op; cbn [step].
  - pose proof (push_bounded c s Hb). by destruct (push c s).
  - by apply pop_bounded.
  - by apply pop_work_bounded.
  - pose proof (refused_bounded s Hs) as Hr. destruct (pop_work s) as [[c|] s']; [|done].
    destruct (is_sandbox_send c); [done|by apply Hr].
  - unfold pop_cancellation. destruct (cancellations s) as [|c l] eqn:Hc; [done|].
    apply (bounded_lighter s); simpl; try done. rewrite Hc. by apply sublist_cons.
  - unfold pop_cancelled. destruct (cancelled s) as [|o l] eqn:Hc; [done|].
    apply (bounded_lighter s); simpl; try done. rewrite Hc. unfold lenN. simpl. lia.
  - by apply pop_record_bounded.
  - pose proof Hb as [_ _ _ (? & ? & ?) _]. by apply with_records_bounded.
  - by apply with_records_bounded.
  - destruct (written_keeps connection n s) as (Ho & Hc & Hr & Hrb & Hca).
    apply (bounded_lighter s); cbn [fst]; rewrite ?Ho, ?Hc, ?Hr, ?Hrb, ?Hca; try done.
    intros other. pose proof (written_flight connection n other s). lia.
  - apply (bounded_lighter s); simpl; try done. intros other. unfold in_flight. simpl.
    destruct (decide (other = connection)) as [->|]; [rewrite lookup_delete_eq; simpl; lia|].
    by rewrite lookup_delete_ne.
  - apply with_records_bounded; [apply bounded_start|done..].
Qed.
Lemma run_bounded ops : bounded (run ops).1.
Proof.
  apply (run_ind (λ s k, bounded s ∧ settled s k)).
  - split; [apply bounded_start|]. apply (run_settled []).
  - intros s k op [Hb Hs]. split; [|by apply settled_step].
    apply step_bounded. by split; [|apply Hs].
Qed.

(** C21. The queue stays within its bounds whatever the actor does: unsent
    requests together with the outcomes that replace cancelled ones, signals
    of a process, the bytes of a sandbox connection queued and in flight, and
    record events with an exact count of their bytes; and no two
    cancellations wait for the same call, process or job. *)
Theorem queue_within_limits (ops : list Op) :
  let s := (run ops).1 in
  (unsent_requests s + lenN (cancelled s) <= REQUESTS)%N ∧
  (∀ id, (signals id s <= SIGNALS)%N) ∧
  (∀ connection, (foldr N.add 0 (queued_sizes connection (ordered s)) +
    in_flight connection s <= SANDBOX_BYTES)%N) ∧
  (lenN (records s) <= RECORD_EVENTS)%N ∧ record_bytes s = record_total s ∧
  (record_bytes s <= RECORD_BYTES)%N ∧
  NoDup (target <$> cancellations s).
Proof.
  destruct (run_bounded ops) as [H1 H2 H3 (H4 & H5 & H6) H7]. split_and!; try done.
  intros connection. rewrite queued_total. apply H3.
Qed.
End commands.
