(* ===== verification/Controller.v ===== *)
(** * The controller's state and sessions

    The parts of [packages/daemon/src/controller.rs] that raids and messaging
    use: the sessions and permission records, fresh IDs, target resolution,
    who controls whom, operation events, and [stop]. The controller is seen
    through the fields these read and write. What [stop] does to a session's
    processes, terminals and waiting connections is outside this state. *)
From S2P Require Import Prelude Json Messages Operations RaidLog Mailbox Worker Raid.

Abbreviation Fault := (Z * string)%type.

Record RaidMembership := mkMembership {
  m_id : string; m_name : string; m_role : option string; m_owner : option string;
  m_paused : bool }.
#[export] Instance RaidMembership_eq_dec : EqDecision RaidMembership.
Proof. solve_decision. Defined.

(** The approval a session waits for. *)
Record Pending := mkPending { pe_id : string; pe_notify : bool }.

(** An [Active] session: the fields of its record used here, its pending
    approval, and [live()]: it has a runtime that was not released. *)
Record Active := mkActive {
  a_id : string; a_agent_name : string; a_name : string; a_state : string;
  a_stop_reason : option string; identity : bool; a_raid : option RaidMembership;
  a_pending : option Pending; a_live : bool }.
Definition with_raid (m : option RaidMembership) (a : Active) : Active :=
  mkActive (a_id a) (a_agent_name a) (a_name a) (a_state a) (a_stop_reason a) (identity a) m
    (a_pending a) (a_live a).
Definition without_pending (a : Active) : Active :=
  mkActive (a_id a) (a_agent_name a) (a_name a) (a_state a) (a_stop_reason a) (identity a)
    (a_raid a) None (a_live a).

Record PermissionRecord := mkPermission {
  p_kind : string; p_id : string; p_session : string; p_agent_name : string;
  p_approval : string; p_package : string; p_reason : string; p_state : string;
  p_approved : option bool; p_preview : option Value; p_message : option string }.
Definition with_state (state : string) (r : PermissionRecord) : PermissionRecord :=
  mkPermission (p_kind r) (p_id r) (p_session r) (p_agent_name r) (p_approval r) (p_package r)
    (p_reason r) state (p_approved r) (p_preview r) (p_message r).

(** [queue] is the bounded channel to the messaging worker, oldest first; [None]
    when the worker no longer receives. *)
Record Controller := mkController {
  c_instance : string;
  c_next : N;
  c_sessions : gmap string Active;
  c_raids : Raids;
  raid_outbox : list Raid.Event;
  raid_events : N;
  operation_outbox : list Operations.Event;
  permissions : list PermissionRecord;
  dirty : bool;
  queue : option (list Work);
  messaging_directory : Directory;
  shutdown : bool }.

Definition set_next (n : N) (c : Controller) : Controller :=
  mkController (c_instance c) n (c_sessions c) (c_raids c) (raid_outbox c) (raid_events c)
    (operation_outbox c) (permissions c) (dirty c) (queue c) (messaging_directory c)
    (shutdown c).
Definition set_sessions (s : gmap string Active) (c : Controller) : Controller :=
  mkController (c_instance c) (c_next c) s (c_raids c) (raid_outbox c) (raid_events c)
    (operation_outbox c) (permissions c) (dirty c) (queue c) (messaging_directory c)
    (shutdown c).
Definition set_raids (r : Raids) (c : Controller) : Controller :=
  mkController (c_instance c) (c_next c) (c_sessions c) r (raid_outbox c) (raid_events c)
    (operation_outbox c) (permissions c) (dirty c) (queue c) (messaging_directory c)
    (shutdown c).
Definition set_outbox (l : list Raid.Event) (n : N) (c : Controller) : Controller :=
  mkController (c_instance c) (c_next c) (c_sessions c) (c_raids c) l n (operation_outbox c)
    (permissions c) (dirty c) (queue c) (messaging_directory c) (shutdown c).
Definition set_operation_outbox (l : list Operations.Event) (c : Controller) : Controller :=
  mkController (c_instance c) (c_next c) (c_sessions c) (c_raids c) (raid_outbox c)
    (raid_events c) l (permissions c) (dirty c) (queue c) (messaging_directory c) (shutdown c).
Definition set_permissions (l : list PermissionRecord) (c : Controller) : Controller :=
  mkController (c_instance c) (c_next c) (c_sessions c) (c_raids c) (raid_outbox c)
    (raid_events c) (operation_outbox c) l (dirty c) (queue c) (messaging_directory c)
    (shutdown c).
Definition set_dirty (c : Controller) : Controller :=
  mkController (c_instance c) (c_next c) (c_sessions c) (c_raids c) (raid_outbox c)
    (raid_events c) (operation_outbox c) (permissions c) true (queue c) (messaging_directory c)
    (shutdown c).
Definition set_queue (l : option (list Work)) (c : Controller) : Controller :=
  mkController (c_instance c) (c_next c) (c_sessions c) (c_raids c) (raid_outbox c)
    (raid_events c) (operation_outbox c) (permissions c) (dirty c) l (messaging_directory c)
    (shutdown c).
Definition set_messaging_directory (d : Directory) (c : Controller) : Controller :=
  mkController (c_instance c) (c_next c) (c_sessions c) (c_raids c) (raid_outbox c)
    (raid_events c) (operation_outbox c) (permissions c) (dirty c) (queue c) d (shutdown c).

Abbreviation C := (M Controller Fault).

(** [Controller::number] and [Controller::id]. *)
Definition number : C N :=
  c ← get;
  n ← expect (u64_checked_add (c_next c) 1);
  _ ← put (set_next n c);
  mret n.
Definition identity_of (c : Controller) (kind : string) (n : N) : string :=
  c_instance c +:+ "-" +:+ kind +:+ show n.
Definition fresh_id (kind : string) : C string :=
  n ← number; c ← get; mret (identity_of c kind n).

Definition active_state (state : string) : bool :=
  string_eqb state "starting" || string_eqb state "running".

(** ** Targets *)
Definition missing : Fault := (-32004, "record absent or no longer retained")%Z.
Definition resolve_session (target : string) : C string :=
  c ← get;
  match c_sessions c !! target with
  | Some a => mret (a_id a)
  | None =>
      a ← ok_or (List.find (λ a, a_live a && string_eqb (a_agent_name a) target)
                   (values (c_sessions c))) missing;
      mret (a_id a)
  end.
(** A created member of the raid [owner] owns. *)
Definition controls (c : Controller) (owner_ member : string) : bool :=
  negb (string_eqb member owner_) &&
  match raid_of (c_raids c) owner_ with
  | Some r => opt_string_eqb (owner r) (Some owner_) &&
              match members r !! member with
              | Some m => bool_decide (is_Some (created_by m))
              | None => false
              end
  | None => false
  end.
Definition resolve_member (target owner_ : string) : C string :=
  id ← resolve_session target;
  c ← get;
  if controls c owner_ id then mret id else throw missing.

(** ** Operation events *)

(** [permission_mut] finds the first record of an ID. *)
Fixpoint update_permission (f : PermissionRecord → PermissionRecord) (id : string)
    (l : list PermissionRecord) : list PermissionRecord :=
  match l with
  | [] => []
  | r :: l => if string_eqb (p_id r) id then f r :: l else r :: update_permission f id l
  end.
Definition find_permission (c : Controller) (id : string) : option PermissionRecord :=
  List.find (λ r, string_eqb (p_id r) id) (permissions c).

Definition operation (request actor : string) (change : Operations.Change) : C unit :=
  c ← get;
  match find_permission c request with
  | Some r => put (set_operation_outbox (operation_outbox c ++
                [Operations.mkEvent request (p_session r) actor change]) c)
  | None => mret tt
  end.
Definition operation_finished (request : string) (notify : bool) (message : option string) :
    C unit :=
  c ← get;
  match find_permission c request with
  | Some r => operation request NOTICE_SENDER
                (Operations.Completed (p_kind r) (p_package r) (p_state r) message notify)
  | None => mret tt
  end.

(** ** Stopping a session *)

(** The first cause of a stop is kept. What [stop] does besides to the
    session's handoff, runtime, agent state and running call, and to the
    connections, execs, edits and host jobs that wait for it, reads and writes
    nothing of this state. *)
Definition stopping (reason : option string) (a : Active) : Active :=
  let ended := string_eqb (a_state a) "stopping" || string_eqb (a_state a) "stopped" ||
               string_eqb (a_state a) "failed" in
  mkActive (a_id a) (a_agent_name a) (a_name a) "stopping"
    (if ended then a_stop_reason a else reason) (identity a) (a_raid a) (a_pending a) (a_live a).
Definition stop (id : string) (reason : option string) : C Value :=
  c ← get;
  a ← ok_or (c_sessions c !! id) missing;
  let a' := if a_live a then stopping reason a else a in
  _ ← put (set_sessions (<[id := without_pending a']> (c_sessions c)) c);
  _ ← match a_pending a' with
      | Some p =>
          _ ← modify (λ c, set_permissions
                (update_permission (with_state "cancelled") (pe_id p) (permissions c)) c);
          operation_finished (pe_id p) (pe_notify p) (Some "session stopped")
      | None => mret tt
      end;
  _ ← modify set_dirty;
  mret (json_object [("accepted", Bool true)]).
