(* ===== verification/ControllerRaids.v ===== *)
(** * Raids in the controller

    [packages/daemon/src/controller/raids.rs]: who may change a raid, the
    bounded outbox of raid events, the host's prompts about paused raids, and
    the records of the sessions. *)
From S2P Require Import Prelude Json Grammar Messages Raid Controller.

Definition RAID_OUTBOX : N := 256.
Definition RAID_EVENTS : N := 4096.
Definition LAUNCHING : string := "".
Definition RAID_OWNER : string := "raid-owner".

Definition path_of (c : Controller) (session : string) : string :=
  match c_sessions c !! session with Some a => a_agent_name a | None => session end.

Definition list_fault : Fault := (-32602, "invite 1..16 goblins")%Z.
Definition raid_fault (c : Controller) (e : Error) : Fault :=
  match e with
  | InvalidName => (-32602, "raid names must be 1..32 ASCII lowercase letters, digits or hyphens, starting with a letter")
  | InvalidRole => (-32602, "roles must be 1..32 ASCII lowercase letters, digits or hyphens, starting with a letter; a role can be changed but not cleared")
  | InvalidList => list_fault
  | Exists name => (-32009, "raid '" +:+ name +:+ "' already exists")
  | Absent name => (-32004, "raid '" +:+ name +:+ "' does not exist")
  | MemberOf session raid =>
      (-32009, "goblin '" +:+ path_of c session +:+ "' is already in raid '" +:+ raid +:+ "'")
  | NotMember session => (-32009, "goblin '" +:+ path_of c session +:+ "' is not in a raid")
  | NotOwner session => (-32009, "goblin '" +:+ path_of c session +:+ "' does not own its raid")
  end%Z.

(** [next.f(..).map_err(|e| self.raid_fault(e))?] on a copy of the raids. *)
Definition on_copy {A} (m : M Raids Error A) : C (Raids * A) := λ c,
  match m (c_raids c) with
  | (Ok a, next) => (Ok (next, a), c)
  | (Err e, _) => (Err (raid_fault c e), c)
  | (Panic, _) => (Panic, c)
  end.
(** [self.raids.f(..).map_err(..)?] in place. *)
Definition in_place {A} (m : M Raids Error A) : C A := λ c,
  match m (c_raids c) with
  | (Ok a, next) => (Ok a, set_raids next c)
  | (Err e, next) => (Err (raid_fault c e), set_raids next c)
  | (Panic, next) => (Panic, set_raids next c)
  end.

Definition raid_id (name : string) : C string :=
  c ← get;
  match raids (c_raids c) !! name with Some _ => mret "" | None => fresh_id "raid" end.

(** ** Prompts *)
Definition find_raid (c : Controller) (id : string) : option Raid :=
  List.find (λ r, string_eqb (rid r) id) (iter (c_raids c)).

Definition joined_le (a b : string * Member) : Prop := (joined a.2 <= joined b.2)%N.
#[export] Instance joined_le_dec : RelDecision joined_le.
Proof. intros a b. unfold joined_le. apply _. Defined.
Definition by_joined (m : gmap string Member) : list (string * Member) :=
  merge_sort joined_le (entries m).

Definition raid_prompt_preview (c : Controller) (r : Raid) : Value :=
  json_object [("raid", String_ (rid r)); ("name", String_ (rname r));
    ("generation", json_u64 (generation r));
    ("former_owner", json_opt (λ p, json_object [("id", String_ (former_owner p));
       ("agent_name", String_ (path_of c (former_owner p)))]) (paused r));
    ("members", Array (omap (λ km, a ← c_sessions c !! km.1;
       Some (json_object [("id", String_ km.1); ("agent_name", String_ (a_agent_name a));
         ("name", String_ (a_name a)); ("role", json_opt_str (role km.2));
         ("state", String_ (a_state a));
         ("created", Bool (bool_decide (is_Some (created_by km.2))))]))
       (by_joined (members r))))].

Definition is_pending (r : PermissionRecord) : bool :=
  string_eqb (p_kind r) RAID_OWNER && string_eqb (p_state r) "pending".
Definition names_raid (raid : string) (r : PermissionRecord) : bool :=
  match p_preview r with
  | Some p => bool_decide (value_index p "raid" = String_ raid)
  | None => false
  end.

Definition finished_as (state message : string) (r : PermissionRecord) : PermissionRecord :=
  mkPermission (p_kind r) (p_id r) (p_session r) (p_agent_name r) (p_approval r) (p_package r)
    (p_reason r) state
    (if string_eqb state "approved" then Some true
     else if string_eqb state "denied" then Some false else None)
    (p_preview r) (Some message).
Definition finish_raid_prompt (raid state message : string) : C unit :=
  c ← get;
  let hit r := is_pending r && names_raid raid r in
  let c' := set_permissions ((λ r, if hit r then finished_as state message r else r) <$>
              permissions c) c in
  put (if existsb hit (permissions c) then set_dirty c' else c').

Definition raid_prompt (id : string) (reason : Reason) : C unit :=
  c ← get;
  match find_raid c id with
  | Some raid =>
      match paused raid with
      | Some p =>
          let former := former_owner p in
          let preview := raid_prompt_preview c raid in
          serial ← number;
          c ← get;
          put (set_dirty (set_permissions (permissions c ++ [mkPermission RAID_OWNER
            (c_instance c +:+ "-r" +:+ show serial) former (path_of c former)
            (c_instance c +:+ "-a" +:+ show serial) (rname raid)
            ("the owner " +:+ description reason) "pending" None (Some preview) None]) c))
      | None => mret tt
      end
  | None => mret tt
  end.

Definition raid_prompt_for (e : Event) : C unit :=
  match change e with
  | Paused raid _ reason _ =>
      _ ← finish_raid_prompt raid "cancelled" "the raid paused again";
      raid_prompt raid reason
  | Owner raid owner _ _ =>
      c ← get;
      finish_raid_prompt raid "approved" (path_of c owner +:+ " is the new owner")
  | Dissolved raid _ Destroyed => finish_raid_prompt raid "denied" "the host dissolved the raid"
  | Dissolved raid _ Empty_ => finish_raid_prompt raid "cancelled" "every member left"
  | _ => mret tt
  end.
Definition raid_prompts (events : list Event) : C unit := for_each raid_prompt_for events.

Definition with_preview (v : Value) (r : PermissionRecord) : PermissionRecord :=
  mkPermission (p_kind r) (p_id r) (p_session r) (p_agent_name r) (p_approval r) (p_package r)
    (p_reason r) (p_state r) (p_approved r) (Some v) (p_message r).
(** The current preview of a pending prompt whose raid still exists. *)
Definition current_preview (c : Controller) (r : PermissionRecord) : option Value :=
  if is_pending r then
    p ← p_preview r; id ← Json.as_str (value_index p "raid"); raid ← find_raid c id;
    Some (raid_prompt_preview c raid)
  else None.
Definition refreshed (c : Controller) (r : PermissionRecord) : PermissionRecord :=
  match current_preview c r with Some v => with_preview v r | None => r end.
Definition stale_preview (c : Controller) (r : PermissionRecord) : bool :=
  match current_preview c r with
  | Some v => negb (bool_decide (p_preview r = Some v))
  | None => false
  end.
Definition refresh_raid_prompts : C unit :=
  c ← get;
  let c' := set_permissions (refreshed c <$> permissions c) c in
  put (if existsb (stale_preview c) (permissions c) then set_dirty c' else c').

(** ** Session records *)
Definition membership_of (r : Raid) (m : Member) : RaidMembership :=
  mkMembership (rid r) (rname r) (role m) (owner r) (bool_decide (is_Some (paused r))).
(** What the record of a session should say; [r.members[id]] panics when the
    indexes disagree. *)
Definition membership (s : Raids) (id : string) : res Fault (option RaidMembership) :=
  match raid_of s id with
  | None => Ok None
  | Some r => match members r !! id with
              | Some m => Ok (Some (membership_of r m))
              | None => Panic
              end
  end.
Definition sync_one (id : string) : C unit :=
  c ← get;
  m ← lift (membership (c_raids c) id);
  a ← expect (c_sessions c !! id);
  if bool_decide (a_raid a = m) then mret tt else
  put (set_dirty (set_sessions (<[id := with_raid m a]> (c_sessions c)) c)).
Definition sync_raid_records : C unit :=
  c ← get; for_each sync_one (keys (c_sessions c)).

(** ** Committing *)
Definition raid_queue (events : list Event) : C unit :=
  match events with
  | [] => mret tt
  | _ =>
      _ ← modify (λ c, set_outbox (raid_outbox c) (raid_events c + lenN events) c);
      _ ← raid_prompts events;
      _ ← modify (λ c, set_outbox (raid_outbox c ++ events) (raid_events c) c);
      sync_raid_records
  end.

Definition over_capacity (c : Controller) (events : list Event) : bool :=
  (RAID_EVENTS <? raid_events c + lenN events)%N ||
  (RAID_OUTBOX <? lenN (raid_outbox c) + lenN events)%N.
Definition event_capacity : Fault := (-32010, "raid event capacity reached")%Z.

Definition raid_commit (next : Raids) (events : list Event) : C unit :=
  c ← get;
  _ ← refuse (existsb addition events && over_capacity c events) event_capacity;
  _ ← put (set_raids next c);
  raid_queue events.

(** [self.raids.remove(..)], which cannot fail, then the queue. *)
Definition remove_member (id : string) (reason : Reason) : C (list Event) :=
  events ← in_place (remove id reason);
  _ ← raid_queue events;
  mret events.

Definition same_raid (name : string) (id : option string) (gen : option N) : C unit :=
  c ← get;
  raid ← ok_or (raids (c_raids c) !! name) (raid_fault c (Absent name));
  refuse (match id with Some i => negb (string_eqb i (rid raid)) | None => false end ||
          match gen with Some g => negb (g =? generation raid)%N | None => false end)
    (-32009, "the raid changed; reload the prompt")%Z.

(** ** Reconciliation *)
Definition gone_reason (c : Controller) (id : string) : option Reason :=
  match c_sessions c !! id with
  | Some a =>
      if a_live a && active_state (a_state a) then None
      else if string_eqb (a_state a) "failed" && negb (identity a) then Some LaunchFailed
      else Some Stopped
  | None => Some Stopped
  end.
Definition reconcile_raids : C unit :=
  c ← get;
  let gone := omap (λ id, reason ← gone_reason c id; Some (id, reason)) (all_members (c_raids c)) in
  for_each (λ ir, _ ← remove_member ir.1 ir.2; mret tt) gone.

(** ** Records *)
Definition member_value (c : Controller) (r : Raid) (id : string) (m : Member) : option Value :=
  a ← c_sessions c !! id;
  Some (json_object [("id", String_ id); ("agent_name", String_ (a_agent_name a));
    ("name", String_ (a_name a)); ("role", json_opt_str (role m)); ("state", String_ (a_state a));
    ("owner", Bool (opt_string_eqb (owner r) (Some id)));
    ("created_by", json_opt_str (created_by m))]).
Definition raid_record (c : Controller) (r : Raid) : Value :=
  json_object [("id", String_ (rid r)); ("name", String_ (rname r));
    ("owner", json_opt_str (owner r)); ("former_owner", json_opt_str (former_owner <$> paused r));
    ("paused", Bool (bool_decide (is_Some (paused r)))); ("generation", json_u64 (generation r));
    ("members", Array (omap (λ km, member_value c r km.1 km.2) (by_joined (members r))))].
Definition raid_records (c : Controller) : list Value := raid_record c <$> iter (c_raids c).
Definition raid_value (name : string) : C Value :=
  c ← get;
  raid ← ok_or (raids (c_raids c) !! name) (raid_fault c (Absent name));
  mret (raid_record c raid).

(** ** Targets *)
Definition live (session : string) : C unit :=
  c ← get;
  a ← expect (c_sessions c !! session);
  refuse (negb (a_live a && active_state (a_state a)))
    (-32009, "goblin '" +:+ a_agent_name a +:+ "' is not running")%Z.
Definition bounded_list (l : list string) : C unit :=
  refuse ((lenN l =? 0)%N || (INVITE_LIMIT <? lenN l)%N) list_fault.

(** ** Launches *)
Inductive Join := JoinHost (name : string) | JoinRun (owner : string).

Definition launch_raid (raid owner_ : option string) : C (option Join) :=
  c ← get;
  joined ← match owner_, raid with
    | Some o, _ => ne ← on_copy (run o LAUNCHING); mret (Some (JoinRun o, ne.2))
    | None, Some name => ne ← on_copy (join "" name LAUNCHING "host"); mret (Some (JoinHost name, ne.2))
    | None, None => mret None
    end;
  match joined with
  | None => mret None
  | Some (j, events) =>
      _ ← refuse (over_capacity c events) event_capacity;
      mret (Some j)
  end.
Definition apply_launch_raid (session : string) (j : Join) : C unit :=
  ne ← match j with
    | JoinHost name => id ← raid_id name; on_copy (join id name session "host")
    | JoinRun o => on_copy (run o session)
    end;
  raid_commit ne.1 ne.2.

(** Whether removing a member dissolved or paused its raid. *)
Definition outcome (events : list Event) : bool * bool :=
  (existsb (λ e, match change e with Dissolved _ _ _ => true | _ => false end) events,
   existsb (λ e, match change e with Paused _ _ _ _ => true | _ => false end) events).
Definition outcome_value (events : list Event) : Value :=
  json_object [("accepted", Bool true); ("dissolved", Bool (outcome events).1);
    ("paused", Bool (outcome events).2)].

(** ** Methods *)

Definition decode_invite (v : Value) : option (string * list string) :=
  f ← struct_fields ["raid"; "sessions"] v;
  r ← field_str f "raid"; l ← field_strs f "sessions"; Some (r, l).
Definition decode_name (v : Value) : option string :=
  f ← struct_fields ["raid"] v; field_str f "raid".
Record SetOwner := mkSetOwner {
  so_raid : string; so_session : string; so_id : option string; so_generation : option N }.
Definition decode_set_owner (v : Value) : option SetOwner :=
  f ← default_fields 2 ["raid"; "session"; "id"; "generation"] v;
  r ← field_str f "raid"; s ← field_str f "session";
  i ← field_opt_str f "id"; g ← field_opt_u64 f "generation"; Some (mkSetOwner r s i g).
Record Destroy := mkDestroy {
  de_raid : string; de_id : option string; de_generation : option N; stop_members : bool }.
Definition decode_destroy (v : Value) : option Destroy :=
  f ← default_fields 1 ["raid"; "id"; "generation"; "stop_members"] v;
  r ← field_str f "raid"; i ← field_opt_str f "id"; g ← field_opt_u64 f "generation";
  b ← field_bool_or false f "stop_members"; Some (mkDestroy r i g b).
Definition decode_kick (v : Value) : option (string * string) :=
  f ← struct_fields ["raid"; "session"] v;
  r ← field_str f "raid"; s ← field_str f "session"; Some (r, s).
Definition decode_host_role (v : Value) : option (string * string * string) :=
  f ← struct_fields ["raid"; "session"; "role"] v;
  r ← field_str f "raid"; s ← field_str f "session"; o ← field_str f "role"; Some (r, s, o).
Definition decode_role (v : Value) : option string :=
  f ← struct_fields ["role"] v; field_str f "role".
Definition decode_none (v : Value) : option unit := _ ← struct_fields [] v; Some tt.

Definition unavailable (endpoint : string) : Fault :=
  (-32601, "method unavailable on " +:+ endpoint +:+ " endpoint")%Z.
Definition not_in (c : Controller) (id raid : string) : Fault :=
  (-32009, "goblin '" +:+ path_of c id +:+ "' is not in raid '" +:+ raid +:+ "'")%Z.
(** [self.raids.of(&id).is_none_or(|r| r.name != p.raid)] refused. *)
Definition in_raid (id raid : string) : C unit :=
  c ← get;
  refuse (match raid_of (c_raids c) id with
          | Some r => negb (string_eqb (rname r) raid) | None => true end) (not_in c id raid).

Section methods.
(** The library's message for parameters of a kind it cannot decode. *)
Context (serde_error : string → Value → string).

Definition params {A} (kind : string) (v : Value) (o : option A) : C A :=
  ok_or o (-32602, serde_error kind v)%Z.

(** Resolve and check every target before changing anything. *)
Fixpoint resolve_targets (targets : list string) : C (list string) :=
  match targets with
  | [] => mret []
  | target :: targets =>
      id ← resolve_session target;
      _ ← live id;
      ids ← resolve_targets targets;
      mret (id :: ids)
  end.

(** Stop the members that still run; those that were stopped. *)
Fixpoint stop_each (reason : string) (members : list string) : C (list string) :=
  match members with
  | [] => mret []
  | id :: members =>
      c ← get;
      a ← expect (c_sessions c !! id);
      if a_live a && active_state (a_state a) then
        _ ← stop id (Some reason);
        stopped ← stop_each reason members;
        mret (id :: stopped)
      else stop_each reason members
  end.

Definition host_invite (v : Value) : C Value :=
  '(raid, targets) ← params "Invite" v (decode_invite v);
  c ← get;
  _ ← refuse (negb (valid_name raid)) (raid_fault c InvalidName);
  _ ← bounded_list targets;
  ids ← resolve_targets targets;
  id ← raid_id raid;
  ne ← on_copy (invite id raid ids "host");
  _ ← raid_commit ne.1 ne.2;
  raid_value raid.

Definition host_destroy (v : Value) : C Value :=
  p ← params "Destroy" v (decode_destroy v);
  _ ← same_raid (de_raid p) (de_id p) (de_generation p);
  c ← get;
  let ids := match raids (c_raids c) !! de_raid p with Some r => keys (members r) | None => [] end in
  events ← in_place (destroy (de_raid p) "host");
  _ ← raid_queue events;
  stopped ← (if stop_members p
    then stop_each ("stopped because raid " +:+ de_raid p +:+ " was closed by the host") ids
    else mret []);
  mret (json_object [("accepted", Bool true); ("stopped", json_strs stopped)]).

Definition host_set_owner (v : Value) : C Value :=
  p ← params "SetOwner" v (decode_set_owner v);
  _ ← same_raid (so_raid p) (so_id p) (so_generation p);
  id ← resolve_session (so_session p);
  _ ← in_raid id (so_raid p);
  _ ← live id;
  ne ← on_copy (set_owner (so_raid p) id "host");
  _ ← raid_commit ne.1 ne.2;
  raid_value (so_raid p).

Definition host_kick (v : Value) : C Value :=
  '(raid, session) ← params "Kick" v (decode_kick v);
  _ ← raid_value raid;
  id ← resolve_session session;
  _ ← in_raid id raid;
  ne ← on_copy (kick id "host");
  _ ← raid_commit ne.1 ne.2;
  mret (outcome_value ne.2).

Definition host_set_role (v : Value) : C Value :=
  '(raid, session, role) ← params "HostRole" v (decode_host_role v);
  _ ← raid_value raid;
  id ← resolve_session session;
  _ ← in_raid id raid;
  ne ← on_copy (set_role id role "host");
  _ ← raid_commit ne.1 ne.2;
  raid_value raid.

Definition host_raids (method : string) (v : Value) : C Value :=
  if string_eqb method "raids.invite" then host_invite v
  else if string_eqb method "raids.destroy" then host_destroy v
  else if string_eqb method "raids.set_owner" then host_set_owner v
  else if string_eqb method "raids.members" then
    raid ← params "Name" v (decode_name v); raid_value raid
  else if string_eqb method "raids.kick" then host_kick v
  else if string_eqb method "raids.set_role" then host_set_role v
  else throw (unavailable "host").

Definition own_raid (scope : string) : C string :=
  c ← get;
  r ← ok_or (raid_of (c_raids c) scope) (raid_fault c (NotMember scope));
  mret (rname r).

Definition sandbox_create (scope : string) (v : Value) : C Value :=
  raid ← params "Name" v (decode_name v);
  id ← raid_id raid;
  ne ← on_copy (create id raid scope scope);
  _ ← raid_commit ne.1 ne.2;
  raid_value raid.

Definition stays : Fault :=
  (-32009, "goblins created in a raid stay until stopped, kicked by the host or the raid dissolves")%Z.
Definition sandbox_leave (scope : string) (v : Value) : C Value :=
  _ ← params "Empty" v (decode_none v);
  name ← own_raid scope;
  c ← get;
  raid ← expect (raids (c_raids c) !! name);
  created ← (if opt_string_eqb (owner raid) (Some scope) then mret false else
    m ← expect (members raid !! scope); mret (bool_decide (is_Some (created_by m))));
  _ ← refuse created stays;
  events ← in_place (remove scope Left);
  _ ← raid_queue events;
  mret (outcome_value events).

Definition sandbox_set_role (scope : string) (v : Value) : C Value :=
  role ← params "Role" v (decode_role v);
  name ← own_raid scope;
  ne ← on_copy (set_role scope role scope);
  _ ← raid_commit ne.1 ne.2;
  raid_value name.

Definition sandbox_raids (scope method : string) (v : Value) : C Value :=
  if string_eqb method "raids.create" then sandbox_create scope v
  else if string_eqb method "raids.leave" then sandbox_leave scope v
  else if string_eqb method "raids.members" then
    _ ← params "Empty" v (decode_none v); name ← own_raid scope; raid_value name
  else if string_eqb method "raids.set_role" then sandbox_set_role scope v
  else throw (unavailable "sandbox").
End methods.
