(* ===== verification/ControllerMessaging.v ===== *)
(** * Work for the messaging worker

    How [packages/daemon/src/controller.rs] hands raid and operation events to
    the worker: the directory, the messaging branch of [dispatch], and the
    batch a tick sends. A batch is drained into one unit of work and put back
    when the channel refuses it. *)
From S2P Require Import Prelude Json Operations RaidLog Mailbox Worker Raid Controller.
From S2P Require Import ControllerRaids.

(** [mpsc::sync_channel(64)] in [Service::new]. *)
Definition WORK_QUEUE : N := 64.

(** [SyncSender::try_send]: whether the channel took the work. *)
Definition try_send (work : Work) : C bool :=
  c ← get;
  match queue c with
  | Some q =>
      if (lenN q <? WORK_QUEUE)%N
      then _ ← put (set_queue (Some (q ++ [work])) c); mret true
      else mret false
  | None => mret false
  end.

Definition session_of (id : string) (a : Active) : Session :=
  mkSession id (a_agent_name a) (a_stop_reason a) (active_state (a_state a)).
Definition message_directory (c : Controller) : Directory :=
  map_imap (λ id a, Some (session_of id a)) (c_sessions c).

(** [self.raid_outbox.drain(..)] and [self.operation_outbox.drain(..)]. *)
Definition drain : C (list Raid.Event * list Operations.Event) :=
  c ← get;
  _ ← put (set_operation_outbox [] (set_outbox [] (raid_events c) c));
  mret (raid_outbox c, operation_outbox c).
(** The work a channel refused, back in the outboxes. *)
Definition unsent (work : Work) : C unit :=
  modify (λ c, set_operation_outbox (work_operations work)
                 (set_outbox (work_raids work) (raid_events c) c)).

Inductive Role := Host | Sandbox (id : string).
Definition role_actor (r : Role) : string :=
  match r with Host => "host" | Sandbox id => id end.
Definition is_host_role (r : Role) : bool := match r with Host => true | _ => false end.

Definition controller_conflict : Fault := (-32009, "stale or conflicting operation")%Z.
Definition controller_capacity : Fault := (-32010, "resource limit reached")%Z.

(** A messaging call of an initialized connection, after the reconciliation
    that precedes every authorization; its answer comes from the worker. *)
Definition messaging_call (r : Role) (connection : N) (id : Value) (method : string)
    (params : Value) : C unit :=
  _ ← reconcile_raids;
  c ← get;
  _ ← refuse (shutdown c) controller_conflict;
  _ ← refuse (string_eqb method "communications.list" && negb (is_host_role r))
        (-32601, "method unavailable on sandbox endpoint")%Z;
  let directory := message_directory c in
  '(raids, operations) ← drain;
  let work := WorkCall connection id (role_actor r) method params directory raids operations in
  sent ← try_send work;
  if (sent : bool) then mret tt else
  _ ← unsent work;
  throw controller_capacity.

(** The part of a tick that sends what the outboxes hold. *)
Definition sync_messaging : C unit :=
  _ ← reconcile_raids;
  c ← get;
  let directory := message_directory c in
  if negb (bool_decide (directory = messaging_directory c)) ||
     negb (lenN (raid_outbox c) =? 0)%N || negb (lenN (operation_outbox c) =? 0)%N
  then
    '(raids, operations) ← drain;
    let work := WorkSync directory raids operations in
    sent ← try_send work;
    if (sent : bool) then modify (set_messaging_directory directory) else unsent work
  else mret tt.
