(* ===== verification/ControllerHistory.v ===== *)
(** * The controller's raids and the events it queued

    Every operation of the controller extends the history of its raids: the
    events it appends to the outbox are those of the mutations it made, in
    order, and every new raid's ID was never issued before. *)
From S2P Require Import Prelude Json Grammar Messages Operations Mailbox Worker.
From S2P Require Import Raid RaidFacts RaidLog RaidSpec Membership.
From S2P Require Import Controller ControllerRaids ControllerMessaging.

(** ** Computations along a preorder of states

    [along_at R m s]: unless [m] panics from [s], the state it leaves, also on
    an error, is reached along [R]. *)
Section along.
Context {S E : Type} (R : relation S) `{!PreOrder R}.
#[local] Set Default Proof Using "Type*".

Definition along_at {A} (m : M S E A) (s : S) : Prop :=
  match m s with (Panic, _) => True | (_, s') => R s s' end.
Definition along {A} (m : M S E A) : Prop := ∀ s, along_at m s.

Lemma along_ret {A} (a : A) : along (mret a).
Proof. intros s. unfold along_at. simpl. done. Qed.
Lemma along_throw {A} e : along (throw e : M S E A).
Proof. intros s. unfold along_at. simpl. done. Qed.
Lemma along_refuse b e : along (refuse b e).
Proof. destruct b; [apply along_throw|apply along_ret]. Qed.
Lemma along_expect {A} (o : option A) : along (expect o).
Proof. destruct o; [apply along_ret|by intros s]. Qed.
Lemma along_ok_or {A} (o : option A) e : along (ok_or o e).
Proof. destruct o; [apply along_ret|apply along_throw]. Qed.
Lemma along_lift {A} (r : res E A) : along (lift r).
Proof. intros s. unfold along_at, lift. destruct r; done. Qed.
Lemma along_at_bind {A B} (m : M S E A) (f : A → M S E B) s :
  along_at m s → (∀ a s', m s = (Ok a, s') → along_at (f a) s') → along_at (m ≫= f) s.
Proof.
  unfold along_at, mbind, M_bind. intros Hm Hf. destruct (m s) as [[a|e|] s']; [|done..].
  specialize (Hf a s' eq_refl). destruct (f a s') as [[b|e|] s'']; [by etrans|by etrans|done].
Qed.
Lemma along_bind {A B} (m : M S E A) (f : A → M S E B) :
  along m → (∀ a, along (f a)) → along (m ≫= f).
Proof. intros Hm Hf s. apply along_at_bind; [apply Hm|]. intros. apply Hf. Qed.
Lemma along_get {A} (f : S → M S E A) : (∀ s, along_at (f s) s) → along (get ≫= f).
Proof. intros Hf s. apply Hf. Qed.
Lemma along_at_get {A} (f : S → M S E A) s : along_at (f s) s → along_at (get ≫= f) s.
Proof. done. Qed.
Lemma along_at_put s s' : R s s' → along_at (put s' : M S E unit) s.
Proof. done. Qed.
Lemma along_modify (f : S → S) : (∀ s, R s (f s)) → along (modify f : M S E unit).
Proof. intros Hf s. apply Hf. Qed.
Lemma along_for_each {A} (f : A → M S E unit) l : (∀ a, along (f a)) → along (for_each f l).
Proof.
  intros Hf. induction l as [|a l IH]; [apply along_ret|]. by apply along_bind.
Qed.
Lemma along_at_refuse {A} b e (f : unit → M S E A) s :
  (b = false → along_at (f tt) s) → along_at (refuse b e ≫= f) s.
Proof.
  intros Hf. apply along_at_bind; [apply along_refuse|]. intros [] s'.
  destruct b; [done|]. intros [= <-]. by apply Hf.
Qed.
Lemma along_at_ok_or {A B} (o : option A) e (f : A → M S E B) s :
  (∀ a, o = Some a → along_at (f a) s) → along_at (ok_or o e ≫= f) s.
Proof.
  intros Hf. apply along_at_bind; [apply along_ok_or|]. intros a s'.
  destruct o; [|done]. intros [= <- <-]. by apply Hf.
Qed.
Lemma along_at_expect {A B} (o : option A) (f : A → M S E B) s :
  (∀ a, o = Some a → along_at (f a) s) → along_at (expect o ≫= f) s.
Proof.
  intros Hf. apply along_at_bind; [apply along_expect|]. intros a s'.
  destruct o; [|done]. intros [= <- <-]. by apply Hf.
Qed.
Lemma along_at_lift {A B} (r : res E A) (f : A → M S E B) s :
  (∀ a, r = Ok a → along_at (f a) s) → along_at (lift r ≫= f) s.
Proof.
  intros Hf. apply along_at_bind; [apply along_lift|]. intros a s' [= -> <-]. by apply Hf.
Qed.
End along.
(** Apply one of the rules; the preorder is found by resolution. *)
Ltac walk rule := apply rule; try tc_solve.
Create HintDb along.
#[export] Hint Resolve along_ret along_throw along_refuse along_expect along_ok_or along_lift
  along_bind along_for_each : along.
#[export] Hint Extern 1 (PreOrder _) => tc_solve : along.

Lemma along_weaken {S E} (R R' : relation S) {A} (m : M S E A) :
  (∀ s s', R s s' → R' s s') → along R m → along R' m.
Proof.
  intros HR Hm s. specialize (Hm s). unfold along_at in *.
  destruct (m s) as [[a|e|] s']; [by apply HR|by apply HR|done].
Qed.

(** ** The IDs in a set of raids *)
Definition ids_in (Q : string → Prop) (m : gmap string Raid) : Prop :=
  map_Forall (λ _ r, Q (rid r)) m.
Definition op_new (Q : string → Prop) (op : Op) (s : Raids) : Prop :=
  match op with
  | OpCreate id name _ _ | OpInvite id name _ _ | OpJoin id name _ _ =>
      raids s !! name = None → Q id
  | _ => True
  end.

Section ids.
Context {Q : string → Prop}.
Lemma ids_in_update m name r : ids_in Q m → Q (rid r) → ids_in Q (<[name := r]> m).
Proof. intros Hm Hr. by apply map_Forall_insert_2. Qed.
Lemma ids_in_delete m name : ids_in Q m → ids_in Q (delete name m).
Proof. apply map_Forall_delete. Qed.

Lemma invite_each_ids name a ks evs s :
  ids_in Q (raids s) → ids_in Q (raids (invite_each name a ks evs s).2).
Proof.
  revert s evs. induction ks as [|k ks IH]; intros s evs Hs; [done|]. simpl. munfold.
  destruct (member_of s !! k); [by apply IH|].
  destruct (raids s !! name) as [r|] eqn:Hr; [|done]. apply IH.
  apply ids_in_update; [done|]. by apply (Hs name r).
Qed.
Lemma create_ids id name k a s :
  ids_in Q (raids s) → (raids s !! name = None → Q id) → ids_in Q (raids (create id name k a s).2).
Proof.
  intros Hs Hid. unfold create. munfold. destruct (negb (valid_name name)); [done|].
  destruct (raids s !! name) eqn:Hr; simpl; [done|]. destruct (member_of s !! k); [done|].
  apply ids_in_update; [done|by apply Hid].
Qed.
Lemma invite_ids id name ks a s :
  ids_in Q (raids s) → (raids s !! name = None → Q id) → ids_in Q (raids (invite id name ks a s).2).
Proof.
  intros Hs Hid. unfold invite. munfold. destruct (negb (valid_name name)); [done|]. simpl.
  destruct (_ || _); [done|]. simpl. destruct (other_raid _ _ _); [done|].
  destruct (raids s !! name) as [r|] eqn:Hr; [by apply invite_each_ids|].
  destruct (head ks) as [k|]; [|done]. simpl.
  pose proof (create_ids id name k a s Hs (λ _, Hid eq_refl)) as Hc.
  destruct (create id name k a s) as [[es|e|] s1]; [by apply invite_each_ids|done..].
Qed.
Lemma leave_ids k a reason s : ids_in Q (raids s) → ids_in Q (raids (leave k a reason s).2).
Proof.
  intros Hs. unfold leave, dissolve. munfold. destruct (member_of s !! k) as [name|]; [|done]. simpl.
  destruct (raids s !! name) as [r|] eqn:Hr; [|done]. simpl. pose proof (Hs name r Hr).
  repeat case_match; simplify_eq/=; by repeat (apply ids_in_delete || apply ids_in_update).
Qed.
Lemma exec_ids op s : ids_in Q (raids s) → op_new Q op s → ids_in Q (raids (exec op s).2).
Proof.
  intros Hs Hn. destruct op; simpl in *.
  - by apply create_ids.
  - by apply invite_ids.
  - by apply invite_ids.
  - unfold run. munfold. destruct (member_of s !! owner) as [name|]; [|done].
    destruct (member_of s !! session); [done|]. simpl.
    destruct (raids s !! name) as [r|] eqn:Hr; [|done]. simpl.
    destruct (negb _); simpl; [done|]. apply ids_in_update; [done|]. by apply (Hs name r).
  - by apply leave_ids.
  - unfold kick. munfold. destruct (negb _); simpl; [done|]. by apply leave_ids.
  - unfold set_owner. munfold. destruct (raids s !! name) as [r|] eqn:Hr; [|done]. simpl.
    destruct (negb _); simpl; [done|]. destruct (opt_string_eqb _ _); simpl; [done|].
    apply ids_in_update; [done|]. by apply (Hs name r).
  - unfold destroy, dissolve. munfold. destruct (negb _); simpl; [done|].
    destruct (raids s !! name) as [r|] eqn:Hr; [|done]. by apply ids_in_delete.
  - unfold set_role. munfold. destruct (negb _); simpl; [done|].
    destruct (member_of s !! session) as [name|]; [|done]. simpl.
    destruct (raids s !! name) as [r|] eqn:Hr; [|done]. simpl.
    destruct (members r !! session); [|done]. simpl.
    destruct (opt_string_eqb _ _); simpl; [done|].
    apply ids_in_update; [done|]. by apply (Hs name r).
Qed.
End ids.

(** ** The history behind a controller *)

(** An ID the controller issued for a raid. *)
Definition issued (c : Controller) (i : string) : Prop :=
  ∃ n, (n <= c_next c)%N ∧ i = identity_of c "raid" n.
(** [evs] left the outbox before; with what waits in it they are the history
    of the raids. *)
Record at_history (evs : list Event) (c : Controller) : Prop := {
  ah_history : history (evs ++ raid_outbox c) (c_raids c);
  ah_issued : ids_in (issued c) (raids (c_raids c)) }.

(** Nothing that matters to raids changed. *)
Record quiet (c c' : Controller) : Prop := {
  qu_raids : c_raids c' = c_raids c;
  qu_outbox : raid_outbox c' = raid_outbox c;
  qu_queue : queue c' = queue c;
  qu_instance : c_instance c' = c_instance c;
  qu_next : (c_next c <= c_next c')%N }.
#[export] Instance quiet_preorder : PreOrder quiet.
Proof.
  split; [by intros c|]. intros c1 c2 c3 [] []. split; [congruence..|lia].
Qed.
(** Whatever changed is in the outbox. *)
Record extends (c c' : Controller) : Prop := {
  ex_queue : queue c' = queue c;
  ex_instance : c_instance c' = c_instance c;
  ex_history : ∀ evs, at_history evs c → at_history evs c' }.
#[export] Instance extends_preorder : PreOrder extends.
Proof.
  split; [by intros c|]. intros c1 c2 c3 [? ? H1] [? ? H2]. split; [congruence..|auto].
Qed.

Lemma issued_mono c c' i :
  c_instance c' = c_instance c → (c_next c <= c_next c')%N → issued c i → issued c' i.
Proof.
  intros Hi Hn (n & Hle & ->). exists n. unfold identity_of. rewrite Hi. split; [lia|done].
Qed.
Lemma ids_issued_mono c c' m :
  c_instance c' = c_instance c → (c_next c <= c_next c')%N →
  ids_in (issued c) m → ids_in (issued c') m.
Proof. intros Hi Hn Hm name r Hr. eapply issued_mono; [done..|]. by apply (Hm name r). Qed.
Lemma quiet_extends c c' : quiet c c' → extends c c'.
Proof.
  intros [Hr Ho Hq Hi Hn]. split; [done..|]. intros evs [H1 H2].
  split; rewrite Hr, ?Ho; [done|]. by apply (ids_issued_mono c).
Qed.
Lemma quiet_steps {A} (m : C A) : along quiet m → along extends m.
Proof. apply along_weaken, quiet_extends. Qed.
#[export] Hint Resolve quiet_steps : along.

(** Setters outside the raids. *)
Lemma number_quiet : along quiet number.
Proof.
  unfold number. walk @along_get. intros c. walk @along_at_expect. intros n Hn.
  apply u64_checked_add_Some in Hn as [-> _].
  walk @along_at_bind; [split; simpl; [done..|lia]|]. intros [] c' _. walk @along_ret.
Qed.
Lemma fresh_id_quiet kind : along quiet (fresh_id kind).
Proof.
  unfold fresh_id. walk @along_bind; [apply number_quiet|]. intros n.
  walk @along_get. intros c. walk @along_ret.
Qed.
Lemma update_quiet (f : Controller → Controller) :
  (∀ c, quiet c (f c)) → along quiet (c ← get; put (f c) : C unit).
Proof. intros Hf. walk @along_get. intros c. by walk @along_at_put. Qed.
Lemma finish_raid_prompt_quiet raid state message : along quiet (finish_raid_prompt raid state message).
Proof. walk @along_get. intros c. walk @along_at_put. by case_match. Qed.
Lemma raid_prompt_quiet id reason : along quiet (raid_prompt id reason).
Proof.
  unfold raid_prompt. walk @along_get. intros c.
  destruct (find_raid c id) as [r|]; [|walk @along_ret].
  destruct (paused r) as [p|]; [|walk @along_ret].
  walk @along_bind; [apply number_quiet|]. intros n. by apply update_quiet.
Qed.
Lemma raid_prompts_quiet es : along quiet (raid_prompts es).
Proof.
  walk @along_for_each. intros e. unfold raid_prompt_for.
  destruct (change e) as [| | | |raid k reason l|raid o p l|raid l []];
    try (walk @along_ret); try apply finish_raid_prompt_quiet.
  - walk @along_bind; [apply finish_raid_prompt_quiet|]. intros _. apply raid_prompt_quiet.
  - walk @along_get. intros c. apply finish_raid_prompt_quiet.
Qed.
Lemma sync_raid_records_quiet : along quiet sync_raid_records.
Proof.
  unfold sync_raid_records. walk @along_get. intros c. walk @along_for_each. intros id.
  unfold sync_one. walk @along_get. intros c1. walk @along_at_lift. intros m _.
  walk @along_at_expect. intros a _. case_match; [walk @along_ret|].
  by walk @along_at_put.
Qed.
Lemma refresh_raid_prompts_quiet : along quiet refresh_raid_prompts.
Proof. walk @along_get. intros c. walk @along_at_put. by case_match. Qed.

(** Prompting has no error of its own. *)
Definition no_err {S E A} (m : M S E A) : Prop := ∀ s e s', m s ≠ (Err e, s').
Lemma no_err_bind {S E A B} (m : M S E A) (f : A → M S E B) :
  no_err m → (∀ a, no_err (f a)) → no_err (m ≫= f).
Proof.
  intros Hm Hf s e s'. unfold mbind, M_bind. pose proof (Hm s).
  destruct (m s) as [[a|e1|] s1]; [apply Hf| |done]. intros [= -> ->]. by eapply H.
Qed.
Lemma no_err_for_each {S E A} (f : A → M S E unit) l : (∀ a, no_err (f a)) → no_err (for_each f l).
Proof. intros Hf. induction l as [|a l IH]; [done|]. by apply no_err_bind. Qed.
Lemma no_err_get {S E A} (f : S → M S E A) : (∀ s, no_err (f s)) → no_err (get ≫= f).
Proof. intros Hf s. apply Hf. Qed.
Lemma raid_prompts_no_err es : no_err (raid_prompts es).
Proof.
  apply no_err_for_each. intros e.
  assert (∀ raid state message, no_err (finish_raid_prompt raid state message)) as Hf
    by (intros; by apply no_err_get).
  unfold raid_prompt_for. destruct (change e) as [| | | |raid k reason l|raid o p l|raid l []]; try done.
  apply no_err_bind; [apply Hf|]. intros _. apply no_err_get. intros c.
  destruct (find_raid c raid) as [r|]; [|done]. destruct (paused r); [|done].
  apply no_err_bind; [|intros n; by apply no_err_get].
  apply no_err_get. intros c1. apply no_err_bind; [by destruct (u64_checked_add _ _)|done].
Qed.

(** ** Committing *)

(** [along_from R m c0 c]: like [along_at], from an earlier state. *)
Definition along_from {A} (c0 : Controller) (m : C A) (c : Controller) : Prop :=
  match m c with (Panic, _) => True | (_, c') => extends c0 c' end.
Lemma along_from_bind {A B} c0 c (m : C A) (f : A → C B) :
  along_from c0 m c → (∀ a, along extends (f a)) → along_from c0 (m ≫= f) c.
Proof.
  unfold along_from, mbind, M_bind. intros Hm Hf. destruct (m c) as [[a|e|] c1]; [|done..].
  specialize (Hf a c1). unfold along_at in Hf.
  destruct (f a c1) as [[b|e|] c2]; [by etrans|by etrans|done].
Qed.

(** From [c0], the raids of [c] may become [next] with the events [es]. *)
Definition permits (c0 c : Controller) (next : Raids) (es : list Raid.Event) : Prop :=
  ∀ evs, at_history evs c0 →
    history (evs ++ raid_outbox c ++ es) next ∧ ids_in (issued c) (raids next).

Lemma permits_extends c0 c c' next es :
  permits c0 c next es → quiet c0 c → c_raids c' = next → raid_outbox c' = raid_outbox c ++ es →
  queue c' = queue c → c_instance c' = c_instance c → (c_next c <= c_next c')%N → extends c0 c'.
Proof.
  intros Hp [_ _ Hq0 Hi0 _] Hr Ho Hq Hi Hn. split; [congruence..|]. intros evs He.
  destruct (Hp evs He) as [H1 H2]. split; rewrite Hr, ?Ho; [done|]. by apply (ids_issued_mono c).
Qed.
Lemma raid_queue_extends c0 c next es :
  permits c0 c next es → quiet c0 c → along_from c0 (raid_queue es) (set_raids next c).
Proof.
  intros Hp Hq0. unfold along_from, raid_queue. destruct es as [|e es].
  { apply (permits_extends c0 c _ next []); simpl; rewrite ?app_nil_r; done. }
  munfold. set (c1 := set_outbox _ _ (set_raids next c)).
  pose proof (raid_prompts_quiet (e :: es) c1) as Hq1. unfold along_at in Hq1.
  destruct (raid_prompts (e :: es) c1) as [[[]|err|] c2] eqn:Hrun;
    [|by apply raid_prompts_no_err in Hrun|done].
  set (c3 := set_outbox _ _ c2).
  pose proof (sync_raid_records_quiet c3) as Hq2. unfold along_at in Hq2.
  assert (∀ c4, quiet c3 c4 → extends c0 c4) as Hdone.
  { intros c4 [H1 H2 H3 H4 H5]. destruct Hq1 as [G1 G2 G3 G4 G5].
    unfold c1, c3 in *. simpl in *.
    apply permits_extends with c next (e :: es); (congruence || lia || done). }
  destruct (sync_raid_records c3) as [[[]|err|] c4]; [by apply Hdone..|done].
Qed.
Lemma raid_commit_extends c0 c next es :
  permits c0 c next es → quiet c0 c → along_from c0 (raid_commit next es) c.
Proof.
  intros Hp Hq. pose proof (raid_queue_extends c0 c next es Hp Hq) as H.
  unfold along_from, raid_commit in *. munfold.
  destruct (existsb addition es && over_capacity c es); [by apply quiet_extends|exact H].
Qed.

(** A mutation is permitted when a new raid's ID was issued for it. *)
Definition issues (op : Op) (c0 c : Controller) : Prop :=
  ∀ evs, at_history evs c0 → op_fresh op (c_raids c) ∧ op_new (issued c) op (c_raids c).
Lemma exec_permits op c0 c es next :
  issues op c0 c → quiet c0 c → exec op (c_raids c) = (Ok es, next) → permits c0 c next es.
Proof.
  intros Hi Hq He evs Hh. destruct (Hi evs Hh) as [Hf Hn].
  apply (quiet_extends _ _ Hq) in Hh as [Hh Hids]. split.
  - rewrite (assoc (++)). by eapply history_ok.
  - pose proof (exec_ids op (c_raids c) Hids Hn) as H. by rewrite He in H.
Qed.

Lemma copy_extends {A} op c0 c (K : Raids * list Raid.Event → C A) :
  issues op c0 c → quiet c0 c → (∀ ne, along extends (K ne)) →
  along_from c0 (ne ← on_copy (exec op); _ ← raid_commit ne.1 ne.2; K ne) c.
Proof.
  intros Hi Hq HK. unfold along_from, mbind at 1, M_bind at 1. unfold on_copy.
  destruct (exec op (c_raids c)) as [[es|e|] next] eqn:He; [|by apply quiet_extends|done].
  apply along_from_bind; [by eapply raid_commit_extends, Hq; eapply exec_permits|].
  intros []. apply HK.
Qed.
(** In place, a refused mutation may have no effect. *)
Lemma place_extends {A} op c (K : list Raid.Event → C A) :
  issues op c c → (∀ es, along extends (K es)) →
  along_at extends (es ← in_place (exec op); _ ← raid_queue es; K es) c.
Proof.
  intros Hi HK. change (along_from c (es ← in_place (exec op); _ ← raid_queue es; K es) c).
  unfold along_from, mbind at 1, M_bind at 1, in_place.
  destruct (exec op (c_raids c)) as [[es|e|] next] eqn:He; [|..|done].
  - apply along_from_bind; [|intros []; apply HK].
    by eapply raid_queue_extends; [eapply exec_permits|].
  - split; [done..|]. intros evs Hh. destruct (Hi evs Hh) as [_ Hn]. destruct Hh as [Hh Hids].
    split; [by eapply history_err|].
    pose proof (exec_ids op (c_raids c) Hids Hn) as H. by rewrite He in H.
Qed.

(** ** New IDs *)
#[export] Instance identity_inj c kind : Inj (=) (=) (identity_of c kind).
Proof. intros n m H. unfold identity_of, show in H. by simplify_eq. Qed.
(** A mutation that founds no raid needs no ID. *)
Definition founds (op : Op) : option (string * string) :=
  match op with
  | OpCreate id name _ _ | OpInvite id name _ _ | OpJoin id name _ _ => Some (id, name)
  | _ => None
  end.
Lemma issues_none op c0 c : founds op = None → issues op c0 c.
Proof. by intros Hf evs _; destruct op. Qed.

Lemma raid_id_extends {A} name (op : string → Op) (K : Raids * list Raid.Event → C A) :
  (∀ id, founds (op id) = Some (id, name)) → (∀ ne, along extends (K ne)) →
  along extends (id ← raid_id name; ne ← on_copy (exec (op id)); _ ← raid_commit ne.1 ne.2; K ne).
Proof.
  intros Hop HK c. change (along_from c (id ← raid_id name; ne ← on_copy (exec (op id));
    _ ← raid_commit ne.1 ne.2; K ne) c).
  unfold along_from, mbind at 1, M_bind at 1.
  assert (along_at quiet (raid_id name) c) as Hq.
  { walk @along_get. intros c1. case_match; [walk @along_ret|]. apply fresh_id_quiet. }
  unfold along_at in Hq. destruct (raid_id name c) as [[id|e|] c1] eqn:Hid;
    [|by apply quiet_extends|done].
  apply copy_extends; [|done|done]. intros evs [_ Hids].
  assert (raids (c_raids c1) !! name = None →
    issued c1 id ∧ ∀ i, issued c i → i ≠ id) as Hfresh.
  { destruct Hq as [-> _ _ Hin _]. intros Hn. unfold raid_id in Hid. munfold. rewrite Hn in Hid.
    unfold fresh_id, number in Hid. munfold.
    destruct (u64_checked_add (c_next c) 1) as [n|] eqn:Hadd; [|done]. simplify_eq/=.
    apply u64_checked_add_Some in Hadd as [-> _]. split; [by exists (c_next c + 1)%N|].
    intros i (n & Hle & ->) Heq. change (identity_of c "raid" n = identity_of c "raid" (c_next c + 1)) in Heq.
    apply (inj _) in Heq. lia. }
  destruct Hq as [Hr _ _ _ _]. rewrite Hr in *.
  specialize (Hop id).
  destruct (op id); simplify_eq/=; split; intros Hn; try (by apply Hfresh);
    intros n r Hx; apply Hfresh; [done|by apply (Hids n r)|done|by apply (Hids n r)|done|by apply (Hids n r)].
Qed.

(** ** The handlers *)
Lemma mutation_extends {A} op c (K : Raids * list Raid.Event → C A) :
  founds op = None → (∀ ne, along extends (K ne)) →
  along_at extends (ne ← on_copy (exec op); _ ← raid_commit ne.1 ne.2; K ne) c.
Proof. intros Hf HK. by apply (copy_extends op c c); [apply issues_none| |]. Qed.

(** Reading the state only. *)
Lemma raid_value_quiet name : along quiet (raid_value name).
Proof. walk @along_get. intros c. walk @along_at_ok_or. intros r _. walk @along_ret. Qed.
Lemma resolve_session_quiet target : along quiet (resolve_session target).
Proof.
  walk @along_get. intros c. case_match; [walk @along_ret|].
  walk @along_at_ok_or. intros a _. walk @along_ret.
Qed.
Lemma live_quiet k : along quiet (live k).
Proof. walk @along_get. intros c. walk @along_at_expect. intros a _. walk @along_refuse. Qed.
Lemma same_raid_quiet name id g : along quiet (ControllerRaids.same_raid name id g).
Proof. walk @along_get. intros c. walk @along_at_ok_or. intros r _. walk @along_refuse. Qed.
Lemma in_raid_quiet id raid : along quiet (in_raid id raid).
Proof. walk @along_get. intros c. walk @along_refuse. Qed.
Lemma own_raid_quiet k : along quiet (own_raid k).
Proof. walk @along_get. intros c. walk @along_at_ok_or. intros r _. walk @along_ret. Qed.
Lemma params_quiet serde_error {A} kind v (o : option A) : along quiet (params serde_error kind v o).
Proof. walk @along_ok_or. Qed.
Lemma bounded_list_quiet l : along quiet (bounded_list l).
Proof. walk @along_refuse. Qed.
#[export] Hint Resolve raid_value_quiet resolve_session_quiet live_quiet same_raid_quiet in_raid_quiet
  own_raid_quiet params_quiet bounded_list_quiet : along.

Lemma resolve_targets_quiet l : along quiet (resolve_targets l).
Proof.
  induction l as [|k l IH]; [walk @along_ret|]. simpl.
  walk @along_bind; [auto with along|]. intros id. walk @along_bind; [auto with along|]. intros _.
  walk @along_bind; [done|]. intros ids. walk @along_ret.
Qed.
Lemma operation_quiet request a ch : along quiet (operation request a ch).
Proof. walk @along_get. intros c. case_match; [by walk @along_at_put|walk @along_ret]. Qed.
Lemma operation_finished_quiet request notify message :
  along quiet (operation_finished request notify message).
Proof. walk @along_get. intros c. case_match; [apply operation_quiet|walk @along_ret]. Qed.
Lemma stop_quiet id reason : along quiet (stop id reason).
Proof.
  walk @along_get. intros c. walk @along_at_ok_or. intros a _.
  walk @along_at_bind; [by walk @along_at_put|]. intros _ c' _. revert c'.
  walk @along_bind.
  { case_match; [|walk @along_ret]. walk @along_bind; [by walk @along_modify|].
    intros _. apply operation_finished_quiet. }
  intros _. walk @along_bind; [by walk @along_modify|]. intros _. walk @along_ret.
Qed.
Lemma stop_each_quiet reason l : along quiet (stop_each reason l).
Proof.
  induction l as [|k l IH]; [walk @along_ret|]. simpl. walk @along_get. intros c.
  walk @along_at_expect. intros a _. revert c.
  case_match; [|intros c; apply IH]. walk @along_bind; [apply stop_quiet|]. intros _.
  walk @along_bind; [done|]. intros ids. walk @along_ret.
Qed.
#[export] Hint Resolve resolve_targets_quiet stop_each_quiet : along.

Lemma remove_member_extends id reason : along extends (remove_member id reason).
Proof.
  intros c. apply (place_extends (OpRemove id reason)); [by apply issues_none|].
  intros es. walk @along_ret.
Qed.
Lemma reconcile_extends : along extends reconcile_raids.
Proof.
  walk @along_get. intros c. walk @along_for_each. intros ir.
  walk @along_bind; [apply remove_member_extends|]. intros _. walk @along_ret.
Qed.

Section methods.
Context (serde_error : string → Value → string).
#[local] Set Default Proof Using "Type".

(** A step that reads, then the rest. *)
Ltac reads := walk @along_bind; [solve [auto with along]|].

Lemma host_invite_extends v : along extends (host_invite serde_error v).
Proof.
  unfold host_invite. reads. intros [raid targets]. walk @along_get. intros c. revert c.
  intros c. walk @along_at_refuse. intros _. revert c. reads. intros _. reads. intros ids.
  apply (raid_id_extends raid (λ id, OpInvite id raid ids "host")); [done|].
  intros ne. auto with along.
Qed.
Lemma host_destroy_extends v : along extends (host_destroy serde_error v).
Proof.
  unfold host_destroy. reads. intros p. reads. intros _. walk @along_get. intros c.
  apply (place_extends (OpDestroy (de_raid p) "host")); [by apply issues_none|]. intros es.
  walk @along_bind; [case_match; auto with along|]. intros l. walk @along_ret.
Qed.
Lemma host_set_owner_extends v : along extends (host_set_owner serde_error v).
Proof.
  unfold host_set_owner. reads. intros p. reads. intros _. reads. intros id. reads. intros _.
  reads. intros _ c. apply (mutation_extends (OpSetOwner (so_raid p) id "host")); [done|].
  intros ne. auto with along.
Qed.
Lemma host_kick_extends v : along extends (host_kick serde_error v).
Proof.
  unfold host_kick. reads. intros [raid session]. reads. intros _. reads. intros id. reads.
  intros _ c. apply (mutation_extends (OpKick id "host")); [done|]. intros ne. walk @along_ret.
Qed.
Lemma host_set_role_extends v : along extends (host_set_role serde_error v).
Proof.
  unfold host_set_role. reads. intros [[raid session] ro]. reads. intros _. reads. intros id. reads.
  intros _ c. apply (mutation_extends (OpSetRole id ro "host")); [done|]. intros ne. auto with along.
Qed.
Lemma host_raids_extends method v : along extends (host_raids serde_error method v).
Proof.
  unfold host_raids. repeat case_match; auto using host_invite_extends, host_destroy_extends,
    host_set_owner_extends, host_kick_extends, host_set_role_extends with along.
Qed.

Lemma sandbox_raids_extends scope method v : along extends (sandbox_raids serde_error scope method v).
Proof.
  unfold sandbox_raids. repeat case_match.
  - unfold sandbox_create. reads. intros raid.
    apply (raid_id_extends raid (λ id, OpCreate id raid scope scope)); [done|].
    intros ne. auto with along.
  - unfold sandbox_leave. reads. intros _. reads. intros name. walk @along_get. intros c.
    walk @along_at_expect. intros r _. revert c. walk @along_bind.
    { case_match; [walk @along_ret|]. walk @along_bind; [walk @along_expect|].
      intros m. walk @along_ret. }
    intros created. walk @along_bind; [walk @along_refuse|]. intros _ c.
    apply (place_extends (OpRemove scope Left)); [by apply issues_none|]. intros es. walk @along_ret.
  - reads. intros _. reads. intros name. auto with along.
  - unfold sandbox_set_role. reads. intros ro. reads. intros name c.
    apply (mutation_extends (OpSetRole scope ro scope)); [done|]. intros ne. auto with along.
  - walk @along_throw.
Qed.
End methods.

Lemma along_same {A} R (m m' : C A) : (∀ c, m c = m' c) → along R m' → along R m.
Proof. intros Hm H c. unfold along_at. rewrite Hm. apply H. Qed.
Lemma apply_launch_raid_extends session j : along extends (apply_launch_raid session j).
Proof.
  destruct j as [name|o].
  - apply (along_same _ _ (id ← raid_id name; ne ← on_copy (join id name session "host");
      _ ← raid_commit ne.1 ne.2; mret tt)).
    + intros c. unfold apply_launch_raid, mbind, M_bind.
      destruct (raid_id name c) as [[id|e|] c1]; [|done..].
      destruct (on_copy (join id name session "host") c1) as [[ne|e|] c2]; [|done..].
      by destruct (raid_commit ne.1 ne.2 c2) as [[[]|e|] c3].
    + apply (raid_id_extends name (λ id, OpJoin id name session "host")); [done|].
      intros ne. walk @along_ret.
  - apply (along_same _ _ (ne ← on_copy (run o session); _ ← raid_commit ne.1 ne.2; mret tt)).
    + intros c. unfold apply_launch_raid, mbind, M_bind.
      destruct (on_copy (run o session) c) as [[ne|e|] c2]; [|done..].
      by destruct (raid_commit ne.1 ne.2 c2) as [[[]|e|] c3].
    + intros c. apply (mutation_extends (OpRun o session)); [done|]. intros ne. walk @along_ret.
Qed.
