(* ===== verification/ControllerSpec.v ===== *)
(** * From the controller's raids to the worker's authorization

    The controller and the messaging worker as one system, connected by the
    bounded channel. Raid events reach the worker once and in order, and a
    messaging call is authorized by the membership at the time of the call. *)
From S2P Require Import Prelude Json Grammar Messages Operations Mailbox.
From S2P Require Import MailboxSteps MailboxFacts MailboxInv MailboxExec MailboxFollows MailboxSpec.
From S2P Require Import CommandSpec MailboxRaids OperationNotices Journal JournalSpec Worker WorkerSpec.
From S2P Require Import Raid RaidFacts RaidLog RaidSpec Membership.
From S2P Require Import Controller ControllerRaids ControllerMessaging ControllerHistory.

(** ** Handing a batch to the channel *)

(** The works the channel took. *)
Definition newly (c c' : Controller) : list Work :=
  match queue c, queue c' with
  | Some q, Some q' => drop (length q) q'
  | _, _ => []
  end.
Definition events_of (works : list Work) : list Raid.Event := works ≫= work_raids.
Lemma events_of_app l1 l2 : events_of (l1 ++ l2) = events_of l1 ++ events_of l2.
Proof. apply bind_app. Qed.

(** At most one unit of work is handed over, with everything in the outbox. *)
Record hands (c c' : Controller) : Prop := {
  ha_queue : queue c' = (λ q, q ++ newly c c') <$> queue c;
  ha_one : newly c c' = [] ∨ ∃ w, newly c c' = [w] ∧ raid_outbox c' = [];
  ha_history : ∀ evs, at_history evs c → at_history (evs ++ events_of (newly c c')) c' }.

Lemma newly_same c c' : queue c' = queue c → newly c c' = [].
Proof. intros Hq. unfold newly. rewrite Hq. destruct (queue c); [apply drop_all|done]. Qed.
Lemma extends_hands c c' : extends c c' → hands c c'.
Proof.
  intros [Hq Hi Hh]. pose proof (newly_same c c' Hq) as Hn. split; rewrite Hn.
  - rewrite Hq. destruct (queue c); simpl; [by rewrite app_nil_r|done].
  - by left.
  - intros evs. rewrite app_nil_r. apply Hh.
Qed.
Lemma hands_from c c1 c' : extends c c1 → hands c1 c' → hands c c'.
Proof.
  intros [Hq Hi Hh] [Hq' Ho Hh'].
  assert (newly c c' = newly c1 c') as Hn by (unfold newly; by rewrite Hq).
  split; rewrite Hn; [by rewrite <-Hq|done|]. auto.
Qed.

(** Draining, sending, and putting back what was refused. *)
Definition hand_over (mk : list Raid.Event → list Operations.Event → Work) (accept refuse : C unit) :
    C unit :=
  '(raids, operations) ← drain;
  let work := mk raids operations in
  sent ← try_send work;
  if (sent : bool) then accept else _ ← unsent work; refuse.
Lemma hand_over_hands mk accept refuse c :
  (∀ r o, work_raids (mk r o) = r) → (∀ r o, work_operations (mk r o) = o) →
  along quiet accept → along quiet refuse →
  match hand_over mk accept refuse c with (Panic, _) => True | (_, c') => hands c c' end.
Proof.
  intros Hr Ho Ha Hb. unfold hand_over, drain, try_send, unsent. munfold.
  set (c1 := set_operation_outbox [] (set_outbox [] (raid_events c) c)).
  set (w := mk (raid_outbox c) (operation_outbox c)).
  assert (∀ c2, raid_outbox c2 = raid_outbox c → c_raids c2 = c_raids c → queue c2 = queue c →
    c_instance c2 = c_instance c → c_next c2 = c_next c → quiet c c2) as Hquiet.
  { intros c2 H1 H2 H3 H4 H5. split; try done. lia. }
  assert (∀ (m : C unit) c2, along quiet m → quiet c c2 →
    match m c2 with (Panic, _) => True | (_, c') => hands c c' end) as Hback.
  { intros m c2 Hm Hq. specialize (Hm c2). unfold along_at in Hm.
    destruct (m c2) as [[a|e|] c3]; [| |done]; apply extends_hands, quiet_extends; by etrans. }
  change (queue c1) with (queue c).
  destruct (queue c) as [q|] eqn:Hq; [destruct (N.ltb_spec (lenN q) WORK_QUEUE)|]; simpl.
  - set (c2 := set_queue (Some (q ++ [w])) c1).
    specialize (Ha c2). unfold along_at in Ha.
    assert (∀ c3, quiet c2 c3 → hands c c3) as Hdone.
    { intros c3 [H1 H2 H3 H4 H5].
      assert (newly c c3 = [w]) as Hn.
      { unfold newly. rewrite Hq, H3. simpl. apply drop_app_length. }
      split; rewrite Hn.
      - by rewrite H3, Hq.
      - right. exists w. by rewrite H2.
      - intros evs [Hh Hids]. split; rewrite H1.
        + rewrite H2. simpl. unfold events_of, w. simpl. rewrite Hr, !app_nil_r. done.
        + by apply (ids_issued_mono c2). }
    destruct (accept c2) as [[a|e|] c3]; [by apply Hdone..|done].
  - apply Hback; [done|]. apply Hquiet; unfold w; simpl; by rewrite ?Hr.
  - apply Hback; [done|]. apply Hquiet; unfold w; simpl; by rewrite ?Hr.
Qed.

Lemma messaging_call_steps r connection id method params c :
  messaging_call r connection id method params c =
  match reconcile_raids c with
  | (Ok _, c1) =>
      if shutdown c1 then (Err controller_conflict, c1)
      else if string_eqb method "communications.list" && negb (is_host_role r)
      then (Err (-32601, "method unavailable on sandbox endpoint")%Z, c1)
      else hand_over (WorkCall connection id (role_actor r) method params (message_directory c1))
             (mret tt) (throw controller_capacity) c1
  | (Err e, c1) => (Err e, c1)
  | (Panic, c1) => (Panic, c1)
  end.
Proof.
  unfold messaging_call, mbind at 1. unfold M_bind at 1.
  destruct (reconcile_raids c) as [[[]|e|] c1]; [|done..].
  unfold get, mbind at 1. unfold M_bind at 1. unfold mbind at 1. unfold M_bind at 1.
  destruct (shutdown c1); [done|]. unfold refuse at 1, mret at 1, M_ret at 1.
  unfold mbind at 1. unfold M_bind at 1. by destruct (_ && _).
Qed.
Lemma messaging_call_hands r connection id method params c :
  match messaging_call r connection id method params c with
  | (Panic, _) => True | (_, c') => hands c c' end.
Proof.
  rewrite messaging_call_steps. pose proof (reconcile_extends c) as Hr. unfold along_at in Hr.
  destruct (reconcile_raids c) as [[[]|e|] c1]; [|by apply extends_hands|done].
  destruct (shutdown c1); [by apply extends_hands|].
  destruct (_ && _); [by apply extends_hands|].
  pose proof (hand_over_hands (WorkCall connection id (role_actor r) method params (message_directory c1))
    (mret tt) (throw controller_capacity) c1 ltac:(done) ltac:(done)
    ltac:(walk @along_ret) ltac:(walk @along_throw)) as Hh.
  destruct (hand_over _ _ _ c1) as [[a|e|] c']; [by eapply hands_from..|done].
Qed.

Lemma sync_messaging_steps c :
  sync_messaging c =
  match reconcile_raids c with
  | (Ok _, c1) =>
      if negb (bool_decide (message_directory c1 = messaging_directory c1)) ||
         negb (lenN (raid_outbox c1) =? 0)%N || negb (lenN (operation_outbox c1) =? 0)%N
      then hand_over (WorkSync (message_directory c1))
             (modify (set_messaging_directory (message_directory c1))) (mret tt) c1
      else (Ok tt, c1)
  | (Err e, c1) => (Err e, c1)
  | (Panic, c1) => (Panic, c1)
  end.
Proof.
  unfold sync_messaging, mbind at 1. unfold M_bind at 1.
  destruct (reconcile_raids c) as [[[]|e|] c1]; [|done..].
  unfold get, mbind at 1. unfold M_bind at 1.
  destruct (_ || _ || _); [|done]. unfold hand_over, drain, try_send, unsent. munfold.
  destruct (queue _); [destruct (_ <? _)%N|]; done.
Qed.
Lemma sync_messaging_hands c :
  match sync_messaging c with (Panic, _) => True | (_, c') => hands c c' end.
Proof.
  rewrite sync_messaging_steps. pose proof (reconcile_extends c) as Hr. unfold along_at in Hr.
  destruct (reconcile_raids c) as [[[]|e|] c1]; [|by apply extends_hands|done].
  destruct (_ || _ || _); [|by apply extends_hands].
  assert (along quiet (modify (set_messaging_directory (message_directory c1)) : C unit)) as Hm
    by by walk @along_modify.
  pose proof (hand_over_hands (WorkSync (message_directory c1)) _ (mret tt) c1 ltac:(done) ltac:(done)
    Hm ltac:(walk @along_ret)) as Hh.
  destruct (hand_over _ _ _ c1) as [[a|e|] c']; [by eapply hands_from..|done].
Qed.

(** ** The system *)
Section system.
Context {L : Type} `{AuditLaws L} `{EventJson} (serde_error : string → Value → string).
#[local] Set Default Proof Using "All".

(** The controller's operations that touch raids or the channel, each with
    the reconciliation that precedes it in [dispatch], [tick] or [publish].
    [EOther] is any other request; a launch joins its raid after the request
    was reconciled and its session inserted, which are steps of their own. *)
Inductive Entry :=
| EHost (method : string) (params : Value)
| ESandbox (scope method : string) (params : Value)
| ELaunch (session : string) (join : Join)
| EPublish
| EOther
| ECall (role : Role) (connection : N) (id : Value) (method : string) (params : Value)
| ETick.
Definition enter (e : Entry) : C unit :=
  match e with
  | EHost method v => _ ← reconcile_raids; _ ← host_raids serde_error method v; mret tt
  | ESandbox scope method v =>
      _ ← reconcile_raids; _ ← sandbox_raids serde_error scope method v; mret tt
  | ELaunch session j => apply_launch_raid session j
  | EPublish => _ ← reconcile_raids; refresh_raid_prompts
  | EOther => reconcile_raids
  | ECall r connection id method v => messaging_call r connection id method v
  | ETick => sync_messaging
  end.

(** [handed] is every unit of work the channel took, with the raids of the
    moment it was handed over. *)
Record System := mkSystem {
  ctl : Controller; handed : list (Work * Raids); wk : @Worker L }.

Inductive step : System → System → Prop :=
| step_enter s e :
    outcome_of (enter e) (ctl s) ≠ Panic →
    let c' := state_of (enter e) (ctl s) in
    step s (mkSystem c' (handed s ++ ((., c_raids c') <$> newly (ctl s) c')) (wk s))
| step_elsewhere s c' :
    (* the rest of the controller: sessions, approvals, other state *)
    quiet (ctl s) c' → step s (mkSystem c' (handed s) (wk s))
| step_work s work q now :
    queue (ctl s) = Some (work :: q) →
    step s (mkSystem (set_queue (Some q) (ctl s)) (handed s)
      (state_of (work_loop serde_error [(work, now)]) (wk s)))
| step_hangup s : step s (mkSystem (set_queue None (ctl s)) (handed s) (wk s)).

Inductive reached (inst : string) (lim : Limits) (a : L) : System → Prop :=
| reached_start c b :
    Mailbox.new inst lim = Ok b → c_raids c = default_raids → raid_outbox c = [] →
    queue c = Some [] → reached inst lim a (mkSystem c [] (new_worker b a))
| reached_step s s' : reached inst lim a s → step s s' → reached inst lim a s'.

Lemma along_hands {A} (m : C A) c :
  along extends m → outcome_of m c ≠ Panic → hands c (state_of m c).
Proof.
  intros Hm Hp. specialize (Hm c). unfold along_at, outcome_of, state_of in *.
  destruct (m c) as [[x|e|] c']; [by apply extends_hands..|done].
Qed.
Lemma enter_hands e c : outcome_of (enter e) c ≠ Panic → hands c (state_of (enter e) c).
Proof.
  destruct e; simpl.
  - apply along_hands. walk @along_bind; [apply reconcile_extends|]. intros _.
    walk @along_bind; [apply host_raids_extends|]. intros _. walk @along_ret.
  - apply along_hands. walk @along_bind; [apply reconcile_extends|]. intros _.
    walk @along_bind; [apply sandbox_raids_extends|]. intros _. walk @along_ret.
  - apply along_hands, apply_launch_raid_extends.
  - apply along_hands. walk @along_bind; [apply reconcile_extends|]. intros _.
    apply quiet_steps, refresh_raid_prompts_quiet.
  - apply along_hands, reconcile_extends.
  - intros Hp. pose proof (messaging_call_hands role connection id method params c) as Hh.
    unfold outcome_of, state_of in *.
    by destruct (messaging_call _ _ _ _ _ _) as [[x|e|] c'].
  - intros Hp. pose proof (sync_messaging_hands c) as Hh. unfold outcome_of, state_of in *.
    by destruct (sync_messaging _) as [[x|e|] c'].
Qed.

(** ** What every reachable system keeps *)
Record linked (inst : string) (lim : Limits) (a : L) (s : System) : Prop := {
  li_history : at_history (events_of (handed s).*1) (ctl s);
  li_moments : ∀ l1 w r l2, handed s = l1 ++ (w, r) :: l2 →
    history (events_of (l1.*1 ++ [w])) r;
  li_worker : ∃ done b cs rest, Mailbox.new inst lim = Ok b ∧
    (handed s).*1 = done ++ rest ∧ (∀ q, queue (ctl s) = Some q → rest = q) ∧
    mailbox_of (wk s) = runs cs (b, a) ∧ MailboxRaids.raid_events cs = events_of done }.

Lemma linked_enter inst lim a s e :
  linked inst lim a s → outcome_of (enter e) (ctl s) ≠ Panic →
  let c' := state_of (enter e) (ctl s) in
  linked inst lim a (mkSystem c' (handed s ++ ((., c_raids c') <$> newly (ctl s) c')) (wk s)).
Proof.
  intros [HA HB (dn & b & cs & rest & Hb & Hd & Hq & Hm & He)] Hp c'.
  destruct (enter_hands e (ctl s) Hp) as [Hqueue Hone Hhist]. fold c' in Hqueue, Hone, Hhist.
  assert (((., c_raids c') <$> newly (ctl s) c').*1 = newly (ctl s) c') as Hf.
  { rewrite <-list_fmap_compose. apply list_fmap_id. }
  pose proof (Hhist _ HA) as HA'. rewrite <-events_of_app in HA'.
  split; simpl.
  - by rewrite fmap_app, Hf.
  - intros l1 w r l2 Heq. destruct Hone as [Hn|(w' & Hn & Ho)]; rewrite Hn in *.
    + rewrite app_nil_r in Heq. by apply HB in Heq.
    + simpl in Heq. destruct l2 as [|x l2 _] using rev_ind.
      * apply app_inj_tail in Heq as [<- [= <- <-]]. destruct HA' as [Hh _].
        by rewrite Ho, app_nil_r in Hh.
      * rewrite app_comm_cons, (assoc (++)) in Heq. apply app_inj_tail in Heq as [Heq _].
        by apply HB in Heq.
  - exists dn, b, cs, (rest ++ newly (ctl s) c').
    split_and!; try done.
    + rewrite fmap_app, Hf, Hd. by rewrite (assoc (++)).
    + intros q Hq'. rewrite Hqueue in Hq'. destruct (queue (ctl s)) as [q0|]; simplify_eq/=.
      by rewrite (Hq q0).
Qed.
Lemma linked_quiet inst lim a s c' :
  linked inst lim a s → quiet (ctl s) c' → linked inst lim a (mkSystem c' (handed s) (wk s)).
Proof.
  intros [HA HB (dn & b & cs & rest & Hb & Hd & Hq & Hm & He)] Hquiet. split; simpl.
  - by apply (quiet_extends _ _ Hquiet).
  - done.
  - exists dn, b, cs, rest. split_and!; try done. destruct Hquiet as [_ _ -> _ _]. done.
Qed.
Lemma at_history_queue evs c q : at_history evs c → at_history evs (set_queue q c).
Proof. by intros []. Qed.
Lemma linked_work inst lim a s work q now :
  linked inst lim a s → queue (ctl s) = Some (work :: q) →
  linked inst lim a (mkSystem (set_queue (Some q) (ctl s)) (handed s)
      (state_of (work_loop serde_error [(work, now)]) (wk s))).
Proof.
  intros [HA HB (dn & b & cs & rest & Hb & Hd & Hq & Hm & He)] Hqueue.
  specialize (Hq _ Hqueue) as ->. split; cbn [ctl handed wk]; [by apply at_history_queue|done|].
  destruct (work_loop_calls serde_error [(work, now)] (wk s)) as (o & cs' & w' & Hl & Hm' & He' & _).
  exists (dn ++ [work]), b, (cs ++ cs'), q. split_and!; try done.
  - by rewrite Hd, <-(assoc (++)).
  - by intros q' [= ->].
  - unfold state_of. rewrite Hl. simpl. by rewrite Hm', Hm, runs_app.
  - rewrite raid_events_app, He, He'. by rewrite events_of_app.
Qed.
Lemma linked_reached inst lim a s : reached inst lim a s → linked inst lim a s.
Proof.
  induction 1 as [c b Hb Hr Ho Hq|s s' _ IH Hs].
  - split; simpl.
    + split; rewrite Hr, ?Ho; [apply history_start|apply map_Forall_empty].
    + by intros [].
    + exists [], b, [], []. split_and!; try done. rewrite Hq. by intros q [= <-].
  - destruct Hs as [s e Hp c'|s c' Hq|s work q now Hq|s].
    + by apply linked_enter.
    + by apply linked_quiet.
    + by apply linked_work.
    + destruct IH as [HA HB (dn & b & cs & rest & Hb & Hd & Hq & Hm & He)].
      split; simpl; [by apply at_history_queue|done|]. by exists dn, b, cs, rest.
Qed.

Lemma after_batch_runs work now (w : @Worker L) :
  mailbox_of (after_batch work now w) = runs (batch_calls (w_known w) work now) (mailbox_of w).
Proof. unfold after_batch, mailbox_of. simpl. by rewrite <-surjective_pairing. Qed.
Lemma batch_calls_events known work now :
  MailboxRaids.raid_events (batch_calls known work now) = work_raids work.
Proof.
  unfold batch_calls. rewrite !raid_events_app, !raid_events_none by done.
  unfold MailboxRaids.raid_events. simpl. by rewrite !app_nil_r.
Qed.

(** C27. A call is authorized by the membership of its time: whatever the
    controller, the channel and the worker did before, when the worker turns
    to a unit of work, the unit is the oldest one not yet served, and if the
    mailbox, once it recorded the events the unit brings, lets an actor that
    is not the host write to a session, then both were in one raid that was
    not paused when the controller handed the unit over. *)
Theorem calls_use_membership_of_their_time inst lim a s work q now actor k :
  reached inst lim a s → queue (ctl s) = Some (work :: q) →
  may_write (w_mailbox (after_batch work now (wk s))) actor k → is_host actor = false →
  ∃ l1 r l2, handed s = l1 ++ (work, r) :: l2 ∧ l2.*1 = q ∧
    ∃ name rd, member_of r !! actor = Some name ∧ member_of r !! k = Some name ∧
      raids r !! name = Some rd ∧ paused rd = None.
Proof.
  intros Hr Hq Hmay Hhost.
  destruct (linked_reached _ _ _ _ Hr) as [_ HB (dn & b & cs & rest & Hb & Hd & Hrest & Hm & He)].
  specialize (Hrest _ Hq) as ->.
  apply fmap_app_inv in Hd as (l1 & l2 & Hl1 & Hl2 & Hh).
  destruct l2 as [|[w r] l2]; [done|]. simpl in Hl2. injection Hl2 as <- Hl2.
  exists l1, r, l2. split_and!; [done|done|].
  pose proof (HB _ _ _ _ Hh) as Hist. rewrite events_of_app, <-Hl1, <-He in Hist.
  assert (events_of [work] = MailboxRaids.raid_events (batch_calls (w_known (wk s)) work now)) as Hev.
  { rewrite batch_calls_events. unfold events_of. simpl. apply app_nil_r. }
  rewrite Hev, <-raid_events_app in Hist.
  destruct (runs_below inst lim b a (cs ++ batch_calls (w_known (wk s)) work now) r Hb Hist)
    as (Hi & Ht & Hl).
  eapply may_write_shares; [exact Hi|exact Ht|exact Hl| |done].
  rewrite (runs_app serde_error), <-Hm, <-after_batch_runs. exact Hmay.
Qed.
End system.

(** ** Two members of a raid *)
Definition demo_session (id name : string) : Active :=
  mkActive id name "agent" "running" None true None None true.
Definition demo_controller : Controller :=
  mkController "goblins" 0 (<["a" := demo_session "a" "alice"]> {["b" := demo_session "b" "bob"]})
    default_raids [] 0 [] [] false (Some []) ∅ false.
Definition demo_system : System := mkSystem demo_controller [] demo_worker.
Definition demo_entries : list Entry :=
  [EHost "raids.invite" (json_object [("raid", String_ "review");
     ("sessions", Array [String_ "alice"; String_ "bob"])]);
   ECall (Sandbox "a") 7 (Number 1) "messages.send"
     (json_object [("key", String_ "k1"); ("to", String_ "bob"); ("body", String_ "hello")])].
Definition demo_run (s : @System Endless) (e : Entry) : System :=
  let c' := state_of (enter demo_error e) (ctl s) in
  mkSystem c' (handed s ++ ((., c_raids c') <$> newly (ctl s) c')) (wk s).
Definition demo_reached : @System Endless := foldl demo_run demo_system demo_entries.

Lemma calls_use_membership_of_their_time_witness :
  ∃ work r, handed demo_reached = [(work, r)] ∧
    ∃ name rd, member_of r !! "a" = Some name ∧ member_of r !! "b" = Some name ∧
      raids r !! name = Some rd ∧ paused rd = None.
Proof.
  assert (@reached Endless _ (ticks 0) demo_error demo_instance default_limits (mkEndless []) demo_reached)
    as Hr.
  { do 2 (eapply reached_step; [|apply step_enter; by vm_compute]).
    apply reached_start; [exact demo_new|done..]. }
  assert (∃ work, queue (ctl demo_reached) = Some [work]) as [work Hq].
  { eexists. vm_compute. reflexivity. }
  exists work.
  destruct (@calls_use_membership_of_their_time Endless _ endless_laws (ticks 0) demo_error _ _ _ _
    work [] 9%N "a" "b" Hr Hq) as (l1 & r & l2 & Hh & Hl2 & Hs).
  - injection Hq as <-. right. eexists. split; [by vm_compute|]. by split; vm_compute.
  - done.
  - exists r. split; [|exact Hs]. destruct l2; [|done]. destruct l1 as [|x l1]; [done|].
    assert (length (handed demo_reached) = 1%nat) as Hlen by by vm_compute.
    rewrite Hh, length_app in Hlen. simpl in Hlen. lia.
Defined.
