(* ===== verification/Requests.v ===== *)
(** * Requests a sandbox makes

    The parameters of a sandbox's requests and their checks: permission
    requests, host commands, flake apps and dev shell previews
    ([libs/api/src/rpc.rs]), files for the host editor
    ([libs/api/src/editor.rs], with the daemon's command line of
    [packages/daemon/src/controller/editor.rs] and the sandbox's command of
    [packages/sandbox-cli/src/main.rs]), source patches
    ([libs/api/src/patch.rs]) and dev shell references
    ([libs/runtime/src/devshell.rs]). The theorems are in [RequestsSpec.v]. *)
From S2P Require Import Prelude Json Grammar Framing FramingFacts Text Paths.
From Stdlib Require Import Ascii.

(** ** rpc.rs *)
Definition MAX_ARGS : N := 1024.
Definition MAX_ENV : N := 256.
Definition MAX_HOST_COMMAND : N := 12 * 1024.
Definition HOST_RESERVED_ENV : list string := ["GOBLINS_HOST_JOB"].
Definition NUL : ascii := ascii_of_N 0.

Record HostCommand := mkHostCommand {
  argv : list string; cwd : string; h_env : list (string * string);
  timeout : option N; detach : bool }.
#[export] Instance HostCommand_eq_dec : EqDecision HostCommand.
Proof. solve_decision. Defined.

(** [!s.contains('\0')]. *)
Definition no_nul (s : string) : bool := negb (contains NUL (bytes s)).
Definition sumN (l : list N) : N := foldr N.add 0%N l.
Definition host_command_size (h : HostCommand) : N :=
  (sumN (strlen <$> argv h) + sumN ((λ kv, strlen kv.1 + strlen kv.2)%N <$> h_env h) +
   strlen (cwd h))%N.
(** [self.argv[0]] is read only once the length is known to be positive. *)
Definition HostCommand_validate (h : HostCommand) : bool :=
  within 1 MAX_ARGS (lenN (argv h)) && forallb no_nul (argv h) &&
  match argv h with [] => false | p :: _ => negb (string_eqb p "") end &&
  has_prefix [SLASH] (bytes (cwd h)) && no_nul (cwd h) &&
  (lenN (h_env h) <=? MAX_ENV)%N &&
  forallb (λ kv, env_name kv.1 && no_nul kv.2 && negb (existsb (string_eqb kv.1) HOST_RESERVED_ENV))
    (h_env h) &&
  match timeout h with None => true | Some t => (0 <? t)%N end &&
  (host_command_size h <=? MAX_HOST_COMMAND)%N.

(** [b"_-'".contains(&b)]. *)
Definition one_of (s : string) (b : ascii) : bool := contains b (bytes s).
Definition input_name (name : string) : bool :=
  within 1 200 (strlen name) &&
  forallb (head_and_tail (λ b, is_ascii_alphabetic b || is_byte b underscore)
             (λ b, is_ascii_alphanumeric b || one_of "_-'" b))
    (split_on SLASH (bytes name)).

Record PermissionParams := mkPermissionParams {
  kind : string; package : string; reason : string;
  update : option (list string); lock : bool; host : option HostCommand }.

Definition some_or_true {A} (f : A → bool) (o : option A) : bool :=
  match o with Some a => f a | None => true end.
Definition is_some {A} (o : option A) : bool := match o with Some _ => true | None => false end.
Definition valid_inputs (u : list string) : bool := (lenN u <=? 32)%N && forallb input_name u.

Definition PermissionParams_validate (p : PermissionParams) : bool :=
  let refresh := is_some (update p) || lock p in
  let has_host := is_some (host p) in
  ((string_eqb (kind p) "package" && package_name (package p) && negb refresh && negb has_host) ||
   (string_eqb (kind p) "docker" && string_eqb (package p) "" && negb refresh && negb has_host) ||
   (string_eqb (kind p) "devshell" && string_eqb (package p) "" && negb has_host &&
    negb (is_some (update p) && lock p) && some_or_true valid_inputs (update p)) ||
   (string_eqb (kind p) "host-command" && string_eqb (package p) "" && negb refresh &&
    match host p with Some h => HostCommand_validate h | None => false end)) &&
  within 1 1024 (lenN (chars (reason p))).

Definition app_name_byte (b : ascii) : bool := is_ascii_alphanumeric b || one_of "_-+'" b.
Definition FlakeRunParams_validate (app : string) : bool :=
  within 1 256 (strlen app) && forallb app_name_byte (bytes app).

Record DevShellDiffParams := mkDevShellDiffParams { d_update : option (list string); d_lock : bool }.
Definition DevShellDiffParams_validate (p : DevShellDiffParams) : bool :=
  negb (is_some (d_update p) && d_lock p) && some_or_true valid_inputs (d_update p).

(** ** editor.rs *)
Definition MAX_FILES : N := 32.
Definition MAX_PATH : N := 4096.
Record File := mkFile { f_path : string; line : option N; column : option N }.
#[export] Instance File_eq_dec : EqDecision File.
Proof. solve_decision. Defined.
Record Open := mkOpen { files : list File; wait : bool }.

Definition normalized (path : string) : bool :=
  (strlen path <=? MAX_PATH)%N && has_prefix [SLASH] (bytes path) &&
  negb (existsb char_is_control (chars path)) &&
  (string_eqb path "/" ||
   forallb (λ part, negb (bool_decide (part = [])) && negb (bool_decide (part = DOT)) &&
                    negb (bool_decide (part = DOTDOT)))
     (split_on SLASH (tail (bytes path)))).

Definition check_file (f : File) : res string unit :=
  if negb (normalized (f_path f)) then
    Err ("not an absolute, normalized path: " +:+ plain_text (f_path f))
  else if bool_decide (line f = Some 0%N) || bool_decide (column f = Some 0%N) then
    Err "lines and columns start at 1"
  else if is_some (column f) && negb (is_some (line f)) then Err "a column needs a line"
  else Ok tt.
Fixpoint check_files (fs : list File) : res string unit :=
  match fs with
  | [] => Ok tt
  | f :: fs => match check_file f with Ok _ => check_files fs | e => e end
  end.
Definition Open_validate (o : Open) : res string unit :=
  if negb (within 1 MAX_FILES (lenN (files o))) then Err ("open 1 to " +:+ show MAX_FILES +:+ " files")
  else check_files (files o).

Definition absolute_step (result : Bytes) (c : Component) : Bytes :=
  match c with
  | Normal part => push result part
  | ParentDir => pop result
  | RootDir | CurDir => result
  end.
Definition absolute (cwd path : Bytes) : Bytes :=
  foldl absolute_step [SLASH] (components (join cwd path)).

Record Args := mkArgs {
  a_wait : bool; a_files : list File; position : option (N * option N); options : bool }.
(** [s.parse::<u32>().ok().filter(|n| *n > 0)]. *)
Definition number (l : Bytes) : option N :=
  n ← parse_u32 l; if (0 <? n)%N then Some n else None.
Definition invalid_position (arg : string) : string := "invalid position " +:+ arg.
Definition parse_position (arg : string) (spec : Bytes) : res string (N * option N) :=
  match split_first ":"%char spec with
  | Some (l, c) =>
      n ← res_ok_or (number l) (invalid_position arg);
      k ← res_ok_or (number c) (invalid_position arg); Ok (n, Some k)
  | None => n ← res_ok_or (number spec) (invalid_position arg); Ok (n, None)
  end.
Definition take_file (s : Args) (arg : string) : Args :=
  let '(l, c) := match position s with Some (l, c) => (Some l, c) | None => (None, None) end in
  mkArgs (a_wait s) (a_files s ++ [mkFile arg l c]) None (options s).
Definition parse_arg (s : Args) (arg : string) : res string Args :=
  if options s && string_eqb arg "--" then Ok (mkArgs (a_wait s) (a_files s) (position s) false)
  else if options s && (string_eqb arg "--no-wait" || string_eqb arg "-n") then
    Ok (mkArgs false (a_files s) (position s) (options s))
  else match (if options s then strip_prefix ["+"%char] (bytes arg) else None) with
  | Some spec =>
      p ← parse_position arg spec; Ok (mkArgs (a_wait s) (a_files s) (Some p) (options s))
  | None =>
      if options s && has_prefix [hyphen] (bytes arg) && negb (string_eqb arg "-")
      then Err ("unknown option " +:+ arg)
      else Ok (take_file s arg)
  end.
Fixpoint parse_args (s : Args) (args : list string) : res string Args :=
  match args with
  | [] => Ok s
  | arg :: args => s' ← parse_arg s arg; parse_args s' args
  end.
Definition parse (args : list string) : res string (list File * bool) :=
  s ← parse_args (mkArgs true [] None true) args;
  if is_some (position s) then Err "a position must be followed by a file"
  else match a_files s with
       | [] => Err "usage: goblin editor open [--no-wait] [+LINE[:COL]] FILE..."
       | fs => Ok (fs, a_wait s)
       end.

(** The sandbox's command up to the call: [editor_open] of the sandbox CLI,
    in the directory [cwd]. *)
Definition absolute_file (cwd : Bytes) (f : File) : res string File :=
  let path := absolute cwd (bytes (f_path f)) in
  if negb (utf8_valid path) then Err "file names must be UTF-8" else Ok (mkFile (text path) (line f) (column f)).
Definition editor_request (cwd : Bytes) (args : list string) : res string Open :=
  p ← parse args;
  fs ← mapM (absolute_file cwd) p.1;
  let open := mkOpen fs p.2 in
  _ ← Open_validate open; Ok open.

(** ** The daemon's editor command line *)
Definition QUOTES : ascii := ascii_of_N 34.
(** [text.replace('\\', "\\\\").replace('"', "\\\"")], one character at a
    time. *)
Definition replace_byte (c : ascii) (by_ : Bytes) (l : Bytes) : Bytes :=
  concat ((λ b, if is_byte b c then by_ else [b]) <$> l).
Definition elisp_string (l : Bytes) : Bytes :=
  QUOTES :: replace_byte QUOTES [BACKSLASH; QUOTES] (replace_byte BACKSLASH [BACKSLASH; BACKSLASH] l)
         ++ [QUOTES].
Definition pin_expression (host directory instance session : Bytes) : Bytes :=
  bytes "(goblins-pin-host " ++ elisp_string host ++ " "%char :: elisp_string directory ++
  " "%char :: elisp_string instance ++ " "%char :: elisp_string session ++ bytes ")".
Definition pin_arguments (host directory instance session : Bytes) : list Bytes :=
  [bytes "-a"; bytes "false"; bytes "--eval"; pin_expression host directory instance session].

Definition position_argument (f : File) : list string :=
  match line f, column f with
  | Some l, Some c => ["+" +:+ show l +:+ ":" +:+ show c]
  | Some l, None => ["+" +:+ show l]
  | None, _ => []
  end.
Definition remote_name (host : string) (f : File) : string :=
  "/goblins:" +:+ host +:+ ":" +:+ f_path f.
Definition file_arguments (host : string) (f : File) : list string :=
  position_argument f ++ [remote_name host f].
Definition arguments (host : string) (open : Open) : list string :=
  (if negb (wait open) then ["-n"] else []) ++ ["-a"; "false"] ++
  concat (file_arguments host <$> files open).

(** ** patch.rs *)
Record PatchFile := mkPatchFile { p_path : Bytes; status : string; p_lines : list Bytes }.
#[export] Instance PatchFile_eq_dec : EqDecision PatchFile.
Proof. solve_decision. Defined.
Definition set_status (st : string) (f : PatchFile) : PatchFile := mkPatchFile (p_path f) st (p_lines f).
Definition add_line (l : Bytes) (f : PatchFile) : PatchFile :=
  mkPatchFile (p_path f) (status f) (p_lines f ++ [l]).
(** [files.last_mut()]. *)
Definition alter_last (g : PatchFile → PatchFile) (l : list PatchFile) : list PatchFile :=
  alter g (pred (length l)) l.

Definition DIFF : Bytes := bytes "diff --git ".
Definition NEW_FILE : Bytes := bytes "new file".
Definition DELETED_FILE : Bytes := bytes "deleted file".
Definition HUNK : Bytes := bytes "@@".
Definition patch_path (rest : Bytes) : Bytes :=
  match rsplit_once (bytes " b/") rest with
  | Some (_, b) => b
  | None => trim_start_matches (bytes "a/") rest
  end.
Definition patch_line (s : list PatchFile * bool) (l : Bytes) : list PatchFile * bool :=
  let '(fs, header) := s in
  match strip_prefix DIFF l with
  | Some rest => (fs ++ [mkPatchFile (patch_path rest) "modified" []], true)
  | None =>
      if bool_decide (fs = []) then s
      else if header && has_prefix NEW_FILE l then (alter_last (set_status "new file") fs, header)
      else if header && has_prefix DELETED_FILE l then (alter_last (set_status "deleted") fs, header)
      else if has_prefix HUNK l then (alter_last (add_line l) fs, false)
      else if negb header then (alter_last (add_line l) fs, header)
      else s
  end.
Definition patch_files (patch : Bytes) : list PatchFile :=
  (foldl patch_line ([], false) (lines patch)).1.
(** [path.ends_with(".nix")]. *)
Definition nix (f : PatchFile) : bool := ends_with (bytes ".nix") (p_path f).

(** ** devshell.rs *)
Definition parse_reference (reference : Bytes) : res string (Bytes * option Bytes) :=
  let '(path, attr) := match split_first "#"%char reference with
                       | Some (p, a) => (p, Some a)
                       | None => (reference, None)
                       end in
  if negb (is_absolute path) || contains "?"%char path then
    Err "dev shell must be an absolute local flake path"
  else if match attr with
          | Some a => bool_decide (a = []) || (256 <? lenN a)%N || negb (forallb app_name_byte a)
          | None => false
          end
  then Err "invalid dev shell attribute"
  else Ok (path, attr).

Section examples.
Local Abbreviation B := bytes.
Example parse_test : parse ["+3:4"; "a.txt"; "-n"; "/tmp/b"; "+9"; "c"] =
  Ok ([mkFile "a.txt" (Some 3%N) (Some 4%N); mkFile "/tmp/b" None None; mkFile "c" (Some 9%N) None], false).
Proof. by vm_compute. Qed.
Example parse_bad_test : (res_ok ∘ parse) <$> [["+0"; "a"]; ["+1"]; []; ["+x"; "a"]; ["--wait"; "a"]] =
  replicate 5 None.
Proof. by vm_compute. Qed.
Example absolute_test : absolute (B "/work/x") (B "../y/./z") = B "/work/y/z" ∧
  absolute (B "/w") (B "/a/../..") = B "/".
Proof. by vm_compute. Qed.
Example normalized_test : normalized <$> ["/"; "/tmp/x"; "/a b/c"; ""; "x"; "/tmp/"; "//x"; "/a/./b"; "/a/../b"] =
  [true; true; true; false; false; false; false; false; false].
Proof. by vm_compute. Qed.
Example pin_test : pin_expression (B "gribble.snaga") (B "/run/a " ++ [QUOTES] ++ B "b\") (B "i") (B "i-s2") =
  B "(goblins-pin-host " ++ [QUOTES] ++ B "gribble.snaga" ++ [QUOTES] ++ B " " ++ [QUOTES] ++ B "/run/a \" ++
  [QUOTES] ++ B "b\\" ++ [QUOTES] ++ B " " ++ [QUOTES] ++ B "i" ++ [QUOTES] ++ B " " ++ [QUOTES] ++ B "i-s2" ++
  [QUOTES] ++ B ")".
Proof. by vm_compute. Qed.
Example arguments_test :
  arguments "gribble.snaga" (mkOpen [mkFile "/tmp/a b" (Some 3%N) (Some 4%N); mkFile "/-x" (Some 9%N) None;
                                     mkFile "/c" None None] false) =
  ["-n"; "-a"; "false"; "+3:4"; "/goblins:gribble.snaga:/tmp/a b"; "+9"; "/goblins:gribble.snaga:/-x";
   "/goblins:gribble.snaga:/c"].
Proof. by vm_compute. Qed.
Example reference_test : parse_reference (B "/src/app#rust") = Ok (B "/src/app", Some (B "rust")) ∧
  parse_reference (B "/src/app") = Ok (B "/src/app", None).
Proof. by vm_compute. Qed.
End examples.
