(* ===== verification/RequestsSpec.v ===== *)
(** * Requests a sandbox makes: the theorems

    Lexical paths: whatever the directory and the name, [absolute] gives the
    canonical text of a stack of names; a request made by the sandbox's
    command is one the daemon accepts, and the command line the daemon builds
    is read back as the request. Lisp strings and patches are read back too. *)
From S2P Require Import Prelude Json Grammar Framing FramingFacts Text Paths Requests.
From Stdlib Require Import Ascii.

(** ** Lexical paths *)

(** The reference: the names a path goes through, [..] dropping the last. *)
Fixpoint resolve (stack : list Bytes) (cs : list Component) : list Bytes :=
  match cs with
  | [] => stack
  | Normal part :: cs => resolve (stack ++ [part]) cs
  | ParentDir :: cs => resolve (removelast stack) cs
  | _ :: cs => resolve stack cs
  end.

Lemma resolve_proper cs stack : Forall proper stack →
  (∀ part, Normal part ∈ cs → proper part) → Forall proper (resolve stack cs).
Proof.
  revert stack. induction cs as [|c cs IH]; intros stack Hs Hc; [done|].
  assert (∀ part, Normal part ∈ cs → proper part) by (intros; apply Hc; by right).
  destruct c; cbn [resolve]; apply IH; try done.
  - destruct stack as [|x stack _] using rev_ind; [done|]. rewrite removelast_last.
    by apply Forall_snoc_iff in Hs as [? _].
  - apply Forall_snoc_iff. split; [done|]. apply Hc. by left.
Qed.
Lemma absolute_fold cs stack : Forall proper stack → (∀ part, Normal part ∈ cs → proper part) →
  foldl absolute_step (rooted stack) cs = rooted (resolve stack cs).
Proof.
  revert stack. induction cs as [|c cs IH]; intros stack Hs Hc; [done|].
  assert (∀ part, Normal part ∈ cs → proper part) by (intros; apply Hc; by right).
  destruct c as [| | |part]; cbn [foldl resolve absolute_step]; [by apply IH|by apply IH| |].
  - destruct stack as [|x stack _] using rev_ind; [by rewrite pop_root, IH|].
    apply Forall_snoc_iff in Hs as [Hs Hx].
    rewrite removelast_last, pop_rooted by done. by apply IH.
  - assert (proper part) by (apply Hc; by left). rewrite push_rooted by done.
    apply IH; [|done]. by apply Forall_snoc_iff.
Qed.
Definition names_of (cwd path : Bytes) : list Bytes := resolve [] (components (join cwd path)).
Lemma names_of_proper cwd path : Forall proper (names_of cwd path).
Proof. apply resolve_proper; [done|]. intros part. apply components_proper. Qed.
Lemma absolute_rooted cwd path : absolute cwd path = rooted (names_of cwd path).
Proof. apply (absolute_fold _ []); [done|]. intros part. apply components_proper. Qed.

Lemma proper_part part : proper part →
  negb (bool_decide (part = [])) && negb (bool_decide (part = DOT)) && negb (bool_decide (part = DOTDOT)) = true.
Proof. intros (? & ? & ? & _). by rewrite !bool_decide_eq_false_2. Qed.

(** The path fits a request and can be shown. *)
Definition presentable (path : string) : bool :=
  (strlen path <=? MAX_PATH)%N && negb (existsb char_is_control (chars path)).
Lemma normalized_rooted parts : Forall proper parts →
  normalized (text (rooted parts)) = presentable (text (rooted parts)).
Proof.
  intros Hp. unfold normalized, presentable. rewrite bytes_text.
  assert (has_prefix [SLASH] (rooted parts) = true) as -> by done.
  change (tail (rooted parts)) with (join_parts parts). rewrite split_rooted, andb_true_r by done.
  destruct parts as [|part parts]; [by rewrite andb_true_r|].
  assert (forallb (λ part : list ascii, negb (bool_decide (part = [])) && negb (bool_decide (part = DOT)) &&
     negb (bool_decide (part = DOTDOT))) (part :: parts) = true) as ->; [|by rewrite orb_true_r, andb_true_r].
  apply forallb_forall. intros q Hq%list_elem_of_In. apply proper_part. by eapply Forall_forall in Hp.
Qed.

Lemma resolve_normals stack parts : resolve stack (Normal <$> parts) = stack ++ parts.
Proof.
  revert stack. induction parts as [|p parts IH]; intros stack; [by rewrite app_nil_r|].
  cbn. change (resolve (stack ++ [p]) (Normal <$> parts) = stack ++ p :: parts).
  by rewrite IH, <- app_assoc.
Qed.

(** [absolute] computes the canonical path of the names the joined path
    goes through, each [..] dropping the last one and never leaving the root;
    the result is a normalized path exactly when it fits and has no control
    character, and reading it again from any directory leaves it unchanged. *)
Theorem absolute_paths_are_canonical cwd path dir :
  absolute cwd path = rooted (names_of cwd path) ∧
  normalized (text (absolute cwd path)) = presentable (text (absolute cwd path)) ∧
  absolute dir (absolute cwd path) = absolute cwd path.
Proof.
  pose proof (names_of_proper cwd path) as Hp. rewrite absolute_rooted. split_and!; [done|by apply normalized_rooted|].
  rewrite absolute_rooted. f_equal. unfold names_of at 1.
  assert (join dir (rooted (names_of cwd path)) = rooted (names_of cwd path)) as -> by done.
  rewrite components_rooted by done. cbn [resolve]. apply (resolve_normals []).
Qed.

(** ** The editor command line *)
Definition good_position (f : File) : Prop :=
  (∀ n, line f = Some n → 0 < n < u32_modulus)%N ∧ (∀ n, column f = Some n → 0 < n < u32_modulus)%N ∧
  (is_Some (column f) → is_Some (line f)).
Definition good_args (s : Args) : Prop :=
  Forall good_position (a_files s) ∧
  ∀ l c, position s = Some (l, c) → (0 < l < u32_modulus)%N ∧ ∀ n, c = Some n → (0 < n < u32_modulus)%N.

Lemma number_range l n : number l = Some n → (0 < n < u32_modulus)%N.
Proof.
  unfold number, parse_u32. destruct (match l with b :: r => _ | [] => [] end) as [|b r]; [done|].
  destruct (forallb _ _); [|done]. simpl andb. case_match eqn:Hn; [|done]. simpl.
  case_match eqn:Hp; [|done]. apply N.ltb_lt in Hn, Hp. by intros [= <-].
Qed.
Lemma parse_position_good arg spec l c : parse_position arg spec = Ok (l, c) →
  (0 < l < u32_modulus)%N ∧ ∀ n, c = Some n → (0 < n < u32_modulus)%N.
Proof.
  unfold parse_position. destruct (split_first _ _) as [[x y]|].
  - destruct (number x) eqn:Hx; [|done]. destruct (number y) eqn:Hy; [|done]. simpl. intros [= <- <-].
    split; [by eapply number_range|]. intros k [= <-]. by eapply number_range.
  - destruct (number spec) eqn:Hx; [|done]. intros [= <- <-]. split; [by eapply number_range|done].
Qed.
Lemma parse_arg_good s arg s' : good_args s → parse_arg s arg = Ok s' → good_args s'.
Proof.
  intros [Hf Hp]. unfold parse_arg. destruct (options s && string_eqb arg "--"); [by intros [= <-]|].
  destruct (options s && _); [by intros [= <-]|].
  destruct (if options s then _ else _) as [spec|].
  - destruct (parse_position _ _) as [[n k]|e|] eqn:Hq; [|done..]. intros [= <-]. split; [done|].
    intros ? ? [= <- <-]. by eapply parse_position_good.
  - destruct (options s && _ && _); [done|]. intros [= <-]. unfold take_file.
    destruct (position s) as [[l c]|] eqn:Hs; split; cbn; try done.
    + apply Forall_snoc_iff. split; [done|]. destruct (Hp l c eq_refl) as [Hl Hc].
      split_and!; cbn; [by intros ? [= <-]|done|by intros _; eexists].
    + apply Forall_snoc_iff. split; [done|]. split_and!; cbn; [done..|]. by intros [? ?].
Qed.
Lemma parse_args_good args s s' : good_args s → parse_args s args = Ok s' → good_args s'.
Proof.
  revert s. induction args as [|arg args IH]; intros s Hs; [by intros [= <-]|]. cbn [parse_args].
  destruct (parse_arg s arg) eqn:Ha; [|done..]. apply IH. by eapply parse_arg_good.
Qed.
(** What [parse] returns: positions start at one, a column comes with a line,
    and there is a file. *)
Lemma parse_good args fs w : parse args = Ok (fs, w) → Forall good_position fs ∧ fs ≠ [].
Proof.
  unfold parse. destruct (parse_args _ args) as [s|e|] eqn:Ha; [|done..]. cbn.
  destruct (is_some _); [done|]. destruct (a_files s) as [|f l] eqn:Hf; [done|]. intros [= <- <-].
  split; [|done]. rewrite <- Hf. by eapply parse_args_good in Ha as [? _].
Qed.

Lemma check_file_good f : good_position f → normalized (f_path f) = true → check_file f = Ok tt.
Proof.
  intros (Hl & Hc & Hlc) Hn. unfold check_file. rewrite Hn. cbn.
  assert (line f ≠ Some 0%N) by (intros ?%Hl; lia). assert (column f ≠ Some 0%N) by (intros ?%Hc; lia).
  rewrite !bool_decide_eq_false_2 by done. cbn.
  destruct (column f), (line f); try done. by destruct Hlc.
Qed.
Lemma check_file_normalized f : check_file f = Ok tt → normalized (f_path f) = true.
Proof. unfold check_file. by destruct (normalized _). Qed.
(** A file of the arguments as the request names it. *)
Definition located (cwd : Bytes) (f : File) : File :=
  mkFile (text (absolute cwd (bytes (f_path f)))) (line f) (column f).
Lemma located_check cwd f : good_position f →
  check_file (located cwd f) = Ok tt ↔ presentable (text (absolute cwd (bytes (f_path f)))) = true.
Proof.
  intros Hg. rewrite absolute_rooted, <- normalized_rooted by apply names_of_proper. split.
  - intros Hc%check_file_normalized. cbn in Hc. by rewrite absolute_rooted in Hc.
  - intros Hn. apply check_file_good; [exact Hg|]. cbn. by rewrite absolute_rooted.
Qed.
Definition utf8_path (cwd : Bytes) (f : File) : Prop := utf8_valid (absolute cwd (bytes (f_path f))) = true.
Lemma absolute_files cwd fs :
  mapM (absolute_file cwd) fs = Ok (located cwd <$> fs) ∧ Forall (utf8_path cwd) fs ∨
  mapM (absolute_file cwd) fs = Err "file names must be UTF-8" ∧ ¬ Forall (utf8_path cwd) fs.
Proof.
  induction fs as [|f fs IH]; [by left|]. rewrite Forall_cons.
  change (mapM (absolute_file cwd) (f :: fs)) with
    (y ← absolute_file cwd f; ys ← mapM (absolute_file cwd) fs; mret (y :: ys)).
  assert (absolute_file cwd f = if utf8_valid (absolute cwd (bytes (f_path f)))
    then Ok (located cwd f) else Err "file names must be UTF-8") as -> by (unfold absolute_file; by destruct (utf8_valid _)).
  unfold utf8_path at 1 3. destruct (utf8_valid _); cbn [mbind res_bind].
  - destruct IH as [[-> Hf]|[-> Hf]]; [left|right]; (split; [done|tauto]).
  - right. split; [done|by intros [? _]].
Qed.
Lemma check_files_ok fs : check_files fs = Ok tt ↔ Forall (λ f, check_file f = Ok tt) fs.
Proof.
  induction fs as [|f fs IH]; [by split|]. cbn [check_files]. rewrite Forall_cons, <- IH.
  destruct (check_file f) as [[]|e|]; naive_solver.
Qed.

(** C35. The sandbox's [editor open] never builds a request it then refuses
    for a path that is not normalized or a bad position: arguments that parse
    are accepted exactly when they name at most 32 files whose absolute paths
    are UTF-8, fit and have no control character, and the request is then
    those files, absolute, with their positions. A path that is not UTF-8 is
    refused as such. *)
Theorem editor_requests_validate cwd args fs w :
  parse args = Ok (fs, w) →
  let fits := (lenN fs <= 32)%N ∧ Forall (utf8_path cwd) fs ∧
              Forall (λ f, presentable (text (absolute cwd (bytes (f_path f)))) = true) fs in
  (fits → editor_request cwd args = Ok (mkOpen (located cwd <$> fs) w)) ∧
  (∀ o, editor_request cwd args = Ok o → fits) ∧
  (¬ Forall (utf8_path cwd) fs → editor_request cwd args = Err "file names must be UTF-8").
Proof.
  intros Hp fits. destruct (parse_good _ _ _ Hp) as [Hg Hne].
  unfold editor_request. rewrite Hp. cbn [mbind res_bind fst snd].
  destruct (absolute_files cwd fs) as [[-> Hu]|[-> Hu]]; cbn [mbind res_bind]; [|unfold fits; naive_solver].
  assert (∀ f, f ∈ fs → check_file (located cwd f) = Ok tt ↔
                        presentable (text (absolute cwd (bytes (f_path f)))) = true) as Hc.
  { intros f Hin. apply located_check. by eapply Forall_forall in Hg. }
  assert (Open_validate (mkOpen (located cwd <$> fs) w) = Ok tt ↔ fits) as Hv.
  { unfold Open_validate. cbn [files]. unfold lenN, fits in *. rewrite length_fmap.
    assert (within 1 MAX_FILES (N.of_nat (length fs)) = true ↔ (N.of_nat (length fs) <= 32)%N) as Hw.
    { unfold within, MAX_FILES. rewrite andb_true_iff, !N.leb_le. destruct fs; [done|]. cbn [length] in *. lia. }
    destruct (within _ _ _); cbn; [|naive_solver].
    rewrite check_files_ok, Forall_fmap. rewrite !Forall_forall in *. unfold compose. naive_solver. }
  split_and!; [| |done]; destruct (Open_validate _) as [[]|e|]; naive_solver.
Qed.

(** ** The command line the daemon builds *)
Definition at_position (s : Args) (p : option (N * option N)) : Args :=
  mkArgs (a_wait s) (a_files s) p (options s).
Lemma string_app_nil s : s +:+ "" = s.
Proof. induction s as [|b s IH]; [done|]. exact (f_equal (String b) IH). Qed.
Lemma bytes_cons b s : bytes (String b s) = b :: bytes s.
Proof. done. Qed.
Lemma show_no_colon n : ":"%char ∉ bytes (show n).
Proof. destruct (show_digits n) as (ds & -> & _ & Hd & _). by apply digits_not. Qed.
Lemma number_show n : (0 < n < u32_modulus)%N → number (bytes (show n)) = Some n.
Proof.
  intros [H0 Hn]. unfold number. rewrite parse_u32_show by done. cbn.
  by apply N.ltb_lt in H0 as ->.
Qed.
Lemma parse_position_show l c : (0 < l < u32_modulus)%N → (∀ n, c = Some n → 0 < n < u32_modulus)%N →
  let spec := (show l +:+ match c with Some c => ":" +:+ show c | None => "" end)%string in
  parse_position ("+" +:+ spec) (bytes spec) = Ok (l, c).
Proof.
  intros Hl Hc spec. unfold parse_position, spec. destruct c as [c|]; rewrite bytes_app.
  - change (bytes (":" +:+ show c)) with (":"%char :: bytes (show c)).
    rewrite split_first_at by apply show_no_colon. rewrite !number_show by auto. done.
  - change (bytes "") with (@nil ascii). rewrite app_nil_r, split_first_none by apply show_no_colon. by rewrite number_show.
Qed.
Lemma parse_arg_position s spec p : options s = true → parse_position ("+" +:+ spec) (bytes spec) = Ok p →
  parse_arg s ("+" +:+ spec) = Ok (at_position s (Some p)).
Proof.
  intros Ho Hp. unfold parse_arg. rewrite Ho. cbn [andb].
  assert (string_eqb ("+" +:+ spec) "--" = false) as -> by by apply bool_decide_eq_false_2.
  assert (string_eqb ("+" +:+ spec) "--no-wait" = false) as -> by by apply bool_decide_eq_false_2.
  assert (string_eqb ("+" +:+ spec) "-n" = false) as -> by by apply bool_decide_eq_false_2.
  cbn [orb]. rewrite bytes_app, strip_prefix_app, Hp. unfold at_position. cbn. by rewrite Ho.
Qed.
Lemma string_cons_app a b : String "/" a +:+ b = String "/" (a +:+ b).
Proof. done. Qed.
Lemma parse_arg_name s path : options s = true → parse_arg s (String "/" path) = Ok (take_file s (String "/" path)).
Proof.
  intros Ho. unfold parse_arg. rewrite Ho. cbn [andb].
  assert (string_eqb (String "/" path) "--" = false) as -> by by apply bool_decide_eq_false_2.
  assert (string_eqb (String "/" path) "--no-wait" = false) as -> by by apply bool_decide_eq_false_2.
  assert (string_eqb (String "/" path) "-n" = false) as -> by by apply bool_decide_eq_false_2.
  done.
Qed.

(** A file as the editor is asked for it. *)
Definition remote (host : string) (f : File) : File := mkFile (remote_name host f) (line f) (column f).
Lemma parse_file_arguments s host f rest : options s = true → position s = None → good_position f →
  parse_args s (file_arguments host f ++ rest) =
  parse_args (mkArgs (a_wait s) (a_files s ++ [remote host f]) None true) rest.
Proof.
  intros Ho Hp (Hl & Hc & Hlc). unfold file_arguments, remote. rewrite <- app_assoc.
  assert (∀ s', options s' = true → parse_args s' ([remote_name host f] ++ rest) =
                parse_args (take_file s' (remote_name host f)) rest) as Hname.
  { intros s' Hs'. cbn [app parse_args]. unfold remote_name. rewrite string_cons_app.
    by rewrite parse_arg_name. }
  unfold position_argument. destruct (line f) as [l|] eqn:Hlf.
  - assert (∀ q, parse_position ("+" +:+ (show l +:+ q)) (bytes (show l +:+ q)) = Ok (l, column f) →
      parse_args s (("+" +:+ (show l +:+ q)) :: [remote_name host f] ++ rest) =
      parse_args (mkArgs (a_wait s) (a_files s ++ [mkFile (remote_name host f) (Some l) (column f)]) None true) rest)
      as Hpos.
    { intros q Hq. cbn [parse_args]. rewrite (parse_arg_position _ _ _ Ho Hq). cbn [mbind res_bind].
      rewrite Hname by done. unfold take_file, at_position. cbn. by rewrite Ho. }
    pose proof (parse_position_show l (column f) (Hl _ eq_refl) Hc) as Hq. destruct (column f) as [c|].
    + by apply Hpos.
    + specialize (Hpos ""). cbn in Hq. rewrite string_app_nil in *. by apply Hpos.
  - destruct (column f) as [c|]; [by destruct Hlc|]. cbn [app]. rewrite Hname by done.
    unfold take_file. by rewrite Hp, Ho.
Qed.
Lemma parse_all_arguments host fs s : options s = true → position s = None → Forall good_position fs →
  parse_args s (concat (file_arguments host <$> fs)) =
  Ok (mkArgs (a_wait s) (a_files s ++ (remote host <$> fs)) None true).
Proof.
  revert s. induction fs as [|f fs IH]; intros s Ho Hp Hf.
  - cbn. rewrite app_nil_r. destruct s; cbn in *. by subst.
  - apply Forall_cons in Hf as [Hf Hfs]. cbn [fmap list_fmap concat].
    rewrite parse_file_arguments by done. rewrite IH by done. cbn [a_wait a_files].
    by rewrite <- app_assoc.
Qed.

(** The integers of a request are of type [u32]. *)
Definition u32_positions (f : File) : Prop :=
  (∀ n, line f = Some n → n < u32_modulus)%N ∧ (∀ n, column f = Some n → n < u32_modulus)%N.
Lemma check_file_position f : u32_positions f → check_file f = Ok tt → good_position f.
Proof.
  intros [Hl Hc]. unfold check_file, good_position. destruct (negb (normalized _)); [done|].
  destruct (bool_decide (line f = Some 0%N)) eqn:H1; [done|].
  destruct (bool_decide (column f = Some 0%N)) eqn:H2; [done|].
  apply bool_decide_eq_false_1 in H1, H2. cbn. intros H3.
  split_and!.
  - intros n Hn. specialize (Hl n Hn). split; [|done]. destruct n; [congruence|lia].
  - intros n Hn. specialize (Hc n Hn). split; [|done]. destruct n; [congruence|lia].
  - destruct (column f), (line f); try done; intros; by eexists.
Qed.

(** The command line the daemon runs for a validated request is the
    fixed options followed by arguments that the [editor open] grammar reads
    back as exactly the requested files, in order and with their positions,
    each under the goblin's remote name. *)
Theorem editor_arguments_parse_back host o :
  Forall u32_positions (files o) → Open_validate o = Ok tt →
  ∃ rest, arguments host o = (if wait o then [] else ["-n"]) ++ ["-a"; "false"] ++ rest ∧
          parse rest = Ok (remote host <$> files o, true).
Proof.
  intros Hu Hv. exists (concat (file_arguments host <$> files o)). split; [by unfold arguments; destruct (wait o)|].
  unfold Open_validate in Hv. destruct (within _ _ _) eqn:Hn; [|done]. cbn in Hv.
  apply check_files_ok in Hv. unfold parse. rewrite parse_all_arguments; [|done..|].
  - cbn. destruct (files o) as [|f fs]; [done|]. done.
  - apply Forall_forall. intros f Hf. eapply Forall_forall in Hu, Hv; [|done..]. by apply check_file_position.
Qed.

(** ** Lisp strings *)

(** The reader of an Emacs Lisp string literal: a backslash takes the next
    character literally, an unescaped quote ends the string. *)
Fixpoint read_chars (l : Bytes) : option (Bytes * Bytes) :=
  match l with
  | [] => None
  | b :: l =>
      if is_byte b QUOTES then Some ([], l)
      else if is_byte b BACKSLASH then
        match l with
        | [] => None
        | c :: l => p ← read_chars l; Some (c :: p.1, p.2)
        end
      else p ← read_chars l; Some (b :: p.1, p.2)
  end.
Definition read_string (l : Bytes) : option (Bytes * Bytes) :=
  match l with b :: l => if is_byte b QUOTES then read_chars l else None | [] => None end.
Definition read_symbol (symbol l : Bytes) : option Bytes := strip_prefix symbol l.
(** The call [(goblins-pin-host "host" "directory" "instance" "session")]. *)
Definition read_pin (l : Bytes) : option (Bytes * Bytes * Bytes * Bytes) :=
  l ← read_symbol (bytes "(goblins-pin-host ") l;
  h ← read_string l; l ← read_symbol [" "%char] h.2;
  d ← read_string l; l ← read_symbol [" "%char] d.2;
  i ← read_string l; l ← read_symbol [" "%char] i.2;
  s ← read_string l; l ← read_symbol (bytes ")") s.2;
  match l with [] => Some (h.1, d.1, i.1, s.1) | _ => None end.

Lemma replace_byte_cons c by_ b l :
  replace_byte c by_ (b :: l) = (if is_byte b c then by_ else [b]) ++ replace_byte c by_ l.
Proof. done. Qed.
Lemma read_chars_escaped l rest :
  read_chars (replace_byte QUOTES [BACKSLASH; QUOTES] (replace_byte BACKSLASH [BACKSLASH; BACKSLASH] l)
              ++ QUOTES :: rest) = Some (l, rest).
Proof.
  induction l as [|b l IH]; [done|]. rewrite replace_byte_cons.
  destruct (decide (b = BACKSLASH)) as [->|Hb].
  { rewrite is_byte_refl. cbn [app]. rewrite !replace_byte_cons, !(is_byte_ne BACKSLASH) by done.
    cbn [app read_chars]. rewrite !(is_byte_ne BACKSLASH), is_byte_refl by done. by rewrite IH. }
  rewrite (is_byte_ne b) by done. cbn [app]. rewrite replace_byte_cons.
  destruct (decide (b = QUOTES)) as [->|Hq].
  { rewrite is_byte_refl. cbn [app read_chars]. rewrite (is_byte_ne BACKSLASH), is_byte_refl by done. by rewrite IH. }
  rewrite (is_byte_ne b) by done. cbn [app read_chars]. rewrite !(is_byte_ne b) by done. by rewrite IH.
Qed.
Lemma read_elisp_string l rest : read_string (elisp_string l ++ rest) = Some (l, rest).
Proof.
  unfold elisp_string. cbn [app read_string]. rewrite is_byte_refl, <- app_assoc. cbn [app].
  apply read_chars_escaped.
Qed.

(** No text can leave its quotes: Emacs reads the pin expression as one
    call with exactly the four strings given, whatever bytes they hold. *)
Theorem pin_expression_reads_back host directory instance session :
  read_pin (pin_expression host directory instance session) = Some (host, directory, instance, session).
Proof.
  unfold read_pin, pin_expression, read_symbol. rewrite strip_prefix_app. cbn [mbind option_bind].
  do 3 (rewrite read_elisp_string; cbn [mbind option_bind fst snd];
        rewrite strip_one; cbn [mbind option_bind]).
  rewrite read_elisp_string. cbn [mbind option_bind fst snd].
  by rewrite <- (app_nil_r (bytes ")")), strip_prefix_app.
Qed.

(** ** Patches *)

(** A file of a [git diff]: the header names it twice, [old] being what
    stands before the last [ b/]; [mark] is the line that says it is new or
    deleted, [extra] the other header lines, and the hunks follow. *)
Record Diff := mkDiff { old : Bytes; mark : option (string * Bytes); extra : list Bytes; file : PatchFile }.
Definition diff_line (d : Diff) : Bytes := DIFF ++ bytes "a/" ++ old d ++ bytes " b/" ++ p_path (file d).
Definition mark_lines (d : Diff) : list Bytes := match mark d with Some (_, l) => [l] | None => [] end.
Definition diff_lines (d : Diff) : list Bytes :=
  diff_line d :: mark_lines d ++ extra d ++ p_lines (file d).
Definition print_patch (ds : list Diff) : Bytes := print_lines (concat (diff_lines <$> ds)).

Definition neutral_line (l : Bytes) : Prop :=
  strip_prefix DIFF l = None ∧ has_prefix NEW_FILE l = false ∧ has_prefix DELETED_FILE l = false ∧
  has_prefix HUNK l = false.
(** The hunks start with [@@] and no line of them looks like a file header,
    which Git's leading space, plus or minus ensures. *)
Record git_diff (d : Diff) : Prop := {
  g_plain : Forall plain_line (diff_lines d);
  g_path : rsplit_once (bytes " b/") (p_path (file d)) = None;
  g_mark : match mark d with
           | None => status (file d) = "modified"
           | Some (st, l) => strip_prefix DIFF l = None ∧ status (file d) = st ∧
               ((st = "new file" ∧ has_prefix NEW_FILE l = true) ∨
                (st = "deleted" ∧ has_prefix NEW_FILE l = false ∧ has_prefix DELETED_FILE l = true))
           end;
  g_extra : Forall neutral_line (extra d);
  g_hunks : match p_lines (file d) with
            | [] => True
            | l :: ls => has_prefix HUNK l = true ∧ Forall (λ l, strip_prefix DIFF l = None) ls
            end }.

Lemma alter_last_snoc g l f : alter_last g (l ++ [f]) = l ++ [g f].
Proof.
  unfold alter_last. rewrite length_app. cbn [length].
  replace (pred (length l + 1)) with (length l + 0)%nat by lia. by rewrite alter_app_r.
Qed.
Lemma snoc_not_nil {A} (l : list A) x : bool_decide (l ++ [x] = []) = false.
Proof. apply bool_decide_eq_false_2. by destruct l. Qed.
Lemma rsplit_path q p : rsplit_once (bytes " b/") p = None →
  rsplit_once (bytes " b/") (q ++ bytes " b/" ++ p) = Some (q, p).
Proof.
  intros Hp. assert (rsplit_once (bytes " b/") (bytes " b/" ++ p) = Some ([], p)) as Hb.
  { change (bytes " b/") with [" "%char; "b"%char; SLASH] in *. cbn [app rsplit_once strip_prefix].
    rewrite Hp. cbn. by destruct p. }
  induction q as [|b q IH]; [done|]. cbn [app]. cbn [rsplit_once]. by rewrite IH.
Qed.

Lemma fold_extra fs f ls : Forall neutral_line ls →
  foldl patch_line (fs ++ [f], true) ls = (fs ++ [f], true).
Proof.
  induction 1 as [|l ls (Hd & Hn & Hx & Hh) _ IH]; [done|]. cbn [foldl].
  unfold patch_line at 2. by rewrite Hd, snoc_not_nil, Hn, Hx, Hh.
Qed.
Lemma fold_hunk_lines fs f ls : Forall (λ l, strip_prefix DIFF l = None) ls →
  foldl patch_line (fs ++ [f], false) ls = (fs ++ [mkPatchFile (p_path f) (status f) (p_lines f ++ ls)], false).
Proof.
  intros Hl. revert f. induction Hl as [|l ls Hd _ IH]; intros f; [destruct f; cbn; by rewrite app_nil_r|].
  cbn [foldl]. unfold patch_line at 2. rewrite Hd, snoc_not_nil, !andb_false_l, alter_last_snoc.
  destruct (has_prefix HUNK l); cbn [negb]; rewrite IH; cbn; by rewrite <- app_assoc.
Qed.
Lemma patch_line_hunk fs f l : has_prefix HUNK l = true →
  patch_line (fs ++ [f], true) l = (fs ++ [add_line l f], false).
Proof.
  intros Hh. assert (∃ r, l = HUNK ++ r) as [r Hr].
  { unfold has_prefix in Hh. destruct (strip_prefix HUNK l) eqn:Hs; [|done]. apply strip_prefix_Some in Hs. eauto. }
  assert (strip_prefix DIFF l = None ∧ has_prefix NEW_FILE l = false ∧ has_prefix DELETED_FILE l = false)
    as (Hd & Hn & Hx) by (subst l; split_and!; reflexivity).
  unfold patch_line. by rewrite Hd, snoc_not_nil, Hn, Hx, Hh, !alter_last_snoc.
Qed.
Lemma fold_hunks fs f ls : p_lines f = [] →
  match ls with [] => True | l :: ls => has_prefix HUNK l = true ∧ Forall (λ l, strip_prefix DIFF l = None) ls end →
  (foldl patch_line (fs ++ [f], true) ls).1 = fs ++ [mkPatchFile (p_path f) (status f) ls].
Proof.
  intros Hf. destruct ls as [|l ls]; [destruct f; cbn in *; by subst|]. intros [Hh Hl].
  cbn [foldl]. rewrite patch_line_hunk, fold_hunk_lines by done. cbn. by rewrite Hf.
Qed.
Lemma fold_diff d fs header : git_diff d →
  (foldl patch_line (fs, header) (diff_lines d)).1 = fs ++ [file d].
Proof.
  intros [_ Hp Hm He Hh]. unfold diff_lines. cbn [foldl].
  assert (patch_line (fs, header) (diff_line d) = (fs ++ [mkPatchFile (p_path (file d)) "modified" []], true)) as ->.
  { unfold patch_line, diff_line. rewrite strip_prefix_app. unfold patch_path.
    by rewrite (app_assoc (bytes "a/")), rsplit_path. }
  rewrite foldl_app.
  assert (foldl patch_line (fs ++ [mkPatchFile (p_path (file d)) "modified" []], true) (mark_lines d) =
          (fs ++ [mkPatchFile (p_path (file d)) (status (file d)) []], true)) as ->.
  { unfold mark_lines. destruct (mark d) as [[st l]|]; cbn [foldl]; [|by rewrite Hm].
    destruct Hm as (Hd & Hs & [[-> Hn]|(-> & Hn & Hx)]); unfold patch_line;
      rewrite Hd, snoc_not_nil, Hn; cbn [andb]; [by rewrite alter_last_snoc, Hs|].
    by rewrite Hx, alter_last_snoc, Hs. }
  rewrite foldl_app, fold_extra, fold_hunks by done. cbn. by destruct (file d).
Qed.

(** Splitting a printed patch gives back its files: each with the path
    after the last [ b/] of its header, its status, and exactly its hunk
    lines, whatever the other header lines say and even when a hunk line
    starts like a header line of a new or deleted file. *)
Theorem patches_split_by_file ds :
  Forall git_diff ds → patch_files (print_patch ds) = file <$> ds.
Proof.
  intros Hd. unfold patch_files, print_patch. rewrite lines_print.
  2: { apply Forall_concat, Forall_fmap. eapply Forall_impl; [exact Hd|]. by intros d []. }
  assert (∀ s, (foldl patch_line s (concat (diff_lines <$> ds))).1 = s.1 ++ (file <$> ds)) as ->; [|done].
  induction Hd as [|d ds Hg _ IH]; intros [fs h]; [by rewrite app_nil_r|].
  cbn [fmap list_fmap concat]. rewrite foldl_app, IH, fold_diff by done. by rewrite <- app_assoc.
Qed.

(** ** Permission requests

    What a request asks for, read off its kind: each kind has its own payload
    and no other. *)
Inductive asks (p : PermissionParams) : Prop :=
  | AsksPackage : kind p = "package" → package_name (package p) = true → update p = None →
      lock p = false → host p = None → asks p
  | AsksDocker : kind p = "docker" → package p = "" → update p = None → lock p = false →
      host p = None → asks p
  | AsksRefresh : kind p = "devshell" → package p = "" → host p = None →
      DevShellDiffParams_validate (mkDevShellDiffParams (update p) (lock p)) = true → asks p
  | AsksHostCommand h : kind p = "host-command" → package p = "" → update p = None → lock p = false →
      host p = Some h → HostCommand_validate h = true → asks p.

Lemma string_eqb_true a b : string_eqb a b = true ↔ a = b.
Proof. apply bool_decide_eq_true. Qed.
Lemma is_some_false {A} (o : option A) : is_some o = false ↔ o = None.
Proof. by destruct o. Qed.

(** A permission request is valid exactly when its reason has 1 to 1024
    characters and it asks for one of the four things: a well-named package,
    Docker, a dev shell refresh, under the rule [devshell.diff] previews, or a
    valid host command; a payload of another kind makes it invalid. *)
Theorem permission_requests_have_one_payload p :
  PermissionParams_validate p = true ↔
  asks p ∧ (1 <= lenN (chars (reason p)) <= 1024)%N.
Proof.
  unfold PermissionParams_validate, within. rewrite andb_true_iff, (andb_true_iff (1 <=? _)%N), !N.leb_le.
  f_equiv. rewrite !orb_true_iff, !andb_true_iff, !negb_true_iff, !string_eqb_true, !orb_false_iff, !is_some_false.
  split.
  - intros [[[(((?&?)&(?&?))&?)|(((?&?)&(?&?))&?)]|((((?&?)&?)&?)&?)]|(((?&?)&(?&?))&?)].
    + by apply AsksPackage.
    + by apply AsksDocker.
    + apply AsksRefresh; try done. unfold DevShellDiffParams_validate. cbn. by apply andb_true_iff; rewrite negb_true_iff.
    + destruct (host p) as [h|] eqn:Hh; [|done]. by eapply AsksHostCommand.
  - intros [| |? ? ? Hv|h ? ? ? ? Hh]; [by left; left; left|by left; left; right| |].
    + left; right. unfold DevShellDiffParams_validate in Hv. cbn in Hv.
      by apply andb_true_iff in Hv; rewrite negb_true_iff in Hv; destruct Hv.
    + right. by rewrite Hh.
Qed.

(** ** Concrete inputs *)
Definition sample_args : list string := ["+3:4"; "../a.txt"; "-n"; "/tmp/b"].
Definition sample_files : list File := [mkFile "../a.txt" (Some 3%N) (Some 4%N); mkFile "/tmp/b" None None].
Definition sample_open : Open :=
  mkOpen [mkFile "/work/a.txt" (Some 3%N) (Some 4%N); mkFile "/tmp/b" None None] false.
Lemma editor_requests_validate_witness : editor_request (bytes "/work/x") sample_args = Ok sample_open.
Proof.
  assert (parse sample_args = Ok (sample_files, false)) as Hp by by vm_compute.
  destruct (editor_requests_validate (bytes "/work/x") sample_args sample_files false Hp) as [H _].
  apply H. split; [by vm_compute|]. split; by repeat constructor.
Defined.
Lemma editor_arguments_parse_back_witness :
  ∃ rest, arguments "snikk" sample_open = ["-n"; "-a"; "false"] ++ rest ∧
          parse rest = Ok (remote "snikk" <$> files sample_open, true).
Proof.
  destruct (editor_arguments_parse_back "snikk" sample_open) as (rest & Ha & Hr).
  - repeat constructor; intros n; cbn; try (intros [= <-]); done.
  - by vm_compute.
  - exists rest. split; [exact Ha|exact Hr].
Defined.
Definition sample_diff : Diff :=
  mkDiff (bytes "old") (Some ("new file", bytes "new file mode 100644")) [bytes "index 0..3"]
    (mkPatchFile (bytes "src/main.rs") "new file" [bytes "@@ -0,0 +1 @@"; bytes "+new file"]).
Lemma patches_split_by_file_witness :
  patch_files (print_patch [sample_diff; sample_diff]) = [file sample_diff; file sample_diff].
Proof.
  apply (patches_split_by_file [sample_diff; sample_diff]).
  assert (git_diff sample_diff) as Hg; [|constructor; [exact Hg|constructor; [exact Hg|constructor]]].
  split.
  - refine (bool_decide_unpack _ _). by vm_compute.
  - by vm_compute.
  - split_and!; [by vm_compute..|]. left. by vm_compute.
  - constructor; [by vm_compute|constructor].
  - split; [by vm_compute|]. constructor; [by vm_compute|constructor].
Defined.
