(* ===== verification/Binds.v ===== *)
(** * Host bind paths

    [libs/runtime/src/binds.rs]: the expansion of a declared path with the
    host environment, and the trees no bind may overlap. [env] stands for the
    host environment, the argument the code passes. *)
From S2P Require Import Prelude Json Grammar Framing FramingFacts Text Paths.
From Stdlib Require Import Ascii.

Definition DOLLAR : ascii := "$".
Definition TILDE : ascii := "~".
Definition OPEN_BRACE : ascii := "{".
Definition CLOSE_BRACE : ascii := "}".
Definition name_byte (b : ascii) : bool := is_ascii_alphanumeric b || is_byte b underscore.
(** A byte of a name at position [i]: a digit only after the first. *)
Definition variable_name (name : Bytes) : bool :=
  match name with
  | [] => false
  | b :: rest => (is_ascii_alphabetic b || is_byte b underscore) &&
                 forallb (λ c, is_ascii_alphabetic c || is_byte c underscore || is_ascii_digit c) rest
  end.

Section expand.
Variable env : Bytes → option Bytes.

(** The variable after a [$]: its name and the rest of the input. *)
Definition take_name (input : Bytes) : res string (Bytes * Bytes) :=
  match input with
  | b :: rest =>
      if is_byte b OPEN_BRACE then
        match split_first CLOSE_BRACE rest with
        | Some p => Ok p
        | None => Err "unclosed variable in host bind path"
        end
      else Ok (span name_byte input)
  | [] => Ok (span name_byte input)
  end.
(** The loop over the [$] of the input; every round drops at least the [$],
    so [length input] rounds are enough ([expand_loop_enough]). *)
Fixpoint expand_loop (fuel : nat) (input output : Bytes) : res string Bytes :=
  match split_first DOLLAR input with
  | None => Ok (output ++ input)
  | Some (before, after) =>
      match fuel with
      | O => Panic
      | S fuel =>
          p ← take_name after;
          let '(name, input) := p in
          if negb (variable_name name) then
            Err "host bind paths accept $VAR or ${VAR}, not shell expressions"
          else
            value ← res_ok_or (env name) ("unset host bind variable: " +:+ text name);
            expand_loop fuel input ((output ++ before) ++ value)
      end
  end.
Definition expand_home (value : Bytes) : res string (Bytes * Bytes) :=
  match value with
  | b :: rest =>
      if is_byte b TILDE then
        if negb (bool_decide (rest = [])) && negb (has_prefix [SLASH] rest) then
          Err "host bind paths do not support ~user; use $HOME"
        else home ← res_ok_or (env (bytes "HOME")) "HOME is unset"; Ok (rest, home)
      else Ok (value, [])
  | [] => Ok (value, [])
  end.
Definition expand (value : Bytes) : res string Bytes :=
  p ← expand_home value;
  let '(input, output) := p in
  path ← expand_loop (length input) input output;
  if negb (is_absolute path) || existsb (λ c, bool_decide (c = ParentDir)) (components path) ||
     contains (ascii_of_N 0) path
  then Err ("host bind path must be absolute without '..': " +:+ text value)
  else Ok (collect (components path)).
End expand.

Definition overlaps (a b : Bytes) : bool := starts_with a b || starts_with b a.
Definition protected_paths : list Bytes :=
  bytes <$> ["/proc"; "/sys"; "/dev"; "/nix"; "/run"; "/bin"; "/workspace"].
Definition overlap_message (path protected : Bytes) : string :=
  "host bind " +:+ text path +:+ " overlaps protected path " +:+ text protected.
Definition validate (path : Bytes) (private : list Bytes) : res string unit :=
  match List.find (overlaps path) (protected_paths ++ private) with
  | Some protected => Err (overlap_message path protected)
  | None => Ok tt
  end.

Section examples.
Let env (name : Bytes) : option Bytes :=
  if bool_decide (name = bytes "HOME") then Some (bytes "/home/test") else None.
Example expand_test : (expand env ∘ bytes) <$> ["~/.config/fish"; "$HOME/.config/fish"; "${HOME}/.config/fish"] =
  replicate 3 (Ok (bytes "/home/test/.config/fish")).
Proof. by vm_compute. Qed.
Example expand_refused_test :
  (res_ok ∘ expand env ∘ bytes) <$>
    ["~someone/file"; "$MISSING/file"; "$(id)"; "${HOME:-/tmp}"; "relative"; "$HOME/../secret"] = replicate 6 None.
Proof. by vm_compute. Qed.
Example validate_test :
  (λ p, res_ok (validate (bytes p) [])) <$>
    ["/"; "/nix"; "/nix/var/nix/daemon-socket"; "/run/goblins"; "/proc/self/root"; "/workspace/subdir";
     "/home/test/.config/fish"] = replicate 6 None ++ [Some tt] ∧
  res_ok (validate (bytes "/tmp") [bytes "/tmp/session-private"]) = None.
Proof. by vm_compute. Qed.
End examples.

(** ** Canonical paths *)

(** The names of an absolute path without [..]. *)
Definition names (cs : list Component) : list Bytes :=
  omap (λ c, match c with Normal part => Some part | _ => None end) cs.
Lemma component_of_cases part c : component_of part = Some c → c = ParentDir ∨ c = Normal part.
Proof. unfold component_of. repeat case_bool_decide; naive_solver. Qed.
Lemma names_omap parts : ParentDir ∉ omap component_of parts →
  omap component_of parts = Normal <$> names (omap component_of parts).
Proof.
  induction parts as [|part parts IH]; [done|]. cbn. destruct (component_of part) as [c|] eqn:Hc; [|done].
  intros [Hne Hp]%not_elem_of_cons. apply component_of_cases in Hc as [->| ->]; [done|].
  cbn. f_equal. by apply IH.
Qed.
Lemma tail_components p : is_absolute p = true → ParentDir ∉ components p →
  components p = RootDir :: (Normal <$> names (components p)).
Proof.
  unfold is_absolute, components. intros -> [_ Hp]%not_elem_of_cons. f_equal. by apply names_omap.
Qed.
Lemma names_proper p : Forall proper (names (components p)).
Proof.
  apply Forall_forall. intros part. unfold names. rewrite list_elem_of_omap.
  intros ([]& Hin & [= ->]). by eapply components_proper.
Qed.
Lemma collect_rooted parts : Forall proper parts → collect (RootDir :: (Normal <$> parts)) = rooted parts.
Proof.
  intros Hp. unfold collect. cbn [fmap list_fmap component_text foldl].
  change (push [] [SLASH]) with (rooted []).
  assert (∀ l, Forall proper l → foldl push (rooted l) (component_text <$> (Normal <$> parts)) = rooted (l ++ parts)) as H;
    [|by apply (H [])].
  induction Hp as [|part parts Hpart _ IH]; intros l Hl; [by rewrite app_nil_r|].
  cbn [fmap list_fmap component_text foldl]. rewrite push_rooted by done.
  rewrite (IH (l ++ [part])) by by apply Forall_snoc_iff. by rewrite <- app_assoc.
Qed.
Lemma collect_components p : is_absolute p = true → ParentDir ∉ components p →
  collect (components p) = rooted (names (components p)).
Proof. intros Ha Hp. rewrite tail_components at 1 by done. apply collect_rooted, names_proper. Qed.
