(* ===== verification/BindsSpec.v ===== *)
(** * Host bind paths: the theorems

    The expansion of [Binds.v] against a grammar: a path with variables is a
    list of references and literal text, and expanding it is substituting the
    variables' values once, never reading a value again. Its result is a
    canonical absolute path, and a path that passes [validate] shares no
    descendant with a protected tree. *)
From S2P Require Import Prelude Json Grammar Framing FramingFacts Text Paths Binds.
From Stdlib Require Import Ascii.

(** ** The grammar *)

(** Literal text and the reference after it: [$name] or [${name}]. *)
Record Ref := mkRef { before : Bytes; braced : bool; name : Bytes }.
Definition ref_text (r : Ref) : Bytes :=
  if braced r then OPEN_BRACE :: name r ++ [CLOSE_BRACE] else name r.
Fixpoint print_refs (rs : list Ref) (rest : Bytes) : Bytes :=
  match rs with
  | [] => rest
  | r :: rs => before r ++ DOLLAR :: ref_text r ++ print_refs rs rest
  end.
Definition ends_name (l : Bytes) : Prop := ∀ b, head l = Some b → name_byte b = false.
Fixpoint written (rs : list Ref) (rest : Bytes) : Prop :=
  match rs with
  | [] => DOLLAR ∉ rest
  | r :: rs => (DOLLAR ∉ before r) ∧ variable_name (name r) = true ∧
               (braced r = false → ends_name (print_refs rs rest)) ∧ written rs rest
  end.
Section expansion.
Variable env : Bytes → option Bytes.
(** The substitution, refused at the first variable that is not set. *)
Fixpoint expansion (rs : list Ref) (rest : Bytes) : res string Bytes :=
  match rs with
  | [] => Ok rest
  | r :: rs =>
      v ← res_ok_or (env (name r)) ("unset host bind variable: " +:+ text (name r));
      l ← expansion rs rest; Ok (before r ++ v ++ l)
  end.

Lemma name_bytes n : variable_name n = true → forallb name_byte n = true.
Proof.
  destruct n as [|b n]; [done|]. cbn. intros [Hb Hn]%andb_true_iff. apply andb_true_iff. split.
  - unfold name_byte, is_ascii_alphanumeric. apply orb_true_iff in Hb as [-> | ->]; by rewrite ?orb_true_r.
  - apply forallb_forall. intros c Hc. rewrite forallb_forall in Hn. specialize (Hn c Hc).
    unfold name_byte, is_ascii_alphanumeric. by destruct (is_ascii_alphabetic c), (is_byte c underscore), (is_ascii_digit c).
Qed.
Lemma name_not c n : variable_name n = true → name_byte c = false → c ∉ n.
Proof.
  intros Hn%name_bytes Hc Hin%list_elem_of_In. rewrite forallb_forall in Hn.
  rewrite (Hn c Hin) in Hc. done.
Qed.
Lemma take_name_print r l : variable_name (name r) = true → (braced r = false → ends_name l) →
  take_name (ref_text r ++ l) = Ok (name r, l).
Proof.
  intros Hn Hl. unfold ref_text, take_name. destruct (braced r).
  - cbn [app]. rewrite is_byte_refl, <- app_assoc. cbn [app].
    by rewrite split_first_at by by apply name_not.
  - rewrite span_app by (by apply name_bytes || by apply Hl).
    destruct (name r) as [|b n] eqn:Hnm; [done|]. cbn [app].
    assert (OPEN_BRACE ∉ b :: n) as Hb by by apply name_not.
    apply not_elem_of_cons in Hb as [Hb _]. by rewrite is_byte_ne.
Qed.
Lemma expand_loop_print rs rest n out : written rs rest → (length rs <= n)%nat →
  expand_loop env n (print_refs rs rest) out = v ← expansion rs rest; Ok (out ++ v).
Proof.
  revert n out. induction rs as [|r rs IH]; intros n out; cbn [written print_refs expansion].
  - intros Hr _. destruct n; cbn; by rewrite split_first_none.
  - intros (Hb & Hn & Hl & Hw) Hlen. destruct n as [|n]; [cbn in Hlen; lia|]. cbn [length] in Hlen.
    cbn [expand_loop]. rewrite split_first_at by done.
    rewrite take_name_print by done. cbn [mbind res_bind]. rewrite Hn. cbn [negb].
    destruct (env (name r)) as [v|]; [|done]. cbn. rewrite IH by (done || lia).
    destruct (expansion rs rest); cbn; try done. by rewrite <- !app_assoc.
Qed.
Lemma take_name_inv l n rest : take_name l = Ok (n, rest) → variable_name n = true →
  ∃ b, l = ref_text (mkRef [] b n) ++ rest ∧ (b = false → ends_name rest).
Proof.
  assert (span name_byte l = (n, rest) → l = n ++ rest ∧ ends_name rest) as Hs.
  { intros Hs. split; [by rewrite <- (span_eq name_byte l), Hs|].
    revert n Hs. induction l as [|b l IH]; intros n; cbn; [by intros [= <- <-]|].
    destruct (name_byte b) eqn:Hb.
    - destruct (span name_byte l) as [x y] eqn:Hxy. intros [= <- <-]. by apply (IH x).
    - intros [= <- <-]. by intros c [= <-]. }
  unfold take_name. intros Ht Hn. destruct l as [|b l].
  { injection Ht as <- <-. done. }
  destruct (is_byte b OPEN_BRACE) eqn:Hb.
  - apply Ascii.eqb_eq in Hb as ->. destruct (split_first CLOSE_BRACE l) as [[x y]|] eqn:Hc; [|done].
    injection Ht as <- <-. apply split_first_Some in Hc as [-> _]. exists true. split; [|done].
    cbn. by rewrite <- app_assoc.
  - exists false. injection Ht as Ht. apply Hs in Ht as [-> ?]. done.
Qed.
Lemma split_first_absent sep l : split_first sep l = None → sep ∉ l.
Proof.
  induction l as [|b l IH]; cbn; [intros; apply not_elem_of_nil|]. destruct (is_byte b sep) eqn:Hb; [done|].
  destruct (split_first sep l); [done|]. intros _. apply not_elem_of_cons. split; [|by apply IH].
  intros ->. by rewrite is_byte_refl in Hb.
Qed.
Lemma expand_loop_inv n input out path : expand_loop env n input out = Ok path →
  ∃ rs rest v, written rs rest ∧ print_refs rs rest = input ∧ expansion rs rest = Ok v ∧ path = out ++ v.
Proof.
  revert input out. induction n as [|n IH]; intros input out; cbn [expand_loop];
    destruct (split_first DOLLAR input) as [[b a]|] eqn:Hs; try done;
    try (intros [= <-]; exists [], input, input; apply split_first_absent in Hs; by split_and!).
  apply split_first_Some in Hs as [-> Hb].
  destruct (take_name a) as [[x y]|e|] eqn:Ht; [|done..]. cbn [mbind res_bind].
  destruct (variable_name x) eqn:Hx; [|done]. cbn [negb].
  destruct (env x) as [v|] eqn:Hv; [|done]. cbn [res_ok_or mbind res_bind].
  intros (rs & rest & w & Hw & <- & Hval & ->)%IH.
  apply take_name_inv in Ht as (br & -> & Hend); [|done].
  exists (mkRef b br x :: rs), rest, (b ++ v ++ w). cbn. rewrite Hv. cbn. rewrite Hval. cbn.
  split_and!; try done. by rewrite <- !app_assoc.
Qed.
Lemma print_refs_length rs rest : (length rs <= length (print_refs rs rest))%nat.
Proof. induction rs as [|r rs IH]; cbn; [lia|]. rewrite !length_app. cbn. rewrite length_app. lia. Qed.
(** The loop never needs more rounds than the input has bytes. *)
Lemma expand_loop_enough n input out : (length input <= n)%nat → expand_loop env n input out ≠ Panic.
Proof.
  revert input out. induction n as [|n IH]; intros input out Hn; cbn [expand_loop];
    destruct (split_first DOLLAR input) as [[b a]|] eqn:Hs; try done; apply split_first_Some in Hs as [-> _].
  { rewrite length_app in Hn. cbn in Hn. lia. }
  destruct (take_name a) as [[x y]|e|] eqn:Ht; [|done|].
  - cbn [mbind res_bind]. destruct (variable_name x) eqn:Hx; [|done]. cbn [negb].
    destruct (env x) as [v|]; [|done]. cbn. apply IH.
    apply take_name_inv in Ht as (br & -> & _); [|done]. rewrite !length_app in Hn. cbn in Hn. rewrite length_app in Hn. lia.
  - unfold take_name in Ht. destruct a; [done|]. destruct (is_byte _ _); [|done]. by destruct (split_first _ _).
Qed.
End expansion.

(** The path a text may stand for. *)
Definition usable (path : Bytes) : Prop :=
  is_absolute path = true ∧ (ParentDir ∉ components path) ∧ ascii_of_N 0 ∉ path.
Lemma usable_check path :
  negb (is_absolute path) || existsb (λ c, bool_decide (c = ParentDir)) (components path) ||
  contains (ascii_of_N 0) path = false ↔ usable path.
Proof.
  unfold usable. rewrite !orb_false_iff, negb_false_iff, contains_false, <- (not_true_iff_false (existsb _ _)).
  rewrite existsb_exists. setoid_rewrite bool_decide_eq_true. setoid_rewrite <- list_elem_of_In. naive_solver.
Qed.

(** [expand] is the substitution of the grammar and nothing else: after
    the home directory for a leading [~], it returns a path exactly when the
    text is literal text and references [$name] or [${name}], every variable
    is set, and the values put in place, never read again, give an absolute
    path without [..] or a NUL; it then returns that path's components. *)
Theorem expand_is_one_substitution env value path :
  expand env value = Ok path ↔
  ∃ rs rest home v, expand_home env value = Ok (print_refs rs rest, home) ∧ written rs rest ∧
    expansion env rs rest = Ok v ∧ usable (home ++ v) ∧ path = collect (components (home ++ v)).
Proof.
  unfold expand. split.
  - destruct (expand_home env value) as [[input home]|e|] eqn:Hh; [|done..]. cbn [mbind res_bind].
    destruct (expand_loop env _ _ _) as [p|e|] eqn:Hl; [|done..]. cbn [mbind res_bind].
    apply expand_loop_inv in Hl as (rs & rest & v & Hw & <- & Hv & ->).
    destruct (negb _ || _ || _) eqn:Hu; [done|]. apply usable_check in Hu. intros [= <-].
    by exists rs, rest, home, v.
  - intros (rs & rest & home & v & -> & Hw & Hv & Hu & ->). cbn [mbind res_bind].
    rewrite (expand_loop_print env rs) by (done || apply print_refs_length). rewrite Hv. cbn [mbind res_bind].
    by apply usable_check in Hu as ->.
Qed.

Lemma split_on_elem sep l part b : part ∈ split_on sep l → b ∈ part → b ∈ l.
Proof.
  revert part. induction l as [|c l IH]; intros part; cbn.
  { intros ->%list_elem_of_singleton. done. }
  destruct (is_byte c sep).
  { intros [->|Hp]%elem_of_cons; [by intros []%not_elem_of_nil|]. intros. right. by eapply IH. }
  destruct (split_on sep l) as [|k ks] eqn:Hs; [by apply split_on_ne in Hs|].
  intros [->|Hp]%elem_of_cons.
  - intros [->|Hb]%elem_of_cons; [by left|]. right. eapply IH; [by left|done].
  - intros Hb. right. eapply IH; [by right|done].
Qed.
Lemma names_elem p part b : is_absolute p = true → part ∈ names (components p) → b ∈ part → b ∈ p.
Proof.
  unfold is_absolute, components. intros Ha. rewrite Ha. cbn. fold (names (omap component_of (split_on SLASH (tail p)))).
  unfold names. rewrite list_elem_of_omap. intros ([]& Hin & [= ->]) Hb.
  apply list_elem_of_omap in Hin as (q & Hq & Hc%component_of_cases). destruct Hc as [|[= ->]]; [done|].
  destruct p as [|c p]; [done|]. right. by eapply split_on_elem.
Qed.
Lemma join_parts_elem parts b : b ∈ join_parts parts → b = SLASH ∨ ∃ part, part ∈ parts ∧ b ∈ part.
Proof.
  induction parts as [|p [|q parts] IH]; [by intros []%not_elem_of_nil| |].
  - intros Hb. right. exists p. split; [by left|done].
  - change (join_parts (p :: q :: parts)) with (p ++ SLASH :: join_parts (q :: parts)).
    intros [Hb|[->|Hb]%elem_of_cons]%elem_of_app; [right; exists p; split; [by left|done]|by left|].
    destruct (IH Hb) as [->|(r & Hr & Hbr)]; [by left|]. right. exists r. split; [by right|done].
Qed.

Lemma expand_no_panic env value : expand env value ≠ Panic.
Proof.
  unfold expand. destruct (expand_home env value) as [[input home]|e|] eqn:Hh; [|done|].
  - cbn [mbind res_bind]. pose proof (expand_loop_enough env (length input) input home (le_n _)).
    destruct (expand_loop _ _ _ _); [|done..]. cbn. by destruct (_ || _).
  - unfold expand_home in Hh. destruct value; [done|]. destruct (is_byte _ _); [|done].
    destruct (_ && _); [done|]. by destruct (env _).
Qed.
(** Every path [expand] returns is canonical: rooted names, none of them
    empty, [.] or [..], with no NUL byte. *)
Lemma expand_canonical env value path : expand env value = Ok path →
  ∃ parts, Forall proper parts ∧ path = rooted parts ∧ components path = RootDir :: (Normal <$> parts) ∧
           ascii_of_N 0 ∉ path.
Proof.
  unfold expand. destruct (expand_home env value) as [[input home]|e|]; [|done..]. cbn [mbind res_bind].
  destruct (expand_loop _ _ _ _) as [p|e|]; [|done..]. cbn [mbind res_bind].
  destruct (negb _ || _ || _) eqn:Hu; [done|]. apply usable_check in Hu as (Ha & Hp & Hz). intros [= <-].
  exists (names (components p)). pose proof (names_proper p) as Hn.
  rewrite collect_components by done. split_and!; [done..|by apply components_rooted|].
  unfold rooted. intros [?|Hb]%elem_of_cons; [done|].
  apply join_parts_elem in Hb as [?|(part & Hpart & Hb)]; [done|]. apply Hz. by eapply names_elem.
Qed.

(** ** Protected trees *)
Lemma starts_with_true p q : starts_with p q = true ↔ components q `prefix_of` components p.
Proof. apply bool_decide_eq_true. Qed.
Lemma overlaps_iff p q : overlaps p q = true ↔ ∃ x, starts_with x p = true ∧ starts_with x q = true.
Proof.
  unfold overlaps. rewrite orb_true_iff. split.
  - intros [H|H]; [exists p|exists q]; (split; [|done]) || (split; [done|]); by apply starts_with_true.
  - intros (x & Hp%starts_with_true & Hq%starts_with_true). rewrite !starts_with_true.
    destruct (prefix_weak_total _ _ _ Hp Hq); auto.
Qed.

Lemma validate_disjoint path private protected x : validate path private = Ok tt →
  protected ∈ protected_paths ++ private → starts_with x path = true → starts_with x protected = true → False.
Proof.
  unfold validate. destruct (List.find _ _) as [q|] eqn:Hf; [done|]. intros _ Hq Hp Hx.
  assert (overlaps path protected = false) as Ho by by eapply find_None_elem in Hf.
  assert (overlaps path protected = true) as Ht by (apply overlaps_iff; by exists x). congruence.
Qed.

(** A path passes [validate] exactly when no path at all lies both under
    it and under a protected tree or private directory: a grant can neither
    expose one of them nor cover an ancestor of one. *)
Theorem validated_paths_share_no_tree path private :
  validate path private = Ok tt ↔
  ∀ protected x, protected ∈ protected_paths ++ private →
    starts_with x path = true → starts_with x protected = true → False.
Proof.
  split; [intros Hv protected x; by apply validate_disjoint|].
  unfold validate. destruct (List.find _ _) as [q|] eqn:Hf; [|done].
  intros H. apply List.find_some in Hf as [Hq Ho%overlaps_iff].
  destruct Ho as (x & Hp & Hx). exfalso. eapply H; [|done..]. by apply list_elem_of_In.
Qed.
