(* ===== verification/Config.v ===== *)
(** * Configurations

    [libs/runtime/src/config.rs]: command templates and attach handlers, and
    [libs/runtime/src/config/manifest.rs]: the checks of a manifest and the
    selection of a configuration for a launch. Reading the file and its JSON
    is not modelled; a manifest is the data [read] returns. *)
From S2P Require Import Prelude Json Grammar Framing FramingFacts Text Paths Binds.
From Stdlib Require Import Ascii.

(** ** Templates *)
Definition ATTACH_PID : string := "attach.pid".

Section substitute.
(** The state of the [FnMut] that gives the values. *)
Context {S : Type}.
Local Abbreviation V := (M S string Bytes).
Variable element : Bytes.
Variable attach : bool.
Variable value : Bytes → V.

Definition valid_key (key : Bytes) : bool :=
  variable_key (text key) || attach && string_eqb (text key) ATTACH_PID.
Definition invalid_placeholder : string :=
  "command element '" +:+ text element +:+ "' has an invalid placeholder".
Definition unmatched_brace : string :=
  "command element '" +:+ text element +:+ "' has an unmatched '}'".
(** The loop over the characters; the braces are ASCII, so bytes split like
    characters. Every round consumes a byte ([substitute_loop_enough]). *)
Fixpoint substitute_loop (fuel : nat) (chars argument : Bytes) : V :=
  match chars with
  | [] => mret argument
  | c :: rest =>
      match fuel with
      | O => λ s, (Panic, s)
      | Datatypes.S fuel =>
          if is_byte c OPEN_BRACE then
            match rest with
            | d :: rest' =>
                if is_byte d OPEN_BRACE then substitute_loop fuel rest' (argument ++ [OPEN_BRACE])
                else match split_first CLOSE_BRACE rest with
                     | Some (key, rest) =>
                         if valid_key key then
                           v ← value key; substitute_loop fuel rest (argument ++ v)
                         else throw invalid_placeholder
                     | None => throw invalid_placeholder
                     end
            | [] => throw invalid_placeholder
            end
          else if is_byte c CLOSE_BRACE then
            match rest with
            | d :: rest' =>
                if is_byte d CLOSE_BRACE then substitute_loop fuel rest' (argument ++ [CLOSE_BRACE])
                else throw unmatched_brace
            | [] => throw unmatched_brace
            end
          else substitute_loop fuel rest (argument ++ [c])
      end
  end.
Definition substitute_element : V := substitute_loop (length element) element [].
End substitute.

Fixpoint substitute {S} (attach : bool) (value : Bytes → M S string Bytes) (template : list Bytes) :
    M S string (list Bytes) :=
  match template with
  | [] => mret []
  | element :: template =>
      argument ← substitute_element element attach value;
      arguments ← substitute attach value template;
      mret (argument :: arguments)
  end.

Definition recorded (variables : gmap string Bytes) (key : string) : res string Bytes :=
  value ← res_ok_or (variables !! key) ("variable '" +:+ key +:+ "' is not recorded");
  if has_prefix [hyphen] value then Err ("variable '" +:+ key +:+ "' starts with '-'") else Ok value.
(** A closure that only reads. *)
Definition reading (f : string → res string Bytes) (key : Bytes) : M unit string Bytes := lift (f (text key)).
Definition resume_arguments (template : list Bytes) (variables : gmap string Bytes) : res string (list Bytes) :=
  outcome_of (substitute false (reading (recorded variables)) template) tt.
Definition handler_value (variables : gmap string Bytes) (pid : option Z) (key : string) : res string Bytes :=
  if string_eqb key ATTACH_PID then res_ok_or ((λ p, bytes (pretty p)) <$> pid) "no attached client"
  else recorded variables key.
Definition handler_arguments (template : list Bytes) (variables : gmap string Bytes) (pid : option Z) :
    res string (list Bytes) :=
  outcome_of (substitute true (reading (handler_value variables pid)) template) tt.
(** The closure collects the names; an error of the template is dropped. *)
Definition collect_name (key : Bytes) : M (list string) string Bytes :=
  _ ← (if variable_key (text key) then modify (λ names, names ++ [text key]) else mret tt); mret [].
Definition placeholders (template : list Bytes) : list string :=
  state_of (substitute true collect_name template) [].

Record OnAttach := mkOnAttach { command : list Bytes; oa_timeout : N; wait_for : list string }.
(** [Vec::dedup]: consecutive repeats. *)
Fixpoint dedup (l : list string) : list string :=
  match l with
  | a :: l' => match l' with
               | b :: _ => if string_eqb a b then dedup l' else a :: dedup l'
               | [] => [a]
               end
  | [] => []
  end.
Definition needs (o : OnAttach) : list string :=
  dedup (merge_sort String.le (placeholders (command o) ++ wait_for o)).
Record Handlers := mkHandlers { on_attach : OnAttach; on_detach : option (list Bytes) }.

Definition template_ok (command : list Bytes) : bool :=
  negb (bool_decide (command = [])) &&
  match outcome_of (substitute true (reading (λ key, Ok (bytes key))) command) tt with
  | Ok _ => true | _ => false
  end.
Definition Handlers_check (o : OnAttach) (detach : option (list Bytes)) : res string unit :=
  if negb (template_ok (command o)) || negb (within 1 3600 (oa_timeout o)) ||
     negb (forallb variable_key (wait_for o)) ||
     match detach with Some d => negb (template_ok d) | None => false end
  then Err "invalid onAttach or onDetach" else Ok tt.

(** ** Manifests *)
Definition MAX_RUN_TARGETS : N := 64.
Record Docker := mkDocker { daemon : Bytes; client : option Bytes; enabled : bool }.
Record ScopeDefinition := mkScopeDefinition {
  persistent : bool; pid : bool; storage : list string; sd_docker : bool }.
Record Scope := mkScope { s_name : string; definition : ScopeDefinition; mounts : gmap string Bytes }.
Record Editor := mkEditor { e_kind : string; e_command : string }.
#[export] Instance Editor_eq_dec : EqDecision Editor.
Proof. solve_decision. Defined.

#[warnings="-register-all"]
Inductive Configuration := mkConfiguration {
  description : string;
  network : bool;
  build_spec : Bytes;
  args : list string;
  resume_command : option (list Bytes);
  c_on_attach : option OnAttach;
  c_on_detach : option (list Bytes);
  env : gmap string string;
  client_package : Bytes;
  helper : Bytes;
  flake : string;
  sandbox_etc : gmap string Bytes;
  dev_shell_sandbox_etc : gmap string Bytes;
  integration : option string;
  docker : option Docker;
  host_commands : bool;
  bypass_permissions : bool;
  scope : option string;
  allowed_scopes : list string;
  scope_storage : gmap string Bytes;
  scopes : gmap string Configuration;
  allowed_run_targets : list string;
  selected_scope : option Scope }.
Definition set_selected_scope (s : Scope) (c : Configuration) : Configuration :=
  mkConfiguration (description c) (network c) (build_spec c) (args c) (resume_command c)
    (c_on_attach c) (c_on_detach c) (env c) (client_package c) (helper c) (flake c) (sandbox_etc c)
    (dev_shell_sandbox_etc c) (integration c) (docker c) (host_commands c) (bypass_permissions c)
    (scope c) (allowed_scopes c) (scope_storage c) (scopes c) (allowed_run_targets c) (Some s).
Record Manifest := mkManifest {
  api : N; helper_api : N; goblins : gmap string Configuration;
  m_scopes : gmap string ScopeDefinition; m_editor : option Editor }.

Definition editor (m : Manifest) : res string (option Editor) :=
  match m_editor m with
  | Some e => if negb (string_eqb (e_kind e) "emacs") || string_eqb (e_command e) "" ||
                 contains (ascii_of_N 0) (bytes (e_command e))
              then Err "invalid editor configuration" else Ok (Some e)
  | None => Ok None
  end.

Definition check_scope (kv : string * ScopeDefinition) : res string unit :=
  if negb (scope_name kv.1) || existsb (λ s, negb (scope_name s)) (storage kv.2)
  then Err "invalid scope catalog" else Ok tt.
Definition check_handlers (name : string) (c : Configuration) : res string unit :=
  match c_on_attach c with
  | Some o => map_err (λ e, e +:+ " for '" +:+ name +:+ "'") (Handlers_check o (c_on_detach c))
  | None => match c_on_detach c with
            | Some _ => Err ("onDetach without onAttach for '" +:+ name +:+ "'")
            | None => Ok tt
            end
  end.
(** [for a in l { f(a)?; }] without state. *)
Fixpoint each {A} (f : A → res string unit) (l : list A) : res string unit :=
  match l with [] => Ok tt | a :: l => _ ← f a; each f l end.
Definition check_goblin (kv : string * Configuration) : res string unit :=
  let '(name, c) := kv in
  _ ← each (check_handlers name) (c :: values (scopes c));
  if (MAX_RUN_TARGETS <? lenN (allowed_run_targets c))%N || negb (forallb identifier (allowed_run_targets c))
  then Err ("invalid allowed_run_targets for '" +:+ name +:+ "': at most " +:+ show MAX_RUN_TARGETS +:+
            " names of at most 64 characters")
  else Ok tt.
Definition check (m : Manifest) : res string unit :=
  if negb (api m =? 2)%N || negb (helper_api m =? 6)%N then Err "incompatible manifest/helper API"
  else _ ← each check_scope (entries (m_scopes m)); each check_goblin (entries (goblins m)).
(** [validate] after reading the file. *)
Definition validate_manifest (m : Manifest) : res string Manifest :=
  _ ← check m; _ ← editor m; Ok m.

(** [names.join(", ")]. *)
Definition comma_join : list string → string := String.concat ", ".

Section resolve.
Variable host_env : Bytes → option Bytes.

Definition mount (d : ScopeDefinition) (mounts : gmap string Bytes) (kv : string * Bytes) :
    res string (gmap string Bytes) :=
  path ← expand host_env kv.2;
  if negb (bool_decide (kv.1 ∈ storage d)) || negb (bool_decide (is_Some (parent path)))
  then Err ("invalid scope storage mount '" +:+ kv.1 +:+ "'")
  else _ ← validate path []; Ok (<[kv.1 := path]> mounts).
Fixpoint mount_all (d : ScopeDefinition) (mounts : gmap string Bytes) (l : list (string * Bytes)) :
    res string (gmap string Bytes) :=
  match l with [] => Ok mounts | kv :: l => mounts ← mount d mounts kv; mount_all d mounts l end.

Definition permitted (c : Configuration) : list string := option_list (scope c) ++ allowed_scopes c.
(** Indexing [manifest.scopes] and the [unwrap] after it panic on a missing
    scope. *)
Definition resolve (m : Manifest) (name : string) (c : Configuration) (sc : option string) :
    res string Configuration :=
  if existsb (λ s, negb (bool_decide (is_Some (m_scopes m !! s))) || negb (bool_decide (is_Some (scopes c !! s))))
       (permitted c)
  then Err "configuration references an undeclared scope"
  else match (match sc with Some s => Some s | None => scope c end) with
  | None =>
      if bool_decide (scope_storage c = ∅) then Ok c else Err "scope storage requires a scope"
  | Some selected =>
      if negb (bool_decide (selected ∈ permitted c)) then
        Err ("scope '" +:+ selected +:+ "' is not allowed for '" +:+ name +:+ "'; allowed: " +:+
             comma_join (permitted c))
      else match m_scopes m !! selected, scopes c !! selected with
      | Some d, Some variant =>
          mounts ← mount_all d ∅ (entries (scope_storage variant));
          Ok (set_selected_scope (mkScope selected d mounts) variant)
      | _, _ => Panic
      end
  end.
Definition set_goblins (g : gmap string Configuration) (m : Manifest) : Manifest :=
  mkManifest (api m) (helper_api m) g (m_scopes m) (m_editor m).
Definition select (m : Manifest) (name : string) (sc : option string) : res string Configuration :=
  _ ← check m;
  c ← res_ok_or (goblins m !! name) ("unknown goblin; available: " +:+ comma_join (keys (goblins m)));
  resolve (set_goblins (delete name (goblins m)) m) name c sc.
Definition run_targets (m : Manifest) (name : string) : list string :=
  match goblins m !! name with Some c => allowed_run_targets c | None => [] end.
Definition select_inherited (m : Manifest) (name : string) (sc : option string) : res string Configuration :=
  c ← res_ok_or (goblins m !! name) ("unknown goblin '" +:+ name +:+ "'");
  match sc, scope c with
  | None, Some required =>
      Err ("'" +:+ name +:+ "' requires scope '" +:+ required +:+ "'; its owner has no scope")
  | Some s, default =>
      if negb (opt_string_eqb default (Some s)) && negb (bool_decide (s ∈ allowed_scopes c))
      then Err ("'" +:+ name +:+ "' does not allow scope '" +:+ s +:+ "'")
      else resolve m name c sc
  | None, None => resolve m name c sc
  end.
End resolve.
