(* ===== verification/ConfigSpec.v ===== *)
(** * Configurations: the theorems

    Templates against a grammar of literal bytes and placeholders; checked
    attach handlers that cannot fail for a variable the attach waited for; and
    what a selected configuration may contain. *)
From S2P Require Import Prelude Json Grammar Framing FramingFacts Text Paths Binds BindsSpec Config.
From Stdlib Require Import Ascii.

(** ** The grammar of a template element *)
Inductive Token := Char (b : ascii) | Hole (key : Bytes).
Definition brace (b : ascii) : bool := is_byte b OPEN_BRACE || is_byte b CLOSE_BRACE.
Definition print_token (t : Token) : Bytes :=
  match t with
  | Char b => if brace b then [b; b] else [b]
  | Hole key => OPEN_BRACE :: key ++ [CLOSE_BRACE]
  end.
Definition print_element (ts : list Token) : Bytes := concat (print_token <$> ts).
Definition good_token (attach : bool) (t : Token) : Prop :=
  match t with Char _ => True | Hole key => valid_key attach key = true end.
Definition holes (ts : list Token) : list Bytes :=
  omap (λ t, match t with Hole key => Some key | Char _ => None end) ts.

(** Fill the placeholders in order. *)
Fixpoint fill {S} (value : Bytes → M S string Bytes) (ts : list Token) : M S string Bytes :=
  match ts with
  | [] => mret []
  | Char b :: ts => v ← fill value ts; mret (b :: v)
  | Hole key :: ts => w ← value key; v ← fill value ts; mret (w ++ v)
  end.

Lemma brace_false b : b ≠ OPEN_BRACE → b ≠ CLOSE_BRACE → brace b = false.
Proof. intros. unfold brace. by rewrite (is_byte_ne b OPEN_BRACE), (is_byte_ne b CLOSE_BRACE). Qed.
Lemma valid_key_bytes attach key b : valid_key attach key = true → b ∈ key → brace b = false.
Proof.
  intros Hk Hb. unfold valid_key in Hk. apply orb_true_iff in Hk as [Hk|Hk].
  - unfold variable_key in Hk. rewrite bytes_text in Hk. apply andb_true_iff in Hk as [_ Hk].
    destruct key as [|c key]; [by apply not_elem_of_nil in Hb|]. cbn in Hk. apply andb_true_iff in Hk as [Hc Hk].
    rewrite forallb_forall in Hk. apply elem_of_cons in Hb as [->|Hb%list_elem_of_In%Hk].
    + apply brace_false; intros ->; by vm_compute in Hc.
    + apply brace_false; intros ->; by vm_compute in Hb.
  - apply andb_true_iff in Hk as [_ Hk%bool_decide_eq_true]. apply (f_equal bytes) in Hk. rewrite bytes_text in Hk.
    subst key. unfold ATTACH_PID in Hb. cbn in Hb.
    repeat (apply elem_of_cons in Hb as [->|Hb]; [done|]). by apply not_elem_of_nil in Hb.
Qed.
Lemma valid_key_no_close attach key : valid_key attach key = true → CLOSE_BRACE ∉ key.
Proof. intros Hk Hc. by apply (valid_key_bytes attach key) in Hc. Qed.
Lemma valid_key_head attach key r d rest : valid_key attach key = true → key ++ CLOSE_BRACE :: r = d :: rest →
  is_byte d OPEN_BRACE = false.
Proof.
  intros Hk Heq. destruct key as [|c key]; cbn in Heq; injection Heq as <- <-; [done|].
  assert (brace c = false) as Hc by (eapply valid_key_bytes; [done|by left]).
  unfold brace in Hc. by apply orb_false_iff in Hc as [? _].
Qed.

Section loop.
Context {S : Type}.
Variables (element : Bytes) (attach : bool) (value : Bytes → M S string Bytes).
Local Abbreviation loop := (substitute_loop element attach value).

Lemma bind_assoc {A B C} (m : M S string A) (f : A → M S string B) (g : B → M S string C) s :
  ((m ≫= f) ≫= g) s = (m ≫= (λ a, f a ≫= g)) s.
Proof. unfold mbind, M_bind. destruct (m s) as [[a|e|] s']; done. Qed.
Lemma bind_cong {A B} (m : M S string A) (f g : A → M S string B) s :
  (∀ a s', f a s' = g a s') → (m ≫= f) s = (m ≫= g) s.
Proof. intros H. unfold mbind, M_bind. destruct (m s) as [[a|e|] s']; [apply H|done..]. Qed.

Lemma loop_print ts n arg s : Forall (good_token attach) ts → (length (print_element ts) <= n)%nat →
  loop n (print_element ts) arg s = (v ← fill value ts; mret (arg ++ v)) s.
Proof.
  intros Hts. revert n arg s. induction Hts as [|t ts Ht _ IH]; intros n arg s Hn.
  { destruct n; cbn; unfold mbind, M_bind, mret, M_ret; cbn; by rewrite app_nil_r. }
  assert (∀ m b, (length (print_element ts) <= m)%nat →
    loop m (print_element ts) (arg ++ [b]) s = (v ← fill value (Char b :: ts); mret (arg ++ v)) s) as Hchar.
  { intros m b Hm. rewrite IH by done. cbn [fill]. rewrite bind_assoc. apply bind_cong. intros v s'. cbn.
    by rewrite <- app_assoc. }
  unfold print_element in *. cbn [fmap list_fmap concat] in *.
  destruct t as [b|key]; cbn [print_token] in *.
  - unfold brace in *. destruct (is_byte b OPEN_BRACE) eqn:Ho; [|destruct (is_byte b CLOSE_BRACE) eqn:Hc]; cbn [orb app] in *.
    + destruct n as [|n]; [cbn in Hn; lia|]. cbn [substitute_loop]. rewrite Ho.
      apply Ascii.eqb_eq in Ho as ->. apply Hchar. cbn in Hn. lia.
    + destruct n as [|n]; [cbn in Hn; lia|]. cbn [substitute_loop]. rewrite Ho, Hc.
      apply Ascii.eqb_eq in Hc as ->. apply Hchar. cbn in Hn. lia.
    + destruct n as [|n]; [cbn in Hn; lia|]. cbn [substitute_loop]. rewrite Ho, Hc. apply Hchar. cbn in Hn. lia.
  - cbn in Ht. cbn [app]. cbn [app] in Hn. rewrite <- app_assoc. cbn [app]. rewrite <- app_assoc in Hn. cbn [app] in Hn. destruct n as [|n]; [cbn in Hn; lia|].
    cbn [substitute_loop]. rewrite is_byte_refl.
    destruct (key ++ CLOSE_BRACE :: concat (print_token <$> ts)) as [|d rest] eqn:Hd; [by destruct key|].
    rewrite (valid_key_head _ _ _ _ _ Ht Hd), <- Hd.
    rewrite split_first_at by by eapply valid_key_no_close. rewrite Ht. cbn [fill]. rewrite bind_assoc.
    apply bind_cong. intros w s'. rewrite IH.
    2: { rewrite <- Hd in Hn. cbn in Hn. rewrite length_app in Hn. cbn in Hn. lia. }
    rewrite bind_assoc. apply bind_cong. intros v s''. cbn. by rewrite <- app_assoc.
Qed.

(** A loop that returns has read an element of the grammar. *)
Lemma loop_inv n chars arg s a : outcome_of (loop n chars arg) s = Ok a →
  ∃ ts, Forall (good_token attach) ts ∧ chars = print_element ts.
Proof.
  revert chars arg s. induction n as [|n IH]; intros chars arg s.
  { destruct chars; [by exists []|done]. }
  destruct chars as [|c rest]; [by exists []|]. cbn [substitute_loop].
  assert (∀ t r, good_token attach t → (∃ ts, Forall (good_token attach) ts ∧ r = print_element ts) →
    ∃ ts, Forall (good_token attach) ts ∧ print_token t ++ r = print_element ts) as Hcons.
  { intros t r Ht (ts & Hts & ->). exists (t :: ts). split; [by constructor|done]. }
  destruct (is_byte c OPEN_BRACE) eqn:Ho.
  - apply Ascii.eqb_eq in Ho as ->. destruct rest as [|d rest]; [done|].
    destruct (is_byte d OPEN_BRACE) eqn:Hd.
    + apply Ascii.eqb_eq in Hd as ->. intros H%IH. by apply (Hcons (Char OPEN_BRACE)).
    + destruct (split_first CLOSE_BRACE (d :: rest)) as [[key r]|] eqn:Hs; [|done].
      destruct (valid_key attach key) eqn:Hk; [|done]. apply split_first_Some in Hs as [-> _].
      unfold outcome_of, mbind, M_bind. destruct (value key s) as [[w|e|] s']; [|done..].
      intros H%IH. apply (Hcons (Hole key)) in H; [|done]. cbn in H. by rewrite <- app_assoc in H.
  - destruct (is_byte c CLOSE_BRACE) eqn:Hc.
    + apply Ascii.eqb_eq in Hc as ->. destruct rest as [|d rest]; [done|].
      destruct (is_byte d CLOSE_BRACE) eqn:Hd; [|done].
      apply Ascii.eqb_eq in Hd as ->. intros H%IH. by apply (Hcons (Char CLOSE_BRACE)).
    + intros H%IH. apply (Hcons (Char c)) in H; [|done]. cbn in H. unfold brace in H. by rewrite Ho, Hc in H.
Qed.
(** The loop never needs more rounds than there are characters. *)
Lemma substitute_loop_enough n chars arg s : (∀ key s, outcome_of (value key) s ≠ Panic) →
  (length chars <= n)%nat → outcome_of (loop n chars arg) s ≠ Panic.
Proof.
  intros Hval. revert chars arg s. induction n as [|n IH]; intros chars arg s Hn.
  { by destruct chars; [|cbn in Hn; lia]. }
  destruct chars as [|c rest]; [done|]. cbn in Hn. cbn [substitute_loop].
  destruct (is_byte c OPEN_BRACE).
  - destruct rest as [|d rest]; [done|]. destruct (is_byte d OPEN_BRACE); [apply IH; cbn in Hn; lia|].
    destruct (split_first CLOSE_BRACE (d :: rest)) as [[key r]|] eqn:Hs; [|done].
    destruct (valid_key attach key); [|done]. apply split_first_Some in Hs as [Hs _].
    apply (f_equal length) in Hs. rewrite length_app in Hs. cbn in Hs, Hn.
    specialize (Hval key s). unfold outcome_of, mbind, M_bind in *.
    destruct (value key s) as [[w|e|] s']; [apply IH; lia|done..].
  - destruct (is_byte c CLOSE_BRACE); [|apply IH; lia].
    destruct rest as [|d rest]; [done|]. destruct (is_byte d CLOSE_BRACE); [apply IH; cbn in Hn; lia|done].
Qed.
End loop.

Lemma bind_ret {S A} (m : M S string A) s : (a ← m; mret a) s = m s.
Proof. unfold mbind, M_bind. destruct (m s) as [[a|e|] s']; done. Qed.
Lemma element_print {S} attach (value : Bytes → M S string Bytes) ts s : Forall (good_token attach) ts →
  substitute_element (print_element ts) attach value s = fill value ts s.
Proof. intros Hts. unfold substitute_element. rewrite loop_print by done. apply bind_ret. Qed.

Fixpoint fill_all {S} (value : Bytes → M S string Bytes) (tss : list (list Token)) : M S string (list Bytes) :=
  match tss with
  | [] => mret []
  | ts :: tss => a ← fill value ts; l ← fill_all value tss; mret (a :: l)
  end.
Definition good_template (attach : bool) (tss : list (list Token)) : Prop := Forall (Forall (good_token attach)) tss.

Lemma bind_start {S A B} (m m' : M S string A) (f : A → M S string B) s : m s = m' s → (m ≫= f) s = (m' ≫= f) s.
Proof. intros H. unfold mbind, M_bind. by rewrite H. Qed.
Lemma template_print {S} attach (value : Bytes → M S string Bytes) tss s : good_template attach tss →
  substitute attach value (print_element <$> tss) s = fill_all value tss s.
Proof.
  intros Hg. revert s. induction Hg as [|ts tss Hts _ IH]; intros s; [done|]. cbn [fmap list_fmap substitute fill_all].
  rewrite (bind_start _ (fill value ts)) by by apply element_print.
  apply bind_cong. intros a s'. by apply bind_start.
Qed.
Lemma template_inv {S} attach (value : Bytes → M S string Bytes) template s args :
  outcome_of (substitute attach value template) s = Ok args →
  ∃ tss, good_template attach tss ∧ template = print_element <$> tss.
Proof.
  revert s args. induction template as [|e template IH]; intros s args; [intros _; exists []; split; [constructor|done]|].
  cbn [substitute]. unfold outcome_of, mbind, M_bind.
  destruct (substitute_element e attach value s) as [[a|err|] s'] eqn:He; [|done..].
  destruct (substitute attach value template s') as [[l|err|] s''] eqn:Hl; [|done..]. intros _.
  destruct (IH s' l) as (tss & Hg & ->); [by unfold outcome_of; rewrite Hl|].
  destruct (loop_inv e attach value (length e) e [] s a) as (ts & Hts & ->).
  { unfold outcome_of. unfold substitute_element in He. by rewrite He. }
  exists (ts :: tss). split; [by constructor|done].
Qed.

(** The filled element when the values are only read. *)
Fixpoint filled (f : string → res string Bytes) (ts : list Token) : res string Bytes :=
  match ts with
  | [] => Ok []
  | Char b :: ts => v ← filled f ts; Ok (b :: v)
  | Hole key :: ts => w ← f (text key); v ← filled f ts; Ok (w ++ v)
  end.
Lemma fill_reading f ts : fill (reading f) ts tt = (filled f ts, tt).
Proof.
  induction ts as [|[b|key] ts IH]; [done|..]; cbn [fill filled]; unfold mbind, M_bind.
  - rewrite IH. by destruct (filled f ts).
  - change (reading f key tt) with (f (text key), tt). destruct (f (text key)); [|done..].
    rewrite IH. by destruct (filled f ts).
Qed.
Lemma fill_all_reading f tss args : outcome_of (fill_all (reading f) tss) tt = Ok args ↔
  Forall2 (λ ts a, filled f ts = Ok a) tss args.
Proof.
  revert args. induction tss as [|ts tss IH]; intros args; cbn [fill_all].
  { split; [by intros [= <-]|by intros ->%Forall2_nil_inv_l]. }
  unfold outcome_of, mbind, M_bind in *. rewrite fill_reading.
  destruct (filled f ts) as [a|e|] eqn:Hf.
  - destruct (fill_all (reading f) tss tt) as [[l|e|] []]; cbn in *;
      split; try done; try by intros (a' & l' & Ha & Hl'%IH & ->)%Forall2_cons_inv_l.
    + intros [= <-]. constructor; [done|]. by apply IH.
    + intros (a' & l' & Ha & Hl'%IH & ->)%Forall2_cons_inv_l. congruence.
  - split; [done|]. intros (a' & l' & Ha & _)%Forall2_cons_inv_l. congruence.
  - split; [done|]. intros (a' & l' & Ha & _)%Forall2_cons_inv_l. congruence.
Qed.
Lemma substitute_reading attach f template args :
  outcome_of (substitute attach (reading f) template) tt = Ok args ↔
  ∃ tss, good_template attach tss ∧ template = print_element <$> tss ∧
         Forall2 (λ ts a, filled f ts = Ok a) tss args.
Proof.
  split.
  - intros H. destruct (template_inv _ _ _ _ _ H) as (tss & Hg & ->). exists tss. split_and!; [done..|].
    apply fill_all_reading. unfold outcome_of in *. by rewrite template_print in H.
  - intros (tss & Hg & -> & Ha%fill_all_reading). unfold outcome_of in *. by rewrite template_print.
Qed.
Lemma filled_ok f ts : (∀ key, key ∈ holes ts → ∃ v, f (text key) = Ok v) → ∃ a, filled f ts = Ok a.
Proof.
  induction ts as [|[b|key] ts IH]; intros Hk; [by eexists| |].
  - destruct IH as [v Hv]; [done|]. exists (b :: v). cbn. by rewrite Hv.
  - destruct IH as [v Hv]; [intros k ?; apply Hk; by right|].
    destruct (Hk key) as [w Hw]; [by left|]. exists (w ++ v). cbn. by rewrite Hw, Hv.
Qed.

(** A resumed command is its template with the recorded variables in
    place of the placeholders, element by element: the arguments are those and
    no others exactly when every element follows the grammar of literal bytes,
    doubled braces and named placeholders, and every variable has a value that
    does not look like an option. *)
Theorem resume_fills_the_template template variables args :
  resume_arguments template variables = Ok args ↔
  ∃ tss, good_template false tss ∧ template = print_element <$> tss ∧
         Forall2 (λ ts a, filled (recorded variables) ts = Ok a) tss args.
Proof. apply substitute_reading. Qed.

Lemma recorded_head variables key v : recorded variables key = Ok v → head v ≠ Some hyphen.
Proof.
  unfold recorded. destruct (variables !! key) as [w|]; [|done]. cbn.
  destruct (has_prefix [hyphen] w) eqn:Hp; [done|]. intros [= ->]. destruct v as [|b v]; [done|].
  intros [= ->]. unfold has_prefix in Hp. by rewrite strip_one in Hp.
Qed.
Lemma print_char b ts : ∃ r, print_element (Char b :: ts) = b :: r.
Proof. unfold print_element. cbn. destruct (brace b); eexists; reflexivity. Qed.

(** A recorded variable can never turn an argument of a resumed command
    into an option: when no recorded value is empty, an argument starts with
    [-] only if its template element does. *)
Theorem variables_never_make_options template variables args i a e :
  (∀ key v, variables !! key = Some v → v ≠ []) →
  resume_arguments template variables = Ok args →
  args !! i = Some a → template !! i = Some e → head a = Some hyphen → head e = Some hyphen.
Proof.
  intros Hne (tss & _ & -> & Hf)%substitute_reading Ha He Hh.
  rewrite list_lookup_fmap in He. destruct (tss !! i) as [ts|] eqn:Hts; [|done]. injection He as <-.
  assert (filled (recorded variables) ts = Ok a) as Hfa by by eapply Forall2_lookup_lr in Hf.
  destruct ts as [|[b|key] ts]; cbn in Hfa; [injection Hfa as <-; done| |].
  - destruct (filled _ ts); [|done..]. injection Hfa as <-. destruct (print_char b ts) as [r ->]. done.
  - destruct (recorded variables (text key)) as [v|e|] eqn:Hr; [|done..]. cbn in Hfa.
    destruct (filled _ ts); [|done..]. injection Hfa as <-. exfalso.
    assert (v ≠ []). { unfold recorded in Hr. destruct (variables !! text key) eqn:Hv; [|done]. cbn in Hr.
      destruct (has_prefix _ _); [done|]. injection Hr as <-. by eapply Hne. }
    apply recorded_head in Hr. by destruct v.
Qed.

(** ** Attach handlers *)
Definition hole_names (ts : list Token) : list string :=
  filter (λ k, variable_key k = true) (text <$> holes ts).

Lemma collect_name_run key names :
  collect_name key names = (Ok [], names ++ if variable_key (text key) then [text key] else []).
Proof. unfold collect_name. destruct (variable_key (text key)); [done|]. cbn. unfold mbind, M_bind. cbn. by rewrite app_nil_r. Qed.
Lemma fill_collect ts names : ∃ v, fill collect_name ts names = (Ok v, names ++ hole_names ts).
Proof.
  revert names. induction ts as [|[b|key] ts IH]; intros names.
  - exists []. unfold hole_names. by rewrite app_nil_r.
  - destruct (IH names) as [v Hv]. exists (b :: v). cbn [fill]. unfold mbind, M_bind. by rewrite Hv.
  - cbn [fill]. unfold hole_names. cbn [holes omap list_omap fmap list_fmap]. rewrite filter_cons.
    unfold mbind at 1, M_bind at 1. rewrite collect_name_run.
    destruct (variable_key (text key)) eqn:Hk.
    + destruct (IH (names ++ [text key])) as [v Hv]. exists v. unfold mbind, M_bind. rewrite Hv.
      rewrite decide_True by done. by rewrite <- app_assoc.
    + destruct (IH names) as [v Hv]. exists v. unfold mbind, M_bind. rewrite app_nil_r, Hv.
      by rewrite decide_False.
Qed.
Lemma fill_all_collect tss names : state_of (fill_all collect_name tss) names = names ++ concat (hole_names <$> tss).
Proof.
  revert names. induction tss as [|ts tss IH]; intros names; [by rewrite app_nil_r|].
  cbn [fill_all]. unfold state_of in *. unfold mbind, M_bind. destruct (fill_collect ts names) as [v ->].
  specialize (IH (names ++ hole_names ts)). rewrite <- app_assoc in IH. cbn [fmap list_fmap concat].
  destruct (fill_all collect_name tss _) as [[l|e|] s']; exact IH.
Qed.
Lemma placeholders_print attach tss : good_template attach tss →
  placeholders (print_element <$> tss) = concat (hole_names <$> tss).
Proof.
  intros Hg. unfold placeholders, state_of. rewrite template_print.
  - apply (fill_all_collect tss []).
  - eapply Forall_impl; [exact Hg|]. intros ts Hts. eapply Forall_impl; [exact Hts|].
    intros [b|key]; [done|]. cbn. unfold valid_key. rewrite !orb_true_iff, !andb_true_iff. naive_solver.
Qed.
Lemma elem_of_dedup k l : k ∈ dedup l ↔ k ∈ l.
Proof.
  induction l as [|a l IH]; [done|]. cbn [dedup]. destruct l as [|b l]; [done|].
  destruct (string_eqb a b) eqn:Hab; [|by rewrite !(elem_of_cons _ k a), IH].
  apply bool_decide_eq_true in Hab as ->. rewrite IH, (elem_of_cons (b :: l)). set_solver.
Qed.
Lemma elem_of_needs k o : k ∈ needs o ↔ k ∈ placeholders (command o) ∨ k ∈ wait_for o.
Proof. unfold needs. by rewrite elem_of_dedup, merge_sort_Permutation, elem_of_app. Qed.
Lemma handler_hole variables p key :
  valid_key true key = true →
  (variable_key (text key) = true → ∃ v, recorded variables (text key) = Ok v) →
  ∃ v, handler_value variables (Some p) (text key) = Ok v.
Proof.
  intros Hk Hr. unfold handler_value. destruct (string_eqb (text key) ATTACH_PID) eqn:Ha; [by eexists|].
  apply Hr. unfold valid_key in Hk. rewrite Ha in Hk. by rewrite andb_false_r, orb_false_r in Hk.
Qed.

(** What an attach waits for: every needed variable has a value that does not
    look like an option. *)
Definition waited (variables : gmap string Bytes) (o : OnAttach) : Prop :=
  ∀ key, key ∈ needs o → ∃ v, variables !! key = Some v ∧ has_prefix [hyphen] v = false.

Lemma recorded_waited variables o key : waited variables o → key ∈ needs o → ∃ v, recorded variables key = Ok v.
Proof. intros Hw (v & Hv & Hp)%Hw. exists v. unfold recorded. rewrite Hv. cbn. by rewrite Hp. Qed.

(** A checked attach handler never fails once the attach has waited: if
    the configuration's check passed and every variable [needs] lists is
    recorded with a value that is not an option, the client's command is built
    for the attached process, with one argument per element. *)
Theorem waited_handlers_are_built o detach variables p :
  Handlers_check o detach = Ok tt → waited variables o →
  ∃ args, handler_arguments (command o) variables (Some p) = Ok args ∧ length args = length (command o) ∧ args ≠ [].
Proof.
  unfold Handlers_check. destruct (template_ok (command o)) eqn:Ht; [|done]. intros _ Hw.
  unfold template_ok in Ht. apply andb_true_iff in Ht as [Hne Ht]. apply negb_true_iff, bool_decide_eq_false in Hne.
  destruct (outcome_of _ tt) as [l|e|] eqn:Hl; [|done..].
  apply substitute_reading in Hl as (tss & Hg & Hcmd & _).
  assert (Forall (λ ts, ∃ a, filled (handler_value variables (Some p)) ts = Ok a) tss) as Hf.
  { apply Forall_forall. intros ts Hts. apply filled_ok. intros key Hkey.
    assert (good_token true (Hole key)) as Hk.
    { eapply Forall_forall in Hg; [|done]. eapply Forall_forall in Hg; [exact Hg|].
      unfold holes in Hkey. apply list_elem_of_omap in Hkey as ([b|k] & Hin & Heq); [done|]. by injection Heq as ->. }
    apply handler_hole; [exact Hk|]. intros Hvk. eapply recorded_waited; [exact Hw|].
    apply elem_of_needs. left. rewrite Hcmd, (placeholders_print true) by done.
    apply list_elem_of_In, in_concat. exists (hole_names ts). split; [by apply list_elem_of_In, list_elem_of_fmap_2|]. apply list_elem_of_In.
    unfold hole_names. apply list_elem_of_filter. split; [done|]. by apply list_elem_of_fmap_2. }
  apply Forall_exists_Forall2_l in Hf as [args Hargs]. exists args.
  assert (handler_arguments (command o) variables (Some p) = Ok args) as ->.
  { apply substitute_reading. by exists tss. }
  rewrite Hcmd, length_fmap. apply Forall2_length in Hargs. split_and!; [done..|].
  intros ->. destruct tss; [by subst|done].
Qed.

(** ** The selected configuration *)
Lemma permitted_scopes m c s : existsb (λ s, negb (bool_decide (is_Some (m_scopes m !! s))) ||
    negb (bool_decide (is_Some (scopes c !! s)))) (permitted c) = false → s ∈ permitted c →
  is_Some (m_scopes m !! s) ∧ is_Some (scopes c !! s).
Proof.
  intros Hp Hs. rewrite <- not_true_iff_false, existsb_exists in Hp.
  split; apply dec_stable; intros Hn; apply Hp; exists s; (split; [by apply list_elem_of_In|]);
    rewrite (bool_decide_eq_false_2 _ Hn); by rewrite ?orb_true_r.
Qed.

(** Where a scope's storage is mounted: canonical names below the root, none
    of whose descendants a protected tree has. *)
Definition sound_mount (path : Bytes) : Prop :=
  (∃ parts, parts ≠ [] ∧ Forall proper parts ∧ path = rooted parts) ∧
  ∀ protected x, protected ∈ protected_paths → starts_with x path = true → starts_with x protected = true → False.

Lemma mount_sound henv d mounts kv mounts' : mount henv d mounts kv = Ok mounts' →
  ∃ path, mounts' = <[kv.1 := path]> mounts ∧ kv.1 ∈ storage d ∧ expand henv kv.2 = Ok path ∧ sound_mount path.
Proof.
  unfold mount. destruct (expand henv kv.2) as [path|e|] eqn:He; [|done..]. cbn [mbind res_bind].
  destruct (bool_decide (kv.1 ∈ storage d)) eqn:Hs; [|done].
  destruct (bool_decide (is_Some (parent path))) eqn:Hp; [|done]. cbn [negb orb].
  destruct (validate path []) as [[]|e|] eqn:Hv; [|done..]. cbn. intros [= <-].
  apply bool_decide_eq_true in Hs, Hp. exists path. split_and!; [done..|]. split.
  - destruct (expand_canonical henv kv.2 path He) as (parts & Hparts & -> & _). exists parts.
    split_and!; [|done..]. intros ->. by destruct Hp.
  - intros protected x Hin. eapply validate_disjoint; [exact Hv|]. by rewrite app_nil_r.
Qed.
Lemma mount_all_sound henv d mounts l mounts' : mount_all henv d mounts l = Ok mounts' →
  ∀ k path, mounts' !! k = Some path → mounts !! k = Some path ∨
    ∃ raw, (k, raw) ∈ l ∧ k ∈ storage d ∧ expand henv raw = Ok path ∧ sound_mount path.
Proof.
  revert mounts. induction l as [|[k raw] l IH]; intros mounts; cbn [mount_all].
  { intros [= ->] k path Hk. by left. }
  destruct (mount henv d mounts (k, raw)) as [mounts1|e|] eqn:Hm; [|done..]. cbn [mbind res_bind].
  apply mount_sound in Hm as (path & -> & Hs & He & Hsound). cbn [fst snd] in *.
  intros Hall k' path' Hk. destruct (IH _ Hall _ _ Hk) as [Hin|(raw' & Hin & Hr)].
  - destruct (decide (k = k')) as [<-|Hne].
    + rewrite lookup_insert_eq in Hin. injection Hin as <-. right. exists raw. split; [by left|done].
    + rewrite lookup_insert_ne in Hin by done. by left.
  - right. exists raw'. split; [by right|done].
Qed.
(** Every declared storage gets its mount. *)
Lemma mount_all_keeps henv d mounts l mounts' : mount_all henv d mounts l = Ok mounts' →
  ∀ k, is_Some (mounts !! k) ∨ k ∈ l.*1 → is_Some (mounts' !! k).
Proof.
  revert mounts. induction l as [|[k raw] l IH]; intros mounts; cbn [mount_all].
  { intros [= ->] k [?|[]%not_elem_of_nil]. done. }
  destruct (mount henv d mounts (k, raw)) as [mounts1|e|] eqn:Hm; [|done..]. cbn [mbind res_bind].
  apply mount_sound in Hm as (path & -> & _). cbn [fst]. intros Hall k' Hk. apply (IH _ Hall).
  destruct (decide (k = k')) as [<-|Hne]; [left; by rewrite lookup_insert_eq|].
  rewrite lookup_insert_ne by done. destruct Hk as [?|[|?]%elem_of_cons]; [by left|done|by right].
Qed.
Lemma mount_all_no_panic henv d mounts l : mount_all henv d mounts l ≠ Panic.
Proof.
  revert mounts. induction l as [|kv l IH]; intros mounts; [done|]. cbn [mount_all].
  unfold mount. pose proof (expand_no_panic henv kv.2). destruct (expand henv kv.2) as [path|e|]; [|done..]. cbn [mbind res_bind].
  destruct (_ || _); [done|]. unfold validate. destruct (List.find _ _); [done|]. cbn. apply IH.
Qed.
Lemma resolve_no_panic henv m name c sc : resolve henv m name c sc ≠ Panic.
Proof.
  unfold resolve. destruct (existsb _ _) eqn:Hp; [done|].
  destruct (match sc with Some s => Some s | None => scope c end) as [s|]; [|by case_bool_decide].
  destruct (bool_decide (s ∈ permitted c)) eqn:Hs; [|done]. cbn [negb]. apply bool_decide_eq_true in Hs.
  destruct (permitted_scopes _ _ _ Hp Hs) as [[d ->] [variant ->]].
  pose proof (mount_all_no_panic henv d ∅ (entries (scope_storage variant))).
  by destruct (mount_all _ _ _ _).
Qed.

(** The launch a scope choice stands for. *)
Definition chosen (c : Configuration) (sc : option string) : option string :=
  match sc with Some s => Some s | None => scope c end.
Definition resolved henv (m : Manifest) (c : Configuration) (sc : option string) (r : Configuration) : Prop :=
  match chosen c sc with
  | None => r = c ∧ scope_storage c = ∅
  | Some s =>
      s ∈ permitted c ∧
      ∃ d variant ms, m_scopes m !! s = Some d ∧ scopes c !! s = Some variant ∧
        r = set_selected_scope (mkScope s d ms) variant ∧ dom ms = dom (scope_storage variant) ∧
        ∀ k path, ms !! k = Some path → k ∈ storage d ∧
          (∃ raw, scope_storage variant !! k = Some raw ∧ expand henv raw = Ok path) ∧ sound_mount path
  end.
Lemma resolve_ok henv m name c sc r : resolve henv m name c sc = Ok r → resolved henv m c sc r.
Proof.
  unfold resolve, resolved, chosen. destruct (existsb _ _) eqn:Hp; [done|].
  destruct (match sc with Some s => Some s | None => scope c end) as [s|].
  2: { case_bool_decide; [|done]. by intros [= ->]. }
  destruct (bool_decide (s ∈ permitted c)) eqn:Hs; [|done]. cbn [negb]. apply bool_decide_eq_true in Hs.
  destruct (permitted_scopes _ _ _ Hp Hs) as [[d Hd] [variant Hv]]. rewrite Hd, Hv.
  destruct (mount_all henv d ∅ _) as [ms|e|] eqn:Hm; [|done..]. intros [= <-]. split; [done|].
  exists d, variant, ms. pose proof (mount_all_sound _ _ _ _ _ Hm) as Hsound.
  assert (∀ k path, ms !! k = Some path → k ∈ storage d ∧
    (∃ raw, scope_storage variant !! k = Some raw ∧ expand henv raw = Ok path) ∧ sound_mount path) as Hall.
  { intros k path [Hk|(raw & Hin & Hst & He & Hso)]%Hsound; [by rewrite lookup_empty in Hk|].
    apply elem_of_entries in Hin. split_and!; [done| |done]. by exists raw. }
  split_and!; [done..| |done]. apply set_eq. intros k. rewrite !elem_of_dom. split.
  - intros [path Hk]. destruct (Hall _ _ Hk) as (_ & (raw & Hraw & _) & _). by exists raw.
  - intros [raw Hraw]. apply (mount_all_keeps _ _ _ _ _ Hm). right. apply elem_of_keys. by exists raw.
Qed.

Lemma each_no_panic {A} (f : A → res string unit) l : (∀ a, f a ≠ Panic) → each f l ≠ Panic.
Proof.
  intros Hf. induction l as [|a l IH]; [done|]. cbn. specialize (Hf a). by destruct (f a).
Qed.
Lemma check_no_panic m : check m ≠ Panic.
Proof.
  unfold check. destruct (_ || _); [done|].
  assert (each check_scope (entries (m_scopes m)) ≠ Panic) as H1.
  { apply each_no_panic. intros kv. unfold check_scope. by destruct (_ || _). }
  destruct (each check_scope _); [|done..]. cbn. apply each_no_panic. intros [name c]. unfold check_goblin.
  assert (each (check_handlers name) (c :: values (scopes c)) ≠ Panic) as H2.
  { apply each_no_panic. intros c'. unfold check_handlers. destruct (c_on_attach c') as [o|]; [|by destruct (c_on_detach c')].
    unfold map_err, Handlers_check. by destruct (_ || _). }
  destruct (each (check_handlers name) _); [|done..]. cbn. by destruct (_ || _).
Qed.

(** C32. A selected configuration holds only what its manifest allows: no
    panic is possible, the goblin exists, and with a scope it is the variant of
    a scope the goblin permits and the manifest declares, mounting exactly the
    variant's storages, each one the scope declares, at the expansion of its
    path, below the root and apart from every protected tree. *)
Theorem selection_stays_within_the_manifest henv m name sc :
  select henv m name sc ≠ Panic ∧
  ∀ r, select henv m name sc = Ok r →
    check m = Ok tt ∧ ∃ c, goblins m !! name = Some c ∧ resolved henv m c sc r.
Proof.
  unfold select. destruct (check m) as [[]|e|] eqn:Hc; cbn [mbind res_bind].
  - destruct (goblins m !! name) as [c|]; [|done]. cbn. split; [apply resolve_no_panic|].
    intros r Hr%resolve_ok. split; [done|]. by exists c.
  - done.
  - exfalso. by apply (check_no_panic m).
Qed.

(** A raid member runs in its owner's scope, or not at all: whatever the
    member's own default scope is, the configuration [select_inherited]
    returns has selected exactly the scope it was asked for, with the mounts of
    that scope, and an owner without a scope gets a member without one. *)
Theorem members_inherit_the_scope henv m name sc :
  (∀ c, goblins m !! name = Some c → selected_scope c = None) →
  select_inherited henv m name sc ≠ Panic ∧
  ∀ r, select_inherited henv m name sc = Ok r →
    s_name <$> selected_scope r = sc ∧
    ∃ c, goblins m !! name = Some c ∧ resolved henv m c sc r ∧ (sc = None → r = c).
Proof.
  intros Hnone. unfold select_inherited. destruct (goblins m !! name) as [c|] eqn:Hg; [|done].
  cbn [res_ok_or mbind res_bind]. specialize (Hnone c eq_refl).
  assert (∀ r, resolve henv m name c sc = Ok r → (sc = None → scope c = None) →
    s_name <$> selected_scope r = sc ∧ ∃ c', Some c = Some c' ∧ resolved henv m c' sc r ∧ (sc = None → r = c')) as H.
  { intros r Hr%resolve_ok Hsc. unfold resolved, chosen in *. destruct sc as [s|].
    - pose proof Hr as (_ & d & variant & ms & _ & _ & -> & _). split; [done|]. by exists c.
    - rewrite Hsc in Hr by done. destruct Hr as [-> Hs]. rewrite Hnone. split; [done|].
      exists c. by rewrite Hsc. }
  destruct sc as [s|], (scope c) as [t|] eqn:Ht; cbn [negb];
    try (destruct (_ && _); [done|]); try done;
    (split; [apply resolve_no_panic|]; intros r Hr; by apply H).
Qed.

(** ** Concrete inputs *)
Definition sample_variables : gmap string Bytes := {["session_id" := bytes "c819"]}.
Definition sample_command : list Bytes := [bytes "resume"; bytes "{session_id}"; bytes "--pid={attach.pid}"; bytes "{{x}}"].
Definition sample_attach : OnAttach := mkOnAttach sample_command 30 ["session_id"].
Lemma variables_never_make_options_witness :
  head (bytes "c819") = Some hyphen → head (bytes "{session_id}") = Some hyphen.
Proof.
  apply (variables_never_make_options [bytes "{session_id}"] sample_variables [bytes "c819"] 0).
  - intros key v. unfold sample_variables. rewrite lookup_singleton_Some. by intros [_ <-].
  - by vm_compute.
  - done.
  - done.
Defined.
Lemma waited_handlers_are_built_witness :
  ∃ args, handler_arguments sample_command sample_variables (Some 42%Z) = Ok args ∧
          length args = 4%nat ∧ args ≠ [].
Proof.
  apply (waited_handlers_are_built sample_attach None sample_variables 42).
  - by vm_compute.
  - intros key Hkey. assert (needs sample_attach = ["session_id"]) as Hn by by vm_compute.
    rewrite Hn in Hkey. apply list_elem_of_singleton in Hkey as ->. exists (bytes "c819"). by vm_compute.
Defined.

Definition plain_configuration : Configuration :=
  mkConfiguration "member" false [] [] None None None ∅ [] [] "" ∅ ∅ None None false false None [] ∅ ∅ [] None.
Definition storing_configuration : Configuration :=
  mkConfiguration "member in work" false [] [] None None None ∅ [] [] "" ∅ ∅ None None false false None []
    {["cache" := bytes "${CACHE}/data"]} ∅ [] None.
Definition scoped_configuration : Configuration :=
  mkConfiguration "member" false [] [] None None None ∅ [] [] "" ∅ ∅ None None false false (Some "other")
    ["work"] ∅ {["work" := storing_configuration; "other" := plain_configuration]} [] None.
Definition sample_manifest : Manifest :=
  mkManifest 2 6 {["member" := scoped_configuration]}
    {["work" := mkScopeDefinition false true ["cache"] false; "other" := mkScopeDefinition false true [] false]} None.
Definition sample_env (name : Bytes) : option Bytes :=
  if bool_decide (name = bytes "CACHE") then Some (bytes "/home/injected") else None.
Definition selected : Configuration :=
  set_selected_scope (mkScope "work" (mkScopeDefinition false true ["cache"] false)
    {["cache" := bytes "/home/injected/data"]}) storing_configuration.
Lemma selection_stays_within_the_manifest_witness :
  ∃ c, goblins sample_manifest !! "member" = Some c ∧ resolved sample_env sample_manifest c (Some "work") selected.
Proof.
  destruct (selection_stays_within_the_manifest sample_env sample_manifest "member" (Some "work")) as [_ H].
  apply (H selected). by vm_compute.
Defined.
Lemma members_inherit_the_scope_witness : s_name <$> selected_scope selected = Some "work".
Proof.
  destruct (members_inherit_the_scope sample_env sample_manifest "member" (Some "work")) as [_ H].
  - intros c Hc. assert (goblins sample_manifest !! "member" = Some scoped_configuration) as Hs by by vm_compute.
    rewrite Hs in Hc. by injection Hc as <-.
  - apply (H selected). by vm_compute.
Defined.
