(* ===== verification/Policy.v ===== *)
(** * What a goblin may do

    [libs/runtime/src/policy.rs]: the policy of its configuration, the
    features its sandbox implementation supports, the check of an operation
    against both, the launch check and the features announced to a sandbox;
    with what they guarantee together. *)
From S2P Require Import Prelude Json Grammar Framing FramingFacts Text Paths Binds Config.
From stdpp Require Import countable.

Record ScopePolicy := mkScopePolicy { sp_name : string; sp_docker : bool; sp_pid : bool }.
Record DevShellPolicy := mkDevShellPolicy { reference : string; dp_path : Bytes }.
Record Policy := mkPolicy {
  configuration : string;
  p_description : string;
  run_targets : list string;
  p_integration : option string;
  p_bypass_permissions : bool;
  p_editor : option Editor;
  nix : bool;
  p_host_commands : bool;
  p_scope : option ScopePolicy;
  dev_shell : option DevShellPolicy;
  initial_packages : list Bytes;
  handlers : option Handlers }.

Inductive Feature :=
  | LivePackages | DevShells | FlakeApps | NixDaemon | HostJobs | Exec | AttachClients | Scopes
  | SharedPid | FDocker.
#[export] Instance Feature_eq_dec : EqDecision Feature.
Proof. solve_decision. Defined.
Definition all_features : list Feature :=
  [LivePackages; DevShells; FlakeApps; NixDaemon; HostJobs; Exec; AttachClients; Scopes; SharedPid; FDocker].
Definition feature_index (f : Feature) : nat :=
  match f with
  | LivePackages => 0 | DevShells => 1 | FlakeApps => 2 | NixDaemon => 3 | HostJobs => 4 | Exec => 5
  | AttachClients => 6 | Scopes => 7 | SharedPid => 8 | FDocker => 9
  end.
#[export] Program Instance Feature_countable : Countable Feature :=
  inj_countable feature_index (λ n, all_features !! n) _.
Next Obligation. by intros []. Qed.

Definition Support : Type := gset Feature.
Definition linux : Support := list_to_set all_features.
Definition has (s : Support) (f : Feature) : bool := bool_decide (f ∈ s).

(** What [lacks] pushes, in its order. *)
Definition launch_needs (p : Policy) (docker_at_start : bool) : list Feature :=
  (if docker_at_start then [FDocker] else []) ++
  (if nix p then [NixDaemon] else []) ++
  (if p_host_commands p then [HostJobs] else []) ++
  match p_scope p with
  | Some s => Scopes :: if sp_pid s then [SharedPid] else []
  | None => []
  end ++
  match handlers p with Some _ => [AttachClients] | None => [] end ++
  match dev_shell p with Some _ => [DevShells] | None => [] end.
Definition lacks (s : Support) (p : Policy) (docker_at_start : bool) : option Feature :=
  List.find (λ f, negb (has s f)) (launch_needs p docker_at_start).

Inductive Operation :=
  | Package | DevShellRefresh | DevShellDiff | FlakeRun | ODocker | HostCommand | OExec | Attach
  | RunMember (configuration : string).
Inductive Refusal :=
  | RPolicy (code : Z) (message : string)
  | Unsupported (feature : Feature).
#[export] Instance Refusal_eq_dec : EqDecision Refusal.
Proof. solve_decision. Defined.
#[export] Instance res_eq_dec {E A} `{EqDecision E, EqDecision A} : EqDecision (res E A).
Proof. solve_decision. Defined.

Definition NIX_PACKAGES : string :=
  "this goblin has Nix; use nix shell nixpkgs#NAME instead of a package request".
Definition NIX_DEV_SHELL : string :=
  "this goblin has Nix; use nix develop and nix run instead of the Goblins dev shell commands".
Definition no_dev_shell : Refusal := RPolicy (-32602) "this sandbox was not started with a dev shell".

(** The feature an operation needs once the policy allows it; [None] for an
    operation that needs none. *)
Definition needs_dev_shell (p : Policy) (f : Feature) : res Refusal (option Feature) :=
  if nix p then Err (RPolicy (-32602) NIX_DEV_SHELL)
  else match dev_shell p with None => Err no_dev_shell | Some _ => Ok (Some f) end.
Definition run_member (p : Policy) (target : string) : res Refusal (option Feature) :=
  let own := configuration p in
  let targets := run_targets p in
  if bool_decide (targets = []) then
    Err (RPolicy (-32602) ("configuration '" +:+ own +:+ "' permits no run targets"))
  else if negb (existsb (λ t, string_eqb t target) targets) then
    Err (RPolicy (-32602) ("configuration '" +:+ target +:+ "' is not an allowed run target of '" +:+ own +:+
                           "'; allowed: " +:+ comma_join targets))
  else Ok None.
Definition required (p : Policy) (operation : Operation) : res Refusal (option Feature) :=
  match operation with
  | Package => if nix p then Err (RPolicy (-32602) NIX_PACKAGES) else Ok (Some LivePackages)
  | DevShellRefresh | DevShellDiff => needs_dev_shell p DevShells
  | FlakeRun => needs_dev_shell p FlakeApps
  | ODocker =>
      if negb match p_scope p with Some s => sp_docker s | None => false end
      then Err (RPolicy (-32602) "Docker requires a scope with docker.enable")
      else Ok (Some FDocker)
  | HostCommand =>
      if negb (p_host_commands p)
      then Err (RPolicy (-32602) "this goblin may not run host commands (mkGoblin hostCommands.enable)")
      else Ok (Some HostJobs)
  | OExec => Ok (Some Exec)
  | Attach =>
      match handlers p with
      | None => Err (RPolicy (-32009) "no attach handlers")
      | Some _ => Ok (Some AttachClients)
      end
  | RunMember target => run_member p target
  end.
Definition check (p : Policy) (s : Support) (operation : Operation) : res Refusal unit :=
  f ← required p operation;
  match f with
  | None => Ok tt
  | Some f => if has s f then Ok tt else Err (Unsupported f)
  end.

Definition gated (s : Support) (f : Feature) (name : string) : option string :=
  if has s f then Some name else None.
Definition sandbox_features (s : Support) : list string :=
  omap id
    [gated s Scopes "scopes"; gated s FDocker "docker-enable"; gated s LivePackages "package-grants";
     Some "terminal-detach"; Some "sandbox-status"; Some "agent-activity-v1"; Some "agent-inbox-v1";
     gated s FlakeApps "flake-run"; gated s DevShells "devshell-diff"; Some "run-targets"; Some "raids";
     Some "raid-owner"; Some "editor-open"; Some "variables"; gated s HostJobs "host-commands"].

Example linux_features_test : sandbox_features linux =
  ["scopes"; "docker-enable"; "package-grants"; "terminal-detach"; "sandbox-status"; "agent-activity-v1";
   "agent-inbox-v1"; "flake-run"; "devshell-diff"; "run-targets"; "raids"; "raid-owner"; "editor-open";
   "variables"; "host-commands"].
Proof. by vm_compute. Qed.

(** ** What the checks guarantee *)
Lemma has_true s f : has s f = true ↔ f ∈ s.
Proof. apply bool_decide_eq_true. Qed.
Lemma lacks_none s p d f : lacks s p d = None → f ∈ launch_needs p d → has s f = true.
Proof. intros Hl Hf. eapply find_None_elem in Hf; [|exact Hl]. by apply negb_false_iff in Hf. Qed.
Lemma linux_has f : has linux f = true.
Proof. by destruct f; vm_compute. Qed.

(** What an allowed operation needs, the launch has already required: all but
    the features only a request uses. *)
Definition on_request (f : Feature) (docker_at_start : bool) : bool :=
  match f with
  | LivePackages | FlakeApps | Exec => true
  | FDocker => negb docker_at_start
  | _ => false
  end.
Lemma required_at_launch p op f d : required p op = Ok (Some f) → on_request f d = false → f ∈ launch_needs p d.
Proof.
  unfold launch_needs. destruct op; cbn [required]; unfold needs_dev_shell, run_member.
  - destruct (nix p); [done|]. by intros [= <-].
  - destruct (nix p), (dev_shell p); try done. intros [= <-] _. set_solver.
  - destruct (nix p), (dev_shell p); try done. intros [= <-] _. set_solver.
  - destruct (nix p), (dev_shell p); try done. by intros [= <-].
  - destruct (negb _); [done|]. intros [= <-]. cbn. intros ->%negb_false_iff. set_solver.
  - destruct (p_host_commands p); [|done]. intros [= <-] _. set_solver.
  - by intros [= <-].
  - destruct (handlers p); [|done]. intros [= <-] _. set_solver.
  - repeat case_match; done.
Qed.

(** A goblin whose launch the implementation accepted is refused for a
    missing feature only where the launch could not tell: for live packages,
    flake apps, exec, or Docker when it did not attach at the start. Every
    other refusal is the policy's, and Linux never refuses for a feature. *)
Theorem accepted_launches_keep_their_features s p docker_at_start op f :
  lacks s p docker_at_start = None → check p s op = Err (Unsupported f) →
  on_request f docker_at_start = true ∧ has s f = false ∧ s ≠ linux.
Proof.
  unfold check. intros Hl. destruct (required p op) as [[g|]|e|] eqn:Hr; cbn [mbind res_bind]; try done.
  - destruct (has s g) eqn:Hg; [done|]. intros [= <-].
    destruct (on_request g docker_at_start) eqn:Ho.
    + split_and!; [done..|]. intros ->. by rewrite linux_has in Hg.
    + pose proof (required_at_launch _ _ _ _ Hr Ho) as Hin. by rewrite (lacks_none _ _ _ _ Hl Hin) in Hg.
  - intros [= ->]. exfalso. clear Hl. destruct op; cbn in Hr; unfold needs_dev_shell, run_member, no_dev_shell in Hr;
      repeat case_match; done.
Qed.

(** The protocol feature a sandbox loses with each implementation feature. *)
Definition announced (f : Feature) : option string :=
  match f with
  | LivePackages => Some "package-grants" | FDocker => Some "docker-enable"
  | DevShells => Some "devshell-diff" | FlakeApps => Some "flake-run"
  | HostJobs => Some "host-commands" | Scopes => Some "scopes"
  | _ => None
  end.
Lemma has_without s f g : has (s ∖ {[f]}) g = has s g && negb (bool_decide (g = f)).
Proof.
  unfold has. destruct (decide (g = f)) as [->|Hne].
  - rewrite (bool_decide_eq_true_2 (f = f)), andb_false_r by done. apply bool_decide_eq_false_2. set_solver.
  - rewrite (bool_decide_eq_false_2 (g = f)), andb_true_r by done. apply bool_decide_ext. set_solver.
Qed.

(** A missing feature refuses exactly its operations: without [f], an
    operation that was accepted for [f] is refused as unsupported, every other
    answer stays the same, and the sandbox is announced the same features
    less the one that stands for [f]. *)
Theorem missing_features_refuse_their_operations s p f op :
  check p (s ∖ {[f]}) op =
    (if bool_decide (required p op = Ok (Some f)) then Err (Unsupported f) else check p s op) ∧
  sandbox_features (s ∖ {[f]}) = filter (λ n, announced f ≠ Some n) (sandbox_features s).
Proof.
  split.
  - unfold check. destruct (required p op) as [[g|]|e|]; cbn [mbind res_bind];
      [|by rewrite bool_decide_eq_false_2..].
    rewrite has_without. destruct (decide (g = f)) as [->|Hg].
    + by rewrite !bool_decide_eq_true_2, andb_false_r.
    + by rewrite !bool_decide_eq_false_2, andb_true_r by congruence.
  - unfold sandbox_features, gated. rewrite !has_without.
    generalize (has s Scopes), (has s FDocker), (has s LivePackages), (has s FlakeApps),
      (has s DevShells), (has s HostJobs).
    intros [] [] [] [] [] []; destruct f; vm_compute; reflexivity.
Qed.

(** ** Concrete inputs *)
Definition plain_policy : Policy :=
  mkPolicy "shell" "Test shell" ["shell"] None false None false true None None [] None.
Lemma accepted_launches_keep_their_features_witness :
  on_request Exec false = true ∧ has {[HostJobs]} Exec = false ∧ ({[HostJobs]} : Support) ≠ linux.
Proof. apply (accepted_launches_keep_their_features {[HostJobs]} plain_policy false OExec Exec); by vm_compute. Defined.
