(* ===== verification/Terminal.v ===== *)
(** * The raw terminal relay

    [libs/api/src/terminal.rs]: [relay] copies the client's terminal to the
    session and back until the session's stream ends, then [wait_outcome] asks
    for the session's outcome. The terminal modes are not modelled. A round of
    the loop is a value of type [Round]: what the kernel and the daemon answer
    to the calls of that round, in order. *)
From S2P Require Import Prelude Json Grammar Framing FramingFacts Text.
From Stdlib Require Import Ascii.

Definition LIMIT : N := 65536.
Definition READ : N := 8192.
Definition WRITE : N := 1024.
(** [usize] subtraction as a release build computes it. *)
Definition u64_sub (a b : N) : N := ((a + u64_modulus - b) mod u64_modulus)%N.

(** A read into a buffer of [room] bytes gets at most that many; [ReadFailed]
    carries whether the error is [WouldBlock] or [Interrupted]. *)
Inductive ReadAnswer := Data (l : Bytes) | ReadError (retry : bool) (message : string).
Definition read_into (room : N) (l : Bytes) : Bytes := take (N.to_nat room) l.
(** A write of [len] bytes takes at most that many. [Blocked] is
    [WouldBlock], [WriteInterrupted] is [Interrupted]. *)
Inductive WriteAnswer := Wrote (n : N) | Blocked | WriteInterrupted | WriteError (message : string).

(** What [poll] reports for a descriptor; input and output readiness only
    where it was asked for, hangup and error always. *)
Record Ready := mkReady { r_in : bool; r_out : bool; r_hup : bool; r_err : bool }.
Inductive PollAnswer :=
  | PollInterrupted
  | PollFailed (message : string)
  | Polled (stdin terminal stdout : Ready).

Record Round := mkRound {
  stopped : bool;                        (** [stop], set by a signal handler *)
  resized : bool;                        (** the window changed since the last round *)
  size : string + (N * N);               (** rows and columns *)
  resize_control : bool;                 (** the daemon accepted [sessions.resize] *)
  poll : PollAnswer;
  read_stdin : ReadAnswer;
  read_terminal : ReadAnswer;
  write_terminal : WriteAnswer;
  write_stdout : WriteAnswer }.

(** The relay's variables, and what has crossed each descriptor so far. *)
Record Relay := mkRelay {
  to_terminal : Bytes; to_shell : Bytes; eof : bool; resize : bool;
  typed : Bytes; sent : Bytes; received : Bytes; shown : Bytes; resizes : list (N * N) }.
Definition start (resize : bool) : Relay := mkRelay [] [] false resize [] [] [] [] [].

Definition set_resize (b : bool) (s : Relay) : Relay :=
  mkRelay (to_terminal s) (to_shell s) (eof s) b (typed s) (sent s) (received s) (shown s) (resizes s).
Definition add_resize (d : N * N) (s : Relay) : Relay :=
  mkRelay (to_terminal s) (to_shell s) (eof s) (resize s) (typed s) (sent s) (received s) (shown s) (resizes s ++ [d]).
Definition type_bytes (l : Bytes) (s : Relay) : Relay :=
  mkRelay (to_terminal s) (to_shell s ++ l) (eof s) (resize s) (typed s ++ l) (sent s) (received s) (shown s) (resizes s).
Definition receive_bytes (l : Bytes) (s : Relay) : Relay :=
  mkRelay (to_terminal s ++ l) (to_shell s) (eof s) (resize s) (typed s) (sent s) (received s ++ l) (shown s) (resizes s).
Definition end_stream (s : Relay) : Relay :=
  mkRelay (to_terminal s) [] true (resize s) (typed s) (sent s) (received s) (shown s) (resizes s).
Definition send_bytes (n : nat) (s : Relay) : Relay :=
  mkRelay (to_terminal s) (drop n (to_shell s)) (eof s) (resize s) (typed s) (sent s ++ take n (to_shell s))
    (received s) (shown s) (resizes s).
Definition show_bytes (n : nat) (s : Relay) : Relay :=
  mkRelay (drop n (to_terminal s)) (to_shell s) (eof s) (resize s) (typed s) (sent s) (received s)
    (shown s ++ take n (to_terminal s)) (resizes s).

Definition T := M Relay string.
Definition is_nil (l : Bytes) : bool := bool_decide (l = []).

(** [d.ws_row.max(1)] and [d.ws_col.max(1)]. *)
Definition resize_step (r : Round) : T unit :=
  _ ← modify (λ s, set_resize (resized r || resize s) s);
  s ← get;
  let asked := resize s in
  _ ← modify (set_resize false);
  if asked && negb (eof s) then
    match size r with
    | inl message => throw message
    | inr (rows, cols) =>
        _ ← modify (add_resize (N.max rows 1, N.max cols 1));
        if resize_control r then mret tt else modify (set_resize true)
    end
  else mret tt.

Definition stdin_step (r : Round) (ready : Ready) : T unit :=
  s ← get;
  let asked := negb (eof s) && (lenN (to_shell s) <? LIMIT)%N in
  if asked && r_in ready then
    let room := N.min READ (u64_sub LIMIT (lenN (to_shell s))) in
    match read_stdin r with
    | ReadError _ _ => throw "terminal input disconnected; session remains daemon-owned"
    | Data l =>
        match read_into room l with
        | [] => throw "terminal input disconnected; session remains daemon-owned"
        | l => modify (type_bytes l)
        end
    end
  else mret tt.

(** [asked_in] and [asked_out] are the events requested for the stream, which
    is not polled at all after its end. *)
Definition terminal_read_step (r : Round) (polled asked_in : bool) (ready : Ready) : T unit :=
  s ← get;
  if negb (eof s) && (lenN (to_terminal s) <? LIMIT)%N &&
     polled && (asked_in && r_in ready || r_hup ready || r_err ready)
  then
    let room := N.min READ (u64_sub LIMIT (lenN (to_terminal s))) in
    match read_terminal r with
    | ReadError true _ => mret tt
    | ReadError false message => throw message
    | Data l => match read_into room l with
                | [] => modify end_stream
                | l => modify (receive_bytes l)
                end
    end
  else mret tt.
Definition terminal_write_step (r : Round) (polled asked_out : bool) (ready : Ready) : T unit :=
  s ← get;
  if negb (eof s) && negb (is_nil (to_shell s)) && polled && asked_out && r_out ready then
    match write_terminal r with
    | Wrote n => modify (send_bytes (N.to_nat (N.min n (lenN (to_shell s)))))
    | Blocked => mret tt
    | WriteInterrupted => throw "interrupted"
    | WriteError message => throw message
    end
  else mret tt.
Definition stdout_step (r : Round) (asked_out : bool) (ready : Ready) : T unit :=
  s ← get;
  if negb (is_nil (to_terminal s)) && (asked_out && r_out ready || r_err ready || r_hup ready) then
    match write_stdout r with
    | Wrote n =>
        if (0 <? n)%N
        then modify (show_bytes (N.to_nat (N.min n (N.min (lenN (to_terminal s)) WRITE))))
        else throw "terminal output incomplete"
    | Blocked | WriteInterrupted => mret tt
    | WriteError _ => throw "terminal output incomplete"
    end
  else mret tt.

(** One round; [true] when the loop breaks. *)
Definition round (r : Round) : T bool :=
  _ ← refuse (stopped r) "terminal delivery interrupted; session remains daemon-owned";
  _ ← resize_step r;
  s ← get;
  if eof s && is_nil (to_terminal s) then mret true else
  let polled := negb (eof s) in
  let asked_in := (lenN (to_terminal s) <? LIMIT)%N in
  let asked_out := negb (is_nil (to_shell s)) in
  let asked_stdout := negb (is_nil (to_terminal s)) in
  match poll r with
  | PollInterrupted => mret false
  | PollFailed message => throw message
  | Polled stdin terminal stdout =>
      _ ← stdin_step r stdin;
      _ ← terminal_read_step r polled asked_in terminal;
      _ ← terminal_write_step r polled asked_out terminal;
      _ ← stdout_step r asked_stdout stdout;
      mret false
  end.
(** The loop over the rounds so far; [false] while it still runs. *)
Fixpoint rounds (rs : list Round) : T bool :=
  match rs with
  | [] => mret false
  | r :: rs => b ← round r; if (b : bool) then mret true else rounds rs
  end.

(** ** The outcome *)

(** A record, or the error of the call, and [stop] as read after it. *)
Definition Answer : Type := (string + Value) * bool.
Definition is_true (record : Value) (field : string) : bool := value_eqb (value_index record field) (Bool true).
Definition index_str (record : Value) (field : string) : option string := as_str (value_index record field).
(** [c as i32]. *)
Definition as_i32 (c : Z) : Z := ((c + 2147483648) mod 4294967296 - 2147483648)%Z.
(** [None]: not over yet. *)
Definition judge (record : Value) : option (res string Z) :=
  if is_true record "terminal_detached" then Some (Ok 0%Z)
  else
    let state := default "" (index_str record "state") in
    if existsb (string_eqb state) ["stopped"; "failed"] then
      if value_eqb (value_index record "state") (String_ "failed") then
        Some (Err (default "launch failed" (index_str record "detail")))
      else if is_true record "terminal_interrupted" then Some (Err "terminal output incomplete")
      else if is_true record "terminal_complete" then
        Some match as_i64 (value_index record "exit_code") with
             | Some c => Ok (as_i32 c)
             | None => Err (default "payload exit status unknown"
                              match index_str record "stop_reason" with
                              | Some reason => Some reason
                              | None => index_str record "detail"
                              end)
             end
      else None
    else None.
(** [None]: still asking. *)
Fixpoint wait_outcome (answers : list Answer) : option (res string Z) :=
  match answers with
  | [] => None
  | (answer, stop) :: answers =>
      match answer with
      | inl e => Some (Err e)
      | inr record =>
          match judge record with
          | Some r => Some r
          | None => if (stop : bool) then Some (Err "terminal completion interrupted") else wait_outcome answers
          end
      end
  end.
(** [relay]: what it returned, if it has, and the state of its buffers. *)
Definition relay (resize : bool) (rs : list Round) (answers : list Answer) : option (res string Z) * Relay :=
  match rounds rs (start resize) with
  | (Ok true, s) => (wait_outcome answers, s)
  | (Ok false, s) => (None, s)
  | (Err e, s) => (Some (Err e), s)
  | (Panic, s) => (Some Panic, s)
  end.
