(* ===== verification/TerminalSpec.v ===== *)
(** * The raw terminal relay: the theorems

    Nothing is lost, reordered or repeated in either direction and the buffers
    stay bounded, whatever the kernel answers; once the stream has ended, its
    output is delivered completely before the outcome is asked for; and an
    exit status is only ever the one the session's record states. *)
From S2P Require Import Prelude Json Grammar Framing FramingFacts Text Terminal.
From Stdlib Require Import Ascii.

(** ** The invariant of the buffers *)
Record sound (s : Relay) : Prop := {
  s_terminal : (lenN (to_terminal s) <= LIMIT)%N;
  s_shell : (lenN (to_shell s) <= LIMIT)%N;
  s_received : received s = shown s ++ to_terminal s;
  s_typed : ∃ rest, typed s = sent s ++ to_shell s ++ rest ∧ (eof s = false → rest = []);
  s_eof : eof s = true → to_shell s = [] }.

Lemma sound_start b : sound (start b).
Proof. split; cbn; try done. by exists []. Qed.
Lemma room_left l : (lenN (l : Bytes) < LIMIT)%N → u64_sub LIMIT (lenN l) = (LIMIT - lenN l)%N.
Proof.
  intros Hl. unfold u64_sub. replace (LIMIT + u64_modulus - lenN l)%N with (LIMIT - lenN l + 1 * u64_modulus)%N by lia.
  rewrite N.Div0.mod_add. apply N.mod_small. unfold u64_modulus, LIMIT in *. lia.
Qed.
Lemma read_into_length room l : (lenN (read_into room l) <= room)%N.
Proof. unfold lenN, read_into. rewrite length_take. lia. Qed.
Lemma read_fits (l k : Bytes) : (lenN l < LIMIT)%N →
  (lenN (l ++ read_into (N.min READ (u64_sub LIMIT (lenN l))) k) <= LIMIT)%N.
Proof.
  intros Hl. rewrite lenN_app. rewrite room_left by done.
  pose proof (read_into_length (N.min READ (LIMIT - lenN l)) k). lia.
Qed.
Lemma lenN_drop_le n (l : Bytes) : (lenN (drop n l) <= lenN l)%N.
Proof. unfold lenN. rewrite length_drop. lia. Qed.

(** ** Every step keeps it *)
Lemma sound_set_resize b s : sound s → sound (set_resize b s).
Proof. by intros []. Qed.
Lemma sound_add_resize d s : sound s → sound (add_resize d s).
Proof. by intros []. Qed.
Lemma sound_end s : sound s → sound (end_stream s).
Proof.
  intros [Ht Hs Hr (rest & Hty & _) He]. split; cbn; try done.
  exists (to_shell s ++ rest). by split.
Qed.
Lemma sound_send n s : sound s → sound (send_bytes n s).
Proof.
  intros [Ht Hs Hr (rest & Hty & Hrest) He]. split; cbn; try done.
  - pose proof (lenN_drop_le n (to_shell s)). lia.
  - exists rest. split; [|done]. by rewrite Hty, <- app_assoc, (app_assoc (take n _)), take_drop.
  - intros Heof. by rewrite He, drop_nil.
Qed.
Lemma sound_show n s : sound s → sound (show_bytes n s).
Proof.
  intros [Ht Hs Hr Hty He]. split; cbn; try done.
  - pose proof (lenN_drop_le n (to_terminal s)). lia.
  - by rewrite Hr, <- app_assoc, take_drop.
Qed.
Lemma sound_type k s : sound s → eof s = false → (lenN (to_shell s) < LIMIT)%N →
  sound (type_bytes (read_into (N.min READ (u64_sub LIMIT (lenN (to_shell s)))) k) s).
Proof.
  intros [Ht Hs Hr (rest & Hty & Hrest) He] Heof Hl. split; cbn; try done; [by apply read_fits| |by rewrite Heof].
  exists []. split; [|done]. rewrite Hty, Hrest, !app_nil_r by done. by rewrite app_assoc.
Qed.
Lemma sound_receive k s : sound s → (lenN (to_terminal s) < LIMIT)%N →
  sound (receive_bytes (read_into (N.min READ (u64_sub LIMIT (lenN (to_terminal s)))) k) s).
Proof.
  intros [Ht Hs Hr Hty He] Hl. split; cbn; try done; [by apply read_fits|]. by rewrite Hr, app_assoc.
Qed.
Create HintDb relay.
#[export] Hint Resolve sound_set_resize sound_add_resize sound_end sound_send sound_show : relay.

(** Run the combinators of a step and split what it looks at. *)
Ltac run_step :=
  munfold; repeat (case_match; munfold); try (split; [done|]); auto with relay.

Lemma keeps_resize r : keeps sound (resize_step r).
Proof. intros s Hs. unfold resize_step. run_step. Qed.
Lemma keeps_stdin r ready : keeps sound (stdin_step r ready).
Proof.
  intros s Hs. unfold stdin_step. munfold.
  destruct (negb (eof s) && (lenN (to_shell s) <? LIMIT)%N && r_in ready) eqn:Hc; [|by split].
  apply andb_true_iff in Hc as [[He%negb_true_iff Hl%N.ltb_lt]%andb_true_iff _].
  pose proof (λ k, sound_type k s Hs He Hl) as Htype.
  destruct (read_stdin r) as [k|b m]; [|by split]. specialize (Htype k).
  destruct (read_into _ k); by split.
Qed.
Lemma keeps_terminal_read r p a ready : keeps sound (terminal_read_step r p a ready).
Proof.
  intros s Hs. unfold terminal_read_step. munfold.
  destruct (negb (eof s) && (lenN (to_terminal s) <? LIMIT)%N && p && _) eqn:Hc; [|by split].
  apply andb_true_iff in Hc as [[[_ Hl%N.ltb_lt]%andb_true_iff _]%andb_true_iff _].
  pose proof (λ k, sound_receive k s Hs Hl) as Hreceive.
  destruct (read_terminal r) as [k|[] m]; [|by split..]. specialize (Hreceive k).
  destruct (read_into _ k); (split; [done|]); cbn; auto with relay.
Qed.
Lemma keeps_terminal_write r p a ready : keeps sound (terminal_write_step r p a ready).
Proof. intros s Hs. unfold terminal_write_step. run_step. Qed.
Lemma keeps_stdout r a ready : keeps sound (stdout_step r a ready).
Proof. intros s Hs. unfold stdout_step. run_step. Qed.
#[export] Hint Resolve keeps_resize keeps_stdin keeps_terminal_read keeps_terminal_write keeps_stdout : keeps.

Lemma keeps_round r : keeps sound (round r).
Proof.
  unfold round. apply keeps_bind; [auto with keeps|]. intros _. apply keeps_bind; [auto with keeps|]. intros _.
  apply keeps_get. intros s Hs. destruct (eof s && _); [by split|].
  destruct (poll r) as [|m|i t o]; [by split..|].
  eapply (keeps_bind sound); [auto with keeps| |exact Hs]. intros _.
  apply keeps_bind; [auto with keeps|]. intros _. apply keeps_bind; [auto with keeps|]. intros _.
  apply keeps_bind; [auto with keeps|]. intros _. apply keeps_ret.
Qed.
Lemma keeps_rounds rs : keeps sound (rounds rs).
Proof.
  induction rs as [|r rs IH]; [apply keeps_ret|]. cbn [rounds]. apply keeps_bind; [apply keeps_round|].
  intros []; [apply keeps_ret|done].
Qed.

(** ** What the relay guarantees *)

(** C33. Whatever the kernel and the daemon answer, the relay never panics and
    holds at most 64 KiB in either direction; the bytes shown so far and those
    it still holds are exactly the stream's, in order, and those sent to the
    shell are the first ones typed: the rest is still held, or was dropped
    because the stream had ended. *)
Theorem relay_keeps_every_byte_in_order resized rs :
  let s := state_of (rounds rs) (start resized) in
  outcome_of (rounds rs) (start resized) ≠ Panic ∧
  (lenN (to_terminal s) <= LIMIT)%N ∧ (lenN (to_shell s) <= LIMIT)%N ∧
  received s = shown s ++ to_terminal s ∧
  sent s `prefix_of` typed s ∧ (eof s = false → typed s = sent s ++ to_shell s).
Proof.
  intros s. destruct (keeps_rounds rs (start resized) (sound_start resized)) as [Hp [Ht Hs Hr (rest & Hty & Hrest) _]].
  split_and!; try done.
  - exists (to_shell s ++ rest). done.
  - intros He. fold s in Hty, Hrest. by rewrite Hty, Hrest, app_nil_r.
Qed.

Definition breaks (s : Relay) : Prop := eof s = true ∧ to_terminal s = [].
Lemma resize_breaks r s s' : resize_step r s = (Ok tt, s') →
  eof s' = eof s ∧ to_terminal s' = to_terminal s ∧ to_shell s' = to_shell s.
Proof. unfold resize_step. munfold. repeat (case_match; munfold); by intros [= <-]. Qed.
Lemma round_breaks r s s' : round r s = (Ok true, s') → breaks s'.
Proof.
  unfold round, refuse. unfold mbind, M_bind, mret, M_ret, throw, get. destruct (stopped r); [done|].
  destruct (resize_step r s) as [[[]|e|] s1]; [|done..].
  destruct (eof s1 && is_nil (to_terminal s1)) eqn:Hb.
  { apply andb_true_iff in Hb as [He Ht%bool_decide_eq_true]. by intros [= <-]. }
  destruct (poll r) as [|m|i t o]; [done..|].
  destruct (stdin_step r i s1) as [[[]|e|] s2]; [|done..].
  destruct (terminal_read_step r _ _ t s2) as [[[]|e|] s3]; [|done..].
  destruct (terminal_write_step r _ _ t s3) as [[[]|e|] s4]; [|done..].
  by destruct (stdout_step r _ o s4) as [[[]|e|] s5].
Qed.
Lemma rounds_break rs s s' : rounds rs s = (Ok true, s') → breaks s'.
Proof.
  revert s. induction rs as [|r rs IH]; intros s; [done|]. cbn [rounds]. unfold mbind, M_bind.
  destruct (round r s) as [[[]|e|] s1] eqn:Hr; [|by apply IH|done..].
  intros [= <-]. by eapply round_breaks.
Qed.

(** The record that decides, after records that decided nothing. *)
Inductive decides : list Answer → Value → Prop :=
  | Decides record stop answers r : judge record = Some r → decides ((inr record, stop) :: answers) record
  | Waits record answers record' : judge record = None → decides answers record' →
      decides ((inr record, false) :: answers) record'.
Lemma wait_outcome_ok answers c : wait_outcome answers = Some (Ok c) →
  ∃ record, decides answers record ∧ judge record = Some (Ok c).
Proof.
  induction answers as [|[[e|record] stop] answers IH]; [done..|]. cbn [wait_outcome].
  destruct (judge record) as [r|] eqn:Hj.
  - intros [= ->]. exists record. split; [by econstructor|done].
  - destruct stop; [done|]. intros (record' & Hd & ?)%IH. exists record'. split; [by constructor|done].
Qed.
(** The records an exit status may come from. *)
Definition exited (record : Value) (c : Z) : Prop :=
  value_index record "terminal_detached" = Bool true ∧ c = 0%Z ∨
  value_index record "state" = String_ "stopped" ∧ value_index record "terminal_complete" = Bool true ∧
  value_index record "terminal_interrupted" ≠ Bool true ∧
  ∃ code, as_i64 (value_index record "exit_code") = Some code ∧ c = as_i32 code.
Lemma is_true_iff record field : is_true record field = true ↔ value_index record field = Bool true.
Proof. apply value_eqb_eq. Qed.
Lemma judge_ok record c : judge record = Some (Ok c) → exited record c.
Proof.
  unfold judge, exited. destruct (is_true record "terminal_detached") eqn:Hd.
  { apply is_true_iff in Hd. intros [= <-]. by left. }
  destruct (existsb _ _) eqn:Hs; [|done].
  destruct (value_eqb _ (String_ "failed")) eqn:Hf; [done|].
  destruct (is_true record "terminal_interrupted") eqn:Hi; [done|].
  destruct (is_true record "terminal_complete") eqn:Hc; [|done]. apply is_true_iff in Hc.
  destruct (as_i64 _) as [code|] eqn:Hcode; [|done]. intros [= <-]. right. split_and!.
  - unfold index_str, as_str in Hs. destruct (value_index record "state") as [| | | |st| |] eqn:Hst; try done.
    cbn in Hs. rewrite orb_false_r in Hs. apply orb_true_iff in Hs as [Hs|Hs].
    + apply bool_decide_eq_true in Hs. by rewrite Hs.
    + apply bool_decide_eq_true in Hs. subst st. exfalso.
      rewrite <- not_true_iff_false in Hf. apply Hf. by apply value_eqb_eq.
  - done.
  - intros Hn. apply is_true_iff in Hn. congruence.
  - by exists code.
Qed.

(** The relay returns a status only after the session's stream ended and
    everything it carried was shown, and the status is the one of the first
    record that decides: zero for a detached terminal, otherwise the exit code
    of a stopped session whose output is complete and was not interrupted; an
    earlier record never decides. *)
Theorem relay_status_is_recorded resized rs answers c s :
  relay resized rs answers = (Some (Ok c), s) →
  eof s = true ∧ shown s = received s ∧ ∃ record, decides answers record ∧ exited record c.
Proof.
  unfold relay. destruct (rounds rs (start resized)) as [[[]|e|] s'] eqn:Hr; try done.
  intros [= Hw ->]. pose proof (rounds_break _ _ _ Hr) as [He Ht].
  destruct (keeps_rounds rs (start resized) (sound_start resized)) as [_ [_ _ Hrec _ _]].
  unfold state_of in Hrec. rewrite Hr in Hrec. cbn in Hrec. rewrite Ht, app_nil_r in Hrec.
  split_and!; [done..|]. apply wait_outcome_ok in Hw as (record & Hd & Hj). exists record.
  split; [done|]. by apply judge_ok.
Qed.

(** ** The drain *)

(** A round after the end of the stream in which nothing stops the relay and
    the terminal takes some output. *)
Definition drains (r : Round) : Prop :=
  stopped r = false ∧ ∃ i t o n, poll r = Polled i t o ∧ r_out o = true ∧
    write_stdout r = Wrote n ∧ (0 < n)%N.
Lemma resize_after_end r s : eof s = true → resize_step r s = (Ok tt, set_resize false s).
Proof. intros He. unfold resize_step. munfold. cbn. by rewrite He, andb_false_r. Qed.
Lemma drain_round r s : drains r → eof s = true → to_shell s = [] → to_terminal s ≠ [] →
  ∃ n, (0 < n)%nat ∧ round r s = (Ok false, show_bytes n (set_resize false s)).
Proof.
  intros (Hs & i & t & o & n & Hp & Ho & Hw & Hn) He Hsh Ht.
  exists (N.to_nat (N.min n (N.min (lenN (to_terminal s)) WRITE))). split.
  { unfold lenN, WRITE. destruct (to_terminal s); [done|]. cbn [length]. lia. }
  unfold round, refuse. rewrite Hs. unfold mbind, M_bind, mret, M_ret, get. rewrite resize_after_end by done.
  cbn [eof to_terminal set_resize to_shell]. rewrite He, Hp.
  assert (is_nil (to_terminal s) = false) as Hnil by by apply bool_decide_eq_false_2. rewrite Hnil. cbn [andb].
  assert (stdin_step r i (set_resize false s) = (Ok tt, set_resize false s)) as ->.
  { unfold stdin_step. munfold. cbn. by rewrite He. }
  assert (∀ a, terminal_read_step r (negb true) a t (set_resize false s) = (Ok tt, set_resize false s)) as ->.
  { intros a. unfold terminal_read_step. munfold. cbn. by rewrite He. }
  assert (∀ a, terminal_write_step r (negb true) a t (set_resize false s) = (Ok tt, set_resize false s)) as ->.
  { intros a. unfold terminal_write_step. munfold. cbn. by rewrite He. }
  unfold stdout_step. munfold. cbn [to_terminal set_resize]. rewrite Hnil, Ho, Hw. cbn [negb andb orb].
  by apply N.ltb_lt in Hn as ->.
Qed.

(** C34. A stream that ended is drained: if every later round lets the
    terminal take at least one byte and nothing stops the relay, then after
    at most one round more than there are bytes held, the loop is over and
    every byte of the stream has been shown. *)
Theorem ended_streams_are_drained rs s :
  sound s → eof s = true → Forall drains rs → (length (to_terminal s) < length rs)%nat →
  ∃ s', rounds rs s = (Ok true, s') ∧ shown s' = received s.
Proof.
  intros Hsound He Hd. revert s Hsound He. induction Hd as [|r rs Hr _ IH]; intros s Hsound He Hlen; [cbn in Hlen; lia|].
  cbn [rounds]. unfold mbind at 1, M_bind at 1. destruct (decide (to_terminal s = [])) as [Ht|Ht].
  - unfold round, refuse. destruct Hr as [-> _]. unfold mbind, M_bind, mret, M_ret, get.
    rewrite resize_after_end by done. cbn [eof to_terminal set_resize]. rewrite He, Ht. cbn.
    eexists. split; [done|]. cbn. by rewrite (s_received _ Hsound), Ht, app_nil_r.
  - destruct (drain_round r s Hr He (s_eof _ Hsound He) Ht) as (n & Hn & ->).
    assert (sound (show_bytes n (set_resize false s))) as Hs' by by apply sound_show, sound_set_resize.
    destruct (IH _ Hs') as (s' & Hs & Hshown); [done| |by exists s'].
    cbn [to_terminal show_bytes set_resize]. rewrite length_drop. cbn in Hlen.
    destruct (to_terminal s); [done|]. cbn in *. lia.
Qed.

(** ** Concrete inputs *)
Definition none : Ready := mkReady false false false false.
Definition sample_round (l : string) (hup : bool) : Round :=
  mkRound false false (inr (24, 80)%N) true (Polled none (mkReady true false hup false) (mkReady false true false false))
    (Data []) (Data (bytes l)) Blocked (Wrote 4).
Definition sample_record : Value :=
  json_object [("state", String_ "stopped"); ("terminal_complete", Bool true);
               ("terminal_interrupted", Bool false); ("exit_code", Number 7)].
Definition sample_rounds : list Round :=
  [sample_round "hello" false; sample_round "" true; sample_round "" true; sample_round "" true].
Definition sample_answers : list Answer :=
  [(inr (json_object [("state", String_ "running")]), false); (inr sample_record, false)].
Definition sample_end : Relay :=
  mkRelay [] [] true false [] [] (bytes "hello") (bytes "hello") [].
Lemma relay_status_is_recorded_witness :
  shown sample_end = received sample_end ∧ ∃ record, decides sample_answers record ∧ exited record 7.
Proof.
  assert (relay false sample_rounds sample_answers = (Some (Ok 7%Z), sample_end)) as Hs by by vm_compute.
  exact (proj2 (relay_status_is_recorded false sample_rounds sample_answers 7 sample_end Hs)).
Defined.
Definition ended : Relay := mkRelay (bytes "abc") [] true false [] [] (bytes "xyabc") (bytes "xy") [].
Lemma ended_streams_are_drained_witness :
  ∃ s', rounds (replicate 4 (sample_round "" true)) ended = (Ok true, s') ∧ shown s' = bytes "xyabc".
Proof.
  apply (ended_streams_are_drained (replicate 4 (sample_round "" true)) ended).
  - split; try done. by exists [].
  - done.
  - apply Forall_forall. intros r [-> _]%elem_of_replicate. split; [done|].
    by exists none, (mkReady true false true false), (mkReady false true false false), 4%N.
  - by apply Nat.ltb_lt; vm_compute.
Defined.
Lemma relay_keeps_every_byte_in_order_witness : outcome_of (rounds [sample_round "hello" false]) (start false) ≠ Panic.
Proof. by destruct (relay_keeps_every_byte_in_order false [sample_round "hello" false]) as [H _]. Defined.
