(* ===== verification/History.v ===== *)
(** * Recreate records

    The records of [packages/daemon/src/history.rs]: what a record holds, the
    changes a goblin's life makes to it, its limits, which records a prune
    selects, and its JSON form; with the skipped packages of
    [libs/runtime/src/history.rs]. The text of the JSON is [serde_json]'s, an
    interface. The files and the writer are in [HistoryStore.v]. *)
From S2P Require Import Prelude Json Grammar Messages Framing FramingFacts Text.
From Stdlib Require Import Ascii.

Definition VERSION : N := 2.
Definition READABLE : list N := [1%N; VERSION].
Definition MAX_NAMES : N := 256.
Definition MAX_RECORD : N := 64 * 1024.
Definition MAX_SESSIONS : N := 256.

(** ** Skipped packages *)
Definition SKIP_LIMIT : N := 256.
Record Skipped := mkSkipped { sk_name : string; sk_reason : string }.
#[export] Instance Skipped_eq_dec : EqDecision Skipped.
Proof. solve_decision. Defined.
(** [s.split_whitespace()]: the runs of other characters. *)
Fixpoint split_whitespace (word : list N) (l : list N) : list (list N) :=
  match l with
  | [] => match word with [] => [] | _ => [word] end
  | c :: l =>
      if is_whitespace c then
        match word with [] => split_whitespace [] l | _ => word :: split_whitespace [] l end
      else split_whitespace (word ++ [c]) l
  end.
Fixpoint join_space (words : list (list N)) : list N :=
  match words with [] => [] | [w] => w | w :: words => w ++ 32%N :: join_space words end.
Definition len_utf8 (c : N) : N := lenN (utf8_encode c).
Fixpoint bound_chars (size : N) (l : list N) : list N :=
  match l with
  | [] => []
  | c :: l => if (SKIP_LIMIT <? size + len_utf8 c)%N then [] else c :: bound_chars (size + len_utf8 c) l
  end.
Definition encode_chars (l : list N) : string := text (concat (utf8_encode <$> l)).
Definition bounded_text (s : string) : string :=
  encode_chars (bound_chars 0 (chars (plain_text (encode_chars (join_space (split_whitespace [] (chars s))))))).
Definition new_skipped (name reason : string) : Skipped := mkSkipped (bounded_text name) (bounded_text reason).

(** ** Records *)
Record Packages := mkPackages { approved : list string; denied : list string; auto_approve : list string }.
#[export] Instance Packages_eq_dec : EqDecision Packages.
Proof. solve_decision. Defined.
Record Record_ := mkRecord {
  version : N;
  id : string;
  configuration : string;
  agent_name : string;
  cwd : option Bytes;
  scope : option string;
  dev_shell : option string;
  docker_enabled : bool;
  packages : Packages;
  variables : gmap string string;
  sessions : list string;
  skipped : list Skipped;
  created : N;
  updated : N;
  stopped : option N }.
#[export] Instance Record_eq_dec : EqDecision Record_.
Proof. solve_decision. Defined.

Definition set_packages (p : Packages) (r : Record_) : Record_ :=
  mkRecord (version r) (id r) (configuration r) (agent_name r) (cwd r) (scope r) (dev_shell r)
    (docker_enabled r) p (variables r) (sessions r) (skipped r) (created r) (updated r) (stopped r).
Definition with_variables (v : gmap string string) (r : Record_) : Record_ :=
  mkRecord (version r) (id r) (configuration r) (agent_name r) (cwd r) (scope r) (dev_shell r)
    (docker_enabled r) (packages r) v (sessions r) (skipped r) (created r) (updated r) (stopped r).
Definition set_sessions (l : list string) (r : Record_) : Record_ :=
  mkRecord (version r) (id r) (configuration r) (agent_name r) (cwd r) (scope r) (dev_shell r)
    (docker_enabled r) (packages r) (variables r) l (skipped r) (created r) (updated r) (stopped r).
Definition set_skipped (l : list Skipped) (r : Record_) : Record_ :=
  mkRecord (version r) (id r) (configuration r) (agent_name r) (cwd r) (scope r) (dev_shell r)
    (docker_enabled r) (packages r) (variables r) (sessions r) l (created r) (updated r) (stopped r).
Definition set_times (c u : N) (r : Record_) : Record_ :=
  mkRecord (version r) (id r) (configuration r) (agent_name r) (cwd r) (scope r) (dev_shell r)
    (docker_enabled r) (packages r) (variables r) (sessions r) (skipped r) c u (stopped r).
Definition set_version (v : N) (r : Record_) : Record_ :=
  mkRecord v (id r) (configuration r) (agent_name r) (cwd r) (scope r) (dev_shell r)
    (docker_enabled r) (packages r) (variables r) (sessions r) (skipped r) (created r) (updated r) (stopped r).

Definition ALPHABET : Bytes := bytes "0123456789abcdefghjkmnpqrstvwxyz".
Definition id_char (b : ascii) : ascii :=
  nth (N.to_nat (N.land (N_of_ascii b) 31)) ALPHABET "0"%char.
(** The rounds of [new_id]: each reads eight random bytes; at most sixteen. *)
Fixpoint new_id (rounds : nat) (random : list Bytes) (taken : string → bool) : res string string :=
  match rounds, random with
  | S rounds, b :: random =>
      let id := text (id_char <$> b) in
      if negb (taken id) then Ok id else new_id rounds random taken
  | _, _ => Err "cannot choose a free record id"
  end.

Definition new_record (id configuration agent_name : string) (now : N) : Record_ :=
  mkRecord VERSION id configuration agent_name None None None false (mkPackages [] [] []) ∅ [] [] now now None.
Definition latest (r : Record_) : string := default "" (last (sessions r)).
Definition conversation (r : Record_) : option string := variables r !! "session_id".
Definition drain_excess (l : list string) : list string :=
  drop (N.to_nat (u64_saturating_sub (lenN l) MAX_SESSIONS)) l.
Definition ran_as (session : string) (r : Record_) : Record_ :=
  set_sessions (drain_excess (if bool_decide (session ∈ sessions r) then sessions r else sessions r ++ [session])) r.

(** ** JSON *)
Definition packages_value (p : Packages) : Value :=
  json_object [("approved", json_strs (approved p)); ("denied", json_strs (denied p));
               ("auto_approve", json_strs (auto_approve p))].
Definition skipped_value (s : Skipped) : Value :=
  json_object [("name", String_ (sk_name s)); ("reason", String_ (sk_reason s))].
Definition record_value (r : Record_) : Value :=
  json_object [("version", json_u64 (version r)); ("id", String_ (id r));
    ("configuration", String_ (configuration r)); ("agent_name", String_ (agent_name r));
    ("cwd", json_opt_str (text <$> cwd r)); ("scope", json_opt_str (scope r));
    ("dev_shell", json_opt_str (dev_shell r)); ("docker_enabled", Bool (docker_enabled r));
    ("packages", packages_value (packages r));
    ("variables", Object ((λ kv, (kv.1, String_ kv.2)) <$> entries (variables r)));
    ("sessions", json_strs (sessions r)); ("skipped", Array (skipped_value <$> skipped r));
    ("created", json_u64 (created r)); ("updated", json_u64 (updated r));
    ("stopped", json_opt json_u64 (stopped r))].

Definition field_u32 (f : string → option Value) (k : string) : option N :=
  n ← field_u64 f k; if (n <? u32_modulus)%N then Some n else None.
Definition field_bool (f : string → option Value) (k : string) : option bool :=
  v ← f k; match v with Bool b => Some b | _ => None end.
Definition field_strs_or (d : list string) (f : string → option Value) (k : string) : option (list string) :=
  match f k with None => Some d | Some _ => field_strs f k end.
Definition decode_packages (v : Value) : option Packages :=
  f ← default_fields 2 ["approved"; "denied"; "auto_approve"] v;
  a ← field_strs f "approved"; d ← field_strs f "denied"; o ← field_strs_or [] f "auto_approve";
  Some (mkPackages a d o).
Definition decode_skipped (v : Value) : option Skipped :=
  f ← struct_fields ["name"; "reason"] v;
  n ← field_str f "name"; r ← field_str f "reason"; Some (mkSkipped n r).
(** A [BTreeMap<String, String>]: an object of strings. *)
Definition decode_variables (v : Value) : option (gmap string string) :=
  o ← as_object v;
  l ← mapM (λ kv, s ← as_str kv.2; Some (kv.1, s)) o;
  Some (foldl (λ m kv, <[kv.1 := kv.2]> m) ∅ l).
Definition record_fields : list string :=
  ["version"; "id"; "configuration"; "agent_name"; "cwd"; "scope"; "dev_shell"; "docker_enabled";
   "packages"; "variables"; "sessions"; "skipped"; "created"; "updated"; "stopped"].
Definition decode_record (v : Value) : option Record_ :=
  f ← struct_fields record_fields v;
  ver ← field_u32 f "version"; i ← field_str f "id"; c ← field_str f "configuration";
  a ← field_str f "agent_name"; w ← field_opt_str f "cwd"; sc ← field_opt_str f "scope";
  ds ← field_opt_str f "dev_shell"; de ← field_bool f "docker_enabled";
  p ← (f "packages" ≫= decode_packages); vs ← (f "variables" ≫= decode_variables);
  ss ← field_strs f "sessions"; sk ← (v ← f "skipped"; l ← as_array v; mapM decode_skipped l);
  cr ← field_u64 f "created"; up ← field_u64 f "updated"; st ← field_opt_u64 f "stopped";
  Some (mkRecord ver i c a (bytes <$> w) sc ds de p vs ss sk cr up st).

(** [serde_json]: the pretty text of a value, and reading a text. *)
Class RecordText : Type := {
  to_pretty : Value → Bytes;
  of_text : Bytes → option Value }.
(** The values that read back exactly: 64-bit numbers, UTF-8 strings,
    ascending keys, nested less than the 128 levels the reader accepts. *)
Definition RECURSION : nat := 127.
Fixpoint ascending (l : list string) : bool :=
  match l with
  | a :: (b :: _) as l' => String.ltb a b && ascending l'
  | _ => true
  end.
Definition utf8 (s : string) : bool := utf8_valid (bytes s).
Fixpoint printable (depth : nat) (v : Value) : bool :=
  match depth with
  | O => false
  | S depth =>
      match v with
      | Null | Bool _ => true
      | Number z => (-9223372036854775808 <=? z)%Z && (z <? 18446744073709551616)%Z
      | Float _ => false
      | String_ s => utf8 s
      | Array l => forallb (printable depth) l
      | Object o => ascending o.*1 && forallb (λ kv, utf8 kv.1 && printable depth kv.2) o
      end
  end.
(** Reading gives back what was printed, a newline after it or not. *)
Class RecordTextLaws `{RecordText} : Prop := {
  of_pretty v : printable RECURSION v = true → of_text (to_pretty v ++ [LF]) = Some v }.

Section text.
Context `{RecordText}.
(** A path that is not UTF-8 cannot be serialized. *)
Definition record_text (r : Record_) : option Bytes :=
  match cwd r with
  | Some p => if utf8_valid p then Some (to_pretty (record_value r)) else None
  | None => Some (to_pretty (record_value r))
  end.
Definition size (r : Record_) : N :=
  match record_text r with Some l => (lenN l + 1)%N | None => u64_max end.

(** ** Fitting a record *)
Definition clear_reason (i : nat) (r : Record_) : Record_ :=
  set_skipped (alter (λ s, mkSkipped (sk_name s) "") i (skipped r)) r.
Definition fits (r : Record_) : bool := (size r <=? MAX_RECORD)%N.
(** [for i in (0..n).rev()]; [inl] once the record fits. *)
Fixpoint clear_reasons (n : nat) (r : Record_) : Record_ + Record_ :=
  match n with
  | O => inr r
  | S n => let r := clear_reason n r in if fits r then inl r else clear_reasons n r
  end.
(** [while self.skipped.pop().is_some()]. *)
Fixpoint pop_skipped (n : nat) (r : Record_) : Record_ + Record_ :=
  match n with
  | O => inr r
  | S n => let r := set_skipped (removelast (skipped r)) r in if fits r then inl r else pop_skipped n r
  end.
(** [while self.sessions.len() > 1]. *)
Fixpoint drop_sessions (n : nat) (r : Record_) : Record_ + Record_ :=
  match n with
  | O => inr r
  | S n => let r := set_sessions (tail (sessions r)) r in if fits r then inl r else drop_sessions n r
  end.
(** The record fits or not, and what is left of it. *)
Definition fit (r : Record_) : bool * Record_ :=
  if fits r then (true, r)
  else match clear_reasons (length (skipped r)) r with
  | inl r => (true, r)
  | inr r => match pop_skipped (length (skipped r)) r with
             | inl r => (true, r)
             | inr r => match drop_sessions (pred (length (sessions r))) r with
                        | inl r => (true, r)
                        | inr r => (false, r)
                        end
             end
  end.

(** ** Changes *)
Definition MAX_KIB : N := MAX_RECORD / 1024.
Definition update (change : Record_ → Record_) : M Record_ string bool :=
  r ← get;
  let next := change r in
  if bool_decide (next = r) then mret false
  else
    _ ← refuse ((MAX_NAMES <? lenN (approved (packages next)))%N ||
                (MAX_NAMES <? lenN (denied (packages next)))%N ||
                (MAX_NAMES <? lenN (auto_approve (packages next)))%N)
          ("the record holds at most " +:+ show MAX_NAMES +:+ " package names per list");
    _ ← refuse (MAX_VARIABLES <? N.of_nat (base.size (variables next)))%N
          ("the record holds at most " +:+ show MAX_VARIABLES +:+ " variables");
    _ ← refuse (MAX_RECORD <? size next)%N ("the record would exceed " +:+ show MAX_KIB +:+ " KiB");
    _ ← put next;
    mret true.
Definition without (name : string) (l : list string) : list string := filter (λ n, n ≠ name) l.
Definition add_name (name : string) (l : list string) : list string :=
  if bool_decide (name ∈ l) then l else l ++ [name].
Definition approve_change (name : string) (p : Packages) : Packages :=
  mkPackages (add_name name (approved p)) (without name (denied p)) (without name (auto_approve p)).
Definition deny_change (name : string) (p : Packages) : Packages :=
  mkPackages (without name (approved p)) (add_name name (denied p)) (without name (auto_approve p)).
Definition auto_change (name : string) (p : Packages) : Packages :=
  if bool_decide (name ∈ approved p) then p
  else mkPackages (approved p) (without name (denied p)) (add_name name (auto_approve p)).
Definition change_packages (f : Packages → Packages) : M Record_ string bool :=
  update (λ r, set_packages (f (packages r)) r).
Definition approve (name : string) : M Record_ string bool := change_packages (approve_change name).
Definition deny (name : string) : M Record_ string bool := change_packages (deny_change name).
Definition auto (name : string) : M Record_ string bool := change_packages (auto_change name).
Definition set_variable (m : gmap string string) (kv : string * string) : gmap string string :=
  if string_eqb kv.2 "" then delete kv.1 m else <[kv.1 := kv.2]> m.
Definition set_variables (changes : gmap string string) : M Record_ string bool :=
  update (λ r, with_variables (foldl set_variable (variables r) (entries changes)) r).
End text.

(** ** Pruning *)
Definition newer (a b : Record_) : Prop :=
  (updated b < updated a)%N ∨ updated a = updated b ∧ String.le (id b) (id a).
#[export] Instance newer_dec : RelDecision newer.
Proof. intros a b. unfold newer. apply _. Defined.
Definition newest_first (records : gmap string Record_) : list Record_ := merge_sort newer (values records).

Record Prune := mkPrune { older_than : option N; before : option N; keep : option N; dry_run : bool }.
Definition is_empty (p : Prune) : bool :=
  bool_decide (older_than p = None) && bool_decide (before p = None) && bool_decide (keep p = None).
(** [iter.take(self.keep.unwrap_or(usize::MAX))]. *)
Definition newest (p : Prune) (records : gmap string Record_) : list string :=
  id <$> take (N.to_nat (default (lenN (newest_first records)) (keep p))) (newest_first records).
Definition matches (p : Prune) (records : gmap string Record_) (running : gset string) (now : N) (r : Record_) : bool :=
  negb (bool_decide (id r ∈ running)) &&
  match older_than p with None => true | Some age => (updated r <? u64_saturating_sub now age)%N end &&
  match before p with None => true | Some b => (updated r <? b)%N end &&
  (bool_decide (keep p = None) || negb (bool_decide (id r ∈ newest p records))).
Definition older (a b : Record_) : Prop :=
  (updated a < updated b)%N ∨ updated a = updated b ∧ String.le (id a) (id b).
#[export] Instance older_dec : RelDecision older.
Proof. intros a b. unfold older. apply _. Defined.
Definition select (p : Prune) (records : gmap string Record_) (running : gset string) (now : N) : list string :=
  if is_empty p then []
  else id <$> merge_sort older (filter (λ r, matches p records running now r = true) (values records)).

(** ** Ages *)
Definition hour : N := 3600000.
Definition day : N := 86400000.
Definition invalid_age (t : Bytes) : string :=
  "invalid age '" +:+ text t +:+ "': use a number of days (30d), hours (12h) or weeks (2w)".
(** The last character is ASCII where a unit is found, so a byte. *)
Definition unit_of (b : ascii) : option N :=
  if is_byte b "h"%char then Some hour
  else if is_byte b "d"%char then Some day
  else if is_byte b "w"%char then Some (7 * day)%N else None.
Definition parse_age (t : Bytes) : res string N :=
  match last t ≫= unit_of with
  | None => Err (invalid_age t)
  | Some u =>
      let number := removelast t in
      if bool_decide (number = []) || negb (forallb is_ascii_digit number) then Err (invalid_age t)
      else match (if (decimal number <? u64_modulus)%N then
                    if (decimal number * u <? u64_modulus)%N then Some (decimal number * u)%N else None
                  else None) with
           | Some n => Ok n
           | None => Err (invalid_age t)
           end
  end.

Section examples.
Example age_test : (parse_age ∘ bytes) <$> ["30d"; "12h"; "2w"] = [Ok 2592000000%N; Ok 43200000%N; Ok 1209600000%N] ∧
  (res_ok ∘ parse_age ∘ bytes) <$> [""; "d"; "30"; "-1d"; "300000000000000d"] = replicate 5 None.
Proof. by vm_compute. Qed.
Let r (i : string) (u : N) : Record_ := ran_as i (new_record i "shell" "snikk" u).
Example select_test :
  select (mkPrune None None (Some 1%N) false) {["a" := r "a" 1; "b" := r "b" 3; "c" := r "c" 2]} {["c"]} 10 = ["a"].
Proof. by vm_compute. Qed.
End examples.
