(* ===== verification/HistoryText.v ===== *)
(** * A text that satisfies the laws

    A concrete [RecordText]: the text of a value is the digits of its code
    number. The examples apply the theorems about records to it; it stands for
    the library's text only in that it keeps the same laws. *)
From stdpp Require Import countable.
From S2P Require Import Prelude Json Grammar Messages Framing FramingFacts Text History.
From Stdlib Require Import Ascii.

Definition Leaf : Type := Z + (Z + string).
Fixpoint tree_of (v : Value) : gen_tree Leaf :=
  match v with
  | Null => GenNode 0 []
  | Bool b => GenNode (if b then 2 else 1) []
  | Number z => GenLeaf (inl z)
  | Float z => GenLeaf (inr (inl z))
  | String_ s => GenLeaf (inr (inr s))
  | Array l => GenNode 3 (tree_of <$> l)
  | Object o => GenNode 4 ((λ kv, GenNode 5 [GenLeaf (inr (inr kv.1)); tree_of kv.2]) <$> o)
  end.
Fixpoint of_tree (t : gen_tree Leaf) : Value :=
  match t with
  | GenNode 0 _ => Null
  | GenNode 1 _ => Bool false
  | GenNode 2 _ => Bool true
  | GenLeaf (inl z) => Number z
  | GenLeaf (inr (inl z)) => Float z
  | GenLeaf (inr (inr s)) => String_ s
  | GenNode 3 l => Array (of_tree <$> l)
  | GenNode _ l => Object ((λ t, match t with
      | GenNode _ [GenLeaf (inr (inr k)); v] => (k, of_tree v)
      | _ => ("", Null)
      end) <$> l)
  end.
Lemma of_tree_tree v : of_tree (tree_of v) = v.
Proof.
  induction v as [|[]| | | |l IH|o IH] using Value_nested_ind; simpl; try done.
  - f_equal. induction IH as [|v l Hv _ IHl]; csimpl; [done|]. by rewrite Hv, IHl.
  - f_equal. induction IH as [|[k v] o Hv _ IHo]; csimpl; [done|]. simpl in Hv. by rewrite Hv, IHo.
Qed.
Fixpoint bits (p : positive) : Bytes :=
  match p with xH => [] | xO p => "0"%char :: bits p | xI p => "1"%char :: bits p end.
Fixpoint number_of (l : Bytes) : positive :=
  match l with
  | b :: l => if is_byte b "0"%char then xO (number_of l) else if is_byte b "1"%char then xI (number_of l) else xH
  | [] => xH
  end.
Lemma number_bits p : number_of (bits p ++ [LF]) = p.
Proof. induction p as [p IH|p IH|]; simpl; by rewrite ?IH. Qed.

Definition code_text : RecordText := {|
  to_pretty v := bits (countable.encode (tree_of v));
  of_text l := of_tree <$> countable.decode (number_of l) |}.
Lemma code_text_laws : @RecordTextLaws code_text.
Proof. split. intros v _. simpl. rewrite number_bits, decode_encode. simpl. by rewrite of_tree_tree. Qed.

Definition sample (i : string) (u : N) : Record_ := ran_as i (new_record i "shell" "snikk" u).
