(* ===== verification/HistorySpec.v ===== *)
(** * What the recreate records promise

    Proofs about [History.v]: the package lists follow the last final outcome
    of each name within the limits, a record gives up as little as it must to
    fit, pruning selects exactly the records it describes, and a record reads
    back from its JSON form. *)
From S2P Require Import Prelude Json Grammar Messages Framing FramingFacts Text History HistoryText.
From Stdlib Require Import Ascii.

(** ** Package lists *)
Inductive Outcome := Granted | Denied | Inherited.
#[export] Instance Outcome_eq_dec : EqDecision Outcome.
Proof. solve_decision. Defined.
Definition status (p : Packages) (n : string) : option Outcome :=
  if bool_decide (n ∈ approved p) then Some Granted
  else if bool_decide (n ∈ denied p) then Some Denied
  else if bool_decide (n ∈ auto_approve p) then Some Inherited
  else None.
Record lists_wf (p : Packages) : Prop := {
  wf_approved : NoDup (approved p);
  wf_denied : NoDup (denied p);
  wf_auto : NoDup (auto_approve p);
  wf_apart n : n ∈ approved p → (n ∉ denied p) ∧ (n ∉ auto_approve p);
  wf_apart_denied n : n ∈ denied p → (n ∉ auto_approve p) }.

Inductive Change :=
  | Approve (name : string)
  | Deny (name : string)
  | Auto (name : string)
  | Variables (changes : gmap string string).
Section changes.
Context `{RecordText}.
Definition perform (c : Change) : M Record_ string bool :=
  match c with
  | Approve n => approve n
  | Deny n => deny n
  | Auto n => auto n
  | Variables m => set_variables m
  end.
(** What a change does to the record before the limits are checked. *)
Definition changed (c : Change) (r : Record_) : Record_ :=
  match c with
  | Approve n => set_packages (approve_change n (packages r)) r
  | Deny n => set_packages (deny_change n (packages r)) r
  | Auto n => set_packages (auto_change n (packages r)) r
  | Variables m => with_variables (foldl set_variable (variables r) (entries m)) r
  end.
Definition within_limits (r : Record_) : bool :=
  (lenN (approved (packages r)) <=? MAX_NAMES)%N && (lenN (denied (packages r)) <=? MAX_NAMES)%N &&
  (lenN (auto_approve (packages r)) <=? MAX_NAMES)%N &&
  (N.of_nat (base.size (variables r)) <=? MAX_VARIABLES)%N && fits r.

Lemma perform_update c : perform c = update (changed c).
Proof. by destruct c. Qed.
Lemma update_cases f r :
  (outcome_of (update f) r = Ok false ∧ f r = r ∧ state_of (update f) r = r) ∨
  (outcome_of (update f) r = Ok true ∧ f r ≠ r ∧ state_of (update f) r = f r ∧ within_limits (f r) = true) ∨
  (∃ e, outcome_of (update f) r = Err e ∧ f r ≠ r ∧ state_of (update f) r = r ∧ within_limits (f r) = false).
Proof.
  unfold update, within_limits, fits. munfold.
  case_bool_decide as Heq; simpl; [by left|]. right.
  destruct (N.ltb_spec MAX_NAMES (lenN (approved (packages (f r)))));
  destruct (N.ltb_spec MAX_NAMES (lenN (denied (packages (f r)))));
  destruct (N.ltb_spec MAX_NAMES (lenN (auto_approve (packages (f r)))));
  destruct (N.ltb_spec MAX_VARIABLES (N.of_nat (base.size (variables (f r)))));
  destruct (N.ltb_spec MAX_RECORD (size (f r))); simpl;
  first [ left; repeat split; [done|rewrite !andb_true_iff, !N.leb_le; done]
        | right; eexists; repeat split; [done|rewrite <- not_true_iff_false, !andb_true_iff, !N.leb_le; lia] ].
Qed.
End changes.

Lemma elem_of_without m n l : m ∈ without n l ↔ m ≠ n ∧ m ∈ l.
Proof. unfold without. by rewrite list_elem_of_filter. Qed.
Lemma elem_of_add_name m n l : m ∈ add_name n l ↔ m = n ∨ m ∈ l.
Proof.
  unfold add_name. case_bool_decide; [naive_solver|].
  rewrite elem_of_app, list_elem_of_singleton. tauto.
Qed.
Lemma NoDup_without n l : NoDup l → NoDup (without n l).
Proof. apply NoDup_filter. Qed.
Lemma NoDup_add_name n l : NoDup l → NoDup (add_name n l).
Proof.
  unfold add_name. case_bool_decide as Hn; [done|]. intros Hl.
  apply NoDup_app. repeat split; [done| |apply NoDup_singleton].
  intros x Hx ->%list_elem_of_singleton. done.
Qed.
Create HintDb names discriminated.
Create Rewrite HintDb names.
#[export] Hint Rewrite elem_of_without elem_of_add_name : names.
#[export] Hint Resolve NoDup_without NoDup_add_name : names.

(** The abstract lists: an outcome for each name. *)
Definition decided (c : Change) (f : string → option Outcome) (n : string) : option Outcome :=
  match c with
  | Approve m => if decide (n = m) then Some Granted else f n
  | Deny m => if decide (n = m) then Some Denied else f n
  | Auto m => if decide (n = m) then
                match f n with Some Granted => Some Granted | _ => Some Inherited end
              else f n
  | Variables _ => f n
  end.
(** The package lists of [packages (changed c r)]. *)
Definition relisted (c : Change) (p : Packages) : Packages :=
  match c with
  | Approve n => approve_change n p
  | Deny n => deny_change n p
  | Auto n => auto_change n p
  | Variables _ => p
  end.
Lemma packages_changed c r : packages (changed c r) = relisted c (packages r).
Proof. by destruct c. Qed.
Lemma relisted_wf c p : lists_wf p → lists_wf (relisted c p).
Proof.
  intros [H1 H2 H3 H4 H5].
  destruct c as [n|n|n|]; simpl; [..|done]; unfold approve_change, deny_change, auto_change;
    try case_bool_decide; try done; split; simpl; try solve [auto with names];
    intros m; autorewrite with names; try specialize (H4 m); try specialize (H5 m);
    destruct (decide (m = n)) as [->|]; naive_solver.
Qed.
Lemma relisted_status c p n : lists_wf p → status (relisted c p) n = decided c (status p) n.
Proof.
  intros [_ _ _ H4 H5]. specialize (H4 n). specialize (H5 n).
  destruct c as [m|m|m|]; simpl; [..|done]; unfold status, approve_change, deny_change, auto_change;
    repeat case_bool_decide; simpl in *; try autorewrite with names in *; repeat case_decide; naive_solver.
Qed.

Section runs.
Context `{RecordText}.
(** A life of the record: each change with whether it was accepted. *)
Fixpoint life (cs : list Change) (r : Record_) : list (Change * bool) * Record_ :=
  match cs with
  | [] => ([], r)
  | c :: cs =>
      let '(o, r) := perform c r in
      let '(l, r) := life cs r in
      ((c, match o with Ok _ => true | _ => false end) :: l, r)
  end.
Definition accepted (l : list (Change * bool)) : list Change := (filter (λ cb, cb.2 = true) l).*1.
Definition decided_all (cs : list Change) (f : string → option Outcome) : string → option Outcome :=
  foldl (λ f c, decided c f) f cs.
Lemma decided_ext c f g : (∀ n, f n = g n) → ∀ n, decided c f n = decided c g n.
Proof. intros Hfg n. destruct c; simpl; by rewrite ?Hfg. Qed.
Lemma decided_all_ext cs f g : (∀ n, f n = g n) → ∀ n, decided_all cs f n = decided_all cs g n.
Proof.
  revert f g. induction cs as [|c cs IH]; intros f g Hfg; [done|]. simpl.
  apply IH, decided_ext, Hfg.
Qed.

(** The package lists of a record refine a map from names to their last final
    outcome: over any sequence of grants, denials, inherited authority and
    variables, the lists stay duplicate-free and disjoint, the limits hold,
    and the lists are exactly what the accepted changes decide; a change that
    is refused counts for nothing. *)
Theorem package_lists_follow_outcomes cs r :
  lists_wf (packages r) → within_limits r = true →
  let '(l, r') := life cs r in
  l.*1 = cs ∧ lists_wf (packages r') ∧ within_limits r' = true ∧
  ∀ n, status (packages r') n = decided_all (accepted l) (status (packages r)) n.
Proof.
  revert r. induction cs as [|c cs IH]; intros r Hwf Hlim; [done|]. simpl.
  pose proof (update_cases (changed c) r) as Hc. rewrite perform_update.
  unfold outcome_of, state_of in Hc. destruct (update (changed c) r) as [o r1]. simpl in Hc.
  assert (lists_wf (packages r1) ∧ within_limits r1 = true ∧
    ∀ n, status (packages r1) n =
      decided_all (if match o with Ok _ => true | _ => false end then [c] else []) (status (packages r)) n)
    as (Hwf1 & Hlim1 & Hst1).
  { pose proof (relisted_wf c _ Hwf) as Hr. rewrite <- packages_changed in Hr.
    destruct Hc as [(-> & Hsame & ->)|[(-> & _ & -> & Hl)|(e & -> & _ & -> & _)]]; [|by split_and!; [..|intros n; simpl; rewrite packages_changed; apply relisted_status]|done].
    split_and!; [done..|]. intros n. simpl.
    rewrite <- relisted_status, <- packages_changed by done. by rewrite Hsame. }
  specialize (IH r1 Hwf1 Hlim1). destruct (life cs r1) as [l r'].
  destruct IH as (<- & ? & ? & Hst). split_and!; [done..|]. intros n. rewrite Hst.
  rewrite (decided_all_ext _ _ _ Hst1). unfold accepted. rewrite filter_cons. simpl.
  by destruct o as [b|e|].
Qed.
End runs.

(** ** Fitting *)
Definition cleared (s : Skipped) : Skipped := mkSkipped (sk_name s) "".
(** What is left of a record after each thing given up: the reasons of the
    last [k] skipped packages, then [k] skipped packages, then the oldest [k]
    goblins. *)
Definition without_reasons (r : Record_) (k : nat) : Record_ :=
  let n := length (skipped r) in
  set_skipped (take (n - k) (skipped r) ++ (cleared <$> drop (n - k) (skipped r))) r.
Definition without_skipped (r : Record_) (k : nat) : Record_ :=
  set_skipped (cleared <$> take (length (skipped r) - k) (skipped r)) r.
Definition without_sessions (r : Record_) (k : nat) : Record_ :=
  set_sessions (drop k (sessions r)) (set_skipped [] r).
Definition sacrifices (r : Record_) : list Record_ :=
  (without_reasons r <$> seq 1 (length (skipped r))) ++
  (without_skipped r <$> seq 1 (length (skipped r))) ++
  (without_sessions r <$> seq 1 (pred (length (sessions r)))).

Section fitting.
Context `{RecordText}.
Fixpoint first_fitting (l : list Record_) : option Record_ :=
  match l with [] => None | r :: l => if fits r then Some r else first_fitting l end.
Lemma first_fitting_app l k :
  first_fitting (l ++ k) = match first_fitting l with Some r => Some r | None => first_fitting k end.
Proof. induction l as [|r l IH]; simpl; [done|]. by destruct (fits r). Qed.
Definition stage (o : option Record_) (otherwise : Record_) : Record_ + Record_ :=
  match o with Some r => inl r | None => inr otherwise end.

Lemma set_skipped_twice l k r : set_skipped l (set_skipped k r) = set_skipped l r.
Proof. done. Qed.
Lemma clear_reason_step r k : (k < length (skipped r))%nat →
  clear_reason (length (skipped r) - S k) (without_reasons r k) = without_reasons r (S k).
Proof.
  intros Hk. unfold clear_reason, without_reasons. rewrite set_skipped_twice. f_equal. simpl.
  set (n := length (skipped r)) in *. set (i := n - S k).
  replace (n - k) with (S i) by lia.
  destruct (lookup_lt_is_Some_2 (skipped r) i) as [s Hs]; [lia|].
  rewrite (take_S_r _ _ _ Hs), <- app_assoc. simpl.
  rewrite alter_app_r_alt by (rewrite length_take; lia). f_equal.
  rewrite length_take. replace (i - i `min` length (skipped r)) with 0 by lia. simpl.
  by rewrite (drop_S _ _ _ Hs).
Qed.
Lemma clear_reasons_stages r k m : (k + m = length (skipped r))%nat →
  clear_reasons m (without_reasons r k) =
  stage (first_fitting (without_reasons r <$> seq (S k) m)) (without_reasons r (length (skipped r))).
Proof.
  revert k. induction m as [|m IH]; intros k Hk; simpl.
  - by replace k with (length (skipped r)) by lia.
  - assert (clear_reason m (without_reasons r k) = without_reasons r (S k)) as ->.
    { rewrite <- clear_reason_step by lia. f_equal. lia. }
    destruct (fits _); [done|]. apply IH. lia.
Qed.
Lemma pop_skipped_step r k : (k < length (skipped r))%nat →
  set_skipped (removelast (skipped (without_skipped r k))) (without_skipped r k) = without_skipped r (S k).
Proof.
  intros Hk. unfold without_skipped. rewrite set_skipped_twice. f_equal. simpl.
  rewrite !fmap_take. set (l := cleared <$> skipped r).
  replace (length (skipped r)) with (length l) by apply length_fmap.
  assert (k < length l) by (unfold l; rewrite length_fmap; lia).
  replace (length l - k) with (S (length l - S k)) by lia.
  apply removelast_firstn. lia.
Qed.
Lemma pop_skipped_stages r k m : (k + m = length (skipped r))%nat →
  pop_skipped m (without_skipped r k) =
  stage (first_fitting (without_skipped r <$> seq (S k) m)) (without_skipped r (length (skipped r))).
Proof.
  revert k. induction m as [|m IH]; intros k Hk.
  - simpl. by replace k with (length (skipped r)) by lia.
  - cbn [pop_skipped]. rewrite pop_skipped_step by lia. simpl. destruct (fits _); [done|]. apply IH. lia.
Qed.
Lemma drop_sessions_stages r k m :
  drop_sessions m (without_sessions r k) =
  stage (first_fitting (without_sessions r <$> seq (S k) m)) (without_sessions r (k + m)).
Proof.
  revert k. induction m as [|m IH]; intros k; [simpl; by rewrite Nat.add_0_r|].
  cbn [drop_sessions].
  assert (set_sessions (tail (sessions (without_sessions r k))) (without_sessions r k) =
    without_sessions r (S k)) as ->.
  { unfold without_sessions, set_sessions. simpl. f_equal. rewrite <- Nat.add_1_r, <- drop_drop.
    by destruct (drop k (sessions r)). }
  simpl. destruct (fits _); [done|]. rewrite IH. do 2 f_equal. lia.
Qed.
Lemma without_reasons_all r : without_reasons r (length (skipped r)) = without_skipped r 0.
Proof.
  unfold without_reasons, without_skipped. rewrite Nat.sub_diag, Nat.sub_0_r, firstn_all. done.
Qed.
Lemma without_skipped_all r : without_skipped r (length (skipped r)) = without_sessions r 0.
Proof. unfold without_skipped, without_sessions. rewrite Nat.sub_diag. by destruct r. Qed.
Lemma length_without_skipped r : length (skipped (without_skipped r 0)) = length (skipped r).
Proof. simpl. rewrite length_fmap, length_take. lia. Qed.

(** Fitting a record gives up as little as it must, in the documented order:
    it leaves the first of the record and its successive sacrifices that a
    reader accepts, and reports failure, with everything given up, when there
    is none. *)
Theorem fit_gives_up_the_least r :
  fit r = match first_fitting (r :: sacrifices r) with
          | Some r' => (true, r')
          | None => (false, without_sessions r (pred (length (sessions r))))
          end.
Proof.
  unfold fit, sacrifices. simpl. destruct (fits r); [done|].
  replace r with (without_reasons r 0) at 2.
  2:{ unfold without_reasons. rewrite Nat.sub_0_r, firstn_all, drop_all, app_nil_r. by destruct r. }
  rewrite clear_reasons_stages by done. rewrite !first_fitting_app.
  destruct (first_fitting (without_reasons r <$> _)); [done|]. cbn [stage].
  rewrite without_reasons_all, length_without_skipped, pop_skipped_stages by lia.
  destruct (first_fitting (without_skipped r <$> _)); [done|]. cbn [stage].
  rewrite without_skipped_all. change (sessions (without_sessions r 0)) with (sessions r). rewrite drop_sessions_stages.
  by destruct (first_fitting (without_sessions r <$> _)).
Qed.
Lemma first_fitting_Some l r : first_fitting l = Some r → r ∈ l ∧ fits r = true.
Proof.
  induction l as [|x l IH]; simpl; [done|]. destruct (fits x) eqn:Hx.
  - intros [= <-]. split; [left|done].
  - intros [??]%IH. split; [by right|done].
Qed.
(** What no sacrifice touches. *)
Definition kept_whole (r : Record_) :=
  (version r, id r, configuration r, agent_name r, cwd r, (scope r, dev_shell r, docker_enabled r),
   (packages r, variables r), latest r, (created r, updated r, stopped r)).
Lemma last_drop {A} (l : list A) k : (k < length l)%nat → last (drop k l) = last l.
Proof.
  intros Hk. rewrite <- (take_drop k l) at 2. rewrite last_app.
  destruct (last (drop k l)) eqn:Hl; [done|]. apply last_None in Hl.
  apply (f_equal length) in Hl. rewrite length_drop in Hl. simpl in Hl. lia.
Qed.
Lemma fit_true r r' : fit r = (true, r') → fits r' = true ∧ kept_whole r' = kept_whole r ∧
  sk_name <$> skipped r' `prefix_of` sk_name <$> skipped r ∧ sessions r' `suffix_of` sessions r.
Proof.
  rewrite fit_gives_up_the_least. destruct (first_fitting _) as [r1|] eqn:Hf; [|done].
  intros [= ->]. apply first_fitting_Some in Hf as [Hin Hfit]. split; [done|].
  unfold sacrifices in Hin. rewrite elem_of_cons, !elem_of_app, !list_elem_of_fmap in Hin.
  destruct Hin as [->|[(k & -> & _)|[(k & -> & _)|(k & -> & Hk%elem_of_seq)]]]; split; try done; simpl.
  - split; [|done]. rewrite fmap_app, <- list_fmap_compose.
    change (sk_name ∘ cleared) with sk_name. by rewrite <- fmap_app, take_drop.
  - split; [|done]. rewrite <- list_fmap_compose. change (sk_name ∘ cleared) with sk_name.
    rewrite fmap_take. apply prefix_take.
  - unfold kept_whole, latest. simpl. rewrite last_drop by lia. done.
  - split; [apply prefix_nil|]. apply suffix_drop.
Qed.
End fitting.

(** ** Pruning *)
Section ranks.
Context {A : Type} `{EqDecision A} (R : relation A) `{!RelDecision R}.
(** In a sorted list, the first [n] leave out exactly the elements with at
    least [n] others before them. *)
Lemma not_in_take l n x :
  StronglySorted R l → NoDup l → (∀ y, y ∈ l → R x y → R y x → x = y) → x ∈ l →
  x ∉ take n l ↔ (n <= length (filter (λ y, R y x ∧ y ≠ x) l))%nat.
Proof.
  intros Hs Hd Ha (l1 & l2 & ->)%list_elem_of_split.
  apply StronglySorted_app in Hs as (Hl & _ & Hr). apply NoDup_app in Hd as (_ & Hd1 & Hd2).
  apply NoDup_cons in Hd2 as [Hd2 _].
  assert (filter (λ y, R y x ∧ y ≠ x) (l1 ++ x :: l2) = l1) as ->.
  { rewrite filter_app, filter_cons, decide_False by naive_solver.
    rewrite filter_all_in, filter_nil_ext, app_nil_r; [done| |].
    - intros y Hy [Hyx Hne]. apply StronglySorted_inv in Hr as [_ Hr].
      rewrite Forall_forall in Hr. apply Hne. symmetry. apply Ha; [set_solver| |done].
      by apply Hr.
    - intros y Hy. split; [apply Hl; set_solver|]. intros ->. apply (Hd1 x Hy). left. }
  rewrite take_app, elem_of_app. destruct (n - length l1) eqn:Hn; simpl.
  - split; [lia|]. intros _ [Hx|Hx]; [|by apply not_elem_of_nil in Hx].
    apply elem_of_take in Hx as (j & Hj & _). apply list_elem_of_lookup_2 in Hj.
    apply (Hd1 x Hj). left.
  - split; [|lia]. intros []. right. left.
Qed.
End ranks.

Definition keyed (m : gmap string Record_) : Prop := ∀ k r, m !! k = Some r → id r = k.
Lemma keyed_values m r : keyed m → r ∈ values m ↔ m !! id r = Some r.
Proof.
  intros Hm. rewrite elem_of_values. split; [|naive_solver].
  intros [k Hk]. by rewrite (Hm _ _ Hk).
Qed.
Lemma NoDup_values m : keyed m → NoDup (values m).
Proof.
  intros Hm. unfold values. apply (NoDup_fmap_1 id). rewrite <- list_fmap_compose.
  assert (id ∘ snd <$> entries m = keys m) as ->; [|apply NoDup_keys].
  unfold keys. apply list_fmap_ext. intros i [k r] Hi. simpl.
  by apply Hm, elem_of_entries, (list_elem_of_lookup_2 _ i).
Qed.
Lemma keyed_id_inj m a b : keyed m → a ∈ values m → b ∈ values m → id a = id b → a = b.
Proof. intros Hm Ha Hb He. rewrite keyed_values in Ha, Hb by done. rewrite He in Ha. congruence. Qed.

#[export] Instance newer_total : Total newer.
Proof.
  intros a b. unfold newer. destruct (N.lt_total (updated a) (updated b)) as [?|[?|?]]; [by right; left| |by left; left].
  destruct (total String.le (id a) (id b)); eauto.
Qed.
#[export] Instance newer_trans : Transitive newer.
Proof.
  intros a b c [?|[? ?]] [?|[? ?]]; [left|left|left|right]; try lia. split; [lia|]. by transitivity (id b).
Qed.
#[export] Instance older_total : Total older.
Proof.
  intros a b. unfold older. destruct (N.lt_total (updated a) (updated b)) as [?|[?|?]]; [by left; left| |by right; left].
  destruct (total String.le (id a) (id b)); eauto.
Qed.
#[export] Instance older_trans : Transitive older.
Proof.
  intros a b c [?|[? ?]] [?|[? ?]]; [left|left|left|right]; try lia. split; [lia|]. by transitivity (id b).
Qed.

(** Records more recent than [r]. *)
Definition more_recent (m : gmap string Record_) (r : Record_) : list Record_ :=
  filter (λ r', newer r' r ∧ r' ≠ r) (values m).
Definition kept_by (p : Prune) (m : gmap string Record_) (r : Record_) : Prop :=
  ∀ n, keep p = Some n → (n <= lenN (more_recent m r))%N.
Lemma newest_first_perm m : newest_first m ≡ₚ values m.
Proof. apply merge_sort_Permutation. Qed.
Lemma not_newest p m r : keyed m → r ∈ values m → ∀ n, keep p = Some n →
  id r ∉ newest p m ↔ (n <= lenN (more_recent m r))%N.
Proof.
  intros Hm Hr n Hn. unfold newest, more_recent, lenN. rewrite Hn. simpl.
  assert (id r ∉ id <$> take (N.to_nat n) (newest_first m) ↔ r ∉ take (N.to_nat n) (newest_first m)) as ->.
  { apply not_iff_compat. rewrite list_elem_of_fmap. split; [|naive_solver]. intros (r' & Hid & Hin).
    rewrite (keyed_id_inj m r r' Hm Hr); [done| |done]. rewrite <- newest_first_perm.
    by apply elem_of_take in Hin as (j & Hj%list_elem_of_lookup_2 & _). }
  rewrite (not_in_take newer), newest_first_perm; [lia|..].
  - apply StronglySorted_merge_sort; apply _.
  - rewrite newest_first_perm. by apply NoDup_values.
  - intros y Hy. rewrite newest_first_perm in Hy. intros H1 H2. apply (keyed_id_inj m); [done..|].
    destruct H1 as [?|[? H1]], H2 as [?|[? H2]]; try lia. by apply (anti_symm String.le).
  - by rewrite newest_first_perm.
Qed.

Definition older_in (m : gmap string Record_) (i j : string) : Prop :=
  ∀ a b, m !! i = Some a → m !! j = Some b → older a b.
Lemma sorted_ids m l : StronglySorted older l → (∀ r, r ∈ l → m !! id r = Some r) →
  StronglySorted (older_in m) (id <$> l).
Proof.
  intros Hs. induction Hs as [|r l Hl IH Hr]; intros Hin; csimpl; constructor.
  - apply IH. intros x Hx. apply Hin. by right.
  - apply Forall_forall. intros i (x & -> & Hx)%list_elem_of_fmap a b Ha Hb.
    rewrite Hin in Ha by left. rewrite Hin in Hb by (by right). simplify_eq.
    by apply (proj1 (Forall_forall _ _) Hr).
Qed.

(** [history.prune] deletes exactly the records it describes: nothing without
    a criterion, never a running record, and otherwise those that meet every
    criterion given, where keeping [n] means leaving alone each record that
    has fewer than [n] more recent ones; the least recently updated first. *)
Theorem prune_selects_exactly p m running now : keyed m →
  NoDup (select p m running now) ∧
  StronglySorted (older_in m) (select p m running now) ∧
  ∀ i, i ∈ select p m running now ↔
    is_empty p = false ∧ i ∉ running ∧ ∃ r, m !! i = Some r ∧
    (∀ age, older_than p = Some age → (updated r < now - age)%N) ∧
    (∀ b, before p = Some b → (updated r < b)%N) ∧ kept_by p m r.
Proof.
  intros Hm. unfold select. destruct (is_empty p).
  { split_and!; [constructor..|]. intros i. split; [by intros ?%not_elem_of_nil|by intros []]. }
  set (l := filter (λ r, matches p m running now r = true) (values m)).
  assert (∀ r, r ∈ merge_sort older l → m !! id r = Some r) as Hin.
  { intros r. unfold l. rewrite merge_sort_Permutation, list_elem_of_filter, keyed_values by done. tauto. }
  assert (∀ r, matches p m running now r = true ↔ id r ∉ running ∧
    (∀ age, older_than p = Some age → (updated r < now - age)%N) ∧
    (∀ b, before p = Some b → (updated r < b)%N) ∧ (keep p = None ∨ id r ∉ newest p m)) as Hmatch.
  { intros r. unfold matches, u64_saturating_sub.
    rewrite !andb_true_iff, orb_true_iff, !negb_true_iff, !bool_decide_eq_false, bool_decide_eq_true.
    destruct (older_than p), (before p); rewrite ?N.ltb_lt; naive_solver. }
  split_and!.
  - unfold l. rewrite merge_sort_Permutation. apply (NoDup_fmap_2_strong id); [|by apply NoDup_filter, NoDup_values].
    intros a b [_ Ha]%list_elem_of_filter [_ Hb]%list_elem_of_filter. by apply (keyed_id_inj m).
  - apply sorted_ids; [|done]. apply StronglySorted_merge_sort; apply _.
  - intros i. rewrite list_elem_of_fmap. split.
    + intros (r & -> & Hr). split; [done|]. pose proof (Hin r Hr).
      unfold l in Hr. rewrite merge_sort_Permutation, list_elem_of_filter, Hmatch in Hr.
      destruct Hr as ((? & ? & ? & Hk) & Hv). split; [done|]. exists r. split_and!; [done..|].
      intros n Hn. apply not_newest with p; [done..|]. destruct Hk; [congruence|done].
    + intros (_ & Hrun & r & Hr & Ho & Hb & Hk). pose proof (Hm _ _ Hr) as <-. exists r. split; [done|].
      unfold l. rewrite merge_sort_Permutation, list_elem_of_filter, Hmatch, keyed_values by done.
      split_and!; [done..| |done]. destruct (keep p) as [n|] eqn:Hn; [right|by left].
      rewrite not_newest by (done || by apply keyed_values). by apply Hk.
Qed.

(** ** JSON *)
Lemma record_object ver i c a w sc ds de p vs ss sk cr up st :
  json_object [("version", ver); ("id", i); ("configuration", c); ("agent_name", a); ("cwd", w);
    ("scope", sc); ("dev_shell", ds); ("docker_enabled", de); ("packages", p); ("variables", vs);
    ("sessions", ss); ("skipped", sk); ("created", cr); ("updated", up); ("stopped", st)] =
  Object [("agent_name", a); ("configuration", c); ("created", cr); ("cwd", w); ("dev_shell", ds);
    ("docker_enabled", de); ("id", i); ("packages", p); ("scope", sc); ("sessions", ss);
    ("skipped", sk); ("stopped", st); ("updated", up); ("variables", vs); ("version", ver)].
Proof. by vm_compute. Qed.
Lemma as_strs l : mapM as_str (String_ <$> l) = Some l.
Proof. by apply mapM_fmap_Some. Qed.
Lemma as_json_u64 n : (n < u64_modulus)%N → as_u64 (json_u64 n) = Some n.
Proof.
  intros Hn. unfold as_u64, json_u64, u64_modulus in *.
  rewrite (proj2 (Z.leb_le _ _)), (proj2 (Z.ltb_lt _ _)) by lia. simpl. by rewrite N2Z.id.
Qed.
Lemma packages_fields a d o :
  default_fields 2 ["approved"; "denied"; "auto_approve"]
    (json_object [("approved", a); ("denied", d); ("auto_approve", o)]) =
  Some (object_get [("approved", a); ("auto_approve", o); ("denied", d)]).
Proof. by vm_compute. Qed.
Lemma strs_value f k l : f k = Some (json_strs l) → field_strs f k = Some l.
Proof. intros Hf. unfold field_strs. rewrite Hf. apply as_strs. Qed.
Lemma str_value f k s : f k = Some (String_ s) → field_str f k = Some s.
Proof. intros Hf. unfold field_str. by rewrite Hf. Qed.
Lemma u64_value f k n : f k = Some (json_u64 n) → (n < u64_modulus)%N → field_u64 f k = Some n.
Proof. intros Hf Hn. unfold field_u64. rewrite Hf. by apply as_json_u64. Qed.
Lemma decode_packages_value p : decode_packages (packages_value p) = Some p.
Proof.
  unfold decode_packages, packages_value. rewrite packages_fields. cbn [mbind option_bind].
  set (f := object_get _). unfold field_strs_or.
  change (f "auto_approve") with (Some (json_strs (auto_approve p))).
  rewrite (strs_value f "approved" (approved p)), (strs_value f "denied" (denied p)),
    (strs_value f "auto_approve" (auto_approve p)) by done. by destruct p.
Qed.
Lemma decode_skipped_value s : decode_skipped (skipped_value s) = Some s.
Proof. by destruct s. Qed.
Lemma decode_skipped_values l : mapM decode_skipped (skipped_value <$> l) = Some l.
Proof. apply mapM_fmap_Some, decode_skipped_value. Qed.
Lemma foldl_insert {V} (l : list (string * V)) m : NoDup l.*1 →
  foldl (λ m kv, <[kv.1 := kv.2]> m) m l = (list_to_map l ∪ m : gmap string V).
Proof.
  revert m. induction l as [|[k v] l IH]; intros m Hd; simpl; [by rewrite map_empty_union|].
  apply NoDup_cons in Hd as [Hk Hd]. rewrite IH by done.
  rewrite <- insert_union_r, <- insert_union_l; [done|]. by apply not_elem_of_list_to_map_1.
Qed.
Lemma entries_to_map {V} (m : gmap string V) : list_to_map (entries m) = m.
Proof.
  rewrite (list_to_map_proper (entries m) (map_to_list m)); [|apply NoDup_keys|apply entries_perm].
  apply list_to_map_to_list.
Qed.
Lemma decode_variables_value m :
  decode_variables (Object ((λ kv, (kv.1, String_ kv.2)) <$> entries m)) = Some m.
Proof.
  unfold decode_variables. cbn -[mapM].
  rewrite mapM_fmap_Some by (by intros []).
  simpl. by rewrite foldl_insert, entries_to_map, map_union_empty by apply NoDup_keys.
Qed.
Lemma opt_str_value f k o : f k = Some (json_opt_str o) → field_opt_str f k = Some o.
Proof. intros Hf. unfold field_opt_str. rewrite Hf. by destruct o. Qed.
Lemma opt_u64_value f k o : f k = Some (json_opt json_u64 o) → (∀ n, o = Some n → (n < u64_modulus)%N) →
  field_opt_u64 f k = Some o.
Proof.
  intros Hf Ho. unfold field_opt_u64. rewrite Hf. destruct o as [n|]; [|done]. cbn [json_opt].
  specialize (Ho n eq_refl). by rewrite (as_json_u64 n Ho).
Qed.

(** The numbers of a record have the widths of its fields. *)
Definition machine_sized (r : Record_) : Prop :=
  (version r < u32_modulus)%N ∧ (created r < u64_modulus)%N ∧ (updated r < u64_modulus)%N ∧
  ∀ n, stopped r = Some n → (n < u64_modulus)%N.
Lemma u32_value f k n : f k = Some (json_u64 n) → (n < u32_modulus)%N → field_u32 f k = Some n.
Proof.
  intros Hf Hn. unfold field_u32. rewrite (u64_value f k n Hf) by (unfold u32_modulus, u64_modulus in *; lia).
  simpl. by rewrite (proj2 (N.ltb_lt _ _)).
Qed.
(** A record reads back from the value it is written as. *)
Theorem record_reads_back r : machine_sized r → decode_record (record_value r) = Some r.
Proof.
  intros (Hv & Hc & Hu & Hs). unfold decode_record, record_value. rewrite record_object.
  change (struct_fields _ _) with (Some (object_get
    [("agent_name", String_ (agent_name r)); ("configuration", String_ (configuration r));
     ("created", json_u64 (created r)); ("cwd", json_opt_str (text <$> cwd r));
     ("dev_shell", json_opt_str (dev_shell r)); ("docker_enabled", Bool (docker_enabled r));
     ("id", String_ (id r)); ("packages", packages_value (packages r));
     ("scope", json_opt_str (scope r)); ("sessions", json_strs (sessions r));
     ("skipped", Array (skipped_value <$> skipped r)); ("stopped", json_opt json_u64 (stopped r));
     ("updated", json_u64 (updated r));
     ("variables", Object ((λ kv, (kv.1, String_ kv.2)) <$> entries (variables r)));
     ("version", json_u64 (version r))])). cbn [mbind option_bind].
  set (f := object_get _).
  assert (field_u32 f "version" = Some (version r)) as -> by (by apply u32_value).
  assert (field_opt_str f "cwd" = Some (text <$> cwd r)) as -> by (by apply opt_str_value).
  assert (field_opt_str f "scope" = Some (scope r)) as -> by (by apply opt_str_value).
  assert (field_opt_str f "dev_shell" = Some (dev_shell r)) as -> by (by apply opt_str_value).
  assert (field_opt_u64 f "stopped" = Some (stopped r)) as -> by (by apply opt_u64_value).
  assert (f "packages" = Some (packages_value (packages r))) as -> by done.
  assert (f "skipped" = Some (Array (skipped_value <$> skipped r))) as -> by done.
  assert (f "variables" = Some (Object ((λ kv, (kv.1, String_ kv.2)) <$> entries (variables r)))) as -> by done.
  assert (field_bool f "docker_enabled" = Some (docker_enabled r)) as -> by done.
  rewrite (str_value f "id" (id r)), (str_value f "configuration" (configuration r)),
    (str_value f "agent_name" (agent_name r)), (strs_value f "sessions" (sessions r)),
    (u64_value f "created" (created r)), (u64_value f "updated" (updated r)) by done.
  cbn [mbind option_bind as_array].
  rewrite decode_packages_value, decode_variables_value, decode_skipped_values. simpl.
  destruct r as [? ? ? ? [w|]]; simpl; by rewrite ?bytes_text.
Qed.

(** ** Examples *)
Section examples.
#[local] Existing Instance code_text.
Let life_of : list Change := [Auto "jq"; Approve "git"; Deny "jq"; Auto "git"; Approve "jq"; Deny "fd"].
Lemma package_lists_follow_outcomes_witness : ∃ l r', life life_of (sample "a" 1) = (l, r') ∧
  status (packages r') "jq" = decided_all (accepted l) (λ _, None) "jq" ∧ approved (packages r') = ["git"; "jq"].
Proof.
  pose proof (package_lists_follow_outcomes life_of (sample "a" 1)
    ltac:(split; simpl; solve [constructor|set_solver]) ltac:(by vm_compute)) as Ht.
  destruct (life life_of (sample "a" 1)) as [l r'] eqn:Hl. exists l, r'. split; [done|].
  destruct Ht as (_ & _ & _ & Ht). split; [apply Ht|].
  apply (f_equal snd) in Hl. simpl in Hl. rewrite <- Hl. by vm_compute.
Defined.
Let three : gmap string Record_ := {["a" := sample "a" 1; "b" := sample "b" 3; "c" := sample "c" 2]}.
Lemma prune_selects_exactly_witness : keyed three ∧
  NoDup (select (mkPrune None None (Some 1%N) false) three {["c"]} 10) ∧
  "a" ∈ select (mkPrune None None (Some 1%N) false) three {["c"]} 10.
Proof.
  assert (keyed three) as Hk by (intros k r; unfold three; rewrite !lookup_insert_Some, lookup_singleton_Some; naive_solver).
  destruct (prune_selects_exactly (mkPrune None None (Some 1%N) false) three {["c"]} 10 Hk) as (Hd & _ & Hin).
  split_and!; [done|done|]. apply Hin. split; [done|]. split; [set_solver|].
  exists (sample "a" 1). split; [done|]. split; [done|]. split; [done|]. intros n [= <-]. by vm_compute.
Defined.
Lemma record_reads_back_witness : machine_sized (sample "a" 1) ∧
  decode_record (record_value (sample "a" 1)) = Some (sample "a" 1).
Proof.
  assert (machine_sized (sample "a" 1)) as Hm by (unfold machine_sized; simpl; done).
  split; [done|]. by apply record_reads_back.
Defined.
End examples.
