(* ===== verification/HistoryStore.v ===== *)
(** * The history store

    [Store] of [packages/daemon/src/history.rs]: the records in memory, the
    queue of the writer thread, one batch of it on the file system, and the
    outcomes it reports. The directory is a map from names to files with what
    a crash may leave of it; every system call takes the next of a list of
    answers, and when they run out the machine has stopped: the outcome
    [Panic] is a crash at that point.
    The theorems are in [HistoryStoreSpec.v]. *)
From S2P Require Import Prelude Json Grammar Messages Framing FramingFacts Text History.
From Stdlib Require Import Ascii.

(** ** The directory *)

(** A call succeeds, or fails; a failed write may have written a part. *)
Inductive Call := Done | Fails (message : string) (written : nat).
(** A file's bytes, and whether [sync_all] has made them durable. *)
Record File := mkFile { content : Bytes; flushed : bool }.
Notation Dir := (gmap string File).
(** The directory as processes see it, and as it was since the last [sync]. *)
Record Disk := mkDisk { files : Dir; past : list Dir; calls : list Call }.
Definition D := M Disk string.
Definition changing (f : Dir → Dir) (d : Disk) : Disk :=
  mkDisk (f (files d)) (files d :: past d) (tail (calls d)).
Definition sys (ok : Dir → Dir) (part : nat → Dir → Dir) : D unit := λ d,
  match calls d with
  | [] => (Panic, d)
  | Done :: _ => (Ok tt, changing ok d)
  | Fails e n :: _ => (Err e, changing (part n) d)
  end.
Definition untouched (n : nat) (f : Dir) : Dir := f.
(** A directory fsync makes the renames and deletions in it durable. *)
Definition sync : D unit := λ d,
  match calls d with
  | [] => (Panic, d)
  | Done :: cs => (Ok tt, mkDisk (files d) [] cs)
  | Fails e _ :: cs => (Err e, mkDisk (files d) (past d) cs)
  end.
(** What a machine that stops now may find: each name as it is or as it was
    at some time since the last [sync], a file that was not flushed with any
    contents. *)
Definition finds (x : option File) (c : option Bytes) : Prop :=
  match x with
  | None => c = None
  | Some x => ∃ b, c = Some b ∧ (flushed x = true → b = content x)
  end.
Definition crash (d : Disk) (f : gmap string Bytes) : Prop :=
  ∀ n, ∃ m, m ∈ files d :: past d ∧ finds (m !! n) (f !! n).

Definition file_name (id : string) : string := id +:+ ".json".
Definition temp_name (id : string) : string := ".tmp-" +:+ id +:+ ".json".
Definition rename (a b : string) (f : Dir) : Dir :=
  match f !! a with Some c => <[b := c]> (delete a f) | None => f end.

(** Revisions of a record that wait to be written: the newest only. *)
Notation Pending := (gmap string Record_).

Section store.
Context `{RecordText}.

(** ** Writing and removing files *)
Definition write_steps (r : Record_) : D unit :=
  let temp := temp_name (id r) in
  _ ← sys <[temp := mkFile [] false]> untouched;
  match record_text r with
  | None => throw "path contains invalid UTF-8 characters"
  | Some t =>
      _ ← sys <[temp := mkFile t false]> (λ n, <[temp := mkFile (take n t) false]>);
      _ ← sys <[temp := mkFile (t ++ [LF]) false]> untouched;
      _ ← sys <[temp := mkFile (t ++ [LF]) true]> untouched;
      _ ← sys (rename temp (file_name (id r))) untouched;
      sync
  end.
Definition write (r : Record_) : D unit :=
  if negb (identifier (id r)) then throw "invalid record id"
  else λ s, match write_steps r s with
            | (Err e, s) =>
                match sys (delete (temp_name (id r))) untouched s with
                | (Panic, s) => (Panic, s)
                | (_, s) => (Err e, s)
                end
            | other => other
            end.

Record Deleted := mkDeleted { tag : option N; removed : list string; failed : list (string * string) }.
(** A file that is not there counts as removed. *)
Definition remove_file (i : string) : D (option string) := λ s,
  let absent := bool_decide (files s !! file_name i = None) in
  match sys (delete (file_name i)) untouched s with
  | (Ok _, s) => (Ok None, s)
  | (Err e, s) => (Ok (if absent then None else Some e), s)
  | (Panic, s) => (Panic, s)
  end.
Fixpoint remove_files (ids : list string) : D (list string * list (string * string)) :=
  match ids with
  | [] => mret ([], [])
  | i :: ids =>
      e ← remove_file i;
      p ← remove_files ids;
      mret match e with
           | None => (i :: p.1, p.2)
           | Some e => (p.1, (i, e) :: p.2)
           end
  end.
(** An error as a value. *)
Definition attempt (m : D unit) : D (option string) := λ s,
  match m s with
  | (Ok _, s) => (Ok None, s)
  | (Err e, s) => (Ok (Some e), s)
  | (Panic, s) => (Panic, s)
  end.
Definition remove (ids : list string) (t : option N) : D Deleted :=
  p ← remove_files ids;
  if bool_decide (p.1 = []) then mret (mkDeleted t p.1 p.2)
  else
    e ← attempt sync;
    mret match e with
         | None => mkDeleted t p.1 p.2
         | Some e => mkDeleted t [] (p.2 ++ ((λ i, (i, e)) <$> p.1))
         end.

(** ** One batch of the writer *)
Inductive Op :=
  | Write (r : Record_)
  | Delete (ids : list string) (t : option N)
  | Merge (r : Record_) (sources : list string).

Fixpoint write_all (rs : list Record_) : D unit :=
  match rs with [] => mret tt | r :: rs => _ ← ignore (write r); write_all rs end.
Definition flush (p : Pending) : D unit := write_all (values p).
Definition drop_ids (ids : list string) (p : Pending) : Pending := foldr delete p ids.
Definition not_written (r : Record_) (e : string) : string :=
  "record " +:+ id r +:+ " it merged into was not written: " +:+ e.
Definition merge_step (r : Record_) (sources : list string) : D Deleted := λ s,
  match write r s with
  | (Ok _, s) => remove sources None s
  | (Err e, s) => (Ok (mkDeleted None [] ((λ i, (i, not_written r e)) <$> sources)), s)
  | (Panic, s) => (Panic, s)
  end.
Fixpoint apply_ops (p : Pending) (batch : list Op) : D (list Deleted) :=
  match batch with
  | [] => _ ← flush p; mret []
  | Write r :: batch => apply_ops (<[id r := r]> p) batch
  | Delete ids t :: batch =>
      _ ← flush (drop_ids ids p);
      d ← remove ids t;
      ds ← apply_ops ∅ batch; mret (d :: ds)
  | Merge r sources :: batch =>
      _ ← flush (drop_ids sources (delete (id r) p));
      d ← merge_step r sources;
      ds ← apply_ops ∅ batch; mret (d :: ds)
  end.
Definition apply : list Op → D (list Deleted) := apply_ops ∅.

(** ** Loading *)
Definition strip_suffix (suffix l : Bytes) : option Bytes :=
  if ends_with suffix l then Some (take (length l - length suffix) l) else None.
Definition read (l : Bytes) : option Record_ :=
  if (MAX_RECORD <? lenN l)%N then None else v ← of_text l; decode_record v.
Definition load_file (kv : string * Bytes) : option (string * Record_) :=
  let name := bytes kv.1 in
  if has_prefix (bytes ".tmp-") name then None
  else
    i ← strip_suffix (bytes ".json") name;
    if negb (identifier (text i)) then None
    else r ← read kv.2;
         if string_eqb (id r) (text i) && bool_decide (version r ∈ READABLE)
         then Some (text i, set_version VERSION r) else None.
Definition load (f : gmap string Bytes) : gmap string Record_ :=
  list_to_map (omap load_file (entries f)).

(** ** The store *)
Record Store := mkStore {
  records : gmap string Record_;
  deleting : gset string;
  queue : list Op;
  results : list Deleted;
  directory : Dir;
  unsynced : list Dir }.
Definition send (op : Op) (s : Store) : Store :=
  mkStore (records s) (deleting s) (queue s ++ [op]) (results s) (directory s) (unsynced s).
Definition set_records (m : gmap string Record_) (s : Store) : Store :=
  mkStore m (deleting s) (queue s) (results s) (directory s) (unsynced s).
Definition set_deleting (d : gset string) (s : Store) : Store :=
  mkStore (records s) d (queue s) (results s) (directory s) (unsynced s).

Definition store_write (r : Record_) (s : Store) : Store :=
  let '(fits, r) := fit r in
  if negb fits then s else send (Write r) (set_records (<[id r := r]> (records s)) s).
Definition store_merge (r : Record_) (sources : list string) (s : Store) : Store :=
  let '(fits, r) := fit r in
  if negb fits then s
  else send (Merge r sources)
         (set_deleting (deleting s ∪ list_to_set sources) (set_records (<[id r := r]> (records s)) s)).
Definition store_delete (ids : list string) (t : option N) (s : Store) : Store :=
  send (Delete ids t) (set_deleting (deleting s ∪ list_to_set ids) s).
Definition settle_removed (i : string) (s : Store) : Store :=
  mkStore (delete i (records s)) (deleting s ∖ {[i]}) (queue s) (results s) (directory s) (unsynced s).
Definition settle_failed (i : string) (s : Store) : Store := set_deleting (deleting s ∖ {[i]}) s.
Definition settle (d : Deleted) (s : Store) : Store :=
  foldl (λ s f, settle_failed f.1 s) (foldl (λ s i, settle_removed i s) s (removed d)) (failed d).
Definition poll (s : Store) : list Deleted * Store :=
  (results s, foldl (λ s d, settle d s)
                (mkStore (records s) (deleting s) (queue s) [] (directory s) (unsynced s)) (results s)).
(** The writer thread takes a batch, the first [n] of the queue, and sends the
    outcomes back. *)
Definition writer (n : nat) (answers : list Call) (s : Store) : res string unit * Store :=
  match apply (take n (queue s)) (mkDisk (directory s) (unsynced s) answers) with
  | (Ok ds, d) => (Ok tt, mkStore (records s) (deleting s) (drop n (queue s)) (results s ++ ds) (files d) (past d))
  | (Err e, d) => (Err e, mkStore (records s) (deleting s) (drop n (queue s)) (results s) (files d) (past d))
  | (Panic, d) => (Panic, mkStore (records s) (deleting s) (drop n (queue s)) (results s) (files d) (past d))
  end.

Definition usize_sub (a b : N) : N := ((a + u64_modulus - b) mod u64_modulus)%N.
Definition idle (s : Store) (running : gset string) : list Record_ :=
  filter (λ r, id r ∉ running ∧ id r ∉ deleting s) (values (records s)).
Definition retained (keep : N) (running : gset string) (s : Store) : list string :=
  let excess := u64_saturating_sub
    (usize_sub (N.of_nat (base.size (records s))) (N.of_nat (base.size (deleting s)))) keep in
  id <$> take (N.to_nat excess) (merge_sort older (idle s running)).
Definition retain (keep : N) (running : gset string) (s : Store) : list string * Store :=
  let ids := retained keep running s in
  (ids, if bool_decide (ids = []) then s else store_delete ids None s).

(** [resolve]: by an exact ID, the newest first, or a unique prefix. *)
Definition exact (target : string) (r : Record_) : bool :=
  string_eqb (id r) target || bool_decide (target ∈ sessions r) ||
  opt_string_eqb (conversation r) (Some target).
Definition prefixed (target : string) (r : Record_) : bool :=
  has_prefix (bytes target) (bytes (id r)) ||
  existsb (λ s, has_prefix (bytes target) (bytes s)) (sessions r).
Definition resolve (target : string) (s : Store) : res string Record_ :=
  if string_eqb target "" then Err "name a recorded goblin by id; see 'goblins history'"
  else match List.find (exact target) (newest_first (records s)) with
  | Some r => Ok r
  | None =>
      match filter (λ r, prefixed target r = true) (values (records s)) with
      | [r] => Ok r
      | [] => Err ("no recorded goblin '" +:+ plain_text target +:+ "'; see 'goblins history'")
      | l => Err (show (lenN l) +:+ " records have ids starting with '" +:+ plain_text target +:+
                  "'; use more of the id")
      end
  end.
End store.
