(* ===== verification/HistoryStoreSpec.v ===== *)
(** * What the history store promises

    Proofs about [HistoryStore.v]: what was written is what is read, a crash
    at any point loses no record that was not deleted and leaves no partial
    one, batching and coalescing never change the outcome, and a quiet store
    holds on disk what it holds in memory. *)
From S2P Require Import Prelude Json Grammar Messages Framing FramingFacts Text History HistorySpec.
From S2P Require Import HistoryStore HistoryText.
From Stdlib Require Import Ascii.

(** ** Names *)
Definition name_byte (b : ascii) : bool := is_ascii_alphanumeric b || is_byte b underscore || is_byte b hyphen.
Lemma identifier_bytes i : identifier i = true → forallb name_byte (bytes i) = true ∧ bytes i ≠ [].
Proof.
  unfold identifier. intros [Hl Hb]%andb_true_iff. split; [done|]. intros Hi.
  apply andb_true_iff in Hl as [Hl _]. by destruct i.
Qed.
Lemma forallb_elem {A} (f : A → bool) l x : forallb f l = true → x ∈ l → f x = true.
Proof. intros Hf Hx. apply (proj1 (forallb_forall f l) Hf), list_elem_of_In, Hx. Qed.
Lemma name_byte_ascii b : name_byte b = true → is_ascii b = true.
Proof. destruct b as [[] [] [] [] [] [] [] []]; vm_compute; congruence. Qed.
Lemma identifier_utf8 i : identifier i = true → utf8 i = true.
Proof.
  intros [Hb _]%identifier_bytes. apply utf8_valid_ascii.
  rewrite forallb_forall in Hb |- *. auto using name_byte_ascii.
Qed.
Lemma bytes_inj a b : bytes a = bytes b → a = b.
Proof. intros H. by rewrite <- (text_bytes a), <- (text_bytes b), H. Qed.
Lemma file_name_inj i j : file_name i = file_name j → i = j.
Proof.
  intros H%(f_equal bytes). unfold file_name in H. rewrite !bytes_app in H.
  by apply app_inv_tail in H as ?%bytes_inj.
Qed.
Lemma bytes_temp i : bytes (temp_name i) = bytes ".tmp-" ++ bytes (file_name i).
Proof. unfold temp_name. by rewrite bytes_app. Qed.
Lemma file_not_temp i : identifier i = true → has_prefix (bytes ".tmp-") (bytes (file_name i)) = false.
Proof.
  intros [Hb Hne]%identifier_bytes. unfold file_name. rewrite bytes_app.
  destruct (bytes i) as [|b l]; [done|]. simpl in Hb. apply andb_true_iff in Hb as [Hb _].
  eapply has_prefix_head; [done..|]. intros <-. by vm_compute in Hb.
Qed.
Lemma temp_ne_file i j : identifier j = true → temp_name i ≠ file_name j.
Proof.
  intros Hj H. pose proof (file_not_temp j Hj) as Hf. rewrite <- H, bytes_temp, has_prefix_app in Hf. done.
Qed.
Lemma strip_suffix_app s l : strip_suffix s (l ++ s) = Some l.
Proof.
  unfold strip_suffix, ends_with. rewrite length_app, Nat.add_sub, drop_app_length, take_app_length.
  by rewrite bool_decide_true.
Qed.
Lemma strip_suffix_Some s l k : strip_suffix s l = Some k → l = k ++ s.
Proof.
  unfold strip_suffix, ends_with. case_bool_decide as H; [|done]. intros [= <-].
  by rewrite <- H at 2; rewrite take_drop.
Qed.

(** ** Records a reader accepts *)
Definition opt_utf8 (o : option string) : bool := match o with Some s => utf8 s | None => true end.
Definition utf8_record (r : Record_) : bool :=
  utf8 (configuration r) && utf8 (agent_name r) && opt_utf8 (scope r) && opt_utf8 (dev_shell r) &&
  forallb utf8 (approved (packages r)) && forallb utf8 (denied (packages r)) &&
  forallb utf8 (auto_approve (packages r)) &&
  forallb (λ kv, utf8 kv.1 && utf8 kv.2) (entries (variables r)) && forallb utf8 (sessions r) &&
  forallb (λ s, utf8 (sk_name s) && utf8 (sk_reason s)) (skipped r).
Definition is_u64 (n : N) : bool := (n <? u64_modulus)%N.
Definition sized (r : Record_) : bool :=
  is_u64 (created r) && is_u64 (updated r) && match stopped r with Some n => is_u64 n | None => true end.
(** What the types of the fields guarantee, a current version and an ID that
    names a file. *)
Definition proper (r : Record_) : bool :=
  identifier (id r) && (version r =? VERSION)%N && sized r && utf8_record r.
Lemma proper_sized r : proper r = true → machine_sized r.
Proof.
  unfold proper, sized, is_u64, machine_sized.
  rewrite !andb_true_iff, N.eqb_eq, !N.ltb_lt. intros [[[_ ->] [[??] Hs]] _].
  split_and!; [done..|]. destruct (stopped r) as [t|]; [|done]. intros n [= <-]. by apply N.ltb_lt.
Qed.
Lemma printable_strs d l : forallb utf8 l = true → printable (S (S d)) (json_strs l) = true.
Proof.
  intros Hl. cbn -[utf8]. rewrite forallb_forall in Hl |- *.
  intros v (s & <- & Hs)%in_map_iff. by apply Hl.
Qed.
Lemma printable_opt_str d o : opt_utf8 o = true → printable (S d) (json_opt_str o) = true.
Proof. by destruct o. Qed.
Lemma printable_u64 d n : (n < u64_modulus)%N → printable (S d) (json_u64 n) = true.
Proof. unfold u64_modulus. intros Hn. simpl. rewrite !andb_true_iff, Z.leb_le, Z.ltb_lt. lia. Qed.
Lemma printable_str d s : utf8 s = true → printable (S d) (String_ s) = true.
Proof. done. Qed.
Lemma printable_bool d b : printable (S d) (Bool b) = true.
Proof. done. Qed.
Lemma printable_opt_u64 d o : (∀ n, o = Some n → (n < u64_modulus)%N) → printable (S d) (json_opt json_u64 o) = true.
Proof. intros Ho. destruct o as [n|]; [|done]. by apply printable_u64, Ho. Qed.
Lemma ascending_sorted l : StronglySorted String.le l → NoDup l → ascending l = true.
Proof.
  intros Hs. induction Hs as [|a l Hs IH Ha]; intros Hd; [done|].
  apply NoDup_cons in Hd as [Hn Hd]. destruct l as [|b l]; [done|].
  change (ascending (a :: b :: l)) with (String.ltb a b && ascending (b :: l)). rewrite IH by done.
  rewrite andb_true_r. pose proof (proj1 (Forall_forall _ _) Ha b ltac:(left)) as Hle.
  unfold String.le, String.leb in Hle. unfold String.ltb. destruct (String.compare a b) eqn:Hc; [|done|done].
  apply String.compare_eq_iff in Hc as ->. by destruct Hn; left.
Qed.
Lemma printable_object d o : ascending o.*1 = true →
  forallb (λ kv, utf8 kv.1 && printable d kv.2) o = true → printable (S d) (Object o) = true.
Proof. intros Ha Ho. cbn -[utf8 ascending]. by rewrite Ha, Ho. Qed.

Lemma packages_object a d o : json_object [("approved", a); ("denied", d); ("auto_approve", o)] =
  Object [("approved", a); ("auto_approve", o); ("denied", d)].
Proof. by vm_compute. Qed.
Lemma printable_packages d p : forallb utf8 (approved p) = true → forallb utf8 (denied p) = true →
  forallb utf8 (auto_approve p) = true → printable (S (S (S d))) (packages_value p) = true.
Proof.
  intros Ha Hd Ho. unfold packages_value. rewrite packages_object.
  apply printable_object; [by vm_compute|]. cbn [forallb fst snd]. by rewrite !printable_strs.
Qed.
Lemma printable_skipped d s : utf8 (sk_name s) = true → utf8 (sk_reason s) = true →
  printable (S (S d)) (skipped_value s) = true.
Proof.
  intros Hn Hr. change (skipped_value s) with (Object [("name", String_ (sk_name s)); ("reason", String_ (sk_reason s))]).
  apply printable_object; [by vm_compute|]. cbn [forallb fst snd printable]. by rewrite Hn, Hr.
Qed.
Lemma printable_variables d m : forallb (λ kv, utf8 kv.1 && utf8 kv.2) (entries m) = true →
  printable (S (S d)) (Object ((λ kv, (kv.1, String_ kv.2)) <$> entries m)) = true.
Proof.
  intros Hm. apply printable_object.
  - rewrite <- list_fmap_compose. apply ascending_sorted; [apply keys_sorted|apply NoDup_keys].
  - rewrite forallb_forall in Hm |- *. intros v (kv & <- & Hkv)%in_map_iff. by apply Hm.
Qed.
Lemma printable_skipped_list d l : forallb (λ s, utf8 (sk_name s) && utf8 (sk_reason s)) l = true →
  printable (S (S (S d))) (Array (skipped_value <$> l)) = true.
Proof.
  intros Hl. cbn -[printable]. cbn [printable]. rewrite forallb_forall in Hl |- *.
  intros v (s & <- & Hs)%in_map_iff. apply Hl, andb_true_iff in Hs as [? ?]. by apply printable_skipped.
Qed.
Lemma printable_record r : proper r = true → opt_utf8 (text <$> cwd r) = true →
  printable RECURSION (record_value r) = true.
Proof.
  intros Hp Hw. pose proof (proper_sized r Hp) as (Hv & Hc & Hu & Hs).
  unfold proper, utf8_record in Hp. rewrite !andb_true_iff in Hp.
  destruct Hp as [[[Hi _] _] [[[[[[[[[Hco Ha] Hsc] Hds] Hap] Hde] Hau] Hva] Hse] Hsk]].
  unfold record_value. rewrite record_object. apply printable_object; [by vm_compute|].
  cbn [forallb fst snd].
  rewrite !printable_opt_str, !printable_u64, printable_packages, printable_strs, printable_skipped_list,
    printable_variables, printable_bool, printable_opt_u64, !printable_str
    by (done || (unfold u32_modulus, u64_modulus in *; lia) || (by apply identifier_utf8)).
  by vm_compute.
Qed.

(** ** Loading *)
Section store.
Context `{RecordText}.
(** What a reader makes of the file of record [i]. *)
Definition read_named (i : string) (l : Bytes) : option Record_ :=
  r ← read l;
  if string_eqb (id r) i && bool_decide (version r ∈ READABLE) then Some (set_version VERSION r) else None.
Lemma load_file_name i l : identifier i = true → load_file (file_name i, l) = (i,.) <$> read_named i l.
Proof.
  intros Hi. unfold load_file, read_named. cbn [fst snd]. rewrite file_not_temp by done.
  unfold file_name. rewrite bytes_app, strip_suffix_app. cbn [mbind option_bind]. rewrite text_bytes, Hi. simpl.
  destruct (read l) as [r|]; simpl; [|done]. by destruct (_ && _).
Qed.
Lemma load_file_Some kv i r : load_file kv = Some (i, r) →
  kv.1 = file_name i ∧ identifier i = true ∧ read_named i kv.2 = Some r.
Proof.
  destruct kv as [n l]. intros Hl. assert (n = file_name i ∧ identifier i = true) as [-> Hi].
  { unfold load_file in Hl. cbn [fst snd] in Hl. destruct (has_prefix _ _); [done|].
    destruct (strip_suffix _ _) as [k|] eqn:Hk; [|done]. simpl in Hl. apply strip_suffix_Some in Hk.
    destruct (identifier (text k)) eqn:Hi; [|done]. simpl in Hl.
    destruct (read l) as [r'|]; simpl in Hl; [|done]. destruct (_ && _); [|done]. injection Hl as <- _.
    split; [|done]. apply bytes_inj. unfold file_name. by rewrite bytes_app, bytes_text. }
  rewrite load_file_name in Hl by done. destruct (read_named i l) as [r'|] eqn:Hr; simpl in Hl; [|done].
  injection Hl as ->. done.
Qed.
Lemma load_lookup f i : load f !! i =
  if identifier i then f !! file_name i ≫= read_named i else None.
Proof.
  unfold load. apply option_eq. intros r. rewrite <- elem_of_list_to_map.
  - rewrite list_elem_of_omap. split.
    + intros ([n l] & Hin & (Hn & -> & Hr)%load_file_Some). apply elem_of_entries in Hin.
      simpl in Hn, Hr. subst n. by rewrite Hin.
    + destruct (identifier i) eqn:Hi; [|done]. intros (l & Hl & Hr)%bind_Some.
      exists (file_name i, l). rewrite elem_of_entries, load_file_name, Hr by done. done.
  - pose proof (NoDup_keys f) as Hd. unfold keys in Hd. induction (entries f) as [|[n l] e IH]; csimpl; [constructor|].
    apply NoDup_cons in Hd as [Hn Hd]. specialize (IH Hd).
    destruct (load_file (n, l)) as [[j r0]|] eqn:Hl; [|done]. csimpl. constructor; [|done].
    apply load_file_Some in Hl as (Hl & _). simpl in Hl. subst n.
    intros ([j' r'] & Hj & ([n l'] & Hin & (Hl & _)%load_file_Some)%list_elem_of_omap)%list_elem_of_fmap.
    simpl in *. subst. apply Hn, list_elem_of_fmap. by exists (file_name j', l').
Qed.
Lemma load_lookup_ext f g i : f !! file_name i = g !! file_name i → load f !! i = load g !! i.
Proof. intros Hf. by rewrite !load_lookup, Hf. Qed.

Lemma load_crash d f i : crash d f → ∃ m, m ∈ files d :: past d ∧ finds (m !! file_name i) (f !! file_name i).
Proof. intros Hf. apply Hf. Qed.

(** ** What a crash may leave of one record *)
Definition read_at (i : string) (c : option Bytes) : option Record_ :=
  if identifier i then c ≫= read_named i else None.
Definition may_load (d : Disk) (i : string) (o : option Record_) : Prop :=
  ∃ m c, m ∈ files d :: past d ∧ finds (m !! file_name i) c ∧ o = read_at i c.
Lemma may_load_crash d i o : may_load d i o ↔ ∃ f, crash d f ∧ load f !! i = o.
Proof.
  split.
  - intros (m & c & Hm & Hc & ->).
    exists (partial_alter (λ _, c) (file_name i) (content <$> files d)). split.
    + intros n. destruct (decide (n = file_name i)) as [->|Hn].
      * exists m. by rewrite lookup_partial_alter_eq.
      * exists (files d). split; [left|]. rewrite lookup_partial_alter_ne, lookup_fmap by done.
        destruct (files d !! n) as [x|]; simpl; [by exists (content x)|done].
    + by rewrite load_lookup, lookup_partial_alter_eq.
  - intros (f & Hf & <-). destruct (Hf (file_name i)) as (m & Hm & Hc).
    exists m, (f !! file_name i). by rewrite load_lookup.
Qed.
(** A step from [d] to [d'] leaves of each record what [d] left, or a new
    value allowed by [C]. *)
Definition steps (C : string → option Record_ → Prop) (d d' : Disk) : Prop :=
  ∀ i o, may_load d' i o → may_load d i o ∨ C i o.
Definition none (i : string) (o : option Record_) : Prop := False.
Lemma steps_refl C d : steps C d d.
Proof. by left. Qed.
Lemma steps_trans C d1 d2 d3 : steps C d1 d2 → steps C d2 d3 → steps C d1 d3.
Proof. intros H1 H2 i o [?|?]%H2; auto. Qed.
Lemma steps_weaken (C C' : string → option Record_ → Prop) d d' :
  (∀ i o, C i o → C' i o) → steps C d d' → steps C' d d'.
Proof. intros HC Hs i o [?|?]%Hs; auto. Qed.
Lemma steps_none C d d' : steps none d d' → steps C d d'.
Proof. intros Hs i o [?|[]]%Hs. by left. Qed.
Lemma steps_changing (C : string → option Record_ → Prop) g d :
  (∀ i, identifier i = true → g (files d) !! file_name i = files d !! file_name i ∨
    ∀ c, finds (g (files d) !! file_name i) c → C i (c ≫= read_named i)) →
  steps C d (changing g d).
Proof.
  intros Hg i o (m & c & Hm & Hc & ->). simpl in Hm. unfold read_at.
  destruct (identifier i) eqn:Hi.
  - rewrite elem_of_cons in Hm. destruct Hm as [->|Hm].
    + destruct (Hg i Hi) as [Heq|HC]; [|by right; apply HC]. left.
      exists (files d), c. rewrite <- Heq. unfold read_at. rewrite Hi. split; [left|done].
    + left. exists m, c. unfold read_at. by rewrite Hi.
  - left. destruct (files d !! file_name i) as [x|] eqn:Hx.
    + exists (files d), (Some (content x)). unfold read_at. rewrite Hi, Hx. split; [left|]. split; [|done]. by exists (content x).
    + exists (files d), None. unfold read_at. rewrite Hi, Hx. split; [left|done].
Qed.
Lemma steps_temp i x d : steps none d (changing <[temp_name i := x]> d).
Proof. apply steps_changing. intros j Hj. left. by rewrite lookup_insert_ne by (by apply temp_ne_file). Qed.
Lemma steps_untouched n d : steps none d (changing (untouched n) d).
Proof. apply steps_changing. by left. Qed.
Lemma steps_delete_temp i d : steps none d (changing (delete (temp_name i)) d).
Proof. apply steps_changing. intros j Hj. left. by rewrite lookup_delete_ne by (by apply temp_ne_file). Qed.
Lemma steps_sync d cs : steps none d (mkDisk (files d) [] cs).
Proof.
  intros i o (m & c & Hm%list_elem_of_singleton & Hc & ->). subst m. left. exists (files d), c. split; [left|done].
Qed.
Lemma steps_calls d cs : steps none d (mkDisk (files d) (past d) cs).
Proof. intros i o Ho. by left. Qed.

(** ** System calls and sequences *)
Lemma steps_bind {A B} C (m : D A) (f : A → D B) d :
  steps C d (state_of m d) → (∀ a d1, m d = (Ok a, d1) → steps C d1 (state_of (f a) d1)) →
  steps C d (state_of (m ≫= f) d).
Proof.
  unfold state_of, mbind, M_bind. intros Hm Hf.
  destruct (m d) as [[a|e|] d1]; simpl in *; [|done..]. eapply steps_trans; [done|]. by apply Hf.
Qed.
Lemma steps_sys C ok part d :
  steps C d (changing ok d) → (∀ n, steps C d (changing (part n) d)) → steps C d (state_of (sys ok part) d).
Proof.
  intros Hok Hpart. unfold state_of, sys. destruct (calls d) as [|[|e n] cs]; simpl; [apply steps_refl|done|done].
Qed.
Lemma sys_Ok ok part d u d1 : sys ok part d = (Ok u, d1) → d1 = changing ok d.
Proof. unfold sys. destruct (calls d) as [|[|e n] cs]; naive_solver. Qed.
Lemma steps_sync_call C d : steps C d (state_of sync d).
Proof.
  apply steps_none. unfold state_of, sync.
  destruct (calls d) as [|[|e n] cs]; simpl; [apply steps_refl|apply steps_sync|apply steps_calls].
Qed.
Lemma sync_Ok d u d1 : sync d = (Ok u, d1) → files d1 = files d ∧ past d1 = [].
Proof. unfold sync. destruct (calls d) as [|[|e n] cs]; naive_solver. Qed.

(** ** Writing a record *)
Definition storable (r : Record_) : bool := proper r && fits r.
Lemma fits_text r : fits r = true → ∃ t, record_text r = Some t ∧ (lenN t + 1 <= MAX_RECORD)%N ∧
  t = to_pretty (record_value r) ∧ opt_utf8 (text <$> cwd r) = true.
Proof.
  unfold fits, size. rewrite N.leb_le. unfold record_text. destruct (cwd r) as [w|]; simpl; [|eauto].
  unfold utf8. rewrite bytes_text. destruct (utf8_valid w); [eauto|]. by vm_compute.
Qed.
Context `{!RecordTextLaws}.
Set Default Proof Using "Type*".
Lemma set_version_id v r : version r = v → set_version v r = r.
Proof. intros <-. by destruct r. Qed.
Lemma storable_proper r : storable r = true → proper r = true ∧ fits r = true.
Proof. apply andb_true_iff. Qed.
Lemma storable_identifier r : storable r = true → identifier (id r) = true.
Proof. intros [Hp _]%storable_proper. unfold proper in Hp. rewrite !andb_true_iff in Hp. tauto. Qed.
Lemma read_written r : storable r = true →
  ∃ t, record_text r = Some t ∧ read_named (id r) (t ++ [LF]) = Some r.
Proof.
  intros [Hp Hf]%storable_proper. pose proof (fits_text r Hf) as (t & Ht & Hlen & -> & Hw).
  exists (to_pretty (record_value r)). split; [done|]. unfold read_named, read.
  rewrite (proj2 (N.ltb_ge _ _)) by (rewrite lenN_snoc; done).
  rewrite of_pretty by (by apply printable_record). simpl.
  rewrite record_reads_back by (by apply proper_sized). simpl.
  unfold proper in Hp. rewrite !andb_true_iff, N.eqb_eq in Hp. destruct Hp as [[[_ Hv] _] _].
  rewrite Hv. unfold string_eqb. rewrite bool_decide_true by done. simpl. by rewrite set_version_id.
Qed.
Definition revision (r : Record_) (i : string) (o : option Record_) : Prop := i = id r ∧ o = Some r.
Lemma steps_rename r t d : storable r = true → read_named (id r) (t ++ [LF]) = Some r →
  files d !! temp_name (id r) = Some (mkFile (t ++ [LF]) true) →
  steps (revision r) d (changing (rename (temp_name (id r)) (file_name (id r))) d).
Proof.
  intros Hs Hr Ht. apply steps_changing. intros i Hi. unfold rename. rewrite Ht.
  destruct (decide (i = id r)) as [->|Hne].
  - right. rewrite lookup_insert_eq. intros c (b & -> & Hb). rewrite (Hb eq_refl). simpl. done.
  - left. rewrite lookup_insert_ne by (by intros ?%file_name_inj).
    by rewrite lookup_delete_ne by (by apply temp_ne_file).
Qed.

Lemma steps_write_steps r d : storable r = true → steps (revision r) d (state_of (write_steps r) d).
Proof.
  intros Hr. pose proof (read_written r Hr) as (t & Ht & Hread). unfold write_steps. rewrite Ht.
  pose proof (steps_none (revision r)) as Hn.
  apply steps_bind.
  { apply steps_sys; [|intros n]; apply Hn; [apply steps_temp|apply steps_untouched]. }
  intros _ d1 _. apply steps_bind.
  { apply steps_sys; [|intros n]; apply Hn; apply steps_temp. }
  intros _ d2 _. apply steps_bind.
  { apply steps_sys; [|intros n]; apply Hn; [apply steps_temp|apply steps_untouched]. }
  intros _ d3 _. apply steps_bind.
  { apply steps_sys; [|intros n]; apply Hn; [apply steps_temp|apply steps_untouched]. }
  intros _ d4 ->%sys_Ok. apply steps_bind; [|intros _ d5 _; apply steps_sync_call].
  apply steps_sys; [|intros n; apply Hn, steps_untouched].
  apply (steps_rename r t); [done..|]. simpl. by rewrite lookup_insert_eq.
Qed.
Lemma steps_write r d : storable r = true → steps (revision r) d (state_of (write r) d).
Proof.
  intros Hr. unfold write. rewrite (storable_identifier r Hr). simpl.
  pose proof (steps_write_steps r d Hr) as Hs. unfold state_of in *.
  destruct (write_steps r d) as [[u|e|] d1]; [done| |done]. simpl in *.
  eapply steps_trans; [done|].
  assert (steps (revision r) d1 (state_of (sys (delete (temp_name (id r))) untouched) d1)) as Hd.
  { apply steps_sys; [|intros n]; apply steps_none; [apply steps_delete_temp|apply steps_untouched]. }
  unfold state_of in Hd. by destruct (sys (delete (temp_name (id r))) untouched d1) as [[u|e'|] d2].
Qed.
(** A write that succeeds is durable. *)
Lemma write_durable r d d' : storable r = true → write r d = (Ok tt, d') →
  ∀ o, may_load d' (id r) o → o = Some r.
Proof.
  intros Hr. pose proof (read_written r Hr) as (t & Ht & Hread).
  unfold write. rewrite (storable_identifier r Hr). simpl.
  destruct (write_steps r d) as [[u|e|] d1] eqn:Hw; [|by destruct (sys _ _ d1) as [[]]|done].
  intros [= -> ->]. unfold write_steps in Hw. rewrite Ht in Hw.
  repeat (apply bind_Ok in Hw as (? & ? & ->%sys_Ok & Hw)). apply sync_Ok in Hw as [Hf Hp].
  intros o (m & c & Hm & Hc & ->). rewrite Hp in Hm. apply list_elem_of_singleton in Hm as ->.
  rewrite Hf in Hc. simpl in Hc. unfold rename in Hc. rewrite !lookup_insert_eq in Hc.
  destruct Hc as (b & -> & Hb). rewrite (Hb eq_refl). unfold read_at.
  by rewrite (storable_identifier r Hr).
Qed.

(** ** Removing records *)
Definition gone_from (ids : list string) (i : string) (o : option Record_) : Prop := i ∈ ids ∧ o = None.
Lemma state_attempt m d : state_of (attempt m) d = state_of m d.
Proof. unfold state_of, attempt. by destruct (m d) as [[]]. Qed.
Lemma remove_file_spec i d :
  steps (gone_from [i]) d (state_of (remove_file i) d) ∧
  (∀ n, files d !! n = None → files (state_of (remove_file i) d) !! n = None) ∧
  (outcome_of (remove_file i) d = Ok None → files (state_of (remove_file i) d) !! file_name i = None).
Proof.
  assert (steps (gone_from [i]) d (state_of (sys (delete (file_name i)) untouched) d)) as Hs.
  { apply steps_sys; [|intros n; apply steps_none, steps_untouched]. apply steps_changing. intros j Hj.
    destruct (decide (j = i)) as [->|Hne].
    - right. rewrite lookup_delete_eq. intros c ->. split; [left|done].
    - left. by rewrite lookup_delete_ne by (by intros ?%file_name_inj). }
  unfold remove_file, outcome_of, state_of in *. unfold sys in *.
  destruct (calls d) as [|[|e n] cs]; simpl in *; (split; [done|split]); try done.
  - intros n Hn. by destruct (decide (n = file_name i)) as [->|]; [rewrite lookup_delete_eq|rewrite lookup_delete_ne].
  - intros _. apply lookup_delete_eq.
  - by case_bool_decide.
Qed.
Lemma remove_files_spec ids d :
  steps (gone_from ids) d (state_of (remove_files ids) d) ∧
  (∀ n, files d !! n = None → files (state_of (remove_files ids) d) !! n = None) ∧
  ∀ p d', remove_files ids d = (Ok p, d') → p.1 ++ p.2.*1 ≡ₚ ids ∧
    ∀ i, i ∈ p.1 → files d' !! file_name i = None.
Proof.
  revert d. induction ids as [|i ids IH]; intros d; simpl.
  { split_and!; [apply steps_refl|done|]. intros p d' [= <- <-]. split; [done|]. intros i []%not_elem_of_nil. }
  pose proof (remove_file_spec i d) as (Hs & Hk & Hn). unfold state_of, outcome_of in *.
  unfold mbind, M_bind. destruct (remove_file i d) as [[e|e|] d1]; simpl in *;
    [|split_and!; [|done..]; eapply steps_weaken; [|exact Hs]; intros ?? [->%list_elem_of_singleton ?]; split; [left|done]..].
  specialize (IH d1) as (Hs' & Hk' & Hp). destruct (remove_files ids d1) as [[p|e'|] d2]; simpl in *;
    (split_and!; [eapply steps_trans; (eapply steps_weaken; [|eassumption]);
      intros ?? [Hi ?]; (split; [|done]);
      first [apply list_elem_of_singleton in Hi as ->; left|by right]|auto|]); try done.
  intros q d' [= <- <-]. destruct (Hp p d2 eq_refl) as [Hperm Hgone]. destruct e as [e|]; simpl.
  - split; [|done]. rewrite <- Hperm. by rewrite <- Permutation_middle.
  - split; [by rewrite Hperm|]. intros j [->|?]%elem_of_cons; auto.
Qed.
(** A delete settles each record once, and what it reports removed is gone
    for good. *)
Lemma remove_spec ids t d :
  steps (gone_from ids) d (state_of (remove ids t) d) ∧
  ∀ r d', remove ids t d = (Ok r, d') → tag r = t ∧ removed r ++ (failed r).*1 ≡ₚ ids ∧
    ∀ i, i ∈ removed r → ∀ o, may_load d' i o → o = None.
Proof.
  pose proof (remove_files_spec ids d) as (Hs & _ & Hp). unfold remove.
  split.
  - apply steps_bind; [done|]. intros p d1 _. case_bool_decide; [apply steps_refl|].
    apply steps_bind; [rewrite state_attempt; apply steps_sync_call|]. intros e d2 _. apply steps_refl.
  - intros r d' (p & d1 & Hr & Hrest)%bind_Ok. destruct (Hp p d1 Hr) as [Hperm Hgone].
    case_bool_decide as Hnil.
    { injection Hrest as <- <-. split_and!; [done..|]. simpl. rewrite Hnil. intros i []%not_elem_of_nil. }
    apply bind_Ok in Hrest as (e & d2 & He & Hrest). injection Hrest as <- <-. destruct e as [e|]; simpl.
    + split_and!; [done| |by intros i []%not_elem_of_nil].
      rewrite fmap_app, <- list_fmap_compose, list_fmap_id. by rewrite Permutation_app_comm.
    + split_and!; [done..|]. intros i Hi o (m & c & Hm & Hc & ->).
      unfold attempt in He. destruct (sync d1) as [[u|e|] d3] eqn:Hsync; simplify_eq/=.
      apply sync_Ok in Hsync as [Hf Hpast]. rewrite Hpast in Hm. apply list_elem_of_singleton in Hm as ->.
      rewrite Hf, Hgone in Hc by done. simpl in Hc. subst c. unfold read_at. by destruct (identifier i).
Qed.

(** ** A batch and a crash *)
Definition written (op : Op) : list Record_ :=
  match op with Write r | Merge r _ => [r] | Delete _ _ => [] end.
Definition removable (op : Op) : list string :=
  match op with Write _ => [] | Merge _ sources => sources | Delete ids _ => ids end.
Definition op_ok (op : Op) : Prop :=
  (∀ r, r ∈ written op → storable r = true) ∧ match op with Merge r sources => id r ∉ sources | _ => True end.
Definition in_pending (p : Pending) (r : Record_) : Prop := ∃ k, p !! k = Some r.
Definition revised (rs : list Record_) (i : string) (o : option Record_) : Prop :=
  ∃ r, r ∈ rs ∧ revision r i o.
Lemma steps_write_all rs d : (∀ r, r ∈ rs → storable r = true) →
  steps (revised rs) d (state_of (write_all rs) d).
Proof.
  revert d. induction rs as [|r rs IH]; intros d Hrs; [apply steps_refl|]. simpl.
  apply steps_bind.
  - pose proof (steps_write r d (Hrs r ltac:(left))) as Hs. unfold state_of, ignore in *.
    assert (steps (revised (r :: rs)) d (write r d).2) as Hw.
    { eapply steps_weaken; [|exact Hs]. intros i o Hi. exists r. split; [left|done]. }
    by destruct (write r d) as [[]].
  - intros _ d1 _. eapply steps_weaken; [|apply IH; intros r' Hr'; apply Hrs; by right].
    intros i o (r' & ? & ?). exists r'. split; [by right|done].
Qed.
Lemma in_pending_drop ids p r : in_pending (drop_ids ids p) r → in_pending p r.
Proof.
  intros [k Hk]. exists k. revert Hk. unfold drop_ids. induction ids as [|i ids IH]; simpl; [done|].
  intros Hk. apply IH. by apply lookup_delete_Some in Hk as [_ ?].
Qed.

(** Why a record may be missing: it was asked to be deleted, or it was merged
    into one that is there, or itself gone for such a reason. *)
Inductive kept (batch : list Op) (there : string → Prop) : string → Prop :=
  | kept_there i : there i → kept batch there i
  | kept_asked i ids t : Delete ids t ∈ batch → i ∈ ids → kept batch there i
  | kept_merged i r sources : Merge r sources ∈ batch → i ∈ sources →
      kept batch there (id r) → kept batch there i.
Definition there (d : Disk) (i : string) : Prop := ∀ o, may_load d i o → is_Some o.
(** What one operation, or the writing of the pending revisions, does. *)
Record safe_step (batch : list Op) (d d' : Disk) : Prop := {
  safe_steps : steps (λ i o, revised (batch ≫= written) i o ∨ gone_from (batch ≫= removable) i o) d d';
  safe_kept i : kept batch (there d) i → kept batch (there d') i }.
Lemma safe_refl batch d : safe_step batch d d.
Proof. split; [apply steps_refl|done]. Qed.
Lemma safe_trans batch d1 d2 d3 : safe_step batch d1 d2 → safe_step batch d2 d3 → safe_step batch d1 d3.
Proof. intros [??] [??]. split; [by eapply steps_trans|auto]. Qed.
(** A step that removes nothing, or only what may be missing after it. *)
Lemma safe_step_intro batch d d' rs ids :
  (∀ r, r ∈ rs → r ∈ batch ≫= written) → (∀ i, i ∈ ids → i ∈ batch ≫= removable) →
  steps (λ i o, revised rs i o ∨ gone_from ids i o) d d' →
  (∀ i, i ∈ ids → kept batch (there d') i) → safe_step batch d d'.
Proof.
  intros Hrs Hids Hs Hk. split.
  - eapply steps_weaken; [|exact Hs]. intros i o [(r & ? & ?)|[??]]; [left; exists r|right; split]; auto.
  - induction 1 as [i Hi| |]; [|by eapply kept_asked|by eapply kept_merged].
    destruct (decide (i ∈ ids)) as [|Hni]; [by apply Hk|]. apply kept_there.
    intros o Ho. apply Hs in Ho as [?|[(r & _ & _ & ->)|[? _]]]; [by apply Hi|done|done].
Qed.
Lemma safe_write_all batch rs d : (∀ r, r ∈ rs → storable r = true ∧ r ∈ batch ≫= written) →
  safe_step batch d (state_of (write_all rs) d).
Proof.
  intros Hrs. apply (safe_step_intro batch _ _ rs []); [naive_solver|set_solver| |set_solver].
  eapply steps_weaken; [|apply steps_write_all; naive_solver]. by left.
Qed.
Lemma safe_remove batch ids t d : (∀ i, i ∈ ids → i ∈ batch ≫= removable) →
  (∀ i, i ∈ ids → kept batch (there (state_of (remove ids t) d)) i) →
  safe_step batch d (state_of (remove ids t) d).
Proof.
  intros Hids Hk. apply (safe_step_intro batch _ _ [] ids); [set_solver|done| |done].
  eapply steps_weaken; [|apply remove_spec]. by right.
Qed.
Lemma safe_bind {A B} batch (m : D A) (f : A → D B) d :
  safe_step batch d (state_of m d) → (∀ a d1, safe_step batch d1 (state_of (f a) d1)) →
  safe_step batch d (state_of (m ≫= f) d).
Proof.
  unfold state_of, mbind, M_bind. intros Hm Hf.
  destruct (m d) as [[a|e|] d1]; simpl in *; [|done..]. eapply safe_trans; [done|]. apply Hf.
Qed.
Lemma safe_merge batch r sources d : Merge r sources ∈ batch → op_ok (Merge r sources) →
  safe_step batch d (state_of (merge_step r sources) d).
Proof.
  intros Hin [Hr Hni]. specialize (Hr r ltac:(left)).
  assert (r ∈ batch ≫= written) as Hw by (apply list_elem_of_bind; exists (Merge r sources); split; [left|done]).
  assert (∀ d', steps (revision r) d d' → safe_step batch d d') as Hwrite.
  { intros d' Hs. apply (safe_step_intro batch _ _ [r] []); [set_solver..| |set_solver].
    eapply steps_weaken; [|exact Hs]. intros i o Hi. left. exists r. split; [left|done]. }
  pose proof (Hwrite _ (steps_write r d Hr)) as Hs.
  unfold merge_step, state_of in *. cbn beta.
  destruct (write r d) as [[[]|e|] d1] eqn:He; [|done..].
  eapply safe_trans; [exact Hs|]. apply (safe_remove batch sources None d1).
  - intros i Hi. apply list_elem_of_bind. exists (Merge r sources). done.
  - intros i Hi. apply (kept_merged _ _ i r sources); [done..|]. apply kept_there.
    intros o [Ho|[Hi' _]]%remove_spec; [|done].
    rewrite (write_durable r d d1 Hr He o Ho). by eexists.
Qed.
Lemma safe_apply_ops batch ops p d : (∀ op, op ∈ ops → op ∈ batch ∧ op_ok op) →
  (∀ r, in_pending p r → storable r = true ∧ r ∈ batch ≫= written) →
  safe_step batch d (state_of (apply_ops p ops) d).
Proof.
  assert (∀ p d, (∀ r, in_pending p r → storable r = true ∧ r ∈ batch ≫= written) →
    safe_step batch d (state_of (flush p) d)) as Hflush.
  { intros q d' Hq. apply safe_write_all. intros r Hr%elem_of_values. by apply Hq. }
  assert (∀ r, in_pending (∅ : Pending) r → storable r = true ∧ r ∈ batch ≫= written) as Hempty.
  { by intros r [k Hk]. }
  revert p d. induction ops as [|op ops IH]; intros p d Hops Hp.
  - cbn [apply_ops]. apply safe_bind; [by apply Hflush|]. intros _ d1. apply safe_refl.
  - destruct (Hops op ltac:(left)) as [Hin Hok].
    assert (∀ op', op' ∈ ops → op' ∈ batch ∧ op_ok op') as Hops' by (intros op' H'; apply Hops; by right).
    assert (∀ r, r ∈ written op → storable r = true ∧ r ∈ batch ≫= written) as Hw.
    { intros r Hr. split; [by apply Hok|]. apply list_elem_of_bind. by exists op. }
    assert (∀ i, i ∈ removable op → i ∈ batch ≫= removable) as Hr.
    { intros i Hi. apply list_elem_of_bind. by exists op. }
    destruct op as [r|ids t|r sources]; cbn [apply_ops].
    + apply IH; [done|]. intros r' [k Hk]. apply lookup_insert_Some in Hk as [[_ <-]|[_ Hk]].
      * apply Hw. left.
      * apply Hp. by exists k.
    + apply safe_bind; [apply Hflush; intros r Hr'; by apply Hp, (in_pending_drop ids)|]. intros _ d1.
      apply safe_bind; [|intros del d2; apply safe_bind; [by apply IH|intros; apply safe_refl]].
      apply safe_remove; [done|]. intros i Hi. by eapply kept_asked.
    + apply safe_bind.
      { apply Hflush. intros r' Hr'. apply in_pending_drop in Hr' as [k Hk].
        apply lookup_delete_Some in Hk as [_ Hk]. apply Hp. by exists k. }
      intros _ d1. apply safe_bind; [by apply safe_merge|].
      intros del d2. apply safe_bind; [by apply IH|intros; apply safe_refl].
Qed.
Lemma there_crash d i : (∀ f, crash d f → is_Some (load f !! i)) → there d i.
Proof. intros Hf o (f & Hc & <-)%may_load_crash. by apply Hf. Qed.

(** C36. However a batch ends, its calls failing or the machine stopping at any
    point, a reader finds each record as it was before, or as one of the
    batch's whole revisions, or gone because the batch deletes it; and no
    record that was durable is missing unless it was asked to be deleted or
    its successor is there. *)
Theorem crash_loses_no_record batch d f' : (∀ op, op ∈ batch → op_ok op) →
  crash (state_of (apply batch) d) f' →
  (∀ i, (∃ f, crash d f ∧ load f' !! i = load f !! i) ∨
        (∃ r, r ∈ batch ≫= written ∧ id r = i ∧ load f' !! i = Some r) ∨
        (i ∈ batch ≫= removable ∧ load f' !! i = None)) ∧
  ∀ i, (∀ f, crash d f → is_Some (load f !! i)) →
    kept batch (λ j, is_Some (load f' !! j)) i.
Proof.
  intros Hops Hf'. destruct (safe_apply_ops batch batch ∅ d) as [Hs Hk].
  { intros op Hop. by split; [|apply Hops]. }
  { by intros r [k Hk]. }
  split; intros i.
  - assert (may_load (state_of (apply batch) d) i (load f' !! i)) as Ho by (apply may_load_crash; eauto).
    apply Hs in Ho as [(f & Hf & He)%may_load_crash|[(r & Hr & -> & He)|[Hi He]]]; [left|right; left|right; right].
    + by exists f.
    + by exists r.
    + done.
  - intros Hi. specialize (Hk i (kept_there _ _ _ (there_crash d i Hi))). clear Hi.
    induction Hk as [j Hj|j ids t|j r sources ? ? ? IH]; [apply kept_there|by eapply kept_asked|by eapply kept_merged].
    apply Hj, may_load_crash. eauto.
Qed.
End store.

(** ** Examples *)
Lemma crash_now d : crash d (content <$> files d).
Proof.
  intros n. exists (files d). split; [left|]. rewrite lookup_fmap.
  destruct (files d !! n) as [x|]; simpl; [by exists (content x)|done].
Qed.
Section examples.
#[local] Existing Instance code_text.
#[local] Existing Instance code_text_laws.
Let before : Dir := {["a.json" := mkFile (default [] (record_text (sample "a" 1)) ++ [LF]) true]}.
(** The machine stops while the sources of a merge are deleted. *)
Let stopped_at : Disk := mkDisk before [] (replicate 7 Done).
Let batch : list Op := [Write (sample "c" 3); Merge (sample "b" 2) ["a"; "c"]].
Lemma crash_loses_no_record_witness :
  let f := content <$> files (state_of (apply batch) stopped_at) in
  load f !! "b" = Some (sample "b" 2) ∧ load f !! "a" = None ∧
  kept batch (λ j, is_Some (load f !! j)) "a".
Proof.
  intros f. split; [by vm_compute|]. split; [by vm_compute|].
  eapply (crash_loses_no_record batch stopped_at).
  - intros op [->|[->|[]%not_elem_of_nil]%elem_of_cons]%elem_of_cons;
      (split; [intros r ->%list_elem_of_singleton; by vm_compute|]); [done|].
    by apply (bool_decide_unpack _); vm_compute.
  - apply crash_now.
  - intros g Hg. destruct (Hg "a.json") as (m & ->%list_elem_of_singleton & c & Hc & Heq).
    rewrite load_lookup. change (file_name "a") with "a.json". rewrite Hc, (Heq eq_refl).
    vm_compute. by eexists.
Defined.
End examples.
