(* ===== verification/HistoryQuiet.v ===== *)
(** * The history store on a healthy file system

    Proofs about [HistoryStore.v] when the calls succeed: a batch has exactly
    the effect of its operations one after the other, however the queue is cut
    into batches and the revisions coalesce, and a store with nothing queued
    holds on disk the records it holds in memory. *)
From S2P Require Import Prelude Json Grammar Messages Framing FramingFacts Text History HistorySpec.
From S2P Require Import HistoryStore HistoryText HistoryStoreSpec.
From Stdlib Require Import Ascii.

Lemma lookup_drop_ids ids p i : drop_ids ids p !! i = if decide (i ∈ ids) then None else p !! i.
Proof.
  unfold drop_ids. induction ids as [|j ids IH]; simpl; [done|].
  destruct (decide (i = j)) as [->|Hne].
  - rewrite lookup_delete_eq. by rewrite decide_True by left.
  - rewrite lookup_delete_ne, IH by done. repeat case_decide; set_solver.
Qed.
Lemma drop_ids_cons i ids p : drop_ids ids (delete i p) = drop_ids (i :: ids) p.
Proof.
  apply map_eq. intros j. rewrite !lookup_drop_ids, lookup_delete. repeat case_decide; set_solver.
Qed.

(** What settling outcomes does when every delete succeeded. *)
Lemma settle_all ds s : (∀ d, d ∈ ds → failed d = []) →
  let s' := foldl (λ s d, settle d s) s ds in
  (∀ i, records s' !! i = if decide (i ∈ ds ≫= removed) then None else records s !! i) ∧
  (∀ i, i ∈ deleting s' ↔ i ∈ deleting s ∧ i ∉ ds ≫= removed) ∧
  queue s' = queue s ∧ results s' = results s ∧ directory s' = directory s ∧ unsynced s' = unsynced s.
Proof.
  revert s. induction ds as [|d ds IH]; intros s Hds; simpl.
  { split_and!; try done; intros i; set_solver. }
  assert (∀ l s, let s' := foldl (λ s i, settle_removed i s) s l in
    (∀ i, records s' !! i = if decide (i ∈ l) then None else records s !! i) ∧
    (∀ i, i ∈ deleting s' ↔ i ∈ deleting s ∧ i ∉ l) ∧
    queue s' = queue s ∧ results s' = results s ∧ directory s' = directory s ∧ unsynced s' = unsynced s) as Hone.
  { clear. induction l as [|j l IH]; intros s; simpl.
    { split_and!; try done; intros i; set_solver. }
    destruct (IH (settle_removed j s)) as (Hr & Hd & Hrest). split_and!; try apply Hrest; intros i.
    - rewrite Hr. simpl. rewrite lookup_delete. repeat case_decide; set_solver.
    - rewrite Hd. simpl. set_solver. }
  unfold settle at 2 4 6 8 10 12. rewrite (Hds d) by left. simpl.
  destruct (Hone (removed d) s) as (Hr & Hd & Hq & Hre & Hdi & Hu).
  destruct (IH (foldl (λ s i, settle_removed i s) s (removed d))) as (Hr' & Hd' & -> & -> & -> & ->).
  { intros d' ?. apply Hds. by right. }
  split_and!; try done; intros i.
  - rewrite Hr', Hr. repeat case_decide; set_solver.
  - rewrite Hd', Hd. set_solver.
Qed.

Section healthy.
Context `{RecordText} `{!RecordTextLaws}.
Set Default Proof Using "Type*".

(** The next [n] calls, at least, succeed. *)
Definition healthy (n : nat) (d : Disk) : Prop := ∃ k, calls d = replicate k Done ∧ (n <= k)%nat.
Definition view (d : Disk) : gmap string Record_ := load (content <$> files d).
(** [m] succeeds on [n] calls with result [a] and turns the view into [v]. *)
Definition yields {A} (n : nat) (m : D A) (d : Disk) (a : A) (v : gmap string Record_) : Prop :=
  ∀ k, healthy (n + k) d → ∃ d', m d = (Ok a, d') ∧ healthy k d' ∧ view d' = v.
Lemma yields_ret {A} (a : A) d : yields 0 (mret a) d a (view d).
Proof. intros k Hk. by exists d. Qed.
Lemma yields_bind {A B} n1 n2 (m : D A) (f : A → D B) d a b v1 v2 :
  yields n1 m d a v1 → (∀ d1, view d1 = v1 → yields n2 (f a) d1 b v2) →
  yields (n1 + n2) (m ≫= f) d b v2.
Proof.
  intros Hm Hf k Hk. destruct (Hm (n2 + k)) as (d1 & Hd1 & Hh1 & Hv1).
  { by rewrite Nat.add_assoc. }
  destruct (Hf d1 Hv1 k Hh1) as (d2 & Hd2 & ? & ?). exists d2. unfold mbind, M_bind. by rewrite Hd1.
Qed.
Lemma healthy_weaken n m d : (m <= n)%nat → healthy n d → healthy m d.
Proof. intros Hm (k & ? & ?). exists k. split; [done|lia]. Qed.
Lemma yields_weaken {A} n m (c : D A) d a v : (n <= m)%nat → yields n c d a v → yields m c d a v.
Proof.
  intros Hn Hy k Hk. destruct (Hy (k + (m - n))) as (d' & ? & Hh & ?).
  { eapply healthy_weaken; [|exact Hk]. lia. }
  exists d'. split_and!; [done| |done]. eapply healthy_weaken; [|exact Hh]. lia.
Qed.
Lemma view_lookup d i : view d !! i = read_at i (content <$> files d !! file_name i).
Proof. unfold view, read_at. rewrite load_lookup, lookup_fmap. done. Qed.

Lemma healthy_calls n d : healthy n d → ∃ cs k, calls d = replicate n Done ++ cs ∧ cs = replicate k Done.
Proof.
  intros (k & Hc & Hk). exists (replicate (k - n) Done), (k - n). split; [|done].
  rewrite Hc, <- replicate_add. f_equal. lia.
Qed.
Lemma healthy_replicate n k fs ps : healthy n (mkDisk fs ps (replicate (n + k) Done)).
Proof. exists (n + k). split; [done|lia]. Qed.
Lemma healthy_split n k d : healthy (n + k) d →
  ∃ j, calls d = replicate n Done ++ replicate (k + j) Done.
Proof.
  intros (m & Hc & Hm). exists (m - (n + k)). rewrite Hc, <- replicate_add. f_equal. lia.
Qed.
Lemma view_rename r t fs ps cs : storable r = true → read_named (id r) (t ++ [LF]) = Some r →
  fs !! temp_name (id r) = Some (mkFile (t ++ [LF]) true) →
  view (mkDisk (rename (temp_name (id r)) (file_name (id r)) fs) ps cs) = <[id r := r]> (load (content <$> fs)).
Proof.
  intros Hr Hread Ht. pose proof (storable_identifier r Hr) as Hi. apply map_eq. intros i.
  rewrite view_lookup. simpl. unfold rename. rewrite Ht. destruct (decide (i = id r)) as [->|Hne].
  - rewrite !lookup_insert_eq. unfold read_at. simpl. by rewrite Hi.
  - rewrite !lookup_insert_ne by (done || by intros ?%file_name_inj). rewrite load_lookup. unfold read_at.
    destruct (identifier i) eqn:Hii; [|done].
    rewrite lookup_delete_ne by (by apply temp_ne_file). by rewrite lookup_fmap.
Qed.
Lemma load_temp fs i x : load (content <$> <[temp_name i := x]> fs) = load (content <$> fs).
Proof.
  apply map_eq. intros j. rewrite !load_lookup. destruct (identifier j) eqn:Hj; [|done].
  by rewrite !lookup_fmap, lookup_insert_ne by (by apply temp_ne_file).
Qed.
Lemma write_yields r d : storable r = true → yields 6 (write r) d tt (<[id r := r]> (view d)).
Proof.
  intros Hr k Hk. pose proof (read_written r Hr) as (t & Ht & Hread).
  pose proof (storable_identifier r Hr) as Hi. unfold write. rewrite Hi. simpl.
  unfold write_steps. rewrite Ht. destruct (healthy_split 6 k d Hk) as [j Hj].
  destruct d as [fs ps cs]. simpl in Hj. subst cs. munfold. unfold sys, sync, changing. simpl.
  eexists. split; [done|]. split; [apply healthy_replicate|].
  rewrite (view_rename r t); [|done..|by rewrite lookup_insert_eq]. unfold view. simpl.
  by rewrite !load_temp.
Qed.
Lemma remove_file_yields i d : yields 1 (remove_file i) d None (delete i (view d)).
Proof.
  intros k Hk. destruct (healthy_split 1 k d Hk) as [j Hj]. destruct d as [fs ps cs]. simpl in Hj. subst cs.
  unfold remove_file, sys, changing. simpl. eexists. split; [done|]. split; [apply healthy_replicate|].
  apply map_eq. intros n. rewrite view_lookup. simpl. destruct (decide (n = i)) as [->|Hne].
  - rewrite !lookup_delete_eq. unfold read_at. by destruct (identifier i).
  - rewrite !lookup_delete_ne by (done || by intros ?%file_name_inj). by rewrite view_lookup.
Qed.
Lemma remove_files_yields ids d : yields (length ids) (remove_files ids) d (ids, []) (drop_ids ids (view d)).
Proof.
  revert d. induction ids as [|i ids IH]; intros d; [apply yields_ret|]. cbn [remove_files length].
  apply (yields_bind 1 (length ids) _ _ _ None _ (delete i (view d))); [apply remove_file_yields|].
  intros d1 Hd1. rewrite <- (Nat.add_0_r (length ids)).
  eapply (yields_bind _ 0); [apply IH|]. intros d2 Hd2.
  rewrite <- drop_ids_cons, <- Hd1, <- Hd2. apply yields_ret.
Qed.
Lemma sync_yields d : yields 1 (attempt sync) d None (view d).
Proof.
  intros k Hk. destruct (healthy_split 1 k d Hk) as [j Hj]. destruct d as [fs ps cs]. simpl in Hj. subst cs.
  eexists. split; [done|]. split; [apply healthy_replicate|done].
Qed.
Lemma remove_yields ids t d :
  yields (length ids + 1) (remove ids t) d (mkDeleted t ids []) (drop_ids ids (view d)).
Proof.
  unfold remove. eapply yields_bind; [apply remove_files_yields|]. intros d1 Hd1. cbn [fst snd].
  rewrite <- Hd1. case_bool_decide.
  - apply (yields_weaken 0); [lia|apply yields_ret].
  - apply (yields_bind 1 0 _ _ _ None _ (view d1)); [apply sync_yields|]. intros d2 <-. apply yields_ret.
Qed.

(** ** A batch *)
Definition insert_records (rs : list Record_) (m : gmap string Record_) : gmap string Record_ :=
  foldl (λ m r, <[id r := r]> m) m rs.
Lemma write_all_yields rs d : (∀ r, r ∈ rs → storable r = true) →
  yields (6 * length rs) (write_all rs) d tt (insert_records rs (view d)).
Proof.
  revert d. induction rs as [|r rs IH]; intros d Hrs; [apply yields_ret|].
  cbn [write_all length]. rewrite Nat.mul_succ_r, Nat.add_comm.
  apply (yields_bind 6 _ _ _ _ tt _ (<[id r := r]> (view d))).
  - intros k Hk. destruct (write_yields r d (Hrs r ltac:(left)) k Hk) as (d' & Hw & ? & ?).
    exists d'. unfold ignore. by rewrite Hw.
  - intros d1 Hd1. change (insert_records (r :: rs) (view d)) with (insert_records rs (<[id r := r]> (view d))).
    rewrite <- Hd1. apply IH. intros r' ?. apply Hrs. by right.
Qed.
Lemma insert_values p m : keyed p → insert_records (values p) m = p ∪ m.
Proof.
  intros Hp. rewrite <- (entries_to_map p) at 2. rewrite <- foldl_insert by apply NoDup_keys.
  unfold insert_records, values.
  assert (∀ k r, (k, r) ∈ entries p → id r = k) as Hk by (intros k r Hin%elem_of_entries; by apply Hp).
  revert m. induction (entries p) as [|[k r] l IH]; intros m; csimpl; [done|].
  rewrite (Hk k r) by left. apply IH. intros k' r' ?. apply Hk. by right.
Qed.
Lemma keyed_drop ids p : keyed p → keyed (drop_ids ids p).
Proof. intros Hp k r. rewrite lookup_drop_ids. case_decide; [done|]. apply Hp. Qed.
Lemma size_drop ids p : (base.size (drop_ids ids p) <= base.size p)%nat.
Proof.
  unfold drop_ids. induction ids as [|i ids IH]; simpl; [done|].
  etrans; [|exact IH]. rewrite map_size_delete. case_match; [apply Nat.le_pred_l|done].
Qed.
Lemma length_values {V} (m : gmap string V) : length (values m) = base.size m.
Proof. unfold values. rewrite length_fmap, <- length_keys. unfold keys. by rewrite length_fmap. Qed.
Definition good (p : Pending) : Prop := keyed p ∧ ∀ r, in_pending p r → storable r = true.
Lemma flush_yields p d : good p → yields (6 * base.size p) (flush p) d tt (p ∪ view d).
Proof.
  intros [Hp Hs]. rewrite <- insert_values by done. rewrite <- (length_values p). apply write_all_yields.
  intros r Hr%elem_of_values. by apply Hs.
Qed.

(** The effect of one operation on the records a reader finds, its calls and
    the outcome it reports. *)
Definition effect (op : Op) (m : gmap string Record_) : gmap string Record_ :=
  match op with
  | Write r => <[id r := r]> m
  | Delete ids _ => drop_ids ids m
  | Merge r sources => drop_ids sources (<[id r := r]> m)
  end.
Definition effects (ops : list Op) (m : gmap string Record_) : gmap string Record_ :=
  foldl (λ m op, effect op m) m ops.
Definition cost (op : Op) : nat :=
  match op with
  | Write _ => 6
  | Delete ids _ => length ids + 1
  | Merge _ sources => 6 + (length sources + 1)
  end.
Definition costs (ops : list Op) : nat := sum_list (cost <$> ops).
Definition reports (op : Op) : list Deleted :=
  match op with
  | Write _ => []
  | Delete ids t => [mkDeleted t ids []]
  | Merge _ sources => [mkDeleted None sources []]
  end.
Lemma merge_yields r sources d : storable r = true →
  yields (6 + (length sources + 1)) (merge_step r sources) d (mkDeleted None sources [])
    (drop_ids sources (<[id r := r]> (view d))).
Proof.
  intros Hr k Hk. destruct (write_yields r d Hr (length sources + 1 + k)) as (d1 & Hw & Hh & Hv).
  { eapply healthy_weaken; [|exact Hk]. lia. }
  destruct (remove_yields sources None d1 k Hh) as (d2 & ? & ? & Hv2). exists d2.
  unfold merge_step. rewrite Hw. by rewrite Hv2, Hv.
Qed.
Lemma good_insert r p : good p → storable r = true → good (<[id r := r]> p).
Proof.
  intros [Hk Hs] Hr. split.
  - intros k r' [[<- <-]|[_ ?]]%lookup_insert_Some; [done|by apply Hk].
  - intros r' [k [[_ <-]|[_ ?]]%lookup_insert_Some]; [done|]. apply Hs. by exists k.
Qed.
Lemma good_drop ids p : good p → good (drop_ids ids p).
Proof. intros [Hk Hs]. split; [by apply keyed_drop|]. intros r Hr. by apply Hs, (in_pending_drop ids). Qed.
Lemma size_insert (p : Pending) r : (base.size (<[id r := r]> p) <= S (base.size p))%nat.
Proof. rewrite map_size_insert. case_match; [apply Nat.le_succ_diag_r|done]. Qed.
Lemma drop_ids_app ids ids' p : drop_ids (ids ++ ids') p = drop_ids ids (drop_ids ids' p).
Proof. apply foldr_app. Qed.
Lemma drop_union ids p m : drop_ids ids (p ∪ m) = drop_ids ids (drop_ids ids p ∪ m).
Proof.
  apply map_eq. intros i. rewrite !lookup_drop_ids. case_decide; [done|].
  by rewrite !lookup_union, lookup_drop_ids, decide_False by done.
Qed.
Lemma merge_union r sources p m :
  drop_ids sources (<[id r := r]> (p ∪ m)) =
  drop_ids sources (<[id r := r]> (drop_ids sources (delete (id r) p) ∪ m)).
Proof.
  apply map_eq. intros i. rewrite !lookup_drop_ids. case_decide; [done|].
  destruct (decide (i = id r)) as [->|Hne]; [by rewrite !lookup_insert_eq|].
  by rewrite !lookup_insert_ne, !lookup_union, lookup_drop_ids, decide_False, lookup_delete_ne by done.
Qed.
Definition storables (op : Op) : Prop := ∀ r, r ∈ written op → storable r = true.
Lemma apply_ops_yields ops p d : good p → (∀ op, op ∈ ops → storables op) →
  yields (6 * base.size p + costs ops) (apply_ops p ops) d (ops ≫= reports) (effects ops (p ∪ view d)).
Proof.
  assert (good ∅) as Hempty by (split; [intros k r; by rewrite lookup_empty|by intros r [k Hk]]).
  revert p d. induction ops as [|op ops IH]; intros p d Hp Hops.
  { cbn [apply_ops]. eapply yields_bind; [by apply flush_yields|]. intros d1 <-. apply yields_ret. }
  assert (∀ op', op' ∈ ops → storables op') as Hops' by (intros; apply Hops; by right).
  pose proof (Hops op ltac:(left)) as Hw. unfold storables in Hw. unfold costs, effects in *. csimpl.
  assert (∀ d, yields (costs ops) (apply_ops ∅ ops) d (ops ≫= reports) (foldl (λ m op, effect op m) (view d) ops)) as IH0.
  { intros d1. specialize (IH ∅ d1 Hempty Hops'). by rewrite map_size_empty, map_empty_union in IH. }
  destruct op as [r|ids t|r sources]; cbn [cost reports effect app].
  - eapply yields_weaken; [|rewrite insert_union_l; apply IH; [|done]].
    + pose proof (size_insert p r). lia.
    + apply good_insert; [done|]. apply Hw. left.
  - eapply (yields_weaken (6 * base.size (drop_ids ids p) + (length ids + 1 + (costs ops + 0)))).
    { pose proof (size_drop ids p). unfold costs. lia. }
    eapply yields_bind; [by apply flush_yields, good_drop|]. intros d1 Hd1.
    eapply yields_bind; [apply remove_yields|]. intros d2 Hd2.
    eapply yields_bind; [apply IH0|]. intros d3 Hd3.
    rewrite (drop_union ids p), <- Hd1, <- Hd2, <- Hd3. apply yields_ret.
  - eapply (yields_weaken (6 * base.size (drop_ids sources (delete (id r) p)) + (6 + (length sources + 1) + (costs ops + 0)))).
    { pose proof (size_drop (sources ++ [id r]) p) as Hd. rewrite drop_ids_app in Hd.
      change (drop_ids [id r] p) with (delete (id r) p) in Hd. unfold costs. lia. }
    eapply yields_bind; [by apply flush_yields, good_drop, (good_drop [id r])|]. intros d1 Hd1.
    eapply yields_bind; [apply merge_yields, Hw; left|]. intros d2 Hd2.
    eapply yields_bind; [apply IH0|]. intros d3 Hd3.
    rewrite (merge_union r sources p), <- Hd1, <- Hd2, <- Hd3. apply yields_ret.
Qed.

(** ** Shrinking keeps a record proper *)
Definition shrunk (r r' : Record_) : Prop := ∃ l ss, r' = set_sessions ss (set_skipped l r) ∧
  (∀ s, s ∈ l → s ∈ skipped r ∨ ∃ s', s' ∈ skipped r ∧ s = cleared s') ∧ (∀ x, x ∈ ss → x ∈ sessions r).
Lemma sacrifices_shrunk r r' : r' ∈ r :: sacrifices r → shrunk r r'.
Proof.
  unfold sacrifices, shrunk. rewrite elem_of_cons, !elem_of_app, !list_elem_of_fmap.
  intros [->|[(k & -> & _)|[(k & -> & _)|(k & -> & _)]]].
  - exists (skipped r), (sessions r). split; [by destruct r|auto].
  - eexists _, (sessions r). split; [done|]. split; [|done]. intros s [Hs|Hs]%elem_of_app.
    + left. apply elem_of_take in Hs as (j & Hj & _). by apply list_elem_of_lookup_2 in Hj.
    + apply list_elem_of_fmap in Hs as (s' & -> & Hs). right. exists s'. split; [|done].
      apply list_elem_of_lookup in Hs as [j Hj]. rewrite lookup_drop in Hj. by apply list_elem_of_lookup_2 in Hj.
  - eexists _, (sessions r). split; [done|]. split; [|done]. intros s (s' & -> & Hs)%list_elem_of_fmap.
    right. exists s'. split; [|done]. apply elem_of_take in Hs as (j & Hj & _). by apply list_elem_of_lookup_2 in Hj.
  - eexists [], _. split; [done|]. split; [by intros s ?%not_elem_of_nil|]. intros x Hx.
    apply list_elem_of_lookup in Hx as [j Hj]. rewrite lookup_drop in Hj. by apply list_elem_of_lookup_2 in Hj.
Qed.
Lemma forallb_sub {A} (f : A → bool) l k : (∀ x, x ∈ k → x ∈ l) → forallb f l = true → forallb f k = true.
Proof.
  rewrite !forallb_forall. intros Hk Hl x Hx%list_elem_of_In. by apply Hl, list_elem_of_In, Hk.
Qed.
Lemma shrunk_proper r r' : shrunk r r' → proper r = true → proper r' = true ∧ id r' = id r.
Proof.
  intros (l & ss & -> & Hl & Hss) Hp. split; [|done]. unfold proper, utf8_record in *.
  rewrite !andb_true_iff in Hp. rewrite !andb_true_iff. simpl.
  destruct Hp as [Hr [[Hu Hse] Hsk]]. split; [exact Hr|]. split; [split; [exact Hu|by eapply forallb_sub]|].
  rewrite forallb_forall in Hsk |- *. intros s Hs%list_elem_of_In. destruct (Hl s Hs) as [Hin|(s' & Hin & ->)].
  - by apply Hsk, list_elem_of_In.
  - apply list_elem_of_In, Hsk, andb_true_iff in Hin as [Hn _]. simpl. by rewrite Hn.
Qed.
Lemma fit_storable r r' : proper r = true → fit r = (true, r') → storable r' = true ∧ id r' = id r.
Proof.
  intros Hp. rewrite fit_gives_up_the_least. destruct (first_fitting _) as [r1|] eqn:Hf; [|done].
  intros [= <-]. apply first_fitting_Some in Hf as [Hin Hfit].
  destruct (shrunk_proper r r1) as [Hp1 ?]; [by apply sacrifices_shrunk|done|].
  split; [|done]. unfold storable. by rewrite Hp1, Hfit.
Qed.

(** ** The store *)
Definition opened (dir : Dir) : Store := mkStore (load (content <$> dir)) ∅ [] [] dir [].
Definition on_disk (s : Store) : gmap string Record_ := load (content <$> directory s).
(** What the daemon does to its store, and the writer thread with calls that
    succeed: it takes any number of queued operations at a time. *)
Inductive StoreOp :=
  | SWrite (r : Record_) | SMerge (r : Record_) (sources : list string)
  | SDelete (ids : list string) (t : option N) | SPoll | SWriter (n : nat).
Definition healthy_writer (n : nat) (s : Store) : Store :=
  (writer n (replicate (costs (take n (queue s))) Done) s).2.
Definition store_op (op : StoreOp) (s : Store) : Store :=
  match op with
  | SWrite r => store_write r s
  | SMerge r sources => store_merge r sources s
  | SDelete ids t => store_delete ids t s
  | SPoll => (poll s).2
  | SWriter n => healthy_writer n s
  end.
Definition brings (op : StoreOp) : list Record_ :=
  match op with SWrite r | SMerge r _ => [r] | _ => [] end.
(** The records an operation names. *)
Definition named (op : StoreOp) : gset string :=
  match op with
  | SWrite r => {[id r]}
  | SMerge r sources => {[id r]} ∪ list_to_set sources
  | SDelete ids _ => list_to_set ids
  | _ => ∅
  end.
(** A run, and the records an operation named while they were being deleted:
    its effect and the one of the deletion cross. *)
Definition store_step (sT : Store * gset string) (op : StoreOp) : Store * gset string :=
  (store_op op sT.1, sT.2 ∪ (named op ∩ deleting sT.1)).
Definition store_run (ops : list StoreOp) (dir : Dir) : Store * gset string :=
  foldl store_step (opened dir, ∅) ops.

(** ** The invariant, but for the records in [T] *)
Definition pend (s : Store) : list string :=
  (results s ≫= λ d, remove_dups (removed d)) ++ (queue s ≫= λ op, remove_dups (removable op)).
Record tracked (T : gset string) (s : Store) : Prop := {
  tracked_pend : NoDup (filter (λ i, i ∉ T) (pend s));
  tracked_deleting i : i ∈ deleting s → i ∈ pend s;
  tracked_known i : i ∉ T → i ∈ pend s → i ∈ deleting s;
  tracked_results d : d ∈ results s → failed d = [];
  tracked_ops op : op ∈ queue s → storables op;
  tracked_disk i : i ∉ T → effects (queue s) (on_disk s) !! i = if decide (i ∈ deleting s) then None else records s !! i }.
Lemma effects_app l k m : effects (l ++ k) m = effects k (effects l m).
Proof. apply foldl_app. Qed.
Lemma elem_of_binds {A} (f : A → list string) l i : i ∈ (l ≫= λ x, remove_dups (f x)) ↔ i ∈ l ≫= f.
Proof. rewrite !list_elem_of_bind. by setoid_rewrite elem_of_remove_dups. Qed.
Lemma elem_of_pend s i : i ∈ pend s ↔ i ∈ results s ≫= removed ∨ i ∈ queue s ≫= removable.
Proof. unfold pend. by rewrite elem_of_app, !elem_of_binds. Qed.
Lemma tracked_opened dir : tracked ∅ (opened dir).
Proof.
  split; simpl; [constructor|set_solver..|]. intros i _. by rewrite decide_False by set_solver.
Qed.
Lemma tracked_weaken T T' s : T ⊆ T' → tracked T s → tracked T' s.
Proof.
  intros HT [Hp Hd Hk Hr Ho Hdisk]. split; try done.
  - eapply sublist_NoDup; [exact Hp|]. clear -HT. induction (pend s) as [|i l IH]; [done|].
    rewrite !filter_cons. repeat case_decide; [by constructor|set_solver|by constructor|done].
  - intros i Hi. apply Hk. set_solver.
  - intros i Hi. apply Hdisk. set_solver.
Qed.
(** Queueing an operation whose deletions are new, but for the records in [T]. *)
Lemma tracked_send T op s m ids : tracked T s → storables op → removable op = ids →
  (∀ i, i ∈ ids → i ∈ deleting s → i ∈ T) →
  (∀ i, i ∉ T → i ∉ deleting s → i ∉ ids → effect op (effects (queue s) (on_disk s)) !! i = m !! i) →
  (∀ i, i ∉ T → i ∈ deleting s → effect op (effects (queue s) (on_disk s)) !! i = None) →
  (∀ i, i ∉ T → i ∈ ids → effect op (effects (queue s) (on_disk s)) !! i = None) →
  tracked T (send op (set_deleting (deleting s ∪ list_to_set ids) (set_records m s))).
Proof.
  intros [Hp Hd Hk Hr Ho Hdisk] Hop <- Hnew Hm Hgone Hgone'. set (s' := send _ _).
  assert (pend s' = pend s ++ remove_dups (removable op)) as He.
  { unfold pend. simpl. rewrite bind_app. simpl. by rewrite app_nil_r, app_assoc. }
  split.
  - rewrite He, filter_app. apply NoDup_app. split_and!; [done| |apply NoDup_filter, NoDup_remove_dups].
    intros i [HiT Hi]%list_elem_of_filter [_ Hi']%list_elem_of_filter. rewrite elem_of_remove_dups in Hi'.
    by apply HiT, Hnew, Hk.
  - intros i. rewrite He. simpl. rewrite elem_of_union, elem_of_list_to_set, elem_of_app, elem_of_remove_dups.
    intros [?%Hd|?]; auto.
  - intros i HiT. rewrite He. simpl. rewrite elem_of_union, elem_of_list_to_set, elem_of_app, elem_of_remove_dups.
    intros [?%Hk|?]; auto.
  - done.
  - simpl. intros op' [?|Hin%list_elem_of_singleton]%elem_of_app; [by apply Ho|by subst].
  - intros i HiT. simpl. unfold on_disk. simpl. fold (on_disk s). rewrite effects_app. simpl.
    case_decide as Hi; rewrite elem_of_union, elem_of_list_to_set in Hi.
    + destruct Hi; auto.
    + apply Hm; tauto.
Qed.

Lemma send_deleting op s m : send op (set_records m s) =
  send op (set_deleting (deleting s ∪ list_to_set []) (set_records m s)).
Proof. unfold send, set_deleting, set_records. simpl. f_equal. by rewrite union_empty_r_L. Qed.
Lemma set_records_same s : set_records (records s) s = s.
Proof. by destruct s. Qed.
Lemma storables_one op r r' : proper r = true → fit r = (true, r') → written op = [r'] → storables op.
Proof.
  intros Hp Hf Hw x Hx. rewrite Hw in Hx. apply list_elem_of_singleton in Hx as ->.
  by destruct (fit_storable r r' Hp Hf).
Qed.
Lemma tracked_write T r s : proper r = true → tracked T s → tracked (T ∪ ({[id r]} ∩ deleting s)) (store_write r s).
Proof.
  intros Hp Ht. apply (tracked_weaken _ (T ∪ ({[id r]} ∩ deleting s))) in Ht; [|set_solver].
  unfold store_write. destruct (fit r) as [b r'] eqn:Hf. destruct b; simpl; [|done].
  destruct (fit_storable r r' Hp Hf) as [_ Hid]. rewrite send_deleting.
  pose proof (tracked_disk _ s Ht) as Hd. apply tracked_send; try done; [by eapply storables_one|set_solver| | |set_solver].
  - intros i HiT Hi _. simpl. destruct (decide (i = id r')) as [->|Hne]; [by rewrite !lookup_insert_eq|].
    rewrite !lookup_insert_ne by done. by rewrite Hd, decide_False.
  - intros i HiT Hi. simpl. rewrite lookup_insert_ne by set_solver. by rewrite Hd, decide_True.
Qed.
Lemma tracked_merge T r sources s : proper r = true → tracked T s →
  tracked (T ∪ (({[id r]} ∪ list_to_set sources) ∩ deleting s)) (store_merge r sources s).
Proof.
  intros Hp Ht. set (T' := T ∪ _). apply (tracked_weaken _ T') in Ht; [|set_solver].
  unfold store_merge. destruct (fit r) as [b r'] eqn:Hf. destruct b; simpl; [|done].
  destruct (fit_storable r r' Hp Hf) as [_ Hid].
  pose proof (tracked_disk _ s Ht) as Hd. apply tracked_send; try done; [by eapply storables_one|set_solver|..].
  - intros i HiT Hi Hi'. simpl. rewrite lookup_drop_ids, decide_False by done.
    destruct (decide (i = id r')) as [->|Hne]; [by rewrite !lookup_insert_eq|].
    rewrite !lookup_insert_ne by done. by rewrite Hd, decide_False.
  - intros i HiT Hi. simpl. rewrite lookup_drop_ids. case_decide; [done|].
    rewrite lookup_insert_ne by set_solver. by rewrite Hd, decide_True.
  - intros i _ Hi. simpl. by rewrite lookup_drop_ids, decide_True.
Qed.
Lemma tracked_delete T ids t s : tracked T s → tracked (T ∪ (list_to_set ids ∩ deleting s)) (store_delete ids t s).
Proof.
  intros Ht. set (T' := T ∪ _). apply (tracked_weaken _ T') in Ht; [|set_solver].
  unfold store_delete. pose proof (tracked_disk _ s Ht) as Hd.
  pose proof (tracked_send T' (Delete ids t) s (records s) ids Ht) as Hs. rewrite set_records_same in Hs.
  apply Hs; try done.
  - by intros r ?%not_elem_of_nil.
  - set_solver.
  - intros i HiT Hi Hi'. simpl. by rewrite lookup_drop_ids, decide_False, Hd, decide_False.
  - intros i HiT Hi. simpl. rewrite lookup_drop_ids. case_decide; [done|]. by rewrite Hd, decide_True.
  - intros i _ Hi. simpl. by rewrite lookup_drop_ids, decide_True.
Qed.

Lemma poll_spec s : (∀ d, d ∈ results s → failed d = []) →
  (∀ i, records (poll s).2 !! i = if decide (i ∈ results s ≫= removed) then None else records s !! i) ∧
  (∀ i, i ∈ deleting (poll s).2 ↔ i ∈ deleting s ∧ i ∉ results s ≫= removed) ∧
  queue (poll s).2 = queue s ∧ results (poll s).2 = [] ∧ directory (poll s).2 = directory s.
Proof.
  intros Hr. destruct (settle_all (results s)
    (mkStore (records s) (deleting s) (queue s) [] (directory s) (unsynced s)) Hr) as (? & ? & ? & ? & ? & _). done.
Qed.
Lemma tracked_poll T s : tracked T s → tracked T (poll s).2.
Proof.
  intros [Hp Hd Hk Hr Ho Hdisk]. destruct (poll_spec s Hr) as (Hrec & Hdel & Hq & Hre & Hdir).
  assert (∀ i, i ∈ pend (poll s).2 ↔ i ∈ queue s ≫= removable) as He.
  { intros i. rewrite elem_of_pend, Hre, Hq. simpl. rewrite elem_of_nil. tauto. }
  unfold pend in Hp. rewrite filter_app in Hp. apply NoDup_app in Hp as (_ & Hdisj & Hp). split.
  - unfold pend. by rewrite Hre, Hq.
  - intros i [Hi Hni]%Hdel. apply He. apply Hd, elem_of_pend in Hi as [?|?]; done.
  - intros i HiT Hi%He. apply Hdel. split; [apply Hk; [done|]; apply elem_of_pend; by right|].
    intros Hi'. apply (Hdisj i); apply list_elem_of_filter; (split; [done|]); by rewrite elem_of_binds.
  - rewrite Hre. by intros d ?%not_elem_of_nil.
  - by rewrite Hq.
  - intros i HiT. unfold on_disk in *. rewrite Hq, Hdir, Hdisk, Hrec by done.
    specialize (Hdel i). specialize (Hk i HiT). rewrite elem_of_pend in Hk.
    destruct (decide (i ∈ deleting s)), (decide (i ∈ deleting (poll s).2)), (decide (i ∈ results s ≫= removed));
      done || (exfalso; tauto).
Qed.
Lemma reports_removed ops : ((ops ≫= reports) ≫= λ d, remove_dups (removed d)) = ops ≫= λ op, remove_dups (removable op).
Proof.
  induction ops as [|op ops IH]; csimpl; [done|]. rewrite bind_app, IH. f_equal.
  destruct op; csimpl; by rewrite ?app_nil_r.
Qed.
Lemma writer_spec T n k s : tracked T s → (costs (take n (queue s)) <= k)%nat →
  ∃ dir past, writer n (replicate k Done) s =
    (Ok tt, mkStore (records s) (deleting s) (drop n (queue s)) (results s ++ (take n (queue s) ≫= reports)) dir past) ∧
  load (content <$> dir) = effects (take n (queue s)) (on_disk s).
Proof.
  intros Ht Hk. unfold writer, apply.
  destruct (apply_ops_yields (take n (queue s)) ∅ (mkDisk (directory s) (unsynced s) (replicate k Done))) with (k := k - costs (take n (queue s)))
    as (d' & -> & _ & Hv).
  - split; [by intros i r; rewrite lookup_empty|by intros r [i Hi]].
  - intros op (j & Hj & _)%elem_of_take. by apply (tracked_ops T s Ht), (list_elem_of_lookup_2 _ j).
  - exists k. rewrite map_size_empty. split; [done|lia].
  - exists (files d'), (past d'). split; [done|]. unfold view in Hv. rewrite Hv, map_empty_union. done.
Qed.
Lemma tracked_writer T n k s : (costs (take n (queue s)) <= k)%nat → tracked T s →
  tracked T (writer n (replicate k Done) s).2.
Proof.
  intros Hle Ht. destruct (writer_spec T n k s Ht Hle) as (dir & past & -> & Hv). destruct Ht as [Hp Hd Hk Hr Ho Hdisk].
  simpl. set (s' := mkStore _ _ _ _ _ _). assert (pend s' = pend s) as He.
  { unfold pend. simpl. rewrite bind_app, reports_removed, <- app_assoc, <- bind_app, take_drop. done. }
  split; rewrite ?He; try done.
  - simpl. intros d [?|Hin]%elem_of_app; [by apply Hr|]. apply list_elem_of_bind in Hin as (op & Hin & _).
    destruct op; simpl in Hin; [by apply not_elem_of_nil in Hin|by apply list_elem_of_singleton in Hin as ->..].
  - simpl. intros op (j & Hj)%list_elem_of_lookup. rewrite lookup_drop in Hj. apply Ho. by eapply list_elem_of_lookup_2.
  - intros i HiT. unfold on_disk. simpl. rewrite Hv, <- effects_app, take_drop. by apply Hdisk.
Qed.
Lemma tracked_run ops dir : (∀ op r, op ∈ ops → r ∈ brings op → proper r = true) →
  tracked (store_run ops dir).2 (store_run ops dir).1.
Proof.
  unfold store_run. pose proof (tracked_opened dir) as Ht. revert Ht. generalize (∅ : gset string), (opened dir).
  induction ops as [|op ops IH]; intros T s Ht Hp; simpl; [done|]. apply IH; [|intros op' r ?; apply Hp; by right].
  assert (∀ r, r ∈ brings op → proper r = true) as Hr by (intros r; apply Hp; left).
  destruct op; simpl in *.
  - apply tracked_write; [apply Hr; left|done].
  - apply tracked_merge; [apply Hr; left|done].
  - by apply tracked_delete.
  - eapply tracked_weaken; [|by apply tracked_poll]. set_solver.
  - eapply tracked_weaken; [|by apply tracked_writer]. set_solver.
Qed.

(** The writer catches up, and its outcomes are polled. *)
Definition caught_up (s : Store) : Store := healthy_writer (length (queue s)) s.
Definition settled (s : Store) : Store := (poll (caught_up s)).2.
Lemma caught_up_spec T s : tracked T s → tracked T (caught_up s) ∧ queue (caught_up s) = [] ∧
  records (caught_up s) = records s ∧ deleting (caught_up s) = deleting s ∧
  on_disk (caught_up s) = effects (queue s) (on_disk s) ∧
  (∀ i, i ∈ results (caught_up s) ≫= removed ↔ i ∈ pend s).
Proof.
  intros Ht. unfold caught_up, healthy_writer.
  pose proof (tracked_writer T (length (queue s)) _ s (le_n _) Ht) as Ht1.
  destruct (writer_spec T (length (queue s)) _ s Ht (le_n _)) as (d & p & Hw & Hv). rewrite Hw in *. cbn [snd] in *.
  split_and!; [done|apply drop_all|done|done|unfold on_disk; cbn [directory]; by rewrite Hv, firstn_all|].
  intros i. rewrite elem_of_pend. simpl. rewrite bind_app, elem_of_app, firstn_all.
  rewrite <- (elem_of_binds removed (queue s ≫= reports)), reports_removed, elem_of_binds. done.
Qed.
Lemma settled_spec T s : tracked T s →
  let s2 := settled s in
  queue s2 = [] ∧ results s2 = [] ∧ deleting s2 = ∅ ∧
  (∀ i, i ∉ T → records s2 !! i = on_disk s2 !! i ∧
     records s2 !! i = if decide (i ∈ deleting s) then None else records s !! i) ∧
  on_disk s2 = effects (queue s) (on_disk s) ∧
  (∀ i, i ∈ deleting s → records s2 !! i = None ∧ i ∈ (poll (caught_up s)).1 ≫= removed) ∧
  (∀ i, i ∉ T → i ∈ (poll (caught_up s)).1 ≫= removed → i ∈ deleting s).
Proof.
  intros Ht s2. destruct (caught_up_spec T s Ht) as (Ht1 & Hq & Hrec & Hdel & Hdisk & Hre).
  pose proof (tracked_poll T _ Ht1) as Ht2. fold s2 in Ht2.
  destruct (poll_spec (caught_up s) (tracked_results _ _ Ht1)) as (Hrec2 & Hdel2 & Hq2 & Hr2 & Hdir2).
  fold (settled s) in Hrec2, Hdel2, Hq2, Hr2, Hdir2. fold s2 in Hrec2, Hdel2, Hq2, Hr2, Hdir2.
  change ((poll (caught_up s)).1) with (results (caught_up s)). rewrite Hq in Hq2. rewrite Hrec in Hrec2.
  assert (deleting s2 = ∅) as Hd2.
  { apply set_eq. intros i. split; [|set_solver]. intros Hi%(tracked_deleting T s2 Ht2).
    rewrite elem_of_pend, Hq2, Hr2 in Hi. set_solver. }
  assert (∀ i, i ∉ T → i ∈ results (caught_up s) ≫= removed → i ∈ deleting s) as Hback.
  { intros i HiT Hi%Hre. by apply (tracked_known T s Ht). }
  assert (∀ i, i ∈ deleting s → i ∈ results (caught_up s) ≫= removed) as Hforth.
  { intros i Hi. apply Hre. by apply (tracked_deleting T s Ht). }
  split_and!; try done.
  - intros i HiT. split.
    + pose proof (tracked_disk T s2 Ht2 i HiT) as Hi. rewrite Hq2, Hd2 in Hi. simpl in Hi.
      by rewrite Hi, decide_False by set_solver.
    + rewrite Hrec2. specialize (Hback i HiT). specialize (Hforth i). repeat case_decide; tauto.
  - unfold on_disk at 1. by rewrite Hdir2.
  - intros i Hi. split; [|by apply Hforth]. rewrite Hrec2, decide_True by by apply Hforth. done.
Qed.

(** C37. The directory mirrors the memory of the store. Whatever well-formed
    records (a valid ID, UTF-8 texts, 64-bit times) the daemon writes, merges
    and deletes, however the writer cuts the queue into batches and when the
    outcomes are polled: once the writer has caught up, all of its calls
    having succeeded, and its outcomes are polled, nothing is queued or being
    deleted, each record that was being deleted is reported and forgotten, and
    a reader of the directory finds exactly the records in memory. Excepted
    from the last are the records that were written, merged or deleted again
    while they were being deleted, and no others. *)
Theorem quiet_store_is_on_disk dir ops : (∀ op r, op ∈ ops → r ∈ brings op → proper r = true) →
  let s := (store_run ops dir).1 in
  let crossed := (store_run ops dir).2 in
  let s2 := settled s in
  queue s2 = [] ∧ results s2 = [] ∧ deleting s2 = ∅ ∧
  (∀ i, i ∈ deleting s → records s2 !! i = None ∧ i ∈ (poll (caught_up s)).1 ≫= removed) ∧
  (∀ i, i ∉ crossed → records s2 !! i = on_disk s2 !! i ∧
     records s2 !! i = (if decide (i ∈ deleting s) then None else records s !! i) ∧
     (i ∈ (poll (caught_up s)).1 ≫= removed → i ∈ deleting s)) ∧
  (crossed = ∅ → records s2 = on_disk s2).
Proof.
  intros Hp s T s2. destruct (settled_spec T s (tracked_run ops dir Hp)) as (? & ? & ? & Hd & _ & ? & Hb).
  fold s2 in Hd. split_and!; try done.
  - intros i Hi. destruct (Hd i Hi). split_and!; [done..|by apply Hb].
  - intros HT. apply map_eq. intros i. apply Hd. rewrite HT. set_solver.
Qed.
End healthy.

(** ** Retention *)
Section retention.
Implicit Types (s : Store) (running : gset string).
Definition excess (keep : N) s : nat :=
  base.size (records s) - base.size (deleting s) - N.to_nat keep.
Definition store_sane s : Prop := keyed (records s) ∧ (N.of_nat (base.size (records s)) < u64_modulus)%N ∧
  ∀ i, i ∈ deleting s → is_Some (records s !! i).
Lemma size_deleting s : store_sane s → (base.size (deleting s) <= base.size (records s))%nat.
Proof.
  intros (_ & _ & Hd). rewrite <- size_dom. apply subseteq_size. intros i Hi. by apply elem_of_dom, Hd.
Qed.
Lemma retained_eq keep running s : store_sane s →
  retained keep running s = id <$> take (excess keep s) (merge_sort older (idle s running)).
Proof.
  intros Hs. pose proof (size_deleting s Hs). destruct Hs as (_ & Hsz & _).
  unfold retained, excess, usize_sub, u64_saturating_sub. do 3 f_equal.
  replace (N.of_nat (base.size (records s)) + u64_modulus - N.of_nat (base.size (deleting s)))%N
    with (N.of_nat (base.size (records s) - base.size (deleting s)) + 1 * u64_modulus)%N by lia.
  rewrite N.Div0.mod_add, N.mod_small by lia. lia.
Qed.
Lemma elem_of_idle s running r : store_sane s →
  r ∈ idle s running ↔ records s !! id r = Some r ∧ id r ∉ running ∧ id r ∉ deleting s.
Proof.
  intros (Hk & _). unfold idle. rewrite list_elem_of_filter, keyed_values by done. tauto.
Qed.

(** Retention deletes the least recently updated records that are neither
    running nor being deleted, as many as there are beyond [keep] or as there
    are such records, and nothing else; what it deletes may always be deleted. *)
Theorem retain_takes_the_least_recent keep running s : store_sane s →
  let '(ids, s') := retain keep running s in
  s' = (if bool_decide (ids = []) then s else store_delete ids None s) ∧
  NoDup ids ∧ length ids = Nat.min (excess keep s) (length (idle s running)) ∧
  (∀ i, i ∈ ids → i ∉ running ∧ i ∉ deleting s ∧ is_Some (records s !! i)) ∧
  (∀ i j a b, i ∈ ids → records s !! i = Some a → records s !! j = Some b →
    j ∉ running → j ∉ deleting s → j ∉ ids → older a b).
Proof.
  intros Hs. unfold retain. rewrite (retained_eq keep running s Hs).
  set (l := merge_sort older (idle s running)). set (n := excess keep s).
  assert (∀ r, r ∈ l ↔ records s !! id r = Some r ∧ id r ∉ running ∧ id r ∉ deleting s) as Hl.
  { intros r. unfold l. rewrite merge_sort_Permutation. by apply elem_of_idle. }
  assert (∀ r, r ∈ take n l → r ∈ l) as Htake.
  { intros r (j & Hj & _)%elem_of_take. by eapply list_elem_of_lookup_2. }
  split_and!; [done|..].
  - apply (NoDup_fmap_2_strong id).
    + intros a b Ha%Htake%Hl Hb%Htake%Hl Hid. destruct Ha as [Ha _], Hb as [Hb _]. congruence.
    + apply (sublist_NoDup _ l), sublist_take. unfold l. rewrite merge_sort_Permutation.
      apply NoDup_filter, NoDup_values, Hs.
  - rewrite length_fmap, length_take. unfold l. by rewrite merge_sort_Permutation.
  - intros i (r & -> & Hr%Htake%Hl)%list_elem_of_fmap. naive_solver.
  - intros i j a b (r & -> & Hr)%list_elem_of_fmap Ha Hb Hj Hj' Hni.
    pose proof (proj1 (Hl r) (Htake r Hr)) as [Hra _]. assert (a = r) as -> by congruence.
    assert (id b = j) as <- by (by apply Hs).
    assert (b ∈ take n l ++ drop n l) as [Hbt|Hbd]%elem_of_app by (rewrite take_drop; by apply Hl).
    { destruct Hni. apply list_elem_of_fmap. by exists b. }
    assert (StronglySorted older (take n l ++ drop n l)) as Hss.
    { rewrite take_drop. apply StronglySorted_merge_sort; apply _. }
    by apply (StronglySorted_app_1_elem_of _ _ _ _ _ Hss).
Qed.
End retention.

(** ** Examples *)
Section examples.
#[local] Existing Instance code_text.
#[local] Existing Instance code_text_laws.
Let busy_ops : list StoreOp :=
  [SWrite (sample "a" 1); SWrite (sample "c" 2); SMerge (sample "b" 3) ["c"]; SDelete ["a"] (Some 7%N)].
Let busy : Store := (store_run busy_ops ∅).1.
(** The records of a run agree; one that is written while it is being deleted
    comes back on disk only. *)
Lemma quiet_store_is_on_disk_witness :
  (store_run busy_ops ∅).2 = ∅ ∧ records (settled busy) = on_disk (settled busy) ∧
  keys (records (settled busy)) = ["b"] ∧
  let ops := busy_ops ++ [SWrite (sample "c" 5)] in
  records (settled (store_run ops ∅).1) !! "b" = on_disk (settled (store_run ops ∅).1) !! "b" ∧
  (store_run ops ∅).2 = {["c"]}.
Proof.
  assert (∀ ops, forallb (λ op, forallb proper (brings op)) ops = true →
    ∀ op r, op ∈ ops → r ∈ brings op → proper r = true) as Hall.
  { intros ops Ho op r Hop Hr. by eapply forallb_elem, Hr; eapply (forallb_elem _ _ _ Ho). }
  assert (forallb (λ op, forallb proper (brings op)) (busy_ops ++ [SWrite (sample "c" 5)]) = true) as Hp2 by (by vm_compute).
  assert (forallb (λ op, forallb proper (brings op)) busy_ops = true) as Hp1 by (by vm_compute).
  assert ((store_run busy_ops ∅).2 = ∅) as He by (apply (bool_decide_unpack (_ = _)); by vm_compute).
  assert ((store_run (busy_ops ++ [SWrite (sample "c" 5)]) ∅).2 = {["c"]}) as Hc by (apply (bool_decide_unpack (_ = _)); by vm_compute).
  destruct (quiet_store_is_on_disk ∅ busy_ops (Hall _ Hp1)) as (_ & _ & _ & _ & _ & Hd).
  destruct (quiet_store_is_on_disk ∅ (busy_ops ++ [SWrite (sample "c" 5)]) (Hall _ Hp2)) as (_ & _ & _ & _ & Hi & _).
  split; [exact He|]. split; [exact (Hd He)|]. split; [by vm_compute|]. split; [|exact Hc].
  apply Hi. rewrite Hc. apply (bool_decide_unpack (¬ _)). by vm_compute.
Defined.

Lemma retain_takes_the_least_recent_witness : store_sane busy ∧
  (retain 0 ∅ busy).1 = ["b"] ∧ ∀ i, i ∈ (retain 0 ∅ busy).1 → i ∉ deleting busy.
Proof.
  assert (store_sane busy) as Hs.
  { split; [|split; [by vm_compute|]].
    - assert (map_Forall (λ k r, id r = k) (records busy)) as Hk; [|exact Hk].
      apply (bool_decide_unpack (map_Forall _ _)). by vm_compute.
    - intros i Hi. apply elem_of_dom. revert i Hi.
      change (deleting busy ⊆ dom (records busy)). apply (bool_decide_unpack (deleting busy ⊆ _)). by vm_compute. }
  split; [done|]. pose proof (retain_takes_the_least_recent 0 ∅ busy Hs) as Hr.
  assert ((retain 0 ∅ busy).1 = ["b"]) as Hb by (by vm_compute).
  destruct (retain 0 ∅ busy) as [ids s']. destruct Hr as (_ & _ & _ & Hin & _). simpl in Hb.
  split; [exact Hb|]. intros i Hi. by apply Hin.
Defined.
End examples.
