(* ===== verification/ControllerRecords.v ===== *)
(** * The controller's use of the history store

    The recreate records in [packages/daemon/src/controller.rs]: the record of
    a goblin, what starting, granting, denying, setting variables and stopping
    write, recreating from a record, merging the records of one conversation,
    listing and pruning. The controller is seen through the fields these read
    and write; the clock, the file system's [is_dir], a free agent name and
    the length of a printed value are arguments. *)
From S2P Require Import Prelude Json Grammar Messages Framing FramingFacts Text History HistoryStore.
From Stdlib Require Import Ascii.

Local Abbreviation Fault := (Z * string)%type.

(** The fields of an [Active] session that its record is made of. *)
Record Goblin := mkGoblin {
  g_id : string; g_name : string; g_agent_name : string; g_cwd : option Bytes;
  g_scope : option string; g_dev_shell : option string; g_docker_enabled : bool;
  g_packages : list string; g_auto_approve : list string; g_skipped : list Skipped;
  g_state : string; g_live : bool; g_line : string; g_variables : gmap string string;
  g_fresh : gset string; g_recreated_from : option Record_ }.
Definition set_state (state : string) (live : bool) (a : Goblin) : Goblin :=
  mkGoblin (g_id a) (g_name a) (g_agent_name a) (g_cwd a) (g_scope a) (g_dev_shell a) (g_docker_enabled a)
    (g_packages a) (g_auto_approve a) (g_skipped a) state live (g_line a) (g_variables a) (g_fresh a)
    (g_recreated_from a).
Definition with_goblin_variables (v : gmap string string) (fresh : gset string) (a : Goblin) : Goblin :=
  mkGoblin (g_id a) (g_name a) (g_agent_name a) (g_cwd a) (g_scope a) (g_dev_shell a) (g_docker_enabled a)
    (g_packages a) (g_auto_approve a) (g_skipped a) (g_state a) (g_live a) (g_line a) v fresh (g_recreated_from a).

(** A connection waits for the outcome of its prune; replies are queued. *)
Record Connection := mkConnection { waiting : option (string * Value); replies : list Value }.
Record Keeper := mkKeeper {
  workspace : bool;
  keep_sessions : N;
  history : Store + string;
  history_directory : option string;
  sessions_ : gmap string Goblin;
  connections : list Connection;
  serial : N }.
Definition set_history (s : Store) (k : Keeper) : Keeper :=
  mkKeeper (workspace k) (keep_sessions k) (inl s) (history_directory k) (sessions_ k) (connections k) (serial k).
Definition set_goblins (m : gmap string Goblin) (k : Keeper) : Keeper :=
  mkKeeper (workspace k) (keep_sessions k) (history k) (history_directory k) m (connections k) (serial k).
Definition set_connections (l : list Connection) (k : Keeper) : Keeper :=
  mkKeeper (workspace k) (keep_sessions k) (history k) (history_directory k) (sessions_ k) l (serial k).
Definition set_serial (n : N) (k : Keeper) : Keeper :=
  mkKeeper (workspace k) (keep_sessions k) (history k) (history_directory k) (sessions_ k) (connections k) n.

(** Records with a live goblin. *)
Definition live_lines (m : gmap string Goblin) : gset string :=
  list_to_set (g_line <$> filter (λ a, g_live a = true) (values m)).

Section text.
Context `{RecordText}.
(** [let _ = record.approve(package);]. *)
Definition try_change (m : M Record_ string bool) (r : Record_) : Record_ := state_of m r.

(** ** The record of a goblin *)
Definition line_record (now : N) (a : Goblin) (existing : option Record_) : Record_ :=
  let base := match existing with
              | Some r => r
              | None => match g_recreated_from a with
                        | Some r => r
                        | None => new_record (g_line a) (g_name a) (g_agent_name a) now
                        end
              end in
  let ran := ran_as (g_id a) base in
  let record := mkRecord VERSION (id ran) (g_name a) (g_agent_name a) (g_cwd a) (g_scope a) (g_dev_shell a)
    (docker_enabled ran || g_docker_enabled a) (packages ran) (g_variables a) (sessions ran) (g_skipped a)
    (created ran) now None in
  let record := foldl (λ r p, try_change (approve p) r) record (g_packages a) in
  foldl (λ r p, try_change (auto p) r) record (g_auto_approve a).

(** [a] is not among the sessions while it is processed. *)
Definition record_started (now : N) (a : Goblin) (k : Keeper) : Keeper :=
  if workspace k then k
  else
    let running := {[g_line a]} ∪ live_lines (sessions_ k) in
    match history k with
    | inr _ => k
    | inl s =>
        let s := store_write (line_record now a (records s !! g_line a)) s in
        set_history (retain (keep_sessions k) running s).2 k
    end.
Definition unrecorded (a : Goblin) (s : Store) : bool :=
  string_eqb (g_state a) "running" && g_live a &&
  match records s !! g_line a with
  | None => true
  | Some r => negb (string_eqb (latest r) (g_id a))
  end.
Definition record_one (s : Store) (na : N * Goblin) : Store :=
  if unrecorded na.2 s then store_write (line_record na.1 na.2 (records s !! g_line na.2)) s else s.
(** The clock is read once for each goblin that is recorded: [nows] gives it
    for each session. *)
Definition record_running (nows : string → N) (k : Keeper) : Keeper :=
  if workspace k then k
  else match history k with
       | inr _ => k
       | inl s =>
           let s := foldl record_one s ((λ kv, (nows kv.1, kv.2)) <$> entries (sessions_ k)) in
           set_history (retain (keep_sessions k) (live_lines (sessions_ k)) s).2 k
       end.
(** [open_history] when the store is free: before the first launch. *)
Definition open_history (s : Store) (directory : string) (keep : N) (k : Keeper) : Keeper :=
  mkKeeper (workspace k) keep (inl s) (Some directory) (sessions_ k) (connections k) (serial k).
(** The store of [poll_history], once its holder released it. *)
Definition take_over (nows : string → N) (s : Store) (directory : string) (k : Keeper) : Keeper :=
  record_running nows
    (mkKeeper (workspace k) (keep_sessions k) (inl s) (Some directory) (sessions_ k) (connections k) (serial k)).

(** ** Changes of a record *)
Definition update_record (now : N) (line : string) (change : M Record_ string bool) : M Keeper string bool := λ k,
  match history k with
  | inr _ => (Ok false, k)
  | inl s =>
      match records s !! line with
      | Some r =>
          if bool_decide (is_Some (stopped r)) then (Ok false, k)
          else match change r with
               | (Ok true, r') => (Ok true, set_history (store_write (set_times (created r') now r') s) k)
               | (Ok false, _) => (Ok false, k)
               | (Err e, _) => (Err e, k)
               | (Panic, _) => (Panic, k)
               end
      | None => (Ok false, k)
      end
  end.
Definition with_stopped (t : option N) (r : Record_) : Record_ :=
  mkRecord (version r) (id r) (configuration r) (agent_name r) (cwd r) (scope r) (dev_shell r)
    (docker_enabled r) (packages r) (variables r) (sessions r) (skipped r) (created r) (updated r) t.
Definition with_docker (r : Record_) : Record_ :=
  mkRecord (version r) (id r) (configuration r) (agent_name r) (cwd r) (scope r) (dev_shell r)
    true (packages r) (variables r) (sessions r) (skipped r) (created r) (updated r) (stopped r).
(** Only the goblin the record last ran as ends it. *)
Definition stop_change (session : string) (now : N) : M Record_ string bool := λ r,
  if string_eqb (latest r) session then update (with_stopped (Some now)) r else (Ok false, r).
Definition grant_change (kind package : string) : M Record_ string bool :=
  if string_eqb kind "docker" then update with_docker
  else if string_eqb kind "package" then approve package
  else mret false.

(** ** One record per conversation *)

(** [sort_by_key(Reverse(created))] is stable, and the records come in the
    order of their IDs. *)
Definition created_desc (a b : Record_) : Prop :=
  (created b < created a)%N ∨ created a = created b ∧ String.le (id a) (id b).
#[export] Instance created_desc_dec : RelDecision created_desc.
Proof. intros a b. unfold created_desc. apply _. Defined.
Definition absorb_packages (other merged : Record_) : Record_ :=
  let merged := foldl (λ m p, if bool_decide (p ∈ denied (packages m)) then m else try_change (approve p) m)
    merged (approved (packages other)) in
  foldl (λ m p, if bool_decide (p ∈ denied (packages m)) then m else try_change (auto p) m)
    merged (auto_approve (packages other)).
Definition absorb (merged other : Record_) : Record_ :=
  let lead := filter (λ s, s ∉ sessions merged) (sessions other) in
  let merged := set_sessions (drain_excess (lead ++ sessions merged)) merged in
  let merged := absorb_packages other merged in
  set_times (created merged `min` created other) (updated merged) merged.
Definition same_conversation (line conversation_ : string) (live : gset string) (s : Store) (r : Record_) : bool :=
  negb (string_eqb (id r) line) && opt_string_eqb (conversation r) (Some conversation_) &&
  negb (bool_decide (id r ∈ live)) && negb (bool_decide (id r ∈ deleting s)).
Definition others (line conversation_ : string) (live : gset string) (s : Store) : list Record_ :=
  merge_sort created_desc (filter (λ r, same_conversation line conversation_ live s r = true) (values (records s))).
Definition merge_conversation (now : N) (line : string) (k : Keeper) : Keeper :=
  match history k with
  | inr _ => k
  | inl s =>
      match records s !! line with
      | None => k
      | Some r =>
          match conversation r with
          | None => k
          | Some c =>
              let l := others line c (live_lines (sessions_ k)) s in
              if bool_decide (l = []) then k
              else let merged := foldl absorb r l in
                   set_history (store_merge (set_times (created merged) now merged) (id <$> l) s) k
          end
      end
  end.

(** ** [sessions.set-variables] *)
Definition refresh (fresh : gset string) (kv : string * string) : gset string :=
  if string_eqb kv.2 "" then fresh ∖ {[kv.1]} else fresh ∪ {[kv.1]}.
Definition not_recorded (e : string) : Fault := ((-32010)%Z, "variables not recorded: " +:+ e).
Definition controller_conflict : Fault := ((-32009)%Z, "stale or conflicting operation").
Definition absent : Fault := ((-32004)%Z, "record absent or no longer retained").
Definition session_set_variables (now now' now'' : N) (session : string) (changes : gmap string string) :
    M Keeper Fault Value := λ k,
  match sessions_ k !! session with
  | None => (Err absent, k)
  | Some a =>
      if negb (string_eqb (g_state a) "running") || negb (g_live a) then (Err controller_conflict, k)
      else
        let line := g_line a in
        let existing := match history k with inl s => records s !! line | inr _ => None end in
        match set_variables changes (line_record now a existing) with
        | (Err e, _) => (Err (not_recorded e), k)
        | (Panic, _) => (Panic, k)
        | (Ok _, scratch) =>
            match update_record now' line (set_variables changes) k with
            | (Err e, k) => (Err (not_recorded e), k)
            | (Panic, k) => (Panic, k)
            | (Ok _, k) =>
                let a := with_goblin_variables (variables scratch) (foldl refresh (g_fresh a) (entries changes)) a in
                let k := set_goblins (<[session := a]> (sessions_ k)) k in
                let recorded := bool_decide (is_Some existing) in
                let k := if recorded && bool_decide (is_Some (changes !! "session_id"))
                         then merge_conversation now'' line k else k in
                (Ok (json_object [("accepted", Bool true); ("recorded", Bool recorded)]), k)
            end
        end
  end.

(** ** Recreating *)

(** The fields of a launch that a record fills. *)
Record Start := mkStart {
  st_name : string; st_agent_name : option string; st_cwd : option Bytes; st_scope : option string;
  st_dev_shell : option string; st_raid : option string; st_recorded : option Record_ }.
Definition recreate_conflict (r : Record_) (k : Keeper) : option string :=
  a ← List.find (λ a, string_eqb (g_line a) (id r)) (filter (λ a, g_live a = true) (values (sessions_ k)));
  Some ("goblin " +:+ g_agent_name a +:+ " (" +:+ g_id a +:+ ") is live and runs it").
Definition takes_from_record : Fault := ((-32602)%Z,
  "resume takes the configuration, agent name, scope, dev shell and working directory from its record").
Definition workspace_server : Fault := ((-32009)%Z,
  "this server snapshots a --workspace for each goblin, so its goblins are neither recorded nor resumed").
Definition no_history (reason : string) : Fault := ((-32009)%Z, "no session history: " +:+ reason).
Definition given {A} (o : option A) : bool := match o with Some _ => true | None => false end.
(** [is_dir] and [display] of a path, and whether a name is free. *)
Definition prepare_recreate (is_dir : Bytes → bool) (display : Bytes → string) (name_free : string → bool)
    (target : string) (p : Start) (k : Keeper) : res Fault Start :=
  if negb (string_eqb (st_name p) "") || given (st_agent_name p) || given (st_cwd p) || given (st_scope p) ||
     given (st_dev_shell p) || given (st_raid p) then Err takes_from_record
  else if workspace k then Err workspace_server
  else match history k with
  | inr reason => Err (no_history reason)
  | inl s =>
      match resolve target s with
      | Err e => Err ((-32004)%Z, e)
      | Panic => Panic
      | Ok r =>
          if bool_decide (id r ∈ deleting s)
          then Err ((-32009)%Z, "record " +:+ id r +:+ " is being removed")
          else if match cwd r with Some c => negb (is_dir c) | None => false end
          then Err ((-32009)%Z, "the recorded working directory " +:+ default "" (display <$> cwd r) +:+
                               " no longer exists")
          else if (MAX_NAMES <? lenN (auto_approve (packages r)))%N
          then Err ((-32010)%Z, "record " +:+ id r +:+ " exceeds the auto-approve limit of " +:+
                               show MAX_NAMES +:+ " packages")
          else match recreate_conflict r k with
          | Some reason => Err ((-32009)%Z, "record " +:+ id r +:+ " cannot be resumed now: " +:+ reason)
          | None => Ok (mkStart (configuration r)
                          (if name_free (agent_name r) then Some (agent_name r) else None)
                          (cwd r) (scope r) (dev_shell r) (st_raid p) (Some r))
          end
      end
  end.

(** The line of a launch: its record's, or a new ID that no record and no
    session uses. *)
Definition line_taken (k : Keeper) (candidate : string) : bool :=
  match history k with inl s => bool_decide (is_Some (records s !! candidate)) | inr _ => false end ||
  existsb (λ a, string_eqb (g_line a) candidate) (values (sessions_ k)).
Definition launch_line (random : list Bytes) (recorded : option Record_) (k : Keeper) : res string string :=
  match recorded with Some r => Ok (id r) | None => new_id 16 random (line_taken k) end.

(** ** Listing *)
Section listing.
Variable vec_len : Value → N.
Definition MAX_LISTED : N := 900 * 1024.
Definition listed (running : gset string) (r : Record_) : Value :=
  default Null (value_set (record_value r) "running" (Bool (bool_decide (id r ∈ running)))).
Fixpoint list_records (running : gset string) (being_deleted : gset string) (size : N) (l : list Record_) :
    list Value * bool :=
  match l with
  | [] => ([], false)
  | r :: l =>
      if bool_decide (id r ∈ being_deleted) then list_records running being_deleted size l
      else
        let size := u64_add size (vec_len (listed running r)) in
        if (MAX_LISTED <? size)%N then ([], true)
        else let '(rest, truncated) := list_records running being_deleted size l in
             (listed running r :: rest, truncated)
  end.
Definition history_list (directory : string) (k : Keeper) : res Fault Value :=
  match history k with
  | inr reason => Err (no_history reason)
  | inl s =>
      let '(l, truncated) := list_records (live_lines (sessions_ k)) (deleting s) 0 (newest_first (records s)) in
      Ok (json_object [("directory", String_ directory); ("records", Array l); ("truncated", Bool truncated)])
  end.
End listing.
Definition history_status (directory : string) (k : Keeper) : Value :=
  match history k with
  | inl s => json_object [("directory", String_ directory); ("owner", Bool true);
                          ("keep", json_u64 (keep_sessions k)); ("recording", Bool (negb (workspace k)))]
  | inr reason => json_object [("directory", json_opt_str (history_directory k)); ("owner", Bool false);
                               ("reason", String_ reason)]
  end.

(** ** Pruning *)
Definition prune_key (n : N) : string := "prune-" +:+ show n.
Definition prune_result (removed : list string) (failed : list Value) (dry_run : bool) : Value :=
  json_object [("removed", json_strs removed); ("failed", Array failed); ("dry_run", Bool dry_run)].
Definition choose_criterion : Fault := ((-32602)%Z, "choose --older-than, --before or --keep").
(** The caller is the connection at [at_]; an answer now, or [None] when it
    waits for the writer. *)
Definition set_waiting (w : option (string * Value)) (c : Connection) : Connection := mkConnection w (replies c).
Definition history_prune (now : N) (at_ : nat) (rpc_id : Value) (p : Prune) : M Keeper Fault (option Value) := λ k,
  if is_empty p then (Err choose_criterion, k)
  else match u64_checked_add (serial k) 1 with
  | None => (Panic, k)
  | Some n =>
      let k := set_serial n k in
      match history k with
      | inr reason => (Err (no_history reason), k)
      | inl s =>
          let excluded := live_lines (sessions_ k) ∪ deleting s in
          let removed := select p (records s) excluded now in
          if dry_run p || bool_decide (removed = [])
          then (Ok (Some (prune_result removed [] (dry_run p))), k)
          else (Ok None, set_connections (alter (set_waiting (Some (prune_key n, rpc_id))) at_ (connections k))
                  (set_history (store_delete removed (Some n) s) k))
      end
  end.
Definition failed_value (f : string * string) : Value :=
  json_object [("id", String_ f.1); ("reason", String_ f.2)].
Definition answer_prune (t : N) (d : Deleted) (c : Connection) : Connection :=
  match waiting c with
  | Some (key, rpc_id) =>
      if string_eqb key (prune_key t)
      then mkConnection None (replies c ++ [result rpc_id (prune_result (removed d) (failed_value <$> failed d) false)])
      else c
  | None => c
  end.
Definition answer (l : list Connection) (d : Deleted) : list Connection :=
  match tag d with None => l | Some t => answer_prune t d <$> l end.
Definition poll_deletes (k : Keeper) : Keeper :=
  match history k with
  | inr _ => k
  | inl s =>
      let '(ds, s) := poll s in
      set_connections (foldl answer (connections k) ds) (set_history s k)
  end.
End text.
