(* ===== verification/ControllerRecordsSpec.v ===== *)
(** * What the controller promises the history store

    Proofs about [ControllerRecords.v]: every record the controller writes is
    one a reader accepts and belongs to a line that is not being deleted, so
    that the directory mirrors the memory of the store; a conversation keeps
    one record and loses nothing; prunes are answered with what was done. *)
From S2P Require Import Prelude Json Grammar Messages Framing FramingFacts Text History HistoryText HistorySpec.
From S2P Require Import HistoryStore HistoryStoreSpec HistoryQuiet ControllerRecords.
From Stdlib Require Import Ascii.

(** ** Proper records *)
Definition utf8_map (m : gmap string string) : Prop := map_Forall (λ k v, utf8 k && utf8 v = true) m.
Lemma utf8_entries m : forallb (λ kv, utf8 kv.1 && utf8 kv.2) (entries m) = true ↔ utf8_map m.
Proof.
  rewrite forallb_forall. unfold utf8_map, map_Forall. split.
  - intros Hm k v Hkv. apply (Hm (k, v)), list_elem_of_In. by apply elem_of_entries.
  - intros Hm [k v] Hin%list_elem_of_In. apply elem_of_entries in Hin. by apply Hm.
Qed.
Record good_packages (p : Packages) : Prop := {
  utf8_approved : forallb utf8 (approved p) = true;
  utf8_denied : forallb utf8 (denied p) = true;
  utf8_auto : forallb utf8 (auto_approve p) = true }.
(** [proper], taken apart. *)
Record proper_parts (r : Record_) : Prop := {
  part_id : identifier (id r) = true;
  part_version : version r = VERSION;
  part_sized : sized r = true;
  part_texts : utf8 (configuration r) && utf8 (agent_name r) && opt_utf8 (scope r) && opt_utf8 (dev_shell r) = true;
  part_packages : good_packages (packages r);
  part_variables : utf8_map (variables r);
  part_sessions : forallb utf8 (sessions r) = true;
  part_skipped : forallb (λ s, utf8 (sk_name s) && utf8 (sk_reason s)) (skipped r) = true }.
Lemma proper_iff r : proper r = true ↔ proper_parts r.
Proof.
  unfold proper, utf8_record. rewrite !andb_true_iff, N.eqb_eq, utf8_entries. split.
  - intros [[[? ?] ?] [[[[[[[[[? ?] ?] ?] ?] ?] ?] ?] ?] ?]]. split; try done; try (by split).
    by rewrite !andb_true_iff.
  - intros [? ? ? Ht [? ? ?] ? ? ?]. rewrite !andb_true_iff in Ht. tauto.
Qed.
Lemma forallb_snoc {A} (f : A → bool) l x : forallb f l = true → f x = true → forallb f (l ++ [x]) = true.
Proof. intros Hl Hx. rewrite forallb_app, Hl. simpl. by rewrite Hx. Qed.
Lemma utf8_add_name n l : utf8 n = true → forallb utf8 l = true → forallb utf8 (add_name n l) = true.
Proof. intros Hn Hl. unfold add_name. case_bool_decide; [done|]. by apply forallb_snoc. Qed.
Lemma utf8_without n l : forallb utf8 l = true → forallb utf8 (without n l) = true.
Proof. apply forallb_sub. intros x Hx%elem_of_without. tauto. Qed.
Create HintDb proper discriminated.
#[export] Hint Resolve utf8_add_name utf8_without : proper.
Lemma good_relisted c p : match c with Approve n | Deny n | Auto n => utf8 n = true | Variables _ => True end →
  good_packages p → good_packages (relisted c p).
Proof.
  intros Hn [Ha Hd Ho]. destruct c as [n|n|n|]; simpl; [..|done];
    unfold approve_change, deny_change, auto_change; try case_bool_decide; split; simpl; auto with proper.
Qed.
Lemma utf8_set_variables l m : forallb (λ kv, utf8 kv.1 && utf8 kv.2) l = true → utf8_map m →
  utf8_map (foldl set_variable m l).
Proof.
  revert m. induction l as [|[k v] l IH]; intros m Hl Hm; [done|]. cbn [forallb fst snd] in Hl.
  apply andb_true_iff in Hl as [Hkv Hl]. simpl. apply IH; [done|]. unfold set_variable. simpl.
  destruct (string_eqb v ""); [by apply map_Forall_delete|by apply map_Forall_insert_2].
Qed.

Section text.
Context `{RecordText}.
Definition proper_change (c : Change) : Prop :=
  match c with Approve n | Deny n | Auto n => utf8 n = true | Variables m => utf8_map m end.
Lemma changed_proper c r : proper_change c → proper_parts r → proper_parts (changed c r).
Proof.
  intros Hc [? ? ? ? Hp Hv ? ?]. pose proof (good_relisted c (packages r)) as Hg.
  destruct c as [n|n|n|m]; split; simpl; try done; try by apply Hg.
  apply utf8_set_variables; [by apply utf8_entries|done].
Qed.
(** A change that is refused leaves the record as it was. *)
Lemma update_keeps (P : Record_ → Prop) f r : P r → P (f r) → P (state_of (update f) r).
Proof. intros Hr Hf. destruct (update_cases f r) as [(_ & _ & ->)|[(_ & _ & -> & _)|(e & _ & _ & -> & _)]]; done. Qed.
Definition kept_id (f : Record_ → Record_) : Prop := ∀ r, id (f r) = id r.
Lemma changed_id c : kept_id (changed c).
Proof. intros r. by destruct c. Qed.
Lemma try_change_proper c r : proper_change c → proper_parts r → proper_parts (try_change (perform c) r).
Proof. intros Hc Hr. unfold try_change. rewrite perform_update. apply update_keeps; [done|by apply changed_proper]. Qed.
Lemma try_change_id c r : id (try_change (perform c) r) = id r.
Proof. unfold try_change. rewrite perform_update. apply (update_keeps (λ r', id r' = id r)); [done|apply changed_id]. Qed.

(** ** The record of a goblin *)
Record proper_goblin (a : Goblin) : Prop := {
  goblin_line : identifier (g_line a) = true;
  goblin_id : utf8 (g_id a) = true;
  goblin_texts : utf8 (g_name a) && utf8 (g_agent_name a) && opt_utf8 (g_scope a) && opt_utf8 (g_dev_shell a) = true;
  goblin_packages : forallb utf8 (g_packages a) = true;
  goblin_auto : forallb utf8 (g_auto_approve a) = true;
  goblin_skipped : forallb (λ s, utf8 (sk_name s) && utf8 (sk_reason s)) (g_skipped a) = true;
  goblin_variables : utf8_map (g_variables a);
  goblin_from r : g_recreated_from a = Some r → id r = g_line a ∧ proper_parts r }.
Lemma utf8_ran_as session r : utf8 session = true → forallb utf8 (sessions r) = true →
  forallb utf8 (sessions (ran_as session r)) = true.
Proof.
  intros Hs Hr. unfold ran_as, drain_excess. simpl.
  eapply (forallb_sub _ (if bool_decide (session ∈ sessions r) then sessions r else sessions r ++ [session])).
  - intros x [j Hj]%list_elem_of_lookup. rewrite lookup_drop in Hj. by eapply list_elem_of_lookup_2.
  - case_bool_decide; [done|by apply forallb_snoc].
Qed.
Lemma foldl_keeps {A} (P : Record_ → Prop) (f : Record_ → A → Record_) l r :
  (∀ r x, x ∈ l → P r → P (f r x)) → P r → P (foldl f r l).
Proof.
  revert r. induction l as [|x l IH]; intros r Hf Hr; [done|]. simpl. apply IH.
  - intros r' y Hy. apply Hf. by right.
  - apply Hf; [left|done].
Qed.
Lemma line_record_ok now a existing : is_u64 now = true → proper_goblin a →
  (∀ r, existing = Some r → id r = g_line a ∧ proper_parts r) →
  proper_parts (line_record now a existing) ∧ id (line_record now a existing) = g_line a.
Proof.
  intros Hnow Ha Hex. unfold line_record.
  set (base := match existing with Some r => r | None => _ end).
  assert (id base = g_line a ∧ good_packages (packages base) ∧ forallb utf8 (sessions base) = true ∧
    is_u64 (created base) = true) as (Hid & Hp & Hs & Hc).
  { assert (∀ r, id r = g_line a ∧ proper_parts r → id r = g_line a ∧ good_packages (packages r) ∧
      forallb utf8 (sessions r) = true ∧ is_u64 (created r) = true) as Hr.
    { intros r [? [? ? Hsz ? ? ? ? ?]]. unfold sized in Hsz. rewrite !andb_true_iff in Hsz. tauto. }
    unfold base. destruct existing as [r|]; [by apply Hr, Hex|].
    destruct (g_recreated_from a) as [r|] eqn:Hfrom; [by apply Hr, (goblin_from a Ha)|]. done. }
  apply (foldl_keeps (λ r, proper_parts r ∧ id r = g_line a)).
  { intros r n Hn [Hr Hi]. split.
    - apply (try_change_proper (Auto n)); [|done]. by eapply forallb_elem, Hn; apply Ha.
    - by rewrite (try_change_id (Auto n)). }
  apply (foldl_keeps (λ r, proper_parts r ∧ id r = g_line a)).
  { intros r n Hn [Hr Hi]. split.
    - apply (try_change_proper (Approve n)); [|done]. by eapply forallb_elem, Hn; apply Ha.
    - by rewrite (try_change_id (Approve n)). }
  split; [|done]. destruct Ha. split; simpl; try done.
  - by rewrite Hid.
  - unfold sized. simpl. by rewrite Hc, Hnow.
  - by apply utf8_ran_as.
Qed.

(** ** The store stays sane *)
Context `{!RecordTextLaws}.
Set Default Proof Using "Type*".
Record sane (s : Store) : Prop := {
  sane_keyed : keyed (records s);
  sane_proper i r : records s !! i = Some r → proper_parts r;
  sane_deleting i : i ∈ deleting s → is_Some (records s !! i) }.
Lemma sane_write r s : proper_parts r → sane s → sane (store_write r s).
Proof.
  intros Hr [Hk Hp Hd]. unfold store_write. destruct (fit r) as [b r'] eqn:Hf. destruct b; [|by split]. simpl.
  apply proper_iff in Hr. destruct (fit_storable r r' Hr Hf) as [[Hr' _]%storable_proper _]. apply proper_iff in Hr'.
  split; simpl.
  - intros i x [[<- <-]|[_ ?]]%lookup_insert_Some; [done|by apply Hk].
  - intros i x [[_ <-]|[_ ?]]%lookup_insert_Some; [done|by eapply Hp].
  - intros i Hi. destruct (decide (i = id r')) as [->|]; [rewrite lookup_insert_eq; by eexists|].
    rewrite lookup_insert_ne by done. by apply Hd.
Qed.
Lemma sane_delete ids t s : (∀ i, i ∈ ids → is_Some (records s !! i)) → sane s → sane (store_delete ids t s).
Proof.
  intros Hi [Hk Hp Hd]. split; simpl; [done..|]. intros i. rewrite elem_of_union, elem_of_list_to_set. intros []; auto.
Qed.
Lemma sane_merge r sources s : proper_parts r → (∀ i, i ∈ sources → is_Some (records s !! i)) →
  sane s → sane (store_merge r sources s).
Proof.
  intros Hr Hi Hs. pose proof (sane_write r s Hr Hs) as Hw. unfold store_write, store_merge in *.
  destruct (fit r) as [[] r']; [|done]. simpl in *. destruct Hw as [Hk Hp Hd]. simpl in *. split; simpl; [done..|].
  intros i. rewrite elem_of_union, elem_of_list_to_set. intros [|Hin]; [by apply Hd|].
  destruct (decide (i = id r')) as [->|]; [rewrite lookup_insert_eq; by eexists|].
  rewrite lookup_insert_ne by done. by apply Hi.
Qed.
Lemma sane_poll T s : sane s → tracked T s → sane (poll s).2.
Proof.
  intros [Hk Hp Hd] Ht. unfold poll. simpl.
  destruct (settle_all (results s) (mkStore (records s) (deleting s) (queue s) [] (directory s) (unsynced s))
    (tracked_results T s Ht)) as (Hrec & Hdel & _). simpl in *.
  split.
  - intros i r. rewrite Hrec. case_decide; [done|]. apply Hk.
  - intros i r. rewrite Hrec. case_decide; [done|]. apply Hp.
  - intros i. rewrite Hdel, Hrec. intros [Hi Hni]. rewrite decide_False by done. by apply Hd.
Qed.
Lemma deleting_write r s : deleting (store_write r s) = deleting s.
Proof. unfold store_write. by destruct (fit r) as [[] r']. Qed.
Lemma records_write r s i : proper_parts r → i ≠ id r → records (store_write r s) !! i = records s !! i.
Proof.
  intros Hr Hi. unfold store_write. destruct (fit r) as [b r'] eqn:Hf. destruct b; [|done]. simpl.
  apply proper_iff in Hr. destruct (fit_storable r r' Hr Hf) as [_ Hid]. rewrite lookup_insert_ne by congruence. done.
Qed.

(** What a prune or the retention picks. *)
Lemma select_sound p m running now : keyed m →
  NoDup (select p m running now) ∧ ∀ i, i ∈ select p m running now → i ∉ running ∧ is_Some (m !! i).
Proof.
  intros Hm. unfold select. destruct (is_empty p).
  { split; [constructor|]. by intros i ?%not_elem_of_nil. }
  split.
  - rewrite merge_sort_Permutation. apply (NoDup_fmap_2_strong id); [|by apply NoDup_filter, NoDup_values].
    intros a b [_ Ha]%list_elem_of_filter [_ Hb]%list_elem_of_filter. by apply (keyed_id_inj m).
  - intros i (r & -> & Hr)%list_elem_of_fmap. rewrite merge_sort_Permutation, list_elem_of_filter, keyed_values in Hr by done.
    destruct Hr as [Hr Hin]. split; [|by eexists]. unfold matches in Hr. rewrite !andb_true_iff, negb_true_iff in Hr.
    destruct Hr as [[[Hr _] _] _]. by apply bool_decide_eq_false in Hr.
Qed.
Lemma retained_sound keep running s : keyed (records s) →
  NoDup (retained keep running s) ∧
  ∀ i, i ∈ retained keep running s → i ∉ running ∧ i ∉ deleting s ∧ is_Some (records s !! i).
Proof.
  intros Hk. unfold retained. set (l := merge_sort older (idle s running)).
  assert (∀ r, r ∈ l → id r ∉ running ∧ id r ∉ deleting s ∧ records s !! id r = Some r) as Hl.
  { intros r. unfold l, idle. rewrite merge_sort_Permutation, list_elem_of_filter, keyed_values by done. tauto. }
  assert (∀ r n, r ∈ take n l → r ∈ l) as Htake.
  { intros r n (j & Hj & _)%elem_of_take. by eapply list_elem_of_lookup_2. }
  split.
  - apply (NoDup_fmap_2_strong id).
    + intros a b Ha%Htake%Hl Hb%Htake%Hl Hid. destruct Ha as (_ & _ & Ha), Hb as (_ & _ & Hb). congruence.
    + apply (sublist_NoDup _ l), sublist_take. unfold l. rewrite merge_sort_Permutation. by apply NoDup_filter, NoDup_values.
  - intros i (r & -> & Hr%Htake%Hl)%list_elem_of_fmap. naive_solver.
Qed.

(** A store of the controller, but for the records in [T], and what the lines
    in [L] rely on. *)
Section excepted.
Variable T : gset string.
Definition fine (L : string → Prop) (s : Store) : Prop := tracked T s ∧ sane s ∧ ∀ i, L i → i ∉ deleting s.
Lemma fine_write L r s : proper_parts r → id r ∉ deleting s → fine L s → fine L (store_write r s).
Proof.
  intros Hr Hi (Ht & Hs & Hl). split_and!.
  - apply (tracked_weaken (T ∪ ({[id r]} ∩ deleting s))); [set_solver|]. by apply tracked_write; [apply proper_iff|].
  - by apply sane_write.
  - intros i Hli. rewrite deleting_write. by apply Hl.
Qed.
Lemma fine_delete L ids t s : (∀ i, i ∈ ids → i ∉ deleting s ∧ is_Some (records s !! i) ∧ ¬ L i) →
  fine L s → fine L (store_delete ids t s).
Proof.
  intros Hids (Ht & Hs & Hl). split_and!.
  - apply (tracked_weaken (T ∪ (list_to_set ids ∩ deleting s))); [|by apply tracked_delete].
    intros i. rewrite elem_of_union, elem_of_intersection, elem_of_list_to_set. intros [?|[Hi ?]]; [done|].
    by destruct (Hids i Hi).
  - apply sane_delete; [intros i Hi; by apply Hids|done].
  - intros i Hli. simpl. rewrite elem_of_union, elem_of_list_to_set. intros [Hd|Hi]; [by apply (Hl i)|].
    by apply (Hids i Hi).
Qed.
Lemma fine_retain (L : string → Prop) keep running s : (∀ i, L i → i ∈ running) → fine L s → fine L (retain keep running s).2.
Proof.
  intros Hrun Hf. unfold retain. simpl. case_bool_decide; [done|].
  destruct (retained_sound keep running s) as [_ Hin]; [by apply Hf|].
  apply fine_delete; [|done]. intros i Hi. destruct (Hin i Hi) as (Hr & Hd & Hs).
  split_and!; [done..|]. intros Hl. by apply Hr, Hrun.
Qed.
Lemma fine_merge (L : string → Prop) r sources s : proper_parts r → id r ∉ deleting s →
  (∀ i, i ∈ sources → i ∉ deleting s ∧ is_Some (records s !! i) ∧ ¬ L i) →
  fine L s → fine L (store_merge r sources s).
Proof.
  intros Hr Hd Hids (Ht & Hs & Hl). split_and!.
  - eapply tracked_weaken; [|by apply tracked_merge; [apply proper_iff|]].
    intros i. rewrite elem_of_union, elem_of_intersection, elem_of_union, elem_of_singleton, elem_of_list_to_set.
    intros [?|[[->|Hi] ?]]; [done..|]. by destruct (Hids i Hi).
  - apply sane_merge; [done|intros i Hi; by apply Hids|done].
  - intros i Hli. unfold store_merge. destruct (fit r) as [[] r']; simpl; [|by apply Hl].
    rewrite elem_of_union, elem_of_list_to_set. intros [Hd'|Hi]; [by apply (Hl i)|]. by apply (Hids i Hi).
Qed.
Lemma fine_poll L s : fine L s → fine L (poll s).2.
Proof.
  intros (Ht & Hs & Hl). split_and!; [by apply tracked_poll|by apply (sane_poll T)|].
  intros i Hli Hi. unfold poll in Hi. simpl in Hi.
  destruct (settle_all (results s) (mkStore (records s) (deleting s) (queue s) [] (directory s) (unsynced s))
    (tracked_results T s Ht)) as (_ & Hdel & _). simpl in Hdel. apply Hdel in Hi as [Hi _]. by apply (Hl i).
Qed.
Lemma fine_writer L n k s : (costs (take n (queue s)) <= k)%nat → fine L s → fine L (writer n (replicate k Done) s).2.
Proof.
  intros Hk (Ht & Hs & Hl). split_and!; [by apply tracked_writer|..];
    destruct (writer_spec T n k s Ht Hk) as (d & p & -> & _); simpl; [|done].
  by destruct Hs.
Qed.
Lemma fine_weaken (L L' : string → Prop) s : (∀ i, L' i → L i) → fine L s → fine L' s.
Proof. intros HL (? & ? & Hl). split_and!; [done..|]. intros i Hi. by apply Hl, HL. Qed.

(** ** The keeper *)
Definition live_line (m : gmap string Goblin) (i : string) : Prop :=
  ∃ x a, m !! x = Some a ∧ g_live a = true ∧ g_line a = i.
Lemma elem_of_live_lines m i : i ∈ live_lines m ↔ live_line m i.
Proof.
  unfold live_lines, live_line. rewrite elem_of_list_to_set, list_elem_of_fmap.
  setoid_rewrite list_elem_of_filter. setoid_rewrite elem_of_values. naive_solver.
Qed.
(** Every goblin's texts are texts, two live goblins never run one record, and
    the record of a live goblin is not being deleted. *)
Record well_kept (k : Keeper) : Prop := {
  kept_goblins x a : sessions_ k !! x = Some a → proper_goblin a;
  kept_lines x y a b : sessions_ k !! x = Some a → sessions_ k !! y = Some b →
    g_live a = true → g_live b = true → g_line a = g_line b → x = y;
  kept_store s : history k = inl s → fine (live_line (sessions_ k)) s }.
Lemma well_kept_store k s s' : well_kept k → history k = inl s → fine (live_line (sessions_ k)) s' →
  well_kept (set_history s' k).
Proof. intros [Hg Hl Hs] Hk Hf. split; simpl; [done..|]. by intros ? [= <-]. Qed.
(** A goblin changes without changing its line. *)
Lemma well_kept_goblin k x a a' : well_kept k → sessions_ k !! x = Some a → proper_goblin a' →
  g_line a' = g_line a → (g_live a' = true → g_live a = true) →
  well_kept (set_goblins (<[x := a']> (sessions_ k)) k).
Proof.
  intros [Hg Hl Hs] Ha Hp Hline Hlive. split; simpl.
  - intros y b [[_ <-]|[_ ?]]%lookup_insert_Some; [done|by eapply Hg].
  - intros y z b c [[<- <-]|[? Hb]]%lookup_insert_Some [[<- <-]|[? Hc]]%lookup_insert_Some Hlb Hlc He; try done;
      rewrite ?Hline in He; eapply Hl; eauto.
  - intros s Hk. eapply fine_weaken; [|by apply Hs].
    intros i (y & b & [[<- <-]|[_ Hb]]%lookup_insert_Some & Hlb & Hi); [exists x, a|exists y, b]; rewrite <- ?Hline; auto.
Qed.
Lemma well_kept_update now line change k : well_kept k → is_u64 now = true →
  (∀ s, history k = inl s → line ∉ deleting s) →
  (∀ r, proper_parts r → proper_parts (state_of change r) ∧ id (state_of change r) = id r) →
  well_kept (update_record now line change k).2.
Proof.
  intros Hk Hnow Hline Hch. unfold update_record. destruct (history k) as [s|reason] eqn:Hs; [|done].
  destruct (records s !! line) as [r|] eqn:Hr; [|done]. case_bool_decide; [done|].
  pose proof (kept_store k Hk s Hs) as Hf. destruct Hf as (Ht & Hsane & Hl).
  destruct (Hch r) as [Hp Hid]; [by eapply sane_proper|]. unfold state_of in *.
  destruct (change r) as [[[]|e|] r']; try done. simpl in *.
  apply (well_kept_store k s); [done..|]. apply fine_write; [|simpl|done].
  - destruct Hp as [? ? Hsz ? ? ? ? ?]. split; try done. unfold sized in *. simpl.
    rewrite !andb_true_iff in *. tauto.
  - rewrite Hid, (sane_keyed s Hsane _ _ Hr). by apply Hline.
Qed.

Lemma set_state_proper state live a : proper_goblin a → proper_goblin (set_state state live a).
Proof. intros [? ? ? ? ? ? ? ?]. by split. Qed.
Lemma existing_ok k s a : well_kept k → history k = inl s → ∀ r, records s !! g_line a = Some r →
  id r = g_line a ∧ proper_parts r.
Proof.
  intros Hk Hs r Hr. destruct (kept_store k Hk s Hs) as (_ & Hsane & _).
  split; [by apply (sane_keyed s Hsane)|by eapply sane_proper].
Qed.
Lemma well_kept_line k s x a : well_kept k → history k = inl s → sessions_ k !! x = Some a → g_live a = true →
  g_line a ∉ deleting s.
Proof. intros Hk Hs Ha Hl. apply (kept_store k Hk s Hs). by exists x, a. Qed.
Lemma well_kept_started now x a k : well_kept k → is_u64 now = true → sessions_ k !! x = Some a → g_live a = true →
  let a' := set_state "running" true a in
  well_kept (set_goblins (<[x := a']> (sessions_ k)) (record_started now a' (set_goblins (delete x (sessions_ k)) k))).
Proof.
  intros Hk Hnow Ha Hlive a'. assert (proper_goblin a') as Ha' by (by apply set_state_proper, (kept_goblins k Hk x)).
  pose proof (well_kept_goblin k x a a' Hk Ha Ha' eq_refl (λ _, Hlive)) as Hk'.
  unfold record_started. cbn [workspace set_goblins history sessions_ keep_sessions].
  destruct (workspace k); [done|]. destruct (history k) as [s|reason] eqn:Hs; [|done].
  match goal with |- well_kept (set_goblins ?m (set_history ?s' _)) =>
    change (well_kept (set_history s' (set_goblins m k))) end.
  apply (well_kept_store _ s); [done..|]. cbn [sessions_ set_goblins].
  destruct (line_record_ok now a' (records s !! g_line a') Hnow Ha') as [Hr Hid]; [by eapply existing_ok|].
  apply fine_retain.
  - intros i (y & b & Hb & Hlb & <-). rewrite elem_of_union, elem_of_singleton, elem_of_live_lines.
    apply lookup_insert_Some in Hb as [[_ <-]|[Hne Hb]]; [by left|right].
    exists y, b. by rewrite lookup_delete_ne.
  - apply fine_write; [done| |by apply Hk'].
    rewrite Hid. by apply (well_kept_line k s x a).
Qed.
Lemma fine_record_one (m : gmap string Goblin) x a now s : m !! x = Some a → proper_goblin a → is_u64 now = true →
  fine (live_line m) s → fine (live_line m) (record_one s (now, a)).
Proof.
  intros Hm Ha Hnow Hf. unfold record_one. cbn [fst snd]. destruct (unrecorded a s) eqn:Hu; [|done].
  unfold unrecorded in Hu. rewrite !andb_true_iff in Hu. destruct Hu as [[_ Hlive] _].
  destruct (line_record_ok now a (records s !! g_line a) Hnow Ha) as [Hr Hid].
  { intros r Hr. destruct Hf as (_ & Hs & _). split; [by apply (sane_keyed s Hs)|by eapply sane_proper]. }
  apply fine_write; [done| |done]. rewrite Hid. apply Hf. by exists x, a.
Qed.
Lemma well_kept_running nows k : well_kept k → (∀ x, is_u64 (nows x) = true) → well_kept (record_running nows k).
Proof.
  intros Hk Hnow. unfold record_running. destruct (workspace k); [done|]. destruct (history k) as [s|reason] eqn:Hs; [|done].
  apply (well_kept_store _ s); [done..|]. apply fine_retain; [intros i; apply elem_of_live_lines|].
  assert (∀ x a, (x, a) ∈ entries (sessions_ k) → sessions_ k !! x = Some a) as Hin by (intros; by apply elem_of_entries).
  revert Hin. pose proof (kept_store k Hk s Hs) as Hf. clear Hs. revert s Hf.
  induction (entries (sessions_ k)) as [|[x a] l IH]; intros s Hf Hin; [done|]. csimpl. apply IH.
  - apply (fine_record_one _ x); [apply Hin; left|apply (kept_goblins k Hk x), Hin; left|done..].
  - intros y b Hb. apply Hin. by right.
Qed.
Lemma well_kept_open dir d keep k reason : well_kept k → history k = inr reason →
  (∀ i r, load (content <$> dir) !! i = Some r → proper_parts r ∧ id r = i) →
  well_kept (open_history (opened dir) d keep k).
Proof.
  intros [Hg Hl _] _ Hload. split; simpl; [done..|].
  intros s [= <-]. split_and!; [eapply tracked_weaken, tracked_opened; set_solver| |set_solver].
  split; simpl; [intros i r Hr; by apply Hload|intros i r Hr; by apply (Hload i)|set_solver].
Qed.
Lemma well_kept_take_over nows dir d k reason : well_kept k → history k = inr reason → (∀ x, is_u64 (nows x) = true) →
  (∀ i r, load (content <$> dir) !! i = Some r → proper_parts r ∧ id r = i) →
  well_kept (take_over nows (opened dir) d k).
Proof. intros Hk Hh Hnow Hload. apply well_kept_running; [|done]. by apply (well_kept_open _ _ (keep_sessions k) k reason). Qed.

(** ** Merging a conversation *)
Lemma absorb_ok merged other : proper_parts merged → proper_parts other →
  proper_parts (absorb merged other) ∧ id (absorb merged other) = id merged.
Proof.
  intros Hm Ho. unfold absorb.
  set (m := set_sessions _ merged).
  assert (proper_parts m ∧ id m = id merged) as Hm0.
  { split; [|done]. destruct Hm as [? ? ? ? ? ? Hs ?]. split; try done. simpl.
    eapply (forallb_sub _ (sessions other ++ sessions merged)); [|rewrite forallb_app, Hs, (part_sessions other Ho); done].
    unfold drain_excess. intros x [j Hj]%list_elem_of_lookup. rewrite lookup_drop in Hj.
    apply list_elem_of_lookup_2 in Hj. rewrite elem_of_app, list_elem_of_filter in Hj. rewrite elem_of_app. tauto. }
  assert (proper_parts (absorb_packages other m) ∧ id (absorb_packages other m) = id merged) as [Hp Hid].
  { unfold absorb_packages. apply (foldl_keeps (λ r, proper_parts r ∧ id r = id merged)).
    { intros r n Hn [Hr Hi]. case_bool_decide; [done|]. split; [|by rewrite (try_change_id (Auto n))].
      apply (try_change_proper (Auto n)); [|done]. eapply forallb_elem, Hn. apply Ho. }
    apply (foldl_keeps (λ r, proper_parts r ∧ id r = id merged)); [|done].
    intros r n Hn [Hr Hi]. case_bool_decide; [done|]. split; [|by rewrite (try_change_id (Approve n))].
    apply (try_change_proper (Approve n)); [|done]. eapply forallb_elem, Hn. apply Ho. }
  split; [|done]. pose proof (part_sized other Ho) as Hso. destruct Hp as [? ? Hsz ? ? ? ? ?]. split; try done.
  unfold sized, is_u64 in *. simpl. rewrite !andb_true_iff in *.
  destruct Hsz as [[Hc Hu] Hst], Hso as [[Hc' _] _]. split_and!; [|done|done].
  apply N.ltb_lt in Hc, Hc'. apply N.ltb_lt. lia.
Qed.
Lemma elem_of_others line c live s r : r ∈ others line c live s ↔
  (∃ i, records s !! i = Some r) ∧ id r ≠ line ∧ conversation r = Some c ∧ id r ∉ live ∧ id r ∉ deleting s.
Proof.
  unfold others, same_conversation, string_eqb, opt_string_eqb.
  rewrite merge_sort_Permutation, list_elem_of_filter, elem_of_values.
  rewrite !andb_true_iff, !negb_true_iff, !bool_decide_eq_false, bool_decide_eq_true. tauto.
Qed.
Lemma well_kept_merge now line k : well_kept k → is_u64 now = true →
  (∀ s, history k = inl s → line ∉ deleting s) → well_kept (merge_conversation now line k).
Proof.
  intros Hk Hnow Hline. unfold merge_conversation. destruct (history k) as [s|reason] eqn:Hs; [|done].
  destruct (records s !! line) as [r|] eqn:Hr; [|done]. destruct (conversation r) as [c|]; [|done].
  case_bool_decide; [done|]. set (l := others _ _ _ _).
  pose proof (kept_store k Hk s Hs) as Hf. destruct Hf as (Ht & Hsane & Hl).
  assert (∀ o, o ∈ l → records s !! id o = Some o ∧ id o ≠ line ∧ id o ∉ live_lines (sessions_ k) ∧ id o ∉ deleting s) as Hin.
  { intros o ([i Hi] & ? & _ & ? & ?)%elem_of_others. pose proof (sane_keyed s Hsane _ _ Hi). split_and!; congruence. }
  assert (proper_parts (foldl absorb r l) ∧ id (foldl absorb r l) = line) as [Hp Hid].
  { apply (foldl_keeps (λ m, proper_parts m ∧ id m = line)).
    - intros m o Ho [Hm Hi]. destruct (absorb_ok m o Hm) as [? ->]; [|by split].
      by eapply sane_proper, (proj1 (Hin o Ho)).
    - split; [by eapply sane_proper|by apply (sane_keyed s Hsane)]. }
  apply (well_kept_store k s); [done..|]. apply fine_merge.
  - destruct Hp as [? ? Hsz ? ? ? ? ?]. split; try done. unfold sized in *. simpl. rewrite !andb_true_iff in *. tauto.
  - simpl. rewrite Hid. by apply Hline.
  - intros i (o & -> & (Ho & _ & Hlive & Hd)%Hin)%list_elem_of_fmap. split_and!; [done|by eexists|].
    by rewrite <- elem_of_live_lines.
  - done.
Qed.

(** ** The other handlers *)
Lemma update_record_sessions now line change k : sessions_ (update_record now line change k).2 = sessions_ k ∧
  ∀ s', history (update_record now line change k).2 = inl s' → ∃ s, history k = inl s ∧ deleting s' = deleting s.
Proof.
  unfold update_record. destruct (history k) as [s|reason] eqn:Hs.
  2:{ split; [done|]. simpl. intros s' Hs'. congruence. }
  assert (∀ s', history k = inl s' → ∃ s0, inl s = (inl s0 : Store + string) ∧ deleting s' = deleting s0) as Hsame.
  { intros s' Hs'. exists s. split; [done|congruence]. }
  destruct (records s !! line) as [r|]; [|done]. case_bool_decide; [done|].
  destruct (change r) as [[[]|e|] r']; simpl; (split; [done|]); try done.
  intros s' [= <-]. exists s. by rewrite deleting_write.
Qed.
Lemma variables_proper m r : utf8_map m → proper_parts r →
  proper_parts (state_of (set_variables m) r) ∧ id (state_of (set_variables m) r) = id r.
Proof. intros Hm Hr. split; [by apply (try_change_proper (Variables m))|by apply (try_change_id (Variables m))]. Qed.
Lemma well_kept_set_variables now now' now'' x changes k : well_kept k →
  is_u64 now = true → is_u64 now' = true → is_u64 now'' = true → utf8_map changes →
  well_kept (session_set_variables now now' now'' x changes k).2.
Proof.
  intros Hk Hn Hn' Hn'' Hc. unfold session_set_variables. destruct (sessions_ k !! x) as [a|] eqn:Ha; [|done].
  destruct (g_live a) eqn:Hlive; [|by rewrite orb_true_r]. rewrite orb_false_r.
  destruct (negb _); [done|]. pose proof (kept_goblins k Hk x a Ha) as Hga.
  set (existing := match history k with inl s => records s !! g_line a | inr _ => None end).
  destruct (line_record_ok now a existing Hn Hga) as [Hr Hid].
  { intros r. unfold existing. destruct (history k) as [s|] eqn:Hs; [|done]. by eapply existing_ok. }
  destruct (variables_proper changes _ Hc Hr) as [Hp _]. unfold state_of in Hp.
  destruct (set_variables changes (line_record now a existing)) as [[b|e|] scratch]; [|done..]. simpl in Hp.
  assert (well_kept (update_record now' (g_line a) (set_variables changes) k).2) as Hku.
  { apply well_kept_update; [done..| |intros r; by apply variables_proper]. intros s Hs. by apply (well_kept_line k s x a). }
  destruct (update_record_sessions now' (g_line a) (set_variables changes) k) as [Hses Hdel].
  destruct (update_record now' (g_line a) (set_variables changes) k) as [[b'|e|] k']; [|done..]. simpl in *.
  assert (well_kept (set_goblins (<[x := with_goblin_variables (variables scratch) (foldl refresh (g_fresh a) (entries changes)) a]>
    (sessions_ k')) k')) as Hkv.
  { apply (well_kept_goblin k' x a); [done|by rewrite Hses| |done..].
    destruct Hga. split; try done. simpl. apply (part_variables scratch Hp). }
  case_match; [|done]. apply well_kept_merge; [done..|]. simpl. intros s' Hs'.
  destruct (Hdel s' Hs') as (s & Hs & ->). by apply (well_kept_line k s x a).
Qed.
Lemma well_kept_connections l k : well_kept k → well_kept (set_connections l k).
Proof. intros [? ? ?]. by split. Qed.
Lemma well_kept_serial n k : well_kept k → well_kept (set_serial n k).
Proof. intros [? ? ?]. by split. Qed.
Lemma well_kept_prune now at_ rpc_id p k : well_kept k → well_kept (history_prune now at_ rpc_id p k).2.
Proof.
  intros Hk. unfold history_prune. destruct (is_empty p); [done|]. destruct (u64_checked_add _ _) as [n|]; [|done].
  cbn [history set_serial sessions_]. destruct (history k) as [s|reason] eqn:Hs; [|by apply well_kept_serial].
  case_match; [by apply well_kept_serial|]. cbn [snd]. apply well_kept_connections.
  pose proof (kept_store k Hk s Hs) as Hf. pose proof Hf as (_ & Hsane & _).
  destruct (select_sound p (records s) (live_lines (sessions_ k) ∪ deleting s) now) as [_ Hin]; [apply Hsane|].
  apply (well_kept_store _ s); [by apply well_kept_serial|done|]. apply fine_delete; [|done].
  intros i (Hi & Hr)%Hin. rewrite elem_of_union, elem_of_live_lines in Hi. tauto.
Qed.
Lemma well_kept_poll k : well_kept k → well_kept (poll_deletes k).
Proof.
  intros Hk. unfold poll_deletes. destruct (history k) as [s|reason] eqn:Hs; [|done].
  pose proof (fine_poll _ s (kept_store k Hk s Hs)) as Hf. destruct (poll s) as [ds s']. simpl in Hf.
  apply well_kept_connections. by apply (well_kept_store k s).
Qed.
Lemma new_id_free n random taken i : new_id n random taken = Ok i → taken i = false.
Proof.
  revert random. induction n as [|n IH]; intros random; simpl; [done|]. destruct random as [|b random]; [done|].
  destruct (taken (text (id_char <$> b))) eqn:Ht; simpl; [apply IH|]. by intros [= <-].
Qed.
Lemma recreate_free r k x a : recreate_conflict r k = None → sessions_ k !! x = Some a → g_live a = true →
  g_line a ≠ id r.
Proof.
  unfold recreate_conflict. intros Hc Ha Hl He. destruct (List.find _ _) eqn:Hf; [done|].
  pose proof (find_none _ _ Hf a) as Hn. unfold string_eqb in Hn. rewrite bool_decide_true in Hn by done.
  enough (true = false) by done. apply Hn. apply list_elem_of_In, list_elem_of_filter. split; [done|]. apply elem_of_values. eauto.
Qed.
(** What a launch checks of the line it takes. *)
Definition free_line (k : Keeper) (i : string) : Prop :=
  (∀ x a, sessions_ k !! x = Some a → g_live a = true → g_line a ≠ i) ∧
  ∀ s, history k = inl s → i ∉ deleting s.
Lemma new_line_free random k i : well_kept k → launch_line random None k = Ok i → free_line k i.
Proof.
  intros Hk Hi%new_id_free. unfold line_taken in Hi. apply orb_false_iff in Hi as [Hr Hl]. split.
  - intros x a Ha _ He. assert (existsb (λ a, string_eqb (g_line a) i) (values (sessions_ k)) = true) as Hx; [|congruence].
    apply existsb_exists. exists a. split; [apply list_elem_of_In, elem_of_values; eauto|]. unfold string_eqb.
    by rewrite bool_decide_true.
  - intros s Hs Hd. rewrite Hs in Hr. apply bool_decide_eq_false in Hr. apply Hr.
    by apply (kept_store k Hk s Hs).
Qed.
Lemma recreated_line_free is_dir display name_free target p p' r k :
  prepare_recreate is_dir display name_free target p k = Ok p' → st_recorded p' = Some r → free_line k (id r).
Proof.
  unfold prepare_recreate. case_match; [done|]. destruct (workspace k); [done|].
  destruct (history k) as [s|reason] eqn:Hs; [|done]. destruct (resolve target s) as [r'|e|]; [|done..].
  case_bool_decide as Hd; [done|]. destruct (match cwd r' with Some _ => _ | None => _ end); [done|].
  destruct (MAX_NAMES <? _)%N; [done|].
  destruct (recreate_conflict r' k) eqn:Hc; [done|]. intros [= <-]. simpl. intros [= <-]. split.
  - intros x a Ha Hl. by eapply recreate_free.
  - rewrite Hs. by intros ? [= <-].
Qed.
Lemma well_kept_launch x a k : well_kept k → sessions_ k !! x = None → proper_goblin a → free_line k (g_line a) →
  well_kept (set_goblins (<[x := a]> (sessions_ k)) k).
Proof.
  intros [Hg Hl Hs] Hx Ha [Hfree Hd]. split; simpl.
  - intros y b [[_ <-]|[_ ?]]%lookup_insert_Some; [done|by eapply Hg].
  - intros y z b c [[<- <-]|[? Hb]]%lookup_insert_Some [[<- <-]|[? Hc]]%lookup_insert_Some Hlb Hlc He; try done;
      [by destruct (Hfree z c Hc Hlc)|by destruct (Hfree y b Hb Hlb)|by eapply Hl].
  - intros s Hk. destruct (Hs s Hk) as (? & ? & Hli). split_and!; [done..|].
    intros i (y & b & [[_ <-]|[_ Hb]]%lookup_insert_Some & Hlb & <-); [by apply Hd|]. apply Hli. by exists y, b.
Qed.
End excepted.

(** ** The controller, its store and the writer *)
(** The records being deleted. *)
Definition going (k : Keeper) : gset string := match history k with inl s => deleting s | inr _ => ∅ end.
(** A step of the controller, of its store or of the writer thread whose calls
    succeed, with the records whose goblin's end was recorded while they were
    being deleted. *)
Inductive keeper_step : Keeper * gset string → Keeper * gset string → Prop :=
  | step_launch x a random k T : sessions_ k !! x = None → proper_goblin a → g_recreated_from a = None →
      launch_line random None k = Ok (g_line a) →
      keeper_step (k, T) (set_goblins (<[x := a]> (sessions_ k)) k, T)
  | step_recreate x a is_dir display name_free target p p' r k T : sessions_ k !! x = None → proper_goblin a →
      prepare_recreate is_dir display name_free target p k = Ok p' → st_recorded p' = Some r →
      g_recreated_from a = Some r → launch_line [] (Some r) k = Ok (g_line a) →
      keeper_step (k, T) (set_goblins (<[x := a]> (sessions_ k)) k, T)
  | step_running now x a k T : is_u64 now = true → sessions_ k !! x = Some a → g_live a = true →
      let a' := set_state "running" true a in
      keeper_step (k, T) (set_goblins (<[x := a']> (sessions_ k))
                            (record_started now a' (set_goblins (delete x (sessions_ k)) k)), T)
  | step_granted now x a kind package k T : is_u64 now = true → sessions_ k !! x = Some a → g_live a = true →
      utf8 package = true → keeper_step (k, T) ((update_record now (g_line a) (grant_change kind package) k).2, T)
  | step_denied now x a package k T : is_u64 now = true → sessions_ k !! x = Some a → g_live a = true →
      utf8 package = true → keeper_step (k, T) ((update_record now (g_line a) (deny package) k).2, T)
  | step_variables now now' now'' x changes k T : is_u64 now = true → is_u64 now' = true → is_u64 now'' = true →
      utf8_map changes → keeper_step (k, T) ((session_set_variables now now' now'' x changes k).2, T)
  | step_released x a state k T : sessions_ k !! x = Some a →
      keeper_step (k, T) (set_goblins (<[x := set_state state false a]> (sessions_ k)) k, T)
  | step_stopped now x a k T : is_u64 now = true → sessions_ k !! x = Some a →
      keeper_step (k, T) ((update_record now (g_line a) (stop_change x now) k).2, T ∪ ({[g_line a]} ∩ going k))
  | step_prune now at_ rpc_id p k T : keeper_step (k, T) ((history_prune now at_ rpc_id p k).2, T)
  | step_poll k T : keeper_step (k, T) (poll_deletes k, T)
  | step_writer n s k T : history k = inl s → keeper_step (k, T) (set_history (healthy_writer n s) k, T)
  | step_take_over nows dir d reason k T : history k = inr reason → (∀ x, is_u64 (nows x) = true) →
      (∀ i r, load (content <$> dir) !! i = Some r → proper_parts r ∧ id r = i) →
      keeper_step (k, T) (take_over nows (opened dir) d k, T)
  | step_open dir d keep reason k T : history k = inr reason →
      (∀ i r, load (content <$> dir) !! i = Some r → proper_parts r ∧ id r = i) →
      keeper_step (k, T) (open_history (opened dir) d keep k, T).
Lemma stop_change_proper session now r : is_u64 now = true → proper_parts r →
  proper_parts (state_of (stop_change session now) r) ∧ id (state_of (stop_change session now) r) = id r.
Proof.
  intros Hn Hr. unfold stop_change, state_of. destruct (string_eqb _ _); [|by split].
  split; [|by apply (update_keeps (λ r', id r' = id r))].
  apply (update_keeps proper_parts); [done|]. destruct Hr as [? ? Hs ? ? ? ? ?]. split; try done.
  unfold sized in *. simpl. rewrite Hn. rewrite !andb_true_iff in *. tauto.
Qed.
Lemma grant_change_proper kind package r : utf8 package = true → proper_parts r →
  proper_parts (state_of (grant_change kind package) r) ∧ id (state_of (grant_change kind package) r) = id r.
Proof.
  intros Hp Hr. unfold grant_change. destruct (string_eqb kind "docker").
  { split; [|by apply (update_keeps (λ r', id r' = id r))].
    apply (update_keeps proper_parts); [done|]. by destruct Hr. }
  destruct (string_eqb kind "package"); [|done].
  split; [by apply (try_change_proper (Approve package))|by apply (try_change_id (Approve package))].
Qed.
Lemma well_kept_weaken T T' k : T ⊆ T' → well_kept T k → well_kept T' k.
Proof.
  intros HT [? ? Hs]. split; [done..|]. intros s Hk. destruct (Hs s Hk) as (? & ? & ?).
  split_and!; [|done..]. by eapply tracked_weaken.
Qed.
(** The end of a goblin may be recorded while its record is being deleted. *)
Lemma well_kept_stopped T now x a k : is_u64 now = true → well_kept T k →
  well_kept (T ∪ ({[g_line a]} ∩ going k)) (update_record now (g_line a) (stop_change x now) k).2.
Proof.
  intros Hnow Hk. apply (well_kept_weaken _ (T ∪ ({[g_line a]} ∩ going k))) in Hk; [|set_solver].
  unfold update_record. destruct (history k) as [s|reason] eqn:Hs; [|done].
  destruct (records s !! g_line a) as [r|] eqn:Hr; [|done]. case_bool_decide; [done|].
  destruct (kept_store _ k Hk s Hs) as (Ht & Hsane & Hl).
  destruct (stop_change_proper x now r Hnow) as [Hp Hid]; [by eapply sane_proper|]. unfold state_of in *.
  destruct (stop_change x now r) as [[[]|e|] r']; try done. simpl in *.
  assert (proper_parts (set_times (created r') now r')) as Hp'.
  { destruct Hp as [? ? Hsz ? ? ? ? ?]. split; try done. unfold sized in *. simpl.
    rewrite !andb_true_iff in *. tauto. }
  apply (well_kept_store _ k s); [done..|]. split_and!.
  - eapply tracked_weaken; [|by apply tracked_write; [apply proper_iff|exact Ht]].
    simpl. rewrite Hid, (sane_keyed s Hsane _ _ Hr). unfold going. rewrite Hs. set_solver.
  - by apply sane_write.
  - intros i Hli. rewrite deleting_write. by apply Hl.
Qed.
Lemma well_kept_step k T k' T' : keeper_step (k, T) (k', T') → well_kept T k → well_kept T' k'.
Proof.
  inversion 1 as [x a random k0 T0 Hx Ha _ Hl|x a d f nf t p p' r k0 T0 Hx Ha Hp Hr _ Hl|now x a k0 T0 Hn Hx Hl
    |now x a kind package k0 T0 Hn Hx Hl Hp|now x a package k0 T0 Hn Hx Hl Hp|now now' now'' x changes k0 T0 ? ? ? Hc
    |x a state k0 T0 Hx|now x a k0 T0 Hn Hx|now at_ i p k0 T0|k0 T0|n s k0 T0 Hs|nows dir d reason k0 T0 Hr Hn Hd
    |dir d keep reason k0 T0 Hr Hd]; subst; intros Hk.
  - apply well_kept_launch; [done..|]. by eapply new_line_free.
  - injection Hl as Hl. apply well_kept_launch; [done..|]. rewrite <- Hl. by eapply recreated_line_free.
  - by apply well_kept_started.
  - apply well_kept_update; [done..|intros s Hs; by apply (well_kept_line T' k s x a)|].
    intros r Hr. by apply grant_change_proper.
  - apply well_kept_update; [done..|intros s Hs; by apply (well_kept_line T' k s x a)|].
    intros r Hr. split; [by apply (try_change_proper (Deny package))|by apply (try_change_id (Deny package))].
  - by apply well_kept_set_variables.
  - apply (well_kept_goblin _ k x a); [done..|by apply set_state_proper, (kept_goblins _ k Hk x)|done|done].
  - by apply well_kept_stopped.
  - by apply well_kept_prune.
  - by apply well_kept_poll.
  - apply (well_kept_store _ k s); [done..|]. by apply fine_writer, (kept_store _ k Hk).
  - by eapply well_kept_take_over.
  - by eapply well_kept_open.
Qed.

(** A server that does not own a history store yet. *)
Definition fresh_keeper (ws : bool) (keep : N) (reason : string) (l : list Connection) (n : N) : Keeper :=
  mkKeeper ws keep (inr reason) None ∅ l n.

Lemma well_kept_run ws keep reason l n k T : rtc keeper_step (fresh_keeper ws keep reason l n, ∅) (k, T) → well_kept T k.
Proof.
  assert (well_kept ∅ (fresh_keeper ws keep reason l n)) as Hk by (split; simpl; done).
  revert Hk. generalize (∅ : gset string), (fresh_keeper ws keep reason l n). intros T0 k0 Hk Hs.
  change (let '(k, T) := (k, T) in well_kept T k). change (let '(k, T) := (k0, T0) in well_kept T k) in Hk.
  induction Hs as [|[k1 T1] [k2 T2] y Hs _ IH]; [done|]. apply IH. by eapply well_kept_step.
Qed.
(** C38. The controller keeps its records. Whatever goblins with UTF-8 texts are
    launched, recreated, granted or denied packages, set variables or stop,
    whatever is pruned, and whenever the store is taken over, the clock being
    a 64-bit number, what the directory held at first being UTF-8, and the
    calls of the writer succeeding: two live goblins never run one record and
    no record of a live goblin is being deleted; and once the writer has
    caught up and its outcomes are polled, nothing is being deleted, the
    directory holds exactly the records in memory, and those of the live
    goblins are as they were. Excepted from the last two are the records whose
    goblin's end was recorded while they were being deleted. *)
Theorem controller_keeps_its_records ws keep reason l n k crossed :
  rtc keeper_step (fresh_keeper ws keep reason l n, ∅) (k, crossed) →
  (∀ x y a b, sessions_ k !! x = Some a → sessions_ k !! y = Some b → g_live a = true → g_live b = true →
    g_line a = g_line b → x = y) ∧
  ∀ s, history k = inl s →
    (∀ x a, sessions_ k !! x = Some a → g_live a = true → g_line a ∉ deleting s) ∧
    let s2 := settled s in
    deleting s2 = ∅ ∧
    (∀ i, i ∉ crossed → records s2 !! i = on_disk s2 !! i) ∧
    ∀ x a, sessions_ k !! x = Some a → g_live a = true → g_line a ∉ crossed →
      records s2 !! g_line a = records s !! g_line a.
Proof.
  intros Hk%well_kept_run. split; [apply (kept_lines _ k Hk)|]. intros s Hh.
  pose proof (kept_store _ k Hk s Hh) as (Ht & _ & _).
  assert (∀ x a, sessions_ k !! x = Some a → g_live a = true → g_line a ∉ deleting s) as Hlive
    by (intros x a Ha Hl; by apply (well_kept_line crossed k s x a)).
  split; [done|]. destruct (settled_spec _ s Ht) as (_ & _ & Hd & Hi & _).
  split_and!; [done|intros i HiT; by apply Hi|]. intros x a Ha Hl HaT.
  destruct (Hi _ HaT) as [_ ->]. by rewrite decide_False by eauto.
Qed.

(** C40. A record that is being deleted can come back. In every state the
    controller reaches, if the end of a goblin that last ran a record is
    recorded while the record is being deleted, as it is when retention took
    the record between the goblin's death and the recording of it, and the
    record still fits its file: then once the writer has caught up, all of its
    calls having succeeded, and its outcomes are polled, the memory has
    forgotten the record and nothing is being deleted, and yet the directory
    holds the record with its end; the store that is opened on this directory
    next has it again. *)
Theorem stopped_record_is_resurrected ws keep reason l n k T now x a s r r2 :
  rtc keeper_step (fresh_keeper ws keep reason l n, ∅) (k, T) →
  is_u64 now = true → sessions_ k !! x = Some a → history k = inl s → g_line a ∈ deleting s →
  records s !! g_line a = Some r → stopped r = None → latest r = x →
  within_limits (with_stopped (Some now) r) = true →
  fit (set_times (created r) now (with_stopped (Some now) r)) = (true, r2) →
  ∃ s1, history (update_record now (g_line a) (stop_change x now) k).2 = inl s1 ∧
    let s2 := settled s1 in
    deleting s2 = ∅ ∧ records s2 !! g_line a = None ∧
    on_disk s2 !! g_line a = Some r2 ∧ stopped r2 = Some now ∧
    records (opened (directory s2)) !! g_line a = Some r2.
Proof.
  intros Hrun%well_kept_run Hnow Hx Hs Hd Hr Hst Hl Hlim Hfit.
  pose proof (well_kept_stopped T now x a k Hnow Hrun) as Hk1. unfold update_record in *. rewrite Hs, Hr in *.
  rewrite bool_decide_false in * by (rewrite Hst; by intros []).
  destruct (update_cases (with_stopped (Some now)) r) as [(_ & Hsame & _)|[(Ho & _ & Hso & _)|(e & _ & _ & _ & Hno)]];
    [by rewrite <- Hsame in Hst|..|congruence].
  unfold stop_change, string_eqb in *. rewrite bool_decide_true in * by done. unfold outcome_of, state_of in *.
  destruct (update _ r) as [o r1]. cbn [fst snd] in Ho, Hso. subst o r1. cbn [fst snd created with_stopped] in *.
  eexists. split; [done|]. set (s1 := store_write _ s) in *. set (s2 := settled s1).
  assert (proper (set_times (created r) now (with_stopped (Some now) r)) = true) as Hp.
  { destruct (kept_store _ k Hrun s Hs) as (_ & Hsane & _).
    pose proof (sane_proper s Hsane _ _ Hr) as [? ? Hsz ? ? ? ? ?]. apply proper_iff. split; try done.
    unfold sized in *. simpl. rewrite !andb_true_iff in *. rewrite Hnow. tauto. }
  assert (queue s1 = queue s ++ [Write r2] ∧ deleting s1 = deleting s ∧ on_disk s1 = on_disk s) as (Hq & Hd1 & Hod).
  { unfold s1, store_write. by rewrite Hfit. }
  destruct (kept_store _ _ Hk1 s1 eq_refl) as (Ht & _).
  destruct (settled_spec _ s1 Ht) as (_ & _ & Hdel & _ & Hdisk & Hgone & _). fold s2 in Hdel, Hdisk, Hgone.
  destruct (fit_storable _ r2 Hp Hfit) as [_ Hid]. cbn [id set_times with_stopped] in Hid.
  destruct (kept_store _ k Hrun s Hs) as (_ & Hsane & _). rewrite (sane_keyed s Hsane _ _ Hr) in Hid.
  assert (on_disk s2 !! g_line a = Some r2) as Hback.
  { rewrite Hdisk, Hq, effects_app, <- Hid. simpl. apply lookup_insert_eq. }
  split_and!; [done|by apply Hgone; rewrite Hd1|done| |done].
  destruct (fit_true _ _ Hfit) as (_ & Hw & _). unfold kept_whole in Hw. by injection Hw.
Qed.
End text.

(** ** Examples *)
Section examples.
#[local] Existing Instance code_text.
#[local] Existing Instance code_text_laws.
Let goblin (i line state : string) (live : bool) : Goblin :=
  mkGoblin i "shell" "snikk" None None None false ["git"] [] [] state live line ∅ ∅ None.
Lemma goblin_proper i line state live : identifier line = true → utf8 i = true → proper_goblin (goblin i line state live).
Proof. intros Hl Hi. by split. Qed.
Let one : Goblin := goblin "s1" "00000000" "starting" true.
Let two : Goblin := goblin "s2" "11111111" "starting" true.
Let ready (keep : N) : Keeper := open_history (opened ∅) "h" keep (fresh_keeper false 0 "none" [] 0).
Let launched (a : Goblin) (k : Keeper) : Keeper := set_goblins (<[g_id a := a]> (sessions_ k)) k.
Let started (now : N) (a : Goblin) (k : Keeper) : Keeper :=
  let a' := set_state "running" true a in
  set_goblins (<[g_id a := a']> (sessions_ k)) (record_started now a' (set_goblins (delete (g_id a) (sessions_ k)) k)).
Let running_one (keep : N) : Keeper := started 9 one (launched one (ready keep)).
Lemma ready_steps keep : rtc keeper_step (fresh_keeper false 0 "none" [] 0, ∅) (ready keep, ∅).
Proof.
  apply rtc_once. apply (step_open ∅ "h" keep "none"); [done|].
  intros i r. rewrite load_lookup, lookup_fmap, lookup_empty. by destruct (identifier i).
Qed.
Lemma launched_steps a random k T : sessions_ k !! g_id a = None → proper_goblin a → g_recreated_from a = None →
  g_live a = true → launch_line random None k = Ok (g_line a) →
  rtc keeper_step (k, T) (started 9 a (launched a k), T).
Proof.
  intros Hx Ha Hr Hl Hline. eapply rtc_l; [by apply (step_launch (g_id a) a random)|]. apply rtc_once.
  apply (step_running 9 (g_id a) a (launched a k)); [done| |done]. apply lookup_insert_eq.
Qed.
Lemma running_steps keep : rtc keeper_step (fresh_keeper false 0 "none" [] 0, ∅) (running_one keep, ∅).
Proof.
  etrans; [apply ready_steps|]. unfold running_one.
  apply (launched_steps one [replicate 8 "000"%char] (ready keep) ∅);
    [reflexivity|apply goblin_proper; by vm_compute|reflexivity|reflexivity|vm_compute; reflexivity].
Qed.
Lemma controller_keeps_its_records_witness :
  rtc keeper_step (fresh_keeper false 0 "none" [] 0, ∅) (running_one 5, ∅) ∧
  ∃ s, history (running_one 5) = inl s ∧ "00000000" ∉ deleting s ∧
  approved ∘ packages <$> records s !! "00000000" = Some ["git"] ∧
  records (settled s) !! "00000000" = on_disk (settled s) !! "00000000".
Proof.
  pose proof (running_steps 5) as Hr.
  split; [done|]. destruct (controller_keeps_its_records _ _ _ _ _ _ _ Hr) as [_ Hs].
  destruct (history (running_one 5)) as [s|] eqn:Hk; [|by vm_compute in Hk]. exists s. split; [done|].
  destruct (Hs s eq_refl) as (Hlive & _ & Hi & _). split_and!.
  - apply (Hlive "s1" (set_state "running" true one)); vm_compute; reflexivity.
  - assert (match history (running_one 5) with inl s => approved ∘ packages <$> records s !! "00000000" | inr _ => None end
      = Some ["git"]) as He by (by vm_compute). by rewrite Hk in He.
  - apply Hi. apply not_elem_of_empty.
Defined.

(** A history of one record: the first goblin is gone, the second starts and
    retention takes the record of the first, whose end is recorded then. *)
Let first : Goblin := set_state "running" true one.
Let dead : Goblin := set_state "stopped" false first.
Let one_dead : Keeper := set_goblins (<["s1" := dead]> (sessions_ (running_one 1))) (running_one 1).
Let replaced : Keeper := started 9 two (launched two one_dead).
Lemma stopped_record_is_resurrected_witness :
  rtc keeper_step (fresh_keeper false 0 "none" [] 0, ∅) (replaced, ∅) ∧
  ∃ s1, history (update_record 11 "00000000" (stop_change "s1" 11) replaced).2 = inl s1 ∧
    records (settled s1) !! "00000000" = None ∧ is_Some (on_disk (settled s1) !! "00000000").
Proof.
  assert (rtc keeper_step (fresh_keeper false 0 "none" [] 0, ∅) (replaced, ∅)) as Hr.
  { etrans; [apply (running_steps 1)|].
    assert (sessions_ (running_one 1) !! "s1" = Some first) as Hs1 by (vm_compute; reflexivity).
    eapply rtc_l; [apply (step_released "s1" first "stopped" (running_one 1) ∅ Hs1)|]. fold dead. fold one_dead.
    unfold replaced. apply (launched_steps two [replicate 8 "001"%char] one_dead ∅);
      [vm_compute; reflexivity|apply goblin_proper; by vm_compute|reflexivity|reflexivity|vm_compute; reflexivity]. }
  split; [exact Hr|]. assert (sessions_ replaced !! "s1" = Some dead) as Hdead by (vm_compute; reflexivity).
  destruct (history replaced) as [s|] eqn:Hs; [|by vm_compute in Hs].
  assert (match history replaced with
    | inl s => bool_decide ("00000000" ∈ deleting s) && match records s !! "00000000" with
        | Some r => bool_decide (stopped r = None) && string_eqb (latest r) "s1" && within_limits (with_stopped (Some 11%N) r) &&
                    (fit (set_times (created r) 11 (with_stopped (Some 11%N) r))).1
        | None => false end
    | inr _ => false end = true) as Hc by (vm_compute; reflexivity).
  rewrite Hs in Hc. apply andb_true_iff in Hc as [Hd%bool_decide_eq_true Hc].
  destruct (records s !! "00000000") as [r|] eqn:Hrec; [|done]. rewrite !andb_true_iff in Hc.
  destruct Hc as [[[Hst%bool_decide_eq_true Hl%bool_decide_eq_true] Hlim] Hfit].
  destruct (fit (set_times (created r) 11 (with_stopped (Some 11%N) r))) as [b r2] eqn:Hf. cbn [fst] in Hfit. subst b.
  destruct (stopped_record_is_resurrected false 0 "none" [] 0 replaced ∅ 11 "s1"
    dead s r r2 Hr eq_refl Hdead Hs Hd Hrec Hst Hl Hlim Hf)
    as (s1 & Hs1 & _ & Hn & Hdisk & _).
  exists s1. split; [exact Hs1|]. split; [exact Hn|]. exists r2. exact Hdisk.
Defined.
End examples.
