(* ===== verification/ConversationSpec.v ===== *)
(** * Conversations, listings and answers to prunes

    Proofs about [ControllerRecords.v]: merging the records of one
    conversation keeps the decisions of the record it merges into, every
    goblin's ID within the limit, and leaves one record of the conversation;
    a prune is answered once with what was deleted; a listing is a prefix of
    the newest records that fits one response. *)
From S2P Require Import Prelude Json Grammar Messages Framing FramingFacts Text History HistoryText HistorySpec.
From S2P Require Import HistoryStore HistoryStoreSpec HistoryQuiet ControllerRecords ControllerRecordsSpec.
From Stdlib Require Import Ascii.

(** ** What absorbing a record keeps *)
Definition decision (o : option Outcome) : Prop := o = Some Granted ∨ o = Some Denied.
Section text.
Context `{RecordText}.
(** [merged] stays well formed and keeps the decisions of [r]. *)
Record keeps_decisions (r m : Record_) : Prop := {
  kd_wf : lists_wf (packages m);
  kd_status n : decision (status (packages r) n) → status (packages m) n = status (packages r) n;
  kd_variables : variables m = variables r;
  kd_same : latest m = latest r }.
Lemma try_change_lists c r : lists_wf (packages r) →
  lists_wf (packages (try_change (perform c) r)) ∧
  ((∀ n, status (packages (try_change (perform c) r)) n = status (packages r) n) ∨
   (∀ n, status (packages (try_change (perform c) r)) n = decided c (status (packages r)) n)).
Proof.
  intros Hwf. unfold try_change. rewrite perform_update.
  pose proof (relisted_wf c _ Hwf) as Hwf'. rewrite <- packages_changed in Hwf'.
  destruct (update_cases (changed c) r) as [(_ & _ & ->)|[(_ & _ & -> & _)|(e & _ & _ & -> & _)]];
    [(split; [done|by left])| |(split; [done|by left])].
  split; [done|]. right. intros n. rewrite packages_changed. by apply relisted_status.
Qed.
Lemma try_change_rest c r : match c with Variables _ => False | _ => True end →
  variables (try_change (perform c) r) = variables r ∧ sessions (try_change (perform c) r) = sessions r.
Proof.
  intros Hc. unfold try_change. rewrite perform_update.
  apply (update_keeps (λ r', variables r' = variables r ∧ sessions r' = sessions r)); [done|]. by destruct c.
Qed.
Lemma status_denied p n : lists_wf p → status p n = Some Denied ↔ n ∈ denied p.
Proof.
  intros [_ _ _ Ha Hd]. unfold status. specialize (Ha n). specialize (Hd n).
  repeat case_bool_decide; naive_solver.
Qed.
(** Approving or inheriting a name that is not denied never undoes a decision. *)
Lemma absorb_name c r m : keeps_decisions r m →
  match c with Approve n | Auto n => n ∉ denied (packages m) | _ => False end →
  keeps_decisions r (try_change (perform c) m).
Proof.
  intros [Hwf Hst Hv Hs] Hc. destruct (try_change_lists c m Hwf) as [Hwf' Hcase].
  destruct (try_change_rest c m) as [Hv' Hs']; [by destruct c|].
  split; [done| |congruence|unfold latest in *; congruence].
  intros n Hn. destruct Hcase as [-> | ->]; [by apply Hst|].
  destruct c as [x|x|x|]; simpl; try done; case_decide as Hx; try by apply Hst.
  - subst x. rewrite <- (Hst n Hn). rewrite <- (Hst n Hn) in Hn.
    destruct Hn as [Hn|Hn]; [done|]. by apply status_denied in Hn.
  - subst x. rewrite <- (Hst n Hn). rewrite <- (Hst n Hn) in Hn.
    destruct Hn as [Hn|Hn]; [by rewrite Hn|]. by apply status_denied in Hn.
Qed.
Lemma absorb_packages_keeps o r m : keeps_decisions r m → keeps_decisions r (absorb_packages o m).
Proof.
  intros Hm. unfold absorb_packages. apply (foldl_keeps (keeps_decisions r)).
  { intros x n _ Hx. case_bool_decide; [done|]. by apply (absorb_name (Auto n)). }
  apply (foldl_keeps (keeps_decisions r)); [|done].
  intros x n _ Hx. case_bool_decide; [done|]. by apply (absorb_name (Approve n)).
Qed.
Lemma absorb_packages_sessions o m : sessions (absorb_packages o m) = sessions m.
Proof.
  unfold absorb_packages. apply (foldl_keeps (λ r, sessions r = sessions m)).
  { intros x n _ Hx. case_bool_decide; [done|]. rewrite <- Hx. apply (try_change_rest (Auto n)). done. }
  apply (foldl_keeps (λ r, sessions r = sessions m)); [|done].
  intros x n _ Hx. case_bool_decide; [done|]. rewrite <- Hx. apply (try_change_rest (Approve n)). done.
Qed.
Definition absorbed_sessions (o m : Record_) : list string :=
  drain_excess (filter (λ s, s ∉ sessions m) (sessions o) ++ sessions m).
Lemma absorb_sessions o m : sessions (absorb m o) = absorbed_sessions o m.
Proof. unfold absorb. simpl. by rewrite absorb_packages_sessions. Qed.
(** The last [n] of a list. *)
Definition last_of {A} (n : N) (l : list A) : list A := drop (length l - N.to_nat n) l.
Lemma drain_last l : drain_excess l = last_of MAX_SESSIONS l.
Proof. unfold drain_excess, last_of, u64_saturating_sub, lenN. f_equal. lia. Qed.
Lemma last_of_all {A} n (l : list A) : (lenN l <= n)%N → last_of n l = l.
Proof. intros Hl. unfold last_of, lenN in *. replace (_ - _) with 0 by lia. done. Qed.
Lemma last_of_app {A} n (l k : list A) : (n <= lenN k)%N → last_of n (l ++ k) = last_of n k.
Proof.
  intros Hk. unfold last_of, lenN in *. rewrite length_app, drop_app_ge by lia. f_equal. lia.
Qed.
Lemma length_last_of {A} n (l : list A) : lenN (last_of n l) = N.min n (lenN l).
Proof. unfold last_of, lenN. rewrite length_drop. lia. Qed.
Lemma last_of_idem {A} n (l : list A) : last_of n (last_of n l) = last_of n l.
Proof. apply last_of_all. rewrite length_last_of. lia. Qed.
Lemma absorbed_latest o m : sessions m ≠ [] → (lenN (sessions m) <= MAX_SESSIONS)%N →
  last (absorbed_sessions o m) = last (sessions m).
Proof.
  intros Hm Hl. unfold absorbed_sessions. rewrite drain_last. unfold last_of. rewrite last_drop.
  - rewrite last_app. destruct (last (sessions m)) eqn:Hs; [done|]. by apply last_None in Hs.
  - unfold lenN, MAX_SESSIONS in *. rewrite length_app. destruct (sessions m); [done|]. simpl in *. lia.
Qed.
(** The goblins of a record [own] and of others, given from the newest: those
    of an older record come before those of a newer one. *)
Definition all_sessions (own : list string) (l : list Record_) : list string :=
  foldl (λ acc o, filter (λ x, x ∉ acc) (sessions o) ++ acc) own l.
(** Cutting at every record or once at the end is the same. *)
Lemma drain_once (l acc : list string) :
  last_of MAX_SESSIONS (filter (λ x, x ∉ last_of MAX_SESSIONS acc) l ++ last_of MAX_SESSIONS acc) =
  last_of MAX_SESSIONS (filter (λ x, x ∉ acc) l ++ acc).
Proof.
  destruct (N.le_ge_cases (lenN acc) MAX_SESSIONS) as [Hl|Hl].
  - by rewrite (last_of_all _ acc).
  - rewrite !last_of_app; [by rewrite last_of_idem|done|rewrite length_last_of; lia].
Qed.
Lemma absorb_all_sessions own l m : sessions m = last_of MAX_SESSIONS own →
  sessions (foldl absorb m l) = last_of MAX_SESSIONS (all_sessions own l).
Proof.
  revert own m. induction l as [|o l IH]; intros own m Hm; [done|]. simpl. apply IH.
  rewrite absorb_sessions. unfold absorbed_sessions. rewrite Hm, drain_last. apply drain_once.
Qed.

(** ** Merging *)
Definition bounded (r : Record_) : Prop := sessions r ≠ [] ∧ (lenN (sessions r) <= MAX_SESSIONS)%N.
Lemma absorb_bounded o m : bounded m → bounded (absorb m o).
Proof.
  unfold bounded. rewrite absorb_sessions. intros [Hm Hl]. split.
  - intros He. pose proof (absorbed_latest o m Hm Hl) as Hlast. rewrite He in Hlast. symmetry in Hlast. by apply last_None in Hlast.
  - unfold absorbed_sessions. rewrite drain_last, length_last_of. lia.
Qed.
Lemma absorb_keeps o r m : bounded m → keeps_decisions r m → keeps_decisions r (absorb m o).
Proof.
  intros [Hm Hl] Hk. set (m1 := set_sessions (absorbed_sessions o m) m).
  assert (keeps_decisions r m1) as Hk1.
  { destruct Hk as [? ? ? Hs]. split; try done. unfold m1, latest in *. simpl. by rewrite absorbed_latest. }
  pose proof (absorb_packages_keeps o r m1 Hk1) as [? ? ? Hs]. split; try done.
Qed.
Lemma absorb_created o m : created (absorb m o) = N.min (created m) (created o).
Proof.
  unfold absorb. simpl. f_equal. unfold absorb_packages.
  apply (foldl_keeps (λ r, created r = created m)).
  { intros x n _ Hx. case_bool_decide; [done|]. rewrite <- Hx. unfold try_change.
    change (auto n) with (perform (Auto n)). rewrite perform_update. by apply (update_keeps (λ r, created r = created x)). }
  apply (foldl_keeps (λ r, created r = created m)); [|done].
  intros x n _ Hx. case_bool_decide; [done|]. rewrite <- Hx. unfold try_change.
  change (approve n) with (perform (Approve n)). rewrite perform_update. by apply (update_keeps (λ r, created r = created x)).
Qed.
Lemma absorb_id o m : id (absorb m o) = id m.
Proof.
  unfold absorb, absorb_packages. simpl. apply (foldl_keeps (λ r, id r = id m)).
  { intros x n _ Hx. case_bool_decide; [done|]. rewrite <- Hx. apply (try_change_id (Auto n)). }
  apply (foldl_keeps (λ r, id r = id m)); [|done].
  intros x n _ Hx. case_bool_decide; [done|]. rewrite <- Hx. apply (try_change_id (Approve n)).
Qed.
(** Packages are approved only as one of the records had them approved. *)
Definition grants_of (A : string → Prop) (m : Record_) : Prop :=
  (∀ n, n ∈ approved (packages m) → A n).
Lemma grants_try A c m : match c with Approve n => A n | Auto _ => True | _ => False end →
  grants_of A m → grants_of A (try_change (perform c) m).
Proof.
  intros Hc Hm. unfold try_change. rewrite perform_update. apply update_keeps; [done|].
  unfold grants_of. rewrite packages_changed. destruct c as [n|n|n|]; try done; simpl.
  - unfold add_name. case_bool_decide; [done|]. intros x [Hx|Hx]%elem_of_app; [auto|]. by apply list_elem_of_singleton in Hx as ->.
  - unfold auto_change. by case_bool_decide.
Qed.
Lemma grants_absorb A o m : (∀ n, n ∈ approved (packages o) → A n) → grants_of A m → grants_of A (absorb m o).
Proof.
  intros Ho Hm. unfold absorb, absorb_packages. unfold grants_of. simpl. apply (foldl_keeps (grants_of A)).
  { intros x n _ Hx. case_bool_decide; [done|]. by apply (grants_try A (Auto n)). }
  apply (foldl_keeps (grants_of A)); [|done].
  intros x n Hn Hx. case_bool_decide; [done|]. apply (grants_try A (Approve n)); auto.
Qed.
(** What the records [l], the newest first, absorbed into [r] leave in [m]. *)
Record absorbs (r : Record_) (l : list Record_) (m : Record_) : Prop := {
  ab_id : id m = id r;
  ab_decisions : keeps_decisions r m;
  ab_approved n : n ∈ approved (packages m) → ∃ o, (o = r ∨ o ∈ l) ∧ n ∈ approved (packages o);
  ab_sessions : sessions m = last_of MAX_SESSIONS (all_sessions (sessions r) l);
  ab_created : (∀ o, o = r ∨ o ∈ l → (created m <= created o)%N) ∧ ∃ o, (o = r ∨ o ∈ l) ∧ created m = created o }.
Lemma absorb_all_created r l : let m := foldl absorb r l in
  (∀ o, o = r ∨ o ∈ l → (created m <= created o)%N) ∧ ∃ o, (o = r ∨ o ∈ l) ∧ created m = created o.
Proof.
  induction l as [|o l [IH1 IH2]] using rev_ind; simpl.
  { split; [intros o [->|Ho]; [done|by apply not_elem_of_nil in Ho]|]. exists r. auto. }
  rewrite foldl_snoc, absorb_created. split.
  - intros o' [->|[Ho|Ho]%elem_of_app]; [specialize (IH1 r (or_introl eq_refl))|specialize (IH1 o' (or_intror Ho))|
      apply list_elem_of_singleton in Ho as ->]; lia.
  - destruct IH2 as (o' & Ho' & He). destruct (N.min_spec (created (foldl absorb r l)) (created o)) as [[_ ->]|[_ ->]].
    + exists o'. split; [|done]. destruct Ho'; [by left|right; apply elem_of_app; by left].
    + exists o. split; [|done]. right. apply elem_of_app. right. apply list_elem_of_singleton. done.
Qed.
Lemma absorb_all r l : lists_wf (packages r) → bounded r → absorbs r l (foldl absorb r l).
Proof.
  intros Hwf Hb. split.
  - apply (foldl_keeps (λ m, id m = id r)); [|done]. intros m o _ <-. apply absorb_id.
  - enough (keeps_decisions r (foldl absorb r l) ∧ bounded (foldl absorb r l)) as [? _] by done.
    apply (foldl_keeps (λ m, keeps_decisions r m ∧ bounded m)); [|done].
    intros m o _ [Hd Hm]. split; [by apply absorb_keeps|by apply absorb_bounded].
  - apply (foldl_keeps (grants_of (λ n, ∃ o, (o = r ∨ o ∈ l) ∧ n ∈ approved (packages o)))); [|intros n Hn; eauto].
    intros m o Ho Hm. apply grants_absorb; [|done]. intros n Hn. exists o. auto.
  - apply absorb_all_sessions. by rewrite last_of_all by apply Hb.
  - apply absorb_all_created.
Qed.
(** Created later, and in the order of their IDs when at the same time. *)
Definition younger (a b : Record_) : Prop :=
  (created b < created a)%N ∨ created a = created b ∧ String.le (id a) (id b).
#[local] Instance created_desc_total : Total created_desc.
Proof.
  intros a b. unfold created_desc. destruct (N.lt_total (created a) (created b)) as [?|[?|?]]; [by right; left| |by left; left].
  destruct (total String.le (id a) (id b)); eauto.
Qed.
#[local] Instance created_desc_trans : Transitive created_desc.
Proof.
  intros a b c [?|[? ?]] [?|[? ?]]; [left|left|left|right]; try lia. split; [lia|]. by transitivity (id b).
Qed.
Lemma others_sorted line c live s : keyed (records s) →
  NoDup (others line c live s) ∧ StronglySorted younger (others line c live s).
Proof.
  intros Hk. unfold others. split.
  - rewrite merge_sort_Permutation. by apply NoDup_filter, NoDup_values.
  - change younger with created_desc. apply StronglySorted_merge_sort; apply _.
Qed.

(** C39. A conversation keeps one record. When a goblin reports a conversation,
    the other records of it that are not a live goblin's and not being deleted
    are merged into the goblin's, from the newest to the oldest: either there
    are none, or the merged record fits no file and the store stays as it was;
    or the record under the goblin's line becomes the merged one and the others
    are queued to be deleted after it is written, so that no record of the
    conversation is left but this one, those of live goblins and those being
    deleted. The merged record keeps the ID of the line, the decisions on
    packages and the variables of the goblin's own, approves only what one of
    them approved, is as old as the oldest, and holds the IDs of the goblins of
    all of them, those of an older record before those of a newer one and its
    own last, of which only the last 256 stay, or fewer when the record would
    not fit its file otherwise. *)
Theorem conversation_has_one_record now line k s r c :
  history k = inl s → keyed (records s) → records s !! line = Some r → conversation r = Some c →
  lists_wf (packages r) → bounded r →
  ∃ l merged s', history (merge_conversation now line k) = inl s' ∧
    (∀ o, o ∈ l ↔ records s !! id o = Some o ∧ id o ≠ line ∧ conversation o = Some c ∧
       id o ∉ live_lines (sessions_ k) ∧ id o ∉ deleting s) ∧
    NoDup l ∧ StronglySorted younger l ∧ absorbs r l merged ∧ id merged = line ∧
    ((s' = s ∧ (l = [] ∨ (fit (set_times (created merged) now merged)).1 = false)) ∨
     ∃ m, l ≠ [] ∧ records s' !! line = Some m ∧ id m = line ∧ fits m = true ∧
       (∀ i, i ≠ line → records s' !! i = records s !! i) ∧
       queue s' = queue s ++ [Merge m (id <$> l)] ∧
       packages m = packages merged ∧ variables m = variables r ∧ latest m = latest r ∧
       created m = created merged ∧ updated m = now ∧ (sessions m `suffix_of` sessions merged) ∧
       ∀ i o, records s' !! i = Some o → conversation o = Some c →
         i = line ∨ i ∈ live_lines (sessions_ k) ∨ i ∈ deleting s').
Proof.
  intros Hs Hk Hr Hc Hwf Hb. set (l := others line c (live_lines (sessions_ k)) s).
  pose proof (absorb_all r l Hwf Hb) as Ha. destruct (others_sorted line c (live_lines (sessions_ k)) s Hk) as [Hnd Hso].
  assert (id (foldl absorb r l) = line) as Hidm by (rewrite (ab_id _ _ _ Ha); by apply Hk).
  assert (∀ o, o ∈ l ↔ records s !! id o = Some o ∧ id o ≠ line ∧ conversation o = Some c ∧
    id o ∉ live_lines (sessions_ k) ∧ id o ∉ deleting s) as Hl.
  { intros o. unfold l. rewrite elem_of_others. split; [|naive_solver]. intros ([i Hi] & ?).
    by rewrite <- (Hk _ _ Hi) in Hi. }
  exists l, (foldl absorb r l). unfold merge_conversation. rewrite Hs, Hr, Hc. fold l.
  case_bool_decide as Hnil.
  { exists s. split_and!; try done. left. split; [done|by left]. }
  eexists. split; [done|]. split_and!; try done.
  unfold store_merge. destruct (fit (set_times (created (foldl absorb r l)) now (foldl absorb r l))) as [ok m] eqn:Hf.
  destruct ok; cbn [negb fst]; [|left; split; [done|by right]].
  right. exists m. destruct (fit_true _ _ Hf) as (Hfits & Hw & _ & Hsuf).
  unfold kept_whole in Hw. injection Hw as Hv Hid Hcf Han Hcw Hsc Hds Hde Hpk Hva Hla Hcr Hup Hst.
  cbn [id set_times] in Hid. rewrite Hidm in Hid.
  pose proof (ab_decisions _ _ _ Ha) as [_ _ Hvar Hlat].
  split_and!; try done.
  - simpl. rewrite Hid. apply lookup_insert_eq.
  - intros i Hi. simpl. rewrite Hid. by rewrite lookup_insert_ne.
  - by rewrite Hva.
  - by rewrite Hla.
  - simpl. intros i o Ho Hoc. rewrite Hid in Ho. apply lookup_insert_Some in Ho as [[<- _]|[Hi Ho]]; [by left|]. right.
    destruct (decide (i ∈ live_lines (sessions_ k))); [by left|]. right.
    rewrite elem_of_union, elem_of_list_to_set. destruct (decide (i ∈ deleting s)); [by left|]. right.
    pose proof (Hk _ _ Ho) as Hoid. apply list_elem_of_fmap. exists o. split; [done|].
    apply Hl. subst i. by split_and!.
Qed.

(** ** Answers to prunes *)
Lemma prune_key_inj a b : prune_key a = prune_key b → a = b.
Proof.
  intros Hk. apply (f_equal bytes) in Hk. unfold prune_key in Hk. rewrite !bytes_app in Hk.
  apply app_inv_head, bytes_inj in Hk. by apply (inj pretty).
Qed.
Definition about (t : N) (d : Deleted) : bool := bool_decide (tag d = Some t).
Lemma answer_lookup l d j : answer l d !! j = (λ c, match tag d with None => c | Some t => answer_prune t d c end) <$> l !! j.
Proof. unfold answer. destruct (tag d); [by rewrite list_lookup_fmap|by destruct (l !! j)]. Qed.
(** A prune that waits is answered by the first outcome under its number,
    once, with what was deleted and what was not; others keep waiting. *)
Theorem prune_is_answered_once k s j c t rpc_id : history k = inl s → connections k !! j = Some c →
  waiting c = Some (prune_key t, rpc_id) →
  connections (poll_deletes k) !! j = Some
    match List.find (about t) (results s) with
    | Some d => mkConnection None (replies c ++
        [result rpc_id (prune_result (removed d) (failed_value <$> failed d) false)])
    | None => c
    end.
Proof.
  intros Hs Hj Hw. unfold poll_deletes. rewrite Hs. unfold poll. cbn [connections set_connections].
  revert Hj. generalize (connections k). induction (results s) as [|d ds IH]; intros l Hj; [done|]. simpl.
  assert (∀ ds l c, l !! j = Some c → waiting c = None → foldl answer l ds !! j = Some c) as Hidle.
  { clear. induction ds as [|d ds IH]; intros l c Hj Hw; [done|]. simpl. apply IH; [|done].
    rewrite answer_lookup, Hj. simpl. unfold answer_prune. rewrite Hw. by destruct (tag d). }
  unfold about at 1. case_bool_decide as Ht.
  - apply Hidle; [|done]. rewrite answer_lookup, Hj, Ht. simpl. unfold answer_prune. rewrite Hw.
    unfold string_eqb. by rewrite bool_decide_true.
  - apply IH. rewrite answer_lookup, Hj. simpl. destruct (tag d) as [t'|]; [|done]. f_equal.
    unfold answer_prune. rewrite Hw. unfold string_eqb. rewrite bool_decide_false; [done|].
    intros He%prune_key_inj. congruence.
Qed.

(** ** Listings *)
Section listing.
Variable vec_len : Value → N.
Fixpoint total (running : gset string) (l : list Record_) : N :=
  match l with [] => 0 | r :: l => vec_len (listed running r) + total running l end.
(** A listing is the newest records that are not being deleted, as many as fit
    one response, and says whether there are more. *)
Theorem listing_is_a_prefix running gone size l :
  (size + total running l < u64_modulus)%N → (size <= MAX_LISTED)%N →
  let kept := filter (λ r, id r ∉ gone) l in
  ∃ n, list_records vec_len running gone size l = (listed running <$> take n kept, bool_decide (n < length kept)%nat) ∧
    (n <= length kept)%nat ∧ (size + total running (take n kept) <= MAX_LISTED)%N ∧
    ∀ r, kept !! n = Some r → (MAX_LISTED < size + total running (take n kept) + vec_len (listed running r))%N.
Proof.
  revert size. induction l as [|r l IH]; intros size Hsz Hmax; cbn [list_records total filter] in *.
  { exists 0. split_and!; [done|done|simpl; lia|done]. }
  rewrite filter_cons. case_bool_decide as Hg.
  { rewrite decide_False by tauto. apply IH; [lia|done]. }
  rewrite decide_True by done. rewrite u64_add_small by lia.
  destruct (N.ltb_spec MAX_LISTED (size + vec_len (listed running r))).
  - exists 0. split_and!; [|simpl; lia|simpl; lia|].
    + by rewrite bool_decide_true by (simpl; lia).
    + intros x [= <-]. simpl. lia.
  - destruct (IH (size + vec_len (listed running r))%N) as (n & -> & Hn & Hfit & Hmore); [lia|done|].
    exists (S n). split_and!; [|simpl; lia|simpl; lia|].
    + simpl. f_equal. apply bool_decide_ext. lia.
    + intros x Hx. specialize (Hmore x Hx). simpl. lia.
Qed.
End listing.
End text.

(** ** Examples *)
Section examples.
#[local] Existing Instance code_text.
Let talk (i session : string) (p : Packages) (u : N) : Record_ :=
  with_variables {["session_id" := "c1"]} (set_packages p (ran_as session (new_record i "shell" "snikk" u))).
Let mine : Record_ := talk "b" "s3" (mkPackages [] ["curl"] []) 5.
Let theirs : Record_ := talk "a" "s1" (mkPackages ["git"; "curl"] [] ["jq"]) 2.
Let newer_one : Record_ := talk "c" "s2" (mkPackages [] [] []) 3.
Let store : Store := mkStore {["a" := theirs; "b" := mine; "c" := newer_one]} ∅ [] [] ∅ [].
Let keeper : Keeper := mkKeeper false 5 (inl store) (Some "h") ∅ [] 0.
(** Two records of the conversation, of times 2 and 3, and the goblin's. *)
Lemma conversation_has_one_record_witness :
  lists_wf (packages mine) ∧ bounded mine ∧
  ∃ s' m, history (merge_conversation 9 "b" keeper) = inl s' ∧ records s' !! "b" = Some m ∧ id m = "b" ∧
    packages m = mkPackages ["git"] ["curl"] ["jq"] ∧ sessions m = ["s1"; "s2"; "s3"] ∧ created m = 2%N ∧
    queue s' = [Merge m ["c"; "a"]].
Proof.
  assert (lists_wf (packages mine)) as Hwf by (split; simpl; solve [constructor|apply NoDup_singleton|set_solver]).
  assert (bounded mine) as Hb by (split; [done|by vm_compute]).
  split; [done|]. split; [done|].
  assert (keyed (records store)) as Hk by (apply (bool_decide_unpack (map_Forall (λ k r, id r = k) _)); by vm_compute).
  assert (records store !! "b" = Some mine) as Hmine by (by vm_compute).
  assert (conversation mine = Some "c1") as Hconv by (by vm_compute).
  destruct (conversation_has_one_record 9 "b" keeper store mine "c1" eq_refl Hk Hmine Hconv Hwf Hb)
    as (l & merged & s' & Hs' & _ & _ & _ & _ & _ & Hcase).
  assert (match history (merge_conversation 9 "b" keeper) with
          | inl s => match records s !! "b" with
              | Some m => bool_decide (packages m = mkPackages ["git"] ["curl"] ["jq"]) && bool_decide (created m = 2%N) &&
                          bool_decide (sessions m = ["s1"; "s2"; "s3"]) &&
                          match queue s with [Merge _ ids] => bool_decide (ids = ["c"; "a"]) | _ => false end
              | None => false end
          | inr _ => false end = true) as Hc by (vm_compute; reflexivity).
  rewrite Hs' in Hc. destruct Hcase as [[-> _]|(m & _ & Hm & Hid & _ & _ & Hq & _)].
  { exfalso. rewrite Hmine in Hc. by vm_compute in Hc. }
  rewrite Hm in Hc. rewrite !andb_true_iff, !bool_decide_eq_true in Hc. destruct Hc as [[[Hp Hcr] Hss] Hids].
  rewrite Hq in Hids. apply bool_decide_eq_true in Hids. rewrite Hids in Hq.
  exists s', m. repeat split; [exact Hs'|exact Hm|exact Hid|exact Hp|exact Hss|exact Hcr|exact Hq].
Defined.
End examples.
