(* ===== verification/Codec.v ===== *)
(** * Serialized fields

    How [serde] and [serde_json] carry the field types of the supervisor
    protocol ([libs/runtime/src/supervisor.rs]), from their documentation:
    a codec is what [to_value] and [from_value] do at a type, with the texts
    of their errors a parameter. Nothing in this file is code of the
    repository but [Descriptor] ([libs/runtime/src/channel.rs]). *)
From S2P Require Import Prelude Json Grammar Messages Framing.
From Stdlib Require Import Ascii.

(** The error text for a value that is not what the type expects. *)
Class SerdeText : Type := serde_error : string → Value → string.

Record Codec (T : Type) : Type := mkCodec {
  to_value : T → res string Value;
  from_value : Value → res string T }.
Arguments mkCodec {T} _ _.
Arguments to_value {T} _ _.
Arguments from_value {T} _ _.

Definition utf8 (s : string) : bool := utf8_valid (bytes s).
Fixpoint mapM_res {E A B} (f : A → res E B) (l : list A) : res E (list B) :=
  match l with
  | [] => Ok []
  | a :: l => b ← f a; k ← mapM_res f l; Ok (b :: k)
  end.

Section codecs.
Context `{SerdeText}.

Definition expecting {T} (what : string) (v : Value) (o : option T) : res string T :=
  res_ok_or o (serde_error what v).
Definition within_z (lo hi : Z) (v : Value) : option Z :=
  match v with Number z => if (lo <=? z)%Z && (z <=? hi)%Z then Some z else None | _ => None end.

(** [u16], [u32], [u64] and [usize] by their greatest value; [i32]. *)
Definition unsigned_codec (greatest : N) : Codec N :=
  mkCodec (λ n, Ok (Number (Z.of_N n)))
    (λ v, expecting "an unsigned integer" v (Z.to_N <$> within_z 0 (Z.of_N greatest) v)).
Definition u16_codec : Codec N := unsigned_codec 65535.
Definition u32_codec : Codec N := unsigned_codec 4294967295.
Definition u64_codec : Codec N := unsigned_codec u64_max.
Definition i32_codec : Codec Z :=
  mkCodec (λ z, Ok (Number z)) (λ v, expecting "i32" v (within_z (-2147483648) 2147483647 v)).
Definition bool_codec : Codec bool :=
  mkCodec (λ b, Ok (Bool b))
    (λ v, expecting "a boolean" v (match v with Bool b => Some b | _ => None end)).
Definition string_codec : Codec string :=
  mkCodec (λ s, Ok (String_ s)) (λ v, expecting "a string" v (as_str v)).
(** A [PathBuf] may hold any bytes, a JSON string may not. *)
Definition path_codec : Codec string :=
  mkCodec (λ s, if utf8 s then Ok (String_ s) else Err "path contains invalid UTF-8 characters")
    (λ v, expecting "path string" v (as_str v)).
Definition value_codec : Codec Value := mkCodec (λ v, Ok v) (λ v, Ok v).

Definition option_codec {T} (c : Codec T) : Codec (option T) :=
  mkCodec (λ o, match o with Some x => to_value c x | None => Ok Null end)
    (λ v, match v with Null => Ok None | _ => x ← from_value c v; Ok (Some x) end).
Definition list_codec {T} (c : Codec T) : Codec (list T) :=
  mkCodec (λ l, k ← mapM_res (to_value c) l; Ok (Array k))
    (λ v, match v with
          | Array l => mapM_res (from_value c) l
          | _ => Err (serde_error "a sequence" v)
          end).
Definition pair_codec {A B} (a : Codec A) (b : Codec B) : Codec (A * B) :=
  mkCodec (λ p, v ← to_value a p.1; w ← to_value b p.2; Ok (Array [v; w]))
    (λ v, match v with
          | Array [x; y] => p ← from_value a x; q ← from_value b y; Ok (p, q)
          | _ => Err (serde_error "a tuple of size 2" v)
          end).
(** [Result]: an object with one member, [Ok] or [Err]. *)
Definition result_codec {A B} (a : Codec A) (b : Codec B) : Codec (A + B) :=
  mkCodec (λ r, match r with
                | inl x => v ← to_value a x; Ok (Object [("Ok", v)])
                | inr e => v ← to_value b e; Ok (Object [("Err", v)])
                end)
    (λ v, match v with
          | Object [(k, w)] =>
              if string_eqb k "Ok" then x ← from_value a w; Ok (inl x)
              else if string_eqb k "Err" then e ← from_value b w; Ok (inr e)
              else Err (serde_error "`Ok` or `Err`" v)
          | _ => Err (serde_error "`Ok` or `Err`" v)
          end).
(** A [BTreeMap] with string keys, as its ascending entries. *)
Definition map_codec {T} (c : Codec T) : Codec (list (string * T)) :=
  mkCodec (λ m, k ← mapM_res (λ kv, v ← to_value c kv.2; Ok (kv.1, v)) m; Ok (Object k))
    (λ v, match v with
          | Object o => mapM_res (λ kv, x ← from_value c kv.2; Ok (kv.1, x)) o
          | _ => Err (serde_error "a map" v)
          end).

(** [Descriptor { index }], serialized [{"$fd": index}]. *)
Definition descriptor_codec : Codec N :=
  mkCodec (λ n, Ok (Object [("$fd", json_u64 n)]))
    (λ v, match f ← struct_fields ["$fd"] v; f "$fd" with
          | Some w => from_value u64_codec w
          | None => Err (serde_error "struct Descriptor" v)
          end).

(** One member of a derived struct: absent means null to an [Option] alone. *)
Definition field {T} (c : Codec T) (f : string → option Value) (k : string) : res string T :=
  match f k with Some v => from_value c v | None => Err ("missing field `" +:+ k +:+ "`") end.
Definition field_opt {T} (c : Codec T) (f : string → option Value) (k : string) :
    res string (option T) :=
  match f k with Some v => from_value (option_codec c) v | None => Ok None end.
Definition structure (what : string) (names : list string) (v : Value) :
    res string (string → option Value) := expecting what v (struct_fields names v).

(** An internally tagged enum: the tag first in an array, anywhere in an
    object; the rest is the variant's struct. *)
Definition tagged (tag : string) (v : Value) : res string (string * Value) :=
  match v with
  | Object o =>
      match object_get o tag with
      | Some (String_ kind) => Ok (kind, Object (object_remove tag o))
      | Some w => Err (serde_error "variant identifier" w)
      | None => Err ("missing field `" +:+ tag +:+ "`")
      end
  | Array (String_ kind :: l) => Ok (kind, Array l)
  | _ => Err (serde_error "internally tagged enum" v)
  end.
End codecs.

(** ** Text

    A field that carries JSON as text ([serde_json::to_string], [from_str]):
    a repeated key of the text keeps its last value. *)
Fixpoint settle (v : Value) : Value :=
  match v with
  | Array l => Array (settle <$> l)
  | Object o => Object (foldl (λ acc kv, object_insert kv.1 kv.2 acc) []
                          ((λ kv, (kv.1, settle kv.2)) <$> o))
  | _ => v
  end.
Record TextCodec (T : Type) : Type := mkTextCodec {
  to_text : T → res string string;
  from_text : string → res string T }.
Arguments mkTextCodec {T} _ _.
Arguments to_text {T} _ _.
Arguments from_text {T} _ _.
Section text.
Context `{JsonText}.
Definition parse_text (s : string) : res string Value :=
  match from_bytes (bytes s) with Some v => Ok (settle v) | None => Err (json_error (bytes s)) end.
(** A type whose text is the text of its value. *)
Definition text_codec {T} (c : Codec T) : TextCodec T :=
  mkTextCodec (λ x, v ← to_value c x; Ok (text (to_bytes v)))
    (λ s, v ← parse_text s; from_value c v).
End text.
