(* ===== verification/Protocol.v ===== *)
(** * The supervisor protocol

    [libs/runtime/src/supervisor.rs] and [supervisor/handoff.rs]: the messages
    between the daemon and a supervisor, their encoding into frames with
    attached descriptors, and the decoder with the handoff it assembles from
    several frames. A descriptor is the number of the capability it holds, so
    a duplicate of it is the same number. The types of other modules that the
    protocol carries through derived serializers are parameters with their
    codecs; what the kernel answers is an argument. *)
From S2P Require Import Prelude Json Grammar Messages Framing Channel Paths Codec.
From S2P Require Outbound.

Definition API : N := 1.
Definition MAX_BODY : N := MAX_FRAME_BODY.

(** ** Payloads *)

(** What other modules define and serialize. [Opaque] fields travel as text. *)
Class Payloads : Type := {
  Request : Type; request_codec : Codec Request;
  Changes : Type; changes_codec : Codec Changes;
  terminal_codec : Codec Outbound.Terminal;
  spawn_kind_codec : Codec Outbound.SpawnKind;
  Recreate : Type; recreate_codec : Codec Recreate;
  Operation : Type; operation_codec : Codec Operation;
  PolicyT : Type; policy_codec : Codec PolicyT;
  SupportT : Type; support_codec : Codec SupportT;
  Identity : Type; identity_codec : Codec Identity;
  Recreated : Type; recreated_codec : Codec Recreated;
  AutoT : Type; auto_codec : Codec AutoT;
  ReplyT : Type; reply_codec : Codec ReplyT;
  TerminalStatus : Type; status_codec : Codec TerminalStatus;
  HostOutcome : Type; outcome_codec : Codec HostOutcome;
  DevShell : Type; dev_shell_text : TextCodec (option DevShell);
  Summary : Type; summary_text : TextCodec Summary; opt_summary_text : TextCodec (option Summary) }.

Section protocol.
Context `{JsonText} `{SerdeText} `{Payloads}.

Record ResourceLease := mkLease { directory : string; lock : Fd }.
Record WorkingDirectory := mkWorkingDirectory { wd_fd : Fd; wd_source : string; wd_destination : string }.
Record Handoff := mkHandoff {
  leases : list ResourceLease;
  workspace : Fd;
  working_directory : option WorkingDirectory;
  dev_shell : option DevShell;
  docker : bool }.
Inductive Stdio := Fds (stdin stdout stderr : Fd) | Tty (slave : Fd) | NewPty (rows cols : N).
Definition protocol_carried : Outbound.Carried :=
  Outbound.mkCarried Fd Request Changes Stdio Handoff.
Abbreviation Command := (@Outbound.Command protocol_carried).

Inductive Source :=
| SourceHost (configuration name : string) (scope dev_shell workspace cwd : option string)
    (state : string) (history : option string) (recreate : option Recreate) (sequence : N)
| SourceMember (scope : option Fd) (owner_scope : option string) (manifest configuration : string)
    (auto : list (string * string)) (state : string) (history : option string).
Definition is_member (s : Source) : bool :=
  match s with SourceMember _ _ _ _ _ _ _ => true | _ => false end.

Record SupervisorStart := mkStart {
  supervisor_api : N;
  source : Source;
  start_directory : string;
  dimensions : N * N;
  detached : bool;
  payload_nofile : option N;
  legacy_listener : option Fd;
  handoff : option Handoff }.
Definition set_handoff h (s : SupervisorStart) : SupervisorStart :=
  mkStart (supervisor_api s) (source s) (start_directory s) (dimensions s) (detached s)
    (payload_nofile s) (legacy_listener s) h.

Record Maintenance := mkMaintenance {
  m_api : N; operation : Operation; m_stdout : Fd; m_stderr : Fd }.
Record ManifestLease := mkManifestLease { ml_path : string; ml_root : option string; ml_transfer : option Fd }.
Record Preview := mkPreview {
  output_path : option string; in_store : bool; download : option string; build_required : bool }.

Inductive Event :=
| Failed (error : string)
| Manifest (sequence : N) (lease : ManifestLease)
| Exported (member : string) (result : Handoff + string)
| EScopeFailed (name : string)
| ScopeNeeded (name : string)
| EPreview (approval : N) (result : Preview + string)
| Started (docker_enabled : bool) (policy : PolicyT) (support : SupportT)
    (dev_shell : option Summary) (identity : Identity) (recreated : option Recreated) (auto : AutoT)
| Progress (request state : string)
| Mode (server : bool)
| ERefresh (approval : N) (result : Value * string + string)
| ECall (serial : N) (result : Value + string)
| EDevShell (summary : Summary)
| Granted (reply : ReplyT) (detail output : option string)
| Spawned (id : N) (pid : Z)
| ETerminal (terminal : Outbound.Terminal) (status : TerminalStatus) (error : option string)
| SpawnFailed (id : N) (code : option Z) (message : string)
| Exited (id : N) (code signal : option Z)
| SandboxOpened (connection : N)
| SandboxCall (connection : N) (call : string * Call)
| SandboxClosed (connection : N)
| HostJobPrepared (request : string) (result : string + string)
| HostJobFailed (request error : string)
| HostJobFinished (request : string) (outcome : HostOutcome + string)
| Stopped (exit_code : option Z)
| InitLost
| PayloadExited.

Inductive Message :=
| MStart (start : SupervisorStart)
| MMaintenance (request : Maintenance)
| MaintenanceFinished (result : unit + string)
| Preflight (supervisor_api : N) (path directory : string) (sequence : N)
| PreflightFailed (error : string)
| MCommand (command : Command)
| MEvent (event : Event)
| Stopping
| Released
| Adopted (transfer : N).

(** ** Checks of a message *)

Definition invalid {A} (message : string) : res ChannelError A := Err (InvalidData message).
Definition other {A} (r : res string A) : res ChannelError A := map_err InvalidData r.

(** What the host knows of descriptors and paths: status flags, metadata. *)
Record Stat := mkStat { is_file : bool; uid : N; dev : N; ino : N }.
Record Host := mkHost {
  getfl : Fd → res string N;
  fstat : Fd → res string Stat;
  lstat : string → res string Stat;
  getuid : N }.
Definition O_ACCMODE : N := 3.
Definition O_RDONLY : N := 0.

Definition valid_output (h : Host) (fd : Fd) : res ChannelError unit :=
  flags ← map_err OtherError (getfl h fd);
  if (N.land flags O_ACCMODE =? O_RDONLY)%N
  then invalid "maintenance output descriptor is not writable" else Ok tt.
Definition valid_maintenance (h : Host) (r : Maintenance) : res ChannelError unit :=
  if negb (m_api r =? API)%N then invalid "incompatible supervisor API" else
  _ ← valid_output h (m_stdout r); valid_output h (m_stderr r).
Definition valid_preflight (api : N) (directory : string) : res ChannelError unit :=
  if negb (api =? API)%N then invalid "incompatible supervisor API" else
  if negb (is_absolute (bytes directory)) then invalid "invalid preflight directory" else Ok tt.
Definition valid_start (s : SupervisorStart) : res ChannelError unit :=
  if negb (supervisor_api s =? API)%N then invalid "incompatible supervisor API" else
  if negb (is_absolute (bytes (start_directory s))) ||
     negb (within 1 1000 (dimensions s).1 && within 1 1000 (dimensions s).2)
  then invalid "invalid supervisor startup parameters" else
  if bool_decide (payload_nofile s = Some 0%N) || bool_decide (payload_nofile s = Some u64_max)
  then invalid "invalid payload descriptor limit" else
  if negb (Bool.eqb (is_member (source s)) (bool_decide (is_Some (handoff s))))
  then invalid "member startup requires its handoff; host startup must not have one" else Ok tt.

(** ** Building frames *)

(** [clones] are the kernel's answers to the duplications of descriptors to
    come, [Some] an error; with none left they succeed. *)
Record Builder := mkBuilder {
  method : string;
  params : list (string * Value);
  b_fds : list Fd;
  following : list Frame;
  b_transfer : N;
  manifest : option Fd;
  clones : list (option string) }.
Definition new_builder (method : string) (transfer : N) (clones : list (option string)) : Builder :=
  mkBuilder method [] [] [] transfer None clones.
Definition set_method x (b : Builder) : Builder :=
  mkBuilder x (params b) (b_fds b) (following b) (b_transfer b) (manifest b) (clones b).
Definition set_params x (b : Builder) : Builder :=
  mkBuilder (method b) x (b_fds b) (following b) (b_transfer b) (manifest b) (clones b).
Definition set_fds x (b : Builder) : Builder :=
  mkBuilder (method b) (params b) x (following b) (b_transfer b) (manifest b) (clones b).
Definition set_following x (b : Builder) : Builder :=
  mkBuilder (method b) (params b) (b_fds b) x (b_transfer b) (manifest b) (clones b).
Definition set_manifest x (b : Builder) : Builder :=
  mkBuilder (method b) (params b) (b_fds b) (following b) (b_transfer b) x (clones b).
Definition set_clones x (b : Builder) : Builder :=
  mkBuilder (method b) (params b) (b_fds b) (following b) (b_transfer b) (manifest b) x.

Abbreviation B := (M Builder ChannelError).
Definition named (name : string) : B unit := modify (set_method name).
Definition put_json (key : string) (v : Value) : B unit :=
  modify (λ b, set_params (object_insert key v (params b)) b).
Definition put_value {T} (c : Codec T) (key : string) (x : T) : B unit :=
  v ← lift (other (to_value c x)); put_json key v.
Definition put_opaque {T} (c : TextCodec T) (key : string) (x : T) : B unit :=
  s ← lift (other (to_text c x)); put_json key (String_ s).
Definition owned (fd : Fd) : B N :=
  b ← get;
  _ ← refuse (MAX_FDS <=? lenN (b_fds b))%N (InvalidData "descriptor frame budget exceeded");
  _ ← put (set_fds (b_fds b ++ [fd]) b);
  mret (lenN (b_fds b)).
(** [try_clone_to_owned]. *)
Definition cloned : B unit :=
  b ← get;
  match clones b with
  | [] => mret tt
  | None :: l => put (set_clones l b)
  | Some e :: l => _ ← put (set_clones l b); throw (OtherError e)
  end.
Definition put_fd (fd : Fd) : B N := _ ← cloned; owned fd.
Fixpoint mapM_b {A C} (f : A → B C) (l : list A) : B (list C) :=
  match l with
  | [] => mret []
  | a :: l => c ← f a; k ← mapM_b f l; mret (c :: k)
  end.
Definition opt_b {A C} (f : A → B C) (o : option A) : B (option C) :=
  match o with Some a => c ← f a; mret (Some c) | None => mret None end.

Definition frame_of (b : Builder) : Frame :=
  mkFrame (json_object [("jsonrpc", String_ "2.0"); ("method", String_ (method b));
                        ("params", Object (params b))]) (b_fds b).
Definition body_size (f : Frame) : N := lenN (to_bytes (Channel.value f)).
Fixpoint total_size (sum : N) (frames : list Frame) : res ChannelError N :=
  match frames with
  | [] => Ok sum
  | f :: frames =>
      match u64_checked_add sum (body_size f) with
      | Some sum => total_size sum frames
      | None => invalid "control message too large"
      end
  end.
Definition finish_builder (b : Builder) : res ChannelError (list Frame) :=
  let frames := frame_of b :: following b in
  size ← total_size 0 frames;
  if (MAX_BODY <? size)%N then invalid "control message too large" else Ok frames.

(** ** Encoding *)

(** [json!] of a value that does not serialize panics. *)
Definition json_of {T} (c : Codec T) (x : T) : B Value :=
  match to_value c x with Ok v => mret v | _ => λ b, (Panic, b) end.

Definition descriptor (n : N) : Value := Object [("$fd", json_u64 n)].
Definition encode_stdio (s : Stdio) : B Value :=
  match s with
  | Fds a b c => a ← put_fd a; b ← put_fd b; c ← put_fd c;
      mret (json_object [("kind", String_ "Fds"); ("fds", Array (descriptor <$> [a; b; c]))])
  | Tty slave => n ← put_fd slave; mret (json_object [("kind", String_ "Tty"); ("slave", descriptor n)])
  | NewPty rows cols =>
      mret (json_object [("kind", String_ "NewPty"); ("rows", json_u64 rows); ("cols", json_u64 cols)])
  end.

Definition opt_path : Codec (option string) := option_codec path_codec.
Definition opt_string : Codec (option string) := option_codec string_codec.
Definition encode_source (s : Source) : B Value :=
  match s with
  | SourceHost configuration name scope dev_shell workspace cwd state history recreate sequence =>
      configuration ← json_of path_codec configuration; name ← json_of string_codec name;
      scope ← json_of opt_string scope; dev_shell ← json_of opt_string dev_shell;
      workspace ← json_of opt_path workspace; cwd ← json_of opt_path cwd;
      state ← json_of path_codec state; history ← json_of opt_path history;
      recreate ← json_of (option_codec recreate_codec) recreate;
      sequence ← json_of u64_codec sequence;
      mret (json_object [("kind", String_ "Host"); ("configuration", configuration); ("name", name);
        ("scope", scope); ("dev_shell", dev_shell); ("workspace", workspace); ("cwd", cwd);
        ("state", state); ("history", history); ("recreate", recreate); ("sequence", sequence)])
  | SourceMember scope owner_scope manifest configuration auto state history =>
      scope ← opt_b put_fd scope;
      scope ← json_of (option_codec descriptor_codec) scope;
      owner_scope ← json_of opt_string owner_scope; manifest ← json_of path_codec manifest;
      configuration ← json_of string_codec configuration;
      auto ← json_of (map_codec path_codec) auto;
      state ← json_of path_codec state; history ← json_of opt_path history;
      mret (json_object [("kind", String_ "Member"); ("scope", scope); ("owner_scope", owner_scope);
        ("manifest", manifest); ("configuration", configuration); ("auto", auto); ("state", state);
        ("history", history)])
  end.

(** [WireLease], [WireDirectory] and [WireHandoff] with their codecs. *)
Definition wire_lease_codec : Codec (string * N) :=
  mkCodec (λ l, d ← to_value path_codec l.1;
      Ok (json_object [("directory", d); ("lock", descriptor l.2)]))
    (λ v, f ← structure "struct WireLease" ["directory"; "lock"] v;
      d ← field path_codec f "directory"; n ← field descriptor_codec f "lock"; Ok (d, n)).
Definition wire_directory_codec : Codec (N * string * string) :=
  mkCodec (λ w, let '(n, source, destination) := w in
      s ← to_value path_codec source; d ← to_value path_codec destination;
      Ok (json_object [("fd", descriptor n); ("source", s); ("destination", d)]))
    (λ v, f ← structure "struct WireDirectory" ["fd"; "source"; "destination"] v;
      n ← field descriptor_codec f "fd"; s ← field path_codec f "source";
      d ← field path_codec f "destination"; Ok (n, s, d)).
Record WireHandoff := mkWireHandoff {
  w_transfer : N; w_count : N; w_workspace : N; w_directory : option (N * string * string);
  w_dev_shell : string; w_docker : bool; w_leases : list (string * N); w_more : bool }.
Definition wire_handoff_codec : Codec WireHandoff :=
  mkCodec (λ w,
      directory ← to_value (option_codec wire_directory_codec) (w_directory w);
      leases ← to_value (list_codec wire_lease_codec) (w_leases w);
      Ok (json_object [("transfer", json_u64 (w_transfer w)); ("count", json_u64 (w_count w));
        ("workspace", descriptor (w_workspace w)); ("working_directory", directory);
        ("dev_shell", String_ (w_dev_shell w)); ("docker", Bool (w_docker w)); ("leases", leases);
        ("more", Bool (w_more w))]))
    (λ v, f ← structure "struct WireHandoff" ["transfer"; "count"; "workspace"; "working_directory";
          "dev_shell"; "docker"; "leases"; "more"] v;
      transfer ← field u64_codec f "transfer"; count ← field u64_codec f "count";
      workspace ← field descriptor_codec f "workspace";
      directory ← field_opt wire_directory_codec f "working_directory";
      dev_shell ← field string_codec f "dev_shell"; docker ← field bool_codec f "docker";
      leases ← field (list_codec wire_lease_codec) f "leases"; more ← field bool_codec f "more";
      Ok (mkWireHandoff transfer count workspace directory dev_shell docker leases more)).

Definition put_lease (l : ResourceLease) : B (string * N) :=
  _ ← cloned; n ← owned (lock l); mret (directory l, n).
(** A frame of its own for a batch of leases; its builder takes the kernel's
    answers in turn. *)
Definition in_part (m : B unit) : B unit := λ b,
  match m (new_builder "Leases" (b_transfer b) (clones b)) with
  | (Ok _, part) => (Ok tt, set_following (following b ++ [frame_of part]) (set_clones (clones part) b))
  | (Err e, part) => (Err e, set_clones (clones part) b)
  | (Panic, part) => (Panic, set_clones (clones part) b)
  end.
Definition batch : nat := N.to_nat MAX_FDS.
Definition encode_batch (transfer : N) (rest : list ResourceLease) : B unit :=
  _ ← put_value u64_codec "transfer" transfer;
  l ← mapM_b put_lease (take batch rest);
  _ ← put_value (list_codec wire_lease_codec) "leases" l;
  put_value bool_codec "more" (negb (bool_decide (drop batch rest = []))).
Fixpoint encode_batches (fuel : nat) (transfer : N) (rest : list ResourceLease) : B unit :=
  match fuel, rest with
  | _, [] | O, _ => mret tt
  | S fuel, _ =>
      _ ← in_part (encode_batch transfer rest);
      encode_batches fuel transfer (drop batch rest)
  end.
Definition put_directory (w : WorkingDirectory) : B (N * string * string) :=
  n ← put_fd (wd_fd w); mret (n, wd_source w, wd_destination w).
Definition encode_handoff (h : Handoff) : B Value :=
  workspace ← put_fd (workspace h);
  directory ← opt_b put_directory (working_directory h);
  let count := lenN (leases h) in
  _ ← refuse (MAX_BODY <? count)%N (InvalidData "handoff exceeds control message budget");
  b ← get;
  let first := N.to_nat (N.min count (MAX_FDS - lenN (b_fds b))) in
  l ← mapM_b put_lease (take first (leases h));
  dev_shell ← lift (other (to_text dev_shell_text (dev_shell h)));
  let header := mkWireHandoff (b_transfer b) count workspace directory dev_shell (docker h) l
                  (N.of_nat first <? count)%N in
  _ ← encode_batches (length (leases h)) (b_transfer b) (drop first (leases h));
  lift (other (to_value wire_handoff_codec header)).

(** [json!] again: a path that is no text panics. *)
Definition encode_preview (r : Preview + string) : B Value :=
  match r with
  | inl p => path ← json_of opt_path (output_path p); download ← json_of opt_string (download p);
      mret (json_object [("Ok", json_object [("output_path", path); ("in_store", Bool (in_store p));
        ("download", download); ("build_required", Bool (build_required p))])])
  | inr e => mret (json_object [("Err", String_ e)])
  end.
Definition call_text (call : string * Call) : Value :=
  json_object [("jsonrpc", String_ call.1); ("id", default Null (c_id call.2));
    ("method", String_ (c_method call.2)); ("params", c_params call.2)].
Definition call_codec : TextCodec (string * Call) :=
  mkTextCodec (λ c, Ok (text (to_bytes (call_text c))))
    (λ s, v ← parse_text s; expecting "struct Call" v (decode_call v)).

Definition result_fd (r : Fd + string) : B (N + string) :=
  match r with inl fd => n ← put_fd fd; mret (inl n) | inr e => mret (inr e) end.
Definition env_codec : Codec (list (string * string)) := list_codec (pair_codec string_codec string_codec).
Definition encode_command (c : Command) : B unit :=
  match c with
  | Outbound.Cancel id => _ ← named "Command.Cancel"; put_value u64_codec "id" id
  | Outbound.Stop => named "Command.Stop"
  | Outbound.Start h => _ ← named "Command.Start"; v ← encode_handoff h; put_value value_codec "handoff" v
  | Outbound.RecordEvent event fields => _ ← named "Command.RecordEvent";
      _ ← put_value string_codec "event" event; put_opaque (text_codec value_codec) "fields" fields
  | Outbound.Attach terminal stream rows cols => _ ← named "Command.Attach";
      _ ← put_value terminal_codec "terminal" terminal;
      n ← put_fd stream; _ ← put_value descriptor_codec "stream" n;
      _ ← put_value u16_codec "rows" rows; put_value u16_codec "cols" cols
  | Outbound.Detach terminal => _ ← named "Command.Detach"; put_value terminal_codec "terminal" terminal
  | Outbound.Resize terminal rows cols => _ ← named "Command.Resize";
      _ ← put_value terminal_codec "terminal" terminal;
      _ ← put_value u16_codec "rows" rows; put_value u16_codec "cols" cols
  | Outbound.SandboxSend connection message => _ ← named "Command.SandboxSend";
      _ ← put_value u64_codec "connection" connection;
      put_opaque (text_codec value_codec) "message" message
  | Outbound.SandboxClose connection => _ ← named "Command.SandboxClose";
      put_value u64_codec "connection" connection
  | Outbound.ScopeFailed => named "Command.ScopeFailed"
  | Outbound.ScopeMembership result => _ ← named "Command.ScopeMembership";
      r ← result_fd result; put_value (result_codec descriptor_codec string_codec) "result" r
  | Outbound.Preview approval package => _ ← named "Command.Preview";
      _ ← put_value u64_codec "approval" approval; put_value string_codec "package" package
  | Outbound.Decide request approved output => _ ← named "Command.Decide";
      _ ← put_value request_codec "request" request; _ ← put_value bool_codec "approved" approved;
      put_value opt_path "output" output
  | Outbound.Refresh approval changes => _ ← named "Command.Refresh";
      _ ← put_value u64_codec "approval" approval; put_value changes_codec "changes" changes
  | Outbound.Run serial app => _ ← named "Command.Run";
      _ ← put_value u64_codec "serial" serial; put_value string_codec "app" app
  | Outbound.Diff serial changes => _ ← named "Command.Diff";
      _ ← put_value u64_codec "serial" serial; put_value changes_codec "changes" changes
  | Outbound.Spawn id kind argv cwd env stdio => _ ← named "Command.Spawn";
      _ ← put_value u64_codec "id" id; _ ← put_value spawn_kind_codec "kind" kind;
      _ ← put_value (option_codec (list_codec string_codec)) "argv" argv;
      _ ← put_value opt_string "cwd" cwd; _ ← put_value env_codec "env" env;
      v ← encode_stdio stdio; put_value value_codec "stdio" v
  | Outbound.Signal id signal => _ ← named "Command.Signal";
      _ ← put_value u64_codec "id" id; put_value i32_codec "signal" signal
  | Outbound.CancelProcess id everything => _ ← named "Command.CancelProcess";
      _ ← put_value u64_codec "id" id; put_value bool_codec "everything" everything
  | Outbound.KillAll => named "Command.KillAll"
  | Outbound.Export member => _ ← named "Command.Export"; put_value string_codec "member" member
  | Outbound.PrepareHostJob request cwd => _ ← named "Command.PrepareHostJob";
      _ ← put_value string_codec "request" request; put_value path_codec "cwd" cwd
  | Outbound.RunHostJob request argv env timeout => _ ← named "Command.RunHostJob";
      _ ← put_value string_codec "request" request;
      _ ← put_value (list_codec string_codec) "argv" argv; _ ← put_value env_codec "env" env;
      put_value (option_codec u64_codec) "timeout" timeout
  | Outbound.CancelHostJob request => _ ← named "Command.CancelHostJob";
      put_value string_codec "request" request
  end.

Definition opt_i32 : Codec (option Z) := option_codec i32_codec.
Definition take_manifest : B (option Fd) :=
  b ← get; _ ← put (set_manifest None b); mret (manifest b).
Definition encode_event (e : Event) : B unit :=
  match e with
  | Failed error => _ ← named "Event.Failed"; put_value string_codec "error" error
  | Manifest sequence lease => _ ← named "Event.Manifest";
      _ ← put_value u64_codec "sequence" sequence; _ ← put_value path_codec "path" (ml_path lease);
      _ ← put_value opt_path "root" (ml_root lease);
      fd ← take_manifest; owner ← opt_b owned fd;
      _ ← put_value (option_codec descriptor_codec) "owner" owner;
      b ← get; put_value u64_codec "transfer" (b_transfer b)
  | Exported member result => _ ← named "Event.Exported"; _ ← put_value string_codec "member" member;
      r ← match result with
          | inl h => v ← encode_handoff h; mret (inl v)
          | inr e => mret (inr e)
          end;
      put_value (result_codec value_codec string_codec) "result" r
  | EScopeFailed name => _ ← named "Event.ScopeFailed"; put_value string_codec "name" name
  | ScopeNeeded name => _ ← named "Event.ScopeNeeded"; put_value string_codec "name" name
  | EPreview approval result => _ ← named "Event.Preview"; _ ← put_value u64_codec "approval" approval;
      v ← encode_preview result; put_value value_codec "result" v
  | Started docker_enabled policy support dev_shell identity recreated auto =>
      _ ← named "Event.Started"; _ ← put_value bool_codec "docker_enabled" docker_enabled;
      _ ← put_value policy_codec "policy" policy; _ ← put_value support_codec "support" support;
      _ ← put_opaque opt_summary_text "dev_shell" dev_shell;
      _ ← put_value identity_codec "identity" identity;
      _ ← put_value (option_codec recreated_codec) "recreated" recreated;
      put_value auto_codec "auto" auto
  | Progress request state => _ ← named "Event.Progress";
      _ ← put_value string_codec "request" request; put_value string_codec "state" state
  | Mode server => _ ← named "Event.Mode"; put_value bool_codec "server" server
  | ERefresh approval result => _ ← named "Event.Refresh"; _ ← put_value u64_codec "approval" approval;
      put_opaque (text_codec (result_codec (pair_codec value_codec string_codec) string_codec))
        "result" result
  | ECall serial result => _ ← named "Event.Call"; _ ← put_value u64_codec "serial" serial;
      put_opaque (text_codec (result_codec value_codec string_codec)) "result" result
  | EDevShell summary => _ ← named "Event.DevShell"; put_opaque summary_text "summary" summary
  | Granted reply detail output => _ ← named "Event.Granted"; _ ← put_value reply_codec "reply" reply;
      _ ← put_value opt_string "detail" detail; put_value opt_path "output" output
  | Spawned id pid => _ ← named "Event.Spawned"; _ ← put_value u64_codec "id" id;
      put_value i32_codec "pid" pid
  | ETerminal terminal status error => _ ← named "Event.Terminal";
      _ ← put_value terminal_codec "terminal" terminal; _ ← put_value status_codec "status" status;
      put_value opt_string "error" error
  | SpawnFailed id code message => _ ← named "Event.SpawnFailed"; _ ← put_value u64_codec "id" id;
      _ ← put_value opt_i32 "code" code; put_value string_codec "message" message
  | Exited id code signal => _ ← named "Event.Exited"; _ ← put_value u64_codec "id" id;
      _ ← put_value opt_i32 "code" code; put_value opt_i32 "signal" signal
  | SandboxOpened connection => _ ← named "Event.SandboxOpened";
      put_value u64_codec "connection" connection
  | SandboxCall connection call => _ ← named "Event.SandboxCall";
      _ ← put_value u64_codec "connection" connection; put_opaque call_codec "call" call
  | SandboxClosed connection => _ ← named "Event.SandboxClosed";
      put_value u64_codec "connection" connection
  | HostJobPrepared request result => _ ← named "Event.HostJobPrepared";
      _ ← put_value string_codec "request" request;
      put_value (result_codec path_codec string_codec) "result" result
  | HostJobFailed request error => _ ← named "Event.HostJobFailed";
      _ ← put_value string_codec "request" request; put_value string_codec "error" error
  | HostJobFinished request outcome => _ ← named "Event.HostJobFinished";
      _ ← put_value string_codec "request" request;
      put_value (result_codec outcome_codec string_codec) "outcome" outcome
  | Stopped exit_code => _ ← named "Event.Stopped"; put_value opt_i32 "exit_code" exit_code
  | InitLost => named "Event.InitLost"
  | PayloadExited => named "Event.PayloadExited"
  end.

Definition encode_start (s : SupervisorStart) : B unit :=
  _ ← lift (valid_start s);
  _ ← named "SupervisorStart"; _ ← put_value u32_codec "supervisor_api" (supervisor_api s);
  src ← encode_source (source s); _ ← put_value value_codec "source" src;
  _ ← put_value path_codec "directory" (start_directory s);
  _ ← put_value (pair_codec u16_codec u16_codec) "dimensions" (dimensions s);
  _ ← put_value bool_codec "detached" (detached s);
  _ ← put_value (option_codec u64_codec) "payload_nofile" (payload_nofile s);
  listener ← opt_b put_fd (legacy_listener s);
  _ ← put_value (option_codec descriptor_codec) "legacy_listener" listener;
  h ← opt_b encode_handoff (handoff s);
  put_value (option_codec value_codec) "handoff" h.
(** The unit of [Result<(), String>] is null. *)
Definition unit_codec : Codec unit :=
  mkCodec (λ _, Ok Null) (λ v, expecting "unit" v (match v with Null => Some tt | _ => None end)).
Definition encode_message (h : Host) (m : Message) : B unit :=
  match m with
  | MStart start => encode_start start
  | Preflight api path directory sequence =>
      _ ← lift (valid_preflight api directory);
      _ ← named "Preflight"; _ ← put_value u32_codec "supervisor_api" api;
      _ ← put_value path_codec "path" path; _ ← put_value path_codec "directory" directory;
      put_value u64_codec "sequence" sequence
  | PreflightFailed error => _ ← named "PreflightFailed"; put_value string_codec "error" error
  | MMaintenance r =>
      _ ← lift (valid_maintenance h r);
      _ ← named "Maintenance"; _ ← put_value u32_codec "supervisor_api" (m_api r);
      _ ← put_value operation_codec "operation" (operation r);
      stdout ← put_fd (m_stdout r); stderr ← put_fd (m_stderr r);
      _ ← put_value descriptor_codec "stdout" stdout; put_value descriptor_codec "stderr" stderr
  | MaintenanceFinished result => _ ← named "MaintenanceFinished";
      put_value (result_codec unit_codec string_codec) "result" result
  | MCommand c => encode_command c
  | MEvent e => encode_event e
  | Stopping => named "Stopping"
  | Released => named "Released"
  | Adopted transfer => _ ← named "Adopted"; put_value u64_codec "transfer" transfer
  end.

(** ** Preparing a message *)

Record Prepared := mkPrepared {
  frames : list Frame; original : option Message; transfer : N; adoption : bool }.
Record Encoder := mkEncoder { next : N }.

(** [ManifestLease::prepare_transfer]: each of the two locks is an answer of
    the kernel, [None] when another process holds it. *)
Definition COLLECTED : string := "manifest root is being collected".
Definition locked (answer : res string (option Fd)) : res string Fd :=
  fd ← answer; res_ok_or fd COLLECTED.
Definition prepare_transfer (own sent : res string (option Fd)) (lease : ManifestLease) :
    res string (option Fd) * ManifestLease :=
  match ml_root lease with
  | None => (Ok None, lease)
  | Some root =>
      match match ml_transfer lease with
            | None => fd ← locked own; Ok (mkManifestLease (ml_path lease) (ml_root lease) (Some fd))
            | Some _ => Ok lease
            end with
      | Ok lease => (fd ← locked sent; Ok (Some fd), lease)
      | Err e => (Err e, lease)
      | Panic => (Panic, lease)
      end
  end.
Definition needs_adoption (m : Message) : bool :=
  match m with
  | MEvent (Manifest _ _) | MEvent (Exported _ (inl _)) | MCommand (Outbound.Start _) => true
  | MStart start => bool_decide (is_Some (handoff start))
  | _ => false
  end.
(** What the kernel answers while a message is prepared: the locks of a
    manifest's root, then the duplications. *)
Record Answers := mkAnswers {
  own_lock : res string (option Fd); sent_lock : res string (option Fd);
  duplicates : list (option string) }.
Definition prepared_root (a : Answers) (m : Message) : res ChannelError (option Fd) * Message :=
  match m with
  | MEvent (Manifest sequence lease) =>
      let '(r, lease) := prepare_transfer (own_lock a) (sent_lock a) lease in
      (other r, MEvent (Manifest sequence lease))
  | _ => (Ok None, m)
  end.
Definition prepare (h : Host) (a : Answers) (m : Message) : M Encoder ChannelError Prepared :=
  e ← get;
  transfer ← ok_or (u64_checked_add (next e) 1) (InvalidData "transfer id exhausted");
  _ ← put (mkEncoder transfer);
  let '(root, m) := prepared_root a m in
  root ← lift root;
  let '(r, b) := encode_message h m (set_manifest root (new_builder "" transfer (duplicates a))) in
  _ ← lift r;
  frames ← lift (finish_builder b);
  mret (mkPrepared frames (Some m) transfer (needs_adoption m)).

Record PendingTransfer := mkPendingTransfer { p_transfer : N; p_original : option Message }.
Definition into_pending (p : Prepared) : res ChannelError (option PendingTransfer) :=
  if negb (Outbound.is_nil (frames p)) then invalid "ownership transfer has unsent frames"
  else Ok (if adoption p then Some (mkPendingTransfer (transfer p) (original p)) else None).
Definition prepared_adopted (id : N) : M Prepared ChannelError unit :=
  p ← get;
  _ ← refuse (negb (id =? transfer p)%N || negb (adoption p) || negb (Outbound.is_nil (frames p)))
        (InvalidData "unexpected ownership acknowledgement");
  put (mkPrepared (frames p) None (transfer p) false).
Definition pending_adopted (id : N) : M PendingTransfer ChannelError unit :=
  p ← get;
  _ ← refuse (negb (id =? p_transfer p)%N || negb (bool_decide (is_Some (p_original p))))
        (InvalidData "unexpected ownership acknowledgement");
  put (mkPendingTransfer (p_transfer p) None).
End protocol.
