(* ===== verification/Handoff.v ===== *)
(** * The protocol's decoder

    [Params], [Descriptors] and the decoding tables of
    [libs/runtime/src/supervisor.rs], and [Decoder] of
    [supervisor/handoff.rs]: one frame at a time, with a handoff whose leases
    arrive in batches kept until it is complete. *)
From S2P Require Import Prelude Json Grammar Messages Framing Channel Paths Codec Protocol.
From S2P Require Outbound.

Section decoder.
Context `{JsonText} `{SerdeText} `{Payloads}.
Abbreviation Command := (@Outbound.Command protocol_carried).

(** ** A handoff in progress *)
Inductive Target := Startup (start : SupervisorStart) | StartCommand | ExportedTo (member : string).
Record Pending := mkPending {
  target : Target; p_handoff : Handoff; p_transfer : N; p_count : N; p_bytes : N }.
Definition complete (p : Pending) : Message :=
  match target p with
  | Startup start => MStart (set_handoff (Some (p_handoff p)) start)
  | StartCommand => MCommand (Outbound.Start (P := protocol_carried) (p_handoff p))
  | ExportedTo member => MEvent (Exported member (inl (p_handoff p)))
  end.
Record Received := mkReceived { message : Message; adopted : option N }.

(** ** Fields and descriptors of a frame

    The parameters not yet taken, the descriptors not yet taken, and the
    decoder's handoff. *)
Record Local := mkLocal {
  fields : list (string * Value); slots : list (option Fd); pending : option Pending }.
Definition set_fields x (s : Local) : Local := mkLocal x (slots s) (pending s).
Definition set_slots x (s : Local) : Local := mkLocal (fields s) x (pending s).
Definition set_pending x (s : Local) : Local := mkLocal (fields s) (slots s) x.
Abbreviation D := (M Local ChannelError).

Definition params_new (v : Value) : res ChannelError (list (string * Value)) :=
  match v with Object o => Ok o | _ => invalid "expected control object" end.
Definition remove_param (name : string) (o : list (string * Value)) :
    res ChannelError (Value * list (string * Value)) :=
  match object_get o name with
  | Some v => Ok (v, object_remove name o)
  | None => invalid ("missing control field " +:+ name)
  end.
Definition params_finish (o : list (string * Value)) : res ChannelError unit :=
  if Outbound.is_nil o then Ok tt else invalid "unexpected control field".
Definition take_json (name : string) : D Value :=
  s ← get;
  vo ← lift (remove_param name (fields s));
  _ ← put (set_fields vo.2 s);
  mret vo.1.
Definition take {T} (c : Codec T) (name : string) : D T :=
  v ← take_json name; lift (other (from_value c v)).
Definition take_opaque {T} (c : TextCodec T) (name : string) : D T :=
  s ← take string_codec name; lift (other (from_text c s)).
Definition finish_fields : D unit := s ← get; lift (params_finish (fields s)).

Definition descriptors_new (l : list Fd) : res ChannelError (list (option Fd)) :=
  if (MAX_FDS <? lenN l)%N then invalid "descriptor frame budget exceeded" else Ok (Some <$> l).
Definition take_descriptor (n : N) : D Fd :=
  s ← get;
  match slots s !! N.to_nat n with
  | Some (Some fd) => _ ← put (set_slots (<[N.to_nat n := None]> (slots s)) s); mret fd
  | _ => throw (InvalidData "invalid or duplicate descriptor reference")
  end.
Definition finish_descriptors : D unit :=
  s ← get;
  refuse (negb (forallb (λ d, negb (bool_decide (is_Some d))) (slots s)))
    (InvalidData "unreferenced control descriptor").
Definition take_fd (name : string) : D Fd := n ← take descriptor_codec name; take_descriptor n.
Fixpoint mapM_d {A C} (f : A → D C) (l : list A) : D (list C) :=
  match l with
  | [] => mret []
  | a :: l => c ← f a; k ← mapM_d f l; mret (c :: k)
  end.
Definition opt_d {A C} (f : A → D C) (o : option A) : D (option C) :=
  match o with Some a => c ← f a; mret (Some c) | None => mret None end.

(** ** The values of [handoff.rs] *)
Definition triple_codec : Codec (N * N * N) :=
  mkCodec (λ t, let '(a, b, c) := t in Ok (Array (descriptor <$> [a; b; c])))
    (λ v, match v with
          | Array [x; y; z] =>
              a ← from_value descriptor_codec x; b ← from_value descriptor_codec y;
              c ← from_value descriptor_codec z; Ok (a, b, c)
          | _ => Err (serde_error "an array of length 3" v)
          end).
Inductive WireStdio := WireFds (fds : N * N * N) | WireTty (slave : N) | WireNewPty (rows cols : N).
Definition wire_stdio (v : Value) : res string WireStdio :=
  kv ← tagged "kind" v;
  if string_eqb kv.1 "Fds" then
    f ← structure "struct variant WireStdio::Fds" ["fds"] kv.2;
    t ← field triple_codec f "fds"; Ok (WireFds t)
  else if string_eqb kv.1 "Tty" then
    f ← structure "struct variant WireStdio::Tty" ["slave"] kv.2;
    n ← field descriptor_codec f "slave"; Ok (WireTty n)
  else if string_eqb kv.1 "NewPty" then
    f ← structure "struct variant WireStdio::NewPty" ["rows"; "cols"] kv.2;
    rows ← field u16_codec f "rows"; cols ← field u16_codec f "cols"; Ok (WireNewPty rows cols)
  else Err (serde_error "variant identifier" (String_ kv.1)).
Definition decode_stdio (v : Value) : D Stdio :=
  w ← lift (other (wire_stdio v));
  match w with
  | WireFds (a, b, c) =>
      a ← take_descriptor a; b ← take_descriptor b; c ← take_descriptor c; mret (Fds a b c)
  | WireTty n => fd ← take_descriptor n; mret (Tty fd)
  | WireNewPty rows cols => mret (NewPty rows cols)
  end.

(** A source on the wire: that of a member with its descriptor's index. *)
Definition wire_source (v : Value) : res string Source :=
  kv ← tagged "kind" v;
  if string_eqb kv.1 "Host" then
    f ← structure "struct variant WireSource::Host" ["configuration"; "name"; "scope"; "dev_shell";
      "workspace"; "cwd"; "state"; "history"; "recreate"; "sequence"] kv.2;
    configuration ← field path_codec f "configuration"; name ← field string_codec f "name";
    scope ← field_opt string_codec f "scope"; dev_shell ← field_opt string_codec f "dev_shell";
    workspace ← field_opt path_codec f "workspace"; cwd ← field_opt path_codec f "cwd";
    state ← field path_codec f "state"; history ← field_opt path_codec f "history";
    recreate ← field_opt recreate_codec f "recreate"; sequence ← field u64_codec f "sequence";
    Ok (SourceHost configuration name scope dev_shell workspace cwd state history recreate sequence)
  else if string_eqb kv.1 "Member" then
    f ← structure "struct variant WireSource::Member" ["scope"; "owner_scope"; "manifest";
      "configuration"; "auto"; "state"; "history"] kv.2;
    scope ← field_opt descriptor_codec f "scope"; owner_scope ← field_opt string_codec f "owner_scope";
    manifest ← field path_codec f "manifest"; configuration ← field string_codec f "configuration";
    auto ← field (map_codec path_codec) f "auto"; state ← field path_codec f "state";
    history ← field_opt path_codec f "history";
    Ok (SourceMember scope owner_scope manifest configuration auto state history)
  else Err (serde_error "variant identifier" (String_ kv.1)).
Definition decode_source (v : Value) : D Source :=
  w ← lift (other (wire_source v));
  match w with
  | SourceMember scope owner_scope manifest configuration auto state history =>
      scope ← opt_d take_descriptor scope;
      mret (SourceMember scope owner_scope manifest configuration auto state history)
  | _ => mret w
  end.

Definition wire_preview (v : Value) : res string Preview :=
  f ← structure "struct WirePreview" ["output_path"; "in_store"; "download"; "build_required"] v;
  path ← field_opt path_codec f "output_path"; in_store ← field bool_codec f "in_store";
  download ← field_opt string_codec f "download"; build ← field bool_codec f "build_required";
  Ok (mkPreview path in_store download build).
Definition preview_codec : Codec Preview := mkCodec (λ _, Ok Null) wire_preview.
Definition decode_preview (v : Value) : res ChannelError (Preview + string) :=
  other (from_value (result_codec preview_codec string_codec) v).

(** ** Leases *)

(** [metadata]s of the lock and of the file the directory names. *)
Definition same_file (h : Host) (actual expected : Stat) : bool :=
  is_file actual && (uid actual =? getuid h)%N && is_file expected &&
  (dev actual =? dev expected)%N && (ino actual =? ino expected)%N.
Definition from_parts (h : Host) (directory : string) (fd : Fd) : res string ResourceLease :=
  if negb (is_absolute (bytes directory)) then Err "resource lease directory must be absolute" else
  actual ← fstat h fd;
  expected ← lstat h (text (join (bytes directory) (bytes ".gc-lease")));
  if same_file h actual expected then Ok (mkLease directory fd)
  else Err "resource lease descriptor does not match its directory".
Definition decode_lease (h : Host) (l : string * N) : D ResourceLease :=
  fd ← take_descriptor l.2; lift (other (from_parts h l.1 fd)).
Definition from_transfer (h : Host) (path : string) (root : option string) (fd : option Fd) :
    res string ManifestLease :=
  transfer ← match root, fd with
    | None, None => Ok None
    | Some root, Some fd =>
        actual ← fstat h fd; expected ← lstat h (root +:+ ".ownership");
        if same_file h actual expected then Ok (Some fd)
        else Err "invalid manifest ownership descriptor"
    | _, _ => Err "manifest root ownership descriptor missing or unexpected"
    end;
  Ok (mkManifestLease path root transfer).

(** ** Commands and events *)
Definition finish_with {T} (x : T) : D T := _ ← finish_fields; mret x.
Definition decode_command (name : string) : D Command :=
  c ← ((
    if string_eqb name "Command.Cancel" then id ← take u64_codec "id"; mret (Outbound.Cancel id)
    else if string_eqb name "Command.Stop" then mret Outbound.Stop
    else if string_eqb name "Command.RecordEvent" then
      event ← take string_codec "event"; f ← take_opaque (text_codec value_codec) "fields";
      mret (Outbound.RecordEvent event f)
    else if string_eqb name "Command.Attach" then
      terminal ← take terminal_codec "terminal"; stream ← take_fd "stream";
      rows ← take u16_codec "rows"; cols ← take u16_codec "cols";
      mret (Outbound.Attach (P := protocol_carried) terminal stream rows cols)
    else if string_eqb name "Command.Detach" then
      terminal ← take terminal_codec "terminal"; mret (Outbound.Detach terminal)
    else if string_eqb name "Command.Resize" then
      terminal ← take terminal_codec "terminal"; rows ← take u16_codec "rows";
      cols ← take u16_codec "cols"; mret (Outbound.Resize terminal rows cols)
    else if string_eqb name "Command.SandboxSend" then
      connection ← take u64_codec "connection"; m ← take_opaque (text_codec value_codec) "message";
      mret (Outbound.SandboxSend connection m)
    else if string_eqb name "Command.SandboxClose" then
      connection ← take u64_codec "connection"; mret (Outbound.SandboxClose connection)
    else if string_eqb name "Command.ScopeFailed" then mret Outbound.ScopeFailed
    else if string_eqb name "Command.ScopeMembership" then
      r ← take (result_codec descriptor_codec string_codec) "result";
      r ← match r with inl n => fd ← take_descriptor n; mret (inl fd) | inr e => mret (inr e) end;
      mret (Outbound.ScopeMembership (P := protocol_carried) r)
    else if string_eqb name "Command.Preview" then
      approval ← take u64_codec "approval"; package ← take string_codec "package";
      mret (Outbound.Preview approval package)
    else if string_eqb name "Command.Decide" then
      request ← take request_codec "request"; approved ← take bool_codec "approved";
      output ← take opt_path "output";
      mret (Outbound.Decide (P := protocol_carried) request approved output)
    else if string_eqb name "Command.Refresh" then
      approval ← take u64_codec "approval"; changes ← take changes_codec "changes";
      mret (Outbound.Refresh (P := protocol_carried) approval changes)
    else if string_eqb name "Command.Run" then
      serial ← take u64_codec "serial"; app ← take string_codec "app";
      mret (Outbound.Run serial app)
    else if string_eqb name "Command.Diff" then
      serial ← take u64_codec "serial"; changes ← take changes_codec "changes";
      mret (Outbound.Diff (P := protocol_carried) serial changes)
    else if string_eqb name "Command.Spawn" then
      id ← take u64_codec "id"; kind ← take spawn_kind_codec "kind";
      argv ← take (option_codec (list_codec string_codec)) "argv"; cwd ← take opt_string "cwd";
      env ← take env_codec "env"; v ← take value_codec "stdio"; stdio ← decode_stdio v;
      mret (Outbound.Spawn (P := protocol_carried) id kind argv cwd env stdio)
    else if string_eqb name "Command.Signal" then
      id ← take u64_codec "id"; signal ← take i32_codec "signal"; mret (Outbound.Signal id signal)
    else if string_eqb name "Command.CancelProcess" then
      id ← take u64_codec "id"; everything ← take bool_codec "everything";
      mret (Outbound.CancelProcess id everything)
    else if string_eqb name "Command.KillAll" then mret Outbound.KillAll
    else if string_eqb name "Command.Export" then
      member ← take string_codec "member"; mret (Outbound.Export member)
    else if string_eqb name "Command.PrepareHostJob" then
      request ← take string_codec "request"; cwd ← take path_codec "cwd";
      mret (Outbound.PrepareHostJob request cwd)
    else if string_eqb name "Command.RunHostJob" then
      request ← take string_codec "request"; argv ← take (list_codec string_codec) "argv";
      env ← take env_codec "env"; timeout ← take (option_codec u64_codec) "timeout";
      mret (Outbound.RunHostJob request argv env timeout)
    else if string_eqb name "Command.CancelHostJob" then
      request ← take string_codec "request"; mret (Outbound.CancelHostJob request)
    else throw (InvalidData "unknown supervisor command")) : D Command);
  finish_with c.

Definition decode_event (name : string) : D Event :=
  e ← ((
    if string_eqb name "Event.Failed" then error ← take string_codec "error"; mret (Failed error)
    else if string_eqb name "Event.InitLost" then mret InitLost
    else if string_eqb name "Event.PayloadExited" then mret PayloadExited
    else if string_eqb name "Event.ScopeFailed" then
      name ← take string_codec "name"; mret (EScopeFailed name)
    else if string_eqb name "Event.ScopeNeeded" then
      name ← take string_codec "name"; mret (ScopeNeeded name)
    else if string_eqb name "Event.Preview" then
      approval ← take u64_codec "approval"; v ← take value_codec "result";
      result ← lift (decode_preview v); mret (EPreview approval result)
    else if string_eqb name "Event.Started" then
      docker_enabled ← take bool_codec "docker_enabled"; policy ← take policy_codec "policy";
      support ← take support_codec "support"; dev_shell ← take_opaque opt_summary_text "dev_shell";
      identity ← take identity_codec "identity";
      recreated ← take (option_codec recreated_codec) "recreated"; auto ← take auto_codec "auto";
      mret (Started docker_enabled policy support dev_shell identity recreated auto)
    else if string_eqb name "Event.Progress" then
      request ← take string_codec "request"; state ← take string_codec "state";
      mret (Progress request state)
    else if string_eqb name "Event.Mode" then server ← take bool_codec "server"; mret (Mode server)
    else if string_eqb name "Event.Refresh" then
      approval ← take u64_codec "approval";
      result ← take_opaque (text_codec (result_codec (pair_codec value_codec string_codec) string_codec))
        "result";
      mret (ERefresh approval result)
    else if string_eqb name "Event.Call" then
      serial ← take u64_codec "serial";
      result ← take_opaque (text_codec (result_codec value_codec string_codec)) "result";
      mret (ECall serial result)
    else if string_eqb name "Event.DevShell" then
      summary ← take_opaque summary_text "summary"; mret (EDevShell summary)
    else if string_eqb name "Event.Granted" then
      reply ← take reply_codec "reply"; detail ← take opt_string "detail";
      output ← take opt_path "output"; mret (Granted reply detail output)
    else if string_eqb name "Event.Spawned" then
      id ← take u64_codec "id"; pid ← take i32_codec "pid"; mret (Spawned id pid)
    else if string_eqb name "Event.Terminal" then
      terminal ← take terminal_codec "terminal"; status ← take status_codec "status";
      error ← take opt_string "error"; mret (ETerminal terminal status error)
    else if string_eqb name "Event.SpawnFailed" then
      id ← take u64_codec "id"; code ← take opt_i32 "code"; message ← take string_codec "message";
      mret (SpawnFailed id code message)
    else if string_eqb name "Event.Exited" then
      id ← take u64_codec "id"; code ← take opt_i32 "code"; signal ← take opt_i32 "signal";
      mret (Exited id code signal)
    else if string_eqb name "Event.SandboxOpened" then
      connection ← take u64_codec "connection"; mret (SandboxOpened connection)
    else if string_eqb name "Event.SandboxCall" then
      connection ← take u64_codec "connection"; call ← take_opaque call_codec "call";
      mret (SandboxCall connection call)
    else if string_eqb name "Event.SandboxClosed" then
      connection ← take u64_codec "connection"; mret (SandboxClosed connection)
    else if string_eqb name "Event.HostJobPrepared" then
      request ← take string_codec "request";
      result ← take (result_codec path_codec string_codec) "result";
      mret (HostJobPrepared request result)
    else if string_eqb name "Event.HostJobFailed" then
      request ← take string_codec "request"; error ← take string_codec "error";
      mret (HostJobFailed request error)
    else if string_eqb name "Event.HostJobFinished" then
      request ← take string_codec "request";
      outcome ← take (result_codec outcome_codec string_codec) "outcome";
      mret (HostJobFinished request outcome)
    else if string_eqb name "Event.Stopped" then
      exit_code ← take opt_i32 "exit_code"; mret (Stopped exit_code)
    else throw (InvalidData "unknown supervisor event")) : D Event);
  finish_with e.

(** ** The decoder *)
Definition received_plain (m : Message) : D (option Received) := mret (Some (mkReceived m None)).

(** What completes a transfer: a member's start is checked once more. *)
Definition completed (p : Pending) : D (option Received) :=
  let m := complete p in
  _ ← lift (match m with MStart start => valid_start start | _ => Ok tt end);
  mret (Some (mkReceived m (Some (p_transfer p)))).
Definition receive_handoff (h : Host) (target : Target) (v : Value) (size : N) : D (option Received) :=
  s ← get;
  _ ← refuse (bool_decide (is_Some (pending s))) (InvalidData "overlapping handoff transfers");
  w ← lift (other (from_value wire_handoff_codec v));
  let present := lenN (w_leases w) in
  _ ← refuse ((w_transfer w =? 0)%N || (MAX_BODY <? w_count w)%N || (w_count w <? present)%N ||
              negb (Bool.eqb (w_more w) (present <? w_count w)%N))
        (InvalidData "invalid handoff descriptor count");
  directory ← opt_d (λ d, let '(n, source, destination) := d in
                fd ← take_descriptor n; mret (mkWorkingDirectory fd source destination)) (w_directory w);
  workspace ← take_descriptor (w_workspace w);
  dev_shell ← lift (other (from_text dev_shell_text (w_dev_shell w)));
  leases ← mapM_d (decode_lease h) (w_leases w);
  let p := mkPending target (mkHandoff leases workspace directory dev_shell (w_docker w))
             (w_transfer w) (w_count w) size in
  if w_more w then _ ← modify (set_pending (Some p)); mret None else completed p.

Definition receive_start (h : Host) (size : N) : D (option Received) :=
  api ← take u32_codec "supervisor_api";
  _ ← refuse (negb (api =? API)%N) (InvalidData "incompatible supervisor API");
  v ← take value_codec "source"; source ← decode_source v;
  directory ← take path_codec "directory";
  dimensions ← take (pair_codec u16_codec u16_codec) "dimensions";
  detached ← take bool_codec "detached"; payload_nofile ← take (option_codec u64_codec) "payload_nofile";
  s ← get;
  listener ← match object_get (fields s) "legacy_listener" with
    | Some v => _ ← put (set_fields (object_remove "legacy_listener" (fields s)) s);
        n ← lift (other (from_value (option_codec descriptor_codec) v)); opt_d take_descriptor n
    | None => mret None
    end;
  let start := mkStart api source directory dimensions detached payload_nofile listener None in
  handoff ← take (option_codec value_codec) "handoff";
  _ ← finish_fields;
  match handoff with
  | Some v => receive_handoff h (Startup start) v size
  | None => _ ← lift (valid_start start); received_plain (MStart start)
  end.

Definition extend_leases (l : list ResourceLease) (h : Handoff) : Handoff :=
  mkHandoff (leases h ++ l) (workspace h) (working_directory h) (dev_shell h) (docker h).
Definition receive_leases (h : Host) (size : N) : D (option Received) :=
  transfer ← take u64_codec "transfer"; l ← take (list_codec wire_lease_codec) "leases";
  more ← take bool_codec "more"; _ ← finish_fields;
  s ← get;
  p ← ok_or (pending s) (InvalidData "unexpected handoff batch");
  _ ← refuse (negb (transfer =? p_transfer p)%N || Outbound.is_nil l) (InvalidData "invalid handoff batch");
  size ← ok_or (u64_checked_add (p_bytes p) size) (InvalidData "control message too large");
  let p := mkPending (target p) (p_handoff p) (p_transfer p) (p_count p) size in
  _ ← modify (set_pending (Some p));
  _ ← refuse ((MAX_BODY <? p_bytes p)%N || (p_count p <? lenN (leases (p_handoff p)) + lenN l)%N)
        (InvalidData "handoff exceeds declared budget");
  k ← mapM_d (decode_lease h) l;
  let p := mkPending (target p) (extend_leases k (p_handoff p)) (p_transfer p) (p_count p) (p_bytes p) in
  _ ← modify (set_pending (Some p));
  _ ← refuse (negb (Bool.eqb more (lenN (leases (p_handoff p)) <? p_count p)%N))
        (InvalidData "invalid handoff continuation");
  if (more : bool) then mret None else _ ← modify (set_pending None); completed p.

Definition receive_exported (h : Host) (size : N) : D (option Received) :=
  member ← take string_codec "member"; result ← take (result_codec value_codec string_codec) "result";
  _ ← finish_fields;
  match result with
  | inl v => receive_handoff h (ExportedTo member) v size
  | inr e => received_plain (MEvent (Exported member (inr e)))
  end.
Definition receive_manifest (h : Host) : D (option Received) :=
  sequence ← take u64_codec "sequence"; path ← take path_codec "path"; root ← take opt_path "root";
  owner ← take (option_codec descriptor_codec) "owner"; fd ← opt_d take_descriptor owner;
  transfer ← take u64_codec "transfer"; _ ← finish_fields;
  _ ← refuse (transfer =? 0)%N (InvalidData "invalid ownership transfer id");
  lease ← lift (other (from_transfer h path root fd));
  mret (Some (mkReceived (MEvent (Manifest sequence lease)) (Some transfer))).
Definition receive_maintenance (h : Host) : D (option Received) :=
  api ← take u32_codec "supervisor_api"; operation ← take operation_codec "operation";
  stdout ← take_fd "stdout"; stderr ← take_fd "stderr"; _ ← finish_fields;
  let r := mkMaintenance api operation stdout stderr in
  _ ← lift (valid_maintenance h r); received_plain (MMaintenance r).
Definition receive_preflight : D (option Received) :=
  api ← take u32_codec "supervisor_api"; path ← take path_codec "path";
  directory ← take path_codec "directory"; sequence ← take u64_codec "sequence"; _ ← finish_fields;
  _ ← lift (valid_preflight api directory); received_plain (Preflight api path directory sequence).

Definition starts_with (p s : string) : bool := String.prefix p s.
Definition dispatch (h : Host) (name : string) (size : N) : D (option Received) :=
  if string_eqb name "SupervisorStart" then receive_start h size
  else if string_eqb name "Command.Start" then
    v ← take value_codec "handoff"; _ ← finish_fields; receive_handoff h StartCommand v size
  else if string_eqb name "Event.Exported" then receive_exported h size
  else if string_eqb name "Leases" then receive_leases h size
  else if string_eqb name "Event.Manifest" then receive_manifest h
  else if string_eqb name "Maintenance" then receive_maintenance h
  else if string_eqb name "MaintenanceFinished" then
    r ← take (result_codec unit_codec string_codec) "result"; _ ← finish_fields;
    received_plain (MaintenanceFinished r)
  else if string_eqb name "Preflight" then receive_preflight
  else if string_eqb name "PreflightFailed" then
    e ← take string_codec "error"; _ ← finish_fields; received_plain (PreflightFailed e)
  else if string_eqb name "Stopping" then _ ← finish_fields; received_plain Stopping
  else if string_eqb name "Released" then _ ← finish_fields; received_plain Released
  else if string_eqb name "Adopted" then
    transfer ← take u64_codec "transfer"; _ ← finish_fields; received_plain (Adopted transfer)
  else if starts_with "Command." name then c ← decode_command name; received_plain (MCommand c)
  else if starts_with "Event." name then e ← decode_event name; received_plain (MEvent e)
  else throw (InvalidData "unknown supervisor message").

(** The envelope of a frame: its method and parameters, nothing else. *)
Definition open_envelope (v : Value) : res ChannelError (string * list (string * Value)) :=
  envelope ← params_new v;
  vo ← remove_param "jsonrpc" envelope; version ← other (from_value string_codec vo.1);
  if negb (string_eqb version "2.0") then invalid "invalid supervisor protocol envelope" else
  vo ← remove_param "method" vo.2; name ← other (from_value string_codec vo.1);
  vo ← remove_param "params" vo.2; p ← params_new vo.1;
  _ ← params_finish vo.2;
  Ok (name, p).

(** The state is [Decoder { pending }]. *)
Definition receive_inner (h : Host) (f : Frame) : M (option Pending) ChannelError (option Received) :=
  λ held,
  let size := lenN (to_bytes (Channel.value f)) in
  if (MAX_BODY <? size)%N then (invalid "control message too large", held) else
  match d ← descriptors_new (fds f); np ← open_envelope (Channel.value f); Ok (d, np) with
  | Err e => (Err e, held)
  | Panic => (Panic, held)
  | Ok (d, (name, p)) =>
      let '(r, s) := (r ← dispatch h name size; _ ← finish_descriptors; mret r) (mkLocal p d held) in
      (r, pending s)
  end.
(** An error forgets the handoff in progress. *)
Definition receive_frame (h : Host) (f : Frame) : M (option Pending) ChannelError (option Received) :=
  λ held,
  match receive_inner h f held with
  | (Err e, _) => (Err e, None)
  | r => r
  end.
Definition finish_decoder : M (option Pending) ChannelError unit :=
  p ← get; _ ← put None; refuse (bool_decide (is_Some p)) (InvalidData "EOF during handoff transfer").

(** ** Receiving from the channel *)
Record Inbound := mkInbound { in_channel : Channel; in_pending : option Pending }.
Definition close_inbound (s : Inbound) : Inbound := mkInbound (Channel.close (in_channel s)) None.
Definition set_in_channel x (s : Inbound) : Inbound := mkInbound x (in_pending s).
Definition set_in_pending x (s : Inbound) : Inbound := mkInbound (in_channel s) x.
Definition settle_eof : M Inbound ChannelError (option Received) :=
  _ ← zoom in_pending set_in_pending finish_decoder; mret None.
(** [receive_channel]: the socket's answers left come back with the message. *)
Definition receive_channel (h : Host) (answers : list (Channel.Received * N)) (now : N) :
    M Inbound ChannelError (option Received * list (Channel.Received * N)) := λ s,
  match Channel.receive answers now (in_channel s) with
  | (Panic, c) => (Panic, set_in_channel c s)
  | (r, c) =>
      let rest := match r with Ok (_, rest) => rest | _ => [] end in
      let step := match r with
        | Ok (Some frame, _) => zoom in_pending set_in_pending (receive_frame h frame)
        | Ok (None, _) => if closed c then settle_eof else mret None
        | Err ConnectionReset => settle_eof
        | Err e => throw e
        | Panic => λ s, (Panic, s)
        end in
      match step (set_in_channel c s) with
      | (Ok m, s) => (Ok (m, rest), s)
      | (Err e, s) => (Err e, close_inbound s)
      | (Panic, s) => (Panic, s)
      end
  end.
End decoder.
