(* ===== verification/Writer.v ===== *)
(** * The writer of an actor

    [Writer] of [libs/runtime/src/supervisor/outbound.rs]: it commits one
    message at a time to the channel, lets a cancellation pass between two
    frames of a handoff, accounts for the sandbox output it has written, and
    keeps what it sent until the receiver adopted it. *)
From S2P Require Import Prelude Json Messages Framing Channel Codec Protocol.
From S2P Require Outbound.

Section writer.
Context `{JsonText} `{SerdeText} `{Payloads}.
Abbreviation Command := (@Outbound.Command protocol_carried).
Abbreviation Commands := (@Outbound.Commands protocol_carried).

Record Writer := mkWriter {
  current : option Prepared;
  priority : option Prepared;
  current_output : option (N * N);
  completed_output : option (N * N);
  held : gmap N PendingTransfer }.
Definition new_writer : Writer := mkWriter None None None None ∅.
Definition set_current x (w : Writer) : Writer :=
  mkWriter x (priority w) (current_output w) (completed_output w) (held w).
Definition set_priority x (w : Writer) : Writer :=
  mkWriter (current w) x (current_output w) (completed_output w) (held w).
Definition set_output x y (w : Writer) : Writer :=
  mkWriter (current w) (priority w) x y (held w).
Definition set_held x (w : Writer) : Writer :=
  mkWriter (current w) (priority w) (current_output w) (completed_output w) x.

(** What an actor writes with: [Writer], [Channel], [Commands], [Encoder]. *)
Record End := mkEnd {
  writer : Writer; channel : Channel; commands : Commands; encoder : Encoder }.
Definition set_writer x (e : End) : End := mkEnd x (channel e) (commands e) (encoder e).
Definition set_channel x (e : End) : End := mkEnd (writer e) x (commands e) (encoder e).
Definition set_commands x (e : End) : End := mkEnd (writer e) (channel e) x (encoder e).
Definition set_encoder x (e : End) : End := mkEnd (writer e) (channel e) (commands e) x.
Abbreviation W := (M End ChannelError).

Definition idle (e : End) : bool :=
  negb (bool_decide (is_Some (current (writer e)))) &&
  negb (bool_decide (is_Some (priority (writer e)))) && negb (wants_write (channel e)).
Definition drained (e : End) : bool := idle e && bool_decide (held (writer e) = ∅).
(** A refused message is handed back. *)
Definition begin (p : Prepared) (w : Writer) : option Prepared * Writer :=
  if bool_decide (is_Some (current w)) || bool_decide (is_Some (priority w)) then (Some p, w)
  else (None, set_current (Some p) w).

Definition flushed (answers : list Sent) : W unit := zoom channel set_channel (flush answers).
Definition queued (f : Frame) : W unit := λ e,
  match queue (Channel.value f) (fds f) (channel e) with (r, _, c) => (r, set_channel c e) end.

Definition done (o : option Prepared) : bool :=
  match o with Some p => Outbound.is_nil (frames p) | None => false end.
(** One slot of the loop of [completed]. *)
Definition settle_output : M Writer ChannelError unit := λ w,
  match current_output w with
  | None => (Ok tt, w)
  | Some n =>
      match completed_output w with
      | Some _ => (Panic, w)
      | None => (Ok tt, set_output None (Some n) w)
      end
  end.
Definition keep_pending (p : Prepared) : M Writer ChannelError unit :=
  pending ← lift (into_pending p);
  match pending with
  | None => mret tt
  | Some t =>
      w ← get;
      _ ← refuse (bool_decide (is_Some (held w !! p_transfer t)))
            (InvalidData "duplicate ownership transfer id");
      put (set_held (<[p_transfer t := t]> (held w)) w)
  end.
Definition complete_slot (main : bool) : M Writer ChannelError unit :=
  w ← get;
  match (if main then current w else priority w) with
  | Some p =>
      if Outbound.is_nil (frames p) then
        _ ← put (if main then set_current None w else set_priority None w);
        _ ← (if main then settle_output else mret tt);
        keep_pending p
      else mret tt
  | None => mret tt
  end.
Definition completed : W unit :=
  zoom writer set_writer (_ ← complete_slot false; complete_slot true).
Definition account_completed : W unit := modify (λ e,
  match completed_output (writer e) with
  | Some (connection, n) =>
      set_commands (Outbound.sandbox_written connection n (commands e))
        (set_writer (set_output (current_output (writer e)) None (writer e)) e)
  | None => e
  end).

(** The next frame of the message whose turn it is. *)
Definition next_frame (w : Writer) : option (Frame * Writer) :=
  let rest p l := mkPrepared l (original p) (transfer p) (adoption p) in
  match priority w with
  | Some p =>
      match frames p with f :: l => Some (f, set_priority (Some (rest p l)) w) | [] => None end
  | None =>
      match current w with
      | Some p =>
          match frames p with f :: l => Some (f, set_current (Some (rest p l)) w) | [] => None end
      | None => None
      end
  end.
Definition has_turn (w : Writer) : bool :=
  bool_decide (is_Some (priority w)) || bool_decide (is_Some (current w)).

(** [pump]: [a1] and [a2] are what the socket answers to its two flushes. *)
Definition pump (a1 a2 : list Sent) : W unit :=
  _ ← flushed a1;
  e ← get;
  if wants_write (channel e) then mret tt else
  _ ← completed;
  e ← get;
  if has_turn (writer e) then
    _ ← match next_frame (writer e) with
        | Some (f, w) => _ ← put (set_writer w e); _ ← queued f; flushed a2
        | None => mret tt
        end;
    e ← get;
    if wants_write (channel e) then mret tt else completed
  else mret tt.

Definition writer_adopted (id : N) : M Writer ChannelError unit :=
  w ← get;
  p ← ok_or (held w !! id) (InvalidData "unexpected ownership acknowledgement");
  let '(r, p) := pending_adopted id p in
  _ ← put (set_held (<[id := p]> (held w)) w);
  _ ← lift r;
  modify (λ w, set_held (delete id (held w)) w).
Definition close_end (e : End) : End := set_channel (close (channel e)) (set_writer new_writer e).

(** [pump_commands]: [a0] to the first flush, [k1] and [k2] to the preparation
    of a cancellation and of a command. *)
Definition commit_cancellation (h : Host) (k : Answers) : W unit :=
  e ← get;
  if bool_decide (is_Some (priority (writer e))) then mret tt else
  match Outbound.pop_cancellation (commands e) with
  | (Some c, commands) =>
      _ ← put (set_commands commands e);
      p ← zoom encoder set_encoder (prepare h k (MCommand c));
      modify (λ e, set_writer (set_priority (Some p) (writer e)) e)
  | (None, _) => mret tt
  end.
Definition is_record (c : Command) : bool :=
  match c with Outbound.RecordEvent _ _ => true | _ => false end.
Definition prepare_command (h : Host) (k : Answers) (c : Command) : W unit := λ e,
  match zoom encoder set_encoder (prepare h k (MCommand c)) e with
  | (Ok p, e) => (Ok tt, set_writer (set_current (Some p) (writer e)) e)
  | (Err error, e) =>
      if is_record c then (Ok tt, set_commands (Outbound.discard_record_event (commands e)) e)
      else (Err error, e)
  | (Panic, e) => (Panic, e)
  end.
Definition commit_command (h : Host) (k : Answers) : W unit :=
  e ← get;
  if has_turn (writer e) then mret tt else
  let popped := Outbound.pop (commands e) in
  _ ← put (set_commands popped.2 e);
  match popped.1 with
  | None => mret tt
  | Some c =>
      _ ← modify (λ e, set_writer (set_output (Outbound.sandbox_size c) (completed_output (writer e))
                         (writer e)) e);
      prepare_command h k c
  end.
Definition pump_commands (h : Host) (k1 k2 : Answers) (a0 a1 a2 : list Sent) : W unit :=
  _ ← flushed a0;
  e ← get;
  if wants_write (channel e) then mret tt else
  _ ← completed;
  _ ← account_completed;
  _ ← commit_cancellation h k1;
  _ ← commit_command h k2;
  _ ← pump a1 a2;
  account_completed.
End writer.
