(* ===== verification/CodecFacts.v ===== *)
(** * What a codec carries

    A value a codec writes is read back as what was written and holds no
    descriptor reference; one lemma per codec of [Codec]. *)
From S2P Require Import Prelude Json Grammar Messages Framing FramingFacts Channel ChannelSpec Codec.
From Stdlib Require Import Ascii.

Definition carried {T} (c : Codec T) (x : T) : Prop :=
  ∀ v, to_value c x = Ok v → from_value c v = Ok x ∧ refs v = Some [].
(** In an [Option] the value may not be null. *)
Definition solid {T} (c : Codec T) (x : T) : Prop :=
  carried c x ∧ ∀ v, to_value c x = Ok v → v ≠ Null.
Definition reads_back {T} (c : TextCodec T) (x : T) : Prop :=
  ∀ s, to_text c x = Ok s → from_text c s = Ok x.

Lemma res_bind_Ok {E A B} (m : res E A) (f : A → res E B) b :
  m ≫= f = Ok b ↔ ∃ a, m = Ok a ∧ f a = Ok b.
Proof. unfold mbind, res_bind. destruct m; naive_solver. Qed.
Lemma mapM_res_Ok {E A B} (f : A → res E B) l k :
  mapM_res f l = Ok k ↔ Forall2 (λ a b, f a = Ok b) l k.
Proof.
  revert k. induction l as [|a l IH]; intros k; simpl.
  - split; [intros [= <-]; constructor|by intros ->%Forall2_nil_inv_l].
  - rewrite res_bind_Ok. setoid_rewrite res_bind_Ok. setoid_rewrite IH. split.
    + intros (b & Hb & k' & Hk & [= <-]). by constructor.
    + intros (b & k' & Hb & Hk & ->)%Forall2_cons_inv_l. eauto.
Qed.

Lemma refs_object_plain o :
  "$fd" ∉ o.*1 → Forall (λ kv, refs kv.2 = Some []) o → refs (Object o) = Some [].
Proof.
  intros Hk Ho. rewrite refs_values.
  - clear Hk. induction Ho as [|kv o Hv _ IH]; [done|]. rewrite fmap_cons. simpl. by rewrite Hv, IH.
  - clear Ho. induction o as [|[k v] o IH]; [done|]. rewrite fmap_cons in Hk.
    apply not_elem_of_cons in Hk as [Hne Hk]. simpl. rewrite bool_decide_false by done. by apply IH.
Qed.
Lemma refs_array_plain l : Forall (λ v, refs v = Some []) l → refs (Array l) = Some [].
Proof.
  intros Hl. rewrite refs_array. induction Hl as [|v l Hv _ IH]; [done|]. simpl. by rewrite Hv, IH.
Qed.

Section codecs.
Context `{SerdeText}.

Lemma carried_unsigned greatest n : (n <= greatest)%N → carried (unsigned_codec greatest) n.
Proof.
  intros Hn v [= <-]. split; [|done]. cbn [from_value unsigned_codec].
  unfold within_z. rewrite (proj2 (Z.leb_le _ _)), (proj2 (Z.leb_le _ _)) by lia. simpl. by rewrite N2Z.id.
Qed.
Lemma carried_u16 n : (n <= 65535)%N → carried u16_codec n.
Proof. apply carried_unsigned. Qed.
Lemma carried_u32 n : (n <= 4294967295)%N → carried u32_codec n.
Proof. apply carried_unsigned. Qed.
Lemma carried_u64 n : (n <= u64_max)%N → carried u64_codec n.
Proof. apply carried_unsigned. Qed.
Lemma carried_i32 z : (-2147483648 <= z <= 2147483647)%Z → carried i32_codec z.
Proof.
  intros Hz v [= <-]. split; [|done]. cbn [from_value i32_codec]. unfold within_z.
  by rewrite (proj2 (Z.leb_le _ _)), (proj2 (Z.leb_le _ _)) by lia.
Qed.
Lemma carried_bool b : carried bool_codec b.
Proof. by intros v [= <-]. Qed.
Lemma carried_string s : carried string_codec s.
Proof. by intros v [= <-]. Qed.
Lemma carried_path s : carried path_codec s.
Proof. intros v. simpl. destruct (utf8 s); [|done]. by intros [= <-]. Qed.
Lemma carried_unit_like v : refs v = Some [] → carried value_codec v.
Proof. by intros Hv w [= <-]. Qed.

Lemma solid_unsigned greatest n : (n <= greatest)%N → solid (unsigned_codec greatest) n.
Proof. intros Hn. split; [by apply carried_unsigned|by intros v [= <-]]. Qed.
Lemma solid_u64 n : (n <= u64_max)%N → solid u64_codec n.
Proof. apply solid_unsigned. Qed.
Lemma solid_i32 z : (-2147483648 <= z <= 2147483647)%Z → solid i32_codec z.
Proof. intros Hz. split; [by apply carried_i32|by intros v [= <-]]. Qed.
Lemma solid_string s : solid string_codec s.
Proof. split; [apply carried_string|by intros v [= <-]]. Qed.
Lemma solid_path s : solid path_codec s.
Proof.
  split; [apply carried_path|]. intros v. simpl. destruct (utf8 s); [|done]. by intros [= <-].
Qed.

Lemma carried_option {T} (c : Codec T) o : (∀ x, o = Some x → solid c x) → carried (option_codec c) o.
Proof.
  intros Ho v. destruct o as [x|]; simpl.
  - intros Hv. destruct (Ho x eq_refl) as [Hc Hn]. destruct (Hc v Hv) as [Hf Hr]. split; [|done].
    specialize (Hn v Hv). destruct v; try done; by rewrite Hf.
  - by intros [= <-].
Qed.
Lemma solid_list {T} (c : Codec T) l : Forall (carried c) l → solid (list_codec c) l.
Proof.
  intros Hl. split; intros v (k & Hk & [= <-])%res_bind_Ok; [|done].
  apply mapM_res_Ok in Hk. split.
  - cbn [from_value list_codec]. apply mapM_res_Ok. apply Forall2_flip.
    revert Hl. induction Hk as [|x w l k Hx _ IH]; intros Hl; [constructor|].
    apply Forall_cons in Hl as [Hc Hl]. constructor; [by apply Hc|by apply IH].
  - apply refs_array_plain. revert Hl.
    induction Hk as [|x w l k Hx _ IH]; intros Hl; [constructor|].
    apply Forall_cons in Hl as [Hc Hl]. constructor; [by apply (Hc w)|by apply IH].
Qed.
Lemma carried_list {T} (c : Codec T) l : Forall (carried c) l → carried (list_codec c) l.
Proof. intros Hl. by apply solid_list. Qed.
Lemma carried_pair {A B} (a : Codec A) (b : Codec B) p :
  carried a p.1 → carried b p.2 → carried (pair_codec a b) p.
Proof.
  destruct p as [x y]. intros Ha Hb v (v1 & H1 & (v2 & H2 & [= <-])%res_bind_Ok)%res_bind_Ok.
  apply Ha in H1 as [F1 R1]. apply Hb in H2 as [F2 R2]. split.
  - simpl. by rewrite F1, F2.
  - by apply refs_array_plain; repeat constructor.
Qed.
Lemma carried_result {A B} (a : Codec A) (b : Codec B) r :
  match r with inl x => carried a x | inr e => carried b e end → carried (result_codec a b) r.
Proof.
  intros Hr v. destruct r as [x|e]; cbn [to_value result_codec];
    intros (w & Hw & [= <-])%res_bind_Ok; apply Hr in Hw as [Hf Hw]; split.
  1, 3: simpl; by rewrite Hf.
  all: apply refs_object_plain; [|by repeat constructor]; simpl; by intros ?%list_elem_of_singleton.
Qed.
Lemma carried_map {T} (c : Codec T) m :
  "$fd" ∉ m.*1 → Forall (λ kv, carried c kv.2) m → carried (map_codec c) m.
Proof.
  intros Hk Hm v (k & Hv & [= <-])%res_bind_Ok. apply mapM_res_Ok in Hv.
  assert (Forall2 (λ kv kw, kw.1 = kv.1 ∧ from_value c kw.2 = Ok kv.2 ∧ refs kw.2 = Some []) m k) as Hall.
  { clear Hk. revert Hm. induction Hv as [|kv kw m k Hx _ IH]; intros Hm; [constructor|].
    apply Forall_cons in Hm as [Hc Hm]. constructor; [|by apply IH].
    apply res_bind_Ok in Hx as (w & Hw & [= <-]). apply Hc in Hw. by destruct Hw. }
  clear Hv Hm. split.
  - cbn [from_value map_codec]. clear Hk. induction Hall as [|[x a] kw m k (H1 & H2 & _) _ IH]; [done|].
    cbn [mapM_res]. rewrite H2, H1. cbn [mbind res_bind]. by rewrite IH.
  - apply refs_object_plain.
    + assert (k.*1 = m.*1) as ->; [|done]. clear Hk.
      induction Hall as [|kv kw m k (H1 & _) _ IH]; [done|]. rewrite !fmap_cons. congruence.
    + clear Hk. induction Hall as [|kv kw m k (_ & _ & H3) _ IH]; by constructor.
Qed.

(** A descriptor's reference is read back and names it. *)
Lemma descriptor_reads_back n : (n <= u64_max)%N →
  from_value descriptor_codec (Object [("$fd", json_u64 n)]) = Ok n.
Proof.
  intros Hn. cbn [from_value descriptor_codec struct_fields].
  assert (forallb (λ kv : string * Value, bool_decide (kv.1 ∈ ["$fd"])) [("$fd", json_u64 n)] = true)
    as -> by (by vm_compute).
  apply (carried_u64 n Hn). done.
Qed.
Lemma descriptor_refs n : (n <= u64_max)%N → refs (Object [("$fd", json_u64 n)]) = Some [n].
Proof.
  intros Hn. cbn [refs object_get]. rewrite bool_decide_true by done.
  rewrite as_u64_json_u64; [done|]. unfold u64_max in Hn. unfold u64_modulus. lia.
Qed.
Lemma descriptor_carried n v : (n < MAX_FDS)%N → to_value descriptor_codec n = Ok v →
  from_value descriptor_codec v = Ok n ∧ refs v = Some [n].
Proof.
  intros Hn [= <-]. unfold MAX_FDS in Hn.
  assert (n <= u64_max)%N by (unfold u64_max; lia).
  split; [by apply descriptor_reads_back|by apply descriptor_refs].
Qed.
End codecs.

Create HintDb carried.
#[export] Hint Resolve carried_bool carried_string carried_path solid_string solid_path
  carried_u16 carried_u32 carried_u64 carried_i32 solid_u64 solid_i32 carried_list : carried.
