(* ===== verification/ProtocolFacts.v ===== *)
(** * A message in one frame

    What the encoder writes for each message but a handoff is what the
    decoder reads: the fields in the order they were put, the descriptors
    each referenced once. One lemma per message and descriptor-bearing value,
    by symbolic execution of both sides. *)
From S2P Require Import Prelude Json Grammar Messages Framing FramingFacts Channel ChannelSpec.
From S2P Require Import Paths Codec CodecFacts Protocol Handoff.
From S2P Require Outbound.
From Stdlib Require Import Ascii.

Lemma other_Ok {A} (r : res string A) a : other r = Ok a ↔ r = Ok a.
Proof. destruct r; naive_solver. Qed.

Section facts.
Context `{JsonText} `{SerdeText} `{Payloads}.

(** ** What each step of the encoder leaves *)
Lemma put_json_Ok k v b u b' :
  put_json k v b = (Ok u, b') ↔ b' = set_params (object_insert k v (params b)) b.
Proof.
  unfold put_json, modify. split; [intros Heq; by simplify_eq|intros ->; by destruct u].
Qed.
Lemma put_value_Ok {T} (c : Codec T) k (x : T) b u b' :
  put_value c k x b = (Ok u, b') ↔
  ∃ v, to_value c x = Ok v ∧ b' = set_params (object_insert k v (params b)) b.
Proof.
  unfold put_value. rewrite bind_Ok. split.
  - intros (v & s1 & [Hv%other_Ok ->]%lift_Ok & Hp%put_json_Ok). eauto.
  - intros (v & Hv & ->). exists v, b. by rewrite lift_Ok, other_Ok, put_json_Ok.
Qed.
Lemma put_opaque_Ok {T} (c : TextCodec T) k (x : T) b u b' :
  put_opaque c k x b = (Ok u, b') ↔
  ∃ s, to_text c x = Ok s ∧ b' = set_params (object_insert k (String_ s) (params b)) b.
Proof.
  unfold put_opaque. rewrite bind_Ok. split.
  - intros (s & s1 & [Hs%other_Ok ->]%lift_Ok & Hp%put_json_Ok). eauto.
  - intros (s & Hs & ->). exists s, b. by rewrite lift_Ok, other_Ok, put_json_Ok.
Qed.
Lemma owned_Ok fd b n b' :
  owned fd b = (Ok n, b') ↔
  (lenN (b_fds b) < MAX_FDS)%N ∧ n = lenN (b_fds b) ∧ b' = set_fds (b_fds b ++ [fd]) b.
Proof.
  unfold owned, get, put, mbind, M_bind, refuse.
  destruct (N.leb_spec MAX_FDS (lenN (b_fds b))); cbn.
  - split; [done|lia].
  - rewrite ret_Ok. naive_solver.
Qed.
Lemma cloned_Ok b u b' : cloned b = (Ok u, b') → ∃ cl, b' = set_clones cl b.
Proof.
  unfold cloned, get, put, throw, mbind, M_bind.
  destruct (clones b) as [|[e|] l] eqn:Hc; [|done|]; intros [= _ <-]; [|by eexists].
  exists []. rewrite <-Hc. by destruct b.
Qed.
Lemma put_fd_Ok fd b n b' :
  put_fd fd b = (Ok n, b') → ∃ cl,
  (lenN (b_fds b) < MAX_FDS)%N ∧ n = lenN (b_fds b) ∧ b' = set_fds (b_fds b ++ [fd]) (set_clones cl b).
Proof.
  unfold put_fd. rewrite bind_Ok. intros (u & b1 & (cl & ->)%cloned_Ok & Ho).
  apply owned_Ok in Ho as (? & -> & ->). by exists cl.
Qed.
Lemma json_of_Ok {T} (c : Codec T) (x : T) b v b' :
  json_of c x b = (Ok v, b') ↔ to_value c x = Ok v ∧ b' = b.
Proof.
  unfold json_of, mret, M_ret. destruct (to_value c x);
    (split; [intros Heq; by simplify_eq|intros [? ->]; by simplify_eq]).
Qed.

(** ** What each step of the decoder takes *)
Lemma take_json_run k o ds p v :
  object_get o k = Some v → take_json k (mkLocal o ds p) = (Ok v, mkLocal (object_remove k o) ds p).
Proof.
  intros Hv. unfold take_json, get, put, lift, remove_param, mbind, M_bind. cbn [fields]. by rewrite Hv.
Qed.
Lemma take_run {T} (c : Codec T) k o ds p v (x : T) :
  object_get o k = Some v → from_value c v = Ok x →
  take c k (mkLocal o ds p) = (Ok x, mkLocal (object_remove k o) ds p).
Proof.
  intros Hv Hx. unfold take. rewrite (bind_run _ _ _ _ _ (take_json_run _ _ _ _ _ Hv)).
  unfold lift. by rewrite Hx.
Qed.
Lemma take_opaque_run {T} (c : TextCodec T) k o ds p s (x : T) :
  object_get o k = Some (String_ s) → from_text c s = Ok x →
  take_opaque c k (mkLocal o ds p) = (Ok x, mkLocal (object_remove k o) ds p).
Proof.
  intros Hv Hx. unfold take_opaque. rewrite (bind_run _ _ _ s _ (take_run string_codec k o ds p _ s Hv eq_refl)).
  unfold lift. by rewrite Hx.
Qed.
Lemma take_descriptor_run n o ds p fd :
  ds !! N.to_nat n = Some (Some fd) →
  take_descriptor n (mkLocal o ds p) = (Ok fd, mkLocal o (<[N.to_nat n := None]> ds) p).
Proof. intros Hn. unfold take_descriptor, get, put, mbind, M_bind. cbn [slots]. by rewrite Hn. Qed.
Lemma take_fd_run k o ds p v n fd :
  object_get o k = Some v → from_value descriptor_codec v = Ok n → ds !! N.to_nat n = Some (Some fd) →
  take_fd k (mkLocal o ds p) = (Ok fd, mkLocal (object_remove k o) (<[N.to_nat n := None]> ds) p).
Proof.
  intros Hv Hn Hfd. unfold take_fd.
  rewrite (bind_run _ _ _ n _ (take_run _ _ _ _ _ _ _ Hv Hn)).
  by apply take_descriptor_run.
Qed.
Lemma opt_d_run {A C} (f : A → M Local ChannelError C) a s c s' :
  f a s = (Ok c, s') → opt_d f (Some a) s = (Ok (Some c), s').
Proof. intros Hf. cbn [opt_d]. by rewrite (bind_run _ _ _ _ _ Hf). Qed.
Lemma finish_run ds p : finish_fields (mkLocal [] ds p) = (Ok tt, mkLocal [] ds p).
Proof. done. Qed.

(** ** The references of a frame *)
Definition tidy (b : Builder) : Prop :=
  "$fd" ∉ (params b).*1 ∧ ∃ l, refs_list (params b).*2 = Some l ∧ l ≡ₚ indexes (lenN (b_fds b)).
Definition blank (l : list Fd) : list (option Fd) := (λ _, None) <$> l.
Definition all_slots (l : list Fd) : list (option Fd) := Some <$> l.

Lemma refs_cons v l a r : refs v = Some a → refs_list l = Some r → refs_list (v :: l) = Some (a ++ r).
Proof. simpl. by intros -> ->. Qed.
Lemma finish_with_run {X} (m : M Local ChannelError X) s x ds p :
  m s = (Ok x, mkLocal [] ds p) → (m ≫= finish_with) s = (Ok x, mkLocal [] ds p).
Proof. intros Hm. by rewrite (bind_run _ _ _ _ _ Hm). Qed.

(** A finished builder and the decoder that reads its frame: every
    descriptor is referenced once, and what is read takes every field and
    every descriptor and leaves the handoff in progress alone. *)
Record travels {X} (b : Builder) (decode : M Local ChannelError X) (x : X) : Prop := {
  travels_tidy : tidy b;
  travels_alone : following b = [];
  travels_few : (lenN (b_fds b) <= MAX_FDS)%N;
  travels_back : ∀ p, decode (mkLocal (params b) (all_slots (b_fds b)) p) =
                      (Ok x, mkLocal [] (blank (b_fds b)) p) }.
End facts.

(** Undo the steps of an encoder that succeeded. *)
Ltac enc_step :=
  match goal with
  | H : (_ ≫= _) _ = (Ok _, _) |- _ => apply bind_Ok in H as (? & ? & ? & H)
  | H : named _ _ = (Ok _, _) |- _ => injection H as; subst
  | H : put_value _ _ _ _ = (Ok _, _) |- _ => apply put_value_Ok in H as (? & ? & ->)
  | H : put_opaque _ _ _ _ = (Ok _, _) |- _ => apply put_opaque_Ok in H as (? & ? & ->)
  | H : put_fd _ _ = (Ok _, _) |- _ => apply put_fd_Ok in H as (? & ? & -> & ->)
  | H : owned _ _ = (Ok _, _) |- _ => apply owned_Ok in H as (? & -> & ->)
  | H : json_of _ _ _ = (Ok _, _) |- _ => apply json_of_Ok in H as [? ->]
  | H : lift _ _ = (Ok _, _) |- _ => apply lift_Ok in H as [? ->]
  | H : refuse _ _ _ = (Ok _, _) |- _ => apply refuse_Ok in H as [? ->]
  | H : mret _ _ = (Ok _, _) |- _ => apply ret_Ok in H as [? ->]; simplify_eq
  end.
(** Compute the builder an encoder left: its objects, whose keys are
    literals, and the numbers of its descriptors. *)
Ltac norm_builder :=
  cbv [set_method set_params set_fds set_following set_manifest set_clones new_builder
       method params b_fds following b_transfer manifest clones] in *;
  cbn [app] in *;
  repeat match goal with
  | |- context [object_insert ?k ?v ?o] =>
      lazymatch o with context [object_insert _ _ _] => fail | _ =>
        let t := eval vm_compute in (object_insert k v o) in change (object_insert k v o) with t end
  end;
  repeat match goal with
  | |- context [@lenN ?A ?l] =>
      let t := eval vm_compute in (@lenN A l) in
      match t with N0 => idtac | Npos _ => idtac end; change (@lenN A l) with t
  | H : context [@lenN ?A ?l] |- _ =>
      let t := eval vm_compute in (@lenN A l) in
      match t with N0 => idtac | Npos _ => idtac end; change (@lenN A l) with t in H
  end.
Ltac eval_names :=
  repeat match goal with
  | |- context [string_eqb ?a ?b] =>
      let t := eval vm_compute in (string_eqb a b) in change (string_eqb a b) with t; cbv iota
  end.
Ltac norm_lists :=
  repeat match goal with
  | |- context [object_remove ?k ?o] =>
      let t := eval vm_compute in (object_remove k o) in change (object_remove k o) with t
  | |- context [<[?n := None]> ?l] =>
      let t := eval cbn in (<[n := None]> l) in change (<[n := None]> l) with t
  end.
(** Split a hypothesis on the fields, and use it on the values written. *)
Ltac use_fits :=
  repeat match goal with H : _ ∧ _ |- _ => destruct H end;
  repeat match goal with
  | H : to_value descriptor_codec ?n = Ok ?v |- _ =>
      apply descriptor_carried in H as [? ?]; [|vm_compute; done]
  | H : to_value ?c ?x = Ok ?v |- _ =>
      let Hc := fresh "Hc" in
      assert (carried c x) as Hc by eauto 3 with carried;
      let Hf := fresh "Hf" in let Hr := fresh "Hr" in
      destruct (Hc v H) as [Hf Hr]; clear Hc H
  | Hr : reads_back ?c ?x, H : to_text ?c ?x = Ok ?s |- _ => apply Hr in H
  end.
Ltac no_marker := simpl; rewrite ?not_elem_of_cons; split_and?; try done; apply not_elem_of_nil.
Ltac all_refs :=
  cbn [fmap list_fmap fst snd]; repeat (eapply refs_cons; [eassumption || done|]); done.
Ltac tidy_up := split; [no_marker|]; eexists; split; [all_refs|]; rewrite ?app_nil_r; cbn; first [done|vm_compute; apply perm_swap].
Ltac dec_step :=
  first
  [ match goal with
    | |- (take_fd ?k ≫= _) (mkLocal ?o ?ds ?p) = _ =>
        erewrite (bind_run (take_fd k) _ (mkLocal o ds p));
        [|eapply take_fd_run; [reflexivity|eassumption|reflexivity]]
    | |- (take ?c ?k ≫= _) (mkLocal ?o ?ds ?p) = _ =>
        erewrite (bind_run (take c k) _ (mkLocal o ds p));
        [|eapply take_run; [reflexivity|first [eassumption|reflexivity]]]
    | |- (take_opaque ?c ?k ≫= _) (mkLocal ?o ?ds ?p) = _ =>
        erewrite (bind_run (take_opaque c k) _ (mkLocal o ds p));
        [|eapply take_opaque_run; [reflexivity|eassumption]]
    | |- (opt_d take_descriptor (Some ?n) ≫= _) (mkLocal ?o ?ds ?p) = _ =>
        erewrite (bind_run (opt_d take_descriptor (Some n)) _ (mkLocal o ds p));
        [|apply opt_d_run, take_descriptor_run; reflexivity]
    | |- (opt_d ?f None ≫= _) ?s = _ => rewrite (bind_run (opt_d f None) _ s None s eq_refl)
    | |- (take_descriptor ?n ≫= _) (mkLocal ?o ?ds ?p) = _ =>
        erewrite (bind_run (take_descriptor n) _ (mkLocal o ds p));
        [|apply take_descriptor_run; reflexivity]
    | |- (finish_fields ≫= _) (mkLocal [] ?ds ?p) = _ =>
        rewrite (bind_run finish_fields _ _ _ _ (finish_run ds p))
    | Hr : ?r = Ok ?a |- (lift ?r ≫= _) ?s = _ =>
        rewrite (lift_run r _ s a Hr)
    | Hc : ?c = false |- (refuse ?c ?e ≫= _) ?s = _ =>
        rewrite (refuse_run c e _ s Hc)
    end; norm_lists ].
Ltac few := cbn [b_fds]; unfold lenN, MAX_FDS; simpl; lia.
(** One message: what was encoded travels. *)
Ltac travel_with unfolding :=
  repeat enc_step; norm_builder; use_fits; split;
  [tidy_up
  |done
  |few
  |intros ?; unfolding; norm_builder; unfold all_slots, blank; cbn [fmap list_fmap];
   eval_names; apply finish_with_run; repeat dec_step; done].
Ltac norm_json :=
  repeat match goal with
  | |- context [json_object ?l] =>
      let t := eval vm_compute in (json_object l) in change (json_object l) with t
  end.
(** Read a derived struct whose object has literal keys. *)
Ltac open_tagged :=
  match goal with |- context [tagged ?k ?v] =>
    let t := eval vm_compute in (tagged k v) in change (tagged k v) with t end;
  cbn [mbind res_bind fst snd]; eval_names.
Ltac open_structure :=
  match goal with |- context [structure ?w ?names (Object ?o)] =>
    change (structure w names (Object o)) with (Ok (object_get o) : res string _) end;
  cbn [mbind res_bind].
Ltac read_field :=
  match goal with
  | |- context [field ?c (object_get ?o) ?k] =>
      let t := eval vm_compute in (object_get o k) in
      match t with Some ?v =>
        match goal with Hf : from_value ?c' v = Ok _ |- _ =>
          change (field c (object_get o) k) with (from_value c' v); rewrite Hf end end
  | |- context [field_opt ?c (object_get ?o) ?k] =>
      let t := eval vm_compute in (object_get o k) in
      match t with Some ?v =>
        match goal with Hf : from_value ?c' v = Ok _ |- _ =>
          change (field_opt c (object_get o) k) with (from_value c' v); rewrite Hf end end
  end; cbn [mbind res_bind].
