(* ===== verification/CommandTravels.v ===== *)
(** * Commands travel *)
From S2P Require Import Prelude Json Grammar Messages Framing FramingFacts Channel ChannelSpec.
From S2P Require Import Paths Codec CodecFacts Protocol Handoff ProtocolFacts.
From S2P Require Outbound.
From Stdlib Require Import Ascii.

Section facts.
Context `{JsonText} `{SerdeText} `{Payloads}.

(** What the fields of a command must be for its frame to carry them: the
    numbers in the range of their types, payloads whose serializers read
    back, and no descriptor markers but the protocol's own. *)
Definition u64_fits (n : N) : Prop := (n <= u64_max)%N.
Definition u16_fits (n : N) : Prop := (n <= 65535)%N.
Definition i32_fits (z : Z) : Prop := (-2147483648 <= z <= 2147483647)%Z.
Definition stdio_fits (s : Stdio) : Prop :=
  match s with NewPty rows cols => u16_fits rows ∧ u16_fits cols | _ => True end.
Definition command_fits (c : @Outbound.Command protocol_carried) : Prop :=
  match c with
  | Outbound.RecordEvent _ fields => reads_back (text_codec value_codec) fields
  | Outbound.Attach terminal _ rows cols | Outbound.Resize terminal rows cols =>
      carried terminal_codec terminal ∧ u16_fits rows ∧ u16_fits cols
  | Outbound.Detach terminal => carried terminal_codec terminal
  | Outbound.SandboxSend connection message =>
      u64_fits connection ∧ reads_back (text_codec value_codec) message
  | Outbound.SandboxClose n | Outbound.Preview n _ | Outbound.Run n _ | Outbound.Cancel n
  | Outbound.CancelProcess n _ => u64_fits n
  | Outbound.Decide request _ _ => carried request_codec request
  | Outbound.Refresh n changes | Outbound.Diff n changes => u64_fits n ∧ carried changes_codec changes
  | Outbound.Spawn id kind _ _ _ stdio =>
      u64_fits id ∧ carried spawn_kind_codec kind ∧ stdio_fits stdio
  | Outbound.Signal id signal => u64_fits id ∧ i32_fits signal
  | Outbound.RunHostJob _ _ _ timeout => ∀ n, timeout = Some n → u64_fits n
  | _ => True
  end.

Lemma carried_opt_string o : carried opt_string o.
Proof. apply carried_option. intros x _. apply solid_string. Qed.
Lemma carried_opt_path o : carried opt_path o.
Proof. apply carried_option. intros x _. apply solid_path. Qed.
Lemma carried_strings l : carried (list_codec string_codec) l.
Proof. apply carried_list, Forall_true. intros x. apply carried_string. Qed.
Lemma carried_argv o : carried (option_codec (list_codec string_codec)) o.
Proof. apply carried_option. intros x _. apply solid_list, Forall_true. intros y. apply carried_string. Qed.
Lemma carried_env l : carried env_codec l.
Proof. apply carried_list, Forall_true. intros [x y]. apply carried_pair; apply carried_string. Qed.
Lemma carried_opt_u64 o : (∀ n, o = Some n → u64_fits n) → carried (option_codec u64_codec) o.
Proof. intros Ho. apply carried_option. intros x Hx. by apply solid_u64, Ho. Qed.
End facts.
#[export] Hint Resolve carried_opt_string carried_opt_path carried_strings carried_argv carried_env
  carried_opt_u64 : carried.

Section travel.
Context `{JsonText} `{SerdeText} `{Payloads}.

Definition is_start (c : @Outbound.Command protocol_carried) : bool :=
  match c with Outbound.Start _ => true | _ => false end.

(** The descriptor of a membership, or why there is none. *)
Lemma result_fd_carried n v : (n < MAX_FDS)%N →
  to_value (result_codec descriptor_codec string_codec) (inl n) = Ok v →
  from_value (result_codec descriptor_codec string_codec) v = Ok (inl n) ∧ refs v = Some [n].
Proof.
  intros Hn (w & Hw & [= <-])%res_bind_Ok. apply (descriptor_carried n w Hn) in Hw as [Hf Hr].
  split.
  - cbn [from_value result_codec]. eval_names. by rewrite Hf.
  - rewrite refs_values by done. by apply (refs_cons w [] [n] []).
Qed.

(** ** Standard streams *)
Lemma triple_carried a b c : (a < MAX_FDS)%N → (b < MAX_FDS)%N → (c < MAX_FDS)%N →
  let v := Array (descriptor <$> [a; b; c]) in
  from_value triple_codec v = Ok (a, b, c) ∧ refs v = Some [a; b; c].
Proof.
  unfold descriptor. intros Ha Hb Hc.
  destruct (descriptor_carried a _ Ha eq_refl) as [Fa Ra].
  destruct (descriptor_carried b _ Hb eq_refl) as [Fb Rb].
  destruct (descriptor_carried c _ Hc eq_refl) as [Fc Rc]. split.
  - unfold triple_codec. cbn [from_value fmap list_fmap]. by rewrite Fa, Fb, Fc.
  - rewrite refs_array. cbn [fmap list_fmap].
    change [a; b; c] with ([a] ++ [b] ++ [c] ++ []). by do 3 (apply refs_cons; [done|]).
Qed.
Lemma wire_stdio_fds v t : from_value triple_codec v = Ok t →
  wire_stdio (json_object [("kind", String_ "Fds"); ("fds", v)]) = Ok (WireFds t).
Proof.
  intros Hv. unfold wire_stdio. cbn [json_object]. 
  change (tagged "kind" _) with (Ok ("Fds", Object [("fds", v)]) : res string _).
  cbn [mbind res_bind fst snd]. eval_names.
  change (structure _ ["fds"] _) with (Ok (object_get [("fds", v)]) : res string _).
  cbn [mbind res_bind]. change (field triple_codec _ _) with (from_value triple_codec v). by rewrite Hv.
Qed.
Lemma wire_stdio_tty v n : from_value descriptor_codec v = Ok n →
  wire_stdio (json_object [("kind", String_ "Tty"); ("slave", v)]) = Ok (WireTty n).
Proof.
  intros Hv. unfold wire_stdio.
  change (tagged "kind" _) with (Ok ("Tty", Object [("slave", v)]) : res string _).
  cbn [mbind res_bind fst snd]. eval_names.
  change (structure _ ["slave"] _) with (Ok (object_get [("slave", v)]) : res string _).
  cbn [mbind res_bind]. change (field descriptor_codec _ _) with (from_value descriptor_codec v).
  by rewrite Hv.
Qed.
Lemma wire_stdio_pty v w rows cols : from_value u16_codec v = Ok rows → from_value u16_codec w = Ok cols →
  wire_stdio (json_object [("kind", String_ "NewPty"); ("rows", v); ("cols", w)]) = Ok (WireNewPty rows cols).
Proof.
  intros Hv Hw. unfold wire_stdio.
  change (tagged "kind" _) with (Ok ("NewPty", Object [("cols", w); ("rows", v)]) : res string _).
  cbn [mbind res_bind fst snd]. eval_names.
  change (structure _ ["rows"; "cols"] _) with (Ok (object_get [("cols", w); ("rows", v)]) : res string _).
  cbn [mbind res_bind]. change (field u16_codec _ "rows") with (from_value u16_codec v). rewrite Hv.
  cbn [mbind res_bind]. change (field u16_codec _ "cols") with (from_value u16_codec w). by rewrite Hw.
Qed.

Definition stdio_fds (s : Stdio) : list Fd :=
  match s with Fds a b c => [a; b; c] | Tty a => [a] | NewPty _ _ => [] end.
Lemma encode_stdio_Ok s b v b' : stdio_fits s → b_fds b = [] → encode_stdio s b = (Ok v, b') → ∃ cl,
  b' = set_fds (stdio_fds s) (set_clones cl b) ∧
  refs v = Some (indexes (lenN (stdio_fds s))) ∧
  ∀ p o, decode_stdio v (mkLocal o (all_slots (stdio_fds s)) p) = (Ok s, mkLocal o (blank (stdio_fds s)) p).
Proof.
  intros Hfit Hb Henc. destruct b as [mt ps l fol tr mf cl]. cbn [b_fds] in Hb. subst l.
  destruct s as [x y z|x|rows cols]; cbn [encode_stdio stdio_fits stdio_fds] in *; repeat enc_step; norm_builder.
  - eexists. split; [done|].
    destruct (triple_carried 0 1 2) as [Hf Hr]; [done..|]. split; [done|]. intros p o.
    unfold decode_stdio. rewrite (wire_stdio_fds _ _ Hf). cbn [other map_err].
    rewrite (bind_run (lift _) _ _ _ _ eq_refl). cbv iota beta. by repeat dec_step.
  - eexists. split; [done|].
    destruct (descriptor_carried 0 _ ltac:(done) eq_refl) as [Hf Hr]. split; [done|]. intros p o.
    unfold decode_stdio. unfold descriptor. rewrite (wire_stdio_tty _ _ Hf). cbn [other map_err].
    rewrite (bind_run (lift _) _ _ _ _ eq_refl). cbv iota beta. by repeat dec_step.
  - exists cl. split; [done|]. destruct Hfit as [Hr Hc]. split; [done|]. intros p o.
    unfold decode_stdio, json_u64.
    rewrite (wire_stdio_pty _ _ rows cols (proj1 (carried_u16 _ Hr _ eq_refl)) (proj1 (carried_u16 _ Hc _ eq_refl))).
    cbn [other map_err]. by rewrite (bind_run (lift _) _ _ _ _ eq_refl).
Qed.

Lemma command_travels c tr cl b :
  command_fits c → is_start c = false → encode_command c (new_builder "" tr cl) = (Ok tt, b) →
  travels b (decode_command (method b)) c.
Proof.
  intros Hfit Hs Henc. destruct c; try discriminate Hs; cbn [encode_command command_fits] in *.
  all: try (travel_with ltac:(unfold decode_command)).
  - destruct result as [fd|e]; cbn [result_fd] in Henc.
    + repeat enc_step. norm_builder.
      match goal with H : to_value _ (inl _) = Ok _ |- _ => apply result_fd_carried in H as [? ?]; [|done] end.
      travel_with ltac:(unfold decode_command).
    + repeat enc_step. norm_builder.
      match goal with H : to_value ?c ?x = Ok _ |- _ =>
        assert (carried c x) by apply carried_result, carried_string end.
      travel_with ltac:(unfold decode_command).
  - repeat enc_step.
    match goal with H : encode_stdio _ _ = _ |- _ =>
      apply encode_stdio_Ok in H as (? & -> & Hr & Hd); [|naive_solver|done] end.
    repeat enc_step. match goal with H : to_value value_codec _ = Ok _ |- _ => injection H as <- end.
    norm_builder. use_fits. split; [|done|destruct stdio; few|].
    + split; [no_marker|]. eexists. split; [all_refs|]. by rewrite !app_nil_r.
    + intros p. unfold decode_command. eval_names. apply finish_with_run.
      do 6 dec_step. rewrite (bind_run _ _ _ _ _ (Hd _ _)). done.
Qed.
End travel.
