(* ===== verification/EventTravels.v ===== *)
(** * Events travel *)
From S2P Require Import Prelude Json Grammar Messages Framing FramingFacts Channel ChannelSpec.
From S2P Require Import Paths Codec CodecFacts Protocol Handoff ProtocolFacts CommandTravels.
From S2P Require Outbound.
From Stdlib Require Import Ascii.

Section facts.
Context `{JsonText} `{SerdeText} `{Payloads}.

(** Events that are no transfer of ownership, read by [decode_event]. *)
Definition is_plain_event (e : Event) : bool :=
  match e with Manifest _ _ | Exported _ _ => false | _ => true end.
Definition opt_i32_fits (o : option Z) : Prop := ∀ z, o = Some z → i32_fits z.
Definition event_fits (e : Event) : Prop :=
  match e with
  | Manifest sequence _ => u64_fits sequence
  | EPreview approval _ => u64_fits approval
  | Started _ policy support dev_shell identity recreated auto =>
      carried policy_codec policy ∧ carried support_codec support ∧
      reads_back opt_summary_text dev_shell ∧ carried identity_codec identity ∧
      (∀ x, recreated = Some x → solid recreated_codec x) ∧ carried auto_codec auto
  | ERefresh approval result => u64_fits approval ∧
      reads_back (text_codec (result_codec (pair_codec value_codec string_codec) string_codec)) result
  | ECall serial result => u64_fits serial ∧
      reads_back (text_codec (result_codec value_codec string_codec)) result
  | EDevShell summary => reads_back summary_text summary
  | Granted reply _ _ => carried reply_codec reply
  | Spawned id pid => u64_fits id ∧ i32_fits pid
  | ETerminal terminal status _ => carried terminal_codec terminal ∧ carried status_codec status
  | SpawnFailed id code _ => u64_fits id ∧ opt_i32_fits code
  | Exited id code signal => u64_fits id ∧ opt_i32_fits code ∧ opt_i32_fits signal
  | SandboxOpened connection | SandboxClosed connection => u64_fits connection
  | SandboxCall connection call => u64_fits connection ∧ reads_back call_codec call
  | HostJobFinished _ outcome => carried (result_codec outcome_codec string_codec) outcome
  | Stopped exit_code => opt_i32_fits exit_code
  | _ => True
  end.

Lemma carried_opt_i32 o : opt_i32_fits o → carried opt_i32 o.
Proof. intros Ho. apply carried_option. intros x Hx. by apply solid_i32, Ho. Qed.
Lemma carried_opt_recreated o : (∀ x, o = Some x → solid recreated_codec x) →
  carried (option_codec recreated_codec) o.
Proof. apply carried_option. Qed.
Lemma carried_path_result r : carried (result_codec path_codec string_codec) r.
Proof. apply carried_result. destruct r; [apply carried_path|apply carried_string]. Qed.
End facts.
#[export] Hint Resolve carried_opt_i32 carried_opt_recreated carried_path_result : carried.

Section travel.
Context `{JsonText} `{SerdeText} `{Payloads}.

(** ** Previews *)
Lemma wire_preview_run path st down build x y :
  from_value opt_path x = Ok path → from_value opt_string y = Ok down →
  wire_preview (json_object [("output_path", x); ("in_store", Bool st); ("download", y);
    ("build_required", Bool build)]) = Ok (mkPreview path st down build).
Proof.
  intros Hx Hy. unfold wire_preview.
  change (structure _ _ _) with (Ok (object_get [("build_required", Bool build); ("download", y);
    ("in_store", Bool st); ("output_path", x)]) : res string _).
  cbn [mbind res_bind].
  change (field_opt path_codec _ _) with (from_value opt_path x).
  change (field_opt string_codec _ _) with (from_value opt_string y).
  by rewrite Hx, Hy.
Qed.
Lemma encode_preview_Ok r b v b' : encode_preview r b = (Ok v, b') →
  b' = b ∧ decode_preview v = Ok r ∧ refs v = Some [].
Proof.
  destruct r as [[path st down build]|e]; cbn [encode_preview output_path download in_store build_required];
    intros Henc; repeat enc_step; (split; [done|]).
  - match goal with
    | H1 : to_value opt_path _ = Ok _, H2 : to_value opt_string _ = Ok _ |- _ =>
        apply carried_opt_path in H1 as [F1 R1]; apply carried_opt_string in H2 as [F2 R2] end.
    unfold decode_preview.
    match goal with |- context [json_object [("Ok", ?x)]] =>
      change (json_object [("Ok", x)]) with (Object [("Ok", x)]) end.
    cbn [from_value result_codec preview_codec]. eval_names.
    rewrite (wire_preview_run path st down build _ _ F1 F2). split; [done|].
    apply refs_object_plain; [no_marker|]. repeat constructor. cbn [snd].
    apply refs_object_plain; [no_marker|]. by repeat constructor.
  - split; [|done]. done.
Qed.

Lemma event_travels e root tr cl b :
  event_fits e → is_plain_event e = true →
  encode_event e (set_manifest root (new_builder "" tr cl)) = (Ok tt, b) →
  travels b (decode_event (method b)) e.
Proof.
  intros Hfit Hs Henc. destruct e; try discriminate Hs; cbn [encode_event event_fits] in *.
  all: try (travel_with ltac:(unfold decode_event)).
  repeat enc_step. match goal with H : encode_preview _ _ = _ |- _ =>
    apply encode_preview_Ok in H as (-> & Hd & Hr) end.
  repeat enc_step. match goal with H : to_value value_codec _ = Ok _ |- _ => injection H as <- end.
  norm_builder. use_fits. split; [tidy_up|done|few|].
  intros p. unfold decode_event. eval_names. apply finish_with_run. do 2 dec_step.
  rewrite (lift_run _ _ _ _ Hd). done.
Qed.
End travel.
