(* ===== verification/MessageTravels.v ===== *)
(** * Messages of one frame travel

    Every message that hands nothing over, and the manifest event, from the
    builder to what the decoder returns. *)
From S2P Require Import Prelude Json Grammar Messages Framing FramingFacts Channel ChannelSpec.
From S2P Require Import Paths Codec CodecFacts Protocol Handoff ProtocolFacts CommandTravels EventTravels.
From S2P Require Outbound.
From Stdlib Require Import Ascii.

Section source.
Context `{JsonText} `{SerdeText} `{Payloads}.

(** ** Sources *)
Definition source_fits (s : Source) : Prop :=
  match s with
  | SourceHost _ _ _ _ _ _ _ _ recreate sequence =>
      (∀ x, recreate = Some x → solid recreate_codec x) ∧ u64_fits sequence
  | SourceMember _ _ _ _ auto _ _ => "$fd" ∉ auto.*1
  end.
Definition source_fds (s : Source) : list Fd :=
  match s with SourceMember scope _ _ _ _ _ _ => option_list scope | _ => [] end.
Lemma carried_auto auto : "$fd" ∉ auto.*1 → carried (map_codec path_codec) auto.
Proof. intros Ha. apply carried_map; [done|]. apply Forall_true. intros x. apply carried_path. Qed.
Lemma carried_recreate o : (∀ x, o = Some x → solid recreate_codec x) →
  carried (option_codec recreate_codec) o.
Proof. apply carried_option. Qed.
#[local] Hint Resolve carried_auto carried_recreate : carried.
Lemma some_descriptor_carried n v : (n < MAX_FDS)%N →
  to_value (option_codec descriptor_codec) (Some n) = Ok v →
  from_value (option_codec descriptor_codec) v = Ok (Some n) ∧ refs v = Some [n].
Proof.
  intros Hn Hv. destruct (descriptor_carried n v Hn Hv) as [Hf Hr]. split; [|done].
  injection Hv as <-. cbn [from_value option_codec]. by rewrite Hf.
Qed.
Lemma no_descriptor_carried v : to_value (option_codec descriptor_codec) None = Ok v →
  from_value (option_codec descriptor_codec) v = Ok None ∧ refs v = Some [].
Proof. by intros [= <-]. Qed.

Lemma encode_source_Ok s b v b' : source_fits s → b_fds b = [] → encode_source s b = (Ok v, b') → ∃ cl,
  b' = set_fds (source_fds s) (set_clones cl b) ∧
  refs v = Some (indexes (lenN (source_fds s))) ∧
  ∀ p o rest, decode_source v (mkLocal o (all_slots (source_fds s) ++ rest) p) =
              (Ok s, mkLocal o (blank (source_fds s) ++ rest) p).
Proof.
  intros Hfit Hb Henc. destruct b as [mt ps l fol tr mf cl]. cbn [b_fds] in Hb. subst l.
  destruct s as [configuration name scope shell ws cwd state history recreate sequence
    |scope owner manifest configuration auto state history];
    cbn [encode_source source_fits source_fds] in *.
  - repeat enc_step. use_fits. exists cl. split; [done|]. split.
    { norm_json.
      apply refs_object_plain; [no_marker|]. repeat constructor; done. }
    intros p o rest. unfold decode_source, wire_source. open_tagged. open_structure.
    repeat read_field. done.
  - destruct scope as [fd|]; cbn [opt_b option_list] in *; repeat enc_step; norm_builder;
      match goal with
      | H : to_value (option_codec descriptor_codec) (Some _) = Ok _ |- _ =>
          apply some_descriptor_carried in H as [? ?]; [|done]
      | H : to_value (option_codec descriptor_codec) None = Ok _ |- _ =>
          apply no_descriptor_carried in H as [? ?]
      end; use_fits; eexists; (split; [done|]); (split;
        [norm_json; rewrite refs_values by done; etrans; [all_refs|done]|]);
      intros p o rest; unfold decode_source, wire_source; open_tagged; open_structure;
      repeat read_field; by repeat dec_step.
Qed.
End source.

Section messages.
Context `{JsonText} `{SerdeText} `{Payloads}.
Abbreviation Command := (@Outbound.Command protocol_carried).

(** ** Which entry of the decoder a message reaches *)
Lemma encode_stdio_method s b v b' : encode_stdio s b = (Ok v, b') → method b' = method b.
Proof. destruct s; cbn [encode_stdio]; intros He; by repeat enc_step. Qed.
Lemma command_dispatch h size (c : Command) tr cl b : is_start c = false →
  encode_command c (new_builder "" tr cl) = (Ok tt, b) →
  dispatch h (method b) size = (c ← decode_command (method b); received_plain (MCommand c)).
Proof.
  intros Hs He. destruct c; try discriminate Hs; cbn [encode_command] in He;
    try (by repeat enc_step).
  - destruct result; cbn [result_fd] in He; by repeat enc_step.
  - repeat enc_step. match goal with H : encode_stdio _ _ = _ |- _ =>
      apply encode_stdio_method in H as Hm end.
    cbn [method set_params]. by rewrite Hm.
Qed.
Lemma encode_preview_same r b v b' : encode_preview r b = (Ok v, b') → b' = b.
Proof. by intros (-> & _)%encode_preview_Ok. Qed.
Lemma event_dispatch h size e root tr cl b : is_plain_event e = true →
  encode_event e (set_manifest root (new_builder "" tr cl)) = (Ok tt, b) →
  dispatch h (method b) size = (e ← decode_event (method b); received_plain (MEvent e)).
Proof.
  intros Hs He. destruct e; try discriminate Hs; cbn [encode_event] in He;
    repeat (enc_step || match goal with H : encode_preview _ _ = _ |- _ =>
      apply encode_preview_same in H as -> end); done.
Qed.
Lemma travels_then {X Y} b (m : M Local ChannelError X) (f : X → Y) x :
  travels b m x → travels b (x ← m; mret (f x)) (f x).
Proof.
  intros [Ht1 Ht2 Ht3 Ht4]. split; [done..|]. intros p. by rewrite (bind_run _ _ _ _ _ (Ht4 p)).
Qed.

(** ** Messages *)
Definition handoff_fits (h : Handoff) : Prop := reads_back dev_shell_text (dev_shell h).
Definition message_fits (m : Message) : Prop :=
  match m with
  | MStart s => source_fits (source s) ∧ (∀ n, payload_nofile s = Some n → u64_fits n) ∧
      (∀ h, handoff s = Some h → handoff_fits h)
  | MMaintenance r => carried operation_codec (operation r)
  | Preflight _ _ _ sequence => u64_fits sequence
  | MCommand (Outbound.Start h) => handoff_fits h
  | MCommand c => command_fits c
  | MEvent (Exported _ (inl h)) => handoff_fits h
  | MEvent e => event_fits e
  | Adopted transfer => u64_fits transfer
  | _ => True
  end.
Definition handed (m : Message) : option Handoff :=
  match m with
  | MStart s => handoff s
  | MCommand (Outbound.Start h) => Some (h : Handoff)
  | MEvent (Exported _ (inl h)) => Some h
  | _ => None
  end.

(** What the receiver's host must know: that a lock is the one its directory
    names, that an output is writable. *)
Definition lease_known (h : Host) (l : ResourceLease) : Prop := from_parts h (directory l) (lock l) = Ok l.
Definition sent_lease (root : option Fd) (l : ManifestLease) : ManifestLease :=
  mkManifestLease (ml_path l) (ml_root l) root.
Definition host_accepts (h : Host) (root : option Fd) (m : Message) : Prop :=
  match m with
  | MEvent (Manifest _ l) => from_transfer h (ml_path l) (ml_root l) root = Ok (sent_lease root l)
  | MMaintenance r => valid_maintenance h r = Ok tt
  | _ => ∀ x, handed m = Some x → Forall (lease_known h) (leases x)
  end.
(** What arrives: the message, a manifest with the lock that was sent. *)
Definition arrival (root : option Fd) (m : Message) : Message :=
  match m with MEvent (Manifest sequence l) => MEvent (Manifest sequence (sent_lease root l)) | _ => m end.
Definition delivery (root : option Fd) (tr : N) (m : Message) : option Received :=
  Some (mkReceived (arrival root m) (if needs_adoption m then Some tr else None)).

Lemma valid_start_cases s : valid_start s = Ok tt →
  supervisor_api s = API ∧ ((dimensions s).1 <= 65535)%N ∧ ((dimensions s).2 <= 65535)%N.
Proof.
  unfold valid_start, invalid. destruct (N.eqb_spec (supervisor_api s) API) as [Ha|]; [|done]. cbn [negb].
  destruct (is_absolute _); [|done]. cbn [negb orb].
  destruct (within 1 1000 (dimensions s).1) eqn:Hw1; [|done].
  destruct (within 1 1000 (dimensions s).2) eqn:Hw2; [|done]. intros _.
  unfold within in *. rewrite andb_true_iff, !N.leb_le in *. lia.
Qed.

(** The descriptor of an option, in place. *)
Lemma opt_descriptor_carried o v : (∀ n, o = Some n → (n < MAX_FDS)%N) →
  to_value (option_codec descriptor_codec) o = Ok v →
  from_value (option_codec descriptor_codec) v = Ok o ∧ refs v = Some (option_list o).
Proof.
  intros Ho Hv. destruct o as [n|]; [|by apply no_descriptor_carried].
  apply some_descriptor_carried; [by apply Ho|done].
Qed.
Lemma carried_unit_result r : carried (result_codec unit_codec string_codec) r.
Proof. apply carried_result. destruct r as [[]|e]; [by intros v [= <-]|apply carried_string]. Qed.

Lemma maintenance_travels h h' r root tr cl size b :
  carried operation_codec (operation r) → valid_maintenance h' r = Ok tt →
  encode_message h (MMaintenance r) (set_manifest root (new_builder "" tr cl)) = (Ok tt, b) →
  travels b (dispatch h' (method b) size) (Some (mkReceived (MMaintenance r) None)).
Proof.
  intros Hop Hv He. cbn [encode_message] in He. repeat enc_step.
  assert (m_api r = API) as Ha.
  { revert Hv. unfold valid_maintenance. by destruct (N.eqb_spec (m_api r) API). }
  norm_builder. assert (carried u32_codec (m_api r)) by (rewrite Ha; by apply carried_u32).
  use_fits. split; [tidy_up|done|few|]. intros p. unfold all_slots, blank. cbn [fmap list_fmap].
  change (dispatch _ _ _) with (receive_maintenance h'). unfold receive_maintenance.
  destruct r as [api op out err]. cbn [m_api operation m_stdout m_stderr] in *. by repeat dec_step.
Qed.
Lemma preflight_travels h h' api path directory sequence root tr cl size b :
  u64_fits sequence →
  encode_message h (Preflight api path directory sequence) (set_manifest root (new_builder "" tr cl))
    = (Ok tt, b) →
  travels b (dispatch h' (method b) size) (Some (mkReceived (Preflight api path directory sequence) None)).
Proof.
  intros Hop He. cbn [encode_message] in He. repeat enc_step.
  match goal with H : valid_preflight _ _ = Ok _ |- _ => rename H into Hv end.
  assert (api = API) as -> by (revert Hv; unfold valid_preflight; by destruct (N.eqb_spec api API)).
  norm_builder. assert (carried u32_codec API) by by apply carried_u32.
  use_fits. split; [tidy_up|done|few|]. intros p. unfold all_slots, blank. cbn [fmap list_fmap].
  change (dispatch _ _ _) with receive_preflight. unfold receive_preflight.
  by repeat dec_step.
Qed.
Lemma manifest_travels h h' sequence l root tr cl size b :
  u64_fits sequence → (0 < tr <= u64_max)%N →
  from_transfer h' (ml_path l) (ml_root l) root = Ok (sent_lease root l) →
  encode_message h (MEvent (Manifest sequence l)) (set_manifest root (new_builder "" tr cl)) = (Ok tt, b) →
  travels b (dispatch h' (method b) size)
    (Some (mkReceived (MEvent (Manifest sequence (sent_lease root l))) (Some tr))).
Proof.
  intros Hs Htr Hl He. cbn [encode_message encode_event] in He.
  assert (u64_fits tr) by (unfold u64_fits; lia).
  assert ((tr =? 0)%N = false) as Hnz by (apply N.eqb_neq; lia).
  assert (other (from_transfer h' (ml_path l) (ml_root l) root) = Ok (sent_lease root l)) as Hl'
    by by rewrite Hl.
  repeat enc_step. unfold take_manifest in *. repeat enc_step.
  repeat match goal with
  | H : get _ = (Ok _, _) |- _ => injection H as <- <-
  | H : put _ _ = (Ok _, _) |- _ => injection H as <-
  end. norm_builder.
  destruct root as [fd|]; cbn [opt_b] in *; repeat enc_step; norm_builder;
    match goal with H : to_value (option_codec descriptor_codec) _ = Ok _ |- _ =>
      apply opt_descriptor_carried in H as [? ?]; [|naive_solver lia] end;
    use_fits; (split; [tidy_up|done|few|]); intros p; norm_builder; unfold all_slots, blank;
    cbn [fmap list_fmap]; change (dispatch _ _ _) with (receive_manifest h'); unfold receive_manifest;
    repeat dec_step; done.
Qed.
End messages.
