(* ===== verification/HandoffTravels.v ===== *)
(** * A handoff travels

    The header of a handoff with its first leases, and the batches that
    follow: what each frame refers to, and what the decoder makes of it. *)
From S2P Require Import Prelude Json Grammar Messages Framing FramingFacts Channel ChannelSpec.
From S2P Require Import Paths Codec CodecFacts Protocol Handoff ProtocolFacts CommandTravels EventTravels.
From S2P Require Import MessageTravels.
From S2P Require Outbound.
From Stdlib Require Import Ascii.

(** The numbers [n], [n+1], .. of [k] descriptors. *)
Definition numbers (n : N) (k : nat) : list N := (λ i, n + N.of_nat i)%N <$> seq 0 k.
Lemma numbers_cons n k : numbers n (S k) = n :: numbers (n + 1) k.
Proof.
  unfold numbers. simpl. f_equal; [lia|]. rewrite <-fmap_S_seq, <-list_fmap_compose.
  apply list_fmap_ext. intros i x _. simpl. lia.
Qed.
Lemma numbers_indexes k : numbers 0 k = indexes (N.of_nat k).
Proof.
  unfold numbers, indexes. rewrite Nat2N.id. apply list_fmap_ext. intros i x _. lia.
Qed.
Lemma numbers_app n j k : numbers n (j + k) = numbers n j ++ numbers (n + N.of_nat j) k.
Proof.
  revert n. induction j as [|j IH]; intros n.
  - simpl. by rewrite N.add_0_r.
  - change (S j + k)%nat with (S (j + k)). rewrite !numbers_cons, IH. simpl. do 3 f_equal. lia.
Qed.
Lemma indexes_numbers n k : indexes (n + N.of_nat k) = indexes n ++ numbers n k.
Proof.
  replace (n + N.of_nat k)%N with (N.of_nat (N.to_nat n + k)) by lia.
  rewrite <-numbers_indexes, numbers_app, N.add_0_l, numbers_indexes. by rewrite N2Nat.id.
Qed.
Lemma numbers_below n k i : i ∈ numbers n k → (n <= i < n + N.of_nat k)%N.
Proof. unfold numbers. rewrite list_elem_of_fmap. intros (j & -> & Hj%elem_of_seq). lia. Qed.

Section handoff.
Context `{JsonText} `{SerdeText} `{Payloads}.

(** ** Leases on the wire *)
Fixpoint numbered (n : N) (ls : list ResourceLease) : list (string * N) :=
  match ls with [] => [] | l :: ls => (directory l, n) :: numbered (n + 1) ls end.
Lemma numbered_numbers n ls : (numbered n ls).*2 = numbers n (length ls).
Proof.
  revert n. induction ls as [|l ls IH]; intros n; [done|].
  cbn [numbered length]. rewrite fmap_cons, numbers_cons. by rewrite IH.
Qed.
Lemma length_numbered n ls : length (numbered n ls) = length ls.
Proof. revert n. induction ls as [|l ls IH]; intros n; [done|]. simpl. by rewrite IH. Qed.

Lemma wire_lease_carried d n v : (n < MAX_FDS)%N → to_value wire_lease_codec (d, n) = Ok v →
  from_value wire_lease_codec v = Ok (d, n) ∧ refs v = Some [n].
Proof.
  intros Hn (w & Hw & [= <-])%res_bind_Ok. cbn [fst snd] in *. apply carried_path in Hw as [Fd Rd].
  destruct (descriptor_carried n _ Hn eq_refl) as [Fn Rn]. fold (descriptor n) in Fn, Rn.
  generalize dependent (descriptor n). intros x Fn Rn. split.
  - cbn [from_value wire_lease_codec]. norm_json. open_structure. by repeat read_field.
  - norm_json. rewrite refs_values by done. etrans; [all_refs|done].
Qed.
Lemma wire_leases_carried ls v : Forall (λ l, (l.2 < MAX_FDS)%N) ls →
  to_value (list_codec wire_lease_codec) ls = Ok v →
  from_value (list_codec wire_lease_codec) v = Ok ls ∧ refs v = Some ls.*2.
Proof.
  intros Hls (k & Hk & [= <-])%res_bind_Ok. apply mapM_res_Ok in Hk.
  rewrite refs_array. cbn [from_value list_codec]. rewrite mapM_res_Ok.
  revert Hls. induction Hk as [|[d n] w ls k Hx _ IH]; intros Hls; [done|].
  apply Forall_cons in Hls as [Hn Hls]. apply (wire_lease_carried d n w Hn) in Hx as [Hf Hr].
  destruct (IH Hls) as [IH1 IH2]. split; [by constructor|].
  apply (refs_cons w k [n]); done.
Qed.

(** ** Building *)
Lemma put_leases_Ok ls b l b' : mapM_b put_lease ls b = (Ok l, b') →
  (lenN (b_fds b) <= MAX_FDS)%N → ∃ cl,
  l = numbered (lenN (b_fds b)) ls ∧ (lenN (b_fds b) + lenN ls <= MAX_FDS)%N ∧
  b' = set_fds (b_fds b ++ (lock <$> ls)) (set_clones cl b).
Proof.
  revert b l. induction ls as [|x ls IH]; intros b l He Hb; cbn [mapM_b] in He.
  - apply ret_Ok in He as [<- ->]. exists (clones b). rewrite app_nil_r. split_and!; [done| |by destruct b].
    change (lenN []) with 0%N. lia.
  - repeat enc_step. unfold put_lease in *. repeat enc_step.
    match goal with H : cloned _ = _ |- _ => apply cloned_Ok in H as (cl & ->) end.
    match goal with H : mapM_b _ _ _ = _ |- _ => apply IH in H as (cl' & -> & Hl & ->) end;
      cbn [b_fds set_fds set_clones] in *; rewrite lenN_snoc in *; [|lia].
    exists cl'. rewrite lenN_cons. cbn [numbered]. split_and!; [done|lia|].
    rewrite fmap_cons. by rewrite <-(assoc (++)).
Qed.

(** ** Taking *)
Lemma take_at n o (pre post : list (option Fd)) fd p : N.to_nat n = length pre →
  take_descriptor n (mkLocal o (pre ++ Some fd :: post) p) =
  (Ok fd, mkLocal o (pre ++ None :: post) p).
Proof.
  intros Hn. rewrite (take_descriptor_run n _ _ _ fd); rewrite Hn.
  - by rewrite insert_app_r_alt, Nat.sub_diag by done.
  - by rewrite lookup_app_r, Nat.sub_diag by done.
Qed.
Lemma blank_app l k : blank (l ++ k) = blank l ++ blank k.
Proof. apply fmap_app. Qed.
Lemma take_leases h ls n o (pre post : list (option Fd)) p :
  Forall (lease_known h) ls → N.to_nat n = length pre →
  mapM_d (decode_lease h) (numbered n ls) (mkLocal o (pre ++ all_slots (lock <$> ls) ++ post) p) =
  (Ok ls, mkLocal o (pre ++ blank (lock <$> ls) ++ post) p).
Proof.
  intros Hls. revert n pre. induction Hls as [|l ls Hl Hls IH]; intros n pre Hn; [done|].
  cbn [numbered mapM_d fmap list_fmap all_slots blank app].
  assert (decode_lease h (directory l, n) (mkLocal o (pre ++ Some (lock l) :: all_slots (lock <$> ls) ++ post) p)
    = (Ok l, mkLocal o (pre ++ None :: all_slots (lock <$> ls) ++ post) p)) as Hd.
  { unfold decode_lease. cbn [fst snd]. rewrite (bind_run _ _ _ _ _ (take_at n o pre _ _ p Hn)).
    unfold lift. by rewrite Hl. }
  rewrite (bind_run _ _ _ _ _ Hd).
  rewrite (cons_middle None), (assoc (++)).
  rewrite (bind_run _ _ _ _ _ (IH (n + 1)%N (pre ++ [None]) ltac:(rewrite length_app; simpl; lia))).
  rewrite <-(assoc (++)). done.
Qed.

(** ** The header *)
Lemma wire_directory_carried n s d : (n < MAX_FDS)%N → ∀ v, to_value wire_directory_codec (n, s, d) = Ok v →
  from_value wire_directory_codec v = Ok (n, s, d) ∧ refs v = Some [n] ∧ v ≠ Null.
Proof.
  intros Hn v (x & Hx & (y & Hy & [= <-])%res_bind_Ok)%res_bind_Ok.
  apply carried_path in Hx as [Fx Rx]. apply carried_path in Hy as [Fy Ry].
  destruct (descriptor_carried n _ Hn eq_refl) as [Fn Rn]. fold (descriptor n) in Fn, Rn.
  generalize dependent (descriptor n). intros z Fn Rn. split_and!.
  - cbn [from_value wire_directory_codec]. norm_json. open_structure. by repeat read_field.
  - norm_json. rewrite refs_values by done. etrans; [all_refs|done].
  - by norm_json.
Qed.
Definition wire_directory_number (w : option (N * string * string)) : list N :=
  match w with Some (n, _, _) => [n] | None => [] end.
Lemma opt_directory_carried w v : Forall (λ n, (n < MAX_FDS)%N) (wire_directory_number w) →
  to_value (option_codec wire_directory_codec) w = Ok v →
  from_value (option_codec wire_directory_codec) v = Ok w ∧ refs v = Some (wire_directory_number w).
Proof.
  destruct w as [[[n s] d]|]; cbn [wire_directory_number].
  - intros Hn Hv. rewrite Forall_singleton in Hn. destruct (wire_directory_carried n s d Hn v Hv) as (Hf & Hr & Hne).
    split; [|done]. cbn [from_value option_codec]. destruct v; try done; by rewrite Hf.
  - by intros _ [= <-].
Qed.
Record header_fits (w : WireHandoff) : Prop := {
  hf_transfer : u64_fits (w_transfer w);
  hf_count : u64_fits (w_count w);
  hf_workspace : (w_workspace w < MAX_FDS)%N;
  hf_directory : Forall (λ n, (n < MAX_FDS)%N) (wire_directory_number (w_directory w));
  hf_leases : Forall (λ l, (l.2 < MAX_FDS)%N) (w_leases w) }.
Lemma header_carried w v : header_fits w → to_value wire_handoff_codec w = Ok v →
  from_value wire_handoff_codec v = Ok w ∧
  refs v = Some ((w_leases w).*2 ++ wire_directory_number (w_directory w) ++ [w_workspace w]).
Proof.
  intros [Ht Hc Hw Hd Hl] (x & Hx & (y & Hy & [= <-])%res_bind_Ok)%res_bind_Ok.
  apply (opt_directory_carried _ _ Hd) in Hx as [Fx Rx].
  apply (wire_leases_carried _ _ Hl) in Hy as [Fy Ry].
  destruct (descriptor_carried _ _ Hw eq_refl) as [Fn Rn]. fold (descriptor (w_workspace w)) in Fn, Rn.
  destruct (carried_u64 _ Ht _ eq_refl) as [Ft Rt]. fold (json_u64 (w_transfer w)) in Ft, Rt.
  destruct (carried_u64 _ Hc _ eq_refl) as [Fc Rc]. fold (json_u64 (w_count w)) in Fc, Rc.
  destruct (carried_string (w_dev_shell w) _ eq_refl) as [Fs Rs].
  destruct (carried_bool (w_docker w) _ eq_refl) as [Fb Rb].
  destruct (carried_bool (w_more w) _ eq_refl) as [Fm Rm].
  generalize dependent (descriptor (w_workspace w)). generalize dependent (json_u64 (w_transfer w)).
  generalize dependent (json_u64 (w_count w)). generalize dependent (String_ (w_dev_shell w)).
  generalize dependent (Bool (w_docker w)). generalize dependent (Bool (w_more w)).
  intros vm Fm Rm vb Fb Rb vs Fs Rs vc Fc Rc vt Ft Rt vn Fn Rn. split.
  - cbn [from_value wire_handoff_codec]. norm_json. open_structure. repeat read_field. by destruct w.
  - norm_json. rewrite refs_values by done. etrans; [all_refs|]. simpl. by rewrite ?app_nil_r.
Qed.

(** ** Batches *)
Record part_ok (tr : N) (rest : list ResourceLease) (b : Builder) : Prop := {
  part_method : method b = "Leases";
  part_fds : b_fds b = lock <$> firstn batch rest;
  part_tidy : tidy b;
  part_params : ∃ l m t, params b = [("leases", l); ("more", m); ("transfer", t)] ∧
    from_value u64_codec t = Ok tr ∧
    from_value (list_codec wire_lease_codec) l = Ok (numbered 0 (firstn batch rest)) ∧
    from_value bool_codec m = Ok (negb (bool_decide (drop batch rest = []))) }.
Inductive batches (tr : N) : list ResourceLease → list Frame → Prop :=
| batches_nil : batches tr [] []
| batches_cons rest b parts : rest ≠ [] → part_ok tr rest b → batches tr (drop batch rest) parts →
    batches tr rest (frame_of b :: parts).

Lemma numbered_below n ls : (n + lenN ls <= MAX_FDS)%N →
  Forall (λ l : string * N, (l.2 < MAX_FDS)%N) (numbered n ls).
Proof.
  revert n. induction ls as [|l ls IH]; intros n Hn; [constructor|].
  rewrite lenN_cons in Hn. constructor; [simpl; lia|]. apply IH. lia.
Qed.
Lemma encode_batch_Ok tr tr' rest cl b : u64_fits tr →
  encode_batch tr rest (new_builder "Leases" tr' cl) = (Ok tt, b) → part_ok tr rest b.
Proof.
  intros Htr He. unfold encode_batch in He. repeat enc_step.
  match goal with H : mapM_b _ _ _ = _ |- _ => apply put_leases_Ok in H as (cl' & -> & Hn & ->); [|done] end.
  norm_builder.
  match goal with H : to_value (list_codec _) _ = Ok _ |- _ =>
    apply wire_leases_carried in H as [Fl Rl]; [|by apply numbered_below] end.
  use_fits. split; norm_builder; [done|done| |].
  - split; [no_marker|]. eexists. split; [all_refs|]. norm_builder.
    rewrite numbered_numbers, numbers_indexes. unfold lenN.
    by rewrite length_fmap, !app_nil_r.
  - by eexists _, _, _.
Qed.
Lemma encode_batches_Ok fuel tr rest b b' : u64_fits tr → (length rest <= fuel)%nat →
  encode_batches fuel tr rest b = (Ok tt, b') → ∃ cl parts,
  b' = set_following (following b ++ parts) (set_clones cl b) ∧ batches tr rest parts.
Proof.
  intros Htr. revert rest b. induction fuel as [|fuel IH]; intros rest b Hf He.
  - destruct rest; [|simpl in Hf; lia]. apply ret_Ok in He as [_ ->]. exists (clones b), [].
    split; [by destruct b; cbn; rewrite app_nil_r|constructor].
  - destruct rest as [|x rest].
    { apply ret_Ok in He as [_ ->]. exists (clones b), [].
      split; [by destruct b; cbn; rewrite app_nil_r|constructor]. }
    cbn [encode_batches] in He. apply bind_Ok in He as (u & b1 & Hp & He).
    unfold in_part in Hp.
    destruct (encode_batch tr (x :: rest) (new_builder "Leases" (b_transfer b) (clones b))) as [[u'|e|] pb] eqn:Hb;
      [|done|done]. injection Hp as <- <-. destruct u'.
    apply encode_batch_Ok in Hb; [|done].
    apply IH in He as (cl & parts & -> & Hparts).
    + exists cl, (frame_of pb :: parts). split; [|by constructor].
      cbn. by rewrite <-(assoc (++)).
    + rewrite length_drop. unfold batch, MAX_FDS. simpl in *. lia.
Qed.

(** ** The whole *)
Definition dir_fds (h : Handoff) : list Fd :=
  match working_directory h with Some w => [wd_fd w] | None => [] end.
Definition dir_wire (n : N) (h : Handoff) : option (N * string * string) :=
  match working_directory h with Some w => Some (n, wd_source w, wd_destination w) | None => None end.
Definition first_leases (n : N) (h : Handoff) : nat :=
  N.to_nat (N.min (lenN (leases h)) (MAX_FDS - (n + 1 + lenN (dir_fds h)))).
Definition head_fds (n : N) (h : Handoff) : list Fd :=
  workspace h :: dir_fds h ++ (lock <$> firstn (first_leases n h) (leases h)).
Definition header (n tr : N) (h : Handoff) (text : string) : WireHandoff :=
  mkWireHandoff tr (lenN (leases h)) n (dir_wire (n + 1) h) text (docker h)
    (numbered (n + 1 + lenN (dir_fds h)) (firstn (first_leases n h) (leases h)))
    (N.of_nat (first_leases n h) <? lenN (leases h))%N.

Lemma put_directory_Ok h b w b' : opt_b put_directory (working_directory h) b = (Ok w, b') → ∃ cl,
  w = dir_wire (lenN (b_fds b)) h ∧ (lenN (b_fds b) + lenN (dir_fds h) <= MAX_FDS ∨ dir_fds h = [])%N ∧
  b' = set_fds (b_fds b ++ dir_fds h) (set_clones cl b).
Proof.
  unfold dir_wire, dir_fds. destruct (working_directory h) as [d|]; cbn [opt_b]; intros He.
  - unfold put_directory in He. repeat enc_step. eexists. split_and!; [done| |done].
    left. change (lenN [_]) with 1%N. lia.
  - apply ret_Ok in He as [<- ->]. exists (clones b). split_and!; [done|by right|].
    rewrite app_nil_r. by destruct b.
Qed.
Lemma numbers_snd n h :
  (header n 0 h "").(w_leases).*2 ++ wire_directory_number (dir_wire (n + 1) h) ++ [n] ≡ₚ
  numbers n (length (head_fds n h)).
Proof.
  cbn [w_leases header]. rewrite numbered_numbers. unfold head_fds, dir_wire, dir_fds.
  destruct (working_directory h) as [d|]; cbn [length app wire_directory_number].
  - rewrite !numbers_cons, length_fmap. change (lenN [wd_fd d]) with 1%N. solve_Permutation.
  - rewrite numbers_cons, length_fmap. change (lenN []) with 0%N. rewrite N.add_0_r. solve_Permutation.
Qed.

Lemma encode_handoff_Ok h b v b' :
  (lenN (b_fds b) <= 2)%N → u64_fits (b_transfer b) → encode_handoff h b = (Ok v, b') →
  let n := lenN (b_fds b) in ∃ cl parts text l,
  b' = set_fds (b_fds b ++ head_fds n h) (set_following (following b ++ parts) (set_clones cl b)) ∧
  refs v = Some l ∧ l ≡ₚ numbers n (length (head_fds n h)) ∧
  (lenN (leases h) <= MAX_BODY)%N ∧ to_text dev_shell_text (dev_shell h) = Ok text ∧
  from_value wire_handoff_codec v = Ok (header n (b_transfer b) h text) ∧
  batches (b_transfer b) (drop (first_leases n h) (leases h)) parts.
Proof.
  intros Hb Htr He n. unfold encode_handoff in He. repeat enc_step.
  match goal with H : opt_b _ _ _ = _ |- _ => apply put_directory_Ok in H as (cl1 & -> & Hd & ->) end.
  match goal with H : get _ = _ |- _ => injection H as <- <- end.
  assert (lenN (dir_fds h) <= 1)%N as Hd1.
  { unfold dir_fds. destruct (working_directory h); [change (lenN [_]) with 1%N|change (lenN []) with 0%N]; lia. }
  match goal with H : mapM_b _ _ _ = _ |- _ => apply put_leases_Ok in H as (cl2 & -> & Hl & ->) end.
  2: { cbn. rewrite lenN_app, lenN_snoc. unfold MAX_FDS. lia. }
  cbn [b_fds set_fds set_clones b_transfer following] in *. rewrite !lenN_app, ?lenN_snoc in *.
  change (lenN [workspace h]) with 1%N in *. subst n. set (n := lenN (b_fds b)) in *.
  change (N.to_nat (lenN (leases h) `min` (MAX_FDS - (n + 1 + lenN (dir_fds h))))) with (first_leases n h) in *.
  repeat match goal with H : other _ = Ok _ |- _ => apply other_Ok in H end.
  match goal with H : encode_batches _ _ _ _ = _ |- _ => rename H into Hbs end.
  match goal with H : to_value wire_handoff_codec _ = _ |- _ => rename H into Hv end.
  match goal with H : to_text dev_shell_text _ = Ok ?s |- _ => rename H into Ht; rename s into shell end.
  match goal with H : (MAX_BODY <? _)%N = false |- _ => apply N.ltb_ge in H as Hc end.
  destruct x11. apply encode_batches_Ok in Hbs as (cl & parts & -> & Hparts);
    [|done|rewrite length_drop; lia].
  apply header_carried in Hv as [Fv Rv].
  - eexists cl, parts, shell, _. split_and!; [|exact Rv|apply (numbers_snd n h)|done|done|exact Fv|exact Hparts].
    cbn. unfold head_fds. by rewrite <-!(assoc (++)).
  - split; cbn [w_transfer w_count w_workspace w_directory w_leases].
    + done.
    + unfold u64_fits, MAX_BODY, MAX_FRAME_BODY, u64_max in *. lia.
    + unfold MAX_FDS. lia.
    + unfold dir_wire. destruct (working_directory h); constructor; [unfold MAX_FDS; lia|constructor].
    + by apply numbered_below.
Qed.

(** ** Decoding the header *)
Definition with_leases (l : list ResourceLease) (h : Handoff) : Handoff :=
  mkHandoff l (workspace h) (working_directory h) (dev_shell h) (docker h).
Lemma with_leases_same h : with_leases (leases h) h = h.
Proof. by destruct h. Qed.

Lemma bind_assoc_run {S E A B C} (m : M S E A) (f : A → M S E B) (g : B → M S E C) s :
  ((m ≫= f) ≫= g) s = (m ≫= λ a, f a ≫= g) s.
Proof. unfold mbind, M_bind. by destruct (m s) as [[a|e|] s']. Qed.
Lemma take_directory h n o (pre post : list (option Fd)) p : N.to_nat n = length pre →
  opt_d (λ d, let '(n, source, destination) := d in
           fd ← take_descriptor n; mret (mkWorkingDirectory fd source destination)) (dir_wire n h)
    (mkLocal o (pre ++ all_slots (dir_fds h) ++ post) p) =
  (Ok (working_directory h), mkLocal o (pre ++ blank (dir_fds h) ++ post) p).
Proof.
  intros Hn. unfold dir_wire, dir_fds. destruct (working_directory h) as [[fd s d]|]; [|done].
  cbn [wd_fd wd_source wd_destination all_slots blank fmap list_fmap app]. apply opt_d_run.
  by rewrite (bind_run _ _ _ _ _ (take_at n o pre post fd p Hn)).
Qed.

Section decoding.
Context (host : Host) (h : Handoff) (tr : N) (text : string).
Context (Hknown : Forall (lease_known host) (leases h)) (Hfits : handoff_fits h)
  (Htext : to_text dev_shell_text (dev_shell h) = Ok text)
  (Htr : (0 < tr)%N) (Hcount : (lenN (leases h) <= MAX_BODY)%N).
#[local] Set Default Proof Using "Type*".

Definition more_to_come (n : N) : bool := (N.of_nat (first_leases n h) <? lenN (leases h))%N.
Definition begun (n : N) (target : Target) (size : N) : Pending :=
  mkPending target (with_leases (firstn (first_leases n h) (leases h)) h) tr (lenN (leases h)) size.

Lemma first_leases_le n : (first_leases n h <= length (leases h))%nat.
Proof. clear. unfold first_leases, lenN. lia. Qed.
Lemma header_checks n :
  (w_transfer (header n tr h text) =? 0)%N || (MAX_BODY <? w_count (header n tr h text))%N ||
  (w_count (header n tr h text) <? lenN (w_leases (header n tr h text)))%N ||
  negb (Bool.eqb (w_more (header n tr h text))
          (lenN (w_leases (header n tr h text)) <? w_count (header n tr h text))%N) = false.
Proof.
  cbn [w_transfer w_count w_leases w_more header].
  rewrite (proj2 (N.eqb_neq tr 0)) by lia. rewrite (proj2 (N.ltb_ge _ _)) by done.
  pose proof (first_leases_le n) as Hle.
  assert (lenN (numbered (n + 1 + lenN (dir_fds h)) (firstn (first_leases n h) (leases h)))
    = N.of_nat (first_leases n h)) as ->.
  { unfold lenN. rewrite length_numbered, length_take. lia. }
  rewrite (proj2 (N.ltb_ge (lenN (leases h)) _)) by (unfold lenN; lia).
  by rewrite Bool.eqb_reflx.
Qed.

Lemma receive_handoff_run n v target size o (pre : list (option Fd)) :
  N.to_nat n = length pre → from_value wire_handoff_codec v = Ok (header n tr h text) →
  receive_handoff host target v size (mkLocal o (pre ++ all_slots (head_fds n h)) None) =
  if more_to_come n
  then (Ok None, mkLocal o (pre ++ blank (head_fds n h)) (Some (begun n target size)))
  else completed (mkPending target h tr (lenN (leases h)) size)
         (mkLocal o (pre ++ blank (head_fds n h)) None).
Proof.
  intros Hn Hv. unfold receive_handoff.
  rewrite (bind_run get _ _ _ _ eq_refl). cbn [pending].
  rewrite refuse_run by done.
  assert (other (from_value wire_handoff_codec v) = Ok (header n tr h text)) as Hv' by by rewrite Hv.
  rewrite (bind_run (lift _) _ _ _ _ (proj2 (lift_Ok _ _ _ _) (conj Hv' eq_refl))). cbv zeta.
  rewrite (refuse_run _ _ _ _ (header_checks n)).
  unfold head_fds, all_slots, blank. rewrite !fmap_cons, !fmap_app.
  fold (all_slots (dir_fds h)). fold (blank (dir_fds h)).
  set (first := firstn (first_leases n h) (leases h)).
  fold (all_slots (lock <$> first)). fold (blank (lock <$> first)).
  cbn [w_directory w_workspace w_dev_shell w_leases w_more w_count w_transfer w_docker header].
  pose proof (take_directory h (n + 1) o (pre ++ [Some (workspace h)]) (all_slots (lock <$> first)) None
    ltac:(rewrite length_app; simpl; lia)) as Hd.
  rewrite <-!(assoc (++)) in Hd. cbn [app] in Hd. rewrite (bind_run _ _ _ _ _ Hd).
  rewrite (bind_run _ _ _ _ _ (take_at n o pre _ (workspace h) None Hn)).
  assert (other (from_text dev_shell_text text) = Ok (dev_shell h)) as Ht' by by rewrite (Hfits _ Htext).
  rewrite (bind_run (lift _) _ _ _ _ (proj2 (lift_Ok _ _ _ _) (conj Ht' eq_refl))).
  pose proof (take_leases host first (n + 1 + lenN (dir_fds h)) o
    (pre ++ None :: blank (dir_fds h)) [] None) as Hl.
  rewrite !app_nil_r, <-!(assoc (++)) in Hl. cbn [app] in Hl.
  rewrite (bind_run _ _ _ _ _ (Hl ltac:(by apply Forall_take) ltac:(rewrite length_app, length_cons; unfold blank, lenN; rewrite length_fmap; lia))).
  cbv zeta. fold (more_to_come n). unfold more_to_come at 1 2.
  destruct (N.ltb_spec (N.of_nat (first_leases n h)) (lenN (leases h))) as [Hlt|Hge].
  - done.
  - unfold first. rewrite firstn_all2 by (unfold lenN in Hge; lia). by destruct h.
Qed.
End decoding.

(** ** Decoding a batch *)
Definition extended (rest : list ResourceLease) (size : N) (p : Pending) : Pending :=
  mkPending (target p) (extend_leases (firstn batch rest) (p_handoff p)) (p_transfer p) (p_count p)
    (p_bytes p + size).
Lemma receive_leases_run host tr rest b size p :
  part_ok tr rest b → Forall (lease_known host) rest → rest ≠ [] →
  p_transfer p = tr → (p_bytes p + size <= MAX_BODY)%N →
  p_count p = (lenN (leases (p_handoff p)) + lenN rest)%N →
  receive_leases host size (mkLocal (params b) (all_slots (b_fds b)) (Some p)) =
  if bool_decide (drop batch rest = [])
  then completed (extended rest size p) (mkLocal [] (blank (b_fds b)) None)
  else (Ok None, mkLocal [] (blank (b_fds b)) (Some (extended rest size p))).
Proof.
  intros [_ Hf _ (l & m & t & Hp & Ft & Fl & Fm)] Hk Hr Ht Hb Hc. rewrite Hf, Hp.
  unfold receive_leases. do 4 dec_step. rewrite (bind_run get _ _ _ _ eq_refl). cbn [pending].
  rewrite (bind_run (ok_or (Some p) _) _ _ p _ eq_refl).
  assert (firstn batch rest ≠ []) as Hne by (unfold batch, MAX_FDS; destruct rest; done).
  rewrite refuse_run.
  2: { rewrite Ht, N.eqb_refl. destruct (firstn batch rest); done. }
  assert (u64_checked_add (p_bytes p) size = Some (p_bytes p + size)%N) as Ha.
  { apply u64_checked_add_Some. split; [done|].
    unfold MAX_BODY, MAX_FRAME_BODY in Hb. unfold u64_modulus. lia. }
  rewrite Ha, (bind_run (ok_or (Some _) _) _ _ (p_bytes p + size)%N _ eq_refl). cbv zeta.
  rewrite (bind_run (modify _) _ _ _ _ eq_refl). cbn [p_bytes p_count p_handoff target p_transfer set_pending].
  assert (lenN (numbered 0 (firstn batch rest)) <= lenN rest)%N as Hlen.
  { unfold lenN. rewrite length_numbered, length_take. lia. }
  rewrite refuse_run.
  2: { apply orb_false_iff. split; apply N.ltb_ge; lia. }
  pose proof (take_leases host (firstn batch rest) 0 [] [] []
    (Some (mkPending (target p) (p_handoff p) (p_transfer p) (p_count p) (p_bytes p + size)))
    ltac:(by apply Forall_take) eq_refl) as Hl.
  rewrite !app_nil_r in Hl. cbn [app] in Hl. unfold set_pending. cbn [fields slots].
  rewrite (bind_run _ _ _ _ _ Hl).
  rewrite (bind_run (modify _) _ _ _ _ eq_refl).
  cbn [p_bytes p_count p_handoff target p_transfer leases extend_leases].
  assert (negb (bool_decide (drop batch rest = [])) =
    (lenN (leases (p_handoff p) ++ firstn batch rest) <? p_count p)%N) as Hmore.
  { rewrite lenN_app, Hc. assert (lenN rest = lenN (firstn batch rest) + lenN (drop batch rest))%N as ->.
    { by rewrite <-lenN_app, take_drop. }
    case_bool_decide as Hd; [rewrite Hd; change (lenN []) with 0%N; symmetry; apply N.ltb_ge; lia|].
    destruct (drop batch rest); [done|]. rewrite lenN_cons. symmetry. apply N.ltb_lt. lia. }
  rewrite refuse_run by by rewrite Hmore, Bool.eqb_reflx.
  by case_bool_decide.
Qed.
End handoff.
