(* ===== verification/StartTravels.v ===== *)
(** * A supervisor's start travels

    Its source and listener in the first frame, with or without a handoff. *)
From S2P Require Import Prelude Json Grammar Messages Framing FramingFacts Channel ChannelSpec.
From S2P Require Import Paths Codec CodecFacts Protocol Handoff ProtocolFacts CommandTravels EventTravels.
From S2P Require Import MessageTravels HandoffTravels.
From S2P Require Outbound.
From Stdlib Require Import Ascii.

Section start.
Context `{JsonText} `{SerdeText} `{Payloads}.

Definition listener_number (s : SupervisorStart) : option N :=
  match legacy_listener s with Some _ => Some (lenN (source_fds (source s))) | None => None end.
Definition start_fds (s : SupervisorStart) : list Fd :=
  source_fds (source s) ++ option_list (legacy_listener s).
Lemma option_list_length {A} (o : option A) : (lenN (option_list o) <= 1)%N.
Proof. unfold lenN. destruct o; simpl; lia. Qed.
Lemma source_fds_length s : (lenN (source_fds s) <= 1)%N.
Proof. destruct s; [unfold lenN; simpl; lia|apply option_list_length]. Qed.
Lemma start_fds_length s : (lenN (start_fds s) <= 2)%N.
Proof.
  unfold start_fds. rewrite lenN_app. pose proof (source_fds_length (source s)).
  pose proof (option_list_length (legacy_listener s)). lia.
Qed.

(** The fields of a start but its handoff, as written. *)
Record start_params (s : SupervisorStart) (hv : Value) (o : list (string * Value)) : Prop := {
  sp_values : ∃ det dim dir lis pay src api,
    o = [("detached", det); ("dimensions", dim); ("directory", dir); ("handoff", hv);
         ("legacy_listener", lis); ("payload_nofile", pay); ("source", src); ("supervisor_api", api)] ∧
    (from_value bool_codec det = Ok (detached s) ∧ refs det = Some []) ∧
    (from_value (pair_codec u16_codec u16_codec) dim = Ok (dimensions s) ∧ refs dim = Some []) ∧
    (from_value path_codec dir = Ok (start_directory s) ∧ refs dir = Some []) ∧
    (from_value (option_codec descriptor_codec) lis = Ok (listener_number s) ∧
     refs lis = Some (option_list (listener_number s))) ∧
    (from_value (option_codec u64_codec) pay = Ok (payload_nofile s) ∧ refs pay = Some []) ∧
    (refs src = Some (indexes (lenN (source_fds (source s)))) ∧
     ∀ p o rest, decode_source src (mkLocal o (all_slots (source_fds (source s)) ++ rest) p) =
       (Ok (source s), mkLocal o (blank (source_fds (source s)) ++ rest) p)) ∧
    (from_value u32_codec api = Ok API ∧ refs api = Some []) }.

Lemma put_listener_Ok s b lis b' : b_fds b = source_fds (source s) →
  opt_b put_fd (legacy_listener s) b = (Ok lis, b') → ∃ cl,
  lis = listener_number s ∧ b' = set_fds (start_fds s) (set_clones cl b).
Proof.
  unfold listener_number, start_fds. intros Hb He.
  destruct (legacy_listener s); cbn [opt_b option_list] in *; repeat enc_step.
  - rewrite Hb. by eexists.
  - exists (clones b). rewrite app_nil_r, <-Hb. split; [done|]. by destruct b.
Qed.

Lemma encode_start_Ok s root tr cl b : source_fits (source s) →
  (∀ n, payload_nofile s = Some n → u64_fits n) →
  encode_start s (set_manifest root (new_builder "" tr cl)) = (Ok tt, b) →
  valid_start s = Ok tt ∧ ∃ o hv cl' b2,
  let b1 := mkBuilder "SupervisorStart" o (start_fds s) [] tr root cl' in
  match handoff s with
  | Some h => encode_handoff h b1 = (Ok hv, b2)
  | None => hv = Null ∧ b2 = b1
  end ∧ b = set_params (object_insert "handoff" hv (params b2)) b2 ∧
  start_params s hv (object_insert "handoff" hv o).
Proof.
  intros Hsrc Hpay He. unfold encode_start in He. repeat enc_step.
  match goal with H : valid_start s = Ok ?x |- _ => rename H into Hv; destruct x end. split; [done|].
  destruct (valid_start_cases s Hv) as (Hapi & Hd1 & Hd2).
  match goal with H : encode_source _ _ = _ |- _ =>
    apply encode_source_Ok in H as (cl1 & -> & Rs & Hs); [|done|done] end.
  repeat enc_step.
  match goal with H : opt_b put_fd _ _ = _ |- _ => apply put_listener_Ok in H as (cl2 & -> & ->); [|done] end.
  repeat match goal with H : to_value value_codec _ = Ok _ |- _ => injection H as <- end.
  match goal with H : to_value (option_codec descriptor_codec) _ = Ok _ |- _ =>
    apply opt_descriptor_carried in H as [Fl Rl] end.
  2: { unfold listener_number. pose proof (source_fds_length (source s)).
       destruct (legacy_listener s); [|done]. intros ? [= <-]. unfold MAX_FDS. lia. }
  assert (carried (pair_codec u16_codec u16_codec) (dimensions s)) by by apply carried_pair; apply carried_u16.
  assert (carried u32_codec (supervisor_api s)) as Hc by (rewrite Hapi; by apply carried_u32).
  rewrite Hapi in *.
  norm_builder. use_fits.
  destruct (handoff s) as [h|]; cbn [opt_b] in *; repeat enc_step;
    match goal with H : to_value (option_codec value_codec) _ = Ok ?v |- _ => injection H as <- end;
    (eexists _, _, _, _; split; [first [eassumption|by split]|split; [done|]]);
    norm_builder; split; by eexists _, _, _, _, _, _, _.
Qed.

Lemma take_listener s o rest p :
  opt_d take_descriptor (listener_number s)
    (mkLocal o (blank (source_fds (source s)) ++ all_slots (option_list (legacy_listener s)) ++ rest) p) =
  (Ok (legacy_listener s), mkLocal o (blank (start_fds s) ++ rest) p).
Proof.
  unfold listener_number, start_fds. destruct (legacy_listener s) as [fd|];
    cbn [option_list all_slots fmap list_fmap app opt_d].
  - rewrite blank_app. cbn [blank fmap list_fmap]. rewrite <-(assoc (++)). apply opt_d_run, take_at.
    unfold blank, lenN. rewrite length_fmap. lia.
  - by rewrite app_nil_r.
Qed.
Lemma receive_start_run host s hv o size rest held h :
  start_params s hv o → valid_start s = Ok tt → from_value (option_codec value_codec) hv = Ok h →
  receive_start host size (mkLocal o (all_slots (start_fds s) ++ rest) held) =
  match h with
  | Some v => receive_handoff host (Startup (set_handoff None s)) v size
  | None => _ ← lift (valid_start (set_handoff None s)); received_plain (MStart (set_handoff None s))
  end (mkLocal [] (blank (start_fds s) ++ rest) held).
Proof.
  intros [(det & dim & dir & lis & pay & src & api & -> & [F1 _] & [F2 _] & [F3 _] & [F4 _] & [F5 _]
    & [_ Hs] & [F6 _])] Hv Hh.
  destruct (valid_start_cases s Hv) as (Hapi & _ & _).
  unfold receive_start. dec_step. rewrite (refuse_run _ _ _ _ (eq_refl : negb (API =? API)%N = false)).
  dec_step. unfold start_fds, all_slots. rewrite fmap_app, <-(assoc (++)).
  fold (all_slots (source_fds (source s))). fold (all_slots (option_list (legacy_listener s))).
  rewrite (bind_run _ _ _ _ _ (Hs _ _ _)).
  do 4 dec_step. rewrite (bind_run get _ _ _ _ eq_refl). cbn [fields].
  change (object_get _ "legacy_listener") with (Some lis). cbv iota beta.
  rewrite bind_assoc_run, (bind_run (put _) _ _ _ _ eq_refl). cbn [fields set_fields slots pending].
  rewrite bind_assoc_run. rewrite (lift_run _ _ _ (listener_number s)) by by rewrite F4.
  norm_lists. unfold set_fields. cbn [fields slots pending].
  rewrite (bind_run _ _ _ _ _ (take_listener s _ rest held)). cbv zeta.
  dec_step. dec_step. rewrite <-Hapi. destruct s. cbn in Hapi. subst. by destruct h.
Qed.
Lemma start_refs s hv o l : start_params s hv o → refs hv = Some l →
  "$fd" ∉ o.*1 ∧ ∃ k, refs_list o.*2 = Some k ∧
  k ≡ₚ indexes (lenN (start_fds s)) ++ l.
Proof.
  intros [(det & dim & dir & lis & pay & src & api & -> & [_ R1] & [_ R2] & [_ R3] & [_ R4] & [_ R5]
    & [R7 _] & [_ R6])] Hl. split; [no_marker|]. eexists. split; [all_refs|]. cbn [app].
  rewrite app_nil_r. unfold start_fds, listener_number.
  set (n := lenN (source_fds (source s))).
  destruct (legacy_listener s) as [fd|].
  - change (option_list (Some fd)) with [fd]. change (option_list (Some n)) with [n]. rewrite lenN_snoc. fold n. replace (n + 1)%N with (N.of_nat (N.to_nat n + 1)) by lia.
    rewrite <-numbers_indexes, numbers_app, N.add_0_l, N2Nat.id. cbn [numbers seq fmap list_fmap].
    rewrite numbers_indexes, N2Nat.id, N.add_0_r. solve_Permutation.
  - change (option_list (@None N)) with (@nil N). rewrite app_nil_r. fold n. solve_Permutation.
Qed.
End start.
