(* ===== verification/ProtocolSpec.v ===== *)
(** * What the supervisor protocol promises

    A prepared message passes the channel, and the decoder makes of its
    frames what was prepared: at once from a single frame, whatever handoff
    is in progress, or batch by batch. *)
From S2P Require Import Prelude Json Grammar Messages Framing FramingFacts Channel ChannelSpec.
From S2P Require Import Paths Codec CodecFacts Protocol Handoff ProtocolFacts CommandTravels EventTravels.
From S2P Require Import MessageTravels HandoffTravels StartTravels.
From S2P Require Outbound.
From Stdlib Require Import Ascii.

Section protocol.
Context `{JsonText} `{SerdeText} `{Payloads}.

(** ** Frames *)

(** What the channel checks of a frame before it queues it. *)
Record passes (f : Frame) : Prop := {
  passes_few : (lenN (fds f) <= MAX_FDS)%N;
  passes_refs : references (Channel.value f) (lenN (fds f)) = Ok tt }.

Lemma tidy_passes b : tidy b → (lenN (b_fds b) <= MAX_FDS)%N → passes (frame_of b).
Proof.
  intros [Hk (l & Hl & Hp)] Hn. split; [done|]. apply references_are_exact. exists l. split; [|done].
  unfold frame_of. cbn [Channel.value fds].
  assert (refs (Object (params b)) = Some l) as Hr.
  { rewrite refs_values; [done|]. clear -Hk. induction (params b) as [|[k v] o IH]; [done|].
    rewrite fmap_cons in Hk. apply not_elem_of_cons in Hk as [Hne Hk]. simpl.
    rewrite bool_decide_false by done. by apply IH. }
  change (json_object _) with (Object [("jsonrpc", String_ "2.0"); ("method", String_ (method b));
    ("params", Object (params b))]).
  rewrite refs_values by done. cbn [fmap list_fmap snd refs_list].
  change (refs (String_ _)) with (Some (@nil N)). rewrite Hr. simpl. by rewrite app_nil_r.
Qed.
Lemma envelope_run b : open_envelope (Channel.value (frame_of b)) = Ok (method b, params b).
Proof. done. Qed.
Lemma frame_run host b held o l held' :
  (lenN (b_fds b) <= MAX_FDS)%N → (body_size (frame_of b) <= MAX_BODY)%N →
  dispatch host (method b) (body_size (frame_of b)) (mkLocal (params b) (all_slots (b_fds b)) held)
    = (Ok o, mkLocal [] (blank l) held') →
  receive_frame host (frame_of b) held = (Ok o, held').
Proof.
  intros Hf Hs Hd. unfold receive_frame, receive_inner. fold (body_size (frame_of b)).
  rewrite (proj2 (N.ltb_ge _ _)) by done.
  unfold descriptors_new. cbn [fds frame_of]. rewrite (proj2 (N.ltb_ge _ _)) by done.
  cbn [mbind res_bind]. fold (frame_of b). rewrite envelope_run. cbn [mbind res_bind].
  unfold all_slots in Hd.
  rewrite (bind_run _ _ _ _ _ Hd). unfold finish_descriptors.
  rewrite bind_assoc_run, (bind_run get _ _ _ _ eq_refl). cbn [slots].
  rewrite refuse_run; [done|]. apply negb_false_iff, forallb_forall.
  intros x Hx%list_elem_of_In. unfold blank in Hx. apply list_elem_of_fmap in Hx as (y & -> & _). done.
Qed.
Lemma travels_run host b r held :
  travels b (dispatch host (method b) (body_size (frame_of b))) r →
  (body_size (frame_of b) <= MAX_BODY)%N →
  passes (frame_of b) ∧ receive_frame host (frame_of b) held = (Ok r, held).
Proof.
  intros [Ht _ Hf Hb] Hs. split; [by apply tidy_passes|]. by apply (frame_run _ _ _ _ (b_fds b)).
Qed.

(** [total_size] is the sum, below the modulus. *)
Lemma total_size_sum n frames m : total_size n frames = Ok m → m = (n + sum (body_size <$> frames))%N.
Proof.
  revert n. induction frames as [|f frames IH]; intros n; cbn [total_size fmap list_fmap].
  - intros [= <-]. simpl. lia.
  - destruct (u64_checked_add n (body_size f)) as [k|] eqn:Hk; [|done].
    apply u64_checked_add_Some in Hk as [-> _]. intros ->%IH. cbn [sum foldr].
    fold (sum (body_size <$> frames)). lia.
Qed.
Lemma finish_Ok b frames : finish_builder b = Ok frames →
  frames = frame_of b :: following b ∧ (sum (body_size <$> frames) <= MAX_BODY)%N.
Proof.
  unfold finish_builder. rewrite res_bind_Ok. intros (n & Hn%total_size_sum & Hm).
  destruct (N.ltb_spec MAX_BODY n); [done|]. injection Hm as <-. split; [done|]. lia.
Qed.

(** ** One frame *)
Definition rootless (root : option Fd) (m : Message) : Prop :=
  match m with MEvent (Manifest _ _) => True | _ => root = None end.
Lemma started_travels host s tr cl b size :
  source_fits (source s) → (∀ n, payload_nofile s = Some n → u64_fits n) → handoff s = None →
  encode_start s (set_manifest None (new_builder "" tr cl)) = (Ok tt, b) →
  travels b (dispatch host (method b) size) (Some (mkReceived (MStart s) None)).
Proof.
  intros Hs Hp Hh He. apply encode_start_Ok in He as (Hv & o & hv & cl' & b2 & Hb & -> & Hsp); [|done..].
  rewrite Hh in Hb. destruct Hb as [-> ->]. cbn in *.
  pose proof (start_refs _ _ _ [] Hsp eq_refl) as (Hk & k & Hr & Hperm).
  assert (set_handoff None s = s) as Hsame by (destruct s; cbn in *; by subst).
  split; cbn [params b_fds following method set_params].
  - split; [done|]. exists k. split; [done|]. by rewrite app_nil_r in Hperm.
  - done.
  - pose proof (start_fds_length s). unfold MAX_FDS. lia.
  - intros p. change (dispatch _ _ _) with (receive_start host size).
    pose proof (receive_start_run host s Null _ size [] p None Hsp Hv eq_refl) as Hrun.
    rewrite !app_nil_r in Hrun. setoid_rewrite Hrun. rewrite Hsame. by rewrite (lift_run _ _ _ tt Hv).
Qed.
Lemma single_travels hs host m root tr cl b size :
  message_fits m → host_accepts host root m → handed m = None → rootless root m →
  (0 < tr <= u64_max)%N →
  encode_message hs m (set_manifest root (new_builder "" tr cl)) = (Ok tt, b) →
  travels b (dispatch host (method b) size) (delivery root tr m).
Proof.
  intros Hfit Hacc Hh Hroot Htr He. unfold delivery.
  destruct m as [s|r|result|api path directory sequence|error|c|e| | |n]; cbn [handed rootless] in *.
  - destruct Hfit as (Hs & Hp & _). subst root. cbn [encode_message needs_adoption] in *.
    rewrite Hh. by apply (started_travels host s tr cl).
  - by apply (maintenance_travels hs host r root tr cl).
  - cbn [encode_message] in He. pose proof (carried_unit_result result).
    repeat enc_step. norm_builder. use_fits. split; [tidy_up|done|few|].
    intros p. norm_builder. unfold all_slots, blank. cbn [fmap list_fmap].
    unfold dispatch. eval_names. by repeat dec_step.
  - by apply (preflight_travels hs host api path directory sequence root tr cl).
  - cbn [encode_message] in He. repeat enc_step. norm_builder. use_fits. split; [tidy_up|done|few|].
    intros p. norm_builder. unfold all_slots, blank. cbn [fmap list_fmap].
    unfold dispatch. eval_names. by repeat dec_step.
  - assert (is_start c = false) as Hs by by destruct c.
    assert (command_fits c) as Hc by by destruct c.
    subst root. cbn [encode_message] in He. change (set_manifest None _) with (new_builder "" tr cl) in He.
    rewrite (command_dispatch host size c tr cl b Hs He).
    assert (needs_adoption (MCommand c) = false) as -> by by destruct c.
    apply (travels_then b _ (λ c, Some (mkReceived (MCommand c) None))).
    by apply (command_travels c tr cl).
  - destruct (is_plain_event e) eqn:Hp.
    + assert (event_fits e) as He' by by destruct e.
      cbn [encode_message] in He. rewrite (event_dispatch host size e root tr cl b Hp He).
      assert (needs_adoption (MEvent e) = false) as -> by by destruct e.
      assert (arrival root (MEvent e) = MEvent e) as -> by by destruct e.
      apply (travels_then b _ (λ e, Some (mkReceived (MEvent e) None))).
      by apply (event_travels e root tr cl).
    + destruct e as [|sequence l|member [h|error]| | | | | | | | | | | | | | | | | | | | | | | ]; try discriminate.
      * by apply (manifest_travels hs host sequence l root tr cl).
      * cbn [encode_message encode_event] in He. repeat enc_step. norm_builder.
        match goal with H : to_value ?c ?x = Ok _ |- _ =>
          assert (carried c x) by apply carried_result, carried_string end.
        use_fits. split; [tidy_up|done|few|]. intros p. norm_builder. unfold all_slots, blank.
        cbn [fmap list_fmap]. unfold dispatch. eval_names. unfold receive_exported. by repeat dec_step.
  - cbn [encode_message] in He. repeat enc_step. by split; [tidy_up|done|few|].
  - cbn [encode_message] in He. repeat enc_step. by split; [tidy_up|done|few|].
  - cbn [encode_message] in He. repeat enc_step. norm_builder. use_fits. split; [tidy_up|done|few|].
    intros p. norm_builder. unfold all_slots, blank. cbn [fmap list_fmap].
    unfold dispatch. eval_names. by repeat dec_step.
Qed.

(** ** Several frames *)

(** The decoder takes the frames one by one and has the message at the last. *)
Inductive assembles (host : Host) : option Pending → list Frame → Received → Prop :=
| assembles_last held f r :
    receive_frame host f held = (Ok (Some r), None) → assembles host held [f] r
| assembles_more held f p frames r :
    receive_frame host f held = (Ok None, Some p) → assembles host (Some p) frames r →
    assembles host held (f :: frames) r.

(** The frame that opens a handoff. *)
Record opens (host : Host) (tr : N) (h : Handoff) (m : Message) (b : Builder) : Prop := {
  opens_tidy : tidy b;
  opens_few : (lenN (b_fds b) <= MAX_FDS)%N;
  opens_count : (lenN (leases h) <= MAX_BODY)%N;
  opens_run : ∃ pre target v text n,
    (∀ size, complete (mkPending target h tr (lenN (leases h)) size) = m) ∧
    n = lenN pre ∧ batches tr (drop (first_leases n h) (leases h)) (following b) ∧
    from_value wire_handoff_codec v = Ok (header n tr h text) ∧
    to_text dev_shell_text (dev_shell h) = Ok text ∧
    b_fds b = pre ++ head_fds n h ∧
    ∀ size, dispatch host (method b) size (mkLocal (params b) (all_slots (b_fds b)) None) =
      receive_handoff host target v size (mkLocal [] (blank pre ++ all_slots (head_fds n h)) None) }.

Lemma batches_assemble host tr m rest parts p :
  batches tr rest parts → rest ≠ [] → Forall (lease_known host) rest →
  p_transfer p = tr → (p_bytes p + sum (body_size <$> parts) <= MAX_BODY)%N →
  p_count p = (lenN (leases (p_handoff p)) + lenN rest)%N →
  (∀ size s, completed (mkPending (target p) (extend_leases rest (p_handoff p)) tr (p_count p) size) s =
             (Ok (Some (mkReceived m (Some tr))), s)) →
  assembles host (Some p) parts (mkReceived m (Some tr)) ∧ Forall passes parts.
Proof.
  intros Hb. revert p. induction Hb as [|rest b parts Hr Hpart Hb IH]; intros p Hne Hk Ht Hs Hc Hm; [done|].
  cbn [fmap list_fmap sum foldr] in Hs. fold (sum (body_size <$> parts)) in Hs.
  pose proof Hpart as [Hmeth Hfds Htidy _].
  assert (lenN (b_fds b) <= MAX_FDS)%N as Hfew.
  { rewrite Hfds. unfold lenN. rewrite length_fmap, length_take.
    unfold batch. assert (N.of_nat (N.to_nat MAX_FDS) = MAX_FDS) by apply N2Nat.id. lia. }
  assert (∀ o held', dispatch host (method b) (body_size (frame_of b))
      (mkLocal (params b) (all_slots (b_fds b)) (Some p)) = (Ok o, mkLocal [] (blank (b_fds b)) held') →
      receive_frame host (frame_of b) (Some p) = (Ok o, held')) as Hrun.
  { intros o held' Hd. apply (frame_run host b (Some p) o (b_fds b) held'); [done|lia|done]. }
  rewrite Hmeth in Hrun.
  change (dispatch host "Leases" (body_size (frame_of b))) with (receive_leases host (body_size (frame_of b))) in Hrun.
  rewrite (receive_leases_run host tr rest b (body_size (frame_of b)) p Hpart Hk Hr Ht ltac:(lia) Hc) in Hrun.
  case_bool_decide as Hd.
  - rewrite Hd in Hb. inversion Hb; subst; [|done].
    split; [|constructor; [by apply tidy_passes|constructor]].
    apply assembles_last, Hrun. unfold extended.
    assert (firstn batch rest = rest) as ->.
    { rewrite <-(take_drop batch rest) at 2. by rewrite Hd, app_nil_r. }
    by rewrite Hm.
  - destruct (IH (extended rest (body_size (frame_of b)) p)) as [Ha Hp].
    + done.
    + by apply Forall_drop.
    + done.
    + cbn [p_bytes extended]. lia.
    + cbn [p_count p_handoff extended leases extend_leases]. rewrite Hc, lenN_app.
      rewrite <-(take_drop batch rest) at 1. rewrite lenN_app. lia.
    + intros size s. cbn [target p_handoff p_count extended]. rewrite <-(Hm size s).
      assert (extend_leases (drop batch rest) (extend_leases (firstn batch rest) (p_handoff p)) =
        extend_leases rest (p_handoff p)) as ->; [|done].
      unfold extend_leases. cbn [leases workspace working_directory dev_shell docker].
      by rewrite <-(assoc (++)), take_drop.
    + split; [|constructor; [by apply tidy_passes|done]].
      eapply assembles_more; [|exact Ha]. by apply Hrun.
Qed.
Lemma opens_assembles host tr h m b :
  opens host tr h m b → Forall (lease_known host) (leases h) → handoff_fits h → (0 < tr)%N →
  (sum (body_size <$> frame_of b :: following b) <= MAX_BODY)%N →
  (match m with MStart s => valid_start s | _ => Ok tt end = Ok tt) →
  assembles host None (frame_of b :: following b) (mkReceived m (Some tr)) ∧
  Forall passes (frame_of b :: following b).
Proof.
  intros [Ht Hf Hc (pre & aim & v & text & n & Hm & Hn & Hb & Hv & Htext & Hfds & Hd)] Hk Hfit Htr Hs Hvs.
  cbn [fmap list_fmap sum foldr] in Hs. fold (sum (body_size <$> following b)) in Hs.
  assert (∀ size s, completed (mkPending aim h tr (lenN (leases h)) size) s =
    (Ok (Some (mkReceived m (Some tr))), s)) as Hdone.
  { intros size s. unfold completed. rewrite Hm. cbn [p_transfer]. by rewrite (lift_run _ _ _ tt Hvs). }
  pose proof (receive_handoff_run host h tr text Hk Hfit Htext Htr Hc n v aim
    (body_size (frame_of b)) [] (blank pre)) as Hrun.
  assert (passes (frame_of b)) as Hpass by by apply tidy_passes.
  assert (∀ o held', dispatch host (method b) (body_size (frame_of b))
      (mkLocal (params b) (all_slots (b_fds b)) None) = (Ok o, mkLocal [] (blank (b_fds b)) held') →
      receive_frame host (frame_of b) None = (Ok o, held')) as Hframe.
  { intros o held' He. apply (frame_run host b None o (b_fds b) held'); [done|lia|done]. }
  rewrite Hd, Hrun in Hframe; [|rewrite Hn; unfold blank, lenN; rewrite length_fmap; lia|done].
  rewrite Hfds, blank_app in Hframe. unfold more_to_come in Hframe.
  destruct (N.ltb_spec (N.of_nat (first_leases n h)) (lenN (leases h))) as [Hlt|Hge].
  - destruct (batches_assemble host tr m (drop (first_leases n h) (leases h)) (following b)
      (begun h tr n aim (body_size (frame_of b)))) as [Ha Hp]; try done.
    + intros Hnil%(f_equal length). rewrite length_drop in Hnil. unfold lenN in Hlt. simpl in Hnil. lia.
    + by apply Forall_drop.
    + cbn [p_count p_handoff begun with_leases leases].
      rewrite <-lenN_app, take_drop. done.
    + intros size s. cbn [target p_handoff p_count begun]. unfold extend_leases, with_leases.
      cbn [leases workspace working_directory dev_shell docker]. rewrite take_drop.
      rewrite <-(Hdone size s). by destruct h.
    + split; [|by constructor]. eapply assembles_more; [|exact Ha]. by apply Hframe.
  - rewrite drop_ge in Hb by (unfold lenN in Hge; lia). inversion Hb; [|done].
    split; [|by constructor]. apply assembles_last, Hframe. by rewrite Hdone.
Qed.

(** ** Each handoff opens *)
Lemma head_fds_few n h : (n <= 2)%N → (n + lenN (head_fds n h) <= MAX_FDS)%N.
Proof.
  intros Hn. unfold head_fds, lenN. rewrite length_cons, length_app, length_fmap, length_take.
  unfold first_leases, dir_fds, lenN, MAX_FDS. destruct (working_directory h); simpl; lia.
Qed.
Lemma command_opens host h tr cl b : u64_fits tr →
  encode_command (Outbound.Start (P := protocol_carried) h) (new_builder "" tr cl) = (Ok tt, b) →
  opens host tr h (MCommand (Outbound.Start (P := protocol_carried) h)) b.
Proof.
  intros Htr He. cbn [encode_command] in He. repeat enc_step.
  match goal with H : encode_handoff _ _ = _ |- _ =>
    apply encode_handoff_Ok in H as (cl' & parts & text & l & -> & Rl & Hl & Hc & Ht & Hv & Hb); [|done|done] end.
  match goal with H : to_value value_codec _ = Ok _ |- _ => injection H as <- end.
  norm_builder. pose proof (head_fds_few 0 h ltac:(lia)) as Hf. rewrite N.add_0_l in Hf.
  split; norm_builder; [|done|done|].
  - split; [no_marker|]. eexists. split; [all_refs|]. norm_builder. rewrite app_nil_r, Hl. unfold lenN.
    by rewrite numbers_indexes.
  - eexists [], StartCommand, _, text, 0%N. split_and!; [done|done|done|exact Hv|done|done|]. intros size. norm_builder.
    unfold dispatch. eval_names. by repeat dec_step.
Qed.
Lemma exported_opens host member h tr cl b : u64_fits tr →
  encode_event (Exported member (inl h)) (new_builder "" tr cl) = (Ok tt, b) →
  opens host tr h (MEvent (Exported member (inl h))) b.
Proof.
  intros Htr He. cbn [encode_event] in He. repeat enc_step.
  match goal with H : encode_handoff _ _ = _ |- _ =>
    apply encode_handoff_Ok in H as (cl' & parts & text & l & -> & Rl & Hl & Hc & Ht & Hv & Hb); [|done|done] end.
  match goal with H : to_value (result_codec _ _) _ = Ok _ |- _ => injection H as <- end.
  norm_builder. pose proof (head_fds_few 0 h ltac:(lia)) as Hf. rewrite N.add_0_l in Hf.
  match type of Rl with refs ?v = _ =>
    assert (refs (Object [("Ok", v)]) = Some l) as Ro
      by (rewrite refs_values by done; etrans; [apply (refs_cons v [] l []); done|]; by rewrite app_nil_r) end.
  use_fits. split; norm_builder; [|done|done|].
  - split; [no_marker|]. eexists. split; [all_refs|]. norm_builder. cbn [app]. rewrite app_nil_r, Hl.
    unfold lenN. by rewrite numbers_indexes.
  - eexists [], (ExportedTo member), _, text, 0%N. split_and!; [done|done|done|exact Hv|done|done|]. intros size. norm_builder.
    unfold dispatch. eval_names. unfold receive_exported. by repeat dec_step.
Qed.
Lemma start_opens host s h tr cl b : u64_fits tr →
  source_fits (source s) → (∀ n, payload_nofile s = Some n → u64_fits n) → handoff s = Some h →
  encode_start s (new_builder "" tr cl) = (Ok tt, b) →
  valid_start s = Ok tt ∧ opens host tr h (MStart s) b.
Proof.
  intros Htr Hs Hp Hh He. apply (encode_start_Ok s None tr cl b Hs Hp) in He
    as (Hv & o & hv & cl' & b2 & Hb & -> & Hsp). split; [done|]. rewrite Hh in Hb.
  pose proof (start_fds_length s) as Hn.
  apply encode_handoff_Ok in Hb as (cl2 & parts & text & l & -> & Rl & Hl & Hc & Ht & Hw & Hbs);
    [|done|done].
  cbn [set_params set_fds set_following set_clones params b_fds following b_transfer method] in *.
  pose proof (start_refs _ _ _ l Hsp Rl) as (Hk & k & Hr & Hperm).
  pose proof (head_fds_few (lenN (start_fds s)) h Hn) as Hf.
  split; cbn [params b_fds following method].
  - split; [done|]. exists k. split; [done|]. rewrite Hperm, Hl.
    change (lenN (b_fds _)) with (lenN (start_fds s ++ head_fds (lenN (start_fds s)) h)).
    rewrite lenN_app. unfold lenN at 5. by rewrite indexes_numbers.
  - change (lenN (b_fds _)) with (lenN (start_fds s ++ head_fds (lenN (start_fds s)) h)).
    by rewrite lenN_app.
  - done.
  - exists (start_fds s), (Startup (set_handoff None s)), hv, text, (lenN (start_fds s)).
    split_and!; [|done|done|done|done|done|].
    + intros size. unfold complete. cbn [target p_handoff]. destruct s. cbn in *. by subst.
    + intros size. change (dispatch _ _ _) with (receive_start host size).
      change (all_slots (b_fds _)) with (all_slots (start_fds s ++ head_fds (lenN (start_fds s)) h)).
      unfold all_slots. rewrite fmap_app. fold (all_slots (start_fds s)). fold (all_slots (head_fds (lenN (start_fds s)) h)).
      rewrite (receive_start_run host s hv _ size _ None (Some hv) Hsp Hv); [done|].
      cbn [from_value option_codec]. destruct hv; done.
Qed.

(** ** Preparing *)
Lemma prepared_root_same a m root m' : prepared_root a m = (Ok root, m') →
  rootless root m' ∧ handed m' = handed m.
Proof.
  destruct m as [s|r|result|api path directory sequence|error|c|e| | |n];
    try (intros [= <- <-]; done).
  destruct e; try (intros [= <- <-]; done). cbn [prepared_root].
  destruct (prepare_transfer _ _ _) as [r l]. by intros [= _ <-].
Qed.

(** A preparation that succeeds: the transfer's number, the message with its
    locks, the builder it left and the frames of it. *)
Lemma prepare_Ok h a m e p e' : prepare h a m e = (Ok p, e') →
  ∃ root m' b,
    prepared_root a m = (Ok root, m') ∧
    encode_message h m' (set_manifest root (new_builder "" (next e + 1) (duplicates a))) = (Ok tt, b) ∧
    finish_builder b = Ok (frames p) ∧ (next e + 1 <= u64_max)%N ∧ e' = mkEncoder (next e + 1) ∧
    p = mkPrepared (frames p) (Some m') (next e + 1) (needs_adoption m').
Proof.
  unfold prepare. intros He. apply bind_Ok in He as (e1 & s1 & Hg & He). injection Hg as <- <-.
  apply bind_Ok in He as (tr & s2 & Ht & He).
  destruct (u64_checked_add (next e) 1) as [tr'|] eqn:Hadd; [|done]. cbn [ok_or] in Ht.
  apply ret_Ok in Ht as [-> ->]. apply u64_checked_add_Some in Hadd as [-> Hlt].
  apply bind_Ok in He as (u & s3 & Hp & He). injection Hp as <- <-.
  destruct (prepared_root a m) as [r m'] eqn:Hr. apply bind_Ok in He as (root & s4 & Hl & He).
  apply lift_Ok in Hl as [-> ->].
  destruct (encode_message h m' _) as [r b] eqn:Henc.
  apply bind_Ok in He as (u & s5 & Hl & He). apply lift_Ok in Hl as [-> ->].
  apply bind_Ok in He as (fs & s6 & Hl & He). apply lift_Ok in Hl as [Hf ->].
  apply ret_Ok in He as [<- ->]. cbn [frames]. destruct u.
  exists root, m', b. split_and!; try done. unfold u64_modulus, u64_max in *. lia.
Qed.

(** A manifest's preparation locks its root, if it has one, and nothing else. *)
Lemma prepare_transfer_Ok own sent lease root l : prepare_transfer own sent lease = (Ok root, l) →
  ml_path l = ml_path lease ∧ ml_root l = ml_root lease ∧
  match ml_root lease, root with Some _, Some _ | None, None => True | _, _ => False end.
Proof.
  unfold prepare_transfer. destruct (ml_root lease) as [x|] eqn:Hx; [|by intros [= <- <-]].
  destruct (ml_transfer lease); [|destruct (locked own); try discriminate];
    (destruct (locked sent); cbn [mbind res_bind]; [|discriminate..]); intros Heq;
    injection Heq as <- <-; by cbn [ml_path ml_root].
Qed.
Lemma manifest_prepared a sequence lease root m' :
  prepared_root a (MEvent (Manifest sequence lease)) = (Ok root, m') →
  ∃ l, m' = MEvent (Manifest sequence l) ∧ ml_path l = ml_path lease ∧ ml_root l = ml_root lease ∧
       match ml_root l, root with Some _, Some _ | None, None => True | _, _ => False end.
Proof.
  cbn [prepared_root]. destruct (prepare_transfer _ _ _) as [r l] eqn:Hp. intros Heq.
  injection Heq as Hr <-. destruct r as [o| |]; [|discriminate..]. injection Hr as <-.
  apply prepare_transfer_Ok in Hp as (Hpath & Hroot & Hm). exists l. by rewrite Hroot.
Qed.
Lemma plain_prepared a m root m' :
  match m with MEvent (Manifest _ _) => False | _ => True end → prepared_root a m = (Ok root, m') →
  root = None ∧ m' = m.
Proof. destruct m; try (by intros _ [= <- <-]). destruct event; try done; by intros _ [= <- <-]. Qed.
Definition is_manifest (m : Message) : {∃ sequence l, m = MEvent (Manifest sequence l)} +
  {match m with MEvent (Manifest _ _) => False | _ => True end}.
Proof. destruct m; try (by right). destruct event; try (by right). left. by eexists _, _. Defined.

(** The locks a manifest gets change nothing the frames show. *)
Lemma prepared_root_fits a m root m' : prepared_root a m = (Ok root, m') →
  message_fits m → message_fits m' ∧ (∀ host, host_accepts host root m → host_accepts host root m') ∧
  arrival root m' = arrival root m ∧ needs_adoption m' = needs_adoption m ∧
  (handed m ≠ None → m' = m).
Proof.
  destruct (is_manifest m) as [(sequence & lease & ->)|Hm].
  - intros (l & -> & Hp & Hr & _)%manifest_prepared Hfit. split_and!; [done| | |done|done].
    + intros host. cbn [host_accepts]. unfold sent_lease. by rewrite Hp, Hr.
    + cbn [arrival]. unfold sent_lease. by rewrite Hp, Hr.
  - intros [-> ->]%plain_prepared Hfit; [|done]. by split_and!.
Qed.

Lemma opened host h m root tr cl b x : message_fits m → handed m = Some x → rootless root m →
  (0 < tr <= u64_max)%N →
  encode_message h m (set_manifest root (new_builder "" tr cl)) = (Ok tt, b) →
  opens host tr x m b ∧ handoff_fits x ∧ match m with MStart s => valid_start s | _ => Ok tt end = Ok tt.
Proof.
  intros Hfit Hx Hroot Htr He.
  assert (u64_fits tr) by (unfold u64_fits; lia).
  destruct m as [s|r|result|api path directory sequence|error|c|e| | |n]; cbn [handed rootless] in *; try done.
  - subst root. destruct Hfit as (Hs & Hp & Hh).
    destruct (start_opens host s x tr cl b) as [Hv Ho]; [done..|]. split_and!; [done|by apply Hh|done].
  - destruct c; try done. injection Hx as <-. subst root.
    split_and!; [by apply (command_opens host _ tr cl)|done|done].
  - destruct e as [|sequence l|member [y|error]| | | | | | | | | | | | | | | | | | | | | | | ]; try done.
    injection Hx as <-. subst root. split_and!; [by apply (exported_opens host member y tr cl)|done|done].
Qed.

(** A host that knows every lock: frames do not depend on the receiver's. *)
Definition agreeable : Host :=
  mkHost (λ _, Ok 2%N) (λ _, Ok (mkStat true 0 0 0)) (λ _, Ok (mkStat true 0 0 0)) 0.
Lemma agreeable_accepts hs a m root m' cl tr b : prepared_root a m = (Ok root, m') → handed m' = None →
  encode_message hs m' (set_manifest root (new_builder "" tr cl)) = (Ok tt, b) →
  host_accepts agreeable root m'.
Proof.
  intros Hr Hh He. destruct m' as [s|r|result|api path directory sequence|error|c|e| | |n];
    cbn [host_accepts]; try (by intros x; rewrite Hh).
  - cbn [encode_message] in He. repeat enc_step.
    match goal with H : valid_maintenance _ _ = Ok _ |- _ => revert H end.
    unfold valid_maintenance. destruct (N.eqb_spec (m_api r) API); [|done]. done.
  - destruct (is_manifest m) as [(s & lease & ->)|Hm].
    + apply manifest_prepared in Hr as (l & [= ->] & _ & _ & Hl). unfold from_transfer, sent_lease.
      destruct (ml_root l) as [x|], root; done.
    + pose proof (plain_prepared _ _ _ _ Hm Hr) as [-> <-].
      destruct e; try done; intros x; by rewrite Hh.
Qed.
Lemma batches_pass tr rest parts : batches tr rest parts → Forall passes parts.
Proof.
  induction 1 as [|rest b parts _ [_ Hf Ht _] _ IH]; constructor; [|done]. apply tidy_passes; [done|].
  rewrite Hf. unfold lenN. rewrite length_fmap, length_take. unfold batch.
  assert (N.of_nat (N.to_nat MAX_FDS) = MAX_FDS) by apply N2Nat.id. lia.
Qed.
Lemma prepared_pass h a m e p e' : prepare h a m e = (Ok p, e') → message_fits m →
  Forall passes (frames p) ∧ (sum (body_size <$> frames p) <= MAX_BODY)%N.
Proof.
  intros Hp Hfit. apply prepare_Ok in Hp as (root & m' & b & Hr & He & Hf & Htr & _ & _).
  apply finish_Ok in Hf as [-> Hs]. split; [|done].
  destruct (prepared_root_fits _ _ _ _ Hr Hfit) as (Hfit' & _ & _ & _ & _).
  destruct (prepared_root_same _ _ _ _ Hr) as [Hroot _].
  destruct (handed m') as [x|] eqn:Hx.
  - destruct (opened agreeable h m' root (next e + 1) (duplicates a) b x) as ([Ht Hfew _ Hrun] & _);
      [done..|lia|done|].
    destruct Hrun as (pre & aim & v & text & n & _ & _ & Hb & _).
    constructor; [by apply tidy_passes|by apply batches_pass in Hb].
  - pose proof (agreeable_accepts h a m root m' _ _ b Hr Hx He) as Hacc.
    destruct (single_travels h agreeable m' root (next e + 1) (duplicates a) b 0) as [Ht Ha Hfew _]; try done;
      [lia|]. rewrite Ha. constructor; [by apply tidy_passes|constructor].
Qed.

(** C23. What the encoder prepares is what the channel takes. Every frame of a
    prepared message, whatever its batching, refers to each of its
    descriptors exactly once and stays within the limits on descriptors and
    on bytes, which the frames share: the channel refuses it for nothing but
    being closed or lacking room. *)
Theorem prepared_frames_pass h a m e p e' f c :
  prepare h a m e = (Ok p, e') → message_fits m → f ∈ frames p → (0 < body_size f)%N →
  (sum (body_size <$> frames p) <= MAX_BODY)%N ∧
  match queue (Channel.value f) (fds f) c with
  | (Ok _, rest, c') =>
      rest = [] ∧ output c' = output c ++ [mkOutput (frame_bytes (to_bytes (Channel.value f)) (lenN (fds f))) 0 (fds f)]
  | (Err error, rest, c') => (error = BrokenPipe ∨ error = WouldBlock) ∧ rest = fds f ∧ c' = c
  | (Panic, _, _) => False
  end.
Proof.
  intros Hp Hfit Hf Hpos. destruct (prepared_pass _ _ _ _ _ _ Hp Hfit) as [Hpass Hs]. split; [done|].
  rewrite Forall_forall in Hpass. destruct (Hpass f Hf) as [Hfew Hr].
  assert (body_size f <= MAX_BODY)%N as Hsize.
  { apply list_elem_of_split in Hf as (l1 & l2 & Heq). rewrite Heq, fmap_app, sum_app in Hs.
    cbn [fmap list_fmap sum foldr] in Hs. fold (sum (body_size <$> l2)) in Hs. lia. }
  unfold queue. destruct (closed c); [by split_and!; [left|..]|].
  rewrite (proj2 (N.ltb_ge _ _)) by done. rewrite Hr. unfold body_size, MAX_BODY in *.
  rewrite (proj2 (N.eqb_neq _ _)) by lia. rewrite (proj2 (N.ltb_ge MAX_FRAME_BODY _)) by done.
  cbn [orb]. destruct (_ || _ || _); [by split_and!; [right|..]|done].
Qed.

(** A message that hands over resources arrives from its frames taken one
    after the other, any other from its only frame. *)
Lemma handed_assembles host h a m e p e' root m' x :
  prepare h a m e = (Ok p, e') → prepared_root a m = (Ok root, m') →
  message_fits m → host_accepts host root m → handed m = Some x →
  assembles host None (frames p) (mkReceived m (Some (transfer p))).
Proof.
  intros Hp Hr Hfit Hacc Hx. apply prepare_Ok in Hp as (root' & m2 & b & Hr' & He & Hf & Htr & _ & ->).
  rewrite Hr in Hr'. injection Hr' as <- <-. cbn [frames transfer] in *.
  destruct (prepared_root_fits _ _ _ _ Hr Hfit) as (_ & _ & _ & _ & Hsame).
  destruct (prepared_root_same _ _ _ _ Hr) as [Hroot _].
  apply finish_Ok in Hf as [Hfr Hs]. rewrite Hfr in *. specialize (Hsame ltac:(by rewrite Hx)). subst m'.
  destruct (opened host h m root (next e + 1) (duplicates a) b x) as (Ho & Hhf & Hv); [done..|lia|done|].
  apply (opens_assembles host _ x m b Ho); try done; [|lia].
  destruct m; try done; cbn [host_accepts] in Hacc; try (by apply Hacc).
  destruct event; try done; by apply Hacc.
Qed.
Lemma single_delivered host h a m e p e' root m' :
  prepare h a m e = (Ok p, e') → prepared_root a m = (Ok root, m') →
  message_fits m → host_accepts host root m → handed m = None →
  ∃ f, frames p = [f] ∧ ∀ held, receive_frame host f held = (Ok (delivery root (transfer p) m), held).
Proof.
  intros Hp Hr Hfit Hacc Hx. apply prepare_Ok in Hp as (root' & m2 & b & Hr' & He & Hf & Htr & _ & ->).
  rewrite Hr in Hr'. injection Hr' as <- <-. cbn [frames transfer] in *.
  destruct (prepared_root_fits _ _ _ _ Hr Hfit) as (Hfit' & Hacc' & Harr & Hneed & _).
  destruct (prepared_root_same _ _ _ _ Hr) as [Hroot Hhand]. specialize (Hacc' _ Hacc).
  apply finish_Ok in Hf as [Hfr Hs]. rewrite Hfr in *. rewrite <-Hhand in Hx.
  pose proof (single_travels h host m' root (next e + 1) (duplicates a) b (body_size (frame_of b))
    Hfit' Hacc' Hx Hroot ltac:(lia) He) as Ht.
  exists (frame_of b). split; [by rewrite (travels_alone _ _ _ Ht)|]. intros held.
  unfold delivery in *. rewrite Harr, Hneed in Ht.
  cbn [fmap list_fmap sum foldr] in Hs.
  by apply (travels_run host b _ held Ht); lia.
Qed.

(** C22. The protocol's round trip. A message whose fields are in the range of
    their types arrives as itself: from its only frame, whatever handoff the
    decoder is assembling and without touching it; or, when it hands over
    resources, from its frames taken one after the other, however many
    batches its leases fill. A manifest arrives with the lock that was sent.
    Only messages that carry ownership are to be acknowledged, by their
    transfer's number. *)
Theorem prepared_is_delivered host h a m e p e' root m' :
  prepare h a m e = (Ok p, e') → prepared_root a m = (Ok root, m') →
  message_fits m → host_accepts host root m →
  match handed m with
  | Some _ => assembles host None (frames p) (mkReceived m (Some (transfer p)))
  | None => ∃ f, frames p = [f] ∧ ∀ held, receive_frame host f held = (Ok (delivery root (transfer p) m), held)
  end.
Proof.
  intros Hp Hr Hfit Hacc. destruct (handed m) as [x|] eqn:Hx.
  - by apply (handed_assembles host h a m e p e' root m' x).
  - by apply (single_delivered host h a m e p e' root m').
Qed.
End protocol.

(** ** Examples

    A handoff of 300 leases and four descriptors fills two frames. *)
Module Examples.
Definition null_codec : Codec unit := mkCodec (λ _, Ok Null) (λ _, Ok tt).
Definition null_text : TextCodec unit := mkTextCodec (λ _, Ok "null") (λ _, Ok tt).
Definition short_json : JsonText := {|
  from_bytes := λ _, Some Null; json_error := λ _, ""; to_bytes := λ _, bytes "{}" |}.
Definition some_error : SerdeText := λ what _, what.
Definition plain_payloads : Payloads := {|
  request_codec := null_codec; changes_codec := null_codec;
  terminal_codec := mkCodec (λ _, Ok Null) (λ _, Err "terminal");
  spawn_kind_codec := mkCodec (λ _, Ok Null) (λ _, Err "kind");
  recreate_codec := null_codec; operation_codec := null_codec; policy_codec := null_codec;
  support_codec := null_codec; identity_codec := null_codec; recreated_codec := null_codec;
  auto_codec := null_codec; reply_codec := null_codec; status_codec := null_codec;
  outcome_codec := null_codec; DevShell := unit; dev_shell_text := mkTextCodec (λ _, Ok "null") (λ _, Ok None);
  summary_text := null_text; opt_summary_text := mkTextCodec (λ _, Ok "null") (λ _, Ok None) |}.
#[local] Existing Instances short_json some_error plain_payloads.

Definition many_leases : Handoff :=
  mkHandoff ((λ n, mkLease "/run/lease" (N.of_nat n)) <$> seq 5 300) 3
    (Some (mkWorkingDirectory 4 "/home/user" "/home/user")) None false.
Definition start_command : Message := MCommand (Outbound.Start (P := protocol_carried) many_leases).
Definition answers : Answers := mkAnswers (Ok None) (Ok None) [].
Definition fourth := mkEncoder 3.

Lemma start_command_fits : message_fits start_command.
Proof. intros t Ht. done. Qed.
Lemma start_command_accepted : host_accepts agreeable None start_command.
Proof. intros x [= <-]. apply Forall_fmap, Forall_true. done. Qed.
Lemma prepared_frames_pass_witness :
  match prepare agreeable answers start_command fourth with
  | (Ok p, _) =>
      (lenN <$> (fds <$> frames p)) = [240; 62]%N ∧
      ∀ f, f ∈ frames p → match queue (Channel.value f) (fds f) new_channel with
                          | (Ok _, rest, _) => rest = [] | (Err e, _, _) => e = BrokenPipe ∨ e = WouldBlock | _ => False end
  | _ => False
  end.
Proof.
  destruct (prepare agreeable answers start_command fourth) as [r e'] eqn:Hp.
  destruct r as [p| |]; [|vm_compute in Hp; discriminate..]. split.
  - vm_compute in Hp. injection Hp as <- _. reflexivity.
  - intros f Hf.
    pose proof (prepared_frames_pass _ _ _ _ p e' f new_channel Hp start_command_fits Hf eq_refl) as [_ Hq].
    destruct (queue _ _ _) as [[[u|error|] rest] c'].
    + by destruct Hq.
    + by destruct Hq.
    + done.
Defined.
Lemma prepared_is_delivered_witness :
  match prepare agreeable answers start_command fourth with
  | (Ok p, _) => length (frames p) = 2 ∧
                 assembles agreeable None (frames p) (mkReceived start_command (Some 4%N))
  | _ => False
  end.
Proof.
  destruct (prepare agreeable answers start_command fourth) as [r e'] eqn:Hp.
  destruct r as [p| |]; [|vm_compute in Hp; discriminate..].
  assert (transfer p = 4%N ∧ length (frames p) = 2) as [Ht Hl]
    by (vm_compute in Hp; injection Hp as <- _; done).
  split; [done|]. rewrite <-Ht.
  exact (prepared_is_delivered agreeable _ _ _ _ p e' None start_command Hp eq_refl start_command_fits
           start_command_accepted).
Defined.
End Examples.
