(* ===== verification/WriterSpec.v ===== *)
(** * What the writer promises

    Runs of the daemon's writer with a trace of what it committed: the receiver
    of what the socket took reads every committed command, a cancellation may arrive between two batches of a
    handoff and disturbs it no further, what is handed over stays with the
    writer until it was adopted, and the writer never fails by itself. *)
From S2P Require Import Prelude Json Messages Framing Channel Codec Protocol Handoff ProtocolFacts.
From S2P Require Import CommandTravels MessageTravels Writer ProtocolSpec ChannelSpec.
From S2P Require Outbound OutboundSpec.

Section writer.
Context `{JsonText} `{SerdeText} `{Payloads}.
Abbreviation Command := (@Outbound.Command protocol_carried).
Abbreviation Commands := (@Outbound.Commands protocol_carried).
Implicit Types (w : Writer) (e : End) (p : Prepared) (f : Frame).

(** ** Traces *)
Record Trace := mkTrace {
  main : list Received; urgent : list Received; acknowledged : list N }.
Definition empty_trace : Trace := mkTrace [] [] [].
Definition observe m u (t : Trace) : Trace :=
  mkTrace (main t ++ m) (urgent t ++ u) (acknowledged t).

(** What the receiver is to make of a prepared message. *)
Definition promised p : list Received :=
  match original p with
  | Some m => [mkReceived m (if adoption p then Some (transfer p) else None)]
  | None => []
  end.
Definition filled (before after : option Prepared) : list Received :=
  match before, after with None, Some p => promised p | _, _ => [] end.

(** A turn of [pump_commands] up to its commitments, and what it committed to
    either slot. *)
Definition settled_turn (a0 : list Sent) : M End ChannelError bool :=
  _ ← flushed a0;
  e ← get;
  if wants_write (channel e) then mret false else
  _ ← completed; _ ← account_completed; mret true.
Definition observed (h : Host) (k1 k2 : Answers) (a0 : list Sent) e (t : Trace) : Trace :=
  match settled_turn a0 e with
  | (Ok true, e1) =>
      let e2 := (commit_cancellation h k1 e1).2 in
      let e3 := (commit_command h k2 e2).2 in
      observe (filled (current (writer e2)) (current (writer e3)))
        (filled (priority (writer e1)) (priority (writer e2))) t
  | _ => t
  end.

Lemma observe_nil t : observe [] [] t = t.
Proof. destruct t. unfold observe. cbn. by rewrite !app_nil_r. Qed.

(** ** Runs

    The actor uses its queue, takes a turn, or is told of an adoption. *)
Inductive WOp :=
| OQueue (op : @OutboundSpec.Op protocol_carried)
| OTurn (k1 k2 : Answers) (a0 a1 a2 : list Sent)
| OAdopted (id : N).
Definition used (op : @OutboundSpec.Op protocol_carried) (s : Commands) : Commands :=
  (OutboundSpec.step (s, OutboundSpec.empty_ledger) op).1.
Definition wstep (h : Host) (et : End * Trace) (op : WOp) : res ChannelError (End * Trace) :=
  let '(e, t) := et in
  match op with
  | OQueue op => Ok (set_commands (used op (commands e)) e, t)
  | OTurn k1 k2 a0 a1 a2 =>
      match pump_commands h k1 k2 a0 a1 a2 e with
      | (Ok _, e') => Ok (e', observed h k1 k2 a0 e t)
      | (Err x, _) => Err x
      | (Panic, _) => Panic
      end
  | OAdopted id =>
      match zoom writer set_writer (writer_adopted id) e with
      | (Ok _, e') => Ok (e', mkTrace (main t) (urgent t) (acknowledged t ++ [id]))
      | (Err x, _) => Err x
      | (Panic, _) => Panic
      end
  end.
Fixpoint wrun (h : Host) (ops : list WOp) (et : End * Trace) : res ChannelError (End * Trace) :=
  match ops with [] => Ok et | op :: ops => et ← wstep h et op; wrun h ops et end.
Definition new_end : End :=
  mkEnd new_writer new_channel Outbound.default_commands (mkEncoder 0).
Definition written (h : Host) (ops : list WOp) : res ChannelError (End * Trace) :=
  wrun h ops (new_end, empty_trace).

Lemma wrun_ind h (I : End → Trace → Prop) :
  (∀ e t op e' t', I e t → wstep h (e, t) op = Ok (e', t') → I e' t') →
  ∀ ops e t e' t', I e t → wrun h ops (e, t) = Ok (e', t') → I e' t'.
Proof.
  intros Hstep ops. induction ops as [|op ops IH]; intros e t e' t' Hi; cbn [wrun].
  - by intros [= <- <-].
  - intros ([e1 t1] & Hs & Hr)%CodecFacts.res_bind_Ok. eauto.
Qed.

(** ** Turns, taken apart *)
Definition finished (o : option Prepared) : option Prepared :=
  match o with Some p => if Outbound.is_nil (frames p) then None else Some p | None => None end.
Lemma settle_output_slots w u w' : settle_output w = (Ok u, w') →
  current w' = current w ∧ priority w' = priority w ∧ held w' = held w.
Proof.
  unfold settle_output. destruct (current_output w); [destruct (completed_output w)|]; by intros [= <- <-].
Qed.
Lemma keep_pending_slots p w u w' : keep_pending p w = (Ok u, w') →
  current w' = current w ∧ priority w' = priority w.
Proof.
  unfold keep_pending. intros (o & w1 & [_ ->]%lift_Ok & Hk)%bind_Ok.
  destruct o as [t|]; [|by apply ret_Ok in Hk as [_ ->]].
  apply bind_Ok in Hk as (w1 & w2 & Hg & Hk). injection Hg as <- <-.
  apply bind_Ok in Hk as (x & w3 & [_ ->]%refuse_Ok & Hk). by injection Hk as <- <-.
Qed.
Lemma complete_slot_slots (b : bool) w u w' : complete_slot b w = (Ok u, w') →
  current w' = (if b then finished (current w) else current w) ∧
  priority w' = (if b then priority w else finished (priority w)).
Proof.
  unfold complete_slot. intros (w1 & w2 & Hg & Hk)%bind_Ok. injection Hg as <- <-.
  destruct b.
  - destruct (current w) as [p|] eqn:Hc; [|apply ret_Ok in Hk as [_ ->]; by rewrite Hc].
    cbn [finished]. destruct (Outbound.is_nil _); [|apply ret_Ok in Hk as [_ ->]; by rewrite Hc].
    apply bind_Ok in Hk as (x & w3 & Hp & Hk). injection Hp as <- <-.
    apply bind_Ok in Hk as (x & w4 & Hs & Hk). apply settle_output_slots in Hs as (Hc1 & Hp1 & _).
    apply keep_pending_slots in Hk as [-> ->]. by rewrite Hc1, Hp1.
  - destruct (priority w) as [p|] eqn:Hc; [|apply ret_Ok in Hk as [_ ->]; by rewrite Hc].
    cbn [finished]. destruct (Outbound.is_nil _); [|apply ret_Ok in Hk as [_ ->]; by rewrite Hc].
    apply bind_Ok in Hk as (x & w3 & Hp & Hk). injection Hp as <- <-.
    apply bind_Ok in Hk as (x & w4 & Hs & Hk). apply ret_Ok in Hs as [_ ->].
    by apply keep_pending_slots in Hk as [-> ->].
Qed.

(** The writer's part of a state, after each of the steps of a turn. *)
Definition same_slots e e' : Prop :=
  current (writer e') = current (writer e) ∧ priority (writer e') = priority (writer e).
Definition finished_slots e e' : Prop :=
  current (writer e') = finished (current (writer e)) ∧
  priority (writer e') = finished (priority (writer e)).
Lemma flushed_slots a e u e' : flushed a e = (Ok u, e') → e' = set_channel (channel e') e.
Proof. unfold flushed. by intros (c & _ & ->)%zoom_Ok. Qed.
Lemma queued_slots f e u e' : queued f e = (Ok u, e') → e' = set_channel (channel e') e.
Proof. unfold queued. destruct (queue _ _ _) as [[r l] c]. by intros [= _ <-]. Qed.
Lemma completed_slots e u e' : completed e = (Ok u, e') →
  e' = set_writer (writer e') e ∧ finished_slots e e'.
Proof.
  unfold completed. intros (w & (x & w1 & Hm & Hp)%bind_Ok & ->)%zoom_Ok. split; [done|].
  apply complete_slot_slots in Hm as [Hc1 Hp1], Hp as [Hc2 Hp2].
  split; cbn [writer set_writer]; congruence.
Qed.
Lemma no_turn_no_frame w : has_turn w = false → next_frame w = None.
Proof. unfold has_turn, next_frame. destruct (priority w), (current w); done. Qed.

Lemma finished_has_frame e e' : finished_slots e e' → has_turn (writer e') = true →
  is_Some (next_frame (writer e')).
Proof.
  intros [Hc Hp] Ht. unfold has_turn, next_frame, finished in *. revert Ht. rewrite Hc, Hp.
  destruct (priority (writer e)) as [[[|] ???]|], (current (writer e)) as [[[|] ???]|]; cbn; (done || eauto).
Qed.
(** A [pump] that succeeds flushes the channel, and if a message has its turn
    then queues the next frame of it and flushes again. *)
Record pumped (a1 a2 : list Sent) e e' : Prop := {
  pumped_rest : commands e' = commands e ∧ encoder e' = encoder e;
  pumped_case : ∃ e1, flushed a1 e = (Ok tt, e1) ∧
    ((e' = e1 ∨ completed e1 = (Ok tt, e')) ∨
     ∃ e2 f w e3 e4, completed e1 = (Ok tt, e2) ∧
       next_frame (writer e2) = Some (f, w) ∧ queued f (set_writer w e2) = (Ok tt, e3) ∧
       flushed a2 e3 = (Ok tt, e4) ∧ (e' = e4 ∨ completed e4 = (Ok tt, e'))) }.
Lemma pump_Ok a1 a2 e e' : pump a1 a2 e = (Ok tt, e') → pumped a1 a2 e e'.
Proof.
  unfold pump. intros ([] & e1 & Hf & Hk)%bind_Ok.
  apply bind_Ok in Hk as (x & x1 & Hg & Hk). injection Hg as <- <-.
  pose proof (flushed_slots _ _ _ _ Hf) as Hf1.
  assert (∀ e2, completed e1 = (Ok tt, e2) → commands e2 = commands e ∧ encoder e2 = encoder e) as Hrest.
  { intros e2 [-> _]%completed_slots. by rewrite Hf1. }
  destruct (wants_write (channel e1)) eqn:Hw.
  { apply ret_Ok in Hk as [_ ->]. split; [by rewrite Hf1|]. exists e1. split; [done|]. left. by left. }
  apply bind_Ok in Hk as ([] & e2 & Hc & Hk).
  apply bind_Ok in Hk as (x & x1 & Hg & Hk). injection Hg as <- <-.
  destruct (has_turn (writer e2)) eqn:Ht.
  2: { apply ret_Ok in Hk as [_ ->]. split; [by apply Hrest|]. exists e1. split; [done|]. left. by right. }
  apply bind_Ok in Hk as ([] & e4 & Hn & Hk).
  apply bind_Ok in Hk as (x & x1 & Hg & Hk). injection Hg as <- <-.
  assert (e' = e4 ∨ completed e4 = (Ok tt, e')) as He'.
  { destruct (wants_write (channel e4)); [|by right]. apply ret_Ok in Hk as [_ ->]. by left. }
  apply completed_slots in Hc as Hfin. destruct (finished_has_frame e1 e2) as [[f w] Hnext]; [apply Hfin|done|].
  rewrite Hnext in *. apply bind_Ok in Hn as (x & x1 & Hg & Hn). injection Hg as <- <-.
  apply bind_Ok in Hn as ([] & e3 & Hq & Hn).
  pose proof (queued_slots _ _ _ _ Hq) as Hq1. pose proof (flushed_slots _ _ _ _ Hn) as Hn1.
  assert (commands e4 = commands e ∧ encoder e4 = encoder e) as [Hc4 He4]
    by (rewrite Hn1, Hq1; cbn; by apply Hrest).
  split.
  - destruct He' as [->|[-> _]%completed_slots]; [done|]. by rewrite <-Hc4, <-He4.
  - exists e1. split; [done|]. right. by exists e2, f, w, e3, e4.
Qed.

(** ** What the receiver has read *)
Fixpoint decode_all (host : Host) (l : list Frame) : M (option Pending) ChannelError (list Received) :=
  match l with
  | [] => mret []
  | f :: l => o ← receive_frame host f; rs ← decode_all host l; mret (option_list o ++ rs)
  end.
Lemma decode_snoc host l f held rs held1 o held2 :
  decode_all host l held = (Ok rs, held1) → receive_frame host f held1 = (Ok o, held2) →
  decode_all host (l ++ [f]) held = (Ok (rs ++ option_list o), held2).
Proof.
  revert held rs. induction l as [|g l IH]; intros held rs; cbn [decode_all app].
  - intros [<- ->]%ret_Ok Hf. rewrite (bind_run _ _ _ _ _ Hf).
    by destruct o.
  - intros (o1 & h1 & Hg & (rs1 & h2 & Hl & [<- ->]%ret_Ok)%bind_Ok)%bind_Ok Hf.
    rewrite (bind_run _ _ _ _ _ Hg), (bind_run _ _ _ _ _ (IH _ _ Hl Hf)).
    unfold mret, M_ret. by rewrite (assoc (++)).
Qed.

Inductive merges : list Received → list Received → list Received → Prop :=
| merges_nil : merges [] [] []
| merges_main l1 l2 l r : merges l1 l2 l → merges (l1 ++ [r]) l2 (l ++ [r])
| merges_urgent l1 l2 l r : merges l1 l2 l → merges l1 (l2 ++ [r]) (l ++ [r]).

(** What is left of the message in a slot: nothing, or its frames. *)
Definition main_left (host : Host) (pend : option Pending) (o : option Prepared) (l : list Received) : Prop :=
  match o with
  | Some p => frames p = [] ∧ pend = None ∧ l = [] ∨ ∃ r, l = [r] ∧ assembles host pend (frames p) r
  | None => pend = None ∧ l = []
  end.
Definition urgent_left (host : Host) (o : option Prepared) (l : list Received) : Prop :=
  match o with
  | Some p => frames p = [] ∧ l = [] ∨
      ∃ f r, frames p = [f] ∧ l = [r] ∧ ∀ held, receive_frame host f held = (Ok (Some r), held)
  | None => l = []
  end.
Record reading (host : Host) w (l : list Frame) (t : Trace) (rs dm lm du lu : list Received) (pend : option Pending) : Prop := {
  reading_sent : decode_all host l None = (Ok rs, pend);
  reading_merges : merges dm du rs;
  reading_main : main t = dm ++ lm;
  reading_urgent : urgent t = du ++ lu;
  reading_current : main_left host pend (current w) lm;
  reading_priority : urgent_left host (priority w) lu }.
Definition line (host : Host) w (l : list Frame) (t : Trace) : Prop :=
  ∃ rs dm lm du lu pend, reading host w l t rs dm lm du lu pend.

Lemma main_left_finished host pend o l : main_left host pend o l → main_left host pend (finished o) l.
Proof.
  destruct o as [p|]; [|done]. cbn [main_left finished]. destruct (frames p) as [|f k] eqn:Hf; cbn [Outbound.is_nil].
  - intros [(_ & -> & ->)|(r & -> & Ha)]; [done|]. inversion Ha.
  - intros Hl. cbn [main_left]. by rewrite Hf.
Qed.
Lemma urgent_left_finished host o l : urgent_left host o l → urgent_left host (finished o) l.
Proof.
  destruct o as [p|]; [|done]. cbn [urgent_left finished]. destruct (frames p) as [|f k] eqn:Hf; cbn [Outbound.is_nil].
  - by intros [(_ & ->)|(g & r & ? & _)].
  - intros Hl. cbn [urgent_left]. by rewrite Hf.
Qed.
Lemma line_finished host e e' l t : line host (writer e) l t → finished_slots e e' → line host (writer e') l t.
Proof.
  intros (rs & dm & lm & du & lu & pend & [Hs Hm Ht Hu Hc Hp]) [Hc' Hp'].
  exists rs, dm, lm, du, lu, pend. split; try done.
  - rewrite Hc'. by apply main_left_finished.
  - rewrite Hp'. by apply urgent_left_finished.
Qed.
Lemma line_same host w w' l t : line host w l t → current w' = current w → priority w' = priority w → line host w' l t.
Proof.
  intros (rs & dm & lm & du & lu & pend & [Hs Hm Ht Hu Hc Hp]) Hc' Hp'.
  exists rs, dm, lm, du, lu, pend. split; by rewrite ?Hc', ?Hp'.
Qed.

(** The next frame takes the receiver one step further. *)
Lemma line_next host w l t f w' : line host w l t → next_frame w = Some (f, w') → line host w' (l ++ [f]) t.
Proof.
  intros (rs & dm & lm & du & lu & pend & [Hs Hm Ht Hu Hc Hp]) Hn. unfold next_frame in Hn.
  destruct (priority w) as [p|] eqn:Hpr.
  - destruct (frames p) as [|g k] eqn:Hf; [done|]. injection Hn as -> <-. cbn [urgent_left] in Hp.
    rewrite Hf in Hp. destruct Hp as [[? _]|(g & r & [= -> ->] & -> & Hr)]; [done|].
    exists (rs ++ [r]), dm, lm, (du ++ [r]), [], pend. split; cbn [main urgent]; rewrite ?app_nil_r; try done.
    + by apply (decode_snoc _ _ _ _ _ _ (Some r) _ Hs).
    + by apply merges_urgent.
    + cbn. by left.
  - destruct (current w) as [p|] eqn:Hcu; [|done].
    destruct (frames p) as [|g k] eqn:Hf; [done|]. injection Hn as -> <-. cbn [main_left] in Hc.
    rewrite Hf in Hc. destruct Hc as [[? _]|(r & -> & Ha)]; [done|].
    inversion Ha as [x1 x2 x3 Hr|x1 x2 pend' x4 x5 Hr Hrest]; subst.
    + exists (rs ++ [r]), (dm ++ [r]), [], du, lu, None.
      split; cbn [main urgent current priority]; rewrite ?app_nil_r; try done.
      * by apply (decode_snoc _ _ _ _ _ _ (Some r) _ Hs).
      * by apply merges_main.
      * cbn. by left.
      * cbn. by rewrite Hpr.
    + exists rs, dm, [r], du, lu, (Some pend').
      split; cbn [main urgent current priority set_current]; rewrite ?app_nil_r; try done.
      * rewrite <-(app_nil_r rs). by apply (decode_snoc _ _ _ _ _ _ None _ Hs).
      * cbn. right. by exists r.
      * by rewrite Hpr.
Qed.
(** The frames the receiver is read from are those the channel carries. *)
Lemma carrying_flushed a e e' l : flushed a e = (Ok tt, e') → carrying (channel e) l → carrying (channel e') l.
Proof. unfold flushed. intros (c & Hf & ->)%zoom_Ok Hc. by eapply carrying_flush. Qed.
Lemma carrying_queued f e e' l : queued f e = (Ok tt, e') → carrying (channel e) l → carrying (channel e') (l ++ [f]).
Proof.
  unfold queued. destruct (queue _ _ _) as [[r k] c] eqn:Hq. intros [= -> <-] Hc. by eapply carrying_queue.
Qed.
Definition told (host : Host) e (t : Trace) : Prop :=
  ∃ l, carrying (channel e) l ∧ line host (writer e) l t.
Lemma told_flushed host a e e' t : flushed a e = (Ok tt, e') → told host e t → told host e' t.
Proof.
  intros Hf (l & Hc & Hl). exists l. split; [by eapply carrying_flushed|]. by apply flushed_slots in Hf as ->.
Qed.
Lemma told_completed host e e' t : completed e = (Ok tt, e') → told host e t → told host e' t.
Proof.
  intros [He Hfin]%completed_slots (l & Hc & Hl). exists l. split; [by rewrite He|by eapply line_finished].
Qed.
Lemma told_pumped host a1 a2 e e' t : pumped a1 a2 e e' → told host e t → told host e' t.
Proof.
  intros [_ (e1 & Hf & Hcase)] Ht. apply (told_flushed host _ _ _ _ Hf) in Ht.
  destruct Hcase as [[->|Hc]|(e2 & f & w & e3 & e4 & Hc & Hn & Hq & Hf4 & He')]; [done|by eapply told_completed|].
  apply (told_completed host _ _ _ Hc) in Ht as (l & Hca & Hl).
  assert (told host e4 t) as Ht.
  { eapply told_flushed; [exact Hf4|]. exists (l ++ [f]). split; [by eapply carrying_queued|].
    apply queued_slots in Hq as ->. cbn [writer set_channel set_writer]. by eapply line_next. }
  destruct He' as [->|Hc']; [done|]. by eapply told_completed.
Qed.

(** ** Commitments *)
Lemma prepared_command h k c en p en' : prepare h k (MCommand c) en = (Ok p, en') →
  promised p = [mkReceived (MCommand c) (if adoption p then Some (transfer p) else None)] ∧
  original p = Some (MCommand c) ∧ transfer p = (next en + 1)%N ∧ en' = mkEncoder (next en + 1) ∧
  adoption p = needs_adoption (MCommand c).
Proof.
  intros Hp. apply prepare_Ok in Hp as (root & m' & b & [= <- <-] & _ & _ & _ & -> & ->). done.
Qed.
Lemma command_promised host h k c en p en' r : prepare h k (MCommand c) en = (Ok p, en') →
  promised p = [r] → message_fits (message r) → host_accepts host None (message r) →
  assembles host None (frames p) r ∧
  (is_start c = false → ∃ f, frames p = [f] ∧ ∀ held, receive_frame host f held = (Ok (Some r), held)).
Proof.
  intros Hp Hr Hfit Hacc. destruct (prepared_command _ _ _ _ _ _ Hp) as (Hpr & _ & _ & _ & Had).
  rewrite Hpr in Hr. injection Hr as <-. cbn [message] in *. rewrite Had.
  destruct (handed (MCommand c)) as [x|] eqn:Hx.
  - pose proof (handed_assembles host h k (MCommand c) en p en' None _ x Hp eq_refl Hfit Hacc Hx) as Ha.
    destruct c; try done.
  - destruct (single_delivered host h k (MCommand c) en p en' None _ Hp eq_refl Hfit Hacc Hx) as (f & Hf & Hrun).
    unfold delivery in Hrun. cbn [arrival] in Hrun.
    split; [|by exists f]. rewrite Hf. by apply assembles_last.
Qed.
Lemma passing_is_plain (c : Command) : OutboundSpec.passing c → is_start c = false.
Proof. intros [_ Hs]. by destruct c. Qed.

(** What a state after a commitment owes to the one before. *)
Definition acceptable (host : Host) (l : list Received) : Prop :=
  ∀ r, r ∈ l → message_fits (message r) ∧ host_accepts host None (message r).
(** The cases of [commit_cancellation]. *)
Lemma commit_cancellation_Ok h k1 e e' : commit_cancellation h k1 e = (Ok tt, e') →
  e' = e ∨ ∃ c l p en, priority (writer e) = None ∧ Outbound.cancellations (commands e) = c :: l ∧
    prepare h k1 (MCommand c) (encoder e) = (Ok p, en) ∧
    e' = mkEnd (set_priority (Some p) (writer e)) (channel e) (Outbound.set_cancellations l (commands e)) en.
Proof.
  unfold commit_cancellation. intros (x & x1 & Hg & He)%bind_Ok. injection Hg as <- <-.
  destruct (priority (writer e)) as [q|].
  { rewrite bool_decide_true in He by done. apply ret_Ok in He as [_ ->]. by left. }
  rewrite bool_decide_false in He by (by intros []).
  unfold Outbound.pop_cancellation in He. destruct (Outbound.cancellations (commands e)) as [|c l].
  { apply ret_Ok in He as [_ ->]. by left. }
  apply bind_Ok in He as (x & x1 & Hg & He). injection Hg as <- <-.
  apply bind_Ok in He as (p & e1 & (en & Hp & ->)%zoom_Ok & He). injection He as <-.
  right. by exists c, l, p, en.
Qed.
Lemma urgent_commits host h k1 e e' l t :
  commit_cancellation h k1 e = (Ok tt, e') → line host (writer e) l t →
  acceptable host (filled (priority (writer e)) (priority (writer e'))) →
  Forall OutboundSpec.passing (Outbound.cancellations (commands e)) →
  line host (writer e') l (observe [] (filled (priority (writer e)) (priority (writer e'))) t) ∧
  current (writer e') = current (writer e).
Proof.
  intros [->|(c & q & p & en & Hq & Hc & Hp & ->)]%commit_cancellation_Ok Hl Hok Hpass.
  { assert (filled (priority (writer e)) (priority (writer e)) = []) as -> by by destruct (priority (writer e)).
    by rewrite observe_nil. }
  rewrite Hq in *. cbn [set_priority writer current priority filled] in *. rewrite Hc in Hpass.
  split; [|done]. destruct (prepared_command _ _ _ _ _ _ Hp) as (Hpr & _).
  rewrite Hpr in *. destruct (Hok _ ltac:(by apply list_elem_of_singleton)) as [Hfit Hacc].
  destruct (command_promised host _ _ _ _ _ _ _ Hp Hpr Hfit Hacc) as [_ Hone].
  apply Forall_cons in Hpass as [Hpass _]. destruct (Hone (passing_is_plain _ Hpass)) as (f & Hf & Hrun).
  destruct Hl as (rs & dm & lm & du & lu & pend & [Hs Hm Ht Hu Hcu Hpri]).
  rewrite Hq in Hpri. cbn in Hpri. subst lu. rewrite app_nil_r in Hu.
  eexists rs, dm, lm, du, [_], pend.
  split; cbn [observe main urgent current priority]; rewrite ?app_nil_r; try done.
  - by rewrite Hu.
  - cbn. right. by eexists f, _.
Qed.

(** The cases of [commit_command]: no turn, a record event that could not be
    encoded, or a command in the current slot. *)
Lemma empty_turn w : has_turn w = false → current w = None ∧ priority w = None.
Proof. unfold has_turn. by destruct (current w), (priority w). Qed.
Lemma prepare_next h k m en r en' : prepare h k m en = (r, en') → (next en <= next en')%N.
Proof.
  unfold prepare, mbind, M_bind, get, put, lift, ok_or, mret, M_ret, throw.
  destruct (u64_checked_add (next en) 1) as [tr|] eqn:Ht; [|intros [= _ <-]; lia].
  apply u64_checked_add_Some in Ht as [-> _]. destruct (prepared_root k m) as [[root|x|] m'];
    [|intros [= _ <-]; cbn; lia..].
  destruct (encode_message _ _ _) as [[u|x|] b]; [|intros [= _ <-]; cbn; lia..].
  destruct (finish_builder b); intros [= _ <-]; cbn; lia.
Qed.
Inductive committed h k e e' : Prop :=
| committed_none : writer e' = writer e → encoder e' = encoder e → committed h k e e'
| committed_dropped o : has_turn (writer e) = false → (next (encoder e) <= next (encoder e'))%N →
    writer e' = set_output o (completed_output (writer e)) (writer e) → committed h k e e'
| committed_main c p : has_turn (writer e) = false →
    prepare h k (MCommand c) (encoder e) = (Ok p, encoder e') →
    writer e' = set_current (Some p)
      (set_output (Outbound.sandbox_size c) (completed_output (writer e)) (writer e)) →
    committed h k e e'.
Lemma commit_command_Ok h k e e' : commit_command h k e = (Ok tt, e') →
  committed h k e e' ∧ channel e' = channel e.
Proof.
  unfold commit_command. intros (x & x1 & Hg & He)%bind_Ok. injection Hg as <- <-.
  destruct (has_turn (writer e)) eqn:Hturn; [apply ret_Ok in He as [_ ->]; split; [by apply committed_none|done]|].
  apply bind_Ok in He as (x & x1 & Hg & He). injection Hg as <- <-.
  destruct (Outbound.pop (commands e)) as [[c|] s]; cbn [fst snd] in He;
    [|apply ret_Ok in He as [_ ->]; split; [by apply committed_none|done]].
  apply bind_Ok in He as (x & x1 & Hg & He). injection Hg as <- <-. unfold prepare_command, zoom in He.
  cbn [encoder set_writer set_commands] in He.
  destruct (prepare h k (MCommand c) (encoder e)) as [r en] eqn:Hp.
  destruct r as [p|x|]; [injection He as <-|destruct (is_record c); [injection He as <-|done]|done].
  - split; [|done]. by apply (committed_main _ _ _ _ c p).
  - split; [|done]. eapply committed_dropped; [done| |done]. cbn. by apply prepare_next in Hp.
Qed.

Lemma main_commits host h k2 e e' l t : committed h k2 e e' → line host (writer e) l t →
  acceptable host (filled (current (writer e)) (current (writer e'))) →
  line host (writer e') l (observe (filled (current (writer e)) (current (writer e'))) [] t).
Proof.
  intros He Hl Hok.
  assert (filled (current (writer e)) (current (writer e)) = []) as Hsame by by destruct (current (writer e)).
  destruct He as [Hw _|o Hturn _ Hw|c p Hturn Hp Hw]; rewrite Hw in *.
  - by rewrite Hsame, observe_nil.
  - cbn [current set_output] in *. rewrite Hsame, observe_nil. by eapply line_same.
  - apply empty_turn in Hturn as [Hcn Hpn]. cbn [current set_current] in *. rewrite Hcn in *. cbn [filled] in *.
    destruct (prepared_command _ _ _ _ _ _ Hp) as (Hpr & _). rewrite Hpr in *.
    destruct (Hok _ ltac:(by apply list_elem_of_singleton)) as [Hfit Hacc].
    destruct (command_promised host _ _ _ _ _ _ _ Hp Hpr Hfit Hacc) as [Ha _].
    destruct Hl as (rs & dm & lm & du & lu & pend & [Hs Hm Ht Hu Hcu Hpri]).
    rewrite Hcn in Hcu. destruct Hcu as [-> ->]. rewrite app_nil_r in Ht.
    eexists rs, dm, [_], du, lu, None.
    split; cbn [observe main urgent current priority set_current set_output]; rewrite ?app_nil_r; try done.
    + by rewrite Ht.
    + right. by eexists.
Qed.

(** ** Turns *)
Lemma settled_turn_Ok a0 e e1 b : settled_turn a0 e = (Ok b, e1) →
  (b = false → e1 = set_channel (channel e1) e) ∧
  (b = true → finished_slots e e1 ∧ encoder e1 = encoder e).
Proof.
  unfold settled_turn. intros ([] & e2 & Hf & Hk)%bind_Ok. apply flushed_slots in Hf.
  apply bind_Ok in Hk as (x & x1 & Hg & Hk). injection Hg as <- <-.
  destruct (wants_write (channel e2)); [by apply ret_Ok in Hk as [<- ->]|].
  apply bind_Ok in Hk as ([] & e3 & Hc & Hk). apply bind_Ok in Hk as ([] & e4 & Ha & Hk).
  apply ret_Ok in Hk as [<- ->]. split; [done|]. intros _.
  apply completed_slots in Hc as [Hc [Hc1 Hc2]]. injection Ha as <-. rewrite Hf in *. cbn in *.
  unfold finished_slots. by destruct (completed_output (writer e3)) as [[??]|]; rewrite Hc.
Qed.
(** A turn is [settled_turn], then commitments and a [pump]. *)
Lemma pump_commands_Ok h k1 k2 a0 a1 a2 e e' : pump_commands h k1 k2 a0 a1 a2 e = (Ok tt, e') →
  (settled_turn a0 e = (Ok false, e')) ∨
  ∃ e1 e2 e3 e4, settled_turn a0 e = (Ok true, e1) ∧ commit_cancellation h k1 e1 = (Ok tt, e2) ∧
    commit_command h k2 e2 = (Ok tt, e3) ∧ pump a1 a2 e3 = (Ok tt, e4) ∧ account_completed e4 = (Ok tt, e').
Proof.
  unfold pump_commands. intros ([] & e1 & Hf & Hk)%bind_Ok.
  apply bind_Ok in Hk as (x & x1 & Hg & Hk). injection Hg as <- <-.
  unfold settled_turn. rewrite (bind_run _ _ _ _ _ Hf), (bind_run get _ _ _ _ eq_refl).
  destruct (wants_write (channel e1)); [apply ret_Ok in Hk as [_ ->]; by left|]. right.
  apply bind_Ok in Hk as ([] & e2 & Hc & Hk). apply bind_Ok in Hk as ([] & e3 & Ha & Hk).
  rewrite (bind_run _ _ _ _ _ Hc), (bind_run _ _ _ _ _ Ha).
  apply bind_Ok in Hk as ([] & e4 & Hu & Hk). apply bind_Ok in Hk as ([] & e5 & Hm & Hk).
  apply bind_Ok in Hk as ([] & e6 & Hp & Hk). by exists e3, e4, e5, e6.
Qed.

(** The queue keeps its kinds through every use and every turn. *)
Abbreviation kinds := (@OutboundSpec.kinds protocol_carried).
Lemma written_kinds n m (s : Commands) : kinds s → kinds (Outbound.sandbox_written n m s).
Proof. unfold Outbound.sandbox_written. intros Hk. by case_match. Qed.
Lemma used_kinds op s : kinds s → kinds (used op s).
Proof.
  intros Hk. pose proof Hk as [Hk1 Hk2]. unfold used. destruct op; cbn [OutboundSpec.step].
  - pose proof (OutboundSpec.push_kinds c s Hk). by destruct (Outbound.push c s).
  - by apply OutboundSpec.pop_leaves.
  - by apply OutboundSpec.pop_work_leaves.
  - pose proof (OutboundSpec.leaves_kinds _ _ (OutboundSpec.pop_work_leaves s Hk)) as Hp.
    destruct (Outbound.pop_work s) as [[c|] s']; [|done]. by destruct (OutboundSpec.is_sandbox_send c).
  - by apply OutboundSpec.pop_cancellation_leaves.
  - unfold Outbound.pop_cancelled. by destruct (Outbound.cancelled s).
  - by apply OutboundSpec.pop_record_leaves.
  - done.
  - by split; [|constructor].
  - by apply written_kinds.
  - done.
  - by split; constructor.
Qed.
Lemma account_kinds e e' : account_completed e = (Ok tt, e') → kinds (commands e) → kinds (commands e').
Proof.
  intros Ha Hk. injection Ha as <-. destruct (completed_output (writer e)) as [[n m]|]; [|done].
  by apply written_kinds.
Qed.
Lemma settled_turn_kinds a0 e e1 b : settled_turn a0 e = (Ok b, e1) → kinds (commands e) → kinds (commands e1).
Proof.
  unfold settled_turn. intros ([] & e2 & Hf & Hk)%bind_Ok Hs. apply flushed_slots in Hf.
  apply bind_Ok in Hk as (x & x1 & Hg & Hk). injection Hg as <- <-.
  destruct (wants_write (channel e2)); [by apply ret_Ok in Hk as [_ ->]; rewrite Hf|].
  apply bind_Ok in Hk as ([] & e3 & Hc & Hk). apply bind_Ok in Hk as ([] & e4 & Ha & Hk).
  apply ret_Ok in Hk as [_ ->]. apply (account_kinds _ _ Ha). apply completed_slots in Hc as [-> _].
  by rewrite Hf.
Qed.
Lemma cancellation_kinds h k e e' : commit_cancellation h k e = (Ok tt, e') →
  kinds (commands e) → kinds (commands e').
Proof.
  intros [->|(c & l & p & en & _ & Hc & _ & ->)]%commit_cancellation_Ok [Hk Hr]; [done|]. split; [|done].
  rewrite Hc in Hk. by apply Forall_cons in Hk as [_ Hk].
Qed.
Lemma command_kinds h k e e' : commit_command h k e = (Ok tt, e') → kinds (commands e) → kinds (commands e').
Proof.
  unfold commit_command. intros (x & x1 & Hg & He)%bind_Ok Hk. injection Hg as <- <-.
  destruct (has_turn (writer e)); [by apply ret_Ok in He as [_ ->]|].
  apply bind_Ok in He as (x & x1 & Hg & He). injection Hg as <- <-.
  pose proof (OutboundSpec.leaves_kinds _ _ (OutboundSpec.pop_leaves _ Hk)) as Hp.
  destruct (Outbound.pop (commands e)) as [[c|] s]; cbn [fst snd] in *; [|by apply ret_Ok in He as [_ ->]].
  apply bind_Ok in He as (x & x1 & Hg & He). injection Hg as <- <-. unfold prepare_command, zoom in He.
  destruct (prepare _ _ _ _) as [[p|y|] en]; [injection He as <-|destruct (is_record c); [injection He as <-|done]|done];
    done.
Qed.
Lemma turn_kinds h k1 k2 a0 a1 a2 e e' : pump_commands h k1 k2 a0 a1 a2 e = (Ok tt, e') →
  kinds (commands e) → kinds (commands e').
Proof.
  intros [Hs|(e1 & e2 & e3 & e4 & Hs & Hu & Hm & Hp & Ha)]%pump_commands_Ok Hk; [by eapply settled_turn_kinds|].
  apply (account_kinds _ _ Ha). apply pump_Ok in Hp as [[-> _] _].
  by eapply command_kinds, cancellation_kinds, settled_turn_kinds.
Qed.

Lemma observe_app m u m' u' t : observe m' u' (observe m u t) = observe (m ++ m') (u ++ u') t.
Proof. unfold observe. cbn. by rewrite <-!(assoc (++)). Qed.
Lemma settled_carrying a0 e e1 b l : settled_turn a0 e = (Ok b, e1) → carrying (channel e) l → carrying (channel e1) l.
Proof.
  unfold settled_turn. intros ([] & e2 & Hf & Hk)%bind_Ok Hc. apply (carrying_flushed _ _ _ _ Hf) in Hc.
  apply bind_Ok in Hk as (x & x1 & Hg & Hk). injection Hg as <- <-.
  destruct (wants_write (channel e2)); [by apply ret_Ok in Hk as [_ ->]|].
  apply bind_Ok in Hk as ([] & e3 & [Hd _]%completed_slots & Hk). apply bind_Ok in Hk as ([] & e4 & Ha & Hk).
  apply ret_Ok in Hk as [_ ->]. injection Ha as <-. rewrite Hd. by destruct (completed_output _) as [[]|].
Qed.
Lemma cancellation_channel h k e e' : commit_cancellation h k e = (Ok tt, e') → channel e' = channel e.
Proof. by intros [->|(c & q & p & en & _ & _ & _ & ->)]%commit_cancellation_Ok. Qed.
Lemma told_turn host h k1 k2 a0 a1 a2 e e' t :
  pump_commands h k1 k2 a0 a1 a2 e = (Ok tt, e') → told host e t → kinds (commands e) →
  acceptable host (main (observed h k1 k2 a0 e t) ++ urgent (observed h k1 k2 a0 e t)) →
  told host e' (observed h k1 k2 a0 e t).
Proof.
  intros [Hs|(e1 & e2 & e3 & e4 & Hs & Hu & Hm & Hp & Ha)]%pump_commands_Ok (l & Hc & Hl) Hk; unfold observed; rewrite Hs;
    apply (settled_carrying _ _ _ _ _ Hs) in Hc.
  { intros _. exists l. split; [done|]. destruct (settled_turn_Ok _ _ _ _ Hs) as [-> _]; done. }
  rewrite Hu. cbn [snd]. rewrite Hm. cbn [snd observe main urgent]. intros Hok.
  destruct (settled_turn_Ok _ _ _ _ Hs) as [_ [Hfin _]]; [done|].
  pose proof (settled_turn_kinds _ _ _ _ Hs Hk) as [Hk1 _].
  assert (∀ l, (∀ r, r ∈ l → r ∈ (main t ++ filled (current (writer e2)) (current (writer e3))) ++
      urgent t ++ filled (priority (writer e1)) (priority (writer e2))) → acceptable host l) as Hsub
    by (intros k Hin r Hr; by apply Hok, Hin).
  destruct (urgent_commits host h k1 e1 e2 l t Hu) as [Hl2 _];
    [by eapply line_finished|apply Hsub; set_solver|done|].
  apply commit_command_Ok in Hm as [Hm Hch].
  eapply main_commits in Hl2; [|exact Hm|apply Hsub; set_solver].
  rewrite observe_app, app_nil_r in Hl2. cbn [app] in Hl2.
  assert (told host e4 (observe (filled (current (writer e2)) (current (writer e3)))
    (filled (priority (writer e1)) (priority (writer e2))) t)) as (l' & Hc' & Hl').
  { eapply told_pumped; [by eapply pump_Ok|]. exists l. split; [|exact Hl2].
    by rewrite Hch, (cancellation_channel _ _ _ _ Hu). }
  injection Ha as <-. exists l'. destruct (completed_output (writer e4)) as [[??]|]; [|done].
  split; [done|]. by eapply line_same.
Qed.

(** An accepted adoption only drops what was held. *)
Lemma adopted_Ok id w w' : writer_adopted id w = (Ok tt, w') →
  is_Some (held w !! id) ∧ w' = set_held (delete id (held w)) w.
Proof.
  unfold writer_adopted. intros (x & x1 & Hg & He)%bind_Ok. injection Hg as <- <-.
  apply bind_Ok in He as (q & x1 & Hg & He). destruct (held w !! id) as [q'|] eqn:Hq; [|done].
  injection Hg as -> ->. destruct (pending_adopted id q) as [r p'].
  apply bind_Ok in He as (x & x2 & Hg & He). injection Hg as _ <-.
  apply bind_Ok in He as (y & x3 & [-> ->]%lift_Ok & He). injection He as <-.
  split; [done|]. unfold set_held. cbn. by rewrite delete_insert_eq.
Qed.

Definition tells (host : Host) e t : Prop :=
  (acceptable host (main t ++ urgent t) → told host e t) ∧ kinds (commands e).
Lemma acceptable_before host h k1 k2 a0 e t :
  acceptable host (main (observed h k1 k2 a0 e t) ++ urgent (observed h k1 k2 a0 e t)) →
  acceptable host (main t ++ urgent t).
Proof.
  unfold observed. destruct (settled_turn a0 e) as [[[]| |] e1]; try done. cbn [observe main urgent].
  intros Hok r Hr. apply Hok. set_solver.
Qed.
Lemma written_told host h ops e t : written h ops = Ok (e, t) → tells host e t.
Proof.
  apply wrun_ind with (I := tells host).
  - intros e1 t1 op e2 t2 [Hl Hk] Hs. destruct op as [op|k1 k2 a0 a1 a2|id]; cbn [wstep] in Hs.
    + injection Hs as <- <-. split; [done|]. by apply used_kinds.
    + destruct (pump_commands _ _ _ _ _ _ e1) as [[[]| |] e'] eqn:Hp; [|done..]. injection Hs as <- <-.
      split; [|by eapply turn_kinds]. intros Hok. apply (told_turn _ _ _ _ _ a1 a2 e1); try done.
      by eapply Hl, acceptable_before.
    + destruct (zoom _ _ _ e1) as [[[]| |] e'] eqn:Hp; [|done..]. injection Hs as <- <-.
      apply zoom_Ok in Hp as (w & [_ ->]%adopted_Ok & ->). split; [|done].
      intros (l & Hc & rs & dm & lm & du & lu & pend & [Hs Hm Ht Hu Hcu Hp])%Hl. exists l. split; [done|].
      by exists rs, dm, lm, du, lu, pend.
  - split; [|by split; constructor]. intros _. exists []. split; [by split; [eexists|]|].
    exists [], [], [], [], [], None. split; try done. constructor.
Qed.

(** C24. Commands arrive. Whatever the actor does with its queue and the
    socket, the bytes the socket took from the writer's channel, followed by
    those the channel still holds, each with the descriptors sent along, are
    those of frames that a receiver that knows the leases reads without an
    error: it reads exactly the commands that left each slot, each with the
    transfer to acknowledge, in the order of their commitment, cancellations
    between the batches of a handoff included; and once the writer has no
    message left, every committed command is among those frames and no
    handoff is half assembled. *)
Theorem written_commands_arrive host h ops e t :
  written h ops = Ok (e, t) → acceptable host (main t ++ urgent t) →
  ∃ l rs dm du pend, sent_cells (channel e) ++ pending_cells (channel e) = l ≫= frame_cells ∧
    decode_all host l None = (Ok rs, pend) ∧ merges dm du rs ∧
    dm `prefix_of` main t ∧ (length (main t) <= S (length dm)) ∧
    du `prefix_of` urgent t ∧ (length (urgent t) <= S (length du)) ∧
    (has_turn (writer e) = false → dm = main t ∧ du = urgent t ∧ pend = None).
Proof.
  intros Hw Hok. destruct (written_told host _ _ _ _ Hw) as [Hl _].
  destruct (Hl Hok) as (l & [_ Hcells] & rs & dm & lm & du & lu & pend & [Hs Hm -> -> Hc Hp]).
  exists l, rs, dm, du, pend. rewrite !length_app.
  assert (length lm <= 1 ∧ length lu <= 1) as [? ?].
  { unfold main_left, urgent_left in *. destruct (current (writer e)), (priority (writer e)); naive_solver. }
  split_and!; try done; try by eexists; try lia.
  - lia.
  - lia.
  - intros [Hcn Hpn]%empty_turn. rewrite Hcn, Hpn in *. destruct Hc as [-> ->]. cbn in Hp. subst lu.
    by rewrite !app_nil_r.
Qed.
End writer.
