(* ===== verification/WriterOwners.v ===== *)
(** * Ownership at the writer

    What is handed over stays with the writer until the receiver adopted it,
    and a turn fails only with the channel or the encoder. *)
From S2P Require Import Prelude Json Messages Framing Channel Codec Protocol Handoff ProtocolFacts.
From S2P Require Import CommandTravels MessageTravels Writer ProtocolSpec ChannelSpec WriterSpec.
From S2P Require Outbound OutboundSpec.

Section owners.
Context `{JsonText} `{SerdeText} `{Payloads}.
Abbreviation Command := (@Outbound.Command protocol_carried).
Implicit Types (w : Writer) (e : End) (p : Prepared) (f : Frame).

(** ** The transfers a writer owns *)
Definition slot_ids (o : option Prepared) : list N :=
  match o with Some p => if adoption p then [transfer p] else [] | None => [] end.
Definition owned w : list N :=
  slot_ids (current w) ++ slot_ids (priority w) ++ (map_to_list (held w)).*1.
Definition whole (o : option Prepared) : Prop :=
  match o with Some p => is_Some (original p) | None => True end.
Record sound (n : N) w : Prop := {
  sound_fresh : NoDup (owned w);
  sound_old : Forall (λ id, id <= n)%N (owned w);
  sound_held : map_Forall (λ id q, Protocol.p_transfer q = id ∧ is_Some (p_original q)) (held w);
  sound_slots : whole (current w) ∧ whole (priority w) }.
(** No output waits to be accounted for twice. *)
Definition calm w : Prop := completed_output w = None ∨ current_output w = None.

Lemma sound_same n w w' : sound n w → current w' = current w → priority w' = priority w →
  held w' = held w → sound n w'.
Proof. intros [Hs1 Hs2 Hs3 Hs4] Hc Hp Hh. split; unfold owned in *; by rewrite ?Hc, ?Hp, ?Hh. Qed.
Lemma sound_perm n w w' : sound n w → owned w' ≡ₚ owned w →
  map_Forall (λ id q, Protocol.p_transfer q = id ∧ is_Some (p_original q)) (held w') →
  whole (current w') ∧ whole (priority w') → sound n w'.
Proof. intros [Hs1 Hs2 _ _] Hp Hh Hw. by split; rewrite ?Hp. Qed.

Lemma keys_insert (m : gmap N PendingTransfer) i x : m !! i = None →
  (map_to_list (<[i := x]> m)).*1 ≡ₚ i :: (map_to_list m).*1.
Proof. intros Hi. by rewrite map_to_list_insert. Qed.
Lemma keys_delete (m : gmap N PendingTransfer) i : is_Some (m !! i) →
  (map_to_list m).*1 ≡ₚ i :: (map_to_list (delete i m)).*1.
Proof. intros [x Hx]. by rewrite <-(map_to_list_delete _ _ _ Hx). Qed.
Lemma keys_in (m : gmap N PendingTransfer) i : i ∈ (map_to_list m).*1 ↔ is_Some (m !! i).
Proof.
  rewrite list_elem_of_fmap. split.
  - intros ([j x] & -> & Hx%elem_of_map_to_list). by eexists.
  - intros [x Hx]. exists (i, x). split; [done|]. by apply elem_of_map_to_list.
Qed.

Lemma settle_output_calm w : calm w → ∃ w', settle_output w = (Ok tt, w') ∧ calm w' ∧
  current w' = current w ∧ priority w' = priority w ∧ held w' = held w.
Proof.
  unfold settle_output, calm. intros Hc. destruct (current_output w) as [o|] eqn:Ho; [|by eexists; split_and!; eauto].
  destruct Hc as [Hc|Hc]; [|done]. rewrite Hc. eexists. split; [done|]. split; [by right|done].
Qed.
Lemma keep_pending_sound p w : frames p = [] → is_Some (original p) →
  (adoption p = true → held w !! transfer p = None) →
  ∃ w', keep_pending p w = (Ok tt, w') ∧ current w' = current w ∧ priority w' = priority w ∧
    current_output w' = current_output w ∧ completed_output w' = completed_output w ∧
    held w' = if adoption p then <[transfer p := mkPendingTransfer (transfer p) (original p)]> (held w) else held w.
Proof.
  intros Hf Ho Hh. unfold keep_pending, into_pending. rewrite Hf. cbn [Outbound.is_nil negb].
  destruct (adoption p); [|by eexists]. rewrite (lift_run _ _ _ _ eq_refl).
  rewrite (bind_run get _ _ _ _ eq_refl), refuse_run; [by eexists|].
  cbn. rewrite Hh by done. apply bool_decide_false. by intros [? ?].
Qed.

(** A slot that is done moves what it handed over to the map. *)
Lemma complete_slot_sound n (b : bool) w : sound n w → calm w →
  ∃ w', complete_slot b w = (Ok tt, w') ∧ sound n w' ∧ calm w' ∧ owned w' ≡ₚ owned w.
Proof.
  intros Hs Hc. unfold complete_slot. rewrite (bind_run get _ _ _ _ eq_refl).
  set (o := if b then current w else priority w).
  destruct o as [p|] eqn:Ho; [|by exists w]. destruct (Outbound.is_nil (frames p)) eqn:Hf; [|by exists w].
  assert (frames p = []) as Hnil by by destruct (frames p).
  set (w1 := if b then set_current None w else set_priority None w).
  rewrite (bind_run _ _ _ tt w1) by (by destruct b).
  assert (calm w1 ∧ held w1 = held w) as [Hc1 Hh1] by (by destruct b).
  assert (∃ w2, (if b then settle_output else mret tt) w1 = (Ok tt, w2) ∧ calm w2 ∧
    current w2 = current w1 ∧ priority w2 = priority w1 ∧ held w2 = held w1) as
    (w2 & Hset & Hc2 & Hcu2 & Hpr2 & Hh2) by (destruct b; [by apply settle_output_calm|by exists w1]).
  rewrite (bind_run _ _ _ _ _ Hset).
  assert (owned w ≡ₚ slot_ids (Some p) ++ owned w1) as Hperm.
  { unfold owned. unfold o, w1 in *. destruct b; rewrite Ho; cbn [current priority held set_current set_priority slot_ids].
    - done.
    - destruct (adoption p); [solve_Permutation|done]. }
  pose proof Hs as [Hnd Hold Hheld [Hw1 Hw2]].
  assert (is_Some (original p)) as Horig by (unfold o in *; destruct b; rewrite Ho in *; done).
  assert (adoption p = true → held w !! transfer p = None) as Hfree.
  { intros Ha. apply eq_None_not_Some. intros Hin%keys_in. rewrite Hperm in Hnd. cbn [slot_ids] in Hnd.
    rewrite Ha in Hnd. apply NoDup_cons in Hnd as [Hnd _]. apply Hnd. unfold owned. rewrite Hh1. set_solver. }
  destruct (keep_pending_sound p w2) as (w3 & Hk & Hcu3 & Hpr3 & Ho3 & Hd3 & Hh3); [done..|by rewrite Hh2, Hh1|].
  exists w3. split; [done|]. rewrite Hh2, Hh1 in Hh3.
  assert (owned w3 ≡ₚ owned w) as Hp3.
  { rewrite Hperm. unfold owned. rewrite Hcu3, Hcu2, Hpr3, Hpr2, Hh3, Hh1. cbn [slot_ids].
    destruct (adoption p); [|done]. rewrite keys_insert by by apply Hfree. solve_Permutation. }
  split_and!; [|unfold calm in *; by rewrite Ho3, Hd3|done].
  apply (sound_perm n w); [done|done| |].
  - rewrite Hh3. destruct (adoption p); [|done]. by apply map_Forall_insert_2.
  - rewrite Hcu3, Hcu2, Hpr3, Hpr2. by destruct b.
Qed.

(** ** The steps of a turn *)
Definition good e : Prop := sound (next (encoder e)) (writer e) ∧ calm (writer e).
Definition quiet e : Prop := completed_output (writer e) = None.

Lemma completed_good e : good e → ∃ e', completed e = (Ok tt, e') ∧ good e' ∧
  owned (writer e') ≡ₚ owned (writer e) ∧ encoder e' = encoder e.
Proof.
  intros [Hs Hc]. destruct (complete_slot_sound _ false _ Hs Hc) as (w1 & Hr1 & Hs1 & Hc1 & Hp1).
  destruct (complete_slot_sound _ true _ Hs1 Hc1) as (w2 & Hr2 & Hs2 & Hc2 & Hp2).
  exists (set_writer w2 e). split_and!; [|done|by cbn; rewrite Hp2|done].
  unfold completed, zoom. by rewrite (bind_run _ _ _ _ _ Hr1), Hr2.
Qed.
Lemma flushed_good a e e' : flushed a e = (Ok tt, e') → good e → good e' ∧ writer e' = writer e ∧ encoder e' = encoder e.
Proof. by intros ->%flushed_slots. Qed.
Lemma account_good e e' : account_completed e = (Ok tt, e') → good e →
  good e' ∧ quiet e' ∧ owned (writer e') = owned (writer e) ∧ encoder e' = encoder e ∧ channel e' = channel e ∧
  current (writer e') = current (writer e) ∧ priority (writer e') = priority (writer e).
Proof.
  intros Ha [Hs Hc]. injection Ha as <-. unfold good, quiet.
  destruct (completed_output (writer e)) as [[n m]|] eqn:Ho; cbn; [|done].
  split_and!; try done. - by apply (sound_same _ (writer e)). - by left.
Qed.
Lemma next_frame_good e f w : next_frame (writer e) = Some (f, w) → good e →
  good (set_writer w e) ∧ owned w = owned (writer e).
Proof.
  intros Hn [Hs Hc]. unfold next_frame in Hn. destruct Hs as [Hs1 Hs2 Hs3 [Hw1 Hw2]].
  destruct (priority (writer e)) as [p|] eqn:Hp; [|destruct (current (writer e)) as [p|] eqn:Hcu; [|done]];
    (destruct (frames p) as [|g k]; [done|]; injection Hn as <- <-; unfold good, owned, calm in *;
     rewrite ?Hp, ?Hcu in *; cbn; split; [split; [split|]|]; unfold owned; cbn; by rewrite ?Hp, ?Hcu).
Qed.
Lemma pumped_good a1 a2 e e' : pumped a1 a2 e e' → good e → good e' ∧ owned (writer e') ≡ₚ owned (writer e).
Proof.
  intros [_ (e1 & Hf & Hcase)] Hg. apply flushed_good in Hf as (Hg1 & Hw1 & _); [|done].
  assert (∀ x y, good x → completed x = (Ok tt, y) → good y ∧ owned (writer y) ≡ₚ owned (writer x)) as Hcomp.
  { intros x y Hx Hy. destruct (completed_good x Hx) as (z & Hz & Hgz & Hpz & _). rewrite Hz in Hy. by injection Hy as <-. }
  destruct Hcase as [[->|Hc]|(e2 & f & w & e3 & e4 & Hc & Hn & Hq & Hf4 & He')].
  - by rewrite Hw1.
  - destruct (Hcomp _ _ Hg1 Hc). by rewrite <-Hw1.
  - destruct (Hcomp _ _ Hg1 Hc) as [Hg2 Hp2]. destruct (next_frame_good _ _ _ Hn Hg2) as [Hg3 Hp3].
    apply queued_slots in Hq. apply flushed_slots in Hf4.
    assert (good e4 ∧ owned (writer e4) ≡ₚ owned (writer e)) as [Hg4 Hp4].
    { rewrite Hf4, Hq. cbn [writer set_channel set_writer]. by rewrite Hp3, Hp2, Hw1. }
    destruct He' as [->|Hc']; [done|]. destruct (Hcomp _ _ Hg4 Hc'). by rewrite <-Hp4.
Qed.

(** A commitment adds the transfer it promises, a fresh one. *)
Definition ids (l : list Received) : list N := omap adopted l.
Lemma promised_ids h k c en p en' : prepare h k (MCommand c) en = (Ok p, en') →
  ids (promised p) = slot_ids (Some p) ∧ is_Some (original p) ∧ next en' = (next en + 1)%N ∧
  Forall (λ id, id = (next en + 1)%N) (slot_ids (Some p)).
Proof.
  intros (Hpr & Ho & Ht & -> & _)%prepared_command. rewrite Hpr, Ho. cbn. rewrite Ht.
  destruct (adoption p); split_and!; try done; by repeat constructor.
Qed.
(** Numbers given out once, up to [n]; and at most one given out since. *)
Definition numbered (n : N) (l : list N) : Prop := NoDup l ∧ Forall (λ id, id <= n)%N l.
Definition issued (n n' : N) (l : list N) : Prop :=
  length l <= 1 ∧ Forall (λ id, n < id <= n')%N l ∧ (n <= n')%N.
Lemma numbered_add n n' l k : numbered n l → issued n n' k → numbered n' (k ++ l).
Proof.
  intros [Hnd Hold] (Hlen & Hk & Hn). split.
  - apply NoDup_app. split_and!; [|intros x Hx Hin|done].
    + destruct k as [|a [|]]; cbn in Hlen; [constructor|apply NoDup_singleton|lia].
    + rewrite Forall_forall in Hk, Hold. specialize (Hk _ Hx). specialize (Hold _ Hin). cbn in *. lia.
  - apply Forall_app. split; [eapply Forall_impl; [exact Hk|]|eapply Forall_impl; [exact Hold|]]; cbn; lia.
Qed.
Lemma numbered_perm n l l' : l ≡ₚ l' → numbered n l → numbered n l'.
Proof. intros Hp. unfold numbered. by rewrite Hp. Qed.
Lemma slot_issued n n' p : n' = (n + 1)%N → Forall (λ id, id = n + 1)%N (slot_ids (Some p)) →
  issued n n' (slot_ids (Some p)).
Proof.
  intros -> Hf. split_and!; [cbn; destruct (adoption p); cbn; lia| |lia].
  eapply Forall_impl; [exact Hf|]. cbn. lia.
Qed.
Lemma nothing_issued n n' : (n <= n')%N → issued n n' [].
Proof. intros Hn. split_and!; [cbn; lia|constructor|done]. Qed.
Lemma sound_commits n n' w w' l : sound n w → issued n n' l →
  owned w' ≡ₚ l ++ owned w → held w' = held w → whole (current w') ∧ whole (priority w') → sound n' w'.
Proof.
  intros [Hnd Hold Hheld _] Hl Hp Hh Hw.
  destruct (numbered_add n n' (owned w) l) as [Hn1 Hn2]; [by split|done|].
  by split; rewrite ?Hp, ?Hh.
Qed.

Lemma urgent_good h k1 e e' : commit_cancellation h k1 e = (Ok tt, e') → good e →
  good e' ∧ (quiet e → quiet e') ∧
  issued (next (encoder e)) (next (encoder e')) (ids (filled (priority (writer e)) (priority (writer e')))) ∧
  owned (writer e') ≡ₚ ids (filled (priority (writer e)) (priority (writer e'))) ++ owned (writer e).
Proof.
  intros [->|(c & l & p & en & Hq & _ & Hp & ->)]%commit_cancellation_Ok Hg.
  { split; [done|]. split; [done|]. destruct (priority (writer e)); (split; [by apply nothing_issued|done]). }
  destruct Hg as [Hs Hc]. destruct (promised_ids _ _ _ _ _ _ Hp) as (Hi & Ho & Hn & Hf).
  pose proof (slot_issued _ _ _ Hn Hf) as Hiss.
  assert (owned (set_priority (Some p) (writer e)) ≡ₚ slot_ids (Some p) ++ owned (writer e)) as Hperm.
  { unfold owned. cbn [set_priority current priority held]. rewrite Hq. cbn. solve_Permutation. }
  cbn [writer encoder priority set_priority]. rewrite Hq. cbn [filled]. rewrite Hi.
  split; [|split; [done|split; done]]. split; [|done].
  apply (sound_commits _ _ (writer e) _ (slot_ids (Some p)) Hs Hiss); try done.
  by destruct Hs as [_ _ _ [? _]].
Qed.
Lemma main_good h k2 e e' : committed h k2 e e' → good e → quiet e →
  good e' ∧
  issued (next (encoder e)) (next (encoder e')) (ids (filled (current (writer e)) (current (writer e')))) ∧
  owned (writer e') ≡ₚ ids (filled (current (writer e)) (current (writer e'))) ++ owned (writer e).
Proof.
  intros Hcase [Hs Hc] Hq. destruct Hcase as [Hw He|o Hturn Hle Hw|c p Hturn Hp Hw]; unfold good; rewrite Hw.
  - rewrite He. split; [done|]. destruct (current (writer e)); (split; [by apply nothing_issued|done]).
  - cbn [current set_output].
    split; [|by destruct (current (writer e)); (split; [apply nothing_issued|])]. split; [|by left]. destruct Hs as [Hs1 Hs2 Hs3 Hs4]. split; try done. eapply Forall_impl; [exact Hs2|]. cbn. lia.
  - apply empty_turn in Hturn as [Hcn Hpn]. destruct (promised_ids _ _ _ _ _ _ Hp) as (Hi & Ho & Hn & Hf).
    cbn [current set_current set_output]. rewrite Hcn. cbn [filled]. rewrite Hi.
    pose proof (slot_issued _ _ _ Hn Hf) as Hiss.
    split; [|split; [done|unfold owned; cbn [current priority held set_current set_output]; by rewrite Hcn]].
    split; [|by left]. apply (sound_commits _ _ (writer e) _ (slot_ids (Some p)) Hs Hiss); try done.
    + unfold owned; cbn [current priority held set_current set_output]; by rewrite Hcn.
    + by destruct Hs as [_ _ _ [_ ?]].
Qed.
Lemma ids_app l1 l2 : ids (l1 ++ l2) = ids l1 ++ ids l2.
Proof. apply omap_app. Qed.
Lemma settled_good a0 e e1 b : settled_turn a0 e = (Ok b, e1) → good e → quiet e →
  good e1 ∧ quiet e1 ∧ owned (writer e1) ≡ₚ owned (writer e) ∧ encoder e1 = encoder e.
Proof.
  unfold settled_turn. intros ([] & e2 & Hf & Hk)%bind_Ok Hg Hq.
  apply flushed_good in Hf as (Hg2 & Hw & He); [|done].
  apply bind_Ok in Hk as (x & x1 & Hx & Hk). injection Hx as <- <-.
  destruct (wants_write (channel e2)); [apply ret_Ok in Hk as [_ ->]; unfold quiet; by rewrite Hw, He|].
  apply bind_Ok in Hk as ([] & e3 & Hc & Hk). apply bind_Ok in Hk as ([] & e4 & Ha & Hk).
  apply ret_Ok in Hk as [_ ->]. destruct (completed_good e2 Hg2) as (e3' & Hc' & Hg3 & Hp3 & He3).
  rewrite Hc' in Hc. injection Hc as ->.
  destruct (account_good _ _ Ha Hg3) as (Hg4 & Hq4 & Hp4 & He4 & _). by rewrite Hp4, Hp3, Hw, He4, He3, He.
Qed.
(** What a run keeps. *)
Record kept e (t : Trace) : Prop := {
  kept_good : good e; kept_quiet : quiet e;
  kept_ids : ids (main t ++ urgent t) ≡ₚ owned (writer e) ++ acknowledged t;
  kept_once : numbered (next (encoder e)) (ids (main t ++ urgent t)) }.
Lemma turn_kept h k1 k2 a0 a1 a2 e e' t :
  pump_commands h k1 k2 a0 a1 a2 e = (Ok tt, e') → kept e t → kept e' (observed h k1 k2 a0 e t).
Proof.
  intros [Hs|(e1 & e2 & e3 & e4 & Hs & Hu & Hm & Hp & Ha)]%pump_commands_Ok [Hg Hq Hids Hnum];
    unfold observed; rewrite Hs; destruct (settled_good _ _ _ _ Hs Hg Hq) as (Hg1 & Hq1 & Hp1 & He1).
  { split; [done..| |]; by rewrite ?Hids, ?Hp1, ?He1. }
  rewrite Hu. cbn [snd]. rewrite Hm. cbn [snd].
  destruct (urgent_good _ _ _ _ Hu Hg1) as (Hg2 & Hq2 & Hi2 & Hp2).
  apply commit_command_Ok in Hm as [Hm _].
  destruct (main_good _ _ _ _ Hm Hg2 (Hq2 Hq1)) as (Hg3 & Hi3 & Hp3).
  apply pump_Ok in Hp. destruct (pumped_good _ _ _ _ Hp Hg3) as [Hg4 Hp4].
  destruct (account_good _ _ Ha Hg4) as (Hg5 & Hq5 & Hp5 & He5 & _).
  rewrite ids_app in Hids, Hnum. split; [done..| |]; cbn [observe main urgent acknowledged]; rewrite !ids_app.
  - rewrite Hp5, Hp4, Hp3, Hp2, Hp1, <-!(assoc (++)), <-Hids. solve_Permutation.
  - rewrite He5, (proj2 (pumped_rest _ _ _ _ Hp)), <-He1 in *.
    eapply numbered_perm; [|eapply numbered_add, Hi3; eapply numbered_add, Hi2; exact Hnum]. solve_Permutation.
Qed.

(** ** Every run *)
Lemma adopted_accepts n w id : sound n w → (writer_adopted id w).1 = Ok tt ↔ is_Some (held w !! id).
Proof.
  intros [_ _ Hh _]. unfold writer_adopted. rewrite (bind_run get _ _ _ _ eq_refl).
  destruct (held w !! id) as [q|] eqn:Hq; [|split; [done|by intros []]].
  destruct (Hh _ _ Hq) as [<- Ho]. unfold ok_or. rewrite (bind_run (mret q) _ _ _ _ eq_refl). unfold pending_adopted.
  rewrite (bind_run get _ _ _ _ eq_refl), refuse_run by
    (rewrite N.eqb_refl, bool_decide_true by done; done). done.
Qed.
Lemma adopted_good w w' n id : writer_adopted id w = (Ok tt, w') → sound n w → calm w →
  sound n w' ∧ calm w' ∧ owned w ≡ₚ id :: owned w' ∧ completed_output w' = completed_output w.
Proof.
  intros [Hi ->]%adopted_Ok [Hs1 Hs2 Hs3 Hs4] Hc.
  assert (owned w ≡ₚ id :: owned (set_held (delete id (held w)) w)) as Hp.
  { unfold owned. cbn [current priority held set_held]. rewrite (keys_delete _ _ Hi). solve_Permutation. }
  split_and!; [|done..]. rewrite Hp in Hs1, Hs2. apply NoDup_cons in Hs1 as [_ Hs1].
  apply Forall_cons in Hs2 as [_ Hs2]. split; try done. by apply map_Forall_delete.
Qed.
Lemma kept_start : kept new_end empty_trace.
Proof.
  split; [|done..|by split; constructor]. split; [|by left].
  by split; [constructor|constructor|apply map_Forall_empty|].
Qed.
Lemma written_kept h ops e t : written h ops = Ok (e, t) → kept e t.
Proof.
  apply wrun_ind with (I := kept); [|apply kept_start].
  intros e1 t1 op e2 t2 Hk Hs. destruct op as [op|k1 k2 a0 a1 a2|id]; cbn [wstep] in Hs.
  - injection Hs as <- <-. by destruct Hk.
  - destruct (pump_commands _ _ _ _ _ _ e1) as [[[]| |] e'] eqn:Hp; [|done..]. injection Hs as <- <-.
    by eapply turn_kept.
  - destruct (zoom _ _ _ e1) as [[[]| |] e'] eqn:Hp; [|done..]. injection Hs as <- <-.
    apply zoom_Ok in Hp as (w & Ha & ->). destruct Hk as [[Hg Hc] Hq Hids Hnum].
    destruct (adopted_good _ _ _ _ Ha Hg Hc) as (Hg' & Hc' & Hp & Ho).
    split; [done|unfold quiet; cbn; by rewrite Ho| |done].
    cbn [main urgent acknowledged writer set_writer]. rewrite Hids, Hp. solve_Permutation.
Qed.

(** ** Failures *)
Section blame.
Context (h : Host) (ks : list Answers) (socket : list (list Sent)).
(** A result of the channel, given one of the socket's answers, or of the
    encoder, given one of the kernel's. *)
Inductive culprit : res ChannelError unit → Prop :=
| by_flush a c r c' : a ∈ socket → flush a c = (r, c') → culprit (x ← r; Ok tt)
| by_queue v l c r l' c' : queue v l c = (r, l', c') → culprit (x ← r; Ok tt)
| by_prepare k c en r en' : k ∈ ks → prepare h k (MCommand c) en = (r, en') → culprit (x ← r; Ok tt).
Definition blamed {A} (r : res ChannelError A) : Prop :=
  match r with Ok _ => True | _ => culprit (x ← r; Ok tt) end.
Lemma blamed_bind {A B} (m : M End ChannelError A) (f : A → M End ChannelError B) e :
  blamed (m e).1 → (∀ a e1, m e = (Ok a, e1) → blamed (f a e1).1) → blamed ((m ≫= f) e).1.
Proof. unfold mbind, M_bind. destruct (m e) as [[a|x|] e1]; cbn; eauto. Qed.
Lemma flushed_blamed a e : a ∈ socket → blamed (flushed a e).1.
Proof.
  intros Ha. unfold flushed, zoom. destruct (flush a (channel e)) as [r c] eqn:Hf.
  apply by_flush in Hf; [|done]. by destruct r.
Qed.
Lemma queued_blamed f e : blamed (queued f e).1.
Proof. unfold queued. destruct (queue _ _ _) as [[r l] c] eqn:Hq. apply by_queue in Hq. by destruct r. Qed.
Lemma completed_blamed e : good e → blamed (completed e).1.
Proof. intros (e' & -> & _)%completed_good. done. Qed.
Lemma cancellation_blamed k e : k ∈ ks → blamed (commit_cancellation h k e).1.
Proof.
  intros Hin. unfold commit_cancellation. apply blamed_bind; [done|]. intros x x1 Hg. injection Hg as <- <-.
  case_bool_decide; [done|]. destruct (Outbound.pop_cancellation _) as [[c|] s]; [|done].
  apply blamed_bind; [done|]. intros x x1 Hg. injection Hg as <- <-. apply blamed_bind; [|done].
  unfold zoom. destruct (prepare _ _ _ _) as [r en] eqn:Hp. apply by_prepare in Hp; [|done]. by destruct r.
Qed.
Lemma command_blamed k e : k ∈ ks → blamed (commit_command h k e).1.
Proof.
  intros Hin. unfold commit_command. apply blamed_bind; [done|]. intros x x1 Hg. injection Hg as <- <-.
  destruct (has_turn _); [done|]. apply blamed_bind; [done|]. intros x x1 Hg. injection Hg as <- <-.
  destruct (Outbound.pop _) as [[c|] s]; [|done].
  cbn [fst snd]. apply blamed_bind; [done|]. intros x x1 Hg. injection Hg as <- <-.
  unfold prepare_command, zoom. destruct (prepare _ _ _ _) as [r en] eqn:Hp. apply by_prepare in Hp; [|done].
  destruct r; [done| |done]. by destruct (is_record c).
Qed.
Lemma pump_blamed a1 a2 e : a1 ∈ socket → a2 ∈ socket → good e → blamed (pump a1 a2 e).1.
Proof.
  intros Hin1 Hin2 Hg. unfold pump. apply blamed_bind; [by apply flushed_blamed|].
  intros [] e1 (Hg1 & _)%flushed_good; [|done]. apply blamed_bind; [done|]. intros x x1 Hx. injection Hx as <- <-.
  destruct (wants_write _); [done|]. destruct (completed_good e1 Hg1) as (e2 & Hc & Hg2 & _).
  apply blamed_bind; [by rewrite Hc|]. intros [] e2' Hc'. rewrite Hc in Hc'. injection Hc' as <-.
  apply blamed_bind; [done|]. intros x x1 Hx. injection Hx as <- <-.
  destruct (has_turn _); [|done]. apply blamed_bind.
  - destruct (next_frame (writer e2)) as [[f w]|]; [|done]. apply blamed_bind; [done|].
    intros x x1 Hx. injection Hx as <- <-. apply blamed_bind; [apply queued_blamed|intros; by apply flushed_blamed].
  - intros [] e4 Hn. apply blamed_bind; [done|]. intros x x1 Hx. injection Hx as <- <-.
    destruct (wants_write _); [done|]. apply completed_blamed.
    destruct (next_frame (writer e2)) as [[f w]|] eqn:Hf; [|by apply ret_Ok in Hn as [_ ->]].
    destruct (next_frame_good _ _ _ Hf Hg2) as [Hg3 _].
    apply bind_Ok in Hn as (x & x1 & Hx & Hn). injection Hx as <- <-.
    apply bind_Ok in Hn as ([] & e3 & Hq%queued_slots & Hn%flushed_slots). by rewrite Hn, Hq.
Qed.
End blame.

(** C26. A turn fails only with the channel or the encoder. In every run, a
    turn that does not succeed has the result of a flush with the socket's
    answers, of queueing a frame or of preparing a command: the writer itself
    never stops with a frame unsent, a transfer numbered twice or an output
    accounted twice. *)
Theorem turn_fails_only_outside h ops e t k1 k2 a0 a1 a2 : written h ops = Ok (e, t) →
  blamed h [k1; k2] [a0; a1; a2] (pump_commands h k1 k2 a0 a1 a2 e).1.
Proof.
  intros Hw. destruct (written_kept _ _ _ _ Hw) as [Hg Hq _ _]. unfold pump_commands.
  apply blamed_bind; [apply flushed_blamed; set_solver|]. intros [] e1 (Hg1 & _)%flushed_good; [|done].
  apply blamed_bind; [done|]. intros x x1 Hx. injection Hx as <- <-. destruct (wants_write _); [done|].
  destruct (completed_good e1 Hg1) as (e2 & Hc & Hg2 & _).
  apply blamed_bind; [by rewrite Hc|]. intros [] e2' Hc'. rewrite Hc in Hc'. injection Hc' as <-.
  apply blamed_bind; [done|]. intros [] e3 (Hg3 & Hq3 & _)%account_good; [|done].
  apply blamed_bind; [apply cancellation_blamed; set_solver|]. intros [] e4 (Hg4 & Hq4 & _)%urgent_good; [|done].
  apply blamed_bind; [apply command_blamed; set_solver|]. intros [] e5 Hm.
  apply commit_command_Ok in Hm as [Hm _]. destruct (main_good _ _ _ _ Hm Hg4 (Hq4 Hq3)) as (Hg5 & _).
  apply blamed_bind; [apply pump_blamed; [set_solver|set_solver|done]|]. done.
Qed.

(** C25. What is handed over stays until it is adopted. In every run the
    transfers the writer promised are distinct, and each is in a slot that
    still sends it, or held with its resources, or was acknowledged, exactly
    one of these; an acknowledgement is accepted for exactly the transfers
    held, so once; and a drained writer has all of them acknowledged. *)
Theorem handed_over_is_held h ops e t : written h ops = Ok (e, t) →
  NoDup (ids (main t ++ urgent t)) ∧
  ids (main t ++ urgent t) ≡ₚ slot_ids (current (writer e)) ++ slot_ids (priority (writer e)) ++
    (map_to_list (held (writer e))).*1 ++ acknowledged t ∧
  (∀ id, (writer_adopted id (writer e)).1 = Ok tt ↔ is_Some (held (writer e) !! id)) ∧
  (drained e = true → ids (main t ++ urgent t) ≡ₚ acknowledged t).
Proof.
  intros Hw. destruct (written_kept _ _ _ _ Hw) as [[Hg _] _ Hids [Hnd _]].
  unfold owned in Hids. rewrite <-!(assoc (++)) in Hids.
  split_and!; [done|done|intros id; by eapply adopted_accepts|]. intros Hd. rewrite Hids. unfold drained, idle in Hd.
  rewrite !andb_true_iff, bool_decide_eq_true in Hd. destruct Hd as [[[Hc Hp] _] Hh].
  destruct (current (writer e)); [done|]. destruct (priority (writer e)); [done|].
  by rewrite Hh, map_to_list_empty.
Qed.
End owners.

(** ** A run

    The handoff of 300 leases leaves in two frames, a cancellation between
    them, and is adopted. *)
Module Run.
Import ProtocolSpec.Examples.
#[local] Existing Instances short_json some_error plain_payloads.
Definition handoff_ops : list WOp :=
  [OQueue (OutboundSpec.OPush (Outbound.Start (P := protocol_carried) many_leases));
   OTurn answers answers [] [] [SentBytes 46];
   OQueue (OutboundSpec.OPush (Outbound.Cancel 7));
   OTurn answers answers [] [] [SentBytes 44];
   OTurn answers answers [] [] [SentBytes 45];
   OAdopted 1].
Definition cancel_received : Received := mkReceived (MCommand (Outbound.Cancel (P := protocol_carried) 7)) None.
Definition start_received : Received := mkReceived start_command (Some 1%N).

(** What a run comes to, by evaluation. *)
Definition outcome {X} (ops : list WOp) (f : End → Trace → X) : option X :=
  match written agreeable ops with Ok (e, t) => Some (f e t) | _ => None end.
Lemma outcome_is {X} ops (f : End → Trace → X) x : outcome ops f = Some x →
  match written agreeable ops with Ok (e, t) => f e t = x | _ => False end.
Proof. unfold outcome. destruct (written agreeable ops) as [[e t]| |]; [by intros [= ->]|done..]. Qed.

(** The descriptors sent along with the bytes the socket took, where any are. *)
Definition attached (c : Channel) : list N :=
  List.filter (λ n, negb (n =? 0)%N) ((λ b, lenN b.2) <$> sent_cells c).
Lemma written_commands_arrive_witness :
  match written agreeable handoff_ops with
  | Ok (e, t) =>
      attached (channel e) = [240; 62]%N ∧ pending_cells (channel e) = [] ∧
      ∃ l rs, sent_cells (channel e) ++ pending_cells (channel e) = l ≫= frame_cells ∧
        decode_all agreeable l None = (Ok rs, None) ∧ merges [start_received] [cancel_received] rs
  | _ => False
  end.
Proof.
  assert (outcome handoff_ops (λ e t, (attached (channel e), pending_cells (channel e), main t, urgent t, has_turn (writer e))) =
    Some ([240; 62]%N, [], [start_received], [cancel_received], false)) as Ho%outcome_is by (vm_compute; reflexivity).
  destruct (written agreeable handoff_ops) as [[e t]| |] eqn:Hw; [|done..]. injection Ho as Hl Hpe Hm Hu Ht.
  split; [done|]. split; [exact Hpe|].
  destruct (written_commands_arrive agreeable agreeable handoff_ops e t Hw) as
    (l & rs & dm & du & pend & Hcells & Hd & Hr & _ & _ & _ & _ & Hend).
  - rewrite Hm, Hu. intros r Hr%list_elem_of_In. destruct Hr as [<-|[<-|[]]].
    + split; [apply start_command_fits|apply start_command_accepted].
    + split; [by vm_compute|done].
  - destruct (Hend Ht) as (-> & -> & ->). exists l, rs. rewrite Hm, Hu in Hr. split; [exact Hcells|]. split; [exact Hd|exact Hr].
Defined.
Lemma handed_over_is_held_witness :
  match written agreeable (firstn 5 handoff_ops) with
  | Ok (e, t) => ids (main t ++ urgent t) = [1%N] ∧ acknowledged t = [] ∧ (writer_adopted 1 (writer e)).1 = Ok tt ∧
                 (writer_adopted 2 (writer e)).1 ≠ Ok tt
  | _ => False
  end.
Proof.
  assert (outcome (firstn 5 handoff_ops) (λ e t, (ids (main t ++ urgent t), acknowledged t,
    bool_decide (is_Some (held (writer e) !! 1%N)), bool_decide (is_Some (held (writer e) !! 2%N)))) =
    Some ([1%N], [], true, false)) as Ho%outcome_is by (vm_compute; reflexivity).
  destruct (written agreeable (firstn 5 handoff_ops)) as [[e t]| |] eqn:Hw; [|done..].
  injection Ho as Hi Hk Hx1%bool_decide_eq_true Hx2%bool_decide_eq_false.
  destruct (handed_over_is_held agreeable _ e t Hw) as (_ & _ & Ha & _).
  split; [exact Hi|]. split; [exact Hk|]. split; [apply Ha; exact Hx1|]. intros Hx%Ha. exact (Hx2 Hx).
Defined.
Lemma turn_fails_only_outside_witness :
  match written agreeable (firstn 1 handoff_ops) with
  | Ok (e, t) => blamed agreeable [answers; answers] [[]; []; [SendFails BrokenPipe]]
      (pump_commands agreeable answers answers [] [] [SendFails BrokenPipe] e).1 ∧
      (pump_commands agreeable answers answers [] [] [SendFails BrokenPipe] e).1 = Err BrokenPipe
  | _ => False
  end.
Proof.
  assert (outcome (firstn 1 handoff_ops) (λ e t,
    (pump_commands agreeable answers answers [] [] [SendFails BrokenPipe] e).1) = Some (Err BrokenPipe)) as Ho%outcome_is by (vm_compute; reflexivity).
  destruct (written agreeable (firstn 1 handoff_ops)) as [[e t]| |] eqn:Hw; [|done..].
  split; [exact (turn_fails_only_outside agreeable _ e t answers answers [] [] [SendFails BrokenPipe] Hw)|exact Ho].
Defined.
End Run.
