(* ===== verification/Seccomp.v ===== *)
(** * The system call filters

    [libs/supervisor/src/seccomp.rs]: the two classic BPF programs a sandbox
    and a container run under, their bytes, and the evaluator the file tests
    them with; and what each decides, for every call. *)
From S2P Require Import Prelude Framing FramingFacts.
From Stdlib Require Import Ascii.

(** [(u16, u8, u8, u32)]: operation, jumps when true and false, constant. *)
Record Instruction := mkInstruction { op : N; jt : N; jf : N; k : N }.

Definition LOAD : N := 32. (* 0x20 *)
Definition EQUAL : N := 21. (* 0x15 *)
Definition GREATER_EQUAL : N := 53. (* 0x35 *)
Definition SET : N := 69. (* 0x45 *)
Definition RETURN : N := 6. (* 0x06 *)
Definition X86_64 : N := 3221225534. (* 0xC000003E *)
Definition X32 : N := 1073741824. (* 0x40000000 *)
Definition KILL : N := 2147483648. (* 0x80000000 *)
Definition PERM : N := 327681. (* 0x50001 *)
Definition NOSYS : N := 327718. (* 0x50026 *)
Definition ALLOW : N := 2147418112. (* 0x7FFF0000 *)
Definition NAMESPACES : N := 2114060288. (* 0x7E020000 *)

(** The numbers of [libc] the container's filter is written with. *)
Record Libc := mkLibc {
  SYS_clone3 : N; SYS_clone : N; SYS_unshare : N; CLONE_NEWCGROUP : N }.

Section filters.
Context (ARCH : string) (libc : Libc).

Definition header : res string (list Instruction) :=
  if negb (string_eqb ARCH "x86_64")
  then Err "the syscall filter currently supports x86_64 only" else
  Ok [mkInstruction LOAD 0 0 4;
      mkInstruction EQUAL 1 0 X86_64;
      mkInstruction RETURN 0 0 KILL;
      mkInstruction LOAD 0 0 0;
      mkInstruction GREATER_EQUAL 0 1 X32;
      mkInstruction RETURN 0 0 PERM].
Definition DENIED : list N := [165; 166; 155; 272; 308; 428; 429; 430; 431; 432; 442; 101; 304]%N.
Definition denies (nr : N) : list Instruction :=
  [mkInstruction EQUAL 0 1 nr; mkInstruction RETURN 0 0 PERM].

(** [u16::to_ne_bytes], [u32::to_ne_bytes] on x86_64. *)
Fixpoint le_bytes (n : nat) (x : N) : Bytes :=
  match n with O => [] | S n => ascii_of_N (x mod 256) :: le_bytes n (x / 256) end.
Fixpoint from_le_bytes (l : Bytes) : N :=
  match l with [] => 0 | b :: l => N_of_ascii b + 256 * from_le_bytes l end.
Definition instruction_bytes (i : Instruction) : Bytes :=
  le_bytes 2 (op i) ++ le_bytes 1 (jt i) ++ le_bytes 1 (jf i) ++ le_bytes 4 (k i).
Definition write_filter (code : list Instruction) : Bytes := code ≫= instruction_bytes.

Definition filter : res string Bytes :=
  code ← header;
  Ok (write_filter (code ++ (DENIED ≫= denies) ++
    [mkInstruction EQUAL 0 1 435; mkInstruction RETURN 0 0 NOSYS;
     mkInstruction EQUAL 0 4 56; mkInstruction LOAD 0 0 16; mkInstruction SET 0 1 NAMESPACES;
     mkInstruction RETURN 0 0 PERM; mkInstruction RETURN 0 0 ALLOW; mkInstruction RETURN 0 0 ALLOW])).
Definition checks_clone (nr : N) : list Instruction :=
  [mkInstruction EQUAL 0 4 nr; mkInstruction LOAD 0 0 16; mkInstruction SET 0 1 (CLONE_NEWCGROUP libc);
   mkInstruction RETURN 0 0 PERM; mkInstruction RETURN 0 0 ALLOW].
Definition docker_filter : res string Bytes :=
  code ← header;
  Ok (write_filter (code ++
    [mkInstruction EQUAL 0 1 (SYS_clone3 libc); mkInstruction RETURN 0 0 NOSYS] ++
    ([SYS_clone libc; SYS_unshare libc] ≫= checks_clone) ++ [mkInstruction RETURN 0 0 ALLOW])).
End filters.

(** ** The evaluator *)
Fixpoint chunks_exact (fuel n : nat) (l : Bytes) : list Bytes :=
  match fuel with
  | O => []
  | S fuel => if bool_decide (length l < n) then [] else take n l :: chunks_exact fuel n (drop n l)
  end.
Definition load (arch nr flags k : N) : option N :=
  if (k =? 0)%N then Some nr else if (k =? 4)%N then Some arch else if (k =? 16)%N then Some flags else None.
(** [fuel] counts the rounds of the [for]; the failures of the evaluator, an
    index out of range among them, are [Panic]. *)
Fixpoint rounds (code : list Bytes) (arch nr flags : N) (fuel pc : nat) (accumulator : N) : res string N :=
  match fuel with
  | O => Panic
  | S fuel =>
      match code !! pc with
      | None => Panic
      | Some i =>
          let op := from_le_bytes (take 2 i) in let k := from_le_bytes (drop 4 i) in
          let jump (yes : bool) :=
            rounds code arch nr flags fuel
              (pc + 1 + N.to_nat (from_le_bytes (take 1 (drop (if yes then 2 else 3) i)))) accumulator in
          if (op =? 32)%N then
            match load arch nr flags k with
            | Some a => rounds code arch nr flags fuel (pc + 1) a
            | None => Panic
            end
          else if (op =? 21)%N then jump (accumulator =? k)%N
          else if (op =? 53)%N then jump (k <=? accumulator)%N
          else if (op =? 69)%N then jump (negb (N.land accumulator k =? 0)%N)
          else if (op =? 6)%N then Ok k
          else Panic
      end
  end.
Definition action (filter : Bytes) (arch nr flags : N) : res string N :=
  let code := chunks_exact (length filter) 8 filter in
  rounds code arch nr flags (length code) 0 0.

(** ** What the filters decide *)
Section decisions.
Implicit Types (arch nr flags acc : N).

Definition decode (i : Bytes) : Instruction :=
  mkInstruction (from_le_bytes (take 2 i)) (from_le_bytes (take 1 (drop 2 i)))
    (from_le_bytes (take 1 (drop 3 i))) (from_le_bytes (drop 4 i)).
Definition fits (i : Instruction) : Prop :=
  (op i < 2 ^ 16 ∧ jt i < 2 ^ 8 ∧ jf i < 2 ^ 8 ∧ k i < 2 ^ 32)%N.
Lemma le_bytes_length n x : length (le_bytes n x) = n.
Proof. revert x. induction n; intros x; simpl; auto. Qed.
Lemma le_bytes_read n x : (x < 256 ^ N.of_nat n)%N → from_le_bytes (le_bytes n x) = x.
Proof.
  revert x. induction n as [|n IH]; intros x Hx; cbn [le_bytes from_le_bytes]; [simpl in Hx; lia|].
  rewrite N_ascii_embedding by (apply N.mod_lt; lia). rewrite IH.
  - pose proof (N.div_mod x 256 ltac:(lia)). lia.
  - apply N.Div0.div_lt_upper_bound. rewrite Nat2N.inj_succ, N.pow_succ_r' in Hx. lia.
Qed.
Lemma instruction_length i : length (instruction_bytes i) = 8.
Proof. unfold instruction_bytes. by rewrite !length_app, !le_bytes_length. Qed.
Lemma decode_instruction i : fits i → decode (instruction_bytes i) = i.
Proof.
  intros (Ho & Ht & Hf & Hk). unfold decode, instruction_bytes.
  pose proof (le_bytes_length 2 (op i)) as H2. pose proof (le_bytes_length 1 (jt i)) as H3.
  pose proof (le_bytes_length 1 (jf i)) as H4.
  rewrite (take_app_length' (le_bytes 2 (op i))) by done.
  rewrite (drop_app_length' (le_bytes 2 (op i))) by done.
  rewrite (take_app_length' (le_bytes 1 (jt i))) by done.
  replace 3 with (2 + 1) by done. rewrite <-drop_drop, (drop_app_length' (le_bytes 2 (op i))) by done.
  rewrite (drop_app_length' (le_bytes 1 (jt i))) by done.
  rewrite (take_app_length' (le_bytes 1 (jf i))) by done.
  replace 4 with (2 + (1 + 1)) at 1 by done.
  rewrite <-!drop_drop, (drop_app_length' (le_bytes 2 (op i))), (drop_app_length' (le_bytes 1 (jt i))),
    (drop_app_length' (le_bytes 1 (jf i))) by done.
  rewrite !le_bytes_read by (eapply N.lt_le_trans; [eassumption|by vm_compute]). by destruct i.
Qed.
Lemma chunks_filter code fuel : length code <= fuel → Forall fits code →
  decode <$> chunks_exact fuel 8 (write_filter code) = code.
Proof.
  intros Hn Hf. revert fuel Hn. induction Hf as [|i code Hi _ IH]; intros fuel Hn.
  - by destruct fuel.
  - destruct fuel as [|fuel]; [simpl in Hn; lia|]. unfold write_filter. cbn [mbind list_bind chunks_exact].
    fold (write_filter code). pose proof (instruction_length i) as Hl.
    rewrite bool_decide_false by (rewrite length_app; lia).
    rewrite take_app_length', drop_app_length' by done. cbn [fmap list_fmap].
    rewrite decode_instruction by done. f_equal. apply IH. simpl in Hn. lia.
Qed.

(** The rounds over the instructions. *)
Fixpoint exec (code : list Instruction) arch nr flags (fuel pc : nat) acc : res string N :=
  match fuel with
  | O => Panic
  | S fuel =>
      match code !! pc with
      | None => Panic
      | Some i =>
          let jump (yes : bool) := exec code arch nr flags fuel (pc + 1 + N.to_nat (if yes then jt i else jf i)) acc in
          if (op i =? LOAD)%N then
            match load arch nr flags (k i) with
            | Some a => exec code arch nr flags fuel (pc + 1) a
            | None => Panic
            end
          else if (op i =? EQUAL)%N then jump (acc =? k i)%N
          else if (op i =? GREATER_EQUAL)%N then jump (k i <=? acc)%N
          else if (op i =? SET)%N then jump (negb (N.land acc (k i) =? 0)%N)
          else if (op i =? RETURN)%N then Ok (k i)
          else Panic
      end
  end.
Lemma rounds_exec code arch nr flags fuel pc acc :
  rounds code arch nr flags fuel pc acc = exec (decode <$> code) arch nr flags fuel pc acc.
Proof.
  revert pc acc. induction fuel as [|fuel IH]; intros pc acc; [done|]. cbn [rounds exec].
  rewrite list_lookup_fmap. destruct (code !! pc) as [i|]; [|done]. cbn [fmap option_fmap option_map].
  change (op (decode i)) with (from_le_bytes (take 2 i)). change (k (decode i)) with (from_le_bytes (drop 4 i)).
  change (jt (decode i)) with (from_le_bytes (take 1 (drop 2 i))).
  change (jf (decode i)) with (from_le_bytes (take 1 (drop 3 i))).
  unfold LOAD, EQUAL, GREATER_EQUAL, SET, RETURN.
  repeat (case_match; try done); subst; try apply IH.
Qed.
Lemma chunks_length code fuel : length code <= fuel → length (chunks_exact fuel 8 (write_filter code)) = length code.
Proof.
  revert fuel. induction code as [|i code IH]; intros fuel Hn; [by destruct fuel|].
  destruct fuel as [|fuel]; [simpl in Hn; lia|]. unfold write_filter. cbn [mbind list_bind chunks_exact].
  fold (write_filter code). pose proof (instruction_length i) as Hl.
  rewrite bool_decide_false by (rewrite length_app; lia). rewrite drop_app_length' by done.
  simpl. rewrite IH; [done|]. simpl in Hn. lia.
Qed.
Lemma filter_bytes_length code : length (write_filter code) = 8 * length code.
Proof.
  induction code as [|i code IH]; [done|]. unfold write_filter. cbn [mbind list_bind].
  rewrite length_app, instruction_length. fold (write_filter code). rewrite IH. simpl. lia.
Qed.
Lemma action_exec code arch nr flags : Forall fits code →
  action (write_filter code) arch nr flags = exec code arch nr flags (length code) 0 0.
Proof.
  intros Hf. unfold action. pose proof (filter_bytes_length code) as Hl.
  rewrite rounds_exec, chunks_filter, chunks_length by (done || lia). done.
Qed.

(** One round, by the operation at the program counter. *)
Section step.
Context (code : list Instruction) (arch nr flags : N) (fuel pc : nat) (acc : N).
Abbreviation go := (exec code arch nr flags).
Lemma exec_load a b k v : code !! pc = Some (mkInstruction LOAD a b k) → load arch nr flags k = Some v →
  go (S fuel) pc acc = go fuel (pc + 1) v.
Proof. intros Hc Hv. cbn [exec]. rewrite Hc. cbn. by rewrite Hv. Qed.
Lemma exec_equal t f k : code !! pc = Some (mkInstruction EQUAL t f k) →
  go (S fuel) pc acc = go fuel (pc + 1 + N.to_nat (if (acc =? k)%N then t else f)) acc.
Proof. intros Hc. cbn [exec]. by rewrite Hc. Qed.
Lemma exec_greater t f k : code !! pc = Some (mkInstruction GREATER_EQUAL t f k) →
  go (S fuel) pc acc = go fuel (pc + 1 + N.to_nat (if (k <=? acc)%N then t else f)) acc.
Proof. intros Hc. cbn [exec]. by rewrite Hc. Qed.
Lemma exec_set t f k : code !! pc = Some (mkInstruction SET t f k) →
  go (S fuel) pc acc = go fuel (pc + 1 + N.to_nat (if (N.land acc k =? 0)%N then f else t)) acc.
Proof. intros Hc. cbn [exec]. rewrite Hc. cbn. by destruct (N.land acc k =? 0)%N. Qed.
Lemma exec_return a b k : code !! pc = Some (mkInstruction RETURN a b k) → go (S fuel) pc acc = Ok k.
Proof. intros Hc. cbn [exec]. by rewrite Hc. Qed.
End step.

Ltac bpf_round :=
  first [ erewrite exec_return by reflexivity
        | erewrite exec_load by reflexivity
        | erewrite exec_equal by reflexivity; case N.eqb_spec; intros ?
        | erewrite exec_greater by reflexivity; case N.leb_spec; intros ?
        | erewrite exec_set by reflexivity; case N.eqb_spec; intros ? ].

(** The system calls of Linux on x86_64 that the filters are about, with the
    numbers of the kernel's interface. *)
Inductive SystemCall :=
| mount | umount2 | pivot_root | open_tree | move_mount | fsopen | fsconfig | fsmount | mount_setattr
| ptrace | setns | unshare | open_by_handle_at | clone | clone3.
Definition number (c : SystemCall) : N :=
  match c with
  | mount => 165 | umount2 => 166 | pivot_root => 155 | open_tree => 428 | move_mount => 429 | fsopen => 430
  | fsconfig => 431 | fsmount => 432 | mount_setattr => 442 | ptrace => 101 | setns => 308 | unshare => 272
  | open_by_handle_at => 304 | clone => 56 | clone3 => 435
  end.
(** What each of them is good for, as far as a sandbox is concerned. *)
Inductive Power := Mounts | Traces | Enters_namespace | Makes_namespace | Opens_by_handle | Makes_process.
Definition power (c : SystemCall) : Power :=
  match c with
  | mount | umount2 | pivot_root | open_tree | move_mount | fsopen | fsconfig | fsmount | mount_setattr => Mounts
  | ptrace => Traces | setns => Enters_namespace | unshare => Makes_namespace
  | open_by_handle_at => Opens_by_handle | clone | clone3 => Makes_process
  end.
Inductive Namespace := NewMount | NewCgroup | NewUts | NewIpc | NewUser | NewPid | NewNet.
(** The bit of the flag of [clone] that makes a namespace. *)
Definition flag_bit (n : Namespace) : N :=
  match n with
  | NewMount => 17 | NewCgroup => 25 | NewUts => 26 | NewIpc => 27 | NewUser => 28 | NewPid => 29 | NewNet => 30
  end.
Definition makes (n : Namespace) (flags : N) : Prop := N.testbit flags (flag_bit n) = true.

(** What a sandboxed process may do: call the 64-bit interface of x86_64, but
    for the calls that mount, trace, enter or make a namespace or open files
    by handle; and make processes that share its namespaces, by the call whose
    flags a filter can see. *)
Definition payload_allows arch nr flags : Prop :=
  arch = X86_64 ∧ (nr < X32)%N ∧
  ∀ c, nr = number c → power c = Makes_process ∧ c = clone ∧ ∀ n, ¬ makes n flags.
Definition forbidden : list N :=
  number <$> [mount; umount2; pivot_root; open_tree; move_mount; fsopen; fsconfig; fsmount; mount_setattr;
              ptrace; setns; unshare; open_by_handle_at].
Definition payload_decision arch nr flags : N :=
  if negb (arch =? X86_64)%N then KILL
  else if (nr =? 435)%N then NOSYS
  else if (X32 <=? nr)%N || bool_decide (nr ∈ forbidden) || ((nr =? 56)%N && negb (N.land flags NAMESPACES =? 0)%N)
  then PERM else ALLOW.

Lemma elem_existsb nr (l : list N) : bool_decide (nr ∈ l) = existsb (N.eqb nr) l.
Proof.
  apply eq_true_iff_eq. rewrite bool_decide_eq_true, existsb_exists. split.
  - intros Hin. exists nr. split; [by apply list_elem_of_In|apply N.eqb_refl].
  - intros (x & Hx%list_elem_of_In & ->%N.eqb_eq). done.
Qed.
(** The comparisons of a decision, given those of the run. *)
Ltac decided :=
  repeat (rewrite elem_existsb || cbn [existsb orb andb negb] ||
    match goal with
    | |- context [(?a =? ?b)%N] => destruct (N.eqb_spec a b); subst
    | |- context [(?a <=? ?b)%N] => destruct (N.leb_spec a b)
    end); try reflexivity; try (unfold X32 in *; lia); try congruence.
Lemma payload_filter_decides arch nr flags :
  ∃ l, filter "x86_64" = Ok l ∧ action l arch nr flags = Ok (payload_decision arch nr flags).
Proof.
  eexists. split; [reflexivity|]. rewrite action_exec by (repeat constructor).
  match goal with |- exec ?c _ _ _ _ _ _ = _ => set (code := c) end.
  change (length code) with 40. repeat bpf_round; clear code; f_equal; unfold payload_decision;
    change forbidden with [165; 166; 155; 428; 429; 430; 431; 432; 442; 101; 308; 272; 304]%N; decided.
Qed.
Definition docker_decision (libc : Libc) arch nr flags : N :=
  if negb (arch =? X86_64)%N then KILL
  else if (X32 <=? nr)%N then PERM
  else if (nr =? SYS_clone3 libc)%N then NOSYS
  else if ((nr =? SYS_clone libc)%N || (nr =? SYS_unshare libc)%N) &&
          negb (N.land flags (CLONE_NEWCGROUP libc) =? 0)%N
  then PERM else ALLOW.
Definition libc_fits (libc : Libc) : Prop :=
  (SYS_clone3 libc < 2 ^ 32 ∧ SYS_clone libc < 2 ^ 32 ∧ SYS_unshare libc < 2 ^ 32 ∧
   CLONE_NEWCGROUP libc < 2 ^ 32)%N.
Lemma docker_filter_decides libc arch nr flags : libc_fits libc →
  ∃ l, docker_filter "x86_64" libc = Ok l ∧ action l arch nr flags = Ok (docker_decision libc arch nr flags).
Proof.
  intros (H3 & Hc & Hu & Hn). eexists. split; [reflexivity|].
  rewrite action_exec by (repeat constructor; cbn; first [assumption|lia]).
  match goal with |- exec ?c _ _ _ _ _ _ = _ => set (code := c) end.
  change (length code) with 19. repeat bpf_round; clear code; f_equal; unfold docker_decision; decided.
Qed.

(** The answers of a filter, as the kernel reads them. *)
Inductive Answer := Allow | Refuse (errno : N) | Kill.
Definition answer (a : Answer) : N :=
  match a with Allow => 2147418112 | Refuse errno => 327680 + errno | Kill => 2147483648 end.
Definition EPERM : N := 1.
Definition ENOSYS : N := 38.
(** A filter that allows [allowed] and refuses [clone3] so that libc falls
    back to [clone]. *)
Definition decides (filter : Bytes) arch nr flags (allowed : Prop) : Prop :=
  ∃ a, action filter arch nr flags = Ok (answer a) ∧ (a = Allow ↔ allowed) ∧
       (a = Kill ↔ arch ≠ 3221225534%N) ∧
       (a = Refuse ENOSYS ↔ arch = 3221225534%N ∧ nr = number clone3) ∧
       (a = Allow ∨ a = Kill ∨ a = Refuse ENOSYS ∨ a = Refuse EPERM).

(** A mask is the flags of its bits. *)
Definition mask_of (mask : N) (bits : list N) : Prop := ∀ i, N.testbit mask i = true ↔ i ∈ bits.
Lemma mask_by_bits mask (bits : list N) :
  (mask < 2 ^ 31)%N → forallb (λ i, Bool.eqb (N.testbit mask i) (bool_decide (i ∈ bits))) (N.of_nat <$> seq 0 31) = true →
  forallb (λ i, i <? 31)%N bits = true → mask_of mask bits.
Proof.
  intros Hm Hin Hb i. destruct (N.lt_ge_cases i 31) as [Hi|Hi].
  - rewrite forallb_forall in Hin. specialize (Hin i). rewrite Bool.eqb_true_iff in Hin. rewrite Hin; [apply bool_decide_eq_true|].
    apply list_elem_of_In, list_elem_of_fmap. exists (N.to_nat i). rewrite elem_of_seq. lia.
  - split.
    + destruct (N.eqb_spec mask 0) as [->|Hz]; [by rewrite N.bits_0|].
      rewrite N.bits_above_log2; [done|]. apply N.log2_lt_pow2; [lia|].
      eapply N.lt_le_trans; [exact Hm|]. apply N.pow_le_mono_r; lia.
    + intros Hin'. rewrite forallb_forall in Hb. specialize (Hb i (proj1 (list_elem_of_In _ _) Hin')).
      apply N.ltb_lt in Hb. lia.
Qed.
Lemma land_mask mask bits flags : mask_of mask bits →
  N.land flags mask = 0%N ↔ ∀ b, b ∈ bits → N.testbit flags b = false.
Proof.
  intros Hm. split.
  - intros Hz b Hb%Hm. apply (f_equal (λ n, N.testbit n b)) in Hz.
    rewrite N.land_spec, Hb, andb_true_r, N.bits_0 in Hz. done.
  - intros Hf. apply N.bits_inj_0. intros i. rewrite N.land_spec.
    destruct (N.testbit mask i) eqn:Hi; [|apply andb_false_r]. rewrite Hf; [done|by apply Hm].
Qed.
Lemma namespaces_made flags : N.land flags NAMESPACES = 0%N ↔ ∀ n, ¬ makes n flags.
Proof.
  rewrite (land_mask _ [17; 25; 26; 27; 28; 29; 30]%N) by (apply mask_by_bits; by vm_compute). unfold makes. split.
  - intros Hf n. rewrite Hf; [done|]. destruct n; cbn; set_solver.
  - intros Hf b Hb. apply not_true_is_false. repeat (apply elem_of_cons in Hb as [->|Hb]); [..|set_solver].
    + apply (Hf NewMount).
    + apply (Hf NewCgroup).
    + apply (Hf NewUts).
    + apply (Hf NewIpc).
    + apply (Hf NewUser).
    + apply (Hf NewPid).
    + apply (Hf NewNet).
Qed.
Lemma call_cases nr : (nr ∈ forbidden ∨ nr = 56%N ∨ nr = 435%N) ↔ ∃ c, nr = number c.
Proof.
  split.
  - intros [(c & -> & _)%list_elem_of_fmap|[->| ->]]; [by exists c|by exists clone|by exists clone3].
  - intros [[] ->]; unfold forbidden; cbn; set_solver.
Qed.
Lemma number_inj c d : number c = number d → c = d.
Proof. by destruct c, d. Qed.
Lemma payload_decides arch nr flags : ∃ l, filter "x86_64" = Ok l ∧ decides l arch nr flags (payload_allows arch nr flags).
Proof.
  destruct (payload_filter_decides arch nr flags) as (l & Hl & Ha). exists l. split; [done|].
  unfold decides. rewrite Ha. unfold payload_decision, payload_allows.
  change X86_64 with 3221225534%N. change X32 with 1073741824%N.
  destruct (N.eqb_spec arch 3221225534) as [Harch|]; cbn [negb];
    [|exists Kill; split; [done|naive_solver]].
  destruct (N.eqb_spec nr 435) as [->|Hc3].
  { exists (Refuse ENOSYS). split; [done|]. split; [|naive_solver]. split; [done|].
    intros (_ & _ & Hn). by destruct (Hn clone3 eq_refl) as (_ & ? & _). }
  assert (nr ≠ number clone3) as Hne by done.
  destruct (N.leb_spec 1073741824 nr) as [Hx|Hx]; cbn [orb]; [exists (Refuse EPERM); split; [done|naive_solver lia]|].
  destruct (bool_decide_reflect (nr ∈ forbidden)) as [Hf|Hf]; cbn [orb].
  { exists (Refuse EPERM). split; [done|]. split; [|naive_solver]. split; [done|]. intros (_ & _ & Hn).
    apply list_elem_of_fmap in Hf as (c & Hc & Hin). destruct (Hn c Hc) as (Hp & -> & _). set_solver. }
  destruct (N.eqb_spec nr 56) as [->|Hcl]; cbn [andb].
  - destruct (N.eqb_spec (N.land flags NAMESPACES) 0) as [Hz|Hz]; cbn [negb].
    + exists Allow. split; [done|]. split; [|naive_solver]. split; [|done]. intros _. split_and!; [done|lia|].
      intros c Hc. assert (c = clone) as -> by by apply number_inj. split_and!; [done|done|by apply namespaces_made].
    + exists (Refuse EPERM). split; [done|]. split; [|naive_solver]. split; [done|]. intros (_ & _ & Hn).
      destruct Hz. apply namespaces_made. by apply (Hn clone).
  - exists Allow. split; [done|]. split; [|naive_solver]. split; [|done]. intros _. split_and!; [done|lia|].
    intros c Hc. assert (nr ∈ forbidden ∨ nr = 56%N ∨ nr = 435%N) as [?|[?|?]] by (apply call_cases; by exists c); done.
Qed.

(** The numbers of [libc] on x86_64. *)
Record documented (libc : Libc) : Prop := {
  documented_clone3 : SYS_clone3 libc = number clone3;
  documented_clone : SYS_clone libc = number clone;
  documented_unshare : SYS_unshare libc = number unshare;
  documented_cgroup : CLONE_NEWCGROUP libc = (2 ^ flag_bit NewCgroup)%N }.
(** What a container may do: anything in that interface but make a cgroup
    namespace, or use the call whose flags a filter cannot see. *)
Definition container_allows arch nr flags : Prop :=
  arch = X86_64 ∧ (nr < X32)%N ∧ nr ≠ number clone3 ∧
  (nr = number clone ∨ nr = number unshare → ¬ makes NewCgroup flags).
Lemma docker_decides libc arch nr flags : documented libc →
  ∃ l, docker_filter "x86_64" libc = Ok l ∧ decides l arch nr flags (container_allows arch nr flags).
Proof.
  intros [H3 Hc Hu Hn].
  destruct (docker_filter_decides libc arch nr flags) as (l & Hl & Ha);
    [unfold libc_fits; rewrite H3, Hc, Hu, Hn; by vm_compute|].
  exists l. split; [done|]. unfold decides. rewrite Ha. unfold docker_decision, container_allows. rewrite H3, Hc, Hu, Hn.
  assert (N.land flags (2 ^ flag_bit NewCgroup) = 0%N ↔ ¬ makes NewCgroup flags) as Hm.
  { rewrite (land_mask _ [25%N]) by (apply mask_by_bits; by vm_compute). unfold makes. cbn [flag_bit].
    rewrite not_true_iff_false. set_solver. }
  change X86_64 with 3221225534%N. change X32 with 1073741824%N.
  destruct (N.eqb_spec arch 3221225534) as [Harch|]; cbn [negb];
    [|exists Kill; split; [done|naive_solver]].
  destruct (N.leb_spec 1073741824 nr) as [Hx|Hx].
  { exists (Refuse EPERM). assert (nr ≠ number clone3) by (cbn; lia). split; [done|naive_solver lia]. }
  destruct (N.eqb_spec nr (number clone3)) as [Hc3|Hc3]; [exists (Refuse ENOSYS); split; [done|naive_solver]|].
  assert (((nr =? number clone)%N || (nr =? number unshare)%N) = true ↔ nr = number clone ∨ nr = number unshare) as Hcu
    by by rewrite orb_true_iff, !N.eqb_eq.
  destruct (_ || _); cbn [andb];
    [destruct (N.eqb_spec (N.land flags (2 ^ flag_bit NewCgroup)) 0) as [Hz|Hz]; cbn [negb]|].
  - exists Allow. split; [done|]. naive_solver.
  - exists (Refuse EPERM). split; [done|]. naive_solver.
  - exists Allow. split; [done|]. assert (¬ (nr = number clone ∨ nr = number unshare)) by (intros ?%Hcu; done). naive_solver.
Qed.

(** C28. The system call filters decide what they are meant to, for every
    architecture, call and argument. A sandboxed process may use the 64-bit
    interface of x86_64 except for the calls that mount, trace, enter or make
    a namespace or open a file by its handle, and it may make a process only
    with the call whose flags a filter sees and in its own namespaces; a
    container may use that interface but not make a cgroup namespace, nor use
    [clone3]. A process of another architecture is killed, [clone3] is said
    not to exist and the rest is not permitted. Either filter ends with a
    decision: it never loads outside the call's data, jumps out of its program
    or ends without a return. *)
Theorem filters_decide libc arch nr flags : documented libc →
  (∃ l, filter "x86_64" = Ok l ∧ decides l arch nr flags (payload_allows arch nr flags)) ∧
  (∃ l, docker_filter "x86_64" libc = Ok l ∧ decides l arch nr flags (container_allows arch nr flags)).
Proof. intros Hl. split; [apply payload_decides|by apply docker_decides]. Qed.
End decisions.

(** Unsharing the user namespace is refused to a sandbox and allowed to a
    container. *)
Definition linux_libc : Libc := mkLibc 435 56 272 33554432.
Lemma filters_decide_witness :
  (∃ l, filter "x86_64" = Ok l ∧ action l X86_64 272 268435456 = Ok (answer (Refuse EPERM))) ∧
  (∃ l, docker_filter "x86_64" linux_libc = Ok l ∧ action l X86_64 272 268435456 = Ok (answer Allow)).
Proof.
  destruct (filters_decide linux_libc X86_64 272 268435456)
    as [(l1 & Hl1 & a1 & Ha1 & Hp1 & Hk1 & Hn1 & Hc1) (l2 & Hl2 & a2 & Ha2 & Hp2 & _)];
    [split; by vm_compute|]. split.
  - exists l1. split; [exact Hl1|]. rewrite Ha1.
    destruct Hc1 as [Ha|[Ha|[Ha|Ha]]]; subst a1; [exfalso|exfalso|exfalso|reflexivity].
    + destruct Hp1 as [Hp1 _]. destruct (Hp1 eq_refl) as (_ & _ & Hc). by destruct (Hc unshare eq_refl) as [? _].
    + destruct Hk1 as [Hk1 _]. by apply Hk1.
    + destruct Hn1 as [Hn1 _]. by destruct (Hn1 eq_refl) as [_ ?].
  - exists l2. split; [exact Hl2|]. rewrite Ha2. destruct Hp2 as [_ Hp2]. rewrite Hp2; [reflexivity|].
    split; [reflexivity|]. split; [by vm_compute|]. split; [done|]. intros _ Hm. by vm_compute in Hm.
Defined.
