(* ===== verification/Sandbox.v ===== *)
(** * The gate of a sandbox's requests

    [libs/runtime/src/sandbox.rs]: which calls of a sandbox reach the daemon,
    by their size, the state of the connection, their parameters and the
    policy; with what it lets pass. The texts of [serde]'s errors are
    [SerdeText]. *)
From S2P Require Import Prelude Json Grammar Messages Framing FramingFacts Text Paths Binds Config Policy.
From S2P Require Requests.
From S2P Require Import Codec.
From stdpp Require Import countable.

(** The name of a feature in kebab case. *)
Definition feature_name (f : Feature) : string :=
  match f with
  | LivePackages => "live-packages" | DevShells => "dev-shells" | FlakeApps => "flake-apps"
  | NixDaemon => "nix-daemon" | HostJobs => "host-jobs" | Exec => "exec"
  | AttachClients => "attach-clients" | Scopes => "scopes" | SharedPid => "shared-pid" | FDocker => "docker"
  end.
Definition fault (refusal : Refusal) : Z * string :=
  match refusal with
  | RPolicy code message => (code, message)
  | Unsupported f => (-32009, "not supported by this sandbox: " +:+ feature_name f)
  end%Z.
Definition invalid {A} (message : string) : res Refusal A := Err (RPolicy (-32602) message).

(** ** Parameters *)
Definition as_strings (v : Value) : option (list string) := l ← as_array v; mapM Json.as_str l.
Definition field_opt_with {T} (read : Value → option T) (f : string → option Value) (k : string) :
    option (option T) :=
  match f k with None | Some Null => Some None | Some v => x ← read v; Some (Some x) end.
Definition as_pair (v : Value) : option (string * string) :=
  match v with Array [a; b] => x ← as_str a; y ← as_str b; Some (x, y) | _ => None end.
Definition as_pairs (v : Value) : option (list (string * string)) := l ← as_array v; mapM as_pair l.
Definition as_u32 (v : Value) : option N :=
  n ← as_u64 v; if (n <=? 4294967295)%N then Some n else None.

Definition decode_host_command (v : Value) : option Requests.HostCommand :=
  f ← default_fields 2 ["argv"; "cwd"; "env"; "timeout"; "detach"] v;
  a ← f "argv"; argv ← as_strings a; cwd ← field_str f "cwd";
  env ← match f "env" with None => Some [] | Some v => as_pairs v end;
  timeout ← field_opt_u64 f "timeout"; detach ← field_bool_or false f "detach";
  Some (Requests.mkHostCommand argv cwd env timeout detach).
Definition decode_permission (v : Value) : option Requests.PermissionParams :=
  f ← default_fields 3 ["kind"; "package"; "reason"; "update"; "lock"; "host"] v;
  kind ← field_str f "kind";
  package ← match f "package" with None => Some "" | Some v => as_str v end;
  reason ← field_str f "reason"; update ← field_opt_with as_strings f "update";
  lock ← field_bool_or false f "lock"; host ← field_opt_with decode_host_command f "host";
  Some (Requests.mkPermissionParams kind package reason update lock host).
Definition decode_flake_run (v : Value) : option string :=
  f ← struct_fields ["app"] v; field_str f "app".
Definition decode_diff (v : Value) : option Requests.DevShellDiffParams :=
  f ← default_fields 0 ["update"; "lock"] v; update ← field_opt_with as_strings f "update";
  lock ← field_bool_or false f "lock"; Some (Requests.mkDevShellDiffParams update lock).
Definition decode_file (v : Value) : option Requests.File :=
  f ← default_fields 1 ["path"; "line"; "column"] v; path ← field_str f "path";
  line ← field_opt_with as_u32 f "line"; column ← field_opt_with as_u32 f "column";
  Some (Requests.mkFile path line column).
Definition decode_open (v : Value) : option Requests.Open :=
  f ← struct_fields ["files"; "wait"] v; a ← f "files"; l ← as_array a; files ← mapM decode_file l;
  wait ← match f "wait" with Some (Bool b) => Some b | _ => None end; Some (Requests.mkOpen files wait).

Record MemberStart := mkMemberStart {
  key : string; m_name : string; agent_name : option string; detached : bool }.
Definition decode_member (v : Value) : option MemberStart :=
  f ← default_fields 3 ["key"; "name"; "agent_name"; "detached"] v;
  key ← field_str f "key"; name ← field_str f "name"; agent ← field_opt_str f "agent_name";
  detached ← field_bool_or false f "detached"; Some (mkMemberStart key name agent detached).
(** A unit variant is its name, or an object of it and null. *)
Definition AGENT_STATES : list string := ["unknown"; "idle"; "working"; "waiting-input"; "waiting-approval"].
Definition decode_agent_state (v : Value) : option string :=
  s ← match v with String_ s => Some s | Object [(s, Null)] => Some s | _ => None end;
  if bool_decide (s ∈ AGENT_STATES) then Some s else None.
Definition decode_set_state (v : Value) : option string :=
  f ← struct_fields ["state"] v; s ← f "state"; decode_agent_state s.
Definition decode_set_variables (v : Value) : option SetVariables :=
  f ← struct_fields ["variables"] v; m ← f "variables"; o ← as_object m;
  l ← mapM (λ kv, s ← as_str kv.2; Some (kv.1, s)) o; Some {| variables := list_to_map (reverse l) |}.
Definition decode_one (k : string) (v : Value) : option string :=
  f ← struct_fields [k] v; field_str f k.
Definition decode_empty (v : Value) : option unit := _ ← struct_fields [] v; Some tt.

(** ** The gate *)
Definition messaging (method : string) : bool :=
  existsb (string_eqb method)
    ["messages.send"; "messages.get"; "messages.reply"; "inbox.next"; "inbox.status"; "inbox.complete";
     "inbox.requeue"].
Definition available (method : string) : bool :=
  existsb (string_eqb method)
    ["permissions.request"; "flake.run"; "devshell.diff"; "sessions.detach"; "sessions.attach"; "editor.open";
     "sessions.set-state"; "sessions.set-variables"; "sessions.status"; "sessions.list"; "sessions.get";
     "sessions.start"; "sessions.stop"; "devshell.lock"; "raids.create"; "raids.leave"; "raids.members";
     "raids.set_role"; "host.status"; "host.list"; "host.cancel"].
Definition one_shot (method : string) : bool :=
  existsb (string_eqb method) ["permissions.request"; "flake.run"; "devshell.diff"; "editor.open"].
Definition frame_limit (method : string) : N :=
  if string_eqb method "sessions.set-variables" || string_eqb method "permissions.request" then 16384 else 4096.
Definition trailing_input : Refusal := RPolicy (-32600) "unexpected trailing input".

Section gate.
Context `{SerdeText}.

Definition parse {T} (what : string) (read : Value → option T) (v : Value) : res Refusal T :=
  match read v with Some x => Ok x | None => invalid (serde_error what v) end.

(** [match p.kind.as_str()]; any other kind is [unreachable!]. *)
Definition permission_operation (kind : string) : res Refusal Operation :=
  if string_eqb kind "package" then Ok Package
  else if string_eqb kind "devshell" then Ok DevShellRefresh
  else if string_eqb kind "docker" then Ok ODocker
  else if string_eqb kind "host-command" then Ok HostCommand
  else Panic.

(** The operation a call asks for, once its parameters are valid. *)
Definition operation_of (p : Policy) (method : string) (params : Value) (trailing : bool) :
    res Refusal (option Operation) :=
  if string_eqb method "permissions.request" then
    r ← parse "struct PermissionParams" decode_permission params;
    if negb (Requests.PermissionParams_validate r) then invalid "invalid permission request or reason"
    else o ← permission_operation (Requests.kind r); Ok (Some o)
  else if string_eqb method "flake.run" then
    app ← parse "struct FlakeRunParams" decode_flake_run params;
    if negb (Requests.FlakeRunParams_validate app) then invalid "invalid app name" else Ok (Some FlakeRun)
  else if string_eqb method "devshell.diff" then
    d ← parse "struct DevShellDiffParams" decode_diff params;
    if negb (Requests.DevShellDiffParams_validate d) then invalid "invalid flake inputs"
    else Ok (Some DevShellDiff)
  else if string_eqb method "sessions.start" then
    m ← parse "struct MemberStart" decode_member params;
    if negb (identifier (key m)) || negb (identifier (m_name m)) then invalid "invalid launch parameters"
    else Ok (Some (RunMember (m_name m)))
  else if string_eqb method "editor.open" then
    o ← parse "struct Open" decode_open params;
    _ ← map_err (RPolicy (-32602)) (Requests.Open_validate o);
    match p_editor p with
    | None => Err (RPolicy (-32009) "no editor is configured; enable editor.emacs in mkGoblins")
    | Some _ => Ok None
    end
  else if string_eqb method "sessions.set-state" then
    _ ← parse "struct SetState" decode_set_state params; Ok None
  else if string_eqb method "sessions.set-variables" then
    s ← parse "struct SetVariables" decode_set_variables params;
    _ ← map_err (RPolicy (-32602)) (SetVariables_validate s); Ok None
  else if string_eqb method "sessions.get" || string_eqb method "sessions.stop" then
    _ ← parse "struct Session" (decode_one "session") params; Ok None
  else if string_eqb method "host.status" || string_eqb method "host.cancel" then
    _ ← parse "struct Job" (decode_one "request") params; Ok None
  else if string_eqb method "raids.create" then _ ← parse "struct Raid" (decode_one "raid") params; Ok None
  else if string_eqb method "raids.set_role" then _ ← parse "struct Role" (decode_one "role") params; Ok None
  else
    _ ← parse "struct Empty" decode_empty params;
    if string_eqb method "sessions.detach" && trailing then Err trailing_input
    else if string_eqb method "devshell.lock" && negb (bool_decide (is_Some (dev_shell p)))
    then invalid "this sandbox was not started with a dev shell"
    else Ok None.

Definition check_call (p : Policy) (s : Support) (call : Call) (body_bytes : N)
    (initialized stopping trailing : bool) : res Refusal unit :=
  let method := c_method call in
  if negb (messaging method) && negb (string_eqb method "communications.list") &&
     (frame_limit method <? body_bytes)%N
  then invalid "request exceeds method frame limit"
  else if string_eqb method "initialize" then Ok tt
  else if negb initialized then Err (RPolicy (-32001) "initialize first")
  else if messaging method then Ok tt
  else if stopping then Err (RPolicy (-32009) "stale or conflicting operation")
  else if negb (available method) then Err (RPolicy (-32601) "method unavailable on sandbox endpoint")
  else if string_eqb method "sessions.attach" then
    Err (RPolicy (-32601) "goblins do not attach to other goblins' terminals; the host can, with goblins attach NAME")
  else if trailing && one_shot method then Err trailing_input
  else
    operation ← operation_of p method (c_params call) trailing;
    match operation with None => Ok tt | Some o => Policy.check p s o end.
End gate.
