(* ===== verification/SandboxSpec.v ===== *)
(** * What the gate lets pass

    A call that passes is one the connection may make now and the policy
    allows, with valid parameters; the gate never fails on a call. *)
From S2P Require Import Prelude Json Grammar Messages Framing FramingFacts Text Paths Binds Config Policy Codec.
From S2P Require Requests.
From S2P Require Import CodecFacts Sandbox.
From stdpp Require Import countable.

Section gate.
Context `{SerdeText}.

(** What the policy must grant for a call, by its method. *)
Definition dev_shell_allowed (p : Policy) (s : Support) (f : Feature) : Prop :=
  nix p = false ∧ is_Some (dev_shell p) ∧ f ∈ s.
Definition permission_allowed (p : Policy) (s : Support) (r : Requests.PermissionParams) : Prop :=
  (Requests.kind r = "package" ∧ nix p = false ∧ LivePackages ∈ s) ∨
  (Requests.kind r = "devshell" ∧ dev_shell_allowed p s DevShells) ∨
  (Requests.kind r = "docker" ∧ (∃ scope, p_scope p = Some scope ∧ sp_docker scope = true) ∧ FDocker ∈ s) ∨
  (Requests.kind r = "host-command" ∧ p_host_commands p = true ∧ HostJobs ∈ s ∧
   ∃ h, Requests.host r = Some h ∧ Requests.HostCommand_validate h = true).
(** The methods a sandbox is granted, each with what makes its parameters
    valid and what the policy must say. *)
Inductive grants (p : Policy) (s : Support) (params : Value) : string → Prop :=
| grants_permission r : decode_permission params = Some r → Requests.PermissionParams_validate r = true →
    permission_allowed p s r → grants p s params "permissions.request"
| grants_flake app : decode_flake_run params = Some app → Requests.FlakeRunParams_validate app = true →
    dev_shell_allowed p s FlakeApps → grants p s params "flake.run"
| grants_diff d : decode_diff params = Some d → Requests.DevShellDiffParams_validate d = true →
    dev_shell_allowed p s DevShells → grants p s params "devshell.diff"
| grants_start m : decode_member params = Some m → identifier (key m) = true → identifier (m_name m) = true →
    m_name m ∈ run_targets p → grants p s params "sessions.start"
| grants_editor o : decode_open params = Some o → Requests.Open_validate o = Ok tt → is_Some (p_editor p) →
    grants p s params "editor.open"
| grants_state x : decode_set_state params = Some x → grants p s params "sessions.set-state"
| grants_variables v : decode_set_variables params = Some v → SetVariables_validate v = Ok tt →
    grants p s params "sessions.set-variables"
| grants_session m x : m ∈ ["sessions.get"; "sessions.stop"] → decode_one "session" params = Some x →
    grants p s params m
| grants_job m x : m ∈ ["host.status"; "host.cancel"] → decode_one "request" params = Some x → grants p s params m
| grants_raid x : decode_one "raid" params = Some x → grants p s params "raids.create"
| grants_role x : decode_one "role" params = Some x → grants p s params "raids.set_role"
| grants_lock : params = Object [] ∨ params = Array [] → is_Some (dev_shell p) → grants p s params "devshell.lock"
| grants_plain m : m ∈ ["sessions.detach"; "sessions.status"; "sessions.list"; "raids.leave"; "raids.members"; "host.list"] →
    params = Object [] ∨ params = Array [] → grants p s params m.
(** The methods that answer once and refuse input that follows. *)
Definition ends_input (method : string) : Prop :=
  method ∈ ["permissions.request"; "flake.run"; "devshell.diff"; "editor.open"; "sessions.detach"].
Definition size_limit (method : string) : N :=
  if bool_decide (method ∈ ["sessions.set-variables"; "permissions.request"]) then 16384 else 4096.
Definition mailbox_method (method : string) : Prop :=
  method ∈ ["messages.send"; "messages.get"; "messages.reply"; "inbox.next"; "inbox.status"; "inbox.complete";
            "inbox.requeue"].
(** What a sandbox may send. *)
Definition may_pass (p : Policy) (s : Support) (c : Call) (body_bytes : N) (initialized stopping trailing : bool) : Prop :=
  c_method c = "initialize" ∧ (body_bytes <= 4096)%N ∨
  initialized = true ∧
  (mailbox_method (c_method c) ∨
   stopping = false ∧ (body_bytes <= size_limit (c_method c))%N ∧
   (trailing = true → ¬ ends_input (c_method c)) ∧ grants p s (c_params c) (c_method c)).

Lemma parse_Ok {T} what (read : Value → option T) v x : parse what read v = Ok x ↔ read v = Some x.
Proof. unfold parse, invalid. destruct (read v); naive_solver. Qed.
Lemma parse_bind {T B} what (read : Value → option T) v (f : T → res Refusal B) b :
  (x ← parse what read v; f x) = Ok b ↔ ∃ x, read v = Some x ∧ f x = Ok b.
Proof. rewrite res_bind_Ok. by setoid_rewrite parse_Ok. Qed.
Lemma check_Ok p s o : Policy.check p s o = Ok tt ↔ ∃ f, required p o = Ok f ∧ ∀ g, f = Some g → g ∈ s.
Proof.
  unfold Policy.check. rewrite res_bind_Ok. split; intros (f & Hf & Hc); exists f; (split; [done|]).
  - intros g ->. destruct (has s g) eqn:Hg; [|done]. by apply has_true.
  - destruct f as [g|]; [|done]. by rewrite (proj2 (has_true s g)) by by apply Hc.
Qed.
Lemma dev_shell_check p s o f : required p o = needs_dev_shell p f →
  Policy.check p s o = Ok tt ↔ dev_shell_allowed p s f.
Proof.
  rewrite check_Ok. intros ->. unfold needs_dev_shell, dev_shell_allowed.
  destruct (nix p); [naive_solver|]. destruct (dev_shell p) as [d|]; [|naive_solver].
  split; [naive_solver|]. intros (_ & _ & Hf). exists (Some f). split; [done|]. by intros ? [= <-].
Qed.
Lemma run_check p s name : Policy.check p s (RunMember name) = Ok tt ↔ name ∈ run_targets p.
Proof.
  rewrite check_Ok. cbn [required]. unfold run_member.
  assert (existsb (λ t, string_eqb t name) (run_targets p) = true ↔ name ∈ run_targets p) as Hin.
  { rewrite existsb_exists. split.
    - by intros (x & Hx%list_elem_of_In & ->%bool_decide_eq_true).
    - intros Hn. exists name. split; [by apply list_elem_of_In|by apply bool_decide_eq_true]. }
  case_bool_decide as Hnil; [rewrite Hnil; set_solver|]. destruct (existsb _ _); cbn [negb].
  - split; [tauto|]. intros _. by exists None.
  - split; [naive_solver|]. by intros ?%Hin.
Qed.
Lemma permission_kinds r : Requests.PermissionParams_validate r = true →
  Requests.kind r = "package" ∨ Requests.kind r = "docker" ∨ Requests.kind r = "devshell" ∨
  Requests.kind r = "host-command" ∧ ∃ h, Requests.host r = Some h ∧ Requests.HostCommand_validate h = true.
Proof.
  unfold Requests.PermissionParams_validate, string_eqb. cbn zeta.
  rewrite andb_true_iff, !orb_true_iff, !andb_true_iff, !bool_decide_eq_true. intros [Hk _]. destruct Hk as [[[Hk|Hk]|Hk]|Hk]; [naive_solver..|]. do 3 right. split; [naive_solver|].
  destruct (Requests.host r) as [h|]; [|naive_solver]. exists h. naive_solver.
Qed.
Lemma permission_check p s r o :
  Requests.PermissionParams_validate r = true → permission_operation (Requests.kind r) = Ok o →
  Policy.check p s o = Ok tt ↔ permission_allowed p s r.
Proof.
  intros Hv Ho. unfold permission_allowed.
  destruct (permission_kinds r Hv) as [Hk|[Hk|[Hk|(Hk & Hh)]]]; rewrite Hk in *; injection Ho as <-.
  - rewrite check_Ok. cbn [required]. destruct (nix p); [naive_solver|]. split; [naive_solver|].
    intros [(_ & _ & Hs)|?]; [|naive_solver]. exists (Some LivePackages). split; [done|]. by intros ? [= <-].
  - rewrite check_Ok. cbn [required]. destruct (p_scope p) as [[n d pid]|]; [|naive_solver].
    cbn [sp_docker]. destruct d; cbn [negb]; [|naive_solver]. split.
    + intros (f & [= <-] & Hs). do 2 right; left. split_and!; [done|by eexists|by apply Hs].
    + intros [?|[?|[(_ & _ & Hs)|?]]]; [naive_solver..| |naive_solver].
      exists (Some FDocker). split; [done|]. by intros ? [= <-].
  - rewrite (dev_shell_check _ _ _ DevShells) by done. naive_solver.
  - rewrite check_Ok. cbn [required]. destruct (p_host_commands p); cbn [negb]; [|naive_solver]. split.
    + intros (f & [= <-] & Hs). do 3 right. split_and!; [done|done|by apply Hs|done].
    + intros [?|[?|[?|(_ & _ & Hs & _)]]]; [naive_solver..|].
      exists (Some HostJobs). split; [done|]. by intros ? [= <-].
Qed.
Lemma empty_params v : decode_empty v = Some tt ↔ v = Object [] ∨ v = Array [].
Proof.
  unfold decode_empty, struct_fields. destruct v as [| | | | |[|x l]|[|[k x] o]]; cbn; naive_solver.
Qed.
Lemma no_params {B} v (b : B) (f : unit → res Refusal B) :
  (x ← parse "struct Empty" decode_empty v; f x) = Ok b ↔ (v = Object [] ∨ v = Array []) ∧ f tt = Ok b.
Proof. rewrite parse_bind, <-empty_params. split; [by intros ([] & ? & ?)|by intros []; exists tt]. Qed.

(** The parameters of each method, and the operation they ask for. *)
Definition asked p s method params trailing : res Refusal unit :=
  o ← operation_of p method params trailing;
  match o with None => Ok tt | Some o => Policy.check p s o end.
(** What a method asks for, its name known. *)
Ltac of_method :=
  unfold asked, operation_of, string_eqb; repeat rewrite bool_decide_eq_false_2 by done;
  repeat rewrite bool_decide_eq_true_2 by done; cbn [orb andb negb].
Ltac not_listed H := exfalso; repeat apply elem_of_cons in H as [H|H]; try done; by apply not_elem_of_nil in H.
Ltac granted_by H := inversion H; subst; try match goal with Hin : _ ∈ _ |- _ => not_listed Hin end.
Lemma asked_permission p s params t : asked p s "permissions.request" params t = Ok tt ↔ grants p s params "permissions.request".
Proof.
  of_method. rewrite res_bind_Ok. setoid_rewrite parse_bind. split.
  - intros (o & (r & Hr & Ho) & Hc). destruct (Requests.PermissionParams_validate r) eqn:Hv; [|done]. cbn [negb] in Ho.
    apply res_bind_Ok in Ho as (x & Hx & [= <-]). apply (grants_permission _ _ _ r); [done..|].
    by eapply permission_check.
  - intros Hg. granted_by Hg. destruct (permission_operation (Requests.kind r)) as [o|e|] eqn:Ho.
    + exists (Some o). split; [|by eapply permission_check]. exists r. split; [done|].
      assert (Requests.PermissionParams_validate r = true) as -> by done. cbn [negb]. by rewrite Ho.
    + exfalso. revert Ho. unfold permission_operation. by repeat case_match.
    + exfalso. revert Ho. unfold permission_operation.
      destruct (permission_kinds r) as [Hk|[Hk|[Hk|[Hk _]]]]; [done|by rewrite Hk..].
Qed.
Lemma res_assoc {A B C} (m : res Refusal A) (f : A → res Refusal B) (g : B → res Refusal C) :
  (m ≫= f) ≫= g = m ≫= λ x, f x ≫= g.
Proof. by destruct m. Qed.
Ltac of_params := of_method; rewrite res_assoc; first [rewrite no_params|rewrite parse_bind]; cbn [mbind res_bind].
Lemma asked_flake p s params t : asked p s "flake.run" params t = Ok tt ↔ grants p s params "flake.run".
Proof.
  of_params. split.
  - intros (app & Ha & Hc). destruct (Requests.FlakeRunParams_validate app) eqn:Hv; [|done]. cbn in Hc.
    apply (grants_flake _ _ _ app); [done..|]. by apply (dev_shell_check p s FlakeRun).
  - intros Hg. granted_by Hg. exists app. split; [done|].
    assert (Requests.FlakeRunParams_validate app = true) as -> by done. by apply (dev_shell_check p s FlakeRun FlakeApps).
Qed.
Lemma asked_diff p s params t : asked p s "devshell.diff" params t = Ok tt ↔ grants p s params "devshell.diff".
Proof.
  of_params. split.
  - intros (d & Hd & Hc). destruct (Requests.DevShellDiffParams_validate d) eqn:Hv; [|done]. cbn in Hc.
    apply (grants_diff _ _ _ d); [done..|]. by apply (dev_shell_check p s DevShellDiff).
  - intros Hg. granted_by Hg. exists d. split; [done|].
    assert (Requests.DevShellDiffParams_validate d = true) as -> by done. by apply (dev_shell_check p s DevShellDiff DevShells).
Qed.
Lemma asked_start p s params t : asked p s "sessions.start" params t = Ok tt ↔ grants p s params "sessions.start".
Proof.
  of_params. split.
  - intros (m & Hm & Hc). destruct (identifier (key m)) eqn:Hk; [|done].
    destruct (identifier (m_name m)) eqn:Hn; [|done]. cbn in Hc. apply (grants_start _ _ _ m); [done..|].
    exact (proj1 (run_check p s (m_name m)) Hc).
  - intros Hg. granted_by Hg. exists m. split; [done|].
    assert (identifier (key m) = true) as -> by done. assert (identifier (m_name m) = true) as -> by done.
    exact (proj2 (run_check p s (m_name m)) ltac:(done)).
Qed.
Lemma asked_editor p s params t : asked p s "editor.open" params t = Ok tt ↔ grants p s params "editor.open".
Proof.
  of_params. split.
  - intros (o & Ho & Hc). destruct (Requests.Open_validate o) as [[]| |] eqn:Hv; [|done..]. cbn in Hc.
    destruct (p_editor p) as [e|] eqn:He; [|done]. by apply (grants_editor _ _ _ o); [..|eexists].
  - intros Hg. granted_by Hg. exists o. split; [done|].
    assert (Requests.Open_validate o = Ok tt) as -> by done. cbn. by destruct (p_editor p); [|naive_solver].
Qed.
Lemma asked_variables p s params t : asked p s "sessions.set-variables" params t = Ok tt ↔ grants p s params "sessions.set-variables".
Proof.
  of_params. split.
  - intros (v & Hr & Hc). destruct (SetVariables_validate v) as [[]| |] eqn:Hv; [|done..].
    by apply (grants_variables _ _ _ v).
  - intros Hg. granted_by Hg. exists v. split; [done|]. by assert (SetVariables_validate v = Ok tt) as -> by done.
Qed.
Ltac listed := repeat first [left; reflexivity|right].
(** The methods whose parameters are all there is to them. *)
Lemma asked_read p s params t m : m ∈ ["sessions.set-state"; "sessions.get"; "sessions.stop"; "host.status"; "host.cancel";
  "raids.create"; "raids.set_role"] → asked p s m params t = Ok tt ↔ grants p s params m.
Proof.
  intros Hm. repeat apply elem_of_cons in Hm as [->|Hm]; [..|by apply not_elem_of_nil in Hm]; of_params; split;
    try (intros Hg; granted_by Hg; by eauto); intros (x & Hx & _).
  - by eapply grants_state.
  - eapply grants_session; [listed|done].
  - eapply grants_session; [listed|done].
  - eapply grants_job; [listed|done].
  - eapply grants_job; [listed|done].
  - by eapply grants_raid.
  - by eapply grants_role.
Qed.
Lemma asked_plain p s params t m : m ∈ ["sessions.status"; "sessions.list"; "raids.leave"; "raids.members"; "host.list"] →
  asked p s m params t = Ok tt ↔ grants p s params m.
Proof.
  intros Hm. repeat apply elem_of_cons in Hm as [->|Hm]; [..|by apply not_elem_of_nil in Hm]; of_params; split;
    try (intros Hg; granted_by Hg; by eauto); intros [Hp _]; (apply grants_plain; [listed|done]).
Qed.
Lemma asked_detach p s params t : asked p s "sessions.detach" params t = Ok tt ↔ t = false ∧ grants p s params "sessions.detach".
Proof.
  of_params. destruct t; cbn [mbind res_bind].
  - split; [by intros [_ ?]|by intros [? _]].
  - split.
    + intros [Hp _]. split; [done|]. apply grants_plain; [listed|done].
    + intros [_ Hg]. granted_by Hg. by split.
Qed.
Lemma asked_lock p s params t : asked p s "devshell.lock" params t = Ok tt ↔ grants p s params "devshell.lock".
Proof.
  of_params. split.
  - intros [Hp Hc]. apply grants_lock; [done|]. by case_bool_decide.
  - intros Hg. granted_by Hg. split; [done|]. by rewrite bool_decide_true.
Qed.
Lemma asked_grants p s m params t : available m = true → m ≠ "sessions.attach" →
  asked p s m params t = Ok tt ↔ (m = "sessions.detach" → t = false) ∧ grants p s params m.
Proof.
  intros (x & Hx%list_elem_of_In & ->%bool_decide_eq_true)%existsb_exists Hat.
  assert (∀ P : Prop, x ≠ "sessions.detach" → P ↔ (x = "sessions.detach" → t = false) ∧ P) as Hother by (intros P ?; tauto).
  repeat apply elem_of_cons in Hx as [->|Hx]; [..|by apply not_elem_of_nil in Hx].
  - rewrite <-Hother by done. apply asked_permission.
  - rewrite <-Hother by done. apply asked_flake.
  - rewrite <-Hother by done. apply asked_diff.
  - rewrite asked_detach. tauto.
  - done.
  - rewrite <-Hother by done. apply asked_editor.
  - rewrite <-Hother by done. apply asked_read. listed.
  - rewrite <-Hother by done. apply asked_variables.
  - rewrite <-Hother by done. apply asked_plain. listed.
  - rewrite <-Hother by done. apply asked_plain. listed.
  - rewrite <-Hother by done. apply asked_read. listed.
  - rewrite <-Hother by done. apply asked_start.
  - rewrite <-Hother by done. apply asked_read. listed.
  - rewrite <-Hother by done. apply asked_lock.
  - rewrite <-Hother by done. apply asked_read. listed.
  - rewrite <-Hother by done. apply asked_plain. listed.
  - rewrite <-Hother by done. apply asked_plain. listed.
  - rewrite <-Hother by done. apply asked_read. listed.
  - rewrite <-Hother by done. apply asked_read. listed.
  - rewrite <-Hother by done. apply asked_plain. listed.
  - rewrite <-Hother by done. apply asked_read. listed.
Qed.

(** The gate answers every call. *)
Lemma parse_answers {T} what (read : Value → option T) v : parse what read v ≠ Panic.
Proof. unfold parse, invalid. by destruct (read v). Qed.
Lemma bind_answers {A B} (m : res Refusal A) (f : A → res Refusal B) :
  m ≠ Panic → (∀ a, m = Ok a → f a ≠ Panic) → m ≫= f ≠ Panic.
Proof. destruct m; cbn; eauto. Qed.
Lemma check_answers p s o : Policy.check p s o ≠ Panic.
Proof.
  apply bind_answers.
  - destruct o; cbn [required]; unfold needs_dev_shell, run_member; repeat case_match; done.
  - intros [f|] _; [by destruct (has s f)|done].
Qed.
Lemma open_answers o : Requests.Open_validate o ≠ Panic.
Proof.
  unfold Requests.Open_validate. destruct (negb _); [done|].
  induction (Requests.files o) as [|f l IH]; [done|]. cbn [Requests.check_files]. unfold Requests.check_file.
  repeat case_match; try done.
Qed.
Lemma operation_answers p method params trailing : operation_of p method params trailing ≠ Panic.
Proof.
  unfold operation_of.
  repeat match goal with |- context [if ?b then _ else _] =>
    match b with context [string_eqb] => destruct b end end;
  (apply bind_answers; [apply parse_answers|]; intros r _); try done.
  - destruct (Requests.PermissionParams_validate r) eqn:Hv; [|done]. apply bind_answers; [|done].
    unfold permission_operation. destruct (permission_kinds r Hv) as [Hk|[Hk|[Hk|[Hk _]]]]; by rewrite Hk.
  - by destruct (negb _).
  - by destruct (negb _).
  - by destruct (_ || _).
  - apply bind_answers; [|intros _ _; by destruct (p_editor p)].
    pose proof (open_answers r). by destruct (Requests.Open_validate r).
  - apply bind_answers; [|done]. unfold SetVariables_validate. destruct (_ || _); [done|]. by destruct (omap _ _).
Qed.

Lemma check_call_answers p s c n initialized stopping trailing :
  check_call p s c n initialized stopping trailing ≠ Panic.
Proof.
  unfold check_call. repeat case_match; try done. apply bind_answers; [apply operation_answers|].
  intros [o|] _; [apply check_answers|done].
Qed.
(** Before [initialize] nothing else passes. *)
Lemma first_call_initializes p s c n stopping trailing :
  check_call p s c n false stopping trailing = Ok tt → c_method c = "initialize".
Proof.
  unfold check_call. destruct (_ && _); [done|]. cbn [negb].
  destruct (string_eqb (c_method c) "initialize") eqn:Hm; [|done]. by intros _; apply bool_decide_eq_true in Hm.
Qed.
Lemma existsb_listed m l : existsb (string_eqb m) l = true ↔ m ∈ l.
Proof.
  rewrite existsb_exists. split.
  - by intros (x & Hx%list_elem_of_In & ->%bool_decide_eq_true).
  - intros Hm. exists m. split; [by apply list_elem_of_In|by apply bool_decide_eq_true].
Qed.
Lemma frame_limit_size m : frame_limit m = size_limit m.
Proof.
  unfold frame_limit, size_limit, string_eqb. repeat case_bool_decide; subst; try done;
    exfalso; set_solver.
Qed.
Lemma one_shot_ends m t : (t = true → one_shot m = false) ∧ (m = "sessions.detach" → t = false) ↔ (t = true → ¬ ends_input m).
Proof.
  assert (one_shot m = false ↔ m ∉ ["permissions.request"; "flake.run"; "devshell.diff"; "editor.open"]) as ->
    by (unfold one_shot; by rewrite <-not_true_iff_false, existsb_listed).
  unfold ends_input. destruct t; set_solver.
Qed.
Lemma grants_available p s params m : grants p s params m → available m = true ∧ m ≠ "sessions.attach" ∧ m ≠ "initialize" ∧
  messaging m = false.
Proof.
  intros Hg. inversion Hg; subst; try (split_and!; by vm_compute);
    match goal with Hin : _ ∈ _ |- _ => repeat apply elem_of_cons in Hin as [->|Hin];
      [split_and!; by vm_compute..|by apply not_elem_of_nil in Hin] end.
Qed.
Lemma mailbox_messaging m : messaging m = true ↔ mailbox_method m.
Proof. apply existsb_listed. Qed.
Lemma mailbox_not_first m : mailbox_method m → m ≠ "initialize".
Proof. intros Hm ->. apply mailbox_messaging in Hm. by vm_compute in Hm. Qed.

(** C29. The gate lets pass what it should and nothing else. It answers every
    call, and lets a call pass exactly when it is [initialize] within its
    size, or the connection is initialized and the call either is for the
    mailbox, or comes before the stop, is within the size of its method, is
    not followed by input that would be lost, and is one of the methods of a
    sandbox with valid parameters for something the policy grants and the
    implementation supports. *)
Theorem gate_lets_pass p s c body_bytes initialized stopping trailing :
  match check_call p s c body_bytes initialized stopping trailing with
  | Ok _ => may_pass p s c body_bytes initialized stopping trailing
  | Err _ => ¬ may_pass p s c body_bytes initialized stopping trailing
  | Panic => False
  end.
Proof.
  pose proof (check_call_answers p s c body_bytes initialized stopping trailing) as Hpanic.
  assert (check_call p s c body_bytes initialized stopping trailing = Ok tt ↔
          may_pass p s c body_bytes initialized stopping trailing) as Hiff;
    [|destruct (check_call _ _ _ _ _ _ _) as [[]|e|]; [by apply Hiff|by intros ?%Hiff|done]].
  clear Hpanic. unfold check_call, may_pass. set (m := c_method c).
  rewrite frame_limit_size, <-mailbox_messaging. fold (asked p s m (c_params c) trailing).
  assert (messaging m = false → grants p s (c_params c) m → string_eqb m "communications.list" = false) as Hlist.
  { intros _ (Ha & _)%grants_available. apply bool_decide_eq_false. intros Hm. rewrite Hm in Ha. by vm_compute in Ha. }
  assert (m = "initialize" → messaging m = false ∧ string_eqb m "communications.list" = false ∧ size_limit m = 4096%N) as Hinit
    by (intros ->; split_and!; by vm_compute).
  destruct (messaging m) eqn:Hmsg; cbn [negb andb].
  - assert (m ≠ "initialize") as Hne by (by apply mailbox_not_first, mailbox_messaging).
    unfold string_eqb at 1. rewrite bool_decide_eq_false_2 by done. destruct initialized; cbn [negb]; naive_solver.
  - destruct (bool_decide_reflect (m = "initialize")) as [Hm|Hm].
    + destruct (Hinit Hm) as (_ & -> & ->). unfold string_eqb. rewrite Hm, bool_decide_eq_true_2 by done. cbn [negb andb].
      assert (¬ grants p s (c_params c) "initialize") as Hng by (by intros (_ & _ & ? & _)%grants_available).
      destruct (N.ltb_spec 4096 body_bytes); [split; [done|]|split; [left; split; [done|lia]|done]].
      intros [[_ ?]|(_ & [?|(_ & _ & _ & ?)])]; [lia|done|done].
    + assert (string_eqb m "initialize" = false) as -> by (by apply bool_decide_eq_false_2).
      assert (∀ P : Prop, m = "initialize" ∧ (body_bytes <= 4096)%N ∨ P ↔ P) as -> by (intros P; tauto).
      assert (∀ P : Prop, false = true ∨ P ↔ P) as -> by (intros P; naive_solver).
      destruct (_ && _) eqn:Hsize.
      { split; [done|]. intros (_ & _ & Hb & _ & Hg). rewrite (Hlist eq_refl Hg) in Hsize. cbn in Hsize.
        apply N.ltb_lt in Hsize. lia. }
      assert (grants p s (c_params c) m → (body_bytes <= size_limit m)%N) as Hfits.
      { intros Hg. rewrite (Hlist eq_refl Hg) in Hsize. cbn in Hsize. by apply N.ltb_ge in Hsize. }
      destruct initialized; cbn [negb]; [|naive_solver]. destruct stopping; [naive_solver|].
      destruct (available m) eqn:Hav; cbn [negb]; [|split; [done|]; intros (_ & _ & _ & _ & (? & _)%grants_available); congruence].
      destruct (string_eqb m "sessions.attach") eqn:Hat; unfold string_eqb in Hat.
      { apply bool_decide_eq_true in Hat. split; [done|]. by intros (_ & _ & _ & _ & (_ & ? & _)%grants_available). }
      apply bool_decide_eq_false in Hat. rewrite <-one_shot_ends.
      destruct (trailing && one_shot m) eqn:Htr.
      { apply andb_true_iff in Htr as [-> Hone]. split; [done|]. intros (_ & _ & _ & [Hno _] & _).
        rewrite Hno in Hone by done. done. }
      rewrite asked_grants by done. apply andb_false_iff in Htr. naive_solver.
Qed.
End gate.
