(* ===== verification/Relay.v ===== *)
(** * The sandbox relay

    [libs/supervisor/src/relay.rs]: the connections of a sandbox to its
    request socket. Each peer gets a bounded buffer either way, one call at a
    time through the gate, and an event for its opening, calls and closing.
    What a socket answers to a write or a read is an argument. *)
From S2P Require Import Prelude Json Messages Framing Policy Codec Protocol Sandbox.
From S2P Require Outbound Terminal.

Definition QUEUE : N := 2 * 1024 * 1024.
Definition CONNECTIONS : N := 8.
Definition EVENTS : N := 16.
Definition MAX_REQUEST : N := 64 * 1024.
Definition READ : N := 16384.
Definition BUFFERED : N := 32768.

(** [stream.write] and [stream.read]; [WouldBlock] and [Interrupted] alike. A
    socket that takes more than it is offered takes it all, and one that has
    more than the buffer holds fills it. *)
Inductive Written := Wrote (n : N) | WriteBlocks | WriteFails.
Inductive Got := GotBytes (l : Bytes) | ReadBlocks | ReadFails.
(** The answers to one peer in one tick: its flush, its read, and the flush of
    a refusal. *)
Record Io := mkIo { io_flush : Written; io_read : Got; io_close : Written }.

Section relay.
Context `{JsonText} `{SerdeText} `{Payloads}.
Abbreviation Event := (@Event _).

Record Waiting := mkWaiting { w_id : Value; initialize : bool }.
Record Peer := mkPeer {
  decoder : Decoder; input : Bytes; output : list Bytes; offset : N; queued : N;
  initialized : bool; waiting : option Waiting; closing : bool; dead : bool; calls : N }.
Record Relay := mkRelay { next : N; peers : gmap N Peer; closed : list N }.
Definition new_relay : Relay := mkRelay 0 ∅ [].

Definition set_decoder d (p : Peer) : Peer :=
  mkPeer d (input p) (output p) (offset p) (queued p) (initialized p) (waiting p) (closing p) (dead p) (calls p).
Definition set_input l (p : Peer) : Peer :=
  mkPeer (decoder p) l (output p) (offset p) (queued p) (initialized p) (waiting p) (closing p) (dead p) (calls p).
Definition set_output l n q (p : Peer) : Peer :=
  mkPeer (decoder p) (input p) l n q (initialized p) (waiting p) (closing p) (dead p) (calls p).
Definition set_initialized (p : Peer) : Peer :=
  mkPeer (decoder p) (input p) (output p) (offset p) (queued p) true (waiting p) (closing p) (dead p) (calls p).
Definition set_waiting w (p : Peer) : Peer :=
  mkPeer (decoder p) (input p) (output p) (offset p) (queued p) (initialized p) w (closing p) (dead p) (calls p).
Definition set_closing (p : Peer) : Peer :=
  mkPeer (decoder p) (input p) (output p) (offset p) (queued p) (initialized p) (waiting p) true (dead p) (calls p).
Definition kill (p : Peer) : Peer :=
  mkPeer (decoder p) (input p) (output p) (offset p) (queued p) (initialized p) (waiting p) (closing p) true (calls p).
Definition count_call (p : Peer) : Peer :=
  mkPeer (decoder p) (input p) (output p) (offset p) (queued p) (initialized p) (waiting p) (closing p) (dead p)
    (calls p + 1).
Definition request_decoder (now : N) : Decoder := new_decoder MAX_REQUEST (Some now).
Definition new_peer (now : N) : Peer :=
  mkPeer (request_decoder now) [] [] 0 0 false None false false 0.

(** ** A peer *)
Definition queue (v : Value) (p : Peer) : Peer :=
  match encode v with
  | Ok data =>
      if (queued p + lenN data <=? QUEUE)%N
      then set_output (output p ++ [data]) (offset p) (queued p + lenN data) p
      else kill p
  | _ => kill p
  end.
(** [n] bytes of [front[self.offset..]] were taken. *)
Definition wrote (n : N) (front : Bytes) (rest : list Bytes) (p : Peer) : Peer :=
  if (offset p + n =? lenN front)%N then set_output rest 0 (Terminal.u64_sub (queued p) n) p
  else set_output (front :: rest) (offset p + n) (Terminal.u64_sub (queued p) n) p.
Definition flush_front (a : Written) (p : Peer) : Peer :=
  match output p with
  | [] => p
  | front :: rest =>
      match a with
      | Wrote n =>
          if (n =? 0)%N then kill p else wrote (N.min n (lenN front - offset p)) front rest p
      | WriteBlocks => p
      | WriteFails => kill p
      end
  end.
Definition flush (a : Written) (p : Peer) : Peer :=
  if dead p then p else
  let p := flush_front a p in
  if closing p && Outbound.is_nil (output p) then kill p else p.

(** The bytes a read appends, or [None] when the peer is gone. *)
Definition take_input (a : Got) (p : Peer) : option Peer :=
  match a with
  | GotBytes [] | ReadFails => None
  | GotBytes l =>
      let l := firstn (N.to_nat READ) l in
      if match waiting p with Some w => negb (initialize w) | None => false end ||
         (BUFFERED <? lenN (input p) + lenN l)%N
      then None else Some (set_input (input p ++ l) p)
  | ReadBlocks => Some p
  end.
(** A complete body: the call it holds, if it passes the gate. *)
Definition take_call (pol : Policy) (s : Support) (stopping : bool) (now : N) (body : Bytes) (p : Peer) :
    res Empty_set (option Call) * Peer :=
  let p := count_call p in
  if (2 <? calls p)%N then (Ok None, kill p) else
  let p := set_decoder (request_decoder now) p in
  match call body with
  | Panic => (Panic, p)
  | Err error => (Ok None, set_closing (queue error p))
  | Ok c =>
      match c_id c with
      | None => (Ok None, p)
      | Some id =>
          match check_call pol s c (lenN body) (initialized p) stopping (negb (Outbound.is_nil (input p))) with
          | Ok _ =>
              (Ok (Some c), set_waiting (Some (mkWaiting id (string_eqb (c_method c) "initialize"))) p)
          | Err refusal =>
              let '(code, message) := fault refusal in
              (Ok None, set_closing (queue (error id code message) p))
          | Panic => (Panic, p)
          end
      end
  end.
Definition fault_text (e : FrameError) : string :=
  match e with TimedOut => "whole-frame deadline exceeded" | Malformed m => m end.
Definition read (pol : Policy) (s : Support) (stopping : bool) (now : N) (a : Got) (p : Peer) :
    res Empty_set (option Call) * Peer :=
  if closing p || dead p then (Ok None, p) else
  match take_input a p with
  | None => (Ok None, kill p)
  | Some p =>
      if bool_decide (is_Some (waiting p)) then (Ok None, p) else
      match push (input p) now (decoder p) with
      | (Ok (n, body), d) =>
          let p := set_input (drop (N.to_nat n) (input p)) (set_decoder d p) in
          match body with
          | None => (Ok None, p)
          | Some body => take_call pol s stopping now body p
          end
      | (Err e, d) => (Ok None, set_closing (queue (error Null (-32600) (fault_text e)) (set_decoder d p)))
      | (Panic, d) => (Panic, p)
      end
  end.

(** ** The relay *)
Definition Room : Type := list Event.
Definition set_peers m (r : Relay) : Relay := mkRelay (next r) m (closed r).
Definition update_peer (c : N) (f : Peer → Peer) (r : Relay) : Relay := set_peers (alter f c (peers r)) r.

(** [nonblocking]: whether the stream could be made so. *)
Definition open (now : N) (nonblocking : bool) (r : Relay) (events : Room) : res Empty_set (Relay * Room) :=
  if negb (lenN events <? EVENTS)%N then Panic else
  if (CONNECTIONS <=? N.of_nat (size (peers r)))%N || negb nonblocking then Ok (r, events) else
  let c := u64_add (next r) 1 in
  Ok (mkRelay c (<[c := new_peer now]> (peers r)) (closed r), events ++ [SandboxOpened c]).

(** A message of the daemon: a reply to the call that waits, or a
    notification. *)
Definition answers (w : Waiting) (message : Value) : bool :=
  bool_decide (value_get message "id" = Some (w_id w)) &&
  (bool_decide (is_Some (value_get message "result")) || bool_decide (is_Some (value_get message "error"))).
Definition send_peer (now : N) (message : Value) (p : Peer) : Peer :=
  let p := match waiting p with
           | Some w =>
               if answers w message then
                 set_waiting None
                   (if initialize w && bool_decide (is_Some (value_get message "result"))
                    then set_decoder (request_decoder now) (set_initialized p)
                    else set_closing p)
               else p
           | None => p
           end in
  queue message p.
Definition send (now c : N) (message : Value) (r : Relay) : Relay := update_peer c (send_peer now message) r.
Definition close (c : N) (r : Relay) : Relay := update_peer c set_closing r.

(** [while events.len() < EVENTS]. *)
Definition closed_events (r : Relay) (events : Room) : Relay * Room :=
  let n := N.to_nat (EVENTS - lenN events) in
  (mkRelay (next r) (peers r) (drop n (closed r)), events ++ (SandboxClosed <$> take n (closed r))).
(** The connections in ascending order, as a [BTreeMap] gives them. *)
Definition connections (r : Relay) : list N := merge_sort N.le (map_to_list (peers r)).*1.
Definition end_relay (r : Relay) (events : Room) : Relay * Room :=
  closed_events (mkRelay (next r) ∅ (closed r ++ connections r)) events.
Definition drained (r : Relay) : bool := bool_decide (peers r = ∅) && Outbound.is_nil (closed r).

(** One peer of [retain]: the peer if it stays, and its events. *)
Definition tick_peer (pol : Policy) (s : Support) (stopping : bool) (now : N) (c : N) (io : Io) (p : Peer) :
    res Empty_set (option Peer * Room) :=
  let p := flush (io_flush io) p in
  let '(r, p) := read pol s stopping now (io_read io) p in
  o ← r;
  let p := if closing p then flush (io_close io) p else p in
  let call := match o with Some call => [SandboxCall c ("2.0", call)] | None => [] end in
  Ok (if dead p then None else Some p, call ++ if dead p then [SandboxClosed c] else []).
Fixpoint retain (pol : Policy) (s : Support) (stopping : bool) (now : N) (io : N → Io) (cs : list N)
    (m : gmap N Peer) (events : Room) : res Empty_set (gmap N Peer * Room) :=
  match cs with
  | [] => Ok (m, events)
  | c :: cs =>
      if (EVENTS <? lenN events + 2)%N then retain pol s stopping now io cs m events else
      match m !! c with
      | None => retain pol s stopping now io cs m events
      | Some p =>
          '(o, es) ← tick_peer pol s stopping now c (io c) p;
          retain pol s stopping now io cs (match o with Some p => <[c := p]> m | None => delete c m end) (events ++ es)
      end
  end.
Definition tick (pol : Policy) (s : Support) (stopping : bool) (now : N) (io : N → Io) (r : Relay) (events : Room) :
    res Empty_set (Relay * Room) :=
  let '(r, events) := closed_events r events in
  '(m, events) ← retain pol s stopping now io (connections r) (peers r) events;
  Ok (set_peers m r, events).
End relay.
