(* ===== verification/RelaySpec.v ===== *)
(** * What the relay promises

    Every connection of a sandbox is reported once when it opens, with at most
    two calls that passed the gate, the first [initialize] and the second
    after its reply, and once when it is gone; and its memory is bounded. *)
From S2P Require Import Prelude Json Messages Framing FramingFacts FramingSpec Policy Codec CodecFacts Protocol.
From S2P Require Import Sandbox SandboxSpec Relay.
From S2P Require Outbound Terminal ChannelSpec ProtocolSpec.

Section relay.
Context `{JsonText} `{SerdeText} `{Payloads}.
Context (pol : Policy) (sup : Support).
Abbreviation Event := (@Event _).
Implicit Types (p : Peer) (r : Relay) (c : N).

(** ** Peers *)
Definition total (l : list Bytes) : N := foldr N.add 0%N (lenN <$> l).
Lemma total_replies_app l k : total (l ++ k) = (total l + total k)%N.
Proof. unfold total. induction l as [|x l IH]; [done|]. cbn. cbn in IH. lia. Qed.

(** What a peer holds. *)
Record fine p : Prop := {
  fine_input : (lenN (input p) <= BUFFERED)%N;
  fine_queued : (queued p + offset p = total (output p))%N;
  fine_bound : (queued p <= QUEUE)%N;
  fine_offset : match output p with [] => offset p = 0%N | front :: _ => (offset p < lenN front)%N end;
  fine_output : Forall (λ l, 0 < lenN l)%N (output p);
  fine_calls : (calls p <= 2)%N ∨ dead p = true;
  fine_reading : closing p = false → dead p = false → reading (decoder p) ∧ limit (decoder p) = MAX_REQUEST }.

Lemma fine_new now : fine (new_peer now).
Proof. split; try done; cbn; try (unfold BUFFERED, QUEUE, lenN; cbn; lia). Qed.
Lemma fine_kill p : fine p → fine (kill p).
Proof. intros []. split; try done. by right. Qed.
Lemma fine_closing p : fine p → fine (set_closing p).
Proof. intros []. by split. Qed.
Lemma encode_nonempty v data : encode v = Ok data → (0 < lenN data)%N.
Proof.
  unfold encode. destruct (_ <? _)%N; [done|]. intros [= <-]. unfold Framing.frame_of, lenN. rewrite length_app.
  change (length (bytes ("Content-Length: " +:+ _))) with (16 + length (bytes (show (lenN (to_bytes v))))). lia.
Qed.
Lemma fine_queue v p : fine p → fine (queue v p).
Proof.
  intros Hp. unfold queue. destruct (encode v) as [data| |] eqn:He; [|by apply fine_kill..].
  destruct (N.leb_spec (queued p + lenN data) QUEUE); [|by apply fine_kill].
  apply encode_nonempty in He. destruct Hp as [Hi Hq Hb Ho Hne Hc Hr].
  split; try done; cbn [set_output queued offset output].
  - rewrite total_replies_app. unfold total at 2. cbn. lia.
  - destruct (output p); cbn [app]; lia.
  - apply Forall_app. by repeat constructor.
Qed.
Lemma u64_sub_small a b : (b <= a)%N → (a < u64_modulus)%N → Terminal.u64_sub a b = (a - b)%N.
Proof.
  intros Hb Ha. unfold Terminal.u64_sub.
  replace (a + u64_modulus - b)%N with ((a - b) + 1 * u64_modulus)%N by lia.
  rewrite N.Div0.mod_add. apply N.mod_small. lia.
Qed.
Lemma fine_flush a p : fine p → fine (flush a p).
Proof.
  intros Hp. unfold flush. destruct (dead p) eqn:Hd; [done|].
  assert (fine (flush_front a p)) as Hf.
  { unfold flush_front. destruct (output p) as [|front rest] eqn:Ho; [done|].
    destruct a as [n| |]; [|done|by apply fine_kill].
    destruct (N.eqb_spec n 0); [by apply fine_kill|]. destruct Hp as [Hi Hq Hb Hoff Hne Hc Hr].
    rewrite Ho in *. unfold total in Hq. cbn in Hq. fold (total rest) in Hq.
    assert (QUEUE < u64_modulus)%N by by vm_compute. unfold wrote.
    apply Forall_cons in Hne as [Hfront Hne]. rewrite u64_sub_small by lia.
    destruct (N.eqb_spec (offset p + N.min n (lenN front - offset p)) (lenN front)) as [He|He];
      split; try done; cbn [set_output queued offset output]; try lia.
    - destruct rest; [done|]. by apply Forall_cons in Hne as [? _].
    - unfold total. cbn. fold (total rest). lia.
    - by constructor. }
  destruct (_ && _); [by apply fine_kill|done].
Qed.
Lemma fine_input_taken a p p' : fine p → take_input a p = Some p' → fine p'.
Proof.
  intros Hp. unfold take_input. destruct a as [l| |]; [|by intros [= <-]|done].
  destruct l as [|b l]; [done|]. destruct (_ || _) eqn:Hc; [done|]. intros [= <-].
  apply orb_false_iff in Hc as [_ Hc%N.ltb_ge]. destruct Hp. split; try done. cbn [set_input input].
  by rewrite lenN_app.
Qed.
Lemma fine_answer now message p : fine p → fine (send_peer now message p).
Proof.
  intros Hp. unfold send_peer. apply fine_queue. destruct (waiting p) as [w|]; [|done].
  destruct (answers w message); [|done].
  assert (∀ q, fine q → fine (set_waiting None q)) as Hw by (intros q []; by split).
  apply Hw. destruct (_ && _); [|by apply fine_closing]. destruct Hp. by split.
Qed.

(** A refusal ends the reading, whatever the decoder is left with. *)
Lemma fine_refused d v p : fine p → fine (set_closing (queue v (set_decoder d p))).
Proof.
  intros Hp. apply (fine_queue v) in Hp. revert Hp. unfold queue.
  destruct (encode v) as [data| |]; [|intros []; by split..].
  change (queued (set_decoder d p)) with (queued p). destruct (_ <=? _)%N; intros []; by split.
Qed.

(** A read keeps a peer fine, and never panics. *)
Lemma call_answers l : call l ≠ Panic.
Proof. unfold call, parse_body, parse_with_limit, res_ok_or. repeat case_match; try done. Qed.
Lemma fine_call stopping now body p o p' :
  fine (set_decoder (request_decoder now) p) → closing p = false → dead p = false →
  take_call pol sup stopping now body p = (o, p') → (calls p <= 2)%N → fine p' ∧ o ≠ Panic.
Proof.
  intros Hp Hcl Hd Ht Hn.
  unfold take_call in Ht. destruct (N.ltb_spec 2 (calls (count_call p))) as [Hc|Hc].
  { injection Ht as <- <-. split; [|done]. destruct Hp. split; try done. by right. }
  set (q := set_decoder (request_decoder now) (count_call p)) in Ht.
  assert (fine q) as Hq by (destruct Hp; split; try done; by left).
  destruct (call body) as [c|e|] eqn:Hcall; [|injection Ht as <- <-; split; [by apply fine_closing, fine_queue|done]|by apply call_answers in Hcall].
  destruct (c_id c) as [id|]; [|by injection Ht as <- <-].
  destruct (check_call _ _ _ _ _ _ _) as [u|e|] eqn:Hck; [| |by apply check_call_answers in Hck].
  - injection Ht as <- <-. split; [|done]. destruct Hq. by split.
  - destruct (fault e) as [code m]. injection Ht as <- <-. split; [by apply fine_closing, fine_queue|done].
Qed.
Lemma fine_read stopping now a p o p' : fine p → read pol sup stopping now a p = (o, p') → fine p' ∧ o ≠ Panic.
Proof.
  intros Hp. unfold read. destruct (closing p || dead p) eqn:Hcd; [by intros [= <- <-]|].
  apply orb_false_iff in Hcd as [Hcl Hd].
  destruct (take_input a p) as [q|] eqn:Hq; [|intros [= <- <-]; split; [by apply fine_kill|done]].
  assert (closing q = false ∧ dead q = false ∧ decoder q = decoder p ∧ calls q = calls p) as (Hcl' & Hd' & Hde & Hca).
  { unfold take_input in Hq. destruct a as [[|b l]| |]; try done; [|by injection Hq as <-].
    destruct (_ || _); [done|]. by injection Hq as <-. }
  apply fine_input_taken in Hq as Hfq; [|done].
  case_bool_decide; [by intros [= <- <-]|].
  pose proof (push_cases (input q) now (decoder q) (proj1 (fine_reading _ Hfq Hcl' Hd'))) as (Hlim & _ & Hc).
  destruct (push (input q) now (decoder q)) as [[[n body]|e|] d]; cbn [fst snd] in *; [| |done].
  2: { intros [= <- <-]. split; [|done].
       by apply fine_refused. }
  destruct body as [body|].
  - destruct Hc as (l1 & l2 & hd & Hl & -> & _).
    intros Ht. apply (fine_call stopping now body) in Ht; [done|..].
    + destruct Hfq. split; try done. cbn [set_input set_decoder input]. rewrite ChannelSpec.lenN_drop. lia.
    + done.
    + done.
    + cbn. destruct (fine_calls _ Hp) as [?|?]; [lia|congruence].
  - destruct Hc as (Hr & _ & ->). intros [= <- <-]. split; [|done]. destruct Hfq as [Hi Hq' Hb Ho Hne Hc' Hr'].
    split; try done; cbn [set_input set_decoder input decoder].
    + rewrite ChannelSpec.lenN_drop. lia.
    + intros _ _. split; [done|]. rewrite Hlim. by apply Hr'.
Qed.

(** ** Calls of a connection *)
Definition passes (c : Call) (initialized : bool) : Prop :=
  is_Some (c_id c) ∧ ∃ n stopping trailing, check_call pol sup c n initialized stopping trailing = Ok tt.
(** At most the call that initializes and one more. *)
Definition legal (cs : list Call) : Prop :=
  match cs with
  | [] => True
  | [i] => passes i false
  | [i; x] => passes i false ∧ passes x true
  | _ => False
  end.
Record serves p (cs : list Call) : Prop := {
  serves_legal : legal cs;
  serves_count : (N.of_nat (length cs) <= calls p)%N;
  serves_none : cs = [] → waiting p = None ∧ initialized p = false;
  serves_one : length cs = 1 → waiting p = None → initialized p = true ∨ closing p = true }.
Lemma serves_same p q cs : serves p cs → calls q = calls p → waiting q = waiting p →
  initialized q = initialized p → (closing p = true → closing q = true) → serves q cs.
Proof.
  intros [Hl Hc Hn Ho] Hca Hw Hi Hcl. split; rewrite ?Hca, ?Hw, ?Hi; try done.
  intros H1' H2'. destruct (Ho H1' H2'); auto.
Qed.
Lemma queue_same v p : calls (queue v p) = calls p ∧ waiting (queue v p) = waiting p ∧
  initialized (queue v p) = initialized p ∧ closing (queue v p) = closing p ∧ input (queue v p) = input p.
Proof. unfold queue. destruct (encode v); [|done..]. by destruct (_ <=? _)%N. Qed.
Lemma flush_same a p : calls (flush a p) = calls p ∧ waiting (flush a p) = waiting p ∧
  initialized (flush a p) = initialized p ∧ closing (flush a p) = closing p.
Proof.
  unfold flush. destruct (dead p); [done|]. assert (∀ q, calls q = calls p ∧ waiting q = waiting p ∧
    initialized q = initialized p ∧ closing q = closing p → let k := if closing q && Outbound.is_nil (output q) then kill q else q in
    calls k = calls p ∧ waiting k = waiting p ∧ initialized k = initialized p ∧ closing k = closing p) as Hk
    by (intros q Hq; destruct (_ && _); done).
  apply Hk. unfold flush_front. destruct (output p); [done|]. destruct a as [n| |]; [|done..].
  destruct (_ =? _)%N; [done|]. unfold wrote. by destruct (_ =? _)%N.
Qed.
Lemma serves_flush a p cs : serves p cs → serves (flush a p) cs.
Proof. intros Hs. destruct (flush_same a p) as (H1' & H2' & H3' & H4'). by apply (serves_same p); rewrite ?H4'. Qed.
Lemma serves_queue v p cs : serves p cs → serves (queue v p) cs.
Proof. intros Hs. destruct (queue_same v p) as (H1' & H2' & H3' & H4' & _). by apply (serves_same p); rewrite ?H4'. Qed.
Lemma serves_closing p cs : serves p cs → serves (set_closing p) cs.
Proof. intros Hs. by apply (serves_same p). Qed.
Lemma serves_answer now message p cs : serves p cs → serves (send_peer now message p) cs.
Proof.
  intros Hs. unfold send_peer. apply serves_queue. destruct (waiting p) as [w|] eqn:Hw; [|done].
  destruct (answers w message); [|done]. destruct Hs as [Hl Hc Hn Ho].
  assert (cs ≠ []) as Hne by (intros ->; destruct (Hn eq_refl); congruence).
  destruct (_ && _); (split; [done..| |]; cbn; naive_solver).
Qed.

Lemma serves_read stopping now a p o p' cs : fine p → serves p cs →
  read pol sup stopping now a p = (Ok o, p') → serves p' (cs ++ option_list o).
Proof.
  intros Hp Hs. unfold read. destruct (closing p || dead p) eqn:Hcd; [intros [= <- <-]; by rewrite app_nil_r|].
  apply orb_false_iff in Hcd as [Hcl Hd].
  destruct (take_input a p) as [q|] eqn:Hq;
    [|intros [= <- <-]; rewrite app_nil_r; by apply (serves_same p)].
  assert (serves q cs ∧ closing q = false ∧ calls q = calls p) as (Hsq & Hclq & Hcq).
  { unfold take_input in Hq. destruct a as [[|b l]| |]; try done; [|by injection Hq as <-].
    destruct (_ || _); [done|]. injection Hq as <-. split; [by apply (serves_same p)|done]. }
  destruct (waiting q) as [w|] eqn:Hw; [rewrite bool_decide_true by done; intros [= <- <-]; by rewrite app_nil_r|].
  rewrite bool_decide_false by (by intros []).
  destruct (push _ _ _) as [[[n body]|e|] d]; [|intros [= <- <-]; rewrite app_nil_r;
    by apply serves_closing, serves_queue, (serves_same q)|done].
  destruct body as [body|]; [|intros [= <- <-]; rewrite app_nil_r; by apply (serves_same q)].
  set (k := set_input _ _). assert (serves k cs) as Hsk by by apply (serves_same q).
  unfold take_call. destruct (N.ltb_spec 2 (calls (count_call k))) as [Hc|Hc].
  { intros [= <- <-]. rewrite app_nil_r. destruct Hsk as [Hl Hn Hz Ho]. split; try done. cbn [kill count_call calls]. lia. }
  set (x := set_decoder (request_decoder now) (count_call k)).
  assert (serves x cs) as Hsx by (destruct Hsk as [Hl Hn Hz Ho]; split; try done; unfold x; cbn [set_decoder count_call calls]; lia).
  destruct (call body) as [c|e|] eqn:Hcall; [|intros [= <- <-]; rewrite app_nil_r; by apply serves_closing, serves_queue|done].
  destruct (c_id c) as [id|] eqn:Hid; [|intros [= <- <-]; by rewrite app_nil_r].
  destruct (check_call _ _ _ _ _ _ _) as [[]|e|] eqn:Hck; [| |done].
  2: { destruct (fault e). intros [= <- <-]. rewrite app_nil_r. by apply serves_closing, serves_queue. }
  intros [= <- <-]. destruct Hsk as [Hl Hn Hz Ho].
  assert (passes c (initialized x)) as Hpass by (split; [by rewrite Hid|by eexists _, _, _]).
  change (calls (count_call k)) with (calls q + 1)%N in Hc. change (calls k) with (calls q) in Hn.
  destruct cs as [|i [|]]; cbn [length] in Hn; [| |lia].
  - destruct (Hz eq_refl) as [_ Hi]. change (initialized x) with (initialized k) in Hpass. rewrite Hi in Hpass.
    split; try done. simpl length. unfold x. cbn [set_waiting set_decoder count_call calls]. change (calls k) with (calls q). lia.
  - destruct (Ho eq_refl Hw) as [Hi|Hi]; [|change (closing k) with (closing q) in Hi; congruence].
    change (initialized x) with (initialized k) in Hpass. rewrite Hi in Hpass.
    split; try done. simpl length. unfold x. cbn [set_waiting set_decoder count_call calls]. change (calls k) with (calls q). lia.
Qed.

(** ** What is told of a connection *)
Inductive Step := SOpen | SCall (call : Call) | SClose.
Definition about c (e : Event) : option Step :=
  match e with
  | SandboxOpened n => if (n =? c)%N then Some SOpen else None
  | SandboxCall n call => if (n =? c)%N then Some (SCall call.2) else None
  | SandboxClosed n => if (n =? c)%N then Some SClose else None
  | _ => None
  end.
Definition talk c (l : list Event) : list Step := omap (about c) l.
Lemma talk_app c l k : talk c (l ++ k) = talk c l ++ talk c k.
Proof. apply omap_app. Qed.
Definition heard (l : list Step) (last : list Step) (cs : list Call) : Prop :=
  l = SOpen :: (SCall <$> cs) ++ last.
Definition tells r c (l : list Step) : Prop :=
  match peers r !! c with
  | Some p => ∃ cs, heard l [] cs ∧ serves p cs
  | None =>
      if bool_decide (c ∈ closed r) then ∃ cs, heard l [] cs ∧ legal cs
      else if (0 <? c)%N && (c <=? next r)%N then ∃ cs, heard l [SClose] cs ∧ legal cs
      else l = []
  end.
Record holds r (log : list Event) : Prop := {
  holds_peers : map_Forall (λ c p, fine p ∧ (0 < c <= next r)%N) (peers r);
  holds_few : (N.of_nat (size (peers r)) <= CONNECTIONS)%N;
  holds_closed : NoDup (closed r) ∧ Forall (λ c, peers r !! c = None ∧ (0 < c <= next r)%N) (closed r);
  holds_tells c : tells r c (talk c log) }.

Lemma holds_start : holds new_relay [].
Proof.
  split; try done.
  - by split; constructor.
  - intros c. unfold tells. cbn. destruct ((0 <? c)%N && (c <=? 0)%N) eqn:Hc; [|done].
    apply andb_true_iff in Hc as [?%N.ltb_lt ?%N.leb_le]. lia.
Qed.
(** A peer changes: nothing is told. *)
Lemma holds_update r c f log : holds r log → (∀ p, fine p → fine (f p)) →
  (∀ p cs, serves p cs → serves (f p) cs) → holds (update_peer c f r) log.
Proof.
  intros [Hp Hf [Hnd Hcl] Ht] Hfine Hserves. split; cbn [update_peer set_peers peers closed next].
  - intros n p. rewrite lookup_alter_Some. intros [(-> & q & Hq & ->)|[_ Hn]]; [|by apply Hp].
    destruct (Hp _ _ Hq). auto.
  - assert (size (alter f c (peers r)) = size (peers r)) as ->; [|done].
    rewrite <-!size_dom. by rewrite dom_alter_L.
  - split; [done|]. eapply Forall_impl; [exact Hcl|]. cbn. intros n [Hn ?]. split; [|done].
    apply lookup_alter_None. done.
  - intros n. specialize (Ht n). unfold tells in *. cbn [update_peer set_peers peers closed next].
    destruct (decide (c = n)) as [->|Hne].
    + rewrite lookup_alter_eq. destruct (peers r !! n) as [p|]; [|done]. cbn.
      destruct Ht as (cs & Hh & Hs). exists cs. auto.
    + by rewrite lookup_alter_ne.
Qed.

Lemma talk_opened c n : talk c [SandboxOpened n] = if (n =? c)%N then [SOpen] else [].
Proof. unfold talk. simpl. by destruct (n =? c)%N. Qed.
Lemma talk_closed_in c l : NoDup l → talk c (SandboxClosed <$> l) = if bool_decide (c ∈ l) then [SClose] else [].
Proof.
  induction 1 as [|n l Hn _ IH]; [done|]. cbn [fmap list_fmap]. unfold talk in *. cbn [omap list_omap about].
  destruct (N.eqb_spec n c) as [->|Hne]; rewrite IH.
  - rewrite (bool_decide_eq_false_2 (c ∈ l)) by done. rewrite bool_decide_eq_true_2; [done|]. by constructor.
  - apply (f_equal (λ b : bool, if b then _ else _)). apply bool_decide_ext. rewrite elem_of_cons. naive_solver.
Qed.
(** Closures are told in their order. *)
Lemma holds_closed_events past r events : holds r (past ++ events) →
  holds (closed_events r events).1 (past ++ (closed_events r events).2).
Proof.
  intros [Hp Hf [Hnd Hcl] Ht]. unfold closed_events. set (n := N.to_nat _). cbn [fst snd].
  rewrite <-(take_drop n (closed r)), NoDup_app in Hnd. destruct Hnd as (Htake & Hdis & Hdrop).
  rewrite (assoc (++)). split; cbn [peers next closed]; [done|done| |].
  - split; [done|by apply Forall_drop].
  - intros c. specialize (Ht c). rewrite talk_app, talk_closed_in by done.
    unfold tells in *. cbn [peers closed next].
    assert (c ∈ closed r ↔ c ∈ take n (closed r) ∨ c ∈ drop n (closed r)) as Hin
      by (rewrite <-(take_drop n (closed r)) at 1; apply elem_of_app).
    destruct (peers r !! c) as [p|] eqn:Hpc.
    + rewrite bool_decide_eq_false_2; [by rewrite app_nil_r|]. intros Hc. rewrite Forall_forall in Hcl.
      destruct (Hcl c) as [Hx _]; [by apply Hin; left|congruence].
    + destruct (decide (c ∈ take n (closed r))) as [Hc|Hc].
      * rewrite (bool_decide_eq_true_2 (c ∈ closed r)) in Ht by (apply Hin; by left).
        rewrite (bool_decide_eq_true_2 (c ∈ take n _)), (bool_decide_eq_false_2 (c ∈ drop n _)) by auto.
        rewrite Forall_forall in Hcl. destruct (Hcl c) as (_ & Hlo & Hhi); [apply Hin; by left|].
        rewrite (proj2 (N.ltb_lt _ _) Hlo), (proj2 (N.leb_le _ _) Hhi). cbn [andb].
        destruct Ht as (cs & -> & Hl). exists cs. split; [|done]. unfold heard. by rewrite app_nil_r.
      * rewrite (bool_decide_eq_false_2 (c ∈ take n _)), app_nil_r by done.
        by rewrite (bool_decide_ext (c ∈ drop n (closed r)) (c ∈ closed r)) by (rewrite Hin; naive_solver).
Qed.
Lemma holds_open past now nonblocking r events r' events' : holds r (past ++ events) →
  (next r + 1 < u64_modulus)%N → open now nonblocking r events = Ok (r', events') → holds r' (past ++ events').
Proof.
  intros Hh Hn. unfold open. destruct (negb _); [done|]. destruct (_ || negb nonblocking) eqn:Hfull; [by intros [= <- <-]|].
  apply orb_false_iff in Hfull as [Hfull%N.leb_gt _]. intros [= <- <-].
  destruct Hh as [Hp Hf [Hnd Hcl] Ht]. unfold u64_add. rewrite N.mod_small by done. rewrite (assoc (++)).
  assert (peers r !! (next r + 1)%N = None) as Hnew.
  { destruct (peers r !! (next r + 1)%N) as [p|] eqn:Hx; [|done]. apply Hp in Hx as [_ Hx]. lia. }
  assert ((next r + 1)%N ∉ closed r) as Hnc.
  { intros Hx. rewrite Forall_forall in Hcl. apply Hcl in Hx as [_ Hx]. lia. }
  split; cbn [peers next closed].
  - apply map_Forall_insert_2; [split; [apply fine_new|lia]|]. eapply map_Forall_impl; [exact Hp|].
    intros c p [? ?]. split; [done|lia].
  - rewrite map_size_insert_None by done. lia.
  - split; [done|]. eapply Forall_impl; [exact Hcl|]. cbn. intros c [Hc ?]. split; [|lia].
    rewrite lookup_insert_ne; [done|lia].
  - intros c. specialize (Ht c). unfold tells in *. cbn [peers closed next]. rewrite talk_app, talk_opened.
    destruct (N.eqb_spec (next r + 1) c) as [<-|Hne].
    + rewrite lookup_insert_eq. rewrite Hnew, (bool_decide_eq_false_2 _) in Ht by done.
      rewrite (proj2 (N.leb_gt (next r + 1) (next r))), andb_false_r in Ht by lia. rewrite Ht.
      exists []. split; [done|]. split; try done.
    + rewrite lookup_insert_ne, app_nil_r by done. destruct (peers r !! c); [done|].
      destruct (bool_decide _); [done|].
      replace (c <=? next r + 1)%N with (c <=? next r)%N; [done|].
      destruct (N.leb_spec c (next r)), (N.leb_spec c (next r + 1)); try done; lia.
Qed.
Lemma elem_of_connections r c : c ∈ connections r ↔ is_Some (peers r !! c).
Proof.
  unfold connections. rewrite merge_sort_Permutation, list_elem_of_fmap. split.
  - intros ([n p] & -> & Hx%elem_of_map_to_list). by eexists.
  - intros [p Hp]. exists (c, p). split; [done|]. by apply elem_of_map_to_list.
Qed.
Lemma NoDup_connections r : NoDup (connections r).
Proof. unfold connections. rewrite merge_sort_Permutation. apply NoDup_fst_map_to_list. Qed.
Lemma holds_end past r events : holds r (past ++ events) →
  holds (end_relay r events).1 (past ++ (end_relay r events).2).
Proof.
  intros [Hp Hf [Hnd Hcl] Ht]. unfold end_relay. apply holds_closed_events. rewrite Forall_forall in Hcl.
  split; cbn [peers next closed]; [apply map_Forall_empty|rewrite map_size_empty; unfold CONNECTIONS; lia| |].
  - split.
    + apply NoDup_app. split_and!; [done| |apply NoDup_connections].
      intros c Hc [p Hx]%elem_of_connections. destruct (Hcl c Hc) as [? _]. congruence.
    + apply Forall_forall. intros c. rewrite elem_of_app. intros [Hc|[p Hx]%elem_of_connections].
      * split; [done|by apply Hcl].
      * split; [done|]. by apply Hp in Hx as [_ ?].
  - intros c. specialize (Ht c). unfold tells in *. cbn [peers closed next]. rewrite lookup_empty.
    destruct (peers r !! c) as [p|] eqn:Hpc.
    + rewrite bool_decide_eq_true_2 by (apply elem_of_app; right; by apply elem_of_connections).
      destruct Ht as (cs & Hh & [Hl _ _ _]). by exists cs.
    + rewrite (bool_decide_ext (c ∈ closed r ++ connections r) (c ∈ closed r)); [done|].
      rewrite elem_of_app, elem_of_connections, Hpc. split; [intros [?|[? ?]]; done|by left].
Qed.

(** One peer of a tick. *)
Lemma tick_peer_runs stopping now c io p : fine p →
  ∃ o p', tick_peer pol sup stopping now c io p =
      Ok (if dead p' then None else Some p',
          match o with Some call => [SandboxCall c ("2.0", call)] | None => [] end ++
          if dead p' then [SandboxClosed c] else []) ∧
    fine p' ∧ ∀ cs, serves p cs → serves p' (cs ++ option_list o).
Proof.
  intros Hp. unfold tick_peer. apply (fine_flush (io_flush io)) in Hp as Hp1.
  destruct (read _ _ _ _ _ _) as [r p2] eqn:Hr. destruct (fine_read _ _ _ _ _ _ Hp1 Hr) as [Hp2 Hn].
  destruct r as [o|[]|]; [|done]. cbn [mbind res_bind].
  set (p3 := if closing p2 then flush (io_close io) p2 else p2).
  exists o, p3. split; [done|]. assert (fine p3) as Hp3 by (unfold p3; destruct (closing p2); [by apply fine_flush|done]).
  split; [done|]. intros cs Hs. assert (serves p2 (cs ++ option_list o)) as Hs2
    by (eapply serves_read; [exact Hp1| |exact Hr]; by apply serves_flush).
  unfold p3. destruct (closing p2); [by apply serves_flush|done].
Qed.
Lemma talk_ticked c n o (gone : bool) :
  talk n (match o with Some call => [SandboxCall c ("2.0", call)] | None => [] end ++
          if gone then [SandboxClosed c] else []) =
  if (c =? n)%N then (SCall <$> option_list o) ++ (if gone then [SClose] else []) else [].
Proof. unfold talk. destruct o as [call|], gone, (N.eqb_spec c n); simpl; rewrite ?(proj2 (N.eqb_eq _ _)), ?(proj2 (N.eqb_neq _ _)) by done; done. Qed.
Lemma holds_ticked r log c p p' o : holds r log → peers r !! c = Some p → fine p' →
  (∀ cs, serves p cs → serves p' (cs ++ option_list o)) →
  holds (set_peers (match (if dead p' then None else Some p') with Some q => <[c := q]> (peers r) | None => delete c (peers r) end) r)
    (log ++ match o with Some call => [SandboxCall c ("2.0", call)] | None => [] end ++
            if dead p' then [SandboxClosed c] else []).
Proof.
  intros [Hp Hf [Hnd Hcl] Ht] Hc Hfine Hserves. pose proof (Hp _ _ Hc) as [_ Hrange].
  assert (c ∉ closed r) as Hnc.
  { intros Hx. rewrite Forall_forall in Hcl. apply Hcl in Hx as [Hx _]. congruence. }
  assert (∀ n, n ≠ c → tells r n (talk n (log ++ match o with Some call => [SandboxCall c ("2.0", call)] | None => [] end ++
            if dead p' then [SandboxClosed c] else []))) as Hother.
  { intros n Hne. specialize (Ht n). rewrite talk_app, talk_ticked.
    by rewrite (proj2 (N.eqb_neq c n)), app_nil_r by done. }
  pose proof (Ht c) as Htc. unfold tells in Htc. rewrite Hc in Htc. destruct Htc as (cs & Hh & Hs).
  apply Hserves in Hs as Hs'. unfold heard in Hh. rewrite app_nil_r in Hh.
  split; cbn [set_peers peers next closed].
  - destruct (dead p'); [by apply map_Forall_delete|]. by apply map_Forall_insert_2.
  - destruct (dead p').
    + rewrite map_size_delete, Hc. lia.
    + rewrite map_size_insert, Hc. done.
  - split; [done|]. eapply Forall_impl; [exact Hcl|]. cbn. intros n [Hn ?]. split; [|done].
    destruct (dead p'); [by apply lookup_delete_None; right|]. rewrite lookup_insert_ne; [done|congruence].
  - intros n. destruct (decide (n = c)) as [->|Hne].
    + rewrite talk_app, talk_ticked, N.eqb_refl, Hh. unfold tells. cbn [set_peers peers next closed].
      destruct (dead p').
      * rewrite lookup_delete_eq, bool_decide_eq_false_2 by done.
        rewrite (proj2 (N.ltb_lt _ _)), (proj2 (N.leb_le _ _)) by apply Hrange. cbn [andb].
        exists (cs ++ option_list o). unfold heard. rewrite fmap_app. split; [by rewrite <-!(assoc (++))|].
        by destruct Hs'.
      * rewrite lookup_insert_eq. exists (cs ++ option_list o). split; [|done]. unfold heard.
        by rewrite fmap_app, !app_nil_r.
    + specialize (Hother n Hne). unfold tells in *. cbn [set_peers peers next closed].
      destruct (dead p'); [by rewrite lookup_delete_ne|by rewrite lookup_insert_ne].
Qed.
Lemma holds_retain stopping now io past cs r events : holds r (past ++ events) → (lenN events <= EVENTS)%N →
  ∃ m' events', retain pol sup stopping now io cs (peers r) events = Ok (m', events') ∧
    holds (set_peers m' r) (past ++ events') ∧ (lenN events' <= EVENTS)%N.
Proof.
  revert r events. induction cs as [|c cs IH]; intros r events Hh Hn; cbn [retain].
  { exists (peers r), events. split; [done|]. split; [by destruct r|done]. }
  destruct (N.ltb_spec EVENTS (lenN events + 2)) as [|Hroom]; [by apply IH|].
  destruct (peers r !! c) as [p|] eqn:Hp; [|by apply IH].
  destruct (holds_peers _ _ Hh c p Hp) as [Hfine _].
  destruct (tick_peer_runs stopping now c (io c) p Hfine) as (o & p' & Hrun & Hf' & Hs'). rewrite Hrun.
  cbn [mbind res_bind]. pose proof (holds_ticked _ _ _ _ _ o Hh Hp Hf' Hs') as Hh'. rewrite <-(assoc (++)) in Hh'.
  specialize (IH _ _ Hh'). cbn [set_peers peers] in IH. destruct IH as (m' & events' & Hr & Hx & Hy).
  - rewrite !lenN_app. unfold EVENTS, lenN in *. destruct o, (dead p'); cbn; lia.
  - exists m', events'. split; [done|]. split; [|done]. exact Hx.
Qed.

(** ** Every run

    The engine accepts a connection only while there is room for its event,
    passes on what the daemon sends, and hands its events over; other parts of
    it add events of their own. *)
Inductive RelayOp :=
| OpOpen (now : N) (nonblocking : bool)
| OpSend (now c : N) (message : Value)
| OpClose (c : N)
| OpEnd
| OpTick (stopping : bool) (now : N) (io : N → Io)
| OpTake (n : nat)
| OpOther (e : Event).
Record Run := mkRun { relay_ : Relay; past : list Event; events : list Event }.
Definition log (x : Run) : list Event := past x ++ events x.
Definition from_relay (e : Event) : bool :=
  match e with SandboxOpened _ | SandboxCall _ _ | SandboxClosed _ => true | _ => false end.
Definition advance (x : Run) (op : RelayOp) : res Empty_set Run :=
  let same r := Ok (mkRun r (past x) (events x)) in
  let room := (lenN (events x) <? EVENTS)%N in
  match op with
  | OpOpen now nonblocking =>
      if room then '(r, l) ← open now nonblocking (relay_ x) (events x); Ok (mkRun r (past x) l) else Ok x
  | OpSend now c message => same (send now c message (relay_ x))
  | OpClose c => same (close c (relay_ x))
  | OpEnd => let '(r, l) := end_relay (relay_ x) (events x) in Ok (mkRun r (past x) l)
  | OpTick stopping now io =>
      '(r, l) ← tick pol sup stopping now io (relay_ x) (events x); Ok (mkRun r (past x) l)
  | OpTake n => Ok (mkRun (relay_ x) (past x ++ firstn n (events x)) (skipn n (events x)))
  | OpOther e => Ok (if room && negb (from_relay e) then mkRun (relay_ x) (past x) (events x ++ [e]) else x)
  end.
Fixpoint advances (x : Run) (ops : list RelayOp) : res Empty_set Run :=
  match ops with [] => Ok x | op :: ops => x ← advance x op; advances x ops end.
Definition served (ops : list RelayOp) : res Empty_set Run := advances (mkRun new_relay [] []) ops.

Record sane (opened : N) (x : Run) : Prop := {
  sane_holds : holds (relay_ x) (log x);
  sane_room : (lenN (events x) <= EVENTS)%N;
  sane_next : (next (relay_ x) <= opened)%N }.
Lemma closed_events_room r l : (lenN l <= EVENTS)%N → (lenN (closed_events r l).2 <= EVENTS)%N.
Proof.
  intros Hl. unfold closed_events. cbn [snd]. rewrite lenN_app. unfold lenN in *. rewrite length_fmap, length_take. lia.
Qed.
Lemma sane_advance opened x op : sane opened x → (opened + 1 < u64_modulus)%N →
  ∃ x', advance x op = Ok x' ∧ sane (opened + 1) x'.
Proof.
  intros [Hh Hr Hn] Hbound. destruct x as [r old l]. unfold log in Hh. cbn [relay_ past events] in *.
  destruct op as [now nb|now c message|c| |stopping now io|n|e]; cbn [advance relay_ past events].
  - destruct (N.ltb_spec (lenN l) EVENTS) as [Hroom|]; [|eexists; split; [done|split; [done|done|cbn; lia]]].
    destruct (open now nb r l) as [[r' l']|[]|] eqn:Ho.
    + pose proof (holds_open _ _ _ _ _ _ _ Hh ltac:(lia) Ho) as Hh'. eexists. split; [done|].
      unfold open in Ho. destruct (negb _); [done|].
      destruct (_ || negb nb); injection Ho as <- <-; split; unfold log; cbn [relay_ past events Relay.next]; try done; try lia.
      * rewrite lenN_app. unfold lenN at 2. cbn. lia.
      * unfold u64_add. rewrite N.mod_small; lia.
    + unfold open in Ho. rewrite (proj2 (N.ltb_lt _ _)) in Ho by done. cbn [negb] in Ho. by destruct (_ || _).
  - eexists. split; [done|]. split; [|done|cbn; lia].
    apply holds_update; [done|by apply fine_answer|by apply serves_answer].
  - eexists. split; [done|]. split; [|done|cbn; lia].
    apply holds_update; [done|by apply fine_closing|by apply serves_closing].
  - pose proof (holds_end old r l Hh) as He.
    pose proof (closed_events_room (mkRelay (next r) ∅ (closed r ++ connections r)) l Hr) as Hx.
    unfold end_relay in *. destruct (closed_events _ l) as [r' l'] eqn:Hce. eexists. split; [done|].
    split; [done|done|]. unfold closed_events in Hce. injection Hce as <- _. cbn. lia.
  - unfold tick. pose proof (holds_closed_events old r l Hh) as He. pose proof (closed_events_room r l Hr) as Hx.
    assert (next (closed_events r l).1 = next r) as Hnext by done.
    destruct (closed_events r l) as [r' l']. cbn [fst snd] in *.
    destruct (holds_retain stopping now io old (connections r') r' l' He Hx) as (m & l2 & Ht & Hm & Hy).
    rewrite Ht. cbn [mbind res_bind]. eexists. split; [done|]. split; [done|done|cbn; lia].
  - eexists. split; [done|]. split; cbn [relay_ events]; [|unfold lenN in *; rewrite length_skipn; lia|lia].
    unfold log. cbn [past events]. by rewrite <-(assoc (++)), firstn_skipn.
  - destruct (N.ltb_spec (lenN l) EVENTS) as [Hroom|]; cbn [andb];
      [|eexists; split; [done|split; [done|done|cbn; lia]]].
    destruct (from_relay e) eqn:Hf; cbn [negb]; eexists; (split; [done|]).
    + split; [done|done|cbn; lia].
    + split; cbn [relay_ events]; [|rewrite lenN_app; unfold lenN at 2; cbn; lia|lia].
      unfold log. cbn [past events]. rewrite (assoc (++)). destruct Hh as [Hp Hfew Hcl Ht]. split; try done.
      intros c. specialize (Ht c). rewrite talk_app. assert (talk c [e] = []) as -> by (destruct e; done).
      by rewrite app_nil_r.
Qed.
Lemma sane_advances opened x ops : sane opened x → (opened + lenN ops < u64_modulus)%N →
  ∃ x', advances x ops = Ok x' ∧ sane (opened + lenN ops) x'.
Proof.
  revert opened x. induction ops as [|op ops IH]; intros opened x Hs Hb; cbn [advances].
  - exists x. split; [done|]. destruct Hs. split; try done. unfold lenN. cbn. lia.
  - rewrite lenN_cons in *. destruct (sane_advance opened x op Hs) as (y & -> & Hy); [lia|]. cbn [mbind res_bind].
    destruct (IH _ y Hy) as (z & Hz & Hsz); [lia|]. exists z. split; [done|].
    by rewrite (assoc N.add).
Qed.
Lemma served_sane ops : (lenN ops < u64_modulus)%N → ∃ x, served ops = Ok x ∧ sane (lenN ops) x.
Proof.
  intros Hb. destruct (sane_advances 0 (mkRun new_relay [] []) ops) as (x & Hx & Hs); [|lia|by exists x].
  split; [apply holds_start|unfold EVENTS, lenN; cbn; lia|cbn; lia].
Qed.

(** C30. Every connection of a sandbox is told in full and in order. Whatever
    the sockets, the daemon and the sandbox do, the relay never panics, and of
    each connection the events say: that it opened; then at most two calls,
    each a request that passed the gate, the first before and the second after
    the connection was initialized; and that it closed, once, exactly when it
    is no longer open and no closure of it waits for room. *)
Theorem connections_are_told ops c : (lenN ops < u64_modulus)%N →
  ∃ x cs, served ops = Ok x ∧ legal cs ∧
  talk c (log x) =
    (if (0 <? c)%N && (c <=? next (relay_ x))%N then SOpen :: (SCall <$> cs) else []) ++
    (if (0 <? c)%N && (c <=? next (relay_ x))%N && negb (bool_decide (is_Some (peers (relay_ x) !! c))) &&
        negb (bool_decide (c ∈ closed (relay_ x))) then [SClose] else []).
Proof.
  intros Hb. destruct (served_sane ops Hb) as (x & Hx & [[Hp Hf [Hnd Hcl] Ht] _ _]).
  exists x. specialize (Ht c). unfold tells in Ht. destruct (peers (relay_ x) !! c) as [p|] eqn:Hpc.
  - destruct Ht as (cs & Ht & [Hl _ _ _]). exists cs. split; [done|]. split; [done|]. rewrite Ht.
    destruct (Hp _ _ Hpc) as [_ [Hlo Hhi]].
    rewrite (proj2 (N.ltb_lt _ _) Hlo), (proj2 (N.leb_le _ _) Hhi), (bool_decide_eq_true_2 (is_Some (Some p))) by done.
    cbn [andb negb]. by rewrite !app_nil_r.
  - rewrite bool_decide_eq_false_2 by (by intros []). destruct (bool_decide_reflect (c ∈ closed (relay_ x))) as [Hin|Hin].
    + destruct Ht as (cs & Ht & Hl). exists cs. rewrite Forall_forall in Hcl.
      destruct (Hcl _ Hin) as (_ & Hlo & Hhi). rewrite Ht, (proj2 (N.ltb_lt _ _) Hlo), (proj2 (N.leb_le _ _) Hhi).
      cbn [andb negb]. by rewrite !app_nil_r.
    + destruct ((0 <? c)%N && (c <=? next (relay_ x))%N).
      * destruct Ht as (cs & Ht & Hl). exists cs. by rewrite Ht.
      * exists []. by rewrite Ht.
Qed.

(** C31. The relay's memory is bounded. In every run there are at most eight
    connections and sixteen events; a connection holds at most 32 KiB of
    input and a decoder that keeps its own bound, and at most 2 MiB of replies,
    counted exactly, of which the first is not sent in full. *)
Theorem relay_is_bounded ops : (lenN ops < u64_modulus)%N →
  ∃ x, served ops = Ok x ∧ (N.of_nat (size (peers (relay_ x))) <= CONNECTIONS)%N ∧ (lenN (events x) <= EVENTS)%N ∧
  map_Forall (λ _ p, (lenN (input p) <= BUFFERED)%N ∧ (queued p <= QUEUE)%N ∧
    (queued p + offset p = total (output p))%N ∧
    match output p with [] => offset p = 0%N | front :: _ => (offset p < lenN front)%N end ∧
    (closing p = false → dead p = false → (lenN (data (decoder p)) < MAX_HEADER + MAX_REQUEST + 1)%N))
    (peers (relay_ x)).
Proof.
  intros Hb. destruct (served_sane ops Hb) as (x & Hx & [[Hp Hf _ _] Hr _]).
  exists x. split_and!; try done. intros c p Hc. destruct (Hp _ _ Hc) as [[Hi Hq Hbound Ho _ _ Hread] _].
  split_and!; try done. intros Hcl Hd. destruct (Hread Hcl Hd) as [Hrd Hlim]. unfold reading in Hrd.
  destruct (body (decoder p)) as [[o n]|]; [rewrite Hlim in Hrd|]; unfold MAX_HEADER, MAX_REQUEST in *; lia.
Qed.
End relay.

(** ** A run *)
Module Examples.
Definition hello : Value := json_object [("jsonrpc", String_ "2.0"); ("id", Number 1); ("method", String_ "initialize")].
Definition reply : Value := json_object [("id", Number 1); ("result", Null)].
(** Every body reads as [hello]. *)
Definition hello_json : JsonText := {|
  from_bytes := λ _, Some hello; json_error := λ _, ""; to_bytes := λ _, bytes "{}" |}.
#[local] Existing Instances hello_json ProtocolSpec.Examples.some_error ProtocolSpec.Examples.plain_payloads.

Definition quiet (_ : N) : Io := mkIo WriteBlocks ReadBlocks WriteBlocks.
Definition says (_ : N) : Io := mkIo WriteBlocks (GotBytes (Framing.frame_of (bytes "{}"))) WriteBlocks.
(** A connection initializes and repeats itself after the reply; the end then
    closes it. *)
Definition ops : list RelayOp :=
  [OpOpen 0 true; OpTick false 1 says; OpSend 2 1 reply; OpTick false 3 says; OpTake 2; OpEnd].
Definition summary (x : Run) :=
  (lenN (past x), lenN (events x), next (relay_ x), bool_decide (is_Some (peers (relay_ x) !! 1%N)),
   bool_decide (1%N ∈ closed (relay_ x))).
Definition outcome (l : list RelayOp) : option (N * N * N * bool * bool) :=
  match served plain_policy ∅ l with Ok x => Some (summary x) | _ => None end.
Lemma summary_is l x o : served plain_policy ∅ l = Ok x → outcome l = Some o → summary x = o.
Proof. unfold outcome. intros ->. congruence. Qed.

Lemma connections_are_told_witness :
  outcome ops = Some (2%N, 2%N, 1%N, false, false) ∧
  ∃ x cs, served plain_policy ∅ ops = Ok x ∧ talk 1 (log x) = SOpen :: (SCall <$> cs) ++ [SClose].
Proof.
  assert (outcome ops = Some (2%N, 2%N, 1%N, false, false)) as Ho by (vm_compute; reflexivity). split; [exact Ho|].
  destruct (connections_are_told plain_policy ∅ ops 1) as (x & cs & Hx & _ & Ht); [reflexivity|].
  exists x, cs. split; [exact Hx|]. rewrite Ht. clear Ht.
  assert (summary x = (2%N, 2%N, 1%N, false, false)) as Hs by exact (summary_is _ _ _ Hx Ho).
  unfold summary in Hs. apply pair_eq in Hs as [[[[_ _]%pair_eq Hn]%pair_eq Hp]%pair_eq Hc].
  rewrite Hn, Hp, Hc. reflexivity.
Defined.
Lemma relay_is_bounded_witness :
  outcome (firstn 2 ops) = Some (0%N, 2%N, 1%N, true, false) ∧
  ∃ x p, served plain_policy ∅ (firstn 2 ops) = Ok x ∧ peers (relay_ x) !! 1%N = Some p ∧ (queued p <= QUEUE)%N.
Proof.
  assert (outcome (firstn 2 ops) = Some (0%N, 2%N, 1%N, true, false)) as Ho by (vm_compute; reflexivity).
  split; [exact Ho|].
  destruct (relay_is_bounded plain_policy ∅ (firstn 2 ops)) as (x & Hx & _ & _ & Hp); [reflexivity|].
  assert (summary x = (0%N, 2%N, 1%N, true, false)) as Hs by exact (summary_is _ _ _ Hx Ho).
  unfold summary in Hs. apply pair_eq in Hs as [[_ [p Hpc]%bool_decide_eq_true]%pair_eq _].
  exists x, p. split; [exact Hx|]. split; [exact Hpc|]. destruct (Hp _ _ Hpc) as (_ & Hq & _). exact Hq.
Defined.
End Examples.
